(* ===== verification/_CoqProject ===== *)
-Q . S2P
Prelude.v
GoStrings.v
Base64.v
GoTime.v
GoDuration.v
GoFloat.v
Apperr.v
Task.v
UuidInstance.v
MemRepo.v
ConfigBase.v
ConfigSections.v
ConfigFacts.v
ConfigReload.v
ConfigProps.v
ConfigLoad.v
JobStore.v
JobFacts.v
JobProps.v
Backoff.v
Pool.v
PoolProps.v
Outbox.v
PgRepo.v
TaskService.v
Backends.v
OutboxProps.v
Sha256.v
Http.v
Mux.v
ConfigDuration.v
Sink.v
Migrate.v
Auth.v
RateLimit.v
Idem.v
IdemProps.v
Webhook.v
WebhookClient.v
Delivery.v
Api.v
ApiProps.v
Regexp.v
Logging.v
LoggingProps.v
LogHandlers.v
Purger.v
Admin.v
Listener.v
PoolRun.v
PoolRunProps.v
Fleet.v
Tracing.v
Metrics.v
MetricsProps.v
Resilience.v
Reloader.v
Public.v
PgPool.v
Runner.v
App.v
AppProps.v
Commands.v
