(* ===== verification/Prelude.v ===== *)
(** * A verification library for the task API and its job queue

    The program (src/, in Go) is an HTTP service for tasks with two storage backends,
    an outbox written with every change, a job queue in Postgres drained by a pool of
    workers that deliver webhooks, and around them authentication, rate limits,
    idempotency keys, layered configuration with hot reload, logging and an ordered
    shutdown.  Each part is modelled as the code has it, operation by operation, and the
    theorems state what makes it correct.  Where the code does not do what a comment or
    an invariant says, an [Example] shows it on a concrete input.

    ** How the parts interact

    A request passes the middleware ([Http], [RateLimit], [Auth], [Idem]; [Api] composes
    them in the order of runtime/handler.go) and reaches a procedure ([Api]), which calls
    the task service ([TaskService]) over the interface [Repository].  [MemRepo] and
    [PgRepo] implement it; [PgRepo] appends the event of each change to the job table in
    the same transaction ([Outbox]).  [JobStore] is that table with its statements,
    [Pool] the workers that claim from it, [Backoff] the delays, [Webhook] the handler
    they run, under the policies [Resilience] builds; [Delivery] follows an event through
    all of these, with processes dying on the way.  [ConfigLoad] and [ConfigReload]
    build and replace the configuration of [ConfigSections], one reload per signal
    ([Reloader]); [App] builds the process from it and [Runner] starts and drains its
    goroutines, of which [PoolRun] are the pool's; [Logging] carries what they say, [Metrics]
    what is counted, and [Admin] serves the private port.  [Public] is the handler of the
    public port, [Commands] the command line, [Migrate] the schema; [Sink] is the receiver
    the demonstrations deliver to.

    ** Files

    - Go's standard library, as far as it is used: [GoStrings], [Base64], [GoTime],
      [GoDuration], [GoFloat] (float64 on integers with exact rounding), [Sha256],
      [Regexp], [Mux] (http.ServeMux).
    - [Apperr] (internal/apperr): error values, [errors.Is] and [errors.As], kinds.
    - [Task], [UuidInstance], [MemRepo], [TaskService], [PgRepo], [Outbox] (internal/task
      with memrepo and pgrepo, internal/outbox, internal/postgres/tx.go, leader.go); facts
      in [Backends] and [OutboxProps].
    - [ConfigBase], [ConfigSections], [ConfigReload], [ConfigLoad], [ConfigDuration],
      [Reloader] (internal/config, internal/app/reload.go); facts in [ConfigFacts],
      [ConfigProps] and at the end of the others.
    - [JobStore], [Backoff], [Pool], [PoolRun], [Listener] (internal/queue,
      migrations/0001); facts in [JobFacts], [JobProps], [PoolProps], [PoolRunProps].
    - [Http], [Auth], [RateLimit], [Idem], [Purger], [Webhook], [Resilience], [Api],
      [Public] (internal/httpx, auth, ratelimit, idempotency, queue/handler, resilience,
      api and runtime, docs); facts in [IdemProps], [ApiProps] and at the end of the others.
    - [Delivery]: the system of replicas, workers, leader and endpoint, from the commit of a
      change to the row of its job.  [Fleet]: the same with every process goroutine by
      goroutine, executable, simulated by [Delivery].
    - [WebhookClient]: the HTTP client of the webhook, the redirects it follows and what each
      attempt reports.
    - [Logging], [LogHandlers], [Tracing], [Metrics], [Admin], [PgPool] (internal/logging,
      internal/tracing, internal/metrics, internal/admin, internal/postgres/pool.go); facts
      in [LoggingProps], [MetricsProps].  [Logging] has the chain of handlers as one function,
      [LogHandlers] as the objects [With] and [WithGroup] derive.
    - [Migrate], [Runner], [App], [Commands] (internal/postgres/migrate.go, internal/app,
      internal/cli, internal/buildinfo, cmd/taskapi); facts in [AppProps].
    - [Sink] (deploy/webhook-sink).

    ** Conventions

    State is passed explicitly: a store is a [gmap] or a record, an operation a function
    from it to a result and the next one.  A function that returns a value and an error
    is a [result]; a nil error is [None].  Concurrency is a sequence of atomic steps in
    any order: [JobFacts.runs] for statements of any workers, [Pool.pexec] for what a pool
    has in hand, [PoolRun.rexec] for its goroutines with their program counters, which
    refines it, [Runner.step] for a process, [Delivery.dstep] for all that touches an event,
    which [Fleet.fexec] refines; there the logs of committed events and sent requests are read by no step.  What a step reads from outside - the clock,
    random draws, rows locked by others and the order in which an [UPDATE] hands its rows
    back ([JobStore.picks]), the failures of the driver - is an argument.  [DbOk] is a
    statement the database accepted; one it refuses, like text that is not UTF-8, is a
    [DbErr] that was not applied.  [Runner.tstep] are the steps of a process in which the
    clock moves only where the code lets time pass.
    Durations and instants are counts of nanoseconds; 64-bit arithmetic wraps with [wrap64]
    where it can overflow.

    Third-party code is a class with its documented laws and a concrete instance on which
    the witnesses run: [UuidPkg], [GoText] and [Rendering] (quoting and parsing), [Koanf],
    [Unmarshal], [TimeText], [EventJson] (the text marshalled, and the one the [jsonb] column hands back), [RateLib], [Guard] (failsafe-go), [Migrator].
    Interfaces of the program are classes too: [Repository] and the idempotency [Store], each
    with two instances, their clients proved against the class.

    ** What the theorems show

    - End to end: every committed change is in the queue, or settled as its endpoint
      answered, whatever crashed; nothing else is sent; and an event with an attempt left
      can be delivered from any reachable state.
    - Jobs: a claim is exact, whatever order it returns its jobs in; a lease has one holder and a lost one is fenced off for
      good; backoffs are waited out; finished jobs stay finished; crashed jobs come back;
      the table stays well formed under every statement.
    - Pool: every outcome is recorded as its error says; no job exceeds its budget; what
      is registered is in hand, and what is in hand registered until a lost job is claimed
      again; a drain hands back what is left; once stopped its
      goroutines run out of work and are joined before it returns.
    - Tasks: the walk over pages is complete; no update is lost; both backends answer
      alike, up to the microseconds of Postgres; a change and its event are one commit, whatever fails.
    - Requests: keyed writes are atomic and retries replay; the chain refuses in its
      order and gives every slot back; tokens, addresses and quotas are decided exactly;
      evicting idle callers is invisible.
    - Configuration: validation is exact; every path takes its value from the highest
      layer; the three spellings agree; a duration is read back as it is printed; a reload
      is all or nothing, and no signal is lost to one being served.
    - Process: a valid configuration starts unless the outside refuses; shutdown always
      ends, within one grace and what the [Stop]s outlive their contexts; [Stop]s run in table order; the exit code is the first
      failure.
    - Logs and metrics: what stands under a denied key never reaches the backend, whichever
      of the derived loggers is used; repeated
      lines are throttled with an exact count; every request and every finished job is
      counted once; the backlog is reported as it is.
    - The rest: the documentation is answered by the mux and all else by the transcoder; the
      policies of a valid configuration are usable and ordered; migrating leaves nothing
      pending; the probe dials what is listened on; purging is invisible to requests.

    ** Fuel and bounds

    [GoStrings.trim_left_fuel], [Regexp.rounds] and [Regexp.replace_from] recurse on the
    length of what is left, which every round shortens; so does [ConfigDuration.parse_loop],
    given the length of the text ([ConfigDuration.loop_fuel]).  [Runner.drive] is given one
    more step than [Runner.measure] allows, and [Runner.shutdown_terminates] shows that is
    enough; [PoolRunProps.run_weight] bounds what a stopped pool can still do.  Nothing else
    needs fuel.

    ** Not modelled

    Generated code (gen/), protocols and transcoding inside libraries (vanguard, connect,
    protojson, protovalidate), SQL as text (each statement is the function of the tables it
    denotes), spans and exposition formats, cobra's parsing, and the containers, processes
    and clients of the test harness.  Of failsafe-go and golang-migrate only their documented
    behaviour is used.  A [Stop] may outlive its context by a bounded time only
    ([Runner.shutdown_terminates]), the statements of [runWorkers] take none, and a handler
    that never returns is a worker that takes no further step.  [Delivery.dstep] leaves the
    batch, the lease and the delays of its steps free, which covers every configuration.  [LogValuer]s that resolve forever are not represented. *)
From stdpp Require Export base gmap strings list sorting numbers pretty.
From stdpp Require Import options.

Declare Scope go_scope.
Delimit Scope go_scope with go.
Open Scope Z_scope.

(** ** Results

    A Go function that returns [(T, error)] returns a [result E T]. *)

Inductive result (E A : Type) : Type :=
  | Ok (a : A)
  | Err (e : E).
Arguments Ok {E A} _.
Arguments Err {E A} _.

#[export] Instance result_ret E : MRet (result E) := λ A a, Ok a.
#[export] Instance result_bind E : MBind (result E) := λ A B f m,
  match m with Ok a => f a | Err e => Err e end.
#[export] Instance result_fmap E : FMap (result E) := λ A B f m,
  match m with Ok a => Ok (f a) | Err e => Err e end.

Definition is_ok {E A} (r : result E A) : bool :=
  match r with Ok _ => true | Err _ => false end.

(** ** Machine integers

    Go's [int], [int64] and [time.Duration] are 64-bit two's complement. *)

Definition int64_min : Z := - 2 ^ 63.
Definition int64_max : Z := 2 ^ 63 - 1.
Definition wrap64 (z : Z) : Z := (z + 2 ^ 63) mod 2 ^ 64 - 2 ^ 63.
Definition in_int64 (z : Z) : Prop := int64_min ≤ z ≤ int64_max.

Lemma wrap64_id (z : Z) : in_int64 z → wrap64 z = z.
Proof.
  unfold in_int64, int64_min, int64_max, wrap64. intros H.
  rewrite Z.mod_small; lia.
Qed.

Lemma wrap64_range (z : Z) : in_int64 (wrap64 z).
Proof.
  unfold in_int64, int64_min, int64_max, wrap64.
  pose proof (Z.mod_pos_bound (z + 2 ^ 63) (2 ^ 64)). lia.
Qed.

(** ** Durations and instants

    A [time.Duration] and a [time.Time] are counts of nanoseconds; an instant
    counts from Go's zero time, 0001-01-01T00:00:00Z. *)

Definition second : Z := 1_000_000_000.
Definition millisecond : Z := 1_000_000.
Definition minute : Z := 60 * second.
Definition hour : Z := 60 * minute.

(** ** Automation *)

Create HintDb taskapi.

(** Split every conjunction of the context and substitute equations. *)
Ltac split_all :=
  repeat match goal with
  | H : _ ∧ _ |- _ => destruct H
  | H : ∃ _, _ |- _ => destruct H
  | H : andb _ _ = true |- _ => apply andb_true_iff in H; destruct H
  end.

(** Turn the boolean integer tests of the context and goal into order facts. *)
Ltac zbool :=
  repeat match goal with
  | H : (_ <=? _)%Z = true |- _ => apply Z.leb_le in H
  | H : (_ <=? _)%Z = false |- _ => apply Z.leb_gt in H
  | H : (_ <? _)%Z = true |- _ => apply Z.ltb_lt in H
  | H : (_ <? _)%Z = false |- _ => apply Z.ltb_ge in H
  | H : (_ =? _)%Z = true |- _ => apply Z.eqb_eq in H
  | H : (_ =? _)%Z = false |- _ => apply Z.eqb_neq in H
  | H : bool_decide _ = true |- _ => apply bool_decide_eq_true in H
  | H : bool_decide _ = false |- _ => apply bool_decide_eq_false in H
  | |- (_ <=? _)%Z = true => apply Z.leb_le
  | |- (_ <=? _)%Z = false => apply Z.leb_gt
  | |- (_ <? _)%Z = true => apply Z.ltb_lt
  | |- (_ <? _)%Z = false => apply Z.ltb_ge
  | |- (_ =? _)%Z = true => apply Z.eqb_eq
  | |- (_ =? _)%Z = false => apply Z.eqb_neq
  | |- bool_decide _ = true => apply bool_decide_eq_true
  | |- bool_decide _ = false => apply bool_decide_eq_false
  end.

(** Case on the scrutinee of some [match] or [if] of the goal or context. *)
Ltac crush_match :=
  repeat (case_match; simplify_eq/=; try done).

(** Close an equation between closed terms by evaluating both sides. *)
Ltac vm_eq :=
  lazymatch goal with |- _ = ?b => vm_cast_no_check (eq_refl b) end.

(** Close a decidable closed proposition by evaluating its decision. *)
Ltac vm_decide :=
  apply (bool_decide_unpack _); vm_compute; exact I.

(** ** Step relations *)

Section reachability.
Context {S : Type} (step : S → S → Prop).

(** An invariant of every step holds along every run. *)
Lemma rtc_invariant (I : S → Prop) :
  (∀ s s', I s → step s s' → I s') →
  ∀ s s', rtc step s s' → I s → I s'.
Proof. intros Hstep s s' Hrun. induction Hrun; eauto. Qed.

(** A run preserves a reflexive and transitive relation every step implies. *)
Lemma rtc_preorder (R : S → S → Prop) `{!PreOrder R} :
  (∀ s s', step s s' → R s s') → ∀ s s', rtc step s s' → R s s'.
Proof.
  intros Hstep s s' Hrun. induction Hrun as [|x y z Hxy _ IH]; [done|].
  transitivity y; auto.
Qed.
End reachability.

(** ** Options *)

(** A computation that succeeds gives its default-free result; evaluating the test alone is
    much cheaper than comparing two results. *)
Lemma default_Some {A} (d : A) (o : option A) :
  (if o then true else false) = true → o = Some (default d o).
Proof. by destruct o. Qed.

(** ** Lists *)

Lemma filter_true {A} (P : A → Prop) `{∀ x, Decision (P x)} (l : list A) :
  (∀ x, x ∈ l → P x) → filter P l = l.
Proof.
  induction l as [|x l IH]; intros HP; [done|].
  rewrite filter_cons_True by (apply HP; left).
  f_equal. apply IH. intros y Hy. apply HP. by right.
Qed.

(** The first index of a list whose element satisfies a boolean test. *)
Fixpoint find_last_index {A} (f : A → bool) (l : list A) (i : nat) (acc : option nat)
  : option nat :=
  match l with
  | [] => acc
  | x :: l => find_last_index f l (S i) (if f x then Some i else acc)
  end.

#[export] Hint Resolve wrap64_range sublist_take : taskapi.
