(* ===== verification/GoStrings.v ===== *)
(** * The parts of Go's [strings] package the program uses

    A Go string is a sequence of bytes; it is modelled by a [String.string]
    whose [ascii]s are those bytes, so [len] counts bytes.  Every function here
    is a function of Go's standard library, so none has an entry in the map of
    the program's own definitions. *)
From stdpp Require Import options.
From S2P Require Import Prelude.
From Stdlib Require Import Ascii.

Definition len (s : string) : Z := Z.of_nat (String.length s).

(** The decimal rendering of [strconv.Itoa], [FormatInt] and the [%d] verb. *)
Definition itoa (n : Z) : string := pretty n.

Fixpoint contains_byte (c : ascii) (s : string) : bool :=
  match s with
  | EmptyString => false
  | String a s => bool_decide (a = c) || contains_byte c s
  end.

(** [strings.CutPrefix]. *)
Fixpoint cut_prefix (p s : string) : option string :=
  match p, s with
  | EmptyString, _ => Some s
  | String a p, String b s => if decide (a = b) then cut_prefix p s else None
  | String _ _, EmptyString => None
  end.

Definition has_prefix (p s : string) : bool :=
  match cut_prefix p s with Some _ => true | None => false end.

(** [strings.Cut] around a one-byte separator: the text before its first
    occurrence, the text after it, and whether it occurs. *)
Fixpoint cut (c : ascii) (s : string) : option (string * string) :=
  match s with
  | EmptyString => None
  | String a s =>
      if decide (a = c) then Some (EmptyString, s)
      else match cut c s with
           | Some (b, r) => Some (String a b, r)
           | None => None
           end
  end.

(** [strings.Split] around a one-byte separator. *)
Fixpoint split (c : ascii) (s : string) : list string :=
  match s with
  | EmptyString => [EmptyString]
  | String a s =>
      if decide (a = c) then EmptyString :: split c s
      else match split c s with
           | x :: l => String a x :: l
           | [] => [String a EmptyString]
           end
  end.

(** [strings.Join]. *)
Fixpoint join_with (sep : string) (l : list string) : string :=
  match l with
  | [] => EmptyString
  | [x] => x
  | x :: l => (x +:+ sep +:+ join_with sep l)%string
  end.

(** ** Letter case

    [strings.ToLower], for comparison with ASCII text: ASCII letters are mapped,
    and so are the two other runes whose lower case is ASCII (U+0130, which
    lowers to [i], and U+212A, which lowers to [k]); the remaining runes lower
    to non-ASCII runes and keep their bytes here. *)

Definition lower_byte (c : ascii) : ascii :=
  let n := nat_of_ascii c in
  if (65 <=? n)%nat && (n <=? 90)%nat then ascii_of_nat (n + 32) else c.

Definition byte (n : nat) : ascii := ascii_of_nat n.

Fixpoint to_lower (s : string) : string :=
  match s with
  | EmptyString => EmptyString
  | String a rest =>
      match rest with
      | String b rest' =>
          if decide (a = byte 196 ∧ b = byte 176) then String "i" (to_lower rest')
          else match rest' with
               | String c rest'' =>
                   if decide (a = byte 226 ∧ b = byte 132 ∧ c = byte 170)
                   then String "k" (to_lower rest'')
                   else String (lower_byte a) (to_lower rest)
               | EmptyString => String (lower_byte a) (to_lower rest)
               end
      | EmptyString => String (lower_byte a) (to_lower rest)
      end
  end.

(** ** White space

    The UTF-8 encodings of the runes [unicode.IsSpace] accepts. *)

Fixpoint bytes_string (l : list nat) : string :=
  match l with
  | [] => EmptyString
  | n :: l => String (byte n) (bytes_string l)
  end.

Definition space_encodings : list string :=
  map bytes_string
    ([[9]; [10]; [11]; [12]; [13]; [32]; [194; 133]; [194; 160]; [225; 154; 128]]
     ++ map (λ n, [226; 128; 128 + n]) (seq 0 11)
     ++ [[226; 128; 168]; [226; 128; 169]; [226; 128; 175]; [226; 129; 159]; [227; 128; 128]])%nat.

(** Remove one leading element of a set of encodings. *)
Fixpoint drop_one (encs : list string) (s : string) : option string :=
  match encs with
  | [] => None
  | e :: encs => match cut_prefix e s with Some r => Some r | None => drop_one encs s end
  end.

(** Remove leading encodings; every round removes at least one byte, so the
    length of the string is fuel enough. *)
Fixpoint trim_left_fuel (fuel : nat) (encs : list string) (s : string) : string :=
  match fuel with
  | O => s
  | S fuel => match drop_one encs s with
              | Some r => trim_left_fuel fuel encs r
              | None => s
              end
  end.

Definition trim_left (encs : list string) (s : string) : string :=
  trim_left_fuel (String.length s) encs s.

Definition string_rev (s : string) : string :=
  String.string_of_list_ascii (reverse (String.list_ascii_of_string s)).

(** [strings.TrimSpace]: leading runes, then trailing ones on the reversed
    string, whose encodings are reversed too. *)
Definition trim_space (s : string) : string :=
  string_rev (trim_left (map string_rev space_encodings)
                (string_rev (trim_left space_encodings s))).

(** [strings.EqualFold] against ASCII text without [k] or [s], the two letters
    a non-ASCII rune folds to. *)
Fixpoint equal_fold (s t : string) : bool :=
  match s, t with
  | EmptyString, EmptyString => true
  | String a s, String b t => bool_decide (lower_byte a = lower_byte b) && equal_fold s t
  | _, _ => false
  end.

(** ** Laws *)

Lemma cut_prefix_Some (p s r : string) : cut_prefix p s = Some r ↔ s = (p +:+ r)%string.
Proof.
  revert s. induction p as [|a p IH]; intros s; simpl.
  - split; [by intros [= ->] | by intros ->].
  - destruct s as [|b s]; [done|]. case_decide as Hab.
    + subst b. rewrite IH. split; [intros ->; done | intros [= ->]; done].
    + split; [done | intros [= -> _]; done].
Qed.

Lemma cut_prefix_app (p r : string) : cut_prefix p (p +:+ r)%string = Some r.
Proof. by apply cut_prefix_Some. Qed.

Lemma has_prefix_spec (p s : string) : has_prefix p s = true ↔ ∃ r, s = (p +:+ r)%string.
Proof.
  unfold has_prefix. destruct (cut_prefix p s) as [r|] eqn:E.
  - apply cut_prefix_Some in E. naive_solver.
  - split; [done|]. intros [r Hr]. apply cut_prefix_Some in Hr. congruence.
Qed.

Lemma string_app_cons (c : ascii) (s t : string) :
  (String c s +:+ t = String c (s +:+ t))%string.
Proof. done. Qed.

Lemma string_app_nil_l (s : string) : ("" +:+ s = s)%string.
Proof. done. Qed.

Lemma string_app_nil_r (s : string) : (s +:+ "" = s)%string.
Proof. induction s as [|c s IH]; [done|]. by rewrite string_app_cons, IH. Qed.

Lemma string_app_assoc (s t u : string) : ((s +:+ t) +:+ u = s +:+ (t +:+ u))%string.
Proof. induction s as [|c s IH]; [done|]. by rewrite !string_app_cons, IH. Qed.

Lemma string_length_app (s t : string) :
  String.length (s +:+ t)%string = (String.length s + String.length t)%nat.
Proof. induction s as [|c s IH]; [done|]. rewrite string_app_cons. simpl. by rewrite IH. Qed.

Lemma len_app (s t : string) : len (s +:+ t)%string = len s + len t.
Proof. unfold len. rewrite string_length_app. lia. Qed.

Lemma string_app_inj_l (s t u : string) : (s +:+ t = s +:+ u)%string → t = u.
Proof. induction s as [|c s IH]; [done|]. rewrite !string_app_cons. intros [= H]. auto. Qed.

Lemma string_app_inj_len (s s' t t' : string) :
  String.length s = String.length s' → (s +:+ t = s' +:+ t')%string → s = s' ∧ t = t'.
Proof.
  revert s'. induction s as [|c s IH]; intros [|c' s']; simpl; try done.
  rewrite !string_app_cons. intros [= Hl] [= -> H].
  destruct (IH s' Hl H) as [-> ->]. done.
Qed.

Lemma cut_Some (c : ascii) (s b r : string) :
  cut c s = Some (b, r) → s = (b +:+ String c r)%string ∧ contains_byte c b = false.
Proof.
  revert b r. induction s as [|a s IH]; intros b r; simpl; [done|].
  case_decide as Hac; [by intros [= <- <-]; subst|].
  destruct (cut c s) as [[b' r']|]; [|done]. intros [= <- <-].
  destruct (IH b' r' eq_refl) as [-> Hb]. split; [done|].
  simpl. by rewrite bool_decide_false.
Qed.

Lemma cut_app (c : ascii) (b r : string) :
  contains_byte c b = false → cut c (b +:+ String c r)%string = Some (b, r).
Proof.
  induction b as [|a b IH]; simpl.
  - intros _. by rewrite decide_True.
  - intros [Ha Hb]%orb_false_iff.
    apply bool_decide_eq_false in Ha. rewrite decide_False by done. by rewrite IH.
Qed.

Lemma contains_byte_app (c : ascii) (s t : string) :
  contains_byte c (s +:+ t)%string = contains_byte c s || contains_byte c t.
Proof.
  induction s as [|a s IH]; [done|]. simpl. by rewrite IH, orb_assoc.
Qed.

(** Lexicographic byte order, which is what [<] on Go strings compares. *)
Lemma string_ltb_irrefl (s : string) : String.ltb s s = false.
Proof.
  unfold String.ltb. induction s as [|a s IH]; [done|]. simpl.
  unfold Ascii.compare. by rewrite N.compare_refl.
Qed.

Lemma string_ltb_trans (s t u : string) :
  String.ltb s t = true → String.ltb t u = true → String.ltb s u = true.
Proof.
  unfold String.ltb. revert t u.
  induction s as [|a s IH]; intros [|b t] [|c u]; simpl; try done.
  unfold Ascii.compare.
  destruct (N.compare_spec (N_of_ascii a) (N_of_ascii b)) as [Hab|Hab|Hab];
    destruct (N.compare_spec (N_of_ascii b) (N_of_ascii c)) as [Hbc|Hbc|Hbc];
    destruct (N.compare_spec (N_of_ascii a) (N_of_ascii c)) as [Hac|Hac|Hac];
    try done; try lia; apply IH.
Qed.

Lemma string_ltb_total (s t : string) :
  String.ltb s t = false → String.ltb t s = false → s = t.
Proof.
  unfold String.ltb. rewrite (String.compare_antisym s t).
  destruct (String.compare t s) eqn:E; simpl; try done.
  intros _ _. symmetry. by apply String.compare_eq_iff in E.
Qed.

Lemma string_ltb_asymm (s t : string) : String.ltb s t = true → String.ltb t s = false.
Proof.
  intros H1. destruct (String.ltb t s) eqn:H2; [|done].
  pose proof (string_ltb_trans _ _ _ H1 H2). by rewrite string_ltb_irrefl in H.
Qed.

Create Rewrite HintDb gostr.
#[export] Hint Rewrite string_app_cons string_app_nil_r string_app_assoc
  string_length_app : gostr.
#[export] Hint Resolve cut_prefix_app cut_app string_ltb_irrefl : taskapi.

(** ** Sanity checks against Go's documented examples *)

Example trim_space_ex : trim_space "  buy milk	 " = "buy milk".
Proof. vm_compute. reflexivity. Qed.
Example split_ex : split "," "a, b,,c" = ["a"; " b"; ""; "c"].
Proof. reflexivity. Qed.
Example trim_unicode_ex :
  trim_space (bytes_string [226; 128; 131; 97; 194; 160]%nat) = "a".
Proof. vm_compute. reflexivity. Qed.
