(* ===== verification/Base64.v ===== *)
(** * [base64.RawURLEncoding] of Go's standard library

    The unpadded URL alphabet, three bytes to four characters; the decoder skips
    carriage returns and line feeds, refuses a lone trailing character and does
    not check the trailing bits, as Go's non-strict encoding does. *)
From stdpp Require Import options.
From S2P Require Import Prelude GoStrings.
From Stdlib Require Import Ascii.

Definition code (c : ascii) : Z := Z.of_nat (nat_of_ascii c).
Definition chr (n : Z) : ascii := ascii_of_nat (Z.to_nat n).

(** The character of a six-bit value, and its inverse. *)
Definition alphabet (i : Z) : ascii :=
  if i <? 26 then chr (65 + i)
  else if i <? 52 then chr (71 + i)
  else if i <? 62 then chr (i - 4)
  else if i =? 62 then "-"%char else "_"%char.

Definition sextet (c : ascii) : option Z :=
  let n := code c in
  if (65 <=? n) && (n <=? 90) then Some (n - 65)
  else if (97 <=? n) && (n <=? 122) then Some (n - 71)
  else if (48 <=? n) && (n <=? 57) then Some (n + 4)
  else if bool_decide (c = "-"%char) then Some 62
  else if bool_decide (c = "_"%char) then Some 63
  else None.

(** [EncodeToString]. *)
Fixpoint encode (s : string) : string :=
  match s with
  | String a (String b (String c rest)) =>
      String (alphabet (code a / 4))
        (String (alphabet (code a mod 4 * 16 + code b / 16))
          (String (alphabet (code b mod 16 * 4 + code c / 64))
            (String (alphabet (code c mod 64)) (encode rest))))
  | String a (String b EmptyString) =>
      String (alphabet (code a / 4))
        (String (alphabet (code a mod 4 * 16 + code b / 16))
          (String (alphabet (code b mod 16 * 4)) EmptyString))
  | String a EmptyString =>
      String (alphabet (code a / 4)) (String (alphabet (code a mod 4 * 16)) EmptyString)
  | EmptyString => EmptyString
  end.

Fixpoint drop_newlines (s : string) : string :=
  match s with
  | EmptyString => EmptyString
  | String c s =>
      if (code c =? 10) || (code c =? 13) then drop_newlines s else String c (drop_newlines s)
  end.

Fixpoint decode_quanta (s : string) : option string :=
  match s with
  | EmptyString => Some EmptyString
  | String _ EmptyString => None
  | String w (String x EmptyString) =>
      i ← sextet w; j ← sextet x; Some (String (chr (i * 4 + j / 16)) EmptyString)
  | String w (String x (String y EmptyString)) =>
      i ← sextet w; j ← sextet x; k ← sextet y;
      Some (String (chr (i * 4 + j / 16))
             (String (chr (j mod 16 * 16 + k / 4)) EmptyString))
  | String w (String x (String y (String z rest))) =>
      i ← sextet w; j ← sextet x; k ← sextet y; l ← sextet z;
      t ← decode_quanta rest;
      Some (String (chr (i * 4 + j / 16))
             (String (chr (j mod 16 * 16 + k / 4))
               (String (chr (k mod 4 * 64 + l)) t)))
  end.

(** [DecodeString]. *)
Definition decode (s : string) : option string := decode_quanta (drop_newlines s).

(** ** The round trip *)

Lemma code_range (c : ascii) : 0 ≤ code c < 256.
Proof. unfold code. pose proof (nat_ascii_bounded c). lia. Qed.

Lemma chr_code (c : ascii) : chr (code c) = c.
Proof. unfold chr, code. rewrite Nat2Z.id. apply ascii_nat_embedding. Qed.

Definition alphabet_ok (i : Z) : bool :=
  bool_decide (sextet (alphabet i) = Some i)
  && negb ((code (alphabet i) =? 10) || (code (alphabet i) =? 13)).

Lemma alphabet_table : forallb (λ i, alphabet_ok (Z.of_nat i)) (seq 0 64) = true.
Proof. vm_compute. reflexivity. Qed.

Lemma alphabet_spec (i : Z) : 0 ≤ i < 64 →
  sextet (alphabet i) = Some i
  ∧ (code (alphabet i) =? 10) || (code (alphabet i) =? 13) = false.
Proof.
  intros Hi. pose proof (proj1 (forallb_forall _ _) alphabet_table (Z.to_nat i)) as H.
  specialize (H ltac:(apply in_seq; lia)). cbv beta in H.
  rewrite Z2Nat.id in H by lia. destruct (andb_prop _ _ H) as [H1 H2].
  apply bool_decide_eq_true in H1. by apply negb_true_iff in H2.
Qed.

(** One step of the decoder on a character the encoder wrote. *)
Ltac sextets :=
  repeat match goal with
  | |- context [sextet (alphabet ?i)] =>
      rewrite (proj1 (alphabet_spec i ltac:(Z.div_mod_to_equations; lia)))
  | |- context [(code (alphabet ?i) =? 10) || _] =>
      rewrite (proj2 (alphabet_spec i ltac:(Z.div_mod_to_equations; lia)))
  end.

Ltac same_byte :=
  match goal with |- chr _ = ?c => transitivity (chr (code c)); [f_equal|apply chr_code] end;
  Z.div_mod_to_equations; lia.

Lemma string_ind3 (P : string → Prop) :
  P "" → (∀ a, P (String a "")) → (∀ a b, P (String a (String b ""))) →
  (∀ a b c s, P s → P (String a (String b (String c s)))) → ∀ s, P s.
Proof.
  intros H0 H1 H2 H3. fix IH 1.
  intros [|a [|b [|c s]]]; [apply H0|apply H1|apply H2|apply H3, IH].
Qed.

Lemma encode_no_newline (s : string) : drop_newlines (encode s) = encode s.
Proof.
  induction s as [|a|a b|a b c s IH] using string_ind3; [done|..];
    pose proof (code_range a); try pose proof (code_range b);
    try pose proof (code_range c); simpl; sextets; by rewrite ?IH.
Qed.

Theorem decode_encode (s : string) : decode (encode s) = Some s.
Proof.
  unfold decode. rewrite encode_no_newline.
  induction s as [|a|a b|a b c s IH] using string_ind3; [done|..];
    pose proof (code_range a); try pose proof (code_range b);
    try pose proof (code_range c); simpl; sextets; simpl; try rewrite IH; simpl;
    repeat f_equal; same_byte.
Qed.

Lemma encode_empty (s : string) : encode s = "" → s = "".
Proof. by destruct s as [|a [|b [|c s]]]. Qed.
