(* ===== verification/GoTime.v ===== *)
(** * Instants as text: the RFC 3339 layout of Go's [time] package

    An instant is a number of nanoseconds since 0001-01-01T00:00:00Z.  The
    program renders instants in UTC with [time.RFC3339Nano] and reads them back
    with [time.Parse]; [TimeText] is that pair with the one law the program
    relies on, and [rfc3339] is a concrete instance, so the law is satisfiable. *)
From stdpp Require Import options.
From S2P Require Import Prelude GoStrings.
From S2P Require Base64.
From Stdlib Require Import Ascii.

(** ** The interface *)

(** Instants whose year has four digits. *)
Definition max_days : Z := 3652059.
Definition day_ns : Z := 86400 * second.
Definition four_digit_year (t : Z) : Prop := 0 ≤ t < max_days * day_ns.

Class TimeText : Type := {
  format_rfc3339nano : Z → string;
  parse_rfc3339nano : string → option Z;
}.

(** What the program relies on: parsing what was formatted gives the instant
    back, and the text holds no vertical bar. *)
Class TimeTextLaws `{TimeText} : Prop := {
  parse_format (t : Z) :
    four_digit_year t → parse_rfc3339nano (format_rfc3339nano t) = Some t;
  format_no_bar (t : Z) :
    four_digit_year t → contains_byte "|"%char (format_rfc3339nano t) = false;
}.

(** ** The civil calendar

    Days are counted from 0000-03-01, so that a leap day ends a year and a
    400-year era has a fixed number of days. *)

Definition era_days : Z := 146097.

Definition leap (y : Z) : bool :=
  (y mod 4 =? 0) && (negb (y mod 100 =? 0) || (y mod 400 =? 0)).

Definition days_in (y m : Z) : Z :=
  if m =? 2 then if leap y then 29 else 28
  else if (m =? 4) || (m =? 6) || (m =? 9) || (m =? 11) then 30 else 31.

(** Month and day of a day of a year that starts in March. *)
Definition month_of_doy (doy : Z) : Z * Z :=
  let mp := (5 * doy + 2) / 153 in
  (if mp <? 10 then mp + 3 else mp - 9, doy - (153 * mp + 2) / 5 + 1).

(** The year of the era and the day of that year: centuries, four-year cycles
    and years, the last century and the last year of a cycle one day longer. *)
Definition year_of_doe (doe : Z) : Z * Z :=
  let n100 := Z.min (doe / 36524) 3 in
  let r100 := doe - 36524 * n100 in
  let n4 := r100 / 1461 in
  let r4 := r100 - 1461 * n4 in
  let n1 := Z.min (r4 / 365) 3 in
  (100 * n100 + 4 * n4 + n1, r4 - 365 * n1).

(** Year, month and day of a day of the era. *)
Definition civil_of_doe (doe : Z) : Z * Z * Z :=
  let '(yoe, doy) := year_of_doe doe in
  let '(m, d) := month_of_doy doy in
  (if m <=? 2 then yoe + 1 else yoe, m, d).

Definition doe_of_civil (yoe m d : Z) : Z :=
  let mp := if 2 <? m then m - 3 else m + 9 in
  yoe * 365 + yoe / 4 - yoe / 100 + (153 * mp + 2) / 5 + d - 1.

Definition march_offset : Z := 306.

(** The date of a day counted from 0001-01-01, and back. *)
Definition civil_of_days (n : Z) : Z * Z * Z :=
  let s := n + march_offset in
  let '(y, m, d) := civil_of_doe (s mod era_days) in
  (y + 400 * (s / era_days), m, d).

Definition days_of_civil (y m d : Z) : Z :=
  let y' := if m <=? 2 then y - 1 else y in
  y' / 400 * era_days + doe_of_civil (y' mod 400) m d - march_offset.

(** What a day of a March year must satisfy, checked on all 366 of them; only
    the last one asks for a leap February. *)
Definition doy_ok (doy : Z) : bool :=
  let '(m, d) := month_of_doy doy in
  let mp := if 2 <? m then m - 3 else m + 9 in
  ((153 * mp + 2) / 5 + d - 1 =? doy)
  && (1 <=? m) && (m <=? 12) && (1 <=? d)
  && ((d <=? days_in 1 m) || ((doy =? 365) && (m =? 2) && (d =? 29)))
  && Bool.eqb (m <=? 2) (306 <=? doy).

Fixpoint all_from (f : Z → bool) (n : nat) (z : Z) : bool :=
  match n with O => true | S n => f z && all_from f n (z + 1) end.

Lemma all_from_spec (f : Z → bool) (n : nat) (z x : Z) :
  all_from f n z = true → z ≤ x < z + Z.of_nat n → f x = true.
Proof.
  revert z. induction n as [|n IH]; simpl; intros z Hall Hx; [lia|].
  apply andb_true_iff in Hall as [Hz Hall].
  destruct (Z.eq_dec x z) as [->|]; [done|]. apply (IH (z + 1)); [done|lia].
Qed.

Lemma doy_table : all_from doy_ok 366 0 = true.
Proof. vm_compute. reflexivity. Qed.

Lemma days_in_common (y m d : Z) : d ≤ days_in 1 m → d ≤ days_in y m.
Proof. unfold days_in. change (leap 1) with false. case_match; [case_match; lia|done]. Qed.

Lemma month_of_doy_spec (doy m d : Z) :
  0 ≤ doy ≤ 365 → month_of_doy doy = (m, d) →
  (153 * (if 2 <? m then m - 3 else m + 9) + 2) / 5 + d - 1 = doy
  ∧ 1 ≤ m ≤ 12 ∧ 1 ≤ d ∧ (m ≤ 2 ↔ 306 ≤ doy)
  ∧ (∀ y, (doy = 365 → leap y = true) → d ≤ days_in y m).
Proof.
  intros Hdoy Hmd.
  assert (Hok : doy_ok doy = true) by (apply (all_from_spec _ 366 0); [apply doy_table|lia]).
  unfold doy_ok in Hok. rewrite Hmd in Hok.
  rewrite !andb_true_iff, orb_true_iff, !andb_true_iff, eqb_true_iff in Hok.
  destruct Hok as (((((Hd & Hm1) & Hm2) & Hd1) & Hd2) & Hm). zbool.
  split; [done|]. split; [done|]. split; [done|]. split.
  - by rewrite <- !Z.leb_le, Hm.
  - intros y Hleap. destruct Hd2 as [Hd2 | [[H365 ->%Z.eqb_eq] ->%Z.eqb_eq]]; zbool;
      [by apply days_in_common|]. unfold days_in. simpl. by rewrite Hleap.
Qed.

Lemma year_of_doe_spec (doe yoe doy : Z) :
  0 ≤ doe < era_days → year_of_doe doe = (yoe, doy) →
  doe = yoe * 365 + yoe / 4 - yoe / 100 + doy ∧ 0 ≤ yoe < 400 ∧ 0 ≤ doy ≤ 365
  ∧ (doy = 365 → leap (yoe + 1) = true).
Proof.
  unfold era_days, year_of_doe. intros Hdoe.
  set (n100 := Z.min (doe / 36524) 3). set (r100 := doe - 36524 * n100).
  set (n4 := r100 / 1461). set (r4 := r100 - 1461 * n4). set (n1 := Z.min (r4 / 365) 3).
  intros [= <- <-].
  assert (0 ≤ n100 ≤ 3 ∧ 0 ≤ r100 ≤ 36524 ∧ (r100 = 36524 → n100 = 3))
    by (unfold r100, n100; Z.div_mod_to_equations; lia).
  assert (0 ≤ n4 ≤ 24 ∧ 0 ≤ r4 ≤ 1460) by (unfold r4, n4; Z.div_mod_to_equations; lia).
  assert (0 ≤ n1 ≤ 3 ∧ 0 ≤ r4 - 365 * n1 ≤ 365 ∧ (r4 - 365 * n1 = 365 → n1 = 3))
    by (unfold n1; Z.div_mod_to_equations; lia).
  assert (H4 : (100 * n100 + 4 * n4 + n1) / 4 = 25 * n100 + n4) by (Z.div_mod_to_equations; lia).
  assert (H100 : (100 * n100 + 4 * n4 + n1) / 100 = n100) by (Z.div_mod_to_equations; lia).
  rewrite H4, H100. split; [unfold r4, r100; lia|]. split; [lia|]. split; [lia|].
  intros H365. assert (n1 = 3) by lia. assert (n4 = 24 → n100 = 3) by (unfold r4 in *; lia).
  clearbody n100 n4 r100 r4 n1. subst n1.
  unfold leap. apply andb_true_iff. split; [zbool; Z.div_mod_to_equations; lia|].
  apply orb_true_iff. destruct (Z.eq_dec n4 24).
  - right. zbool. subst. replace n100 with 3 by lia. done.
  - left. apply negb_true_iff. zbool. Z.div_mod_to_equations; lia.
Qed.

Lemma days_in_periodic (y m k : Z) : days_in (y + 400 * k) m = days_in y m.
Proof.
  unfold days_in, leap.
  replace (y + 400 * k) with (y + 100 * k * 4) at 1 by ring. rewrite Z.mod_add by done.
  replace (y + 400 * k) with (y + 4 * k * 100) at 1 by ring. rewrite Z.mod_add by done.
  replace (y + 400 * k) with (y + k * 400) by ring. rewrite Z.mod_add by done.
  done.
Qed.

(** A four-digit-year day is a valid date, and the date determines the day. *)
Lemma civil_of_days_spec (n y m d : Z) :
  0 ≤ n < max_days → civil_of_days n = (y, m, d) →
  days_of_civil y m d = n ∧ 0 ≤ y ≤ 9999 ∧ 1 ≤ m ≤ 12 ∧ 1 ≤ d ≤ days_in y m.
Proof.
  unfold civil_of_days, days_of_civil, max_days, civil_of_doe. intros Hn.
  set (s := n + march_offset).
  assert (Hdoe : 0 ≤ s mod era_days < era_days) by (apply Z.mod_pos_bound; done).
  assert (Hs : s = era_days * (s / era_days) + s mod era_days) by (apply Z.div_mod; done).
  assert (0 ≤ s / era_days) by (apply Z.div_pos; [unfold s, march_offset; lia|done]).
  remember (s / era_days) as e. remember (s mod era_days) as doe.
  destruct (year_of_doe doe) as [yoe doy] eqn:Hy.
  destruct (year_of_doe_spec _ _ _ Hdoe Hy) as (Heq & Hyoe & Hdoy & Hleap).
  destruct (month_of_doy doy) as [m0 d0] eqn:Hm.
  destruct (month_of_doy_spec _ _ _ Hdoy Hm) as (Hmd & Hm12 & Hd1 & Hjf & Hdm).
  intros [= <- <- <-]. rewrite days_in_periodic. unfold doe_of_civil.
  set (mp := if 2 <? m0 then m0 - 3 else m0 + 9) in *.
  assert (yoe = 399 ∨ yoe ≤ 398) as Hlast by lia.
  assert (yoe = 399 → yoe / 4 = 99 ∧ yoe / 100 = 3) by (intros ->; done).
  unfold s, march_offset, era_days in *. clearbody mp.
  replace (if m0 <=? 2 then (if m0 <=? 2 then yoe + 1 else yoe) + 400 * e - 1
           else (if m0 <=? 2 then yoe + 1 else yoe) + 400 * e) with (yoe + e * 400)
    by (case_match; lia).
  rewrite Z.div_add, Z.mod_add, Z.div_small, Z.mod_small by lia.
  split; [lia|]. split; [case_match; zbool; lia|]. split; [done|]. split; [done|].
  case_match; zbool.
  - by apply Hdm.
  - apply Hdm. lia.
Qed.

(** ** Digits *)

Definition digit_char (n : Z) : ascii := Base64.chr (48 + n).
Definition digit_of (c : ascii) : option Z :=
  let n := Base64.code c in
  if (48 <=? n) && (n <=? 57) then Some (n - 48) else None.

Definition pow10 (w : nat) : Z := 10 ^ Z.of_nat w.

(** [w] decimal digits of [n]. *)
Fixpoint digits (w : nat) (n : Z) : string :=
  match w with
  | O => ""
  | S w => String (digit_char (n / pow10 w)) (digits w (n mod pow10 w))
  end.

Fixpoint parse_digits (w : nat) (s : string) : option (Z * string) :=
  match w, s with
  | O, _ => Some (0, s)
  | S w, String c s =>
      d ← digit_of c; '(v, r) ← parse_digits w s; Some (d * pow10 w + v, r)
  | S _, EmptyString => None
  end.

(** A fraction of [w] digits without its trailing zeros. *)
Fixpoint fraction (w : nat) (n : Z) : string :=
  if n =? 0 then ""
  else match w with
       | O => ""
       | S w => String (digit_char (n / pow10 w)) (fraction w (n mod pow10 w))
       end.

(** Leading digits as a fraction of [w] digits; further digits are dropped. *)
Fixpoint parse_fraction (w : nat) (s : string) : Z * string :=
  match s with
  | EmptyString => (0, s)
  | String c s' =>
      match digit_of c with
      | None => (0, s)
      | Some d =>
          match w with
          | O => parse_fraction O s'
          | S w => let '(v, r) := parse_fraction w s' in (d * pow10 w + v, r)
          end
      end
  end.

Definition expect (c : ascii) (s : string) : option string :=
  match s with
  | String a r => if decide (a = c) then Some r else None
  | EmptyString => None
  end.

(** ** The layout *)

Definition rfc3339_format (t : Z) : string :=
  let '(y, m, d) := civil_of_days (t / day_ns) in
  let secs := t mod day_ns / second in
  let ns := t mod second in
  (digits 4 y +:+ "-" +:+ digits 2 m +:+ "-" +:+ digits 2 d +:+ "T"
   +:+ digits 2 (secs / 3600)%Z +:+ ":" +:+ digits 2 (secs / 60 mod 60)%Z +:+ ":"
   +:+ digits 2 (secs mod 60)%Z
   +:+ (if (ns =? 0)%Z then "" else "." +:+ fraction 9 ns) +:+ "Z")%string.

(** The zone: [Z], or a signed offset in hours and minutes, in seconds. *)
Definition parse_zone (s : string) : option Z :=
  match s with
  | String "Z" EmptyString => Some 0
  | String c s =>
      sign ← (if decide (c = "+"%char) then Some 1
              else if decide (c = "-"%char) then Some (-1) else None);
      '(hh, s) ← parse_digits 2 s; s ← expect ":" s; '(mm, s) ← parse_digits 2 s;
      if decide (s = "" ∧ hh ≤ 24 ∧ mm < 60) then Some (sign * (hh * 3600 + mm * 60)) else None
  | EmptyString => None
  end.

Definition rfc3339_parse (s : string) : option Z :=
  '(y, s) ← parse_digits 4 s; s ← expect "-" s;
  '(m, s) ← parse_digits 2 s; s ← expect "-" s;
  '(d, s) ← parse_digits 2 s; s ← expect "T" s;
  '(hh, s) ← parse_digits 2 s; s ← expect ":" s;
  '(mi, s) ← parse_digits 2 s; s ← expect ":" s;
  '(ss, s) ← parse_digits 2 s;
  let '(ns, s) := match s with
                  | String "." s' => parse_fraction 9 s'
                  | _ => (0, s)
                  end in
  off ← parse_zone s;
  if (1 <=? m) && (m <=? 12) && (1 <=? d) && (d <=? days_in y m)
     && (hh <? 24) && (mi <? 60) && (ss <? 60)
  then Some (((days_of_civil y m d * 24 + hh) * 60 + mi) * 60 * second
             + (ss - off) * second + ns)
  else None.

#[export] Instance rfc3339 : TimeText := {|
  format_rfc3339nano := rfc3339_format;
  parse_rfc3339nano := rfc3339_parse;
|}.

(** ** The laws hold of the instance *)

Lemma pow10_pos (w : nat) : 0 < pow10 w.
Proof. unfold pow10. apply Z.pow_pos_nonneg; lia. Qed.

Lemma pow10_S (w : nat) : pow10 (S w) = 10 * pow10 w.
Proof. unfold pow10. rewrite Nat2Z.inj_succ, Z.pow_succ_r; lia. Qed.

Lemma digit_table :
  forallb (λ n, bool_decide (digit_of (digit_char (Z.of_nat n)) = Some (Z.of_nat n)
                             ∧ digit_char (Z.of_nat n) ≠ "|"%char)) (seq 0 10) = true.
Proof. reflexivity. Qed.

Lemma digit_spec (n : Z) : 0 ≤ n < 10 →
  digit_of (digit_char n) = Some n ∧ digit_char n ≠ "|"%char.
Proof.
  intros Hn. pose proof (proj1 (forallb_forall _ _) digit_table (Z.to_nat n)) as H.
  specialize (H ltac:(apply in_seq; lia)). cbv beta in H.
  apply bool_decide_eq_true in H. by rewrite Z2Nat.id in H by lia.
Qed.

Lemma digit_range (w : nat) (n : Z) : 0 ≤ n < pow10 (S w) →
  0 ≤ n / pow10 w < 10 ∧ 0 ≤ n mod pow10 w < pow10 w
  ∧ n / pow10 w * pow10 w + n mod pow10 w = n.
Proof.
  intros Hn. rewrite pow10_S in Hn. pose proof (pow10_pos w).
  pose proof (Z.div_mod n (pow10 w)). pose proof (Z.mod_pos_bound n (pow10 w)).
  repeat split; try lia; [apply Z.div_pos; lia | apply Z.div_lt_upper_bound; lia].
Qed.

Lemma parse_digits_app (w : nat) (n : Z) (r : string) :
  0 ≤ n < pow10 w → parse_digits w (digits w n +:+ r)%string = Some (n, r).
Proof.
  revert n. induction w as [|w IH]; intros n Hn.
  - unfold pow10 in Hn. simpl. do 2 f_equal. change (10 ^ Z.of_nat 0) with 1 in Hn. lia.
  - destruct (digit_range _ _ Hn) as (Hd & Hr & Heq). simpl.
    rewrite (proj1 (digit_spec _ Hd)). simpl. rewrite IH by done. simpl. by rewrite Heq.
Qed.

Lemma parse_fraction_app (w : nat) (n : Z) (r : string) :
  0 ≤ n < pow10 w → parse_fraction w (fraction w n +:+ String "Z" r)%string = (n, String "Z" r).
Proof.
  revert n. induction w as [|w IH]; intros n Hn.
  - change (pow10 0) with 1 in Hn. simpl. case_match; simpl; do 2 f_equal; lia.
  - destruct (digit_range _ _ Hn) as (Hd & Hr & Heq). simpl. case_match; zbool.
    + simpl. by subst.
    + simpl. rewrite (proj1 (digit_spec _ Hd)), IH by done. by rewrite Heq.
Qed.

Lemma digits_no_bar (w : nat) (n : Z) : 0 ≤ n < pow10 w → contains_byte "|"%char (digits w n) = false.
Proof.
  revert n. induction w as [|w IH]; intros n Hn; [done|].
  destruct (digit_range _ _ Hn) as (Hd & Hr & _). simpl.
  apply orb_false_iff. split; [apply bool_decide_eq_false, digit_spec, Hd | by apply IH].
Qed.

Lemma fraction_no_bar (w : nat) (n : Z) : 0 ≤ n < pow10 w → contains_byte "|"%char (fraction w n) = false.
Proof.
  revert n. induction w as [|w IH]; intros n Hn; simpl; case_match; try done.
  destruct (digit_range _ _ Hn) as (Hd & Hr & _). simpl.
  apply orb_false_iff. split; [apply bool_decide_eq_false, digit_spec, Hd | by apply IH].
Qed.

(** The fields of a four-digit-year instant are in range. *)
Lemma instant_fields (t : Z) : four_digit_year t →
  let secs := t mod day_ns / second in
  0 ≤ t / day_ns < max_days ∧ 0 ≤ t mod second < pow10 9
  ∧ 0 ≤ secs / 3600 < 24 ∧ 0 ≤ secs / 60 mod 60 < 60 ∧ 0 ≤ secs mod 60 < 60
  ∧ ((t / day_ns * 24 + secs / 3600) * 60 + secs / 60 mod 60) * 60 * second
    + secs mod 60 * second + t mod second = t.
Proof.
  unfold four_digit_year, day_ns, second, max_days.
  change (pow10 9) with 1000000000. cbv zeta. intros Ht.
  Z.div_mod_to_equations. lia.
Qed.

#[local] Arguments parse_digits : simpl never.
#[local] Arguments digits : simpl never.
#[local] Arguments parse_fraction : simpl never.
#[local] Arguments fraction : simpl never.

Ltac digits_step :=
  match goal with
  | |- context [parse_digits ?w (digits ?w ?n +:+ ?r)%string] =>
      rewrite (parse_digits_app w n r) by
        (change (pow10 4) with 10000; change (pow10 2) with 100; lia); simpl;
      rewrite ?string_app_nil_l
  end.

Lemma rfc3339_parse_format (t : Z) :
  four_digit_year t → rfc3339_parse (rfc3339_format t) = Some t.
Proof.
  intros Ht. destruct (instant_fields t Ht) as (Hday & Hns & Hh & Hm & Hs & Heq).
  unfold rfc3339_format, rfc3339_parse.
  destruct (civil_of_days (t / day_ns)) as [[y m] d] eqn:Hc.
  destruct (civil_of_days_spec _ _ _ _ Hday Hc) as (Hback & Hy & Hm12 & Hd).
  assert (d ≤ 31) by (revert Hd; unfold days_in; repeat case_match; lia).
  set (secs := t mod day_ns / second) in *.
  digits_step. digits_step. digits_step. digits_step. digits_step. digits_step.
  assert (Hfields : (1 <=? m) && (m <=? 12) && (1 <=? d) && (d <=? days_in y m)
     && (secs / 3600 <? 24) && (secs / 60 mod 60 <? 60) && (secs mod 60 <? 60) = true).
  { rewrite !andb_true_iff. repeat split; zbool; lia. }
  destruct (t mod second =? 0) eqn:Hz; zbool.
  - simpl. rewrite Hfields, Hback. f_equal. lia.
  - rewrite string_app_assoc. simpl.
    rewrite string_app_nil_l, (parse_fraction_app 9 _ "") by done. simpl.
    rewrite Hfields, Hback. f_equal. lia.
Qed.

Lemma rfc3339_no_bar (t : Z) :
  four_digit_year t → contains_byte "|"%char (rfc3339_format t) = false.
Proof.
  intros Ht. destruct (instant_fields t Ht) as (Hday & Hns & Hh & Hm & Hs & _).
  unfold rfc3339_format. destruct (civil_of_days (t / day_ns)) as [[y m] d] eqn:Hc.
  destruct (civil_of_days_spec _ _ _ _ Hday Hc) as (_ & Hy & Hm12 & Hd).
  assert (d ≤ 31) by (revert Hd; unfold days_in; repeat case_match; lia).
  rewrite !contains_byte_app.
  rewrite !digits_no_bar by (change (pow10 4) with 10000; change (pow10 2) with 100; lia).
  case_match; [done|]. rewrite contains_byte_app, fraction_no_bar; done.
Qed.

#[export] Instance rfc3339_laws : TimeTextLaws.
Proof. split; [apply rfc3339_parse_format | apply rfc3339_no_bar]. Qed.

Example rfc3339_ex :
  rfc3339_format (days_of_civil 2026 8 13 * day_ns + 3723 * second + 250000000)
  = "2026-08-13T01:02:03.25Z".
Proof. vm_compute. reflexivity. Qed.
