(* ===== verification/GoDuration.v ===== *)
(** * [time.Duration.String] of Go's standard library *)
From stdpp Require Import options.
From S2P Require Import Prelude GoStrings.
From Stdlib Require Import Ascii.

Definition digit_char (d : Z) : ascii := ascii_of_nat (Z.to_nat (48 + d)).

(** [fmtFrac]: the last [prec] digits of [v] as a fraction without its trailing
    zeros, and the rest of [v]. *)
Fixpoint fmt_frac (prec : nat) (v : Z) (print : bool) (acc : string) : string * Z :=
  match prec with
  | O => (if print then String "." acc else acc, v)
  | S prec =>
      let d := v mod 10 in
      let print := print || negb (d =? 0) in
      fmt_frac prec (v / 10) print (if print then String (digit_char d) acc else acc)
  end.

Definition with_frac (prec : nat) (v : Z) (unit_ : string) : string :=
  let '(f, v) := fmt_frac prec v false unit_ in (itoa v +:+ f)%string.

Definition micro_unit : string := bytes_string [194; 181; 115]%nat.

(** The text of a magnitude. *)
Definition abs_String (u : Z) : string :=
  if u =? 0 then "0s"
  else if u <? 1000 then (itoa u +:+ "ns")%string
  else if u <? millisecond then with_frac 3 u micro_unit
  else if u <? second then with_frac 6 u "ms"
  else
    let '(f, v) := fmt_frac 9 u false "s" in
    let secs := (itoa (v mod 60) +:+ f)%string in
    let m := v / 60 in
    if m =? 0 then secs
    else
      let mins := (itoa (m mod 60) +:+ "m" +:+ secs)%string in
      if m / 60 =? 0 then mins else (itoa (m / 60) +:+ "h" +:+ mins)%string.

Definition Duration_String (d : Z) : string :=
  if d <? 0 then String "-" (abs_String (Z.abs d)) else abs_String (Z.abs d).

Example Duration_String_ex :
  map Duration_String [0; 1; 1500; 2_500_000; second; 90 * second; 2 * hour; - (1500 * millisecond)]
  = ["0s"; "1ns"; ("1.5" +:+ micro_unit)%string; "2.5ms"; "1s"; "1m30s"; "2h0m0s"; "-1.5s"].
Proof. vm_eq. Qed.
