(* ===== verification/GoFloat.v ===== *)
(** * The float64 arithmetic the program uses

    Where a float is a product of integers and draws [k / 2^53] it is kept as an
    integer numerator over a known power of two, and [round53] is IEEE
    round-to-nearest-even to 53 significant bits; where it is a quotient it is a
    rational, and [fround] rounds that.  No value comes near the exponent bounds. *)
From stdpp Require Import options.
From S2P Require Import Prelude.
From Stdlib Require Import QArith Qround.
Open Scope Z_scope.

Definition two53 : Z := 2 ^ 53.

(** The nearest multiple of [2^e], ties to an even multiple. *)
Definition round_at (e z : Z) : Z :=
  let p := 2 ^ e in
  let q := z / p in
  let r := z mod p in
  (if 2 * r <? p then q
   else if p <? 2 * r then q + 1
   else if Z.even q then q else q + 1) * p.

(** Rounding of a non-negative integer. *)
Definition round53_pos (z : Z) : Z :=
  if z <? two53 then z else round_at (Z.log2 z - 52) z.

Definition round53 (z : Z) : Z := if z <? 0 then - round53_pos (- z) else round53_pos z.

(** [float64(n)] of an integer. *)
Definition float64 (n : Z) : Z := round53 n.

(** [x * y] of two integral floats. *)
Definition fmul (x y : Z) : Z := round53 (x * y).

(** The conversion of an integral float to [int64]; out of range its result
    depends on the implementation, which [out_of_range] stands for. *)
Class FloatConv : Type := { out_of_range : Z → Z }.

Definition float_to_int64 `{FloatConv} (x : Z) : Z :=
  if (int64_min <=? x) && (x <=? int64_max) then x else out_of_range x.

(** [draw * x], truncated to an integer, for the draw [k / 2^53]. *)
Definition scaled_draw (k x : Z) : Z := Z.quot (round53 (k * x)) two53.

(** ** float64 arithmetic on non-negative rationals *)

(** The nearest multiple of a power of two, ties to even. *)
Definition half_even (q : Q) : Z :=
  let n := Qfloor q in
  match Qcompare (q - inject_Z n) (1 # 2) with
  | Lt => n
  | Gt => n + 1
  | Eq => if Z.even n then n else n + 1
  end.

(** The float64 nearest to a rational of the normal range. *)
Definition fround (q : Q) : Q :=
  if Qle_bool q 0 then 0%Q
  else
    let e := Z.log2 (Qnum q) - Z.log2 (Zpos (Qden q)) - 53 in
    let scale e := if 0 <=? e then (q / inject_Z (2 ^ e))%Q else (q * inject_Z (2 ^ (- e)))%Q in
    let e := if Qle_bool (inject_Z (2 ^ 53)) (scale e) then e + 1 else e in
    let m := inject_Z (half_even (scale e)) in
    Qred (if 0 <=? e then (m * inject_Z (2 ^ e))%Q else (m / inject_Z (2 ^ (- e)))%Q).

(** A span of nanoseconds that travels as a float64 of seconds - [extract(epoch FROM ...)]
    scanned into one - and is made a [time.Duration] again by
    [time.Duration(s * float64(time.Second))], which truncates. *)
Definition through_seconds (d : Z) : Z :=
  let back (n : positive) := Qfloor (fround (fround (Zpos n # 1_000_000_000) * inject_Z second)) in
  match d with Z0 => 0 | Zpos n => back n | Zneg n => - back n end.

(** ** Laws *)

Lemma pow2_pos (e : Z) : 0 ≤ e → 0 < 2 ^ e.
Proof. intros. by apply Z.pow_pos_nonneg. Qed.

Lemma round_at_bounds (e z b : Z) :
  0 ≤ e → z ≤ b * 2 ^ e → round_at e z ≤ b * 2 ^ e.
Proof.
  intros He Hb. unfold round_at. pose proof (pow2_pos e He) as Hp. set (p := 2 ^ e) in *.
  pose proof (Z.div_mod z p ltac:(lia)). pose proof (Z.mod_pos_bound z p Hp).
  apply Z.mul_le_mono_nonneg_r; [lia|].
  assert (z / p < b ∨ z / p = b ∧ z mod p = 0) as [Hlt|[-> ->]] by nia.
  - repeat case_match; lia.
  - repeat case_match; zbool; try lia.
Qed.

Lemma round_at_lower (e z b : Z) :
  0 ≤ e → b * 2 ^ e ≤ z → b * 2 ^ e ≤ round_at e z.
Proof.
  intros He Hb. unfold round_at. pose proof (pow2_pos e He) as Hp. set (p := 2 ^ e) in *.
  apply Z.mul_le_mono_nonneg_r; [lia|].
  assert (b ≤ z / p) by (apply Z.div_le_lower_bound; lia).
  repeat case_match; lia.
Qed.

Lemma round53_small (z : Z) : 0 ≤ z ≤ two53 → round53 z = z.
Proof.
  intros Hz. unfold round53. replace (z <? 0) with false by (symmetry; zbool; lia).
  unfold round53_pos. case_match; [done|]. zbool.
  assert (z = two53) as -> by lia. reflexivity.
Qed.

(** A bound with at most 53 significant bits survives rounding. *)
Lemma round53_le (z m e : Z) :
  0 ≤ z → 0 ≤ e → 0 ≤ m ≤ two53 → z ≤ m * 2 ^ e → round53 z ≤ m * 2 ^ e.
Proof.
  intros Hz He Hm Hb. unfold round53. replace (z <? 0) with false by (symmetry; zbool; lia).
  unfold round53_pos. case_match; [done|]. zbool.
  assert (Hz0 : 0 < z) by (unfold two53 in *; lia).
  pose proof (Z.log2_spec z Hz0) as [Hlo Hhi].
  assert (H53 : 53 ≤ Z.log2 z).
  { replace 53 with (Z.log2 two53) by reflexivity. by apply Z.log2_le_mono. }
  destruct (decide (Z.log2 z - 52 ≤ e)) as [Hle|Hgt].
  - assert (Hm2 : m * 2 ^ e = m * 2 ^ (e - (Z.log2 z - 52)) * 2 ^ (Z.log2 z - 52)).
    { rewrite <- Z.mul_assoc, <- Z.pow_add_r by lia. do 2 f_equal. lia. }
    rewrite Hm2 in Hb |- *. apply round_at_bounds; [lia|done].
  - assert (Hle2 : 2 ^ 53 * 2 ^ e ≤ 2 ^ Z.log2 z).
    { rewrite <- Z.pow_add_r by lia. apply Z.pow_le_mono_r; lia. }
    assert (m * 2 ^ e ≤ 2 ^ 53 * 2 ^ e).
    { apply Z.mul_le_mono_nonneg_r; [pose proof (pow2_pos e He); lia|]. unfold two53 in Hm. lia. }
    assert (Hzz : z = 2 ^ 52 * 2 ^ (Z.log2 z - 52)).
    { rewrite <- Z.pow_add_r by lia. replace (52 + (Z.log2 z - 52)) with (Z.log2 z) by lia. lia. }
    etransitivity; [|exact Hb].
    rewrite Hzz at 3. apply round_at_bounds; lia.
Qed.

Lemma round53_ge (z : Z) : two53 ≤ z → two53 ≤ round53 z.
Proof.
  intros Hz. unfold round53. replace (z <? 0) with false
    by (symmetry; zbool; unfold two53 in *; lia).
  unfold round53_pos. case_match; [zbool; lia|].
  assert (Hz0 : 0 < z) by (unfold two53 in *; lia).
  pose proof (Z.log2_spec z Hz0) as [Hlo Hhi].
  assert (H53 : 53 ≤ Z.log2 z).
  { replace 53 with (Z.log2 two53) by reflexivity. by apply Z.log2_le_mono. }
  assert (H52 : two53 ≤ 2 ^ 52 * 2 ^ (Z.log2 z - 52)).
  { rewrite <- Z.pow_add_r by lia. unfold two53. apply Z.pow_le_mono_r; lia. }
  etransitivity; [exact H52|]. apply round_at_lower; [lia|].
  rewrite <- Z.pow_add_r by lia. by replace (52 + (Z.log2 z - 52)) with (Z.log2 z) by lia.
Qed.

(** A draw scales an integer of at most 53 bits to at most itself. *)
Lemma scaled_draw_bounds (k x : Z) :
  0 ≤ k < two53 → 0 ≤ x ≤ two53 → 0 ≤ scaled_draw k x ≤ x.
Proof.
  intros Hk Hx. unfold scaled_draw.
  assert (Hle : round53 (k * x) ≤ x * 2 ^ 53).
  { apply round53_le; [nia|lia|done|]. change (2 ^ 53) with two53. nia. }
  assert (H0 : 0 ≤ round53 (k * x)).
  { destruct (decide (k * x ≤ two53)); [rewrite round53_small; nia|].
    pose proof (round53_ge (k * x)). unfold two53 in *. lia. }
  change (2 ^ 53) with two53 in Hle. split.
  - apply Z.quot_pos; [done|by vm_compute].
  - apply Z.quot_le_upper_bound; [by vm_compute|lia].
Qed.

Lemma float_to_int64_in `{FloatConv} (x : Z) : in_int64 x → float_to_int64 x = x.
Proof.
  unfold in_int64, float_to_int64. intros [H1 H2].
  by rewrite (proj2 (Z.leb_le _ _) H1), (proj2 (Z.leb_le _ _) H2).
Qed.

(** ** Rationals that are integers *)

Lemma half_even_int (q : Q) (z : Z) : (q == inject_Z z)%Q → half_even q = z.
Proof.
  intros Hq. unfold half_even. assert (Hf : Qfloor q = z) by (rewrite Hq; apply Qfloor_Z).
  rewrite Hf. assert (Hc : (q - inject_Z z ?= 1 # 2)%Q = Lt).
  { apply Qlt_alt. rewrite Hq. ring_simplify (inject_Z z - inject_Z z)%Q. reflexivity. }
  by rewrite Hc.
Qed.

Lemma fround_step (q : Q) (n e : Z) :
  e ≤ 0 → (q == inject_Z n)%Q →
  let scale e := if 0 <=? e then (q / inject_Z (2 ^ e))%Q else (q * inject_Z (2 ^ (- e)))%Q in
  let m := inject_Z (half_even (scale e)) in
  (Qred (if 0 <=? e then m * inject_Z (2 ^ e) else m / inject_Z (2 ^ (- e))) == inject_Z n)%Q.
Proof.
  intros He Hq scale m. rewrite Qred_correct. unfold m, scale. destruct (0 <=? e) eqn:E; zbool.
  - assert (e = 0) as -> by lia. change (2 ^ 0) with 1.
    rewrite (half_even_int _ n) by (rewrite Hq; field). ring.
  - assert (Hp : 0 < 2 ^ (- e)) by (apply pow2_pos; lia).
    rewrite (half_even_int _ (n * 2 ^ (- e))) by (rewrite Hq, inject_Z_mult; reflexivity).
    rewrite inject_Z_mult. field. change 0%Q with (inject_Z 0). rewrite inject_Z_injective. lia.
Qed.

(** An integer of at most 53 bits is a float. *)
Lemma fround_int (q : Q) (n : Z) :
  0 < n < two53 → (q == inject_Z n)%Q → (fround q == inject_Z n)%Q.
Proof.
  intros Hn Hq. unfold fround.
  assert (H0 : Qle_bool q 0 = false).
  { apply not_true_iff_false. rewrite Qle_bool_iff, Hq. intros Hle.
    change 0%Q with (inject_Z 0) in Hle. rewrite <- Zle_Qle in Hle. lia. }
  rewrite H0. cbv zeta. set (e0 := Z.log2 (Qnum q) - Z.log2 (Zpos (Qden q)) - 53).
  assert (Hnum : Qnum q = n * Zpos (Qden q)) by (unfold Qeq in Hq; simpl in Hq; lia).
  assert (He0 : e0 ≤ 0).
  { assert (Hl : Z.log2 (Qnum q) < 53 + (Z.log2 (Zpos (Qden q)) + 1)); [|unfold e0; lia].
    pose proof (Z.log2_spec (Zpos (Qden q)) ltac:(lia)) as [_ Hd].
    pose proof (Z.log2_nonneg (Zpos (Qden q))).
    apply Z.log2_lt_pow2; [rewrite Hnum; lia|].
    rewrite Z.pow_add_r by lia. rewrite Hnum. unfold two53 in Hn. nia. }
  apply (fround_step q n); [|done].
  destruct (Qle_bool (inject_Z (2 ^ 53)) _) eqn:Hle; [|done].
  destruct (decide (e0 = 0)) as [E|]; [|lia]. rewrite E in Hle. simpl in Hle.
  apply Qle_bool_iff in Hle. exfalso.
  assert (Hle' : (inject_Z (2 ^ 53) <= inject_Z n)%Q).
  { eapply Qle_trans; [exact Hle|]. rewrite Hq. apply Qle_lteq. right. change (2 ^ 0) with 1. field. }
  rewrite <- Zle_Qle in Hle'. unfold two53 in Hn. lia.
Qed.
