(* ===== verification/Apperr.v ===== *)
(** * Classified errors (src/internal/apperr)

    [err] is the shape of a non-nil Go [error] value as the program builds and
    inspects it: the package sentinels, [*apperr.Error], [*queue.SnoozeError],
    plain errors, and the wrappers [fmt.Errorf] makes with one or two [%w].  A
    nil error is [None].  [errors_is] and [errors_as_*] are Go's [errors.Is] and
    [errors.As]: pre-order walks of the chain. *)
From stdpp Require Import options.
From S2P Require Import Prelude GoStrings.

(** ** Kinds: a [uint8] and its closed set of constants *)

Definition Kind : Type := Z.
Definition Internal : Kind := 0.
Definition Invalid : Kind := 1.
Definition Unauthenticated : Kind := 2.
Definition Forbidden : Kind := 3.
Definition NotFound : Kind := 4.
Definition Conflict : Kind := 5.
Definition Unprocessable : Kind := 6.
Definition Exhausted : Kind := 7.
Definition Unavailable : Kind := 8.
Definition Timeout : Kind := 9.
Definition Canceled : Kind := 10.

Definition kind_range (k : Kind) : Prop := 0 ≤ k < 256.

Definition normalize (k : Kind) : Kind := if Canceled <? k then Internal else k.

Definition kind_String (k : Kind) : string :=
  let k := normalize k in
  if k =? Invalid then "invalid"
  else if k =? Unauthenticated then "unauthenticated"
  else if k =? Forbidden then "forbidden"
  else if k =? NotFound then "not_found"
  else if k =? Conflict then "conflict"
  else if k =? Unprocessable then "unprocessable"
  else if k =? Exhausted then "exhausted"
  else if k =? Unavailable then "unavailable"
  else if k =? Timeout then "timeout"
  else if k =? Canceled then "canceled"
  else "internal".

Definition kind_message (k : Kind) : string :=
  let k := normalize k in
  if k =? Invalid then "invalid argument"
  else if k =? Unauthenticated then "unauthenticated"
  else if k =? Forbidden then "forbidden"
  else if k =? NotFound then "not found"
  else if k =? Conflict then "conflict"
  else if k =? Unprocessable then "unprocessable request"
  else if k =? Exhausted then "too many requests"
  else if k =? Unavailable then "temporarily unavailable"
  else if k =? Timeout then "timed out"
  else if k =? Canceled then "canceled"
  else "internal error".

Definition kind_Retryable (k : Kind) : bool :=
  let k := normalize k in
  (k =? Unavailable) || (k =? Timeout) || (k =? Internal) || (k =? Canceled)
  || (k =? Exhausted).

(** ** Error values *)

(** Package-level sentinels the program compares with [errors.Is]. *)
Inductive sentinel : Type :=
  | CtxCanceled            (* context.Canceled *)
  | CtxDeadlineExceeded    (* context.DeadlineExceeded *)
  | ErrTerminal            (* queue.ErrTerminal *)
  | PgxErrNoRows           (* pgx.ErrNoRows *)
  | BreakerErrOpen         (* circuitbreaker.ErrOpen *)
  | BudgetErrExceeded      (* budget.ErrExceeded *)
  | HttpErrAbortHandler.   (* http.ErrAbortHandler *)

#[export] Instance sentinel_eq_dec : EqDecision sentinel.
Proof. solve_decision. Defined.

#[warnings="-register-all"]
Inductive err : Type :=
  | ENew (text : string)
  | ESentinel (s : sentinel) (text : string)
  | EApp (kind : Kind) (field msg : string) (cause : option err)
  | ESnooze (for_ : Z) (reason : string) (text : string)
  | EWrap (prefix : string) (e : err) (suffix : string)
  | EWrap2 (e1 : err) (sep : string) (e2 : err).

(** [*apperr.Error] as [errors.As] hands it out. *)
Record Error : Type := mkError {
  Error_Kind : Kind;
  Error_Field : string;
  Error_Msg : string;
  Error_Err : option err;
}.

(** The [Error() string] method of every value; for [*apperr.Error] it is the
    code's own. *)
Fixpoint err_text (e : err) : string :=
  match e with
  | ENew t => t
  | ESentinel _ t => t
  | EApp k f m c =>
      ((if decide (f = "") then "" else f +:+ ": ")
       +:+ (if decide (m = "") then kind_message k else m)
       +:+ match c with None => "" | Some c => ": " +:+ err_text c end)%string
  | ESnooze _ _ t => t
  | EWrap p e s => (p +:+ err_text e +:+ s)%string
  | EWrap2 e1 s e2 => (err_text e1 +:+ s +:+ err_text e2)%string
  end.

(** [errors.As] into [**apperr.Error]: the first one, in pre-order. *)
Fixpoint errors_as_app (e : err) : option Error :=
  match e with
  | EApp k f m c => Some (mkError k f m c)
  | EWrap _ e _ => errors_as_app e
  | EWrap2 e1 _ e2 =>
      match errors_as_app e1 with Some x => Some x | None => errors_as_app e2 end
  | _ => None
  end.

(** [errors.As] into [**queue.SnoozeError]: its delay and reason. *)
Fixpoint errors_as_snooze (e : err) : option (Z * string) :=
  match e with
  | ESnooze d r _ => Some (d, r)
  | EApp _ _ _ (Some c) => errors_as_snooze c
  | EWrap _ e _ => errors_as_snooze e
  | EWrap2 e1 _ e2 =>
      match errors_as_snooze e1 with Some x => Some x | None => errors_as_snooze e2 end
  | _ => None
  end.

(** [errors.Is] against a sentinel. *)
Fixpoint errors_is (e : err) (s : sentinel) : bool :=
  match e with
  | ESentinel s' _ => bool_decide (s' = s)
  | EApp _ _ _ (Some c) => errors_is c s
  | EWrap _ e _ => errors_is e s
  | EWrap2 e1 _ e2 => errors_is e1 s || errors_is e2 s
  | _ => false
  end.

(** The [Is] method of [*apperr.Error]: does [target] classify as this kind? *)
Definition Error_Is (e : Error) (target : err) : bool :=
  match errors_as_app target with
  | Some t => Error_Kind t =? Error_Kind e
  | None => false
  end.

(** [errors.Is] against an [*apperr.Error]: identity of pointers is subsumed by
    the [Is] method, which every [*apperr.Error] of the chain is asked. *)
Fixpoint errors_is_app (e target : err) : bool :=
  match e with
  | EApp k f m c =>
      Error_Is (mkError k f m c) target
      || match c with Some c => errors_is_app c target | None => false end
  | EWrap _ e _ => errors_is_app e target
  | EWrap2 e1 _ e2 => errors_is_app e1 target || errors_is_app e2 target
  | _ => false
  end.

(** ** Constructors; [fmt.Sprintf] has already produced the message *)

Definition New (k : Kind) (msg : string) : err := EApp k "" msg None.
Definition Wrap (k : Kind) (e : err) (msg : string) : err := EApp k "" msg (Some e).
Definition Field (name msg : string) : err := EApp Invalid name msg None.

(** ** Classification *)

Definition KindOf (e : option err) : Kind :=
  match e with
  | None => Internal
  | Some e =>
      match errors_as_app e with
      | Some a => Error_Kind a
      | None =>
          if errors_is e CtxCanceled then Canceled
          else if errors_is e CtxDeadlineExceeded then Timeout
          else Internal
      end
  end.

Definition Is (e : option err) (k : Kind) : bool := KindOf e =? k.

Definition FieldOf (e : option err) : string :=
  match e with
  | Some e => match errors_as_app e with Some a => Error_Field a | None => "" end
  | None => ""
  end.

Definition Message (e : option err) : string :=
  let kind := KindOf e in
  if kind =? Internal then kind_message Internal
  else match e with
       | None => kind_message kind
       | Some e' =>
           match errors_as_app e' with
           | None => kind_message kind
           | Some a =>
               let msg := if decide (Error_Msg a = "") then kind_message (Error_Kind a)
                          else Error_Msg a in
               if decide (Error_Field a = "") then msg
               else (Error_Field a +:+ ": " +:+ msg)%string
           end
       end.

Definition Retryable (e : option err) : bool := kind_Retryable (KindOf e).

(** ** Induction on error chains *)

Section err_induction.
Context (P : err → Prop).
Context (HNew : ∀ t, P (ENew t)) (HSent : ∀ s t, P (ESentinel s t)).
Context (HApp : ∀ k f m c, (∀ e, c = Some e → P e) → P (EApp k f m c)).
Context (HSnooze : ∀ d r t, P (ESnooze d r t)).
Context (HWrap : ∀ p e s, P e → P (EWrap p e s)).
Context (HWrap2 : ∀ e1 s e2, P e1 → P e2 → P (EWrap2 e1 s e2)).

Fixpoint err_strong_ind (e : err) : P e :=
  match e with
  | ENew t => HNew t
  | ESentinel s t => HSent s t
  | EApp k f m c =>
      HApp k f m c
        (match c return ∀ e, c = Some e → P e with
         | Some c => λ e He, eq_ind c P (err_strong_ind c) e (f_equal (default c) He)
         | None => λ e He, False_ind _ (eq_ind None (λ o, match o with None => True | _ => False end) I _ He)
         end)
  | ESnooze d r t => HSnooze d r t
  | EWrap p e s => HWrap p e s (err_strong_ind e)
  | EWrap2 e1 s e2 => HWrap2 e1 s e2 (err_strong_ind e1) (err_strong_ind e2)
  end.
End err_induction.

(** ** What wrapping preserves *)

(** Context an intermediate layer adds: [fmt.Errorf("...: %w", e)] any number of
    times, and [queue.Terminal]. *)
Inductive wraps : err → err → Prop :=
  | wraps_refl e : wraps e e
  | wraps_context p s e e' : wraps e e' → wraps e (EWrap p e' s)
  | wraps_sentinel t sep e e' :
      wraps e e' → wraps e (EWrap2 (ESentinel ErrTerminal t) sep e').

Lemma wraps_as_app (e e' : err) : wraps e e' → errors_as_app e' = errors_as_app e.
Proof. induction 1; simpl; auto. Qed.

Lemma wraps_is (e e' : err) (s : sentinel) :
  s ≠ ErrTerminal → wraps e e' → errors_is e' s = errors_is e s.
Proof. intros Hs. induction 1; simpl; auto. by rewrite bool_decide_false. Qed.

Lemma wraps_KindOf (e e' : err) : wraps e e' → KindOf (Some e') = KindOf (Some e).
Proof.
  intros Hw. unfold KindOf. rewrite (wraps_as_app _ _ Hw).
  by rewrite !(wraps_is e e').
Qed.

(** C: classification survives wrapping. *)
Lemma wraps_classification (e e' : err) :
  wraps e e' →
  KindOf (Some e') = KindOf (Some e) ∧ Message (Some e') = Message (Some e)
  ∧ FieldOf (Some e') = FieldOf (Some e) ∧ Retryable (Some e') = Retryable (Some e).
Proof.
  intros Hw. pose proof (wraps_KindOf _ _ Hw) as HK. pose proof (wraps_as_app _ _ Hw) as HA.
  unfold Message, Retryable, FieldOf. rewrite HK, HA. done.
Qed.

(** ** What a client may be told *)

(** Erase everything meant for the log alone: causes, wrapper text, the text of
    unclassified errors. *)
Fixpoint scrub (e : err) : err :=
  match e with
  | ENew _ => ENew ""
  | ESentinel s _ => ESentinel s ""
  | EApp k f m _ => EApp k f m None
  | ESnooze d _ _ => ESnooze d "" ""
  | EWrap _ e _ => EWrap "" (scrub e) ""
  | EWrap2 e1 _ e2 => EWrap2 (scrub e1) "" (scrub e2)
  end.

(** The public part of a classified error: what [errors.As] finds, less its
    cause. *)
Definition public (a : Error) : Kind * string * string :=
  (Error_Kind a, Error_Field a, Error_Msg a).

Lemma scrub_as_app (e : err) :
  public <$> errors_as_app (scrub e) = public <$> errors_as_app e.
Proof.
  induction e using err_strong_ind; simpl; auto.
  destruct (errors_as_app e1), (errors_as_app (scrub e1)); simpl in *; try done; congruence.
Qed.

Lemma scrub_is (e : err) (s : sentinel) :
  errors_as_app e = None → errors_is (scrub e) s = errors_is e s.
Proof.
  induction e using err_strong_ind; simpl; auto; [done|].
  destruct (errors_as_app e1); [done|]. intros H2. by rewrite IHe1, IHe2.
Qed.

Lemma Message_by_public (e e' : err) (a a' : Error) :
  errors_as_app e = Some a → errors_as_app e' = Some a' → public a = public a' →
  Message (Some e) = Message (Some e').
Proof.
  unfold public, Message, KindOf. intros -> -> [= -> -> ->]. done.
Qed.

Lemma Message_scrub (e : err) : Message (Some (scrub e)) = Message (Some e).
Proof.
  pose proof (scrub_as_app e) as HA.
  destruct (errors_as_app e) as [a|] eqn:Ha.
  - destruct (errors_as_app (scrub e)) as [a'|] eqn:Ha'; [|done].
    apply (Message_by_public _ _ a' a); [done..|]. simpl in HA; congruence.
  - assert (Hn : errors_as_app (scrub e) = None) by (by apply (fmap_None public)).
    unfold Message, KindOf. by rewrite Ha, Hn, !scrub_is.
Qed.

Lemma errors_is_app_kind (e : err) (a : Error) (k : Kind) (f m : string) (c : option err) :
  errors_as_app e = Some a → Error_Kind a = k → errors_is_app e (EApp k f m c) = true.
Proof.
  intros Ha Hk. induction e as [| |k' f' m' c' _| |p e s IH|e1 s e2 IH1 IH2]
    using err_strong_ind; simpl in *; simplify_eq/=; auto.
  - unfold Error_Is. simpl. by rewrite Z.eqb_refl.
  - destruct (errors_as_app e1); simplify_eq; apply orb_true_iff; auto.
Qed.

(** ** What an error says, read off its tree

    The values [errors.Is] and [errors.As] visit, in their order, and what is to be read off
    them, stated without the functions above. *)

Fixpoint chain (e : err) : list err :=
  e :: match e with
       | EApp _ _ _ (Some c) => chain c
       | EWrap _ e _ => chain e
       | EWrap2 e1 _ e2 => chain e1 ++ chain e2
       | _ => []
       end.

(** The first value of the chain that [f] accepts. *)
Definition first_in {A} (f : err → option A) (e : err) : option A := head (omap f (chain e)).

Definition as_snooze (e : err) : option (Z * string) :=
  match e with ESnooze d r _ => Some (d, r) | _ => None end.
Definition as_kind (e : err) : option Kind := match e with EApp k _ _ _ => Some k | _ => None end.

Definition carries (s : sentinel) (e : err) : Prop := ∃ t, ESentinel s t ∈ chain e.

(** The class of an error: the kind of the first classified value, or else what the
    context's sentinels say. *)
Inductive class (e : err) : Kind → Prop :=
  | class_kind k : first_in as_kind e = Some k → class e k
  | class_canceled : first_in as_kind e = None → carries CtxCanceled e → class e Canceled
  | class_timeout :
      first_in as_kind e = None → ¬ carries CtxCanceled e → carries CtxDeadlineExceeded e →
      class e Timeout
  | class_internal :
      first_in as_kind e = None → ¬ carries CtxCanceled e → ¬ carries CtxDeadlineExceeded e →
      class e Internal.

(** The kinds that may pass by themselves; one outside the list of constants is taken for
    [Internal]. *)
Definition transient (k : Kind) : Prop :=
  k ∈ [Internal; Exhausted; Unavailable; Timeout; Canceled] ∨ Canceled < k.

Lemma head_app {A} (l l' : list A) :
  head (l ++ l') = match head l with Some x => Some x | None => head l' end.
Proof. by destruct l. Qed.

Lemma as_snooze_chain (e : err) : errors_as_snooze e = first_in as_snooze e.
Proof.
  unfold first_in. induction e as [| |k f m c IH| |p e s IH|e1 s e2 IH1 IH2] using err_strong_ind;
    simpl; try done.
  - destruct c as [c|]; [by apply IH|done].
  - by rewrite omap_app, head_app, <- IH1, <- IH2.
Qed.

Lemma as_kind_chain (e : err) : Error_Kind <$> errors_as_app e = first_in as_kind e.
Proof.
  unfold first_in. induction e as [| |k f m c IH| |p e s IH|e1 s e2 IH1 IH2] using err_strong_ind;
    simpl; try done.
  rewrite omap_app, head_app, <- IH1, <- IH2. by destruct (errors_as_app e1).
Qed.

Lemma is_chain (e : err) (s : sentinel) : errors_is e s = true ↔ carries s e.
Proof.
  unfold carries. induction e as [t|s' t|k f m c IH|d r t|p e s' IH|e1 s' e2 IH1 IH2] using err_strong_ind;
    simpl.
  - split; [done|]. intros [t' [=]%list_elem_of_singleton].
  - rewrite bool_decide_eq_true. split; [intros ->; exists t; by left|].
    by intros [t' [=]%list_elem_of_singleton].
  - destruct c as [c|]; [rewrite (IH c eq_refl)|]; setoid_rewrite elem_of_cons; [naive_solver|].
    split; [done|]. intros [t' [[=]|[]%elem_of_nil]].
  - split; [done|]. intros [t' [=]%list_elem_of_singleton].
  - rewrite IH. setoid_rewrite elem_of_cons. naive_solver.
  - rewrite orb_true_iff, IH1, IH2. setoid_rewrite elem_of_cons. setoid_rewrite elem_of_app. naive_solver.
Qed.

Lemma not_is_chain (e : err) (s : sentinel) : errors_is e s = false ↔ ¬ carries s e.
Proof. by rewrite <- is_chain, not_true_iff_false. Qed.

Lemma class_KindOf (e : err) : class e (KindOf (Some e)).
Proof.
  unfold KindOf. pose proof (as_kind_chain e) as Hk. destruct (errors_as_app e) as [a|]; simpl in Hk.
  - by apply class_kind.
  - destruct (errors_is e CtxCanceled) eqn:Hc; [apply is_chain in Hc; by apply class_canceled|].
    apply not_is_chain in Hc. destruct (errors_is e CtxDeadlineExceeded) eqn:Hd.
    + apply is_chain in Hd. by apply class_timeout.
    + apply not_is_chain in Hd. by apply class_internal.
Qed.

Lemma Retryable_transient (k : Kind) : kind_Retryable k = true ↔ transient k.
Proof.
  unfold kind_Retryable, normalize, transient, Internal, Exhausted, Unavailable, Timeout, Canceled.
  rewrite !elem_of_cons, elem_of_nil. destruct (10 <? k) eqn:E; zbool; simpl.
  - split; [by right|done].
  - rewrite !orb_true_iff, !Z.eqb_eq. lia.
Qed.
