(* ===== verification/Task.v ===== *)
(** * The task domain (src/internal/task/task.go, repository.go)

    Tasks, their validation, the keyset cursor and the list ordering.  The uuid
    package is third-party: [UuidPkg] holds what the code calls of it and
    [UuidLaws] what it relies on. *)
From stdpp Require Import options.
From S2P Require Import Prelude GoStrings GoTime Apperr.
From S2P Require Base64.
From Stdlib Require Import Ascii.

(** ** github.com/google/uuid *)

Class UuidPkg : Type := {
  uuid : Type;
  uuid_eq_dec :: EqDecision uuid;
  uuid_countable :: Countable uuid;
  uuid_Nil : uuid;
  uuid_String : uuid → string;
  uuid_Parse : string → option uuid;
}.

(** The text of a uuid is parsed back to it. *)
Class UuidLaws `{UuidPkg} : Prop := {
  uuid_Parse_String (u : uuid) : uuid_Parse (uuid_String u) = Some u;
}.

Lemma uuid_String_inj `{UuidLaws} (u v : uuid) : uuid_String u = uuid_String v → u = v.
Proof. intros E. apply (inj Some). by rewrite <- !uuid_Parse_String, E. Qed.

Section domain.
Context `{UuidPkg}.

(** ** task.go *)

(** [Status] is an [int32]; two values are defined. *)
Definition Status : Type := Z.
Definition StatusIncomplete : Status := 0.
Definition StatusCompleted : Status := 1.

Definition Status_Valid (s : Status) : bool := (s =? StatusIncomplete) || (s =? StatusCompleted).

Definition Status_String (s : Status) : string :=
  if s =? StatusIncomplete then "incomplete"
  else if s =? StatusCompleted then "completed"
  else ("Status(" +:+ itoa s +:+ ")")%string.

Definition MaxNameLength : Z := 255.

Record Task : Type := mkTask {
  ID : uuid;
  Name : string;
  TStatus : Status;
  CreatedAt : Z;
  UpdatedAt : Z;
  Version : Z;
}.

Definition ErrNotFound : err := New NotFound "task not found".
Definition ErrInvalidArgument : err := New Invalid "invalid argument".
Definition ErrConflict : err := New Conflict "the task was modified by someone else".

Definition invalid (field msg : string) : err := Field field msg.

Definition ValidateName (name : string) : option err :=
  let trimmed := trim_space name in
  if decide (trimmed = "") then Some (invalid "name" "must not be empty")
  else if MaxNameLength <? len name then
    Some (invalid "name" ("must be at most " +:+ itoa MaxNameLength +:+ " characters, got "
                          +:+ itoa (len name))%string)
  else None.

Definition ValidateStatus (s : Status) : option err :=
  if negb (Status_Valid s) then
    Some (invalid "status" ("must be 0 (incomplete) or 1 (completed), got " +:+ itoa s)%string)
  else None.

(** ** repository.go *)

Definition DefaultPageSize : Z := 20.
Definition MaxPageSize : Z := 100.

Record Cursor : Type := mkCursor { c_CreatedAt : Z; c_ID : uuid }.

(** The zero value of the struct: Go's zero time and the nil uuid. *)
Definition zeroCursor : Cursor := mkCursor 0 uuid_Nil.

Record ListQuery : Type := mkListQuery {
  q_Status : option Status;
  q_Limit : Z;
  q_Cursor : Cursor;
}.

Record Page : Type := mkPage { Tasks : list Task; Next : Cursor }.

Definition IsZero (c : Cursor) : bool := (c_CreatedAt c =? 0) && bool_decide (c_ID c = uuid_Nil).

(** The one error [DecodeCursor] returns. *)
Definition bad_token : err := invalid "page_token" "is not a valid page token".

Definition Encode `{TimeText} (c : Cursor) : string :=
  if IsZero c then ""
  else Base64.encode (format_rfc3339nano (c_CreatedAt c) +:+ "|" +:+ uuid_String (c_ID c))%string.

Definition DecodeCursor `{TimeText} (token : string) : result err Cursor :=
  if decide (token = "") then Ok zeroCursor
  else match Base64.decode token with
       | None => Err bad_token
       | Some raw =>
           match cut "|"%char raw with
           | None => Err bad_token
           | Some (at_, id) =>
               match parse_rfc3339nano at_ with
               | None => Err bad_token
               | Some ts =>
                   match uuid_Parse id with
                   | None => Err bad_token
                   | Some uid => Ok (mkCursor ts uid)
                   end
               end
           end
       end.

Definition After (c : Cursor) (t : Task) : bool :=
  if IsZero c then true
  else if c_CreatedAt c <? CreatedAt t then false
  else if CreatedAt t <? c_CreatedAt c then true
  else String.ltb (uuid_String (ID t)) (uuid_String (c_ID c)).

Definition CursorOf (t : Task) : Cursor := mkCursor (CreatedAt t) (ID t).

Definition Less (a b : Task) : bool :=
  if negb (CreatedAt a =? CreatedAt b) then CreatedAt b <? CreatedAt a
  else String.ltb (uuid_String (ID b)) (uuid_String (ID a)).

Definition clampLimit (n : Z) : result err Z :=
  if n <? 0 then Err (invalid "page_size" ("must not be negative, got " +:+ itoa n)%string)
  else if n =? 0 then Ok DefaultPageSize
  else if MaxPageSize <? n then
    Err (invalid "page_size"
           ("must be at most " +:+ itoa MaxPageSize +:+ ", got " +:+ itoa n)%string)
  else Ok n.

#[export] Instance Task_eq_dec : EqDecision Task.
Proof. solve_decision. Defined.
#[export] Instance Cursor_eq_dec : EqDecision Cursor.
Proof. solve_decision. Defined.

(** ** Laws of the ordering *)

Section ordering.
Context `{laws : !UuidLaws}.

Lemma Less_irrefl (a : Task) : Less a a = false.
Proof. unfold Less. rewrite Z.eqb_refl. simpl. apply string_ltb_irrefl. Qed.

Lemma Less_trans (a b c : Task) : Less a b = true → Less b c = true → Less a c = true.
Proof.
  unfold Less. intros Hab Hbc.
  destruct (CreatedAt a =? CreatedAt b) eqn:E1, (CreatedAt b =? CreatedAt c) eqn:E2;
    simpl in *; zbool.
  - replace (CreatedAt a =? CreatedAt c) with true by (symmetry; zbool; congruence).
    simpl. by eapply string_ltb_trans.
  - replace (CreatedAt a =? CreatedAt c) with false by (symmetry; zbool; lia).
    simpl. zbool. lia.
  - replace (CreatedAt a =? CreatedAt c) with false by (symmetry; zbool; lia).
    simpl. zbool. lia.
  - replace (CreatedAt a =? CreatedAt c) with false by (symmetry; zbool; lia).
    simpl. zbool. lia.
Qed.

(** A task before another is before, or after, any third one. *)
Lemma Less_cotrans (a b c : Task) : Less a c = true → Less a b = true ∨ Less b c = true.
Proof.
  intros Hac. destruct (Less a b) eqn:Hab, (Less b c) eqn:Hbc; auto. exfalso.
  revert Hac Hab Hbc. unfold Less.
  destruct (CreatedAt a =? CreatedAt c) eqn:E1, (CreatedAt a =? CreatedAt b) eqn:E2,
    (CreatedAt b =? CreatedAt c) eqn:E3; simpl; intros; zbool; try lia.
  destruct (String.ltb (uuid_String (ID a)) (uuid_String (ID b))) eqn:E.
  - by rewrite (string_ltb_trans _ _ _ Hac E) in Hbc.
  - rewrite (string_ltb_total _ _ Hab E) in Hbc. congruence.
Qed.

(** Two tasks neither of which comes first have the same id. *)
Lemma Less_total (a b : Task) : Less a b = false → Less b a = false → ID a = ID b.
Proof using laws.
  unfold Less. intros Hab Hba. rewrite (Z.eqb_sym (CreatedAt b)) in Hba.
  destruct (CreatedAt a =? CreatedAt b) eqn:E; simpl in *; zbool; [|lia].
  apply uuid_String_inj. by apply string_ltb_total.
Qed.

Lemma Less_asymm (a b : Task) : Less a b = true → Less b a = false.
Proof.
  intros H1. destruct (Less b a) eqn:H2; [|done].
  pose proof (Less_trans _ _ _ H1 H2) as H3. by rewrite Less_irrefl in H3.
Qed.

(** The cursor of a task admits exactly what the list shows below that task. *)
Lemma After_CursorOf (t u : Task) :
  IsZero (CursorOf t) = false → After (CursorOf t) u = Less t u.
Proof.
  unfold After, Less. intros ->. simpl. rewrite (Z.eqb_sym (CreatedAt t)).
  destruct (CreatedAt t <? CreatedAt u) eqn:E1, (CreatedAt u <? CreatedAt t) eqn:E2,
    (CreatedAt u =? CreatedAt t) eqn:E3; simpl; zbool; try lia; done.
Qed.
End ordering.

(** ** Page tokens *)

Lemma Encode_empty `{TimeText} (c : Cursor) : Encode c = "" → IsZero c = true.
Proof.
  unfold Encode. destruct (IsZero c); [done|]. intros E%Base64.encode_empty.
  apply (f_equal (String.length)) in E. rewrite !string_length_app in E. simpl in E. lia.
Qed.

Lemma IsZero_spec (c : Cursor) : IsZero c = true ↔ c = zeroCursor.
Proof.
  destruct c as [t i]. unfold IsZero, zeroCursor. simpl.
  rewrite andb_true_iff, Z.eqb_eq, bool_decide_eq_true.
  split; [by intros [-> ->] | by intros [= -> ->]].
Qed.

Lemma DecodeCursor_Encode_law `{!UuidLaws, TimeTextLaws} (c : Cursor) :
  four_digit_year (c_CreatedAt c) → DecodeCursor (Encode c) = Ok c.
Proof.
  intros Ht. unfold DecodeCursor. case_decide as Hempty.
  - apply Encode_empty, IsZero_spec in Hempty. by subst.
  - unfold Encode in *. destruct (IsZero c); [done|].
    rewrite Base64.decode_encode.
    change ("|" +:+ uuid_String (c_ID c))%string with (String "|" (uuid_String (c_ID c))).
    rewrite cut_app by (by apply format_no_bar).
    rewrite parse_format, uuid_Parse_String by done. by destruct c.
Qed.

Lemma DecodeCursor_error `{TimeText} (token : string) (e : err) :
  DecodeCursor token = Err e → e = bad_token.
Proof. unfold DecodeCursor. crush_match; congruence. Qed.
End domain.
