(* ===== verification/UuidInstance.v ===== *)
(** * A concrete uuid package

    128-bit values in the 8-4-4-4-12 hexadecimal form.  It instantiates the
    parameter [UuidPkg], so the witnesses of the properties run on real
    identifiers and [UuidLaws] is seen to hold of something. *)
From stdpp Require Import options.
From S2P Require Import Prelude GoStrings GoTime Task.
From S2P Require Base64.
From Stdlib Require Import Ascii.

Definition uuid_ok (n : Z) : Prop := (0 <=? n) && (n <? 2 ^ 128) = true.

Definition uuid128 : Type := { n : Z | uuid_ok n }.

#[export] Instance uuid_ok_dec (n : Z) : Decision (uuid_ok n).
Proof. unfold uuid_ok. apply _. Defined.
#[export] Instance uuid_ok_pi (n : Z) : ProofIrrel (uuid_ok n).
Proof. unfold uuid_ok. apply _. Defined.

(** ** Hexadecimal digits of fixed width *)

Definition hex_char (n : Z) : ascii := Base64.chr (if n <? 10 then 48 + n else 87 + n).
Definition hex_of (c : ascii) : option Z :=
  let n := Base64.code c in
  if (48 <=? n) && (n <=? 57) then Some (n - 48)
  else if (97 <=? n) && (n <=? 102) then Some (n - 87)
  else if (65 <=? n) && (n <=? 70) then Some (n - 55)
  else None.

Definition pow16 (w : nat) : Z := 16 ^ Z.of_nat w.

Fixpoint hex (w : nat) (n : Z) : string :=
  match w with
  | O => ""
  | S w => String (hex_char (n / pow16 w)) (hex w (n mod pow16 w))
  end.

Fixpoint parse_hex (w : nat) (s : string) : option (Z * string) :=
  match w, s with
  | O, _ => Some (0, s)
  | S w, String c s => d ← hex_of c; '(v, r) ← parse_hex w s; Some (d * pow16 w + v, r)
  | S _, EmptyString => None
  end.

Lemma hex_table :
  forallb (λ n, bool_decide (hex_of (hex_char (Z.of_nat n)) = Some (Z.of_nat n))) (seq 0 16)
  = true.
Proof. reflexivity. Qed.

Lemma hex_spec (n : Z) : 0 ≤ n < 16 → hex_of (hex_char n) = Some n.
Proof.
  intros Hn. pose proof (proj1 (forallb_forall _ _) hex_table (Z.to_nat n)) as H.
  specialize (H ltac:(apply in_seq; lia)). cbv beta in H.
  apply bool_decide_eq_true in H. by rewrite Z2Nat.id in H by lia.
Qed.

Lemma parse_hex_app (w : nat) (n : Z) (r : string) :
  0 ≤ n < pow16 w → parse_hex w (hex w n +:+ r)%string = Some (n, r).
Proof.
  revert n. induction w as [|w IH]; intros n Hn.
  - change (pow16 0) with 1 in Hn. simpl. do 2 f_equal. lia.
  - assert (HS : pow16 (S w) = 16 * pow16 w)
      by (unfold pow16; rewrite Nat2Z.inj_succ, Z.pow_succ_r; lia).
    assert (Hpos : 0 < pow16 w) by (unfold pow16; apply Z.pow_pos_nonneg; lia).
    pose proof (Z.div_mod n (pow16 w)). pose proof (Z.mod_pos_bound n (pow16 w)).
    assert (0 ≤ n / pow16 w < 16)
      by (split; [apply Z.div_pos; lia | apply Z.div_lt_upper_bound; lia]).
    simpl. rewrite hex_spec by done. simpl. rewrite IH by lia. simpl. do 2 f_equal. lia.
Qed.

(** ** The package *)

Definition uuid128_String (u : uuid128) : string :=
  let n := proj1_sig u in
  (hex 8 (n / pow16 24) +:+ "-" +:+ hex 4 (n / pow16 20 mod pow16 4) +:+ "-"
   +:+ hex 4 (n / pow16 16 mod pow16 4) +:+ "-" +:+ hex 4 (n / pow16 12 mod pow16 4)
   +:+ "-" +:+ hex 12 (n mod pow16 12))%string.

Definition to_uuid128 (n : Z) : option uuid128 :=
  match decide (uuid_ok n) with left p => Some (n ↾ p) | right _ => None end.

Definition uuid128_Parse (s : string) : option uuid128 :=
  '(a, s) ← parse_hex 8 s; s ← expect "-" s;
  '(b, s) ← parse_hex 4 s; s ← expect "-" s;
  '(c, s) ← parse_hex 4 s; s ← expect "-" s;
  '(d, s) ← parse_hex 4 s; s ← expect "-" s;
  '(e, s) ← parse_hex 12 s;
  if decide (s = "")
  then to_uuid128 (a * pow16 24 + b * pow16 20 + c * pow16 16 + d * pow16 12 + e)
  else None.

#[export] Instance uuid128_pkg : UuidPkg := {|
  uuid := uuid128;
  uuid_Nil := 0 ↾ eq_refl;
  uuid_String := uuid128_String;
  uuid_Parse := uuid128_Parse;
|}.

#[local] Arguments hex : simpl never.
#[local] Arguments parse_hex : simpl never.

Lemma to_uuid128_proj (u : uuid128) : to_uuid128 (proj1_sig u) = Some u.
Proof.
  destruct u as [n p]. unfold to_uuid128. simpl.
  destruct (decide (uuid_ok n)) as [q|]; [|done]. by rewrite (proof_irrel q p).
Qed.

Ltac hex_step :=
  match goal with
  | |- context [parse_hex ?w (hex ?w ?n +:+ ?r)%string] =>
      rewrite (parse_hex_app w n r) by
        (first [apply Z.mod_pos_bound; done | assumption]); simpl;
      rewrite ?string_app_nil_l
  end.

#[export] Instance uuid128_laws : UuidLaws.
Proof.
  split. intros u. simpl. unfold uuid128_Parse, uuid128_String.
  assert (0 ≤ proj1_sig u / pow16 24 < pow16 8).
  { destruct u as [n p]. simpl. unfold uuid_ok in p. split_all. zbool.
    change (pow16 24) with (2 ^ 96). change (pow16 8) with (2 ^ 32).
    Z.div_mod_to_equations. lia. }
  hex_step. hex_step. hex_step. hex_step.
  rewrite <- (string_app_nil_r (hex 12 _)). hex_step.
  etransitivity; [|apply to_uuid128_proj]. f_equal.
  change (pow16 24) with (2 ^ 96). change (pow16 20) with (2 ^ 80).
  change (pow16 16) with (2 ^ 64). change (pow16 12) with (2 ^ 48).
  change (pow16 4) with (2 ^ 16). Z.div_mod_to_equations. lia.
Qed.

(** An identifier for the examples. *)
Definition uuid_of (n : Z) : uuid128 := default (0 ↾ eq_refl) (to_uuid128 n).

Example uuid_String_ex :
  uuid128_String (uuid_of 0x074eed42000040008000000000000001)
  = "074eed42-0000-4000-8000-000000000001".
Proof. vm_compute. reflexivity. Qed.
