(* ===== verification/MemRepo.v ===== *)
(** * The in-memory repository (src/internal/task/memrepo)

    The store is a finite map from identifiers to tasks behind one mutex, so an
    operation is a function from the store to a result and the next store.
    [ctx_err] is [ctx.Err()] when the operation starts. *)
From stdpp Require Import options.
From S2P Require Import Prelude GoStrings Apperr Task UuidInstance.

(** [Store.tasks]. *)
Abbreviation Store := (gmap uuid Task).

Section memrepo.
Context `{UuidPkg}.

Definition New : Store := ∅.

Definition Create (ctx_err : option err) (t : Task) (s : Store) : result err Task * Store :=
  match ctx_err with
  | Some e => (Err e, s)
  | None =>
      match s !! ID t with
      | Some _ => (Err ErrConflict, s)
      | None => (Ok t, <[ID t := t]> s)
      end
  end.

Definition Get (ctx_err : option err) (id : uuid) (s : Store) : result err Task :=
  match ctx_err with
  | Some e => Err e
  | None => match s !! id with
            | Some t => Ok t
            | None => Err ErrNotFound
            end
  end.

Definition Update (ctx_err : option err) (t : Task) (expectedVersion : Z) (s : Store)
  : result err Task * Store :=
  match ctx_err with
  | Some e => (Err e, s)
  | None =>
      match s !! ID t with
      | None => (Err ErrNotFound, s)
      | Some existing =>
          if negb (expectedVersion =? 0) && negb (Version existing =? expectedVersion)
          then (Err ErrConflict, s)
          else
            let next := mkTask (ID t) (Name t) (TStatus t) (CreatedAt existing) (UpdatedAt t)
                          (wrap64 (Version existing + 1)) in
            (Ok next, <[ID t := next]> s)
      end
  end.

Definition Delete (ctx_err : option err) (id : uuid) (s : Store) : result err unit * Store :=
  match ctx_err with
  | Some e => (Err e, s)
  | None => match s !! id with
            | None => (Err ErrNotFound, s)
            | Some _ => (Ok (), delete id s)
            end
  end.

(** Does a query select a task: its status filter, then its cursor. *)
Definition selects (q : ListQuery) (t : Task) : bool :=
  match q_Status q with
  | Some st => bool_decide (TStatus t = st)
  | None => true
  end && After (q_Cursor q) t.

(** The iteration order of a Go map is unspecified; [map_to_list]'s stands for
    whichever it is, and the ordering is total, so the sort forgets it. *)
Definition matching (q : ListQuery) (s : Store) : list Task :=
  filter (λ t, selects q t = true) (snd <$> map_to_list s).

(** The comparison handed to [slices.SortFunc]. *)
Definition newest_cmp (a b : Task) : Z :=
  if Less a b then -1 else if Less b a then 1 else 0.

Definition newest_le (a b : Task) : Prop := newest_cmp a b ≤ 0.

#[export] Instance newest_le_dec : RelDecision newest_le.
Proof. intros a b. unfold newest_le. apply _. Defined.

Definition sortNewestFirst (ts : list Task) : list Task := merge_sort newest_le ts.

(** [None] is the run-time panic of slicing with a limit below one. *)
Definition paginate (ts : list Task) (limit : Z) : option Page :=
  if Z.of_nat (length ts) <=? limit then Some (mkPage ts zeroCursor)
  else if limit <? 0 then None
  else let page := take (Z.to_nat limit) ts in
       match last page with
       | None => None
       | Some t => Some (mkPage page (CursorOf t))
       end.

Definition List (ctx_err : option err) (q : ListQuery) (s : Store) : option (result err Page) :=
  match ctx_err with
  | Some e => Some (Err e)
  | None => Ok <$> paginate (sortNewestFirst (matching q s)) (q_Limit q)
  end.

Definition Len (s : Store) : Z := Z.of_nat (size s).

(** ** Invariant: a task is stored under its own identifier *)

Definition keyed (s : Store) : Prop := map_Forall (λ id t, ID t = id) s.

Lemma keyed_empty : keyed New.
Proof. apply map_Forall_empty. Qed.

Lemma keyed_insert (t : Task) (s : Store) : keyed s → keyed (<[ID t := t]> s).
Proof. intros Hs. by apply map_Forall_insert_2. Qed.

Lemma keyed_delete (id : uuid) (s : Store) : keyed s → keyed (delete id s).
Proof. intros Hs. by apply map_Forall_delete. Qed.

Lemma keyed_Create c t s : keyed s → keyed (Create c t s).2.
Proof. intros Hs. unfold Create. repeat case_match; simpl; auto using keyed_insert. Qed.

Lemma keyed_Update c t v s : keyed s → keyed (Update c t v s).2.
Proof.
  intros Hs. unfold Update. repeat case_match; simpl; auto.
  apply (keyed_insert (mkTask _ _ _ _ _ _)), Hs.
Qed.

Lemma keyed_Delete c id s : keyed s → keyed (Delete c id s).2.
Proof. intros Hs. unfold Delete. repeat case_match; simpl; auto using keyed_delete. Qed.

(** ** The sort *)

Lemma newest_le_spec (a b : Task) : newest_le a b ↔ Less a b = true ∨ Less b a = false.
Proof. unfold newest_le, newest_cmp. destruct (Less a b), (Less b a); intuition (discriminate || lia). Qed.

Lemma newest_le_Less (a b : Task) : newest_le a b ↔ Less b a = false.
Proof.
  rewrite newest_le_spec. split; [|naive_solver].
  intros [Hab|]; [by apply Less_asymm|done].
Qed.

#[export] Instance newest_le_total : Total newest_le.
Proof.
  intros a b. rewrite !newest_le_spec. destruct (Less a b), (Less b a); naive_solver.
Qed.

#[export] Instance newest_le_trans : Transitive newest_le.
Proof.
  intros a b c. rewrite !newest_le_Less. intros Hba Hcb.
  destruct (Less c a) eqn:Hca; [|done].
  destruct (Less_cotrans _ b _ Hca); congruence.
Qed.

(** [a] is listed strictly before [b]. *)
Definition newer (a b : Task) : Prop := Less a b = true.

Lemma sort_perm (l : list Task) : sortNewestFirst l ≡ₚ l.
Proof. apply merge_sort_Permutation. Qed.

Lemma newer_unique (l1 l2 : list Task) :
  StronglySorted newer l1 → StronglySorted newer l2 → l1 ≡ₚ l2 → l1 = l2.
Proof.
  intros H1 H2 Hp. apply (StronglySorted_unique_strong newer); auto.
  intros a b _ _ Hab Hba. apply Less_asymm in Hab. unfold newer in Hba. congruence.
Qed.

Section sorted.
Context `{laws : !UuidLaws}.

Lemma newer_of_le (l : list Task) :
  NoDup (ID <$> l) → StronglySorted newest_le l → StronglySorted newer l.
Proof using laws.
  induction l as [|t l IH]; simpl; intros Hnd Hs; [constructor|].
  apply NoDup_cons in Hnd as [Ht Hnd]. apply StronglySorted_inv in Hs as [Hs Hall].
  constructor; [auto|]. rewrite Forall_forall in Hall |- *. intros u Hu.
  specialize (Hall u Hu). apply newest_le_Less in Hall. unfold newer.
  destruct (Less t u) eqn:E; [done|]. exfalso. apply Ht.
  rewrite (Less_total _ _ E Hall). by apply list_elem_of_fmap_2.
Qed.

Lemma sort_newer (l : list Task) :
  NoDup (ID <$> l) → StronglySorted newer (sortNewestFirst l).
Proof using laws.
  intros Hnd. apply newer_of_le; [by rewrite sort_perm|].
  apply StronglySorted_merge_sort; apply _.
Qed.
End sorted.

Lemma StronglySorted_filter {A} (R : A → A → Prop) (P : A → Prop) `{∀ x, Decision (P x)}
  (l : list A) : StronglySorted R l → StronglySorted R (filter P l).
Proof.
  induction 1 as [|x l Hs IH Hall]; [constructor|].
  rewrite filter_cons. case_decide; [|done]. constructor; [done|].
  rewrite Forall_forall in Hall |- *. intros y [_ Hy]%list_elem_of_filter. auto.
Qed.

(** In a list without repetition, newest first, the tasks after one of them are
    those that follow it. *)
Lemma filter_Less_suffix (l1 l2 : list Task) (t : Task) :
  StronglySorted newer (l1 ++ t :: l2) →
  filter (λ u, Less t u = true) (l1 ++ t :: l2) = l2.
Proof.
  induction l1 as [|a l1 IH]; simpl; intros Hs; apply StronglySorted_inv in Hs as [Hs Hall].
  - rewrite filter_cons_False by (rewrite Less_irrefl; done).
    rewrite Forall_forall in Hall. by apply filter_true.
  - rewrite Forall_forall in Hall.
    rewrite filter_cons_False; [auto|].
    rewrite (Less_asymm a t); [done|]. apply Hall. set_solver.
Qed.

(** ** What [List] selects *)

Lemma elem_of_matching (q : ListQuery) (s : Store) (t : Task) :
  t ∈ matching q s ↔ (∃ id, s !! id = Some t) ∧ selects q t = true.
Proof.
  unfold matching. rewrite list_elem_of_filter, list_elem_of_fmap. split.
  - intros (Hsel & [id u] & -> & Hu%elem_of_map_to_list). eauto.
  - intros ([id Hid] & Hsel). split; [done|]. exists (id, t). split; [done|].
    by apply elem_of_map_to_list.
Qed.

Lemma matching_NoDup (q : ListQuery) (s : Store) : keyed s → NoDup (ID <$> matching q s).
Proof.
  intros Hk. unfold matching.
  assert (Hids : ID <$> (snd <$> map_to_list s) = fst <$> map_to_list s).
  { rewrite <- list_fmap_compose. apply list_fmap_ext. intros i [id t] Hi. simpl.
    apply list_elem_of_lookup_2, elem_of_map_to_list in Hi. by apply Hk in Hi. }
  assert (Hnd : NoDup (ID <$> (snd <$> map_to_list s)))
    by (rewrite Hids; apply NoDup_fst_map_to_list).
  eapply sublist_NoDup; [apply Hnd | apply fmap_sublist, sublist_filter].
Qed.

(** ** Walking the pages *)

(** A client that lists and follows [Next] until it is empty. *)
Fixpoint walk (fuel : nat) (q : ListQuery) (s : Store) : option (list Task) :=
  match fuel with
  | O => None
  | S fuel =>
      match List None q s with
      | Some (Ok p) =>
          if IsZero (Next p) then Some (Tasks p)
          else (Tasks p ++.) <$> walk fuel (mkListQuery (q_Status q) (q_Limit q) (Next p)) s
      | _ => None
      end
  end.

Lemma After_Less (c : Cursor) (t u : Task) :
  After c t = true → Less t u = true → After c u = true.
Proof.
  destruct (IsZero c) eqn:Hz; [by unfold After; rewrite Hz|].
  set (k := mkTask (c_ID c) "" 0 (c_CreatedAt c) 0 0).
  assert (Hc : c = CursorOf k) by (by destruct c). rewrite Hc in Hz |- *.
  rewrite !After_CursorOf by done. apply Less_trans.
Qed.

(** No stored task has the cursor that means "from the start". *)
Definition no_zero_cursor (s : Store) : Prop :=
  map_Forall (λ _ t, IsZero (CursorOf t) = false) s.

Section pages.
Context `{laws : !UuidLaws}.

Lemma matching_after (q : ListQuery) (s : Store) (l1 l2 : list Task) (t : Task) :
  keyed s → IsZero (CursorOf t) = false →
  sortNewestFirst (matching q s) = l1 ++ t :: l2 →
  sortNewestFirst (matching (mkListQuery (q_Status q) (q_Limit q) (CursorOf t)) s) = l2.
Proof using laws.
  intros Hk Hz Hl. set (q' := mkListQuery _ _ _).
  assert (Hs : StronglySorted newer (l1 ++ t :: l2))
    by (rewrite <- Hl; by apply sort_newer, matching_NoDup).
  assert (Hnd : NoDup (l1 ++ t :: l2)).
  { rewrite <- Hl, sort_perm. by eapply NoDup_fmap_1, matching_NoDup. }
  assert (Hin : ∀ u, u ∈ matching q s ↔ u ∈ l1 ++ t :: l2)
    by (intros u; by rewrite <- Hl, sort_perm).
  assert (Ht : After (q_Cursor q) t = true).
  { assert (t ∈ matching q s) as [_ Hsel]%elem_of_matching 
      by (apply Hin, elem_of_app; right; left).
    unfold selects in Hsel. by split_all. }
  assert (Hf : filter (λ u, Less t u = true) (l1 ++ t :: l2) = l2)
    by (by apply filter_Less_suffix).
  apply newer_unique; [by apply sort_newer, matching_NoDup| |].
  - rewrite <- Hf. by apply StronglySorted_filter.
  - rewrite sort_perm. apply NoDup_Permutation.
    + by eapply NoDup_fmap_1, matching_NoDup.
    + rewrite <- Hf. by apply NoDup_filter.
    + intros u. rewrite <- Hf, list_elem_of_filter, <- Hin, !elem_of_matching.
      unfold selects. simpl. rewrite (After_CursorOf t u Hz).
      rewrite !andb_true_iff. pose proof (After_Less (q_Cursor q) t u Ht). tauto.
Qed.

Lemma paginate_spec (ts : list Task) (limit : Z) :
  1 ≤ limit →
  (paginate ts limit = Some (mkPage ts zeroCursor) ∧ Z.of_nat (length ts) ≤ limit)
  ∨ ∃ l1 t l2, ts = l1 ++ t :: l2 ∧ Z.of_nat (length (l1 ++ [t])) = limit
      ∧ paginate ts limit = Some (mkPage (l1 ++ [t]) (CursorOf t)).
Proof.
  intros Hlim. unfold paginate. case_match eqn:E; zbool; [by left|right].
  replace (limit <? 0) with false by (symmetry; zbool; lia).
  destruct (lookup_lt_is_Some_2 ts (Z.to_nat (limit - 1))) as [t Ht]; [lia|].
  exists (take (Z.to_nat (limit - 1)) ts), t, (drop (Z.to_nat limit) ts).
  assert (Htake : take (Z.to_nat limit) ts = take (Z.to_nat (limit - 1)) ts ++ [t]).
  { replace (Z.to_nat limit) with (S (Z.to_nat (limit - 1))) by lia. by apply take_S_r. }
  split_and!.
  - change (?a ++ t :: ?b) with (a ++ [t] ++ b). rewrite (assoc_L (++)), <- Htake.
    by rewrite take_drop.
  - rewrite <- Htake, length_take. lia.
  - rewrite Htake. by rewrite last_snoc.
Qed.

Lemma walk_all (s : Store) (fuel : nat) (q : ListQuery) :
  keyed s → no_zero_cursor s → 1 ≤ q_Limit q →
  (length (matching q s) < fuel)%nat →
  walk fuel q s = Some (sortNewestFirst (matching q s)).
Proof using laws.
  intros Hk Hz. revert q. induction fuel as [|fuel IH]; intros q Hlim Hfuel; [lia|].
  simpl. destruct (paginate_spec (sortNewestFirst (matching q s)) (q_Limit q) Hlim)
    as [[-> _] | (l1 & t & l2 & Hl & Hlen & ->)]; simpl.
  - by rewrite (proj2 (IsZero_spec zeroCursor)).
  - assert (Ht : t ∈ matching q s).
    { rewrite <- sort_perm, Hl. apply elem_of_app. right. left. }
    apply elem_of_matching in Ht as [[id Hid] _].
    pose proof (Hz id t Hid) as Hzt. cbv beta in Hzt. rewrite Hzt.
    pose proof (matching_after q s l1 l2 t Hk Hzt Hl) as Hnext.
    rewrite IH; simpl; [by rewrite Hnext, Hl, <- (assoc_L (++))|done|].
    rewrite <- (Permutation_length (sort_perm _)), Hnext.
    rewrite <- (Permutation_length (sort_perm _)), Hl, length_app in Hfuel.
    simpl in Hfuel. lia.
Qed.
End pages.

Lemma length_matching (q : ListQuery) (s : Store) : (length (matching q s) ≤ size s)%nat.
Proof.
  unfold matching. etransitivity; [apply length_filter|].
  by rewrite length_fmap, length_map_to_list.
Qed.

(** ** Sequences of operations *)

Inductive op : Type :=
  | OpCreate (c : option err) (t : Task)
  | OpUpdate (c : option err) (t : Task) (expected : Z)
  | OpDelete (c : option err) (id : uuid).

Definition exec (o : op) (s : Store) : Store :=
  match o with
  | OpCreate c t => (Create c t s).2
  | OpUpdate c t v => (Update c t v s).2
  | OpDelete c id => (Delete c id s).2
  end.

Definition execs (os : list op) (s : Store) : Store := foldl (flip exec) s os.

Definition deletes (id : uuid) (o : op) : Prop :=
  match o with OpDelete _ id' => id' = id | _ => False end.

Lemma execs_keyed (os : list op) (s : Store) : keyed s → keyed (execs os s).
Proof.
  revert s. induction os as [|o os IH]; intros s Hs; [done|]. apply IH.
  destruct o; simpl; auto using keyed_Create, keyed_Update, keyed_Delete.
Qed.

(** The version of a task that is not deleted only grows, by one at a time. *)
Definition version_within (id : uuid) (lo hi : Z) (s : Store) : Prop :=
  ∃ x, s !! id = Some x ∧ lo ≤ Version x ≤ hi.

Lemma exec_version (o : op) (id : uuid) (lo hi : Z) (s : Store) :
  int64_min ≤ lo → hi < int64_max → ¬ deletes id o →
  version_within id lo hi s → version_within id lo (hi + 1) (exec o s).
Proof.
  intros Hlo Hhi Hdel (x & Hx & Hv). unfold version_within.
  destruct o as [c t|c t v|c id']; simpl.
  - unfold Create. repeat case_match; simpl; try (exists x; split; [done|lia]).
    exists x. split; [|lia]. rewrite lookup_insert_ne; [done|congruence].
  - unfold Update. repeat case_match; simpl; try (exists x; split; [done|lia]).
    destruct (decide (ID t = id)) as [<-|Hne].
    + eexists. rewrite lookup_insert_eq. split; [done|]. simpl. simplify_eq.
      rewrite wrap64_id; unfold in_int64; lia.
    + exists x. split; [|lia]. by rewrite lookup_insert_ne.
  - unfold Delete. repeat case_match; simpl; try (exists x; split; [done|lia]).
    exists x. split; [|lia]. by rewrite lookup_delete_ne.
Qed.

Lemma execs_version (os : list op) (id : uuid) (lo hi : Z) (s : Store) :
  int64_min ≤ lo → hi + Z.of_nat (length os) ≤ int64_max → Forall (λ o, ¬ deletes id o) os →
  version_within id lo hi s →
  version_within id lo (hi + Z.of_nat (length os)) (execs os s).
Proof.
  intros Hlo. revert hi s. induction os as [|o os IH]; intros hi s Hmax Hf Hv.
  - simpl. by rewrite Z.add_0_r.
  - apply Forall_cons in Hf as [Ho Hf]. simpl in Hmax |- *.
    replace (hi + Z.of_nat (S (length os))) with (hi + 1 + Z.of_nat (length os)) by lia.
    apply IH; [lia|done|]. apply exec_version; auto. lia.
Qed.
End memrepo.

(** ** Properties *)

(** C36: a client that follows the page cursors receives every task of the store
    the query selects, each once and newest first, whatever the page size, and
    the walk ends; no page cut panics. *)
Theorem walk_complete `{UuidLaws} (s : Store) (q : ListQuery) :
  keyed s → no_zero_cursor s → 1 ≤ q_Limit q →
  ∃ l, walk (S (size s)) q s = Some l
    ∧ StronglySorted newer l ∧ NoDup (ID <$> l)
    ∧ ∀ t, t ∈ l ↔ s !! ID t = Some t ∧ selects q t = true.
Proof.
  intros Hk Hz Hlim. exists (sortNewestFirst (matching q s)). split_and!.
  - apply walk_all; auto. pose proof (length_matching q s). lia.
  - by apply sort_newer, matching_NoDup.
  - rewrite sort_perm. by apply matching_NoDup.
  - intros t. rewrite sort_perm, elem_of_matching. split; [|by naive_solver].
    intros [[id Hid] Hsel]. by rewrite (Hk id t Hid).
Qed.

(** Optimistic locking loses no update: after a conditional update against
    version [v] succeeded, and whatever operations other callers ran since,
    short of deleting that task, a second update against [v] changes nothing and
    is refused as a conflict. *)
Lemma no_lost_update `{UuidPkg} (t t' r : Task) (v : Z) (os : list op) (s s1 : Store) :
  v ≠ 0 → in_int64 v → v + Z.of_nat (length os) < int64_max →
  ID t' = ID t → Forall (λ o, ¬ deletes (ID t) o) os →
  Update None t v s = (Ok r, s1) →
  Update None t' v (execs os s1) = (Err ErrConflict, execs os s1).
Proof.
  intros Hv [Hmin _] Hmax Hid Hf Hup.
  assert (version_within (ID t) (v + 1) (v + 1) s1) as Hs1.
  { unfold Update in Hup. destruct (s !! ID t) as [x|]; [|done].
    destruct (negb (v =? 0) && negb (Version x =? v)) eqn:Hg; [done|]. simplify_eq.
    eexists. rewrite lookup_insert_eq. split; [done|]. simpl.
    apply andb_false_iff in Hg as [Hg|Hg]; apply negb_false_iff in Hg; zbool; [done|].
    rewrite wrap64_id; unfold in_int64; lia. }
  apply (execs_version os) in Hs1 as (x & Hx & Hlo & _); [|lia|lia|done].
  unfold Update. rewrite Hid, Hx.
  replace (v =? 0) with false by (symmetry; zbool; done).
  by replace (Version x =? v) with false by (symmetry; zbool; lia).
Qed.

(** ** The properties at concrete stores *)

Definition sample_task (n at_ v : Z) : Task :=
  mkTask (uuid_of n) "buy milk" StatusIncomplete at_ at_ v.

(** Three tasks; two share their creation time. *)
Definition sample_store : Store :=
  execs [OpCreate None (sample_task 1 10 1); OpCreate None (sample_task 2 20 1);
         OpCreate None (sample_task 3 20 1)] New.

Lemma walk_complete_witness :
  ∃ l, walk (S (size sample_store)) (mkListQuery (Some 0) 1 zeroCursor) sample_store = Some l
    ∧ StronglySorted newer l ∧ NoDup (ID <$> l)
    ∧ ∀ t, t ∈ l ↔ sample_store !! ID t = Some t
                   ∧ selects (mkListQuery (Some 0) 1 zeroCursor) t = true.
Proof.
  apply (walk_complete sample_store (mkListQuery (Some 0) 1 zeroCursor)).
  - apply execs_keyed, keyed_empty.
  - vm_decide.
  - done.
Defined.

Example walk_ex :
  walk 4 (mkListQuery (Some 0) 1 zeroCursor) sample_store
  = Some [sample_task 3 20 1; sample_task 2 20 1; sample_task 1 10 1].
Proof. vm_eq. Qed.

Lemma no_lost_update_witness :
  let s1 := (Update None (sample_task 1 10 0) 1 sample_store).2 in
  let os := [OpDelete None (uuid_of 2); OpUpdate None (sample_task 1 10 0) 2] in
  Update None (sample_task 1 99 0) 1 (execs os s1) = (Err ErrConflict, execs os s1).
Proof.
  apply (no_lost_update (sample_task 1 10 0) (sample_task 1 99 0) (sample_task 1 10 2) 1 _
           sample_store).
  - done.
  - unfold in_int64, int64_min, int64_max. lia.
  - unfold int64_max. simpl. lia.
  - done.
  - repeat constructor; simpl; [|by intros ?]. intros E%(f_equal proj1_sig). done.
  - vm_eq.
Defined.
