(* ===== verification/ConfigBase.v ===== *)
(** * Configuration helpers (src/internal/config/problems.go) and the
    parts of Go's standard library the sections validate with *)
From stdpp Require Import options.
From S2P Require Import Prelude GoStrings GoDuration Apperr.
From Stdlib Require Import Ascii QArith.
Open Scope Z_scope.

(** ** Standard library *)

(** What validation asks of [strconv.Quote] (the [%q] verb), whose table of
    printable runes is not modelled, and of [net/url.Parse]: the scheme and the
    host, or an error. *)
Class GoText : Type := {
  Quote : string → string;
  url_Parse : string → result string (string * string);
}.

(** A [float64] read from configuration. *)
Inductive f64 : Type :=
  | FNaN
  | FPosInf
  | FNegInf
  | FNum (q : Q).

(** [x <= z], [x < z] and [x > z] for an integral constant [z]; every comparison
    with a NaN is false. *)
Definition f64_le (x : f64) (z : Z) : bool :=
  match x with FNaN => false | FPosInf => false | FNegInf => true
  | FNum q => Qle_bool q (inject_Z z) end.
Definition f64_lt (x : f64) (z : Z) : bool :=
  match x with FNaN => false | FPosInf => false | FNegInf => true
  | FNum q => negb (Qle_bool (inject_Z z) q) end.
Definition f64_gt (x : f64) (z : Z) : bool :=
  match x with FNaN => false | FPosInf => true | FNegInf => false
  | FNum q => negb (Qle_bool q (inject_Z z)) end.

(** The text after the last occurrence of a byte, and the text before it. *)
Fixpoint cut_last (c : ascii) (s : string) : option (string * string) :=
  match s with
  | EmptyString => None
  | String a s' =>
      match cut_last c s' with
      | Some (b, r) => Some (String a b, r)
      | None => if decide (a = c) then Some (EmptyString, s') else None
      end
  end.

(** [net.SplitHostPort]: the part before the last colon and the part after it.
    The host may be bracketed, and must be if it holds a colon; no other bracket
    is allowed.  [None] is an error. *)
Definition split_host_port (hostport : string) : option (string * string) :=
  match cut_last ":" hostport with
  | None => None
  | Some (before, port) =>
      let clean s := negb (contains_byte "[" s) && negb (contains_byte "]" s) in
      match cut_prefix "[" before with
      | Some inner =>
          match cut "]" inner with
          | Some (host, "") =>
              if negb (contains_byte "[" host) && clean port then Some (host, port) else None
          | _ => None
          end
      | None =>
          if negb (contains_byte ":" before) && clean before && clean port
          then Some (before, port) else None
      end
  end.

(** ** problems.go

    [Problems] is the list of the messages added so far, in order; each method
    appends to it. *)

Definition Problems : Type := list string.

Definition Add (field msg : string) (p : Problems) : Problems :=
  p ++ [(field +:+ ": " +:+ msg)%string].

Definition NotEmpty (field value : string) (p : Problems) : Problems :=
  if decide (trim_space value = "") then Add field "must not be empty" p else p.

Definition Positive (field : string) (d : Z) (p : Problems) : Problems :=
  if d <=? 0 then Add field "must be greater than zero" p else p.

Definition AtLeast (field : string) (value min : Z) (p : Problems) : Problems :=
  if value <? min then
    Add field ("must be at least " +:+ itoa min +:+ ", got " +:+ itoa value)%string p
  else p.

Definition OneOf `{GoText} (field value : string) (allowed : list string) (p : Problems)
  : Problems :=
  if decide (value ∈ allowed) then p
  else Add field (Quote value +:+ " is not one of: " +:+ join_with ", " allowed)%string p.

Definition Len (p : Problems) : Z := Z.of_nat (length p).

Definition newline_sep : string := String (byte 10) "  ".

Definition problems_Err (p : Problems) : option err :=
  match p with
  | [] => None
  | _ => Some (EWrap ("invalid configuration:" +:+ newline_sep)%string
                 (ENew (join_with newline_sep p)) "")
  end.

Definition join (prefix field : string) : string :=
  if decide (prefix = "") then field else (prefix +:+ "." +:+ field)%string.

(** Record a problem when a test fails. *)
Definition check (bad : bool) (field msg : string) (p : Problems) : Problems :=
  if bad then Add field msg p else p.

(** Run rules in the order they are written. *)
Definition in_order (rules : list (Problems → Problems)) (p : Problems) : Problems :=
  foldl (λ p r, r p) p rules.

(** ** A rule passes when it adds nothing *)

(** A rule only ever appends, and whether it does is independent of what was
    there. *)
Definition appends (r : Problems → Problems) : Prop := ∀ p, r p = p ++ r [].

Definition passes (r : Problems → Problems) : Prop := r [] = [].

Lemma appends_Add (f m : string) : appends (Add f m).
Proof. done. Qed.

Lemma appends_if (b : bool) (r : Problems → Problems) :
  appends r → appends (λ p, if b then r p else p).
Proof. intros Hr p. destruct b; [apply Hr|]. by rewrite app_nil_r. Qed.

Lemma appends_in_order (rules : list (Problems → Problems)) :
  Forall appends rules → appends (in_order rules).
Proof.
  intros Hr. unfold in_order. induction Hr as [|r rules Hr _ IH]; intros p; simpl.
  - by rewrite app_nil_r.
  - rewrite IH, (Hr p), (IH (r [])). by rewrite (assoc_L (++)).
Qed.

Lemma appends_check (bad : bool) (f m : string) : appends (check bad f m).
Proof. apply (appends_if bad (Add f m)), appends_Add. Qed.

Lemma appends_NotEmpty (f v : string) : appends (NotEmpty f v).
Proof. intros p. unfold NotEmpty. case_decide; [done|]. by rewrite app_nil_r. Qed.

Lemma appends_Positive (f : string) (d : Z) : appends (Positive f d).
Proof. apply (appends_check (d <=? 0)). Qed.

Lemma appends_AtLeast (f : string) (v m : Z) : appends (AtLeast f v m).
Proof. apply (appends_check (v <? m)). Qed.

Lemma appends_OneOf `{GoText} (f v : string) (l : list string) : appends (OneOf f v l).
Proof. intros p. unfold OneOf. case_decide; [|done]. by rewrite app_nil_r. Qed.

Lemma appends_id : appends (λ p, p).
Proof. intros p. by rewrite app_nil_r. Qed.

Create HintDb config.
#[export] Hint Resolve appends_Add appends_if appends_in_order appends_check appends_NotEmpty
  appends_Positive appends_AtLeast appends_OneOf appends_id : config.

Lemma passes_in_order (rules : list (Problems → Problems)) :
  Forall appends rules → passes (in_order rules) ↔ Forall passes rules.
Proof.
  unfold passes. induction 1 as [|r rules Hr Hrs IH].
  - split; [constructor|done].
  - rewrite Forall_cons. change (in_order (r :: rules) []) with (in_order rules (r [])).
    rewrite (appends_in_order rules Hrs), <- IH. split.
    + by intros [? ?]%app_nil.
    + by intros [-> ->].
Qed.

Lemma Add_not_nil (f m : string) (p : Problems) : Add f m p ≠ [].
Proof. unfold Add. intros E%app_nil. by destruct E. Qed.

Lemma passes_check (bad : bool) (f m : string) : passes (check bad f m) ↔ bad = false.
Proof. unfold passes, check. destruct bad; [|done]. split; [|done]. by intros ?%Add_not_nil. Qed.

Lemma passes_NotEmpty (f v : string) : passes (NotEmpty f v) ↔ trim_space v ≠ "".
Proof.
  unfold passes, NotEmpty. case_decide; [|done]. split; [by intros ?%Add_not_nil|done].
Qed.

Lemma passes_Positive (f : string) (d : Z) : passes (Positive f d) ↔ 0 < d.
Proof. change (passes (check (d <=? 0) f "must be greater than zero") ↔ 0 < d).
  rewrite passes_check. split; intros; zbool; lia. Qed.

Lemma passes_AtLeast (f : string) (v m : Z) : passes (AtLeast f v m) ↔ m ≤ v.
Proof.
  unfold passes, AtLeast. destruct (v <? m) eqn:E; zbool; split; intros; try done; try lia.
Qed.

Lemma passes_OneOf `{GoText} (f v : string) (l : list string) : passes (OneOf f v l) ↔ v ∈ l.
Proof. unfold passes, OneOf. case_decide; [done|]. split; [by intros ?%Add_not_nil|done]. Qed.

Lemma problems_Err_None (p : Problems) : problems_Err p = None ↔ p = [].
Proof. destruct p; done. Qed.
