(* ===== verification/ConfigSections.v ===== *)
(** * The configuration sections (src/internal/config, one section per file) and
    the whole configuration (config.go): fields, defaults and validation

    A Go [Duration] is a count of nanoseconds.  A [Validate] method is a function
    on the problems gathered so far. *)
From stdpp Require Import options.
From S2P Require Import Prelude GoStrings GoDuration Apperr ConfigBase.
From Stdlib Require Import Ascii QArith.
Open Scope Z_scope.

(** [strings.ToUpper] of ASCII text. *)
Definition upper_byte (c : ascii) : ascii :=
  let n := nat_of_ascii c in
  if (97 <=? n)%nat && (n <=? 122)%nat then ascii_of_nat (n - 32) else c.
Fixpoint to_upper (s : string) : string :=
  match s with EmptyString => EmptyString | String a s => String (upper_byte a) (to_upper s) end.

(** [strings.ReplaceAll(s, ".", "_")]. *)
Fixpoint dots_to_underscores (s : string) : string :=
  match s with
  | EmptyString => EmptyString
  | String a s => String (if decide (a = ".")%char then "_"%char else a) (dots_to_underscores s)
  end.

Definition EnvPrefix : string := "TASKAPI_".

Definition EnvName (path : string) : string :=
  (EnvPrefix +:+ to_upper (dots_to_underscores path))%string.

(** ** service.go *)

Record Service : Type := mkService { Svc_Name : string; Svc_Instance : string }.

(** [os_Hostname] is what the operating system answers. *)
Definition hostname (os_Hostname : result err string) : string :=
  match os_Hostname with
  | Ok h => if decide (h = "") then "unknown" else h
  | Err _ => "unknown"
  end.

Definition Service_SetDefaults (os_Hostname : result err string) : Service :=
  mkService "taskapi" (hostname os_Hostname).

Definition Service_Validate (s : Service) : Problems → Problems :=
  in_order [NotEmpty (join "service" "name") (Svc_Name s);
            NotEmpty (join "service" "instance") (Svc_Instance s)].

(** ** logging.go *)

Definition LevelError : string := "error".
Definition LevelWarn : string := "warn".
Definition LevelInfo : string := "info".
Definition LevelDebug : string := "debug".
Definition LevelTrace : string := "trace".

Definition FormatAuto : string := "auto".
Definition FormatText : string := "text".
Definition FormatJSON : string := "json".

Record Logging : Type := mkLogging { Log_Level : string; Log_Format : string }.

Definition Logging_SetDefaults : Logging := mkLogging LevelInfo FormatAuto.

(** [checkLevel]: [None] is nil. *)
Definition checkLevel `{GoText} (s : string) : option string :=
  if decide (to_lower (trim_space s)
             ∈ [LevelTrace; LevelDebug; LevelInfo; LevelWarn; "warning"; LevelError; "err"])
  then None
  else Some (Quote s +:+ " is not one of: "
             +:+ join_with ", " [LevelError; LevelWarn; LevelInfo; LevelDebug; LevelTrace])%string.

Definition Logging_Validate `{GoText} (l : Logging) : Problems → Problems :=
  in_order [(λ p, match checkLevel (Log_Level l) with
                  | Some e => Add (join "logging" "level") e p
                  | None => p
                  end);
            OneOf (join "logging" "format") (Log_Format l) [FormatAuto; FormatText; FormatJSON]].

(** ** http.go *)

Record HTTP : Type := mkHTTP {
  H_Addr : string;
  H_ReadHeaderTimeout : Z;
  H_ReadTimeout : Z;
  H_WriteTimeout : Z;
  H_IdleTimeout : Z;
  H_ShutdownGrace : Z;
  H_MaxBodyBytes : Z;
  H_TrustedProxyHops : Z;
}.

Definition HTTP_SetDefaults : HTTP :=
  mkHTTP ":8080" (5 * second) (15 * second) (30 * second) (60 * second) (20 * second)
    (Z.shiftl 1 20) 0.

Definition HTTP_Validate (h : HTTP) : Problems → Problems :=
  let at_ := join "http" in
  in_order [NotEmpty (at_ "addr") (H_Addr h);
            Positive (at_ "read_header_timeout") (H_ReadHeaderTimeout h);
            Positive (at_ "read_timeout") (H_ReadTimeout h);
            Positive (at_ "write_timeout") (H_WriteTimeout h);
            Positive (at_ "idle_timeout") (H_IdleTimeout h);
            Positive (at_ "shutdown_grace") (H_ShutdownGrace h);
            check (H_MaxBodyBytes h <=? 0) (at_ "max_body_bytes") "must be greater than zero";
            check (H_TrustedProxyHops h <? 0) (at_ "trusted_proxy_hops") "must not be negative"].

(** ** admin.go *)

Record Admin : Type := mkAdmin { A_Addr : string; A_Pprof : bool }.
Definition Admin_SetDefaults : Admin := mkAdmin ":9090" true.
Definition Admin_Validate (a : Admin) : Problems → Problems :=
  NotEmpty (join "admin" "addr") (A_Addr a).

(** ** storage.go *)

Definition BackendMemory : string := "memory".
Definition BackendPostgres : string := "postgres".

Record Postgres : Type := mkPostgres {
  Pg_DSN : string;
  Pg_MaxConns : Z;
  Pg_MinConns : Z;
  Pg_MaxConnLifetime : Z;
  Pg_MaxConnIdleTime : Z;
  Pg_HealthCheckPeriod : Z;
  Pg_ConnectTimeout : Z;
  Pg_StatementTimeout : Z;
  Pg_IdleInTransactionSessionTimeout : Z;
  Pg_LockTimeout : Z;
}.

Record Storage : Type := mkStorage { Sto_Backend : string; Sto_Postgres : Postgres }.

Definition Storage_SetDefaults : Storage :=
  mkStorage BackendMemory
    (mkPostgres "" 20 2 (30 * minute) (5 * minute) (30 * second) (5 * second) (5 * second)
       (10 * second) (3 * second)).

Definition Postgres_validate (pg : Postgres) (prefix : string) : Problems → Problems :=
  let at_ := join prefix in
  in_order [check (bool_decide (Pg_DSN pg = "")) (at_ "dsn")
              ("required when storage.backend is postgres (set "
               +:+ EnvName "storage.postgres.dsn" +:+ ")")%string;
            check (Pg_MaxConns pg <=? 0) (at_ "max_conns") "must be greater than zero";
            check (Pg_MinConns pg <? 0) (at_ "min_conns") "must not be negative";
            check (Pg_MaxConns pg <? Pg_MinConns pg) (at_ "min_conns")
              ("must not exceed " +:+ at_ "max_conns")%string;
            Positive (at_ "connect_timeout") (Pg_ConnectTimeout pg);
            Positive (at_ "statement_timeout") (Pg_StatementTimeout pg)].

Definition Storage_Validate `{GoText} (s : Storage) : Problems → Problems :=
  in_order [OneOf (join "storage" "backend") (Sto_Backend s) [BackendMemory; BackendPostgres];
            (λ p, if bool_decide (Sto_Backend s = BackendPostgres)
                  then Postgres_validate (Sto_Postgres s) (join "storage" "postgres") p else p)].

(** ** queue.go *)

Definition JitterFull : string := "full".
Definition JitterEqual : string := "equal".
Definition JitterNone : string := "none".

Record Backoff : Type := mkBackoff { B_Base : Z; B_Max : Z; B_Jitter : string }.
Record Retention : Type := mkRetention {
  R_Succeeded : Z; R_Discarded : Z; R_PurgeInterval : Z }.

Record Queue : Type := mkQueue {
  Q_Workers : Z;
  Q_ClaimBatch : Z;
  Q_Lease : Z;
  Q_HeartbeatInterval : Z;
  Q_PollInterval : Z;
  Q_ReaperInterval : Z;
  Q_FetchCooldown : Z;
  Q_JobTimeout : Z;
  Q_MaxAttempts : Z;
  Q_Backoff : Backoff;
  Q_Retention : Retention;
}.

Definition Queue_SetDefaults : Queue :=
  mkQueue 8 10 (30 * second) (10 * second) (2 * second) (15 * second) (100 * millisecond)
    (1 * minute) 5
    (mkBackoff (1 * second) (5 * minute) JitterFull)
    (mkRetention (24 * hour) (7 * 24 * hour) (1 * hour)).

Definition Backoff_validate `{GoText} (b : Backoff) (prefix : string) : Problems → Problems :=
  let at_ := join prefix in
  in_order [Positive (at_ "base") (B_Base b);
            Positive (at_ "max") (B_Max b);
            check ((0 <? B_Max b) && (B_Max b <? B_Base b)) (at_ "base")
              ("must not exceed " +:+ at_ "max")%string;
            OneOf (at_ "jitter") (B_Jitter b) [JitterFull; JitterEqual; JitterNone]].

Definition Retention_validate (r : Retention) (prefix : string) : Problems → Problems :=
  in_order [Positive (join prefix "succeeded") (R_Succeeded r);
            Positive (join prefix "discarded") (R_Discarded r);
            Positive (join prefix "purge_interval") (R_PurgeInterval r)].

(** [HeartbeatInterval*3] is 64-bit arithmetic. *)
Definition Queue_Validate `{GoText} (q : Queue) : Problems → Problems :=
  let at_ := join "queue" in
  in_order [AtLeast (at_ "workers") (Q_Workers q) 1;
            AtLeast (at_ "claim_batch") (Q_ClaimBatch q) 1;
            AtLeast (at_ "max_attempts") (Q_MaxAttempts q) 1;
            Positive (at_ "lease") (Q_Lease q);
            Positive (at_ "heartbeat_interval") (Q_HeartbeatInterval q);
            Positive (at_ "poll_interval") (Q_PollInterval q);
            Positive (at_ "reaper_interval") (Q_ReaperInterval q);
            Positive (at_ "job_timeout") (Q_JobTimeout q);
            check (Q_FetchCooldown q <? 0) (at_ "fetch_cooldown") "must not be negative";
            check ((0 <? Q_HeartbeatInterval q) && (0 <? Q_Lease q)
                   && (Q_Lease q <? wrap64 (Q_HeartbeatInterval q * 3)))
              (at_ "heartbeat_interval")
              ("must be at most one third of " +:+ at_ "lease" +:+ " ("
               +:+ Duration_String (Q_Lease q)
               +:+ "), so two missed heartbeats are tolerated before the reaper acts")%string;
            Backoff_validate (Q_Backoff q) (at_ "backoff");
            Retention_validate (Q_Retention q) (at_ "retention")].

(** ** idempotency.go *)

Record Idempotency : Type := mkIdempotency {
  I_Enabled : bool;
  I_Required : bool;
  I_TTL : Z;
  I_PurgeInterval : Z;
  I_MaxKeyBytes : Z;
}.

Definition Idempotency_SetDefaults : Idempotency :=
  mkIdempotency true false (24 * hour) (1 * hour) 255.

Definition Idempotency_Validate (i : Idempotency) : Problems → Problems :=
  let at_ := join "idempotency" in
  in_order [Positive (at_ "ttl") (I_TTL i);
            Positive (at_ "purge_interval") (I_PurgeInterval i);
            AtLeast (at_ "max_key_bytes") (I_MaxKeyBytes i) 1;
            check (8192 <? I_MaxKeyBytes i) (at_ "max_key_bytes")
              "must not exceed 8192: a longer key does not fit a btree entry";
            check ((0 <? I_TTL i) && (I_TTL i <? I_PurgeInterval i)) (at_ "purge_interval")
              ("must not exceed " +:+ at_ "ttl" +:+ " (" +:+ Duration_String (I_TTL i) +:+ ")")%string;
            check (I_Required i && negb (I_Enabled i)) (at_ "required")
              ("cannot be set while " +:+ at_ "enabled" +:+ " is false")%string].

(** ** ratelimit.go *)

Definition TierAnonymous : string := "anonymous".
Definition TierStandard : string := "standard".
Definition TierInternal : string := "internal".

Record Quota : Type := mkQuota { Quo_Rate : f64; Quo_Burst : Z }.
Record Tiers : Type := mkTiers { T_Anonymous : Quota; T_Standard : Quota; T_Internal : Quota }.
Record RateLimit : Type := mkRateLimit {
  RL_Enabled : bool;
  RL_GlobalInflight : Z;
  RL_KeyTTL : Z;
  RL_SweepInterval : Z;
  RL_Tiers : Tiers;
}.

Definition RateLimit_SetDefaults : RateLimit :=
  mkRateLimit true 200 (10 * minute) (1 * minute)
    (mkTiers (mkQuota (FNum 10) 20) (mkQuota (FNum 100) 200) (mkQuota (FNum 1000) 2000)).

Definition Quota_validate (q : Quota) (prefix : string) : Problems → Problems :=
  in_order [check (f64_le (Quo_Rate q) 0) (join prefix "rate") "must be greater than zero";
            AtLeast (join prefix "burst") (Quo_Burst q) 1].

Definition RateLimit_Validate (r : RateLimit) (p : Problems) : Problems :=
  let at_ := join "ratelimit" in
  if RL_Enabled r then
    in_order [AtLeast (at_ "global_inflight") (RL_GlobalInflight r) 1;
              Positive (at_ "key_ttl") (RL_KeyTTL r);
              Positive (at_ "sweep_interval") (RL_SweepInterval r);
              Quota_validate (T_Anonymous (RL_Tiers r)) (at_ ("tiers." +:+ TierAnonymous)%string);
              Quota_validate (T_Standard (RL_Tiers r)) (at_ ("tiers." +:+ TierStandard)%string);
              Quota_validate (T_Internal (RL_Tiers r)) (at_ ("tiers." +:+ TierInternal)%string)] p
  else p.

(** ** auth.go *)

Definition AuthOptional : string := "optional".
Definition AuthRequired : string := "required".
Definition AuthOff : string := "off".

Definition DemoStandardTokenSHA256 : string :=
  "064462d4b78abaa304c5b4ab22e4a29119dbf18b3a8d7fc86e2fc633429f7dce".
Definition DemoInternalTokenSHA256 : string :=
  "46f8c89e2172e93598e17b2a9e0261bb7848cfe389bf3d46bb98cc50c8b4710c".

Definition hex_digit (c : ascii) : bool :=
  let n := nat_of_ascii c in
  ((48 <=? n) && (n <=? 57) || (65 <=? n) && (n <=? 70) || (97 <=? n) && (n <=? 102))%nat.

(** The regular expression [^[0-9a-fA-F]{64}$]. *)
Definition sha256Hex (s : string) : bool :=
  (len s =? 64) && forallb hex_digit (String.list_ascii_of_string s).

Record AuthClient : Type := mkAuthClient {
  AC_ID : string; AC_Tier : string; AC_TokenSHA256 : string }.

Record Auth : Type := mkAuth {
  Au_Mode : string; Au_Realm : string; Au_Clients : list AuthClient }.

Definition Auth_SetDefaults : Auth :=
  mkAuth AuthOptional "taskapi"
    [mkAuthClient "demo" TierStandard DemoStandardTokenSHA256;
     mkAuthClient "worker" TierInternal DemoInternalTokenSHA256].

(** The loop over the clients, with its two maps and the index. *)
Fixpoint validateClients_loop `{GoText} (i : Z) (cs : list AuthClient)
  (seenID : gmap string Z) (seenToken : gmap string string) (p : Problems) : Problems :=
  match cs with
  | [] => p
  | c :: cs =>
      let at_ f := ("auth.clients[" +:+ itoa i +:+ "]." +:+ f)%string in
      let '(p, seenID) :=
        if decide (AC_ID c = "") then (Add (at_ "id") "must not be empty" p, seenID)
        else
          (match seenID !! AC_ID c with
           | Some prev =>
               Add (at_ "id") ("duplicate client id " +:+ Quote (AC_ID c)
                               +:+ " (also at auth.clients[" +:+ itoa prev +:+ "])")%string p
           | None => p
           end, <[AC_ID c := i]> seenID) in
      let p := OneOf (at_ "tier") (AC_Tier c) [TierAnonymous; TierStandard; TierInternal] p in
      let '(p, seenToken) :=
        if decide (AC_TokenSHA256 c = "") then
          (Add (at_ "token_sha256") "must not be empty" p, seenToken)
        else if negb (sha256Hex (AC_TokenSHA256 c)) then
          (Add (at_ "token_sha256")
             "must be 64 hexadecimal characters: store the SHA-256 of the token, never the token itself"
             p, seenToken)
        else
          let lower := to_lower (AC_TokenSHA256 c) in
          (match seenToken !! lower with
           | Some prev =>
               Add (at_ "token_sha256")
                 ("duplicate token, already used by client " +:+ Quote prev)%string p
           | None => p
           end, <[lower := AC_ID c]> seenToken) in
      validateClients_loop (i + 1) cs seenID seenToken p
  end.

Definition validateClients `{GoText} (a : Auth) : Problems → Problems :=
  validateClients_loop 0 (Au_Clients a) ∅ ∅.

Definition Auth_Validate `{GoText} (a : Auth) : Problems → Problems :=
  let at_ := join "auth" in
  in_order [OneOf (at_ "mode") (Au_Mode a) [AuthOptional; AuthRequired; AuthOff];
            NotEmpty (at_ "realm") (Au_Realm a);
            validateClients a;
            check (bool_decide (Au_Mode a = AuthRequired) && bool_decide (Au_Clients a = []))
              (at_ "clients")
              "auth.mode is required but no clients are configured: every request would be rejected"].

#[export] Instance AuthClient_eq_dec : EqDecision AuthClient.
Proof. solve_decision. Defined.

(** ** breaker.go *)

Record BreakerSettings : Type := mkBreakerSettings {
  BS_FailureRateThreshold : f64;
  BS_MinThroughput : Z;
  BS_Window : Z;
  BS_OpenDuration : Z;
  BS_HalfOpenMaxCalls : Z;
  BS_HalfOpenSuccessThreshold : Z;
}.

Record Breaker : Type := mkBreaker { Br_Webhook : BreakerSettings }.

Definition Breaker_SetDefaults : Breaker :=
  mkBreaker (mkBreakerSettings (FNum (1 # 2)) 20 (10 * second) (30 * second) 5 3).

Definition BreakerSettings_validate (s : BreakerSettings) (prefix : string)
  : Problems → Problems :=
  let at_ := join prefix in
  in_order [check (f64_le (BS_FailureRateThreshold s) 0 || f64_gt (BS_FailureRateThreshold s) 1)
              (at_ "failure_rate_threshold") "must be in (0, 1]";
            check (BS_MinThroughput s <? 1) (at_ "min_throughput")
              "must be at least 1: without a floor, one failure out of one request opens the circuit";
            Positive (at_ "window") (BS_Window s);
            Positive (at_ "open_duration") (BS_OpenDuration s);
            check (BS_HalfOpenMaxCalls s <? 1) (at_ "half_open_max_calls") "must be at least 1";
            check (BS_HalfOpenSuccessThreshold s <? 1) (at_ "half_open_success_threshold")
              "must be at least 1";
            check ((1 <=? BS_HalfOpenMaxCalls s)
                   && (BS_HalfOpenMaxCalls s <? BS_HalfOpenSuccessThreshold s))
              (at_ "half_open_success_threshold")
              ("must not exceed " +:+ at_ "half_open_max_calls"
               +:+ ", or the circuit can never close")%string].

Definition Breaker_Validate (b : Breaker) : Problems → Problems :=
  BreakerSettings_validate (Br_Webhook b) (join "breaker" "webhook").

(** ** webhook.go *)

Record WebhookRetry : Type := mkWebhookRetry {
  WR_MaxAttempts : Z; WR_Base : Z; WR_Max : Z; WR_BudgetMaxRate : f64 }.
Record Webhook : Type := mkWebhook { W_URL : string; W_Timeout : Z; W_Retry : WebhookRetry }.

Definition Webhook_SetDefaults : Webhook :=
  mkWebhook "" (3 * second) (mkWebhookRetry 3 (200 * millisecond) (5 * second) (FNum (1 # 5))).

Definition checkHTTPURL `{GoText} (field raw : string) (p : Problems) : Problems :=
  match url_Parse raw with
  | Err e => Add field ("is not a valid URL: " +:+ e)%string p
  | Ok (scheme, host) =>
      if negb (bool_decide (scheme = "http")) && negb (bool_decide (scheme = "https"))
      then Add field ("scheme " +:+ Quote scheme +:+ " is not supported (want http or https)")%string p
      else if decide (host = "") then Add field "is missing a host" p
      else p
  end.

Definition WebhookRetry_validate (r : WebhookRetry) (prefix : string) : Problems → Problems :=
  let at_ := join prefix in
  in_order [AtLeast (at_ "max_attempts") (WR_MaxAttempts r) 1;
            Positive (at_ "base") (WR_Base r);
            Positive (at_ "max") (WR_Max r);
            check (WR_Max r <? WR_Base r) (at_ "base") ("must not exceed " +:+ at_ "max")%string;
            check (f64_le (WR_BudgetMaxRate r) 0 || f64_gt (WR_BudgetMaxRate r) 1)
              (at_ "budget_max_rate") "must be in (0, 1]"].

Definition Webhook_Validate `{GoText} (w : Webhook) : Problems → Problems :=
  let at_ := join "webhook" in
  in_order [(λ p, if bool_decide (W_URL w ≠ "") then checkHTTPURL (at_ "url") (W_URL w) p else p);
            Positive (at_ "timeout") (W_Timeout w);
            WebhookRetry_validate (W_Retry w) (at_ "retry")].

(** ** observability.go *)

Record Metrics : Type := mkMetrics { M_Enabled : bool; M_NativeHistograms : bool }.
Record Tracing : Type := mkTracing {
  Tr_Enabled : bool; Tr_OTLPEndpoint : string; Tr_SampleRatio : f64 }.
Record Observability : Type := mkObservability { O_Metrics : Metrics; O_Tracing : Tracing }.

Definition Observability_SetDefaults : Observability :=
  mkObservability (mkMetrics true true) (mkTracing false "" (FNum (1 # 10))).

Definition Observability_Validate (o : Observability) : Problems → Problems :=
  let at_ := join "observability" in
  in_order [check (Tr_Enabled (O_Tracing o) && bool_decide (Tr_OTLPEndpoint (O_Tracing o) = ""))
              (at_ "tracing.otlp_endpoint") "required when tracing is enabled";
            check (f64_lt (Tr_SampleRatio (O_Tracing o)) 0 || f64_gt (Tr_SampleRatio (O_Tracing o)) 1)
              (at_ "tracing.sample_ratio") "must be between 0 and 1"].

(** ** config.go *)

Record Config : Type := mkConfig {
  C_Service : Service;
  C_Logging : Logging;
  C_HTTP : HTTP;
  C_Admin : Admin;
  C_Storage : Storage;
  C_Queue : Queue;
  C_Idempotency : Idempotency;
  C_Auth : Auth;
  C_RateLimit : RateLimit;
  C_Breaker : Breaker;
  C_Webhook : Webhook;
  C_Observability : Observability;
}.

Definition Defaults (os_Hostname : result err string) : Config :=
  mkConfig (Service_SetDefaults os_Hostname) Logging_SetDefaults HTTP_SetDefaults
    Admin_SetDefaults Storage_SetDefaults Queue_SetDefaults Idempotency_SetDefaults
    Auth_SetDefaults RateLimit_SetDefaults Breaker_SetDefaults Webhook_SetDefaults
    Observability_SetDefaults.

Definition ephemeralPort (addr : string) : bool :=
  match split_host_port addr with
  | Some (_, port) => bool_decide (port = "0")
  | None => false
  end.

Definition validateAcrossSections (c : Config) : Problems → Problems :=
  in_order [check (bool_decide (A_Addr (C_Admin c) = H_Addr (C_HTTP c))
                   && negb (ephemeralPort (A_Addr (C_Admin c))))
              "admin.addr"
              "must differ from http.addr: pprof and metrics must never be reachable on the public listener";
            check ((0 <? W_Timeout (C_Webhook c))
                   && (0 <? BS_OpenDuration (Br_Webhook (C_Breaker c)))
                   && (BS_OpenDuration (Br_Webhook (C_Breaker c)) <? W_Timeout (C_Webhook c)))
              "webhook.timeout" "must not exceed breaker.webhook.open_duration"].

(** The rules of [sections], in its order. *)
Definition sections `{GoText} (c : Config) : list (Problems → Problems) :=
  [Service_Validate (C_Service c); Logging_Validate (C_Logging c); HTTP_Validate (C_HTTP c);
   Admin_Validate (C_Admin c); Storage_Validate (C_Storage c); Queue_Validate (C_Queue c);
   Idempotency_Validate (C_Idempotency c); Auth_Validate (C_Auth c);
   RateLimit_Validate (C_RateLimit c); Breaker_Validate (C_Breaker c);
   Webhook_Validate (C_Webhook c); Observability_Validate (C_Observability c)].

Definition Validate `{GoText} (c : Config) : option err :=
  problems_Err (in_order (sections c ++ [validateAcrossSections c]) []).

(** print.go *)
Definition RedactedValue : string :=
  (bytes_string [194; 171]%nat +:+ "redacted" +:+ bytes_string [194; 187]%nat)%string.

Definition Redacted (c : Config) : Config :=
  let pg := Sto_Postgres (C_Storage c) in
  let dsn := if decide (Pg_DSN pg = "") then Pg_DSN pg else RedactedValue in
  mkConfig (C_Service c) (C_Logging c) (C_HTTP c) (C_Admin c)
    (mkStorage (Sto_Backend (C_Storage c))
       (mkPostgres dsn (Pg_MaxConns pg) (Pg_MinConns pg) (Pg_MaxConnLifetime pg)
          (Pg_MaxConnIdleTime pg) (Pg_HealthCheckPeriod pg) (Pg_ConnectTimeout pg)
          (Pg_StatementTimeout pg) (Pg_IdleInTransactionSessionTimeout pg) (Pg_LockTimeout pg)))
    (C_Queue c) (C_Idempotency c) (C_Auth c) (C_RateLimit c) (C_Breaker c) (C_Webhook c)
    (C_Observability c).
