(* ===== verification/ConfigFacts.v ===== *)
(** * What [Validate] accepts

    Every rule appends to the problems and is independent of those before it, so
    a configuration validates exactly when each rule of each section passes.
    [config_ok] says in the terms of the rest of the program what that means. *)
From stdpp Require Import options.
From S2P Require Import Prelude GoStrings GoDuration Apperr ConfigBase ConfigSections.
From Stdlib Require Import Ascii QArith.
Open Scope Z_scope.

(** ** Per-section specifications *)

Record logging_ok (l : Logging) : Prop := {
  lo_level : to_lower (trim_space (Log_Level l))
             ∈ [LevelTrace; LevelDebug; LevelInfo; LevelWarn; "warning"; LevelError; "err"];
  lo_format : Log_Format l ∈ [FormatAuto; FormatText; FormatJSON];
}.

Record http_ok (h : HTTP) : Prop := {
  ho_addr : trim_space (H_Addr h) ≠ "";
  ho_timeouts : Forall (λ d, 0 < d) [H_ReadHeaderTimeout h; H_ReadTimeout h; H_WriteTimeout h;
                                      H_IdleTimeout h; H_ShutdownGrace h];
  ho_body : 0 < H_MaxBodyBytes h;
  ho_hops : 0 ≤ H_TrustedProxyHops h;
}.

Record postgres_ok (pg : Postgres) : Prop := {
  po_dsn : Pg_DSN pg ≠ "";
  po_conns : 0 < Pg_MaxConns pg ∧ 0 ≤ Pg_MinConns pg ≤ Pg_MaxConns pg;
  po_timeouts : 0 < Pg_ConnectTimeout pg ∧ 0 < Pg_StatementTimeout pg;
}.

Record queue_ok (q : Queue) : Prop := {
  qo_counts : 1 ≤ Q_Workers q ∧ 1 ≤ Q_ClaimBatch q ∧ 1 ≤ Q_MaxAttempts q;
  qo_timers : Forall (λ d, 0 < d) [Q_Lease q; Q_HeartbeatInterval q; Q_PollInterval q;
                                    Q_ReaperInterval q; Q_JobTimeout q];
  qo_cooldown : 0 ≤ Q_FetchCooldown q;
  qo_heartbeat : wrap64 (Q_HeartbeatInterval q * 3) ≤ Q_Lease q;
  qo_backoff : 0 < B_Base (Q_Backoff q) ≤ B_Max (Q_Backoff q);
  qo_jitter : B_Jitter (Q_Backoff q) ∈ [JitterFull; JitterEqual; JitterNone];
  qo_retention : Forall (λ d, 0 < d) [R_Succeeded (Q_Retention q); R_Discarded (Q_Retention q);
                                       R_PurgeInterval (Q_Retention q)];
}.

Record idempotency_ok (i : Idempotency) : Prop := {
  io_ttl : 0 < I_PurgeInterval i ≤ I_TTL i;
  io_key : 1 ≤ I_MaxKeyBytes i ≤ 8192;
  io_required : I_Required i = true → I_Enabled i = true;
}.

Definition client_ok (c : AuthClient) : Prop :=
  AC_ID c ≠ "" ∧ AC_Tier c ∈ [TierAnonymous; TierStandard; TierInternal]
  ∧ AC_TokenSHA256 c ≠ "" ∧ sha256Hex (AC_TokenSHA256 c) = true.

Record auth_ok (a : Auth) : Prop := {
  ao_mode : Au_Mode a ∈ [AuthOptional; AuthRequired; AuthOff];
  ao_realm : trim_space (Au_Realm a) ≠ "";
  ao_clients : Forall client_ok (Au_Clients a);
  ao_ids : NoDup (AC_ID <$> Au_Clients a);
  ao_tokens : NoDup (to_lower ∘ AC_TokenSHA256 <$> Au_Clients a);
  ao_required : Au_Mode a = AuthRequired → Au_Clients a ≠ [];
}.

Definition quota_ok (q : Quota) : Prop := f64_le (Quo_Rate q) 0 = false ∧ 1 ≤ Quo_Burst q.

Record ratelimit_ok (r : RateLimit) : Prop := {
  ro_inflight : 1 ≤ RL_GlobalInflight r;
  ro_timers : 0 < RL_KeyTTL r ∧ 0 < RL_SweepInterval r;
  ro_tiers : Forall quota_ok [T_Anonymous (RL_Tiers r); T_Standard (RL_Tiers r);
                              T_Internal (RL_Tiers r)];
}.

(** A number in (0, 1], or a NaN, which no comparison refuses. *)
Definition rate_ok (x : f64) : Prop := f64_le x 0 = false ∧ f64_gt x 1 = false.

Record breaker_ok (s : BreakerSettings) : Prop := {
  bo_rate : rate_ok (BS_FailureRateThreshold s);
  bo_floor : 1 ≤ BS_MinThroughput s;
  bo_windows : 0 < BS_Window s ∧ 0 < BS_OpenDuration s;
  bo_half_open : 1 ≤ BS_HalfOpenSuccessThreshold s ≤ BS_HalfOpenMaxCalls s;
}.

Record webhook_ok `{GoText} (w : Webhook) : Prop := {
  wo_url : W_URL w ≠ "" → ∃ scheme host, url_Parse (W_URL w) = Ok (scheme, host)
             ∧ scheme ∈ ["http"; "https"] ∧ host ≠ "";
  wo_timeout : 0 < W_Timeout w;
  wo_retry : 1 ≤ WR_MaxAttempts (W_Retry w) ∧ 0 < WR_Base (W_Retry w) ≤ WR_Max (W_Retry w);
  wo_budget : rate_ok (WR_BudgetMaxRate (W_Retry w));
}.

Record config_ok `{GoText} (c : Config) : Prop := {
  co_service : trim_space (Svc_Name (C_Service c)) ≠ "" ∧ trim_space (Svc_Instance (C_Service c)) ≠ "";
  co_logging : logging_ok (C_Logging c);
  co_http : http_ok (C_HTTP c);
  co_admin : trim_space (A_Addr (C_Admin c)) ≠ "";
  co_backend : Sto_Backend (C_Storage c) ∈ [BackendMemory; BackendPostgres];
  co_postgres : Sto_Backend (C_Storage c) = BackendPostgres → postgres_ok (Sto_Postgres (C_Storage c));
  co_queue : queue_ok (C_Queue c);
  co_idempotency : idempotency_ok (C_Idempotency c);
  co_auth : auth_ok (C_Auth c);
  co_ratelimit : RL_Enabled (C_RateLimit c) = true → ratelimit_ok (C_RateLimit c);
  co_breaker : breaker_ok (Br_Webhook (C_Breaker c));
  co_webhook : webhook_ok (C_Webhook c);
  co_endpoint : Tr_Enabled (O_Tracing (C_Observability c)) = true →
                Tr_OTLPEndpoint (O_Tracing (C_Observability c)) ≠ "";
  co_ratio : f64_lt (Tr_SampleRatio (O_Tracing (C_Observability c))) 0 = false
             ∧ f64_gt (Tr_SampleRatio (O_Tracing (C_Observability c))) 1 = false;
  co_addrs : A_Addr (C_Admin c) = H_Addr (C_HTTP c) → ephemeralPort (A_Addr (C_Admin c)) = true;
  co_open : W_Timeout (C_Webhook c) ≤ BS_OpenDuration (Br_Webhook (C_Breaker c));
}.

(** ** Automation: a section appends, and passes when its rules do *)

Ltac appends_rules :=
  repeat match goal with
  | |- Forall appends (_ :: _) => constructor
  | |- Forall appends [] => constructor
  | |- appends (in_order _) => apply appends_in_order
  | |- appends (λ p, if ?b then @?r p else p) => apply (appends_if b r)
  | |- appends (λ p, match ?x with _ => _ end) => destruct x
  | |- appends (λ p, NotEmpty ?f ?v p) => change (appends (NotEmpty f v))
  | |- _ => solve [auto with config nocore]
  end.

(** Turn [passes] of a list of rules into the conjunction of its conditions. *)
Ltac passes_rules :=
  rewrite passes_in_order by appends_rules;
  rewrite ?Forall_cons, ?Forall_nil;
  rewrite ?passes_check, ?passes_NotEmpty, ?passes_Positive, ?passes_AtLeast, ?passes_OneOf;
  rewrite ?andb_false_iff, ?orb_false_iff, ?negb_false_iff, ?bool_decide_eq_false,
    ?Z.ltb_ge, ?Z.leb_gt.

Section facts.
Context `{GoText}.

Lemma appends_Service s : appends (Service_Validate s).
Proof. unfold Service_Validate. appends_rules. Qed.
Lemma appends_Logging l : appends (Logging_Validate l).
Proof. unfold Logging_Validate. appends_rules. Qed.
Lemma appends_HTTP h : appends (HTTP_Validate h).
Proof. unfold HTTP_Validate. appends_rules. Qed.
Lemma appends_Admin a : appends (Admin_Validate a).
Proof. unfold Admin_Validate. appends_rules. Qed.
Lemma appends_Postgres pg f : appends (Postgres_validate pg f).
Proof. unfold Postgres_validate. appends_rules. Qed.
Lemma appends_Storage s : appends (Storage_Validate s).
Proof. unfold Storage_Validate. appends_rules. apply appends_Postgres. Qed.
Lemma appends_Backoff b f : appends (Backoff_validate b f).
Proof. unfold Backoff_validate. appends_rules. Qed.
Lemma appends_Retention r f : appends (Retention_validate r f).
Proof. unfold Retention_validate. appends_rules. Qed.
#[local] Hint Resolve appends_Backoff appends_Retention : config.
Lemma appends_Queue q : appends (Queue_Validate q).
Proof. unfold Queue_Validate. appends_rules. Qed.
Lemma appends_Idempotency i : appends (Idempotency_Validate i).
Proof. unfold Idempotency_Validate. appends_rules. Qed.
Lemma appends_Quota q f : appends (Quota_validate q f).
Proof. unfold Quota_validate. appends_rules. Qed.
#[local] Hint Resolve appends_Quota : config.
Lemma appends_RateLimit r : appends (RateLimit_Validate r).
Proof.
  unfold RateLimit_Validate. destruct (RL_Enabled r); [|apply appends_id].
  apply appends_in_order. repeat constructor; auto with config nocore.
Qed.
Lemma appends_BreakerSettings s f : appends (BreakerSettings_validate s f).
Proof. unfold BreakerSettings_validate. appends_rules. Qed.
Lemma appends_Breaker b : appends (Breaker_Validate b).
Proof. apply appends_BreakerSettings. Qed.
Lemma appends_checkHTTPURL f raw : appends (checkHTTPURL f raw).
Proof.
  intros p. unfold checkHTTPURL. repeat case_match; try done; by rewrite ?app_nil_r.
Qed.
Lemma appends_WebhookRetry r f : appends (WebhookRetry_validate r f).
Proof. unfold WebhookRetry_validate. appends_rules. Qed.
#[local] Hint Resolve appends_WebhookRetry appends_checkHTTPURL : config.
Lemma appends_Webhook w : appends (Webhook_Validate w).
Proof. unfold Webhook_Validate. appends_rules. Qed.
Lemma appends_Observability o : appends (Observability_Validate o).
Proof. unfold Observability_Validate. appends_rules. Qed.
Lemma appends_across c : appends (validateAcrossSections c).
Proof. unfold validateAcrossSections. appends_rules. Qed.

(** The loop over the clients, one client at a time. *)
Definition id_rule (i : Z) (c : AuthClient) (seen : gmap string Z) : Problems → Problems :=
  let at_ f := ("auth.clients[" +:+ itoa i +:+ "]." +:+ f)%string in
  if decide (AC_ID c = "") then Add (at_ "id") "must not be empty"
  else match seen !! AC_ID c with
       | Some prev => Add (at_ "id") ("duplicate client id " +:+ Quote (AC_ID c)
                        +:+ " (also at auth.clients[" +:+ itoa prev +:+ "])")%string
       | None => λ p, p
       end.

Definition token_rule (i : Z) (c : AuthClient) (seen : gmap string string)
  : Problems → Problems :=
  let at_ f := ("auth.clients[" +:+ itoa i +:+ "]." +:+ f)%string in
  if decide (AC_TokenSHA256 c = "") then Add (at_ "token_sha256") "must not be empty"
  else if negb (sha256Hex (AC_TokenSHA256 c)) then Add (at_ "token_sha256")
    "must be 64 hexadecimal characters: store the SHA-256 of the token, never the token itself"
  else match seen !! to_lower (AC_TokenSHA256 c) with
       | Some prev => Add (at_ "token_sha256")
                        ("duplicate token, already used by client " +:+ Quote prev)%string
       | None => λ p, p
       end.

Definition client_rules (i : Z) (c : AuthClient) (seenID : gmap string Z)
  (seenToken : gmap string string) : Problems → Problems :=
  in_order [id_rule i c seenID;
            OneOf ("auth.clients[" +:+ itoa i +:+ "]." +:+ "tier")%string (AC_Tier c)
              [TierAnonymous; TierStandard; TierInternal];
            token_rule i c seenToken].

Definition next_ids (i : Z) (c : AuthClient) (seen : gmap string Z) : gmap string Z :=
  if decide (AC_ID c = "") then seen else <[AC_ID c := i]> seen.
Definition next_tokens (c : AuthClient) (seen : gmap string string) : gmap string string :=
  if decide (AC_TokenSHA256 c = "") then seen
  else if negb (sha256Hex (AC_TokenSHA256 c)) then seen
  else <[to_lower (AC_TokenSHA256 c) := AC_ID c]> seen.

Lemma loop_cons i c cs sI sT p :
  validateClients_loop i (c :: cs) sI sT p
  = validateClients_loop (i + 1) cs (next_ids i c sI) (next_tokens c sT)
      (client_rules i c sI sT p).
Proof.
  simpl. unfold client_rules, id_rule, token_rule, next_ids, next_tokens, in_order. simpl.
  destruct (decide (AC_ID c = "")), (decide (AC_TokenSHA256 c = "")),
    (sha256Hex (AC_TokenSHA256 c)), (sI !! AC_ID c), (sT !! to_lower (AC_TokenSHA256 c)); done.
Qed.

Lemma appends_client i c sI sT : appends (client_rules i c sI sT).
Proof.
  unfold client_rules, id_rule, token_rule. appends_rules; repeat case_match; auto with config.
Qed.

Lemma appends_loop i cs sI sT : appends (validateClients_loop i cs sI sT).
Proof.
  intros p. revert i sI sT p. induction cs as [|c cs IH]; intros i sI sT p.
  - simpl. by rewrite app_nil_r.
  - rewrite !loop_cons, IH, (IH _ _ _ (client_rules i c sI sT [])).
    by rewrite appends_client, (assoc_L (++)).
Qed.

Lemma passes_client i c sI sT :
  passes (client_rules i c sI sT) ↔
  client_ok c ∧ sI !! AC_ID c = None ∧ sT !! to_lower (AC_TokenSHA256 c) = None.
Proof.
  unfold client_rules. rewrite passes_in_order
    by (unfold id_rule, token_rule; appends_rules; repeat case_match; auto with config).
  rewrite !Forall_cons, Forall_nil, passes_OneOf. unfold client_ok.
  assert (Hid : passes (id_rule i c sI) ↔ AC_ID c ≠ "" ∧ sI !! AC_ID c = None).
  { unfold id_rule, passes. case_decide; [split; [by intros ?%Add_not_nil|tauto]|].
    case_match; [|tauto]. split; [by intros ?%Add_not_nil|]. by intros []. }
  assert (Htok : passes (token_rule i c sT) ↔ AC_TokenSHA256 c ≠ ""
    ∧ sha256Hex (AC_TokenSHA256 c) = true ∧ sT !! to_lower (AC_TokenSHA256 c) = None).
  { unfold token_rule, passes. case_decide; [split; [by intros ?%Add_not_nil|tauto]|].
    destruct (sha256Hex _); simpl; [|split; [by intros ?%Add_not_nil|by intros (?&?&?)]].
    case_match; [|tauto]. split; [by intros ?%Add_not_nil|]. by intros (?&?&?). }
  rewrite Hid, Htok. tauto.
Qed.

Lemma passes_loop i cs sI sT :
  passes (validateClients_loop i cs sI sT) ↔
  Forall client_ok cs ∧ NoDup (AC_ID <$> cs) ∧ NoDup (to_lower ∘ AC_TokenSHA256 <$> cs)
  ∧ Forall (λ c, sI !! AC_ID c = None ∧ sT !! to_lower (AC_TokenSHA256 c) = None) cs.
Proof.
  revert i sI sT. induction cs as [|c cs IH]; intros i sI sT.
  - simpl. unfold passes. simpl. repeat split; constructor.
  - unfold passes. rewrite loop_cons, appends_loop. fold passes.
    rewrite !Forall_cons. rewrite !fmap_cons, !NoDup_cons.
    assert (Hsplit : ∀ A B : Problems, A ++ B = [] ↔ A = [] ∧ B = [])
      by (intros; split; [apply app_nil|by intros [-> ->]]).
    rewrite Hsplit. rewrite (passes_client i c sI sT).
    split.
    + intros [(Hc & HI & HT) Hrest]. assert (Hc' := Hc).
      destruct Hc as (Hid & Htier & Htok & Hhex).
      apply IH in Hrest as (Hall & Hn1 & Hn2 & Hf).
      unfold next_ids, next_tokens in Hf. rewrite !decide_False, Hhex in Hf by done. simpl in Hf.
      rewrite Forall_forall in Hf.
      split_and!; auto.
      * intros (d & E & Hd)%list_elem_of_fmap. destruct (Hf d Hd) as [Hx _].
        rewrite E, lookup_insert_eq in Hx. done.
      * intros (d & E & Hd)%list_elem_of_fmap. destruct (Hf d Hd) as [_ Hx]. simpl in E.
        rewrite E, lookup_insert_eq in Hx. done.
      * apply Forall_forall. intros d Hd. destruct (Hf d Hd) as [Hx Hy].
        apply lookup_insert_None in Hx as [? _]. by apply lookup_insert_None in Hy as [? _].
    + intros ([Hc Hall] & [Hi Hn1] & [Ht Hn2] & [[HI HT] Hf]). split; [done|].
      apply IH. split_and!; auto. destruct Hc as (Hid & Htier & Htok & Hhex).
      unfold next_ids, next_tokens. rewrite !decide_False, Hhex by done. simpl.
      rewrite Forall_forall in Hf |- *. intros d Hd. destruct (Hf d Hd) as [Hx Hy].
      split; apply lookup_insert_None; (split; [done|]); intros E.
      * apply Hi. rewrite E. by apply list_elem_of_fmap_2.
      * apply Ht. change (to_lower (AC_TokenSHA256 c)) with ((to_lower ∘ AC_TokenSHA256) c).
        simpl. rewrite E. by apply (list_elem_of_fmap_2 (to_lower ∘ AC_TokenSHA256)).
Qed.

Lemma appends_Auth a : appends (Auth_Validate a).
Proof. unfold Auth_Validate. appends_rules. apply appends_loop. Qed.

(** ** Each section passes exactly when it is well formed *)

#[local] Hint Resolve appends_Service appends_Logging appends_HTTP appends_Admin appends_Storage
  appends_Queue appends_Idempotency appends_Auth appends_RateLimit appends_Breaker
  appends_Webhook appends_Observability appends_across appends_Postgres : config.

Lemma passes_if (b : bool) (r : Problems → Problems) :
  passes (λ p, if b then r p else p) ↔ (b = true → passes r).
Proof. unfold passes. destruct b; naive_solver. Qed.

Lemma passes_Logging l : passes (Logging_Validate l) ↔ logging_ok l.
Proof.
  unfold Logging_Validate. passes_rules. unfold checkLevel.
  assert (E : passes (λ p, match (if decide (to_lower (trim_space (Log_Level l))
      ∈ [LevelTrace; LevelDebug; LevelInfo; LevelWarn; "warning"; LevelError; "err"])
    then None else Some (Quote (Log_Level l) +:+ " is not one of: " +:+ join_with ", "
      [LevelError; LevelWarn; LevelInfo; LevelDebug; LevelTrace])%string) with
    | Some e => Add (join "logging" "level") e p | None => p end)
    ↔ to_lower (trim_space (Log_Level l))
      ∈ [LevelTrace; LevelDebug; LevelInfo; LevelWarn; "warning"; LevelError; "err"]).
  { unfold passes. case_decide; [done|]. split; [by intros ?%Add_not_nil|done]. }
  rewrite E. split; [intros (?&?&_); by split | intros [??]; tauto].
Qed.

Lemma passes_HTTP h : passes (HTTP_Validate h) ↔ http_ok h.
Proof.
  unfold HTTP_Validate. passes_rules. split.
  - intros H'. split; rewrite ?Forall_cons, ?Forall_nil; tauto.
  - intros [? Hf ? ?]. rewrite !Forall_cons in Hf. tauto.
Qed.

Lemma passes_Postgres pg f : passes (Postgres_validate pg f) ↔ postgres_ok pg.
Proof.
  unfold Postgres_validate. passes_rules. split.
  - intros H'. split; intuition lia.
  - intros [? ? ?]. intuition lia.
Qed.

Lemma passes_Backoff b f :
  passes (Backoff_validate b f) ↔
  0 < B_Base b ≤ B_Max b ∧ B_Jitter b ∈ [JitterFull; JitterEqual; JitterNone].
Proof. unfold Backoff_validate. passes_rules. intuition lia. Qed.

Lemma passes_Retention r f :
  passes (Retention_validate r f) ↔
  Forall (λ d, 0 < d) [R_Succeeded r; R_Discarded r; R_PurgeInterval r].
Proof. unfold Retention_validate. passes_rules. tauto. Qed.

Lemma passes_Queue q : passes (Queue_Validate q) ↔ queue_ok q.
Proof.
  unfold Queue_Validate. passes_rules. rewrite passes_Backoff, passes_Retention. split.
  - rewrite !Forall_cons. intros H'. split; rewrite ?Forall_cons, ?Forall_nil; try tauto.
    destruct H' as (_&_&_&?&?&_&_&_&_&[[?|?]|?]&_); lia.
  - intros [? Ht ? ? ? ? Hr]. rewrite !Forall_cons in Ht. tauto.
Qed.

Lemma passes_Idempotency i : passes (Idempotency_Validate i) ↔ idempotency_ok i.
Proof.
  unfold Idempotency_Validate. passes_rules. split.
  - intros (?&?&?&?&?&Hr&_). split; [lia|lia|].
    destruct (I_Required i), (I_Enabled i); intuition discriminate.
  - intros [? ? Hr]. destruct (I_Required i); intuition lia.
Qed.

Lemma passes_Auth a : passes (Auth_Validate a) ↔ auth_ok a.
Proof.
  unfold Auth_Validate. rewrite passes_in_order by (appends_rules; apply appends_loop).
  rewrite !Forall_cons, Forall_nil, passes_OneOf, passes_NotEmpty, passes_check.
  unfold validateClients. rewrite passes_loop, andb_false_iff, !bool_decide_eq_false. split.
  - intros (?&?&(?&?&?&?)&Hreq&_). split; auto. intros Hm. by destruct Hreq.
  - intros [? ? ? ? ? Hreq]. split_and!; auto.
    + apply Forall_forall. intros c _. by rewrite !lookup_empty.
    + destruct (decide (Au_Mode a = AuthRequired)); [right|left]; auto.
Qed.

Lemma passes_Quota q f : passes (Quota_validate q f) ↔ quota_ok q.
Proof. unfold Quota_validate. passes_rules. unfold quota_ok. tauto. Qed.

Lemma passes_RateLimit r :
  passes (RateLimit_Validate r) ↔ (RL_Enabled r = true → ratelimit_ok r).
Proof.
  unfold passes, RateLimit_Validate. destruct (RL_Enabled r); [|naive_solver].
  match goal with |- in_order ?l [] = [] ↔ _ => change (passes (in_order l) ↔ (true = true → ratelimit_ok r)) end.
  rewrite passes_in_order by (repeat constructor; auto using appends_Quota with config nocore).
  rewrite !Forall_cons, Forall_nil, passes_AtLeast, !passes_Positive, !passes_Quota. split.
  - intros H' _. split; rewrite ?Forall_cons, ?Forall_nil; tauto.
  - intros H'. destruct (H' eq_refl) as [? ? Hf]. rewrite !Forall_cons in Hf. tauto.
Qed.

Lemma passes_Breaker b : passes (Breaker_Validate b) ↔ breaker_ok (Br_Webhook b).
Proof.
  unfold Breaker_Validate, BreakerSettings_validate. passes_rules. split.
  - intros H'. split; unfold rate_ok; intuition lia.
  - intros [[? ?] ? ? ?]. intuition lia.
Qed.

Lemma passes_checkHTTPURL f raw :
  passes (checkHTTPURL f raw) ↔
  ∃ scheme host, url_Parse raw = Ok (scheme, host) ∧ scheme ∈ ["http"; "https"] ∧ host ≠ "".
Proof.
  unfold passes, checkHTTPURL. destruct (url_Parse raw) as [[scheme host]|e].
  - case_bool_decide as H1; simpl.
    + case_decide; split; try (by intros ?%Add_not_nil); try naive_solver.
      intros _. exists scheme, host. rewrite !elem_of_cons. tauto.
    + case_bool_decide as H2; simpl.
      * case_decide; split; try (by intros ?%Add_not_nil); try naive_solver.
        intros _. exists scheme, host. rewrite !elem_of_cons. tauto.
      * split; [by intros ?%Add_not_nil|]. intros (?&?&[= <- <-]&Hs&_).
        rewrite !elem_of_cons, elem_of_nil in Hs. tauto.
  - split; [by intros ?%Add_not_nil|naive_solver].
Qed.

Lemma passes_Webhook w : passes (Webhook_Validate w) ↔ webhook_ok w.
Proof.
  unfold Webhook_Validate.
  rewrite passes_in_order by (appends_rules; auto using appends_checkHTTPURL, appends_WebhookRetry).
  rewrite !Forall_cons, Forall_nil, passes_Positive.
  rewrite (passes_if _ (checkHTTPURL _ _)), passes_checkHTTPURL, bool_decide_eq_true.
  unfold WebhookRetry_validate. passes_rules. split.
  - intros (Hu&?&Hr&_). split; unfold rate_ok; intuition lia.
  - intros [? ? ? [? ?]]. intuition lia.
Qed.

Lemma Validate_spec c : Validate c = None ↔ config_ok c.
Proof.
  unfold Validate. rewrite problems_Err_None.
  change (passes (in_order (sections c ++ [validateAcrossSections c])) ↔ config_ok c).
  rewrite passes_in_order by (unfold sections; simpl; repeat constructor; auto with config nocore).
  unfold sections. simpl. rewrite !Forall_cons, Forall_nil.
  rewrite passes_Logging, passes_HTTP, passes_Queue, passes_Idempotency, passes_Auth,
    passes_RateLimit, passes_Breaker, passes_Webhook.
  unfold Service_Validate, Admin_Validate, Storage_Validate, Observability_Validate,
    validateAcrossSections.
  rewrite !passes_in_order by (appends_rules; auto using appends_Postgres).
  rewrite !Forall_cons, !Forall_nil, (passes_if _ (Postgres_validate _ _)), passes_Postgres,
    passes_OneOf, !passes_NotEmpty, !passes_check.
  rewrite !andb_false_iff, !orb_false_iff, negb_false_iff, !bool_decide_eq_false,
    bool_decide_eq_true, !Z.ltb_ge.
  split.
  - intros (?&?&?&?&?&?&?&?&?&Hb&Hw&Ho&Ha&_).
    assert (Hb' := Hb). assert (Hw' := Hw). destruct Hb' as [_ _ [_ ?] _], Hw' as [_ ? _ _].
    split; try tauto.
    + intros E. destruct Ho as ([?|?]&_&_); congruence.
    + destruct Ha as (_&[[?|?]|?]&_); lia.
  - intros [(?&?) ? ? ? ? ? ? ? ? ? ? ? He ? Haddr ?]. split_and!; auto.
    + destruct (Tr_Enabled _); [right; auto|left; done].
    + tauto.
    + tauto.
    + destruct (decide (A_Addr (C_Admin c) = H_Addr (C_HTTP c))); [right; auto|left; done].
Qed.
End facts.
