(* ===== verification/ConfigReload.v ===== *)
(** * Configuration paths and hot reload (src/internal/config/load.go, reload.go,
    flags.go; the reload of src/internal/app/reload.go)

    [flatten] is the map of dotted paths to values that the struct tags spell
    out.  The decoder that fills the struct back (koanf and mapstructure) is the
    parameter [Unmarshal]; what is used of it is that it inverts [flatten]. *)
From stdpp Require Import options.
From S2P Require Import Prelude GoStrings GoDuration Apperr ConfigBase ConfigSections.
From Stdlib Require Import Ascii.
Open Scope Z_scope.

(** ** Values and paths *)

Inductive val : Type :=
  | VStr (s : string)
  | VInt (z : Z)
  | VBool (b : bool)
  | VDur (d : Z)
  | VFloat (x : f64)
  | VClients (l : list AuthClient).

(** Every path of the tree with the field it names. *)
Definition fields : list (string * (Config → val)) :=
  [("service.name", λ c, VStr (Svc_Name (C_Service c)));
   ("service.instance", λ c, VStr (Svc_Instance (C_Service c)));
   ("logging.level", λ c, VStr (Log_Level (C_Logging c)));
   ("logging.format", λ c, VStr (Log_Format (C_Logging c)));
   ("http.addr", λ c, VStr (H_Addr (C_HTTP c)));
   ("http.read_header_timeout", λ c, VDur (H_ReadHeaderTimeout (C_HTTP c)));
   ("http.read_timeout", λ c, VDur (H_ReadTimeout (C_HTTP c)));
   ("http.write_timeout", λ c, VDur (H_WriteTimeout (C_HTTP c)));
   ("http.idle_timeout", λ c, VDur (H_IdleTimeout (C_HTTP c)));
   ("http.shutdown_grace", λ c, VDur (H_ShutdownGrace (C_HTTP c)));
   ("http.max_body_bytes", λ c, VInt (H_MaxBodyBytes (C_HTTP c)));
   ("http.trusted_proxy_hops", λ c, VInt (H_TrustedProxyHops (C_HTTP c)));
   ("admin.addr", λ c, VStr (A_Addr (C_Admin c)));
   ("admin.pprof", λ c, VBool (A_Pprof (C_Admin c)));
   ("storage.backend", λ c, VStr (Sto_Backend (C_Storage c)));
   ("storage.postgres.dsn", λ c, VStr (Pg_DSN (Sto_Postgres (C_Storage c))));
   ("storage.postgres.max_conns", λ c, VInt (Pg_MaxConns (Sto_Postgres (C_Storage c))));
   ("storage.postgres.min_conns", λ c, VInt (Pg_MinConns (Sto_Postgres (C_Storage c))));
   ("storage.postgres.max_conn_lifetime",
      λ c, VDur (Pg_MaxConnLifetime (Sto_Postgres (C_Storage c))));
   ("storage.postgres.max_conn_idle_time",
      λ c, VDur (Pg_MaxConnIdleTime (Sto_Postgres (C_Storage c))));
   ("storage.postgres.health_check_period",
      λ c, VDur (Pg_HealthCheckPeriod (Sto_Postgres (C_Storage c))));
   ("storage.postgres.connect_timeout",
      λ c, VDur (Pg_ConnectTimeout (Sto_Postgres (C_Storage c))));
   ("storage.postgres.statement_timeout",
      λ c, VDur (Pg_StatementTimeout (Sto_Postgres (C_Storage c))));
   ("storage.postgres.idle_in_transaction_session_timeout",
      λ c, VDur (Pg_IdleInTransactionSessionTimeout (Sto_Postgres (C_Storage c))));
   ("storage.postgres.lock_timeout", λ c, VDur (Pg_LockTimeout (Sto_Postgres (C_Storage c))));
   ("queue.workers", λ c, VInt (Q_Workers (C_Queue c)));
   ("queue.claim_batch", λ c, VInt (Q_ClaimBatch (C_Queue c)));
   ("queue.lease", λ c, VDur (Q_Lease (C_Queue c)));
   ("queue.heartbeat_interval", λ c, VDur (Q_HeartbeatInterval (C_Queue c)));
   ("queue.poll_interval", λ c, VDur (Q_PollInterval (C_Queue c)));
   ("queue.reaper_interval", λ c, VDur (Q_ReaperInterval (C_Queue c)));
   ("queue.fetch_cooldown", λ c, VDur (Q_FetchCooldown (C_Queue c)));
   ("queue.job_timeout", λ c, VDur (Q_JobTimeout (C_Queue c)));
   ("queue.max_attempts", λ c, VInt (Q_MaxAttempts (C_Queue c)));
   ("queue.backoff.base", λ c, VDur (B_Base (Q_Backoff (C_Queue c))));
   ("queue.backoff.max", λ c, VDur (B_Max (Q_Backoff (C_Queue c))));
   ("queue.backoff.jitter", λ c, VStr (B_Jitter (Q_Backoff (C_Queue c))));
   ("queue.retention.succeeded", λ c, VDur (R_Succeeded (Q_Retention (C_Queue c))));
   ("queue.retention.discarded", λ c, VDur (R_Discarded (Q_Retention (C_Queue c))));
   ("queue.retention.purge_interval", λ c, VDur (R_PurgeInterval (Q_Retention (C_Queue c))));
   ("idempotency.enabled", λ c, VBool (I_Enabled (C_Idempotency c)));
   ("idempotency.required", λ c, VBool (I_Required (C_Idempotency c)));
   ("idempotency.ttl", λ c, VDur (I_TTL (C_Idempotency c)));
   ("idempotency.purge_interval", λ c, VDur (I_PurgeInterval (C_Idempotency c)));
   ("idempotency.max_key_bytes", λ c, VInt (I_MaxKeyBytes (C_Idempotency c)));
   ("auth.mode", λ c, VStr (Au_Mode (C_Auth c)));
   ("auth.realm", λ c, VStr (Au_Realm (C_Auth c)));
   ("auth.clients", λ c, VClients (Au_Clients (C_Auth c)));
   ("ratelimit.enabled", λ c, VBool (RL_Enabled (C_RateLimit c)));
   ("ratelimit.global_inflight", λ c, VInt (RL_GlobalInflight (C_RateLimit c)));
   ("ratelimit.key_ttl", λ c, VDur (RL_KeyTTL (C_RateLimit c)));
   ("ratelimit.sweep_interval", λ c, VDur (RL_SweepInterval (C_RateLimit c)));
   ("ratelimit.tiers.anonymous.rate",
      λ c, VFloat (Quo_Rate (T_Anonymous (RL_Tiers (C_RateLimit c)))));
   ("ratelimit.tiers.anonymous.burst",
      λ c, VInt (Quo_Burst (T_Anonymous (RL_Tiers (C_RateLimit c)))));
   ("ratelimit.tiers.standard.rate",
      λ c, VFloat (Quo_Rate (T_Standard (RL_Tiers (C_RateLimit c)))));
   ("ratelimit.tiers.standard.burst",
      λ c, VInt (Quo_Burst (T_Standard (RL_Tiers (C_RateLimit c)))));
   ("ratelimit.tiers.internal.rate",
      λ c, VFloat (Quo_Rate (T_Internal (RL_Tiers (C_RateLimit c)))));
   ("ratelimit.tiers.internal.burst",
      λ c, VInt (Quo_Burst (T_Internal (RL_Tiers (C_RateLimit c)))));
   ("breaker.webhook.failure_rate_threshold",
      λ c, VFloat (BS_FailureRateThreshold (Br_Webhook (C_Breaker c))));
   ("breaker.webhook.min_throughput", λ c, VInt (BS_MinThroughput (Br_Webhook (C_Breaker c))));
   ("breaker.webhook.window", λ c, VDur (BS_Window (Br_Webhook (C_Breaker c))));
   ("breaker.webhook.open_duration", λ c, VDur (BS_OpenDuration (Br_Webhook (C_Breaker c))));
   ("breaker.webhook.half_open_max_calls",
      λ c, VInt (BS_HalfOpenMaxCalls (Br_Webhook (C_Breaker c))));
   ("breaker.webhook.half_open_success_threshold",
      λ c, VInt (BS_HalfOpenSuccessThreshold (Br_Webhook (C_Breaker c))));
   ("webhook.url", λ c, VStr (W_URL (C_Webhook c)));
   ("webhook.timeout", λ c, VDur (W_Timeout (C_Webhook c)));
   ("webhook.retry.max_attempts", λ c, VInt (WR_MaxAttempts (W_Retry (C_Webhook c))));
   ("webhook.retry.base", λ c, VDur (WR_Base (W_Retry (C_Webhook c))));
   ("webhook.retry.max", λ c, VDur (WR_Max (W_Retry (C_Webhook c))));
   ("webhook.retry.budget_max_rate",
      λ c, VFloat (WR_BudgetMaxRate (W_Retry (C_Webhook c))));
   ("observability.metrics.enabled", λ c, VBool (M_Enabled (O_Metrics (C_Observability c))));
   ("observability.metrics.native_histograms",
      λ c, VBool (M_NativeHistograms (O_Metrics (C_Observability c))));
   ("observability.tracing.enabled", λ c, VBool (Tr_Enabled (O_Tracing (C_Observability c))));
   ("observability.tracing.otlp_endpoint",
      λ c, VStr (Tr_OTLPEndpoint (O_Tracing (C_Observability c))));
   ("observability.tracing.sample_ratio",
      λ c, VFloat (Tr_SampleRatio (O_Tracing (C_Observability c))))].

(** The paths of the defaults, in the order of the struct. *)
Definition keys : list string := fields.*1.

Definition flatten (c : Config) : gmap string val :=
  list_to_map ((λ kf : string * (Config → val), (kf.1, kf.2 c)) <$> fields).

(** ** Decoding and rendering, by other packages *)

(** The [%v] verb on floats and on the client list. *)
Class Rendering : Type := {
  render_float : f64 → string;
  render_clients : list AuthClient → string;
}.

Class Unmarshal : Type := { unmarshal : gmap string val → result err Config }.
Class UnmarshalLaws `{Unmarshal} : Prop := {
  unmarshal_flatten c : unmarshal (flatten c) = Ok c;
}.

Definition render `{Rendering} (v : option val) : string :=
  match v with
  | None => "<unset>"
  | Some (VDur d) => Duration_String d
  | Some (VStr s) => s
  | Some (VInt z) => itoa z
  | Some (VBool b) => if b then "true" else "false"
  | Some (VFloat x) => render_float x
  | Some (VClients l) => render_clients l
  end.

(** ** reload.go *)

Definition hotPrefixes : list string :=
  ["logging.level"; "queue.workers"; "queue.claim_batch"; "queue.poll_interval";
   "queue.reaper_interval"; "queue.fetch_cooldown"; "queue.job_timeout"; "queue.max_attempts";
   "queue.backoff"; "queue.retention"; "ratelimit"; "breaker"; "webhook.timeout";
   "webhook.retry"; "auth.mode"; "auth.clients"].

Definition IsHot (path : string) : bool :=
  existsb (λ p, bool_decide (path = p) || has_prefix (p +:+ ".")%string path) hotPrefixes.

Record Change : Type := mkChange { Ch_Field : string; Ch_From : string; Ch_To : string; Hot : bool }.

Definition Change_String (c : Change) : string :=
  (Ch_Field c +:+ " from=" +:+ Ch_From c +:+ " to=" +:+ Ch_To c)%string.

Definition string_le (a b : string) : Prop := String.ltb b a = false.
#[export] Instance string_le_dec : RelDecision string_le.
Proof. intros a b. unfold string_le. apply _. Defined.

Definition sort_strings (l : list string) : list string := merge_sort string_le l.

(** The loop of [Diff] over the sorted keys. *)
Definition changes_of `{Rendering} (old next : gmap string val) : list Change :=
  omap (λ k, let from := render (old !! k) in
             let to := render (next !! k) in
             if decide (from = to) then None else Some (mkChange k from to (IsHot k)))
    (sort_strings (elements (dom old ∪ dom next : gset string))).

Definition Diff `{Rendering} (old next : Config) : list Change * list Change :=
  let cs := changes_of (flatten old) (flatten next) in
  (filter (λ c, Hot c = true) cs, filter (λ c, Hot c = false) cs).

(** The merged map: the old one with the hot entries of the next one. *)
Definition merge_hot (old next : gmap string val) : gmap string val :=
  filter (λ kv : string * val, IsHot kv.1 = true) next ∪ old.

Definition ApplyHot `{Unmarshal} (old next : Config) : result err Config :=
  unmarshal (merge_hot (flatten old) (flatten next)).

(** ** app/reload.go *)

Record ReloadResult : Type := mkReloadResult {
  Applied : list Change; RestartOnly : list Change; Reload_Err : option err }.

(** [readConfig] re-runs [Load] and validates; [loaded] is what [Load] returns. *)
Definition readConfig `{GoText} (loaded : result err Config) : result err Config :=
  match loaded with
  | Err e => Err e
  | Ok c => match Validate c with None => Ok c | Some e => Err e end
  end.

Definition app_applyHot `{GoText, Unmarshal} (cfg next : Config) : result err Config :=
  match ApplyHot cfg next with
  | Err e => Err e
  | Ok merged => match Validate merged with None => Ok merged | Some e => Err e end
  end.

(** [reload]: the running configuration afterwards and the result. *)
Definition reload `{GoText, Unmarshal, Rendering} (cfg : Config) (loaded : result err Config)
  : ReloadResult * Config :=
  match readConfig loaded with
  | Err e => (mkReloadResult [] [] (Some e), cfg)
  | Ok next =>
      let '(hot, restartOnly) := Diff cfg next in
      if decide (hot = []) then (mkReloadResult hot restartOnly None, cfg)
      else match app_applyHot cfg next with
           | Err e => (mkReloadResult [] [] (Some e), cfg)
           | Ok merged => (mkReloadResult hot restartOnly None, merged)
           end
  end.

(** ** load.go: the three spellings of a path *)

Record keyIndex : Type := mkKeyIndex { paths : gset string; byEnv : gmap string string }.

Definition keySet (ks : list string) : keyIndex :=
  foldl (λ idx k, mkKeyIndex ({[ k ]} ∪ paths idx)
                    (<[dots_to_underscores k := k]> (byEnv idx)))
    (mkKeyIndex ∅ ∅) ks.

(** [strings.TrimPrefix]. *)
Definition trim_prefix (p s : string) : string := default s (cut_prefix p s).

(** [None] is the empty key koanf drops, with the variable noted as unknown. *)
Definition envTransform (valid : keyIndex) (name value : string) : option (string * string) :=
  (λ path, (path, value)) <$> byEnv valid !! to_lower (trim_prefix EnvPrefix name).

Definition flagTransform (valid : keyIndex) (key value : string) : option (string * string) :=
  if decide (key ∈ paths valid) then Some (key, value) else None.

Definition checkUnknownKeys (valid : keyIndex) (path : string) (ks : list string) : option err :=
  let bad := filter (λ k, k ∉ paths valid) ks in
  if decide (bad = []) then None
  else Some (ENew (path +:+ ": unknown configuration key(s): "
                   +:+ join_with ", " (sort_strings bad))%string).

(** ** flags.go: the convenience flags

    A parsed flag set: which flags were given, and the values of [--set]. *)
Record FlagState : Type := mkFlagState { Changed : gset string; SetValues : list string }.

Definition FlagDebug : string := "debug".
Definition FlagTrace : string := "trace".

Fixpoint set_overrides `{GoText} (valid : keyIndex) (kvs : list string)
  (out : gmap string string) : result err (gmap string string) :=
  match kvs with
  | [] => Ok out
  | kv :: kvs =>
      match cut "=" kv with
      | None => Err (ENew ("--set " +:+ Quote kv +:+ ": expected key=value")%string)
      | Some (key, value) =>
          let key := trim_space key in
          if decide (key ∈ paths valid) then set_overrides valid kvs (<[key := value]> out)
          else Err (ENew ("--set " +:+ key +:+ ": unknown configuration key")%string)
      end
  end.

Definition flagOverrides `{GoText} (fs : FlagState) (valid : keyIndex)
  : result err (gmap string string) :=
  let out :=
    if decide ("logging.level" ∈ Changed fs) then ∅
    else if decide (FlagTrace ∈ Changed fs) then {[ "logging.level" := "trace" ]}
    else if decide (FlagDebug ∈ Changed fs) then {[ "logging.level" := "debug" ]}
    else (∅ : gmap string string) in
  set_overrides valid (SetValues fs) out.
