(* ===== verification/ConfigProps.v ===== *)
(** * What configuration guarantees

    Validation is exact and reports everything; the defaults are valid; the file,
    environment and flag spellings of a path name the same knob; a reload is all
    or nothing, changes hot fields only, and settles. *)
From stdpp Require Import options.
From S2P Require Import Prelude GoStrings GoDuration Apperr ConfigBase ConfigSections.
From S2P Require Import ConfigFacts ConfigReload.
From Stdlib Require Import Ascii QArith.
Open Scope Z_scope.

#[local] Arguments IsHot : simpl never.
#[local] Arguments flatten : simpl never.
#[local] Arguments render : simpl never.

(** ** Lookups in the flattened configuration *)

Fixpoint assoc {A} (k : string) (l : list (string * A)) : option A :=
  match l with
  | [] => None
  | (k', a) :: l => if decide (k' = k) then Some a else assoc k l
  end.

Lemma lookup_list_to_map {A} (l : list (string * A)) (k : string) :
  (list_to_map l : gmap string A) !! k = assoc k l.
Proof.
  induction l as [|[k' a] l IH]; [apply lookup_empty|]. simpl. case_decide as E.
  - subst. apply lookup_insert_eq.
  - by rewrite lookup_insert_ne.
Qed.

Lemma assoc_fmap {A B} (f : A → B) (l : list (string * A)) (k : string) :
  assoc k ((λ ka, (ka.1, f ka.2)) <$> l) = f <$> assoc k l.
Proof. induction l as [|[k' a] l IH]; [done|]. simpl. by case_decide. Qed.

Lemma lookup_flatten (c : Config) (k : string) :
  flatten c !! k = (λ f, f c) <$> assoc k fields.
Proof. unfold flatten. rewrite lookup_list_to_map. apply (assoc_fmap (λ f : Config → val, f c)). Qed.

Lemma assoc_Some {A} (k : string) (l : list (string * A)) (a : A) :
  assoc k l = Some a → (k, a) ∈ l.
Proof.
  induction l as [|[k' a'] l IH]; simpl; [done|]. case_decide; [|right; auto].
  intros [= ->]. subst. by left.
Qed.

Lemma assoc_None {A} (k : string) (l : list (string * A)) : assoc k l = None ↔ k ∉ l.*1.
Proof.
  induction l as [|[k' a'] l IH]; simpl; [by split; [intros _ ?%elem_of_nil|]|].
  rewrite not_elem_of_cons. case_decide; [naive_solver|]. rewrite IH. naive_solver.
Qed.

(** ** The merge of a hot reload *)

(** [old] with its hot fields from [next]. *)
Definition mix (old next : Config) : Config :=
  let q := C_Queue old in let q' := C_Queue next in
  mkConfig (C_Service old)
    (mkLogging (Log_Level (C_Logging next)) (Log_Format (C_Logging old)))
    (C_HTTP old) (C_Admin old) (C_Storage old)
    (mkQueue (Q_Workers q') (Q_ClaimBatch q') (Q_Lease q) (Q_HeartbeatInterval q)
       (Q_PollInterval q') (Q_ReaperInterval q') (Q_FetchCooldown q') (Q_JobTimeout q')
       (Q_MaxAttempts q') (Q_Backoff q') (Q_Retention q'))
    (C_Idempotency old)
    (mkAuth (Au_Mode (C_Auth next)) (Au_Realm (C_Auth old)) (Au_Clients (C_Auth next)))
    (C_RateLimit next) (C_Breaker next)
    (mkWebhook (W_URL (C_Webhook old)) (W_Timeout (C_Webhook next)) (W_Retry (C_Webhook next)))
    (C_Observability old).

Lemma mix_fields (old next : Config) :
  Forall (λ kf : string * (Config → val),
            kf.2 (mix old next) = if IsHot kf.1 then kf.2 next else kf.2 old) fields.
Proof. unfold fields. repeat (apply Forall_cons; split; [reflexivity|]). apply Forall_nil_2. Qed.

Lemma elem_of_keys (k : string) : k ∈ keys ↔ is_Some (assoc k fields).
Proof.
  unfold keys. destruct (assoc k fields) eqn:E.
  - split; [by eexists|]. intros _. apply assoc_Some in E. by apply (list_elem_of_fmap_2 fst _ _ E).
  - apply assoc_None in E. split; [by intros ?|]. by intros [? ?].
Qed.
#[local] Opaque fields keys.

Lemma lookup_flatten_mix (old next : Config) (k : string) :
  flatten (mix old next) !! k = if IsHot k then flatten next !! k else flatten old !! k.
Proof.
  rewrite !lookup_flatten. destruct (assoc k fields) as [f|] eqn:E; simpl; [|by destruct (IsHot k)].
  apply assoc_Some in E. pose proof (proj1 (Forall_forall _ _) (mix_fields old next) _ E) as H.
  simpl in H. rewrite H. by destruct (IsHot k).
Qed.

Lemma merge_hot_mix (old next : Config) :
  merge_hot (flatten old) (flatten next) = flatten (mix old next).
Proof.
  apply map_eq. intros k. rewrite lookup_flatten_mix. unfold merge_hot.
  rewrite lookup_union, map_lookup_filter, !lookup_flatten.
  destruct (assoc k fields) as [f|]; simpl; [|by destruct (IsHot k)].
  case_guard as Hh; simpl; [by rewrite Hh|]. by rewrite (not_true_is_false _ Hh).
Qed.

Section reloading.
Context `{GoText, Rendering, laws : UnmarshalLaws}.

Lemma ApplyHot_mix (old next : Config) : ApplyHot old next = Ok (mix old next).
Proof using laws. unfold ApplyHot. rewrite merge_hot_mix. apply unmarshal_flatten. Qed.

Lemma elem_of_sort_strings (l : list string) (s : string) : s ∈ sort_strings l ↔ s ∈ l.
Proof. unfold sort_strings. by rewrite (merge_sort_Permutation string_le l). Qed.

(** What [Diff] lists: the fields whose renderings differ, each once. *)
Lemma elem_of_changes (old next : Config) (c : Change) :
  c ∈ changes_of (flatten old) (flatten next) ↔
  Ch_From c ≠ Ch_To c ∧ Ch_Field c ∈ keys
  ∧ Ch_From c = render (flatten old !! Ch_Field c)
  ∧ Ch_To c = render (flatten next !! Ch_Field c) ∧ Hot c = IsHot (Ch_Field c).
Proof.
  unfold changes_of. rewrite list_elem_of_omap. split.
  - intros (k & Hk & Hc). case_decide as E; [done|]. apply (inj Some) in Hc. subst c. simpl.
    split_and!; try done. rewrite elem_of_sort_strings, elem_of_elements, elem_of_union in Hk.
    rewrite !elem_of_dom, !lookup_flatten in Hk.
    apply elem_of_keys. destruct Hk as [[? Hk]|[? Hk]];
      apply fmap_Some in Hk as (? & -> & _); by eexists.
  - destruct c as [k from to h]. simpl. intros (Hne & Hk & -> & -> & ->). exists k. split.
    + rewrite elem_of_sort_strings, elem_of_elements, elem_of_union. left.
      rewrite elem_of_dom, lookup_flatten. apply elem_of_keys in Hk as [f ->]. by eexists.
    + by rewrite decide_False.
Qed.

Lemma Diff_hot (old next : Config) (c : Change) :
  c ∈ (Diff old next).1 ↔ c ∈ changes_of (flatten old) (flatten next) ∧ Hot c = true.
Proof. unfold Diff. simpl. rewrite list_elem_of_filter. tauto. Qed.

(** A field whose rendering differs between two configurations. *)
Definition differs (old next : Config) (c : Change) : Prop :=
  Ch_Field c ∈ keys ∧ Hot c = IsHot (Ch_Field c)
  ∧ Ch_From c = render (flatten old !! Ch_Field c)
  ∧ Ch_To c = render (flatten next !! Ch_Field c) ∧ Ch_From c ≠ Ch_To c.

(** The two lists of [Diff] are those fields, each once, split by [IsHot]. *)
Lemma Diff_exact (old next : Config) (c : Change) :
  (c ∈ (Diff old next).1 ↔ differs old next c ∧ IsHot (Ch_Field c) = true)
  ∧ (c ∈ (Diff old next).2 ↔ differs old next c ∧ IsHot (Ch_Field c) = false).
Proof.
  unfold Diff, differs. simpl. rewrite !list_elem_of_filter, !elem_of_changes.
  split; (split; [intros (Hh & ? & ? & ? & ? & Hi)|intros ((? & Hi & ? & ? & ?) & Hh)]);
    rewrite Hi in *; tauto.
Qed.

Lemma changes_sublist (old next : gmap string val) (l : list string) :
  Ch_Field <$> omap (λ k, let from := render (old !! k) in let to := render (next !! k) in
    if decide (from = to) then None else Some (mkChange k from to (IsHot k))) l `sublist_of` l.
Proof.
  induction l as [|k l IH]; simpl; [constructor|].
  case_decide; simpl; by constructor.
Qed.

Lemma changes_NoDup (old next : gmap string val) : NoDup (Ch_Field <$> changes_of old next).
Proof.
  eapply sublist_NoDup; [|apply changes_sublist].
  unfold sort_strings. rewrite (merge_sort_Permutation string_le). apply NoDup_elements.
Qed.

Lemma Diff_NoDup (old next : Config) :
  NoDup (Ch_Field <$> (Diff old next).1) ∧ NoDup (Ch_Field <$> (Diff old next).2).
Proof.
  pose proof (changes_NoDup (flatten old) (flatten next)).
  split; (eapply sublist_NoDup; [eassumption|apply fmap_sublist, sublist_filter]).
Qed.

Lemma Diff_mix (old next : Config) : (Diff (mix old next) next).1 = [].
Proof.
  destruct (Diff (mix old next) next).1 as [|c l] eqn:E; [done|]. exfalso.
  assert (c ∈ (Diff (mix old next) next).1) as Hc by (rewrite E; left).
  apply Diff_hot in Hc as [Hc Hh]. apply elem_of_changes in Hc as (Hne & _ & Hf & Ht & Hi).
  apply Hne. rewrite Hf, Ht, lookup_flatten_mix. by rewrite <- Hi, Hh.
Qed.

Lemma Diff_no_hot (old next : Config) (k : string) :
  (Diff old next).1 = [] → IsHot k = true →
  render (flatten old !! k) = render (flatten next !! k).
Proof.
  intros Hd Hk. destruct (decide (render (flatten old !! k) = render (flatten next !! k)))
    as [|Hne]; [done|]. exfalso. destruct (assoc k fields) as [f|] eqn:E.
  - assert (Hc : mkChange k (render (flatten old !! k)) (render (flatten next !! k)) true
                 ∈ (Diff old next).1).
    { apply Diff_hot. split; [|done]. apply elem_of_changes. simpl. rewrite Hk.
      exact (conj Hne (conj (proj2 (elem_of_keys k) (ex_intro _ f E))
        (conj eq_refl (conj eq_refl eq_refl)))). }
    rewrite Hd in Hc. by apply elem_of_nil in Hc.
  - apply Hne. by rewrite !lookup_flatten, E.
Qed.
End reloading.

(** ** Properties *)

(** C35: validation is exact and complete: a configuration is accepted exactly
    when it satisfies [config_ok], every condition the rest of the program relies
    on; and a refusal lists the problems of every section and of the cross
    checks, not only the first. *)
Theorem validate_exact `{GoText} (c : Config) :
  (Validate c = None ↔ config_ok c)
  ∧ Validate c = problems_Err (concat (map (λ r, r []) (sections c ++ [validateAcrossSections c]))).
Proof.
  split; [apply Validate_spec|]. unfold Validate. f_equal.
  assert (Hall : Forall appends (sections c ++ [validateAcrossSections c])).
  { unfold sections. simpl. repeat constructor; auto using appends_Service, appends_Logging,
      appends_HTTP, appends_Admin, appends_Storage, appends_Queue, appends_Idempotency,
      appends_Auth, appends_RateLimit, appends_Breaker, appends_Webhook, appends_Observability,
      appends_across. }
  induction Hall as [|r rules Hr Hrules IH]; [done|].
  change (in_order (r :: rules) []) with (in_order rules (r [])).
  rewrite (appends_in_order rules Hrules), IH. done.
Qed.

(** The built-in defaults validate on any host whose name is not blank. *)
Lemma defaults_valid `{GoText} (os_Hostname : result err string) :
  trim_space (hostname os_Hostname) ≠ "" → Validate (Defaults os_Hostname) = None.
Proof.
  intros Hh. apply Validate_spec. split; try vm_decide; simpl; try (split; vm_decide).
  - split; [vm_decide|done].
  - discriminate.
  - split; unfold rate_ok; try vm_decide. done.
Qed.

(** The index [keySet] builds of the paths. *)
Lemma index_paths (k : string) : k ∈ paths (keySet keys) ↔ k ∈ keys.
Proof.
  assert (Hpaths : paths (keySet keys) = list_to_set keys) by vm_eq.
  rewrite Hpaths. apply elem_of_list_to_set.
Qed.

Lemma index_env (n p : string) :
  byEnv (keySet keys) !! n = Some p ↔ p ∈ keys ∧ n = dots_to_underscores p.
Proof.
  assert (H1 : map_Forall (λ n p, p ∈ keys ∧ n = dots_to_underscores p) (byEnv (keySet keys)))
    by vm_decide.
  assert (H2 : Forall (λ p, byEnv (keySet keys) !! dots_to_underscores p = Some p) keys) by vm_decide.
  split; [intros Hn; exact (H1 _ _ Hn)|]. intros [Hp ->].
  exact (proj1 (Forall_forall _ _) H2 p Hp).
Qed.

Lemma lower_of_upper :
  Forall (λ p, to_lower (to_upper (dots_to_underscores p)) = dots_to_underscores p) keys.
Proof. vm_decide. Qed.

#[export] Instance string_le_total : Total string_le.
Proof.
  intros a b. unfold string_le. destruct (String.ltb b a) eqn:E; [right|by left].
  by apply string_ltb_asymm.
Qed.

#[export] Instance string_le_trans : Transitive string_le.
Proof.
  intros a b c. unfold string_le. intros Hab Hbc. apply not_true_iff_false. intros Hca.
  destruct (String.ltb b c) eqn:Hx.
  - by rewrite (string_ltb_trans b c a Hx Hca) in Hab.
  - pose proof (string_ltb_total b c Hx Hbc). congruence.
Qed.

(** C39: the three spellings of a path are the same knob.  The environment variable
    [EnvName] documents and the flag of that name set exactly that path, for every path of
    the configuration; a variable under the prefix sets a path exactly when the rest of its
    name, in any case, is that path with underscores, and then it hands its value on; a
    flag sets the path it is spelled as and no other; and a file is refused exactly when
    some key of it is no path, and the refusal names just those keys. *)
Theorem three_spellings (k v : string) :
  let idx := keySet keys in
  (k ∈ keys → envTransform idx (EnvName k) v = Some (k, v))
  ∧ (∀ rest p v', envTransform idx (EnvPrefix +:+ rest) v = Some (p, v')
       ↔ p ∈ keys ∧ to_lower rest = dots_to_underscores p ∧ v' = v)
  ∧ (∀ p v', flagTransform idx k v = Some (p, v') ↔ p ∈ keys ∧ p = k ∧ v' = v)
  ∧ ∀ path ks,
      (checkUnknownKeys idx path ks = None ↔ ∀ x, x ∈ ks → x ∈ keys)
      ∧ ∀ e, checkUnknownKeys idx path ks = Some e →
          ∃ bad, e = ENew (path +:+ ": unknown configuration key(s): " +:+ join_with ", " bad)%string
                 ∧ StronglySorted string_le bad ∧ bad ≡ₚ filter (λ x, x ∉ keys) ks.
Proof.
  intros idx. pose proof index_paths as Hin. pose proof index_env as Henv.
  fold idx in Hin, Henv. clearbody idx. split_and!.
  - intros Hk. unfold envTransform, EnvName, trim_prefix. rewrite cut_prefix_app. simpl.
    rewrite (proj2 (Henv _ k)); [done|]. split; [done|].
    by apply (proj1 (Forall_forall _ _) lower_of_upper).
  - intros rest p v'. unfold envTransform, trim_prefix. rewrite cut_prefix_app. simpl.
    rewrite fmap_Some. split.
    + intros (p' & Hp%Henv & [= -> ->]). by destruct Hp.
    + intros (Hp & Hr & ->). exists p. split; [|done]. by apply Henv.
  - intros p v'. unfold flagTransform. case_decide as Hk; rewrite Hin in Hk; naive_solver.
  - intros path ks. unfold checkUnknownKeys.
    assert (Hbad : filter (λ x, x ∉ paths idx) ks = filter (λ x, x ∉ keys) ks)
      by (apply list_filter_iff; intros x; by rewrite Hin).
    rewrite Hbad. case_decide as Hb; split; try done.
    + split; [|done]. intros _ x Hx. apply dec_stable. intros Hn.
      assert (x ∈ filter (λ x, x ∉ keys) ks) as Hx' by (by apply list_elem_of_filter).
      rewrite Hb in Hx'. by apply elem_of_nil in Hx'.
    + split; [done|]. intros Hall. destruct Hb. apply elem_of_nil_inv. intros x [Hn Hx]%list_elem_of_filter.
      by apply Hn, Hall.
    + intros e [= <-]. eexists. split; [done|]. split; [apply StronglySorted_merge_sort; apply _|].
      apply merge_sort_Permutation.
Qed.

#[local] Opaque Validate flatten IsHot render Diff ApplyHot mix.

(** C25: a reload is all or nothing, changes hot fields only, and settles.  On an
    error the running configuration is untouched and nothing is reported as
    applied; otherwise it still validates if it did, no load-time field has
    moved, every hot field renders as the new file has it, and reloading the same
    file again finds nothing to apply.  What it reports are exactly the fields whose
    renderings differ, each once with both: the hot ones as applied, the others as
    waiting for a restart. *)
Theorem reload_safe `{GoText, Rendering, UnmarshalLaws} (cfg cfg' : Config)
  (loaded : result err Config) (res : ReloadResult) :
  Validate cfg = None → reload cfg loaded = (res, cfg') →
  Validate cfg' = None
  ∧ (is_Some (Reload_Err res) → cfg' = cfg ∧ Applied res = [] ∧ RestartOnly res = [])
  ∧ (∀ k, IsHot k = false → flatten cfg' !! k = flatten cfg !! k)
  ∧ (Reload_Err res = None → ∃ next, loaded = Ok next ∧ Validate next = None
      ∧ (∀ k, IsHot k = true → render (flatten cfg' !! k) = render (flatten next !! k))
      ∧ Applied (reload cfg' loaded).1 = []
      ∧ NoDup (Ch_Field <$> Applied res) ∧ NoDup (Ch_Field <$> RestartOnly res)
      ∧ ∀ c, (c ∈ Applied res ↔ differs cfg next c ∧ IsHot (Ch_Field c) = true)
             ∧ (c ∈ RestartOnly res ↔ differs cfg next c ∧ IsHot (Ch_Field c) = false)).
Proof.
  intros Hv. unfold reload at 1. destruct (readConfig loaded) as [next|e] eqn:Hread.
  2:{ intros [= <- <-]. split; [exact Hv|]. split; [auto|]. split; [auto|]. discriminate. }
  assert (Hnext : loaded = Ok next ∧ Validate next = None).
  { unfold readConfig in Hread. destruct loaded as [c|]; [|discriminate].
    destruct (Validate c) eqn:E; [discriminate|]. injection Hread as <-. auto. }
  destruct Hnext as [-> Hvn].
  assert (Hsettled : ∀ c, (Diff c next).1 = [] → Applied (reload c (Ok next)).1 = []).
  { intros c Hd. unfold reload. rewrite Hread. destruct (Diff c next) as [hot ro]. simpl in Hd.
    subst hot. rewrite decide_True by reflexivity. reflexivity. }
  pose proof (Diff_NoDup cfg next) as [Hnd1 Hnd2]. pose proof (Diff_exact cfg next) as Hex.
  destruct (Diff cfg next) as [hot ro] eqn:Hdiff. cbn [fst snd] in Hnd1, Hnd2, Hex.
  destruct (decide (hot = [])) as [->|Hhot].
  - intros [= <- <-]. split; [exact Hv|]. split; [by intros []|]. split; [auto|].
    intros _. exists next. split; [reflexivity|]. split; [exact Hvn|].
    split; [intros k Hk; apply (Diff_no_hot cfg next); [by rewrite Hdiff|done]|].
    split; [by apply Hsettled; rewrite Hdiff|]. exact (conj Hnd1 (conj Hnd2 Hex)).
  - unfold app_applyHot. rewrite ApplyHot_mix. destruct (Validate (mix cfg next)) eqn:Hvm.
    + intros [= <- <-]. split; [exact Hv|]. split; [auto|]. split; [auto|]. discriminate.
    + intros [= <- <-]. split; [exact Hvm|]. split; [by intros []|].
      split; [intros k Hk; by rewrite lookup_flatten_mix, Hk|].
      intros _. exists next. split; [reflexivity|]. split; [exact Hvn|].
      split; [intros k Hk; by rewrite lookup_flatten_mix, Hk|].
      split; [apply Hsettled, Diff_mix|]. exact (conj Hnd1 (conj Hnd2 Hex)).
Qed.

(** ** The properties at concrete packages and configurations *)

#[local] Transparent Validate flatten IsHot render Diff ApplyHot mix fields keys.

Definition plain_text : GoText := {|
  Quote := λ s, (bytes_string [34]%nat +:+ s +:+ bytes_string [34]%nat)%string;
  url_Parse := λ s, match cut_prefix "http://" s with
                    | Some h => Ok ("http", h)
                    | None => Err "unsupported"
                    end;
|}.
Definition plain_rendering : Rendering := {|
  render_float := λ x, match x with FNaN => "NaN" | FPosInf => "+Inf" | FNegInf => "-Inf"
                       | FNum q => (itoa (Qnum q) +:+ "/" +:+ itoa (Zpos (Qden q)))%string end;
  render_clients := λ l, join_with " " (map AC_ID l);
|}.

(** A decoder by lookups. *)
Section decoder.
Context (m : gmap string val).
Definition str (k : string) : string := match m !! k with Some (VStr s) => s | _ => "" end.
Definition int (k : string) : Z := match m !! k with Some (VInt z) => z | _ => 0 end.
Definition dur (k : string) : Z := match m !! k with Some (VDur z) => z | _ => 0 end.
Definition boolean (k : string) : bool := match m !! k with Some (VBool b) => b | _ => false end.
Definition flt (k : string) : f64 := match m !! k with Some (VFloat x) => x | _ => FNaN end.
Definition clients (k : string) : list AuthClient :=
  match m !! k with Some (VClients l) => l | _ => [] end.

Definition decode : Config :=
  let pg k := ("storage.postgres." +:+ k)%string in
  let q k := ("queue." +:+ k)%string in
  let tier k := mkQuota (flt ("ratelimit.tiers." +:+ k +:+ ".rate")%string)
                  (int ("ratelimit.tiers." +:+ k +:+ ".burst")%string) in
  let b k := ("breaker.webhook." +:+ k)%string in
  mkConfig (mkService (str "service.name") (str "service.instance"))
    (mkLogging (str "logging.level") (str "logging.format"))
    (mkHTTP (str "http.addr") (dur "http.read_header_timeout") (dur "http.read_timeout")
       (dur "http.write_timeout") (dur "http.idle_timeout") (dur "http.shutdown_grace")
       (int "http.max_body_bytes") (int "http.trusted_proxy_hops"))
    (mkAdmin (str "admin.addr") (boolean "admin.pprof"))
    (mkStorage (str "storage.backend")
       (mkPostgres (str (pg "dsn")) (int (pg "max_conns")) (int (pg "min_conns"))
          (dur (pg "max_conn_lifetime")) (dur (pg "max_conn_idle_time"))
          (dur (pg "health_check_period")) (dur (pg "connect_timeout"))
          (dur (pg "statement_timeout")) (dur (pg "idle_in_transaction_session_timeout"))
          (dur (pg "lock_timeout"))))
    (mkQueue (int (q "workers")) (int (q "claim_batch")) (dur (q "lease"))
       (dur (q "heartbeat_interval")) (dur (q "poll_interval")) (dur (q "reaper_interval"))
       (dur (q "fetch_cooldown")) (dur (q "job_timeout")) (int (q "max_attempts"))
       (mkBackoff (dur (q "backoff.base")) (dur (q "backoff.max")) (str (q "backoff.jitter")))
       (mkRetention (dur (q "retention.succeeded")) (dur (q "retention.discarded"))
          (dur (q "retention.purge_interval"))))
    (mkIdempotency (boolean "idempotency.enabled") (boolean "idempotency.required")
       (dur "idempotency.ttl") (dur "idempotency.purge_interval")
       (int "idempotency.max_key_bytes"))
    (mkAuth (str "auth.mode") (str "auth.realm") (clients "auth.clients"))
    (mkRateLimit (boolean "ratelimit.enabled") (int "ratelimit.global_inflight")
       (dur "ratelimit.key_ttl") (dur "ratelimit.sweep_interval")
       (mkTiers (tier "anonymous") (tier "standard") (tier "internal")))
    (mkBreaker (mkBreakerSettings (flt (b "failure_rate_threshold")) (int (b "min_throughput"))
       (dur (b "window")) (dur (b "open_duration")) (int (b "half_open_max_calls"))
       (int (b "half_open_success_threshold"))))
    (mkWebhook (str "webhook.url") (dur "webhook.timeout")
       (mkWebhookRetry (int "webhook.retry.max_attempts") (dur "webhook.retry.base")
          (dur "webhook.retry.max") (flt "webhook.retry.budget_max_rate")))
    (mkObservability
       (mkMetrics (boolean "observability.metrics.enabled")
          (boolean "observability.metrics.native_histograms"))
       (mkTracing (boolean "observability.tracing.enabled")
          (str "observability.tracing.otlp_endpoint") (flt "observability.tracing.sample_ratio"))).
End decoder.

Definition plain_unmarshal : Unmarshal := {| unmarshal := λ m, Ok (decode m) |}.

Lemma decode_flatten (c : Config) : decode (flatten c) = c.
Proof.
  unfold decode, str, int, dur, boolean, flt, clients. rewrite !lookup_flatten.
  destruct c as [[] [] [] [] [? []] [? ? ? ? ? ? ? ? ? [] []] [] [] [? ? ? ? [[] [] []]] [[]]
                 [? ? []] [[] []]].
  reflexivity.
Qed.

#[local] Instance plain_laws : @UnmarshalLaws plain_unmarshal.
Proof. split. intros c. simpl. by rewrite decode_flatten. Qed.

Definition host : result err string := Ok "replica-1".

Lemma defaults_valid_witness : @Validate plain_text (Defaults host) = None.
Proof. apply defaults_valid. vm_decide. Defined.

(** A reload that raises the log level and, in vain, moves the listener. *)
Definition sample_next : Config :=
  let d := Defaults host in
  mkConfig (C_Service d) (mkLogging "debug" (Log_Format (C_Logging d)))
    (mkHTTP ":9999" (H_ReadHeaderTimeout (C_HTTP d)) (H_ReadTimeout (C_HTTP d))
       (H_WriteTimeout (C_HTTP d)) (H_IdleTimeout (C_HTTP d)) (H_ShutdownGrace (C_HTTP d))
       (H_MaxBodyBytes (C_HTTP d)) (H_TrustedProxyHops (C_HTTP d)))
    (C_Admin d) (C_Storage d) (C_Queue d) (C_Idempotency d) (C_Auth d) (C_RateLimit d)
    (C_Breaker d) (C_Webhook d) (C_Observability d).

Definition sample_reload : ReloadResult * Config :=
  @reload plain_text plain_unmarshal plain_rendering (Defaults host) (Ok sample_next).

Lemma reload_safe_witness :
  let cfg' := sample_reload.2 in let res := sample_reload.1 in
  @Validate plain_text cfg' = None
  ∧ (is_Some (Reload_Err res) → cfg' = Defaults host ∧ Applied res = [] ∧ RestartOnly res = [])
  ∧ (∀ k, IsHot k = false → flatten cfg' !! k = flatten (Defaults host) !! k)
  ∧ (Reload_Err res = None → ∃ next, Ok (E:=err) sample_next = Ok next
      ∧ @Validate plain_text next = None
      ∧ (∀ k, IsHot k = true → @render plain_rendering (flatten cfg' !! k)
                               = @render plain_rendering (flatten next !! k))
      ∧ Applied (@reload plain_text plain_unmarshal plain_rendering cfg' (Ok sample_next)).1 = []
      ∧ NoDup (Ch_Field <$> Applied res) ∧ NoDup (Ch_Field <$> RestartOnly res)
      ∧ ∀ c, (c ∈ Applied res
              ↔ @differs plain_rendering (Defaults host) next c ∧ IsHot (Ch_Field c) = true)
             ∧ (c ∈ RestartOnly res
                ↔ @differs plain_rendering (Defaults host) next c ∧ IsHot (Ch_Field c) = false)).
Proof.
  apply (@reload_safe plain_text plain_rendering plain_unmarshal plain_laws (Defaults host)
           sample_reload.2 (Ok sample_next) sample_reload.1).
  - vm_eq.
  - destruct sample_reload eqn:E. exact E.
Defined.

Example reload_ex :
  Ch_Field <$> Applied sample_reload.1 = ["logging.level"]
  ∧ Ch_Field <$> RestartOnly sample_reload.1 = ["http.addr"].
Proof. split; vm_eq. Qed.

(** A NaN passes every range check: each is a comparison that is false of it. *)
Example nan_threshold :
  passes (BreakerSettings_validate (mkBreakerSettings FNaN 20 second second 5 3) "breaker.webhook")
  ∧ passes (Quota_validate (mkQuota FNaN 1) "ratelimit.tiers.anonymous").
Proof. unfold passes. split; vm_eq. Qed.

(** The tripled heartbeat wraps around. *)
Example heartbeat_overflow :
  let d := Queue_SetDefaults in
  passes (@Queue_Validate plain_text
    (mkQueue 8 10 (30 * second) (2 ^ 62) (2 * second) (15 * second) 0 minute 5 (Q_Backoff d)
       (Q_Retention d))).
Proof. unfold passes. vm_eq. Qed.
