(* ===== verification/ConfigLoad.v ===== *)
(** * Loading the configuration (src/internal/config/load.go)

    Four layers - defaults, file, environment, flags - and a test seam above them,
    merged by koanf and decoded once.  A layer is a flat map of dotted paths: what a
    file may name has been checked against the known paths, all leaves, before it is
    merged.  [Koanf] holds what koanf's providers make of the environment and of the
    flags, [Decoder] the decoding of the merged map. *)
From stdpp Require Import options.
From S2P Require Import Prelude GoStrings GoDuration Apperr ConfigBase ConfigSections ConfigReload.
From S2P Require ConfigProps.
From Stdlib Require Import Ascii.
Open Scope Z_scope.

(** A value of the merged map: a default, the text of a variable or a flag, a node of
    the file, or an override. *)
Inductive raw : Type :=
  | RDefault (v : val)
  | RText (s : string)
  | RFile (yaml : string).

Abbreviation koanf := (gmap string raw).
Abbreviation layer := (gmap string raw).

(** [k.Load] and [k.Merge]: the new layer wins. *)
Definition load_layer (l k : koanf) : koanf := l ∪ k.

(** A flag of the parsed set: its name, its value, and whether it was given. *)
Record Flag : Type := mkFlag { f_name : string; f_value : string; f_changed : bool }.

Class Koanf : Type := {
  env_Provider : string → (string → string → option (string * string)) → list (string * string)
    → gmap string string;
  posflag_Provider : (string → string → option (string * string)) → gset string → list Flag
    → gmap string string;
}.

(** What a callback makes of a pair, for one path. *)
Definition names (f : string → string → option (string * string)) (path name value : string)
  : option string :=
  match f name value with
  | Some (p, v) => if decide (p = path) then Some v else None
  | None => None
  end.

(** The documented behaviour: variables with the prefix go through the callback and the
    last one that names a path sets it; so do flags, but one that was not given does
    not override a path that exists. *)
Class KoanfLaws `{Koanf} : Prop := {
  env_lookup prefix f env path :
    env_Provider prefix f env !! path
    = last (omap (λ nv : string * string,
                    if has_prefix prefix nv.1 then names f path nv.1 nv.2 else None) env);
  posflag_lookup f existing flags path :
    posflag_Provider f existing flags !! path
    = last (omap (λ fl, if f_changed fl || bool_decide (path ∉ existing)
                        then names f path (f_name fl) (f_value fl) else None) flags);
}.

Class Decoder : Type := { decode_config : koanf → Config → result err Config }.

(** ** The sources *)

(** The file system: what [os.Stat] answers, and what reading and parsing a file gives. *)
Record files : Type := mkFiles {
  os_Stat : string → option err;
  read_yaml : string → result err (gmap string string);
}.

Definition DefaultConfigFile : string := "config.yaml".

Record Options : Type := mkOptions {
  o_File : string;
  o_Flags : option (list Flag * FlagState);
  o_Environ : list (string * string);
  o_Overrides : gmap string raw;
}.

Record Result : Type := mkResult { r_Config : Config; r_File : string; r_Warnings : list string }.

Section load.
Context `{GoText, Koanf, Decoder} (fs : files).

Definition resolveFile (explicit : string) : result err string :=
  if decide (explicit = "") then
    match os_Stat fs DefaultConfigFile with None => Ok DefaultConfigFile | Some _ => Ok "" end
  else
    match os_Stat fs explicit with
    | Some e => Err (EWrap ("config file " +:+ explicit +:+ ": ")%string e "")
    | None => Ok explicit
    end.

Definition loadDefaults (d : Config) : koanf := RDefault <$> flatten d.

Definition loadFile (k : koanf) (requested : string) (valid : keyIndex)
  : result err (string * koanf) :=
  match resolveFile requested with
  | Err e => Err e
  | Ok path =>
      if decide (path = "") then Ok ("", k)
      else
        match read_yaml fs path with
        | Err e => Err (EWrap ("read config " +:+ path +:+ ": ")%string e "")
        | Ok m =>
            match checkUnknownKeys valid path (elements (dom m : gset string)) with
            | Some e => Err e
            | None => Ok (path, load_layer (RFile <$> m) k)
            end
        end
  end.

(** The variables under the prefix that match no path, each once, in order. *)
Definition unknown_env (valid : keyIndex) (env : list (string * string)) : list string :=
  sort_strings (elements (list_to_set
    (filter (λ n, envTransform valid n "" = None)
       (filter (λ n, has_prefix EnvPrefix n = true) env.*1)) : gset string)).

Definition env_warning (name : string) : string :=
  ("environment variable " +:+ name +:+ " matches no configuration key and was ignored")%string.

Definition loadEnv (k : koanf) (valid : keyIndex) (env : list (string * string))
  : list string * koanf :=
  (sort_strings (env_warning <$> unknown_env valid env),
   load_layer (RText <$> env_Provider EnvPrefix (envTransform valid) env) k).

Definition loadFlags (k : koanf) (flags : option (list Flag * FlagState)) (valid : keyIndex)
  : result err koanf :=
  match flags with
  | None => Ok k
  | Some (fl, st) =>
      let k := load_layer (RText <$> posflag_Provider (flagTransform valid) (dom k) fl) k in
      match flagOverrides st valid with
      | Err e => Err e
      | Ok over => Ok (load_layer (RText <$> over) k)
      end
  end.

Definition loadOverrides (k : koanf) (over : gmap string raw) : koanf := load_layer over k.

(** The merged map, the file read and the warnings. *)
Definition merge (d : Config) (o : Options) : result err (koanf * string * list string) :=
  let k := loadDefaults d in
  let valid := keySet (elements (dom k : gset string)) in
  match loadFile k (o_File o) valid with
  | Err e => Err e
  | Ok (file, k) =>
      let '(warnings, k) := loadEnv k valid (o_Environ o) in
      match loadFlags k (o_Flags o) valid with
      | Err e => Err e
      | Ok k => Ok (loadOverrides k (o_Overrides o), file, warnings)
      end
  end.

(** [d] is [Defaults ()]. *)
Definition Load (d : Config) (o : Options) : result err Result :=
  match merge d o with
  | Err e => Err e
  | Ok (k, file, warnings) =>
      match decode_config k d with
      | Err e => Err (EWrap "decode configuration: " e "")
      | Ok cfg => Ok (mkResult cfg file warnings)
      end
  end.
End load.

(** ** What each layer says of a path *)

Section layers.
Context `{GoText, Koanf} {laws : KoanfLaws} (fs : files).

Definition valid_keys : keyIndex := keySet (elements (list_to_set keys : gset string)).

(** The last variable spelled as the path. *)
Definition from_env (o : Options) (path : string) : option string :=
  last (omap (λ nv : string * string,
                if has_prefix EnvPrefix nv.1 then names (envTransform valid_keys) path nv.1 nv.2
                else None) (o_Environ o)).

(** The last flag of that name, if it was given. *)
Definition from_flag (o : Options) (path : string) : option string :=
  fl ← o_Flags o;
  last (omap (λ f, if f_changed f then names (flagTransform valid_keys) path (f_name f) (f_value f)
                   else None) fl.1).

(** [-v], [--trace] and [--set]. *)
Definition from_convenience (o : Options) (path : string) : option string :=
  fl ← o_Flags o;
  match flagOverrides fl.2 valid_keys with Ok over => over !! path | Err _ => None end.

Definition from_file (o : Options) (path : string) : option string :=
  match resolveFile fs (o_File o) with
  | Ok file => if decide (file = "") then None
               else match read_yaml fs file with Ok m => m !! path | Err _ => None end
  | Err _ => None
  end.

(** The highest layer that sets the path. *)
Definition effective (d : Config) (o : Options) (path : string) : option raw :=
  match o_Overrides o !! path, from_convenience o path, from_flag o path, from_env o path,
        from_file o path with
  | Some v, _, _, _, _ => Some v
  | None, Some s, _, _, _ => Some (RText s)
  | None, None, Some s, _, _ => Some (RText s)
  | None, None, None, Some s, _ => Some (RText s)
  | None, None, None, None, Some y => Some (RFile y)
  | None, None, None, None, None => RDefault <$> flatten d !! path
  end.
End layers.

Lemma dom_defaults (d : Config) : dom (loadDefaults d) = (list_to_set keys : gset string).
Proof.
  unfold loadDefaults, flatten. rewrite dom_fmap_L, dom_list_to_map_L. done.
Qed.

Lemma paths_keySet (ks : list string) (k : string) : k ∈ paths (keySet ks) ↔ k ∈ ks.
Proof.
  unfold keySet. induction ks as [|x ks IH] using rev_ind; [set_solver|].
  rewrite foldl_app. simpl. rewrite elem_of_union, elem_of_singleton, IH, elem_of_app. set_solver.
Qed.

Lemma lookup_layer (l k : koanf) (path : string) :
  load_layer l k !! path = match l !! path with Some v => Some v | None => k !! path end.
Proof.
  unfold load_layer. rewrite lookup_union. by destruct (l !! path), (k !! path).
Qed.

(** Every step only adds paths. *)
Lemma layer_dom (l k : koanf) : dom k ⊆ dom (load_layer l k).
Proof. unfold load_layer. rewrite dom_union. set_solver. Qed.

Lemma loadFile_spec (fs : files) (k k' : koanf) (o : Options) (valid : keyIndex) (file : string) :
  loadFile fs k (o_File o) valid = Ok (file, k') →
  dom k ⊆ dom k'
  ∧ ∀ path, k' !! path = match from_file fs o path with
                         | Some y => Some (RFile y) | None => k !! path end.
Proof.
  unfold loadFile, from_file. destruct (resolveFile fs (o_File o)) as [f|]; [|done].
  destruct (decide (f = "")); [by intros [= <- <-]|].
  destruct (read_yaml fs f) as [m|]; [|done]. destruct (checkUnknownKeys _ _ _); [done|].
  intros [= <- <-]. split; [apply layer_dom|]. intros path. rewrite lookup_layer, lookup_fmap.
  by destruct (m !! path).
Qed.

Section merged.
Context `{GoText, Koanf} {laws : KoanfLaws} (fs : files).

Lemma loadEnv_spec (k : koanf) (o : Options) (path : string) :
  (loadEnv k valid_keys (o_Environ o)).2 !! path
  = match from_env o path with Some s => Some (RText s) | None => k !! path end.
Proof using laws.
  unfold loadEnv, from_env. simpl. rewrite lookup_layer, lookup_fmap, env_lookup.
  by destruct (last _).
Qed.

Lemma loadFlags_spec (k k' : koanf) (o : Options) (path : string) :
  list_to_set keys ⊆ dom k → loadFlags k (o_Flags o) valid_keys = Ok k' →
  k' !! path = match from_convenience o path, from_flag o path with
               | Some s, _ => Some (RText s)
               | None, Some s => Some (RText s)
               | None, None => k !! path
               end.
Proof using laws.
  intros Hdom. unfold loadFlags, from_convenience, from_flag.
  destruct (o_Flags o) as [[fl st]|]; simpl; [|by intros [= <-]].
  destruct (flagOverrides st valid_keys) as [over|]; [|done]. intros [= <-].
  rewrite !lookup_layer, !lookup_fmap. destruct (over !! path); [done|]. simpl.
  rewrite posflag_lookup.
  match goal with |- context [omap ?g fl] =>
    assert (Hg : omap g fl = omap (λ f, if f_changed f
      then names (flagTransform valid_keys) path (f_name f) (f_value f) else None) fl);
      [|rewrite Hg; by destruct (last _)] end.
  apply list_omap_ext, Forall_Forall2_diag, Forall_forall. intros f _.
  destruct (f_changed f); [done|]. simpl. case_bool_decide as Hp; [|done].
  unfold names, flagTransform. case_decide as Hk; [|done]. case_decide as Hf; [|done].
  exfalso. apply Hp. rewrite <- Hf. apply Hdom.
  by apply paths_keySet, elem_of_elements in Hk.
Qed.

(** The merged map, path by path. *)
Lemma merge_lookup (d : Config) (o : Options) (k : koanf) (file : string) (warnings : list string) :
  merge fs d o = Ok (k, file, warnings) →
  (∀ path, k !! path = effective fs d o path)
  ∧ warnings = sort_strings (env_warning <$> unknown_env valid_keys (o_Environ o)).
Proof using laws.
  unfold merge. rewrite dom_defaults. fold valid_keys.
  destruct (loadFile fs (loadDefaults d) (o_File o) valid_keys) as [[f k1]|] eqn:Hf; [|done].
  destruct (loadFile_spec _ _ _ _ _ _ Hf) as [Hd1 Hk1].
  destruct (loadEnv k1 valid_keys (o_Environ o)) as [w k2] eqn:He.
  assert (Hk2 : ∀ path, k2 !! path = match from_env o path with
    Some s => Some (RText s) | None => k1 !! path end).
  { intros path. rewrite <- loadEnv_spec. by rewrite He. }
  assert (Hd2 : list_to_set keys ⊆ dom k2).
  { rewrite dom_defaults in Hd1. etransitivity; [exact Hd1|]. unfold loadEnv in He.
    injection He as _ <-. apply layer_dom. }
  destruct (loadFlags k2 (o_Flags o) valid_keys) as [k3|] eqn:Hl; [|done].
  intros [= <- <- <-]. split; [|by injection He as <- _].
  intros path. unfold loadOverrides, effective. rewrite lookup_layer.
  destruct (o_Overrides o !! path); [done|].
  rewrite (loadFlags_spec _ _ _ path Hd2 Hl). destruct (from_convenience o path); [done|].
  destruct (from_flag o path); [done|]. rewrite Hk2. destruct (from_env o path); [done|].
  rewrite Hk1. destruct (from_file fs o path); [done|]. unfold loadDefaults. by rewrite lookup_fmap.
Qed.

Lemma elem_of_unknown_env (valid : keyIndex) (env : list (string * string)) (n : string) :
  n ∈ unknown_env valid env
  ↔ ∃ v, (n, v) ∈ env ∧ has_prefix EnvPrefix n = true ∧ envTransform valid n "" = None.
Proof.
  unfold unknown_env. rewrite ConfigProps.elem_of_sort_strings, elem_of_elements, elem_of_list_to_set.
  rewrite !list_elem_of_filter, list_elem_of_fmap. split.
  - intros (Ht & Hp & [n' v] & -> & Hin). eauto.
  - intros (v & Hin & Hp & Ht). split; [done|]. split; [done|]. by exists (n, v).
Qed.
End merged.

Lemma string_app_inj_r (s s' t : string) : (s +:+ t = s' +:+ t)%string → s = s'.
Proof.
  intros Heq. assert (Hl : String.length s = String.length s')
    by (apply (f_equal String.length) in Heq; rewrite !string_length_app in Heq; lia).
  by apply (string_app_inj_len s s' t t) in Heq as [? _].
Qed.

Lemma env_warning_inj (n n' : string) : env_warning n = env_warning n' → n = n'.
Proof. unfold env_warning. intros Heq%string_app_inj_l. by apply string_app_inj_r in Heq. Qed.

Lemma checkUnknownKeys_None (file : string) (m : gmap string string) :
  checkUnknownKeys valid_keys file (elements (dom m : gset string)) = None
  ↔ ∀ p, p ∈ dom m → p ∈ keys.
Proof.
  assert (Hv : ∀ p, p ∈ paths valid_keys ↔ p ∈ keys)
    by (intros p; unfold valid_keys; by rewrite paths_keySet, elem_of_elements, elem_of_list_to_set).
  unfold checkUnknownKeys. case_decide as Hb; split; try done.
  - intros _ p Hp. apply Hv. destruct (decide (p ∈ paths valid_keys)) as [|Hn]; [done|].
    exfalso. assert (Hin : p ∈ filter (λ k, k ∉ paths valid_keys) (elements (dom m)))
      by (apply list_elem_of_filter; split; [done|by apply elem_of_elements]).
    rewrite Hb in Hin. by apply elem_of_nil in Hin.
  - intros Hall. exfalso. apply Hb, list.elem_of_nil_inv. intros p [Hn Hp]%list_elem_of_filter.
    apply Hn, Hv, Hall. by apply elem_of_elements.
Qed.

(** ** Properties *)

(** C40: the precedence of the layers.  A configuration that loads gives every path the value
    of the highest layer that sets it - override, convenience flag, flag that was
    given, environment, file, default - so a flag nobody gave never hides a lower
    layer; it warns about exactly the variables under the prefix that spell no path,
    and every key of the file it read is known.  Loading fails before the decoder only
    for an explicit file that is absent, an unreadable file or one with an unknown key,
    or a bad [--set]. *)
Theorem load_precedence `{GoText, Koanf} {laws : KoanfLaws} (fs : files) (d : Config) (o : Options) :
  match merge fs d o with
  | Ok (k, file, warnings) =>
      (∀ path, k !! path = effective fs d o path)
      ∧ (∀ n, env_warning n ∈ warnings
          ↔ ∃ v, (n, v) ∈ o_Environ o ∧ has_prefix EnvPrefix n = true
                 ∧ envTransform valid_keys n "" = None)
      ∧ resolveFile fs (o_File o) = Ok file
      ∧ (file ≠ "" → ∃ m, read_yaml fs file = Ok m ∧ ∀ p, p ∈ dom m → p ∈ keys)
  | Err _ =>
      (o_File o ≠ "" ∧ is_Some (os_Stat fs (o_File o)))
      ∨ (∃ file, resolveFile fs (o_File o) = Ok file ∧ file ≠ ""
         ∧ ∀ m, read_yaml fs file = Ok m → ∃ p, p ∈ dom m ∧ p ∉ keys)
      ∨ ∃ fl st e, o_Flags o = Some (fl, st) ∧ flagOverrides st valid_keys = Err e
  end.
Proof.
  destruct (merge fs d o) as [[[k file] warnings]|e] eqn:Hm.
  - destruct (merge_lookup fs d o k file warnings Hm) as [Hk Hw]. split; [exact Hk|]. split.
    { intros n. rewrite Hw, ConfigProps.elem_of_sort_strings, list_elem_of_fmap,
        <- elem_of_unknown_env. split; [|eauto]. by intros (n' & ->%env_warning_inj & ?). }
    unfold merge in Hm. rewrite dom_defaults in Hm. fold valid_keys in Hm.
    destruct (loadFile fs _ _ _) as [[f k1]|] eqn:Hf; [|done].
    assert (f = file) as -> by (destruct (loadEnv _ _ _); by destruct (loadFlags _ _ _); simplify_eq).
    unfold loadFile in Hf. destruct (resolveFile fs (o_File o)) as [f|]; [|done].
    case_decide as He; [by simplify_eq|]. destruct (read_yaml fs f) as [m|] eqn:Hr; [|done].
    destruct (checkUnknownKeys _ _ _) eqn:Hc; [done|]. simplify_eq. split; [done|]. intros _.
    exists m. split; [done|]. by apply (checkUnknownKeys_None file).
  - unfold merge in Hm. rewrite dom_defaults in Hm. fold valid_keys in Hm.
    destruct (loadFile fs _ _ _) as [[f k1]|] eqn:Hf.
    + right. right. destruct (loadEnv _ _ _) as [w k2]. unfold loadFlags in Hm.
      destruct (o_Flags o) as [[fl st]|]; [|done]. exists fl, st.
      destruct (flagOverrides st valid_keys) as [|e'] eqn:Ho; [done|]. by exists e'.
    + unfold loadFile in Hf. destruct (resolveFile fs (o_File o)) as [f|] eqn:Hr.
      * right. left. exists f. split; [done|]. case_decide as He; [done|]. split; [done|].
        intros m Hy. rewrite Hy in Hf. destruct (checkUnknownKeys _ _ _) eqn:Hc; [|done].
        destruct (decide (Forall (λ p, p ∈ keys) (elements (dom m : gset string)))) as [Hall|Hn].
        { assert (Hnone : checkUnknownKeys valid_keys f (elements (dom m)) = None).
          { apply checkUnknownKeys_None. intros p Hp. rewrite Forall_forall in Hall.
            apply Hall. by apply elem_of_elements. }
          congruence. }
        apply not_Forall_Exists in Hn; [|intros p; apply _].
        apply Exists_exists in Hn as (p & Hp & Hk). exists p. split; [by apply elem_of_elements|done].
      * left. unfold resolveFile in Hr. case_decide as He; [by repeat case_match|].
        split; [done|]. by destruct (os_Stat fs (o_File o)).
Qed.

(** ** A concrete koanf *)

Section instance.
#[local] Instance fold_koanf : Koanf := {|
  env_Provider prefix f env :=
    list_to_map (reverse (omap (λ nv : string * string,
      if has_prefix prefix nv.1 then f nv.1 nv.2 else None) env));
  posflag_Provider f existing flags :=
    list_to_map (reverse (omap (λ fl,
      match f (f_name fl) (f_value fl) with
      | Some (p, v) => if f_changed fl || bool_decide (p ∉ existing) then Some (p, v) else None
      | None => None
      end) flags));
|}.

(** The last binding of a path in a list of bindings. *)
Lemma lookup_last_binding {A} (f : A → option (string * string)) (l : list A) (path : string) :
  (list_to_map (reverse (omap f l)) : gmap string string) !! path
  = last (omap (λ a, match f a with
                     | Some (p, v) => if decide (p = path) then Some v else None
                     | None => None end) l).
Proof.
  induction l as [|a l IH] using rev_ind; [done|].
  rewrite !omap_app, last_app, reverse_app. simpl.
  destruct (f a) as [[p v]|]; simpl; [|done].
  destruct (decide (p = path)) as [->|Hp]; simpl; [apply lookup_insert_eq|].
  by rewrite lookup_insert_ne.
Qed.

#[local] Instance fold_koanf_laws : KoanfLaws.
Proof.
  split.
  - intros prefix f env path. simpl. rewrite lookup_last_binding. f_equal.
    apply list_omap_ext, Forall_Forall2_diag, Forall_forall. intros [n v] _. simpl.
    by destruct (has_prefix prefix n).
  - intros f existing flags path. simpl. rewrite lookup_last_binding. f_equal.
    apply list_omap_ext, Forall_Forall2_diag, Forall_forall. intros fl _. unfold names.
    destruct (f (f_name fl) (f_value fl)) as [[p v]|]; [|by case_match].
    destruct (decide (p = path)) as [->|Hp]; repeat case_match; naive_solver.
Qed.

(** A file that sets three paths, an environment that sets two of them and misspells a
    third, and a command line that gives one flag and leaves another at its zero. *)
Definition sample_files : files := {|
  os_Stat p := if decide (p = DefaultConfigFile) then None else Some (ENew "no such file");
  read_yaml p := Ok {[ "http.addr" := ":1"; "queue.workers" := "2"; "logging.format" := "text" ]};
|}.

Definition sample_options : Options := {|
  o_File := "";
  o_Flags := Some ([ mkFlag "http.addr" ":3" true; mkFlag "queue.workers" "0" false ],
                   mkFlagState {[ "http.addr"; FlagDebug ]} []);
  o_Environ := [("TASKAPI_HTTP_ADDR", ":2"); ("TASKAPI_QUEUE_WORKERS", "16");
                ("TASKAPI_HTTP_ADDRR", ":9"); ("HOME", "/root")];
  o_Overrides := ∅;
|}.

Lemma sample_loads :
  match merge (H := ConfigProps.plain_text) sample_files (Defaults ConfigProps.host) sample_options with
  | Ok _ => true | Err _ => false
  end = true.
Proof. vm_compute. reflexivity. Qed.

Lemma load_precedence_witness :
  match merge (H := ConfigProps.plain_text) sample_files (Defaults ConfigProps.host) sample_options with
  | Ok (k, file, warnings) =>
      (k !! "http.addr", k !! "queue.workers", k !! "logging.format", k !! "logging.level")
      = (Some (RText ":3"), Some (RText "16"), Some (RFile "text"), Some (RText "debug"))
      ∧ file = "config.yaml" ∧ env_warning "TASKAPI_HTTP_ADDRR" ∈ warnings
  | Err _ => False
  end.
Proof.
  pose proof (load_precedence (H := ConfigProps.plain_text) sample_files
    (Defaults ConfigProps.host) sample_options) as Hp.
  destruct (merge sample_files (Defaults ConfigProps.host) sample_options)
    as [[[k file] warnings]|e] eqn:Hm.
  - destruct Hp as (Hk & Hw & Hf & _). split; [|split].
    + rewrite !Hk. vm_compute. reflexivity.
    + vm_compute in Hf. by injection Hf.
    + apply Hw. exists ":9". split; [|split; vm_compute; reflexivity].
      right. right. left.
  - pose proof sample_loads as Hs. by rewrite Hm in Hs.
Defined.
End instance.
