(* ===== verification/JobStore.v ===== *)
(** * The job table and its statements (src/internal/queue/store.go,
    maintenance.go, queue.go, the insert of src/internal/outbox/outbox.go, and
    the [jobs] table of src/migrations/0001_init.up.sql)

    The table is a finite map from identifiers to rows with the next value of
    the identity sequence.  Every SQL statement is one function on tables; what
    the statement reads besides the table is an argument: [now()], the rows
    other transactions hold locked when it skips locked rows, the physical order
    of the rows when it has a [LIMIT] without an [ORDER BY].  Instants and
    intervals are nanoseconds.  [db] is what the driver reports: a failed call
    may or may not have been applied. *)
From stdpp Require Import options.
From S2P Require Import Prelude GoStrings GoFloat Apperr.

(** ** queue.go *)

(** The [job_state] enum. *)
Inductive State : Type :=
  | StateAvailable | StateScheduled | StateRunning | StateRetryable
  | StateSucceeded | StateCancelled | StateDiscarded.

#[export] Instance State_eq_dec : EqDecision State.
Proof. solve_decision. Defined.

Definition state_String (s : State) : string :=
  match s with
  | StateAvailable => "available"
  | StateScheduled => "scheduled"
  | StateRunning => "running"
  | StateRetryable => "retryable"
  | StateSucceeded => "succeeded"
  | StateCancelled => "cancelled"
  | StateDiscarded => "discarded"
  end.

(** A claimed unit of work, as the worker sees it. *)
Record Job : Type := mkJob {
  job_ID : Z;
  job_Kind : string;
  job_Payload : string;
  job_Attempt : Z;
  job_MaxAttempts : Z;
  job_Waited : Z;
}.

(** ** The table *)

(** One element of the [errors] array. *)
Record ErrorEntry : Type := mkErrorEntry {
  ee_at : Z;
  ee_attempt : Z;
  ee_worker : option string;
  ee_error : string;
}.

Record Row : Type := mkRow {
  kind : string;
  payload : string;
  state : State;
  priority : Z;
  attempt : Z;
  max_attempts : Z;
  scheduled_at : Z;
  locked_by : option string;
  locked_at : option Z;
  lease_expires_at : option Z;
  heartbeat_at : option Z;
  attempted_by : list string;
  errors : list ErrorEntry;
  unique_key : option string;
  created_at : Z;
  finalized_at : option Z;
}.

#[export] Instance ErrorEntry_eq_dec : EqDecision ErrorEntry.
Proof. solve_decision. Defined.
#[export] Instance Row_eq_dec : EqDecision Row.
Proof. solve_decision. Defined.

Record table : Type := mkTable { rows : gmap Z Row; next_id : Z }.

(** [SET] clauses. *)
Definition set_state (s : State) (r : Row) : Row :=
  mkRow (kind r) (payload r) s (priority r) (attempt r) (max_attempts r) (scheduled_at r)
    (locked_by r) (locked_at r) (lease_expires_at r) (heartbeat_at r) (attempted_by r)
    (errors r) (unique_key r) (created_at r) (finalized_at r).
Definition set_attempt (a : Z) (r : Row) : Row :=
  mkRow (kind r) (payload r) (state r) (priority r) a (max_attempts r) (scheduled_at r)
    (locked_by r) (locked_at r) (lease_expires_at r) (heartbeat_at r) (attempted_by r)
    (errors r) (unique_key r) (created_at r) (finalized_at r).
Definition set_scheduled_at (at_ : Z) (r : Row) : Row :=
  mkRow (kind r) (payload r) (state r) (priority r) (attempt r) (max_attempts r) at_
    (locked_by r) (locked_at r) (lease_expires_at r) (heartbeat_at r) (attempted_by r)
    (errors r) (unique_key r) (created_at r) (finalized_at r).
Definition set_lock (by_ : option string) (at_ lease : option Z) (r : Row) : Row :=
  mkRow (kind r) (payload r) (state r) (priority r) (attempt r) (max_attempts r)
    (scheduled_at r) by_ at_ lease (heartbeat_at r) (attempted_by r)
    (errors r) (unique_key r) (created_at r) (finalized_at r).
Definition set_heartbeat_at (at_ : option Z) (r : Row) : Row :=
  mkRow (kind r) (payload r) (state r) (priority r) (attempt r) (max_attempts r)
    (scheduled_at r) (locked_by r) (locked_at r) (lease_expires_at r) at_ (attempted_by r)
    (errors r) (unique_key r) (created_at r) (finalized_at r).
Definition append_attempted_by (w : string) (r : Row) : Row :=
  mkRow (kind r) (payload r) (state r) (priority r) (attempt r) (max_attempts r)
    (scheduled_at r) (locked_by r) (locked_at r) (lease_expires_at r) (heartbeat_at r)
    (attempted_by r ++ [w]) (errors r) (unique_key r) (created_at r) (finalized_at r).
Definition append_error (e : ErrorEntry) (r : Row) : Row :=
  mkRow (kind r) (payload r) (state r) (priority r) (attempt r) (max_attempts r)
    (scheduled_at r) (locked_by r) (locked_at r) (lease_expires_at r) (heartbeat_at r)
    (attempted_by r) (errors r ++ [e]) (unique_key r) (created_at r) (finalized_at r).
Definition set_finalized_at (at_ : option Z) (r : Row) : Row :=
  mkRow (kind r) (payload r) (state r) (priority r) (attempt r) (max_attempts r)
    (scheduled_at r) (locked_by r) (locked_at r) (lease_expires_at r) (heartbeat_at r)
    (attempted_by r) (errors r) (unique_key r) (created_at r) at_.

(** [locked_by = NULL, locked_at = NULL, lease_expires_at = NULL]. *)
Definition unlock : Row → Row := set_lock None None None.

(** [UPDATE jobs SET f WHERE p], and the number of rows it affects. *)
Definition update_where (p : Z → Row → bool) (f : Row → Row) (t : table) : table :=
  mkTable (map_imap (λ id r, Some (if p id r then f r else r)) (rows t)) (next_id t).

Definition affected (p : Z → Row → bool) (t : table) : Z :=
  Z.of_nat (size (filter (λ ir : Z * Row, p ir.1 ir.2 = true) (rows t))).

(** ** Calls through the driver

    [DbOk] is a statement the database accepts and answers; whatever it refuses - a text
    that is not UTF-8, which [errText] makes of a character cut in two, among others - is
    a [DbErr] that applied nothing. *)

Inductive db : Type :=
  | DbOk
  | DbErr (e : err) (applied : bool).

(** Run a statement; an error is wrapped with the operation's prefix. *)
Definition call {A} (io : db) (prefix : string) (stmt : table → A * table) (t : table)
  : result err A * table :=
  match io with
  | DbOk => let '(a, t') := stmt t in (Ok a, t')
  | DbErr e applied => (Err (EWrap prefix e ""), if applied then (stmt t).2 else t)
  end.

(** [tag.RowsAffected()] of an update, and whether it is one. *)
Definition update_stmt (p : Z → Row → bool) (f : Row → Row) (t : table) : Z * table :=
  (affected p t, update_where p f t).
Definition update_one (p : Z → Row → bool) (f : Row → Row) (t : table) : bool * table :=
  (affected p t =? 1, update_where p f t).

(** ** Claiming *)

Definition claimable (now : Z) (r : Row) : bool :=
  bool_decide (state r = StateAvailable) && (scheduled_at r <=? now).

(** [ORDER BY priority, scheduled_at, id]. *)
Definition claim_before (x y : Z * Row) : bool :=
  if negb (priority x.2 =? priority y.2) then priority x.2 <? priority y.2
  else if negb (scheduled_at x.2 =? scheduled_at y.2) then scheduled_at x.2 <? scheduled_at y.2
  else x.1 <? y.1.

Definition claim_le (x y : Z * Row) : Prop := claim_before y x = false.

#[export] Instance claim_le_dec : RelDecision claim_le.
Proof. intros x y. unfold claim_le. apply _. Defined.

(** What the database decides in a claim: the rows it skips, since other transactions hold
    them locked, and where each updated row comes in what it returns - an [UPDATE] with
    [RETURNING] promises no order. *)
Record picks : Type := mkPicks { skipped : gset Z; place : Z → Z }.

#[export] Instance picks_empty : Empty picks := mkPicks ∅ (λ id, id).

(** The rows of the common table expression. *)
Definition claim_rows (now : Z) (batch : Z) (locked : picks) (t : table) : list (Z * Row) :=
  take (Z.to_nat batch)
    (merge_sort claim_le
       (filter (λ ir : Z * Row, claimable now ir.2 = true ∧ ir.1 ∉ skipped locked)
          (map_to_list (rows t)))).

Definition place_le (locked : picks) (x y : Z * Row) : Prop := place locked x.1 ≤ place locked y.1.

#[export] Instance place_le_dec locked : RelDecision (place_le locked).
Proof. intros x y. unfold place_le. apply _. Defined.

Definition claim_set (workerID : string) (lease now : Z) (r : Row) : Row :=
  append_attempted_by workerID
    (set_heartbeat_at (Some now)
       (set_lock (Some workerID) (Some now) (Some (now + lease))
          (set_attempt (attempt r + 1) (set_state StateRunning r)))).

(** The [RETURNING] columns of the updated row, scanned into a [Job]: the wait comes as a
    float of seconds. *)
Definition returned (now : Z) (id : Z) (r : Row) : Job :=
  mkJob id (kind r) (payload r) (attempt r) (max_attempts r)
    (through_seconds (Z.max (now - scheduled_at r) 0)).

Definition claimSQL (workerID : string) (batch lease now : Z) (locked : picks) (t : table)
  : list Job * table :=
  let c := claim_rows now batch locked t in
  (map (λ ir, returned now ir.1 (claim_set workerID lease now ir.2)) (merge_sort (place_le locked) c),
   update_where (λ id _, bool_decide (id ∈ c.*1)) (claim_set workerID lease now) t).

Definition Claim (io : db) (workerID : string) (batch lease now : Z) (locked : picks)
  (t : table) : result err (list Job) * table :=
  if batch <? 0 then (Err (EWrap "queue: claim: " (ENew "LIMIT must not be negative") ""), t)
  else call io "queue: claim: " (claimSQL workerID batch lease now locked) t.

(** ** Heartbeats and completions *)

Definition held_by (workerID : string) (r : Row) : bool :=
  bool_decide (state r = StateRunning) && bool_decide (locked_by r = Some workerID).

Definition Heartbeat (io : db) (workerID : string) (ids : list Z) (lease now : Z) (t : table)
  : result err Z * table :=
  match ids with
  | [] => (Ok 0, t)
  | _ => call io "queue: heartbeat: "
           (update_stmt (λ id r, bool_decide (id ∈ ids) && held_by workerID r)
              (λ r, set_heartbeat_at (Some now)
                      (set_lock (locked_by r) (locked_at r) (Some (now + lease)) r))) t
  end.

Definition claimGuard (workerID : string) (at_ : Z) (r : Row) : bool :=
  held_by workerID r && (attempt r =? at_).

Definition guarded (workerID : string) (j : Job) (id : Z) (r : Row) : bool :=
  (id =? job_ID j) && claimGuard workerID (job_Attempt j) r.

Definition max_err_text : nat := 1024.

Definition errText (e : option err) : string :=
  match e with
  | None => ""
  | Some e =>
      let s := err_text e in
      if Z.of_nat max_err_text <? len s
      then (String.substring 0 max_err_text s +:+ bytes_string [226; 128; 166]%nat)%string
      else s
  end.

Definition Succeed (io : db) (workerID : string) (j : Job) (now : Z) (t : table)
  : result err bool * table :=
  call io ("queue: succeed job " +:+ itoa (job_ID j) +:+ ": ")%string
    (update_one (guarded workerID j)
       (λ r, unlock (set_finalized_at (Some now) (set_state StateSucceeded r)))) t.

Definition Retry (io : db) (workerID : string) (j : Job) (in_ : Z) (cause : option err) (now : Z)
  (t : table) : result err bool * table :=
  call io ("queue: retry job " +:+ itoa (job_ID j) +:+ ": ")%string
    (update_one (guarded workerID j)
       (λ r, append_error (mkErrorEntry now (attempt r) (Some workerID) (errText cause))
               (unlock (set_scheduled_at (now + in_) (set_state StateRetryable r))))) t.

Definition terminal (io : db) (workerID : string) (j : Job) (st : State) (cause : option err)
  (now : Z) (t : table) : result err bool * table :=
  call io ("queue: " +:+ state_String st +:+ " job " +:+ itoa (job_ID j) +:+ ": ")%string
    (update_one (guarded workerID j)
       (λ r, append_error (mkErrorEntry now (attempt r) (Some workerID) (errText cause))
               (unlock (set_finalized_at (Some now) (set_state st r))))) t.

Definition Cancel (io : db) (workerID : string) (j : Job) (cause : option err) (now : Z) :=
  terminal io workerID j StateCancelled cause now.

Definition Discard (io : db) (workerID : string) (j : Job) (cause : option err) (now : Z) :=
  terminal io workerID j StateDiscarded cause now.

Definition Snooze (io : db) (workerID : string) (j : Job) (in_ now : Z) (t : table)
  : result err bool * table :=
  call io ("queue: snooze job " +:+ itoa (job_ID j) +:+ ": ")%string
    (update_one (guarded workerID j)
       (λ r, unlock (set_scheduled_at (now + in_)
               (set_attempt (attempt r - 1) (set_state StateScheduled r))))) t.

Definition Release (io : db) (workerID : string) (ids : list Z) (t : table)
  : result err Z * table :=
  match ids with
  | [] => (Ok 0, t)
  | _ => call io "queue: release: "
           (update_stmt (λ id r, bool_decide (id ∈ ids) && held_by workerID r)
              (λ r, unlock (set_attempt (attempt r - 1) (set_state StateAvailable r)))) t
  end.

(** ** maintenance.go *)

Definition lease_lapsed (now : Z) (r : Row) : bool :=
  bool_decide (state r = StateRunning)
  && match lease_expires_at r with Some e => e <? now | None => false end.

Definition reap_error : string :=
  "lease expired: the worker holding this job stopped heartbeating".

Definition reap_set (delay cap now : Z) (r : Row) : Row :=
  append_error (mkErrorEntry now (attempt r) (locked_by r) reap_error)
    (set_finalized_at (if max_attempts r <=? attempt r then Some now else None)
       (set_scheduled_at (now + delay)
          (unlock (set_state (if Z.min (max_attempts r) cap <=? attempt r
                              then StateDiscarded else StateRetryable) r)))).

(** The states of the [RETURNING] clause, by row. *)
Definition reapSQL (delay cap now : Z) (t : table) : gmap Z State * table :=
  ((λ r, state (reap_set delay cap now r))
     <$> filter (λ ir : Z * Row, lease_lapsed now ir.2 = true) (rows t),
   update_where (λ _, lease_lapsed now) (reap_set delay cap now) t).

(** [Reap]'s loop over the rows it reads: how many are retryable, how many discarded. *)
Definition reaped (m : gmap Z State) : Z * Z :=
  (Z.of_nat (size (filter (λ ir : Z * State, ir.2 ≠ StateDiscarded) m)),
   Z.of_nat (size (filter (λ ir : Z * State, ir.2 = StateDiscarded) m))).

(** An error of the query is wrapped and comes with no counts; one that ends the rows early,
    after those of [got], comes as it is, with the counts so far. *)
Definition Reap (io : db) (got : option (gset Z)) (delay cap now : Z) (t : table)
  : (Z * Z) * option err * table :=
  let '(m, t') := reapSQL delay cap now t in
  match io, got with
  | DbOk, _ => (reaped m, None, t')
  | DbErr e applied, None => ((0, 0), Some (EWrap "queue: reap: " e ""), if applied then t' else t)
  | DbErr e applied, Some got =>
      (reaped (filter (λ ir : Z * State, ir.1 ∈ got) m), Some e, if applied then t' else t)
  end.

Definition waiting (now : Z) (r : Row) : bool :=
  (bool_decide (state r = StateRetryable) || bool_decide (state r = StateScheduled))
  && (scheduled_at r <=? now).

Definition Schedule (io : db) (now : Z) (t : table) : result err Z * table :=
  call io "queue: schedule: "
    (update_stmt (λ _, waiting now) (set_state StateAvailable)) t.

Definition purgeBatch : nat := Z.to_nat 10_000.

Definition purgeable (succeeded discarded now : Z) (r : Row) : bool :=
  match finalized_at r with
  | None => false
  | Some f =>
      bool_decide (state r = StateSucceeded) && (f <? now - succeeded)
      || (bool_decide (state r = StateCancelled) || bool_decide (state r = StateDiscarded))
         && (f <? now - discarded)
  end.

(** [scan] is the order in which the rows are visited. *)
Definition purge_ids (succeeded discarded now : Z) (scan : list Z) (t : table) : list Z :=
  take purgeBatch
    (filter (λ id, match rows t !! id with
                   | Some r => purgeable succeeded discarded now r
                   | None => false
                   end = true) scan).

Definition purgeSQL (succeeded discarded now : Z) (scan : list Z) (t : table) : Z * table :=
  let ids := purge_ids succeeded discarded now scan t in
  (Z.of_nat (length ids),
   mkTable (filter (λ ir : Z * Row, ir.1 ∉ ids) (rows t)) (next_id t)).

Definition Purge (io : db) (succeeded discarded now : Z) (scan : list Z) (t : table)
  : result err Z * table :=
  call io "queue: purge: " (purgeSQL succeeded discarded now scan) t.

(** ** The partial unique index and the insert of [outbox.Enqueue] *)

Definition live (s : State) : bool :=
  match s with
  | StateAvailable | StateScheduled | StateRunning | StateRetryable => true
  | _ => false
  end.

Definition key_taken (k : string) (t : table) : bool :=
  bool_decide (map_Exists (λ _ r, live (state r) = true ∧ unique_key r = Some k) (rows t)).

Definition insert_row (k p : string) (ukey : option string) (max_ now : Z) : Row :=
  mkRow k p StateAvailable 0 0 max_ now None None None None [] [] ukey now None.

(** [INSERT ... ON CONFLICT DO NOTHING RETURNING id].  [None] in the result is
    no row.  A value of the identity sequence is spent either way. *)
Definition insertSQL (k p ukey : string) (max_ now : Z) (t : table)
  : result err (option Z) * table :=
  let ukey := if decide (ukey = "") then None else Some ukey in
  let max_ := if max_ =? 0 then 5 else max_ in
  let id := next_id t in
  let t' := mkTable (rows t) (id + 1) in
  if max_ <? 1 then (Err (ENew "jobs_max_attempts_check"), t')
  else match ukey with
       | Some key =>
           if key_taken key t then (Ok None, t')
           else (Ok (Some id), mkTable (<[id := insert_row k p ukey max_ now]> (rows t)) (id + 1))
       | None => (Ok (Some id), mkTable (<[id := insert_row k p ukey max_ now]> (rows t)) (id + 1))
       end.

(** ** Backlog statistics *)

Record Stat : Type := mkStat {
  st_Kind : string;
  st_State : State;
  st_Count : Z;
  st_OldestAge : Z;
}.

Definition live_rows (t : table) : list Row :=
  filter (λ r, live (state r) = true) (snd <$> map_to_list (rows t)).

Definition stat_of (now : Z) (rs : list Row) (g : string * State) : Stat :=
  let group := filter (λ r, kind r = g.1 ∧ state r = g.2) rs in
  let oldest := match scheduled_at <$> group with
                | [] => now
                | x :: xs => foldr Z.min x xs
                end in
  mkStat g.1 g.2 (Z.of_nat (length group)) (through_seconds (now - oldest)).

Definition statsSQL (now : Z) (t : table) : list Stat * table :=
  let rs := live_rows t in
  (stat_of now rs <$> remove_dups ((λ r, (kind r, state r)) <$> rs), t).

Definition Stats (io : db) (now : Z) (t : table) : result err (list Stat) * table :=
  call io "queue: stats: " (statsSQL now) t.
