(* ===== verification/JobFacts.v ===== *)
(** * Invariants of the job table

    [apply] runs one statement, [runs] a sequence of them in any order and by
    any workers.  [change] is the life of a single row: every statement either
    leaves a row alone or makes one of its transitions, so each invariant is
    proved once, by cases on [change]. *)
From stdpp Require Import options.
From S2P Require Import Prelude GoStrings Apperr JobStore.

(** ** Statements as data *)

Inductive jop : Type :=
  | JEnqueue (k p ukey : string) (max_ now : Z)
  | JClaim (io : db) (w : string) (batch lease now : Z) (locked : picks)
  | JHeartbeat (io : db) (w : string) (ids : list Z) (lease now : Z)
  | JSucceed (io : db) (w : string) (j : Job) (now : Z)
  | JRetry (io : db) (w : string) (j : Job) (in_ : Z) (cause : option err) (now : Z)
  | JCancel (io : db) (w : string) (j : Job) (cause : option err) (now : Z)
  | JDiscard (io : db) (w : string) (j : Job) (cause : option err) (now : Z)
  | JSnooze (io : db) (w : string) (j : Job) (in_ now : Z)
  | JRelease (io : db) (w : string) (ids : list Z)
  | JReap (io : db) (delay cap now : Z)
  | JSchedule (io : db) (now : Z)
  | JPurge (io : db) (succeeded discarded now : Z) (scan : list Z).

Definition apply (o : jop) (t : table) : table :=
  match o with
  | JEnqueue k p u m now => (insertSQL k p u m now t).2
  | JClaim io w b l now lk => (Claim io w b l now lk t).2
  | JHeartbeat io w ids l now => (Heartbeat io w ids l now t).2
  | JSucceed io w j now => (Succeed io w j now t).2
  | JRetry io w j i c now => (Retry io w j i c now t).2
  | JCancel io w j c now => (Cancel io w j c now t).2
  | JDiscard io w j c now => (Discard io w j c now t).2
  | JSnooze io w j i now => (Snooze io w j i now t).2
  | JRelease io w ids => (Release io w ids t).2
  | JReap io d c now => (Reap io None d c now t).2
  | JSchedule io now => (Schedule io now t).2
  | JPurge io s d now scan => (Purge io s d now scan t).2
  end.

Definition runs (os : list jop) (t : table) : table := foldl (flip apply) t os.

(** The instant at which a statement reads the clock; a release does not. *)
Definition op_now (o : jop) : option Z :=
  match o with
  | JEnqueue _ _ _ _ now | JClaim _ _ _ _ now _ | JHeartbeat _ _ _ _ now
  | JSucceed _ _ _ now | JRetry _ _ _ _ _ now | JCancel _ _ _ _ now
  | JDiscard _ _ _ _ now | JSnooze _ _ _ _ now | JReap _ _ _ now
  | JSchedule _ now | JPurge _ _ _ now _ => Some now
  | JRelease _ _ _ => None
  end.

(** ** The transitions of a row *)

Inductive change (id : Z) (r : Row) : jop → option Row → Prop :=
  | ch_same o : change id r o (Some r)
  | ch_claim io w b l now lk :
      claimable now r = true → change id r (JClaim io w b l now lk) (Some (claim_set w l now r))
  | ch_heartbeat io w ids l now :
      id ∈ ids → held_by w r = true →
      change id r (JHeartbeat io w ids l now)
        (Some (set_heartbeat_at (Some now)
                 (set_lock (locked_by r) (locked_at r) (Some (now + l)) r)))
  | ch_succeed io w j now :
      guarded w j id r = true →
      change id r (JSucceed io w j now)
        (Some (unlock (set_finalized_at (Some now) (set_state StateSucceeded r))))
  | ch_retry io w j i c now :
      guarded w j id r = true →
      change id r (JRetry io w j i c now)
        (Some (append_error (mkErrorEntry now (attempt r) (Some w) (errText c))
                 (unlock (set_scheduled_at (now + i) (set_state StateRetryable r)))))
  | ch_cancel io w j c now :
      guarded w j id r = true →
      change id r (JCancel io w j c now)
        (Some (append_error (mkErrorEntry now (attempt r) (Some w) (errText c))
                 (unlock (set_finalized_at (Some now) (set_state StateCancelled r)))))
  | ch_discard io w j c now :
      guarded w j id r = true →
      change id r (JDiscard io w j c now)
        (Some (append_error (mkErrorEntry now (attempt r) (Some w) (errText c))
                 (unlock (set_finalized_at (Some now) (set_state StateDiscarded r)))))
  | ch_snooze io w j i now :
      guarded w j id r = true →
      change id r (JSnooze io w j i now)
        (Some (unlock (set_scheduled_at (now + i)
                 (set_attempt (attempt r - 1) (set_state StateScheduled r)))))
  | ch_release io w ids :
      id ∈ ids → held_by w r = true →
      change id r (JRelease io w ids)
        (Some (unlock (set_attempt (attempt r - 1) (set_state StateAvailable r))))
  | ch_reap io d c now :
      lease_lapsed now r = true →
      change id r (JReap io d c now) (Some (reap_set d c now r))
  | ch_schedule io now :
      waiting now r = true →
      change id r (JSchedule io now) (Some (set_state StateAvailable r))
  | ch_purge io s d now scan :
      purgeable s d now r = true → change id r (JPurge io s d now scan) None.

(** ** Lookups through a statement *)

Lemma lookup_update (p : Z → Row → bool) (f : Row → Row) (t : table) (id : Z) :
  rows (update_where p f t) !! id = (λ r, if p id r then f r else r) <$> rows t !! id.
Proof. unfold update_where. simpl. rewrite map_lookup_imap. by destruct (rows t !! id). Qed.

Lemma call_snd {A} (io : db) (prefix : string) (stmt : table → A * table) (t : table) :
  (call io prefix stmt t).2 = (stmt t).2 ∨ (call io prefix stmt t).2 = t.
Proof. unfold call. destruct io as [|e []]; [|auto..]. destruct (stmt t); auto. Qed.

(** How much of a reaper's rows is read does not matter to the table. *)
Lemma reap_table (io : db) (got : option (gset Z)) (delay cap now : Z) (t : table) :
  (Reap io got delay cap now t).2 = (call io "" (reapSQL delay cap now) t).2.
Proof. unfold Reap, call. by destruct io as [|e applied], got. Qed.

(** Whatever a driver call leaves behind, a property that holds of the table
    and of the statement's result holds of it. *)
Lemma call_ind {A} (P : table → Prop) (io : db) (prefix : string)
  (stmt : table → A * table) (t : table) :
  P t → P (stmt t).2 → P (call io prefix stmt t).2.
Proof. intros H1 H2. by destruct (call_snd io prefix stmt t) as [-> | ->]. Qed.

Definition changes (o : jop) (t t' : table) : Prop :=
  ∀ id r, rows t !! id = Some r → change id r o (rows t' !! id).

Lemma changes_refl (o : jop) (t : table) : changes o t t.
Proof. intros id r ->. constructor. Qed.

Lemma changes_call {A} (o : jop) (io : db) (prefix : string) (stmt : table → A * table)
  (t : table) : changes o t (stmt t).2 → changes o t (call io prefix stmt t).2.
Proof. intros Hs. by apply (call_ind (changes o t)); [apply changes_refl|]. Qed.

Lemma changes_update (o : jop) (p : Z → Row → bool) (f : Row → Row) (t : table) :
  (∀ id r, rows t !! id = Some r → p id r = true → change id r o (Some (f r))) →
  changes o t (update_where p f t).
Proof.
  intros Hp id r Hr. rewrite lookup_update, Hr. simpl.
  destruct (p id r) eqn:E; [by apply Hp|constructor].
Qed.

Lemma claim_rows_spec (now batch : Z) (locked : picks) (t : table) (id : Z) (r : Row) :
  (id, r) ∈ claim_rows now batch locked t →
  rows t !! id = Some r ∧ claimable now r = true ∧ id ∉ skipped locked.
Proof.
  unfold claim_rows. intros Hin.
  apply (sublist_subseteq _ _ (sublist_take _ _)) in Hin.
  rewrite merge_sort_Permutation in Hin. apply list_elem_of_filter in Hin as [[Hc Hl] Hin].
  by apply elem_of_map_to_list in Hin.
Qed.

Lemma claim_ids_spec (now batch : Z) (locked : picks) (t : table) (id : Z) :
  id ∈ (claim_rows now batch locked t).*1 →
  ∃ r, (id, r) ∈ claim_rows now batch locked t ∧ rows t !! id = Some r
       ∧ claimable now r = true ∧ id ∉ skipped locked.
Proof.
  intros ([id' r] & -> & Hin)%list_elem_of_fmap. exists r. simpl.
  pose proof (claim_rows_spec _ _ _ _ _ _ Hin). tauto.
Qed.

(** A row that was already there undergoes one transition. *)
Lemma apply_changes (o : jop) (t : table) :
  map_Forall (λ id _, id < next_id t) (rows t) → changes o t (apply o t).
Proof.
  intros Hnext.
  destruct o; simpl; unfold Cancel, Discard, terminal, Succeed, Retry, Snooze; rewrite ?reap_table;
    try (apply changes_call, changes_update; intros id' r Hr Hp; by constructor).
  - unfold insertSQL. intros id r Hr. repeat case_match; simpl; try (rewrite Hr; constructor).
    all: rewrite lookup_insert_ne, Hr; [constructor|]; apply Hnext in Hr; lia.
  - unfold Claim. case_match; [apply changes_refl|].
    apply changes_call. apply changes_update. intros id r Hr Hin. zbool.
    apply claim_ids_spec in Hin as (r' & _ & Hr' & Hc & _). simplify_eq. by constructor.
  - unfold Heartbeat. destruct ids as [|i ids]; [apply changes_refl|].
    apply changes_call. apply changes_update. intros id r Hr Hp.
    split_all. zbool. by constructor.
  - unfold Release. destruct ids as [|i ids]; [apply changes_refl|].
    apply changes_call. apply changes_update. intros id r Hr Hp.
    split_all. zbool. by constructor.
  - unfold Purge. apply changes_call. intros id r Hr. unfold purgeSQL. simpl.
    rewrite map_lookup_filter, Hr. simpl. case_guard as Hin; simpl; [constructor|].
    constructor. unfold purge_ids in Hin.
    apply (sublist_subseteq _ _ (sublist_take _ _)), list_elem_of_filter in Hin as [Hp _].
    by rewrite Hr in Hp.
Qed.

(** A row that was not there is a fresh insert. *)
Lemma apply_fresh (o : jop) (t : table) (id : Z) (r : Row) :
  rows t !! id = None → rows (apply o t) !! id = Some r →
  id = next_id t ∧ ∃ k p u m now,
    o = JEnqueue k p u m now ∧ 1 ≤ max_attempts r
    ∧ r = insert_row k p (unique_key r) (max_attempts r) now
    ∧ ∀ key, unique_key r = Some key → key_taken key t = false.
Proof.
  intros Hn Hr.
  assert (Hup : ∀ p f, rows (update_where p f t) !! id = None)
    by (intros; by rewrite lookup_update, Hn).
  assert (Hc : ∀ A io pre (stmt : table → A * table),
    rows (stmt t).2 !! id = None → rows (call io pre stmt t).2 !! id = None)
    by (intros A io pre stmt ?; by apply (call_ind (λ t', rows t' !! id = None))).
  destruct o; simpl in Hr; unfold Cancel, Discard, terminal, Succeed, Retry, Snooze, Schedule in Hr;
    rewrite ?reap_table in Hr;
    try (rewrite Hc in Hr; [done|exact (Hup _ _)]).
  - unfold insertSQL in Hr.
    repeat case_match; simpl in Hr; try congruence;
      apply lookup_insert_Some in Hr as [[<- <-]|[_ ?]]; try congruence; zbool;
      (split; [done|]); do 5 eexists; (split; [done|]); (split; [done|]);
      (split; [done|]); simpl; intros key [= <-]; done.
  - unfold Claim in Hr. case_match; [simpl in Hr; congruence|].
    rewrite Hc in Hr; [done|exact (Hup _ _)].
  - unfold Heartbeat in Hr. destruct ids; [simpl in Hr; congruence|].
    rewrite Hc in Hr; [done|exact (Hup _ _)].
  - unfold Release in Hr. destruct ids; [simpl in Hr; congruence|].
    rewrite Hc in Hr; [done|exact (Hup _ _)].
  - unfold Purge in Hr. rewrite Hc in Hr; [done|]. unfold purgeSQL. simpl.
    by rewrite map_lookup_filter, Hn.
Qed.

Lemma apply_next_id (o : jop) (t : table) : next_id t ≤ next_id (apply o t).
Proof.
  assert (Hc : ∀ A io pre (stmt : table → A * table),
    next_id (stmt t).2 = next_id t → next_id (call io pre stmt t).2 = next_id t)
    by (intros A io pre stmt ?; by apply (call_ind (λ t', next_id t' = next_id t))).
  destruct o; simpl; unfold Cancel, Discard, terminal, Succeed, Retry, Snooze, Schedule, Purge;
    rewrite ?reap_table;
    try (rewrite Hc; [done|reflexivity]).
  - unfold insertSQL. repeat case_match; simpl; lia.
  - unfold Claim. case_match; [simpl; lia|]. rewrite Hc; [done|reflexivity].
  - unfold Heartbeat. destruct ids; [simpl; lia|]. rewrite Hc; [done|reflexivity].
  - unfold Release. destruct ids; [simpl; lia|]. rewrite Hc; [done|reflexivity].
Qed.

(** Identifiers are below the sequence. *)
Definition ids_ok (t : table) : Prop := map_Forall (λ id _, id < next_id t) (rows t).

Lemma apply_ids_ok (o : jop) (t : table) : ids_ok t → ids_ok (apply o t).
Proof.
  intros Hok id r Hr. pose proof (apply_next_id o t) as Hn.
  destruct (rows t !! id) as [r0|] eqn:Hr0; [apply Hok in Hr0; lia|].
  destruct (apply_fresh _ _ _ _ Hr0 Hr) as (-> & k & p & u & m & now & -> & _).
  revert Hr. simpl. unfold insertSQL. repeat case_match; simpl; intros; try lia; congruence.
Qed.

(** ** One row along a sequence of statements *)

(** A predicate of a row that every transition preserves, over the statements
    allowed by [ok], holds of the row for as long as it exists; a purged row
    does not come back. *)
Definition always (id : Z) (I : Row → Prop) (t : table) : Prop :=
  match rows t !! id with Some r => I r | None => id < next_id t end.

Lemma runs_always (ok : jop → Prop) (id : Z) (I : Row → Prop) (os : list jop) (t : table) :
  (∀ o r r', ok o → I r → change id r o (Some r') → I r') →
  Forall ok os → ids_ok t → always id I t → ids_ok (runs os t) ∧ always id I (runs os t).
Proof.
  intros Hstep Hos. revert t. induction Hos as [|o os Ho _ IH]; intros t Hok Hal; [done|].
  change (runs (o :: os) t) with (runs os (apply o t)). apply IH; [by apply apply_ids_ok|]. unfold always in Hal |- *.
  destruct (rows t !! id) as [r|] eqn:Hr.
  - pose proof (apply_changes o t Hok id r Hr) as Hc.
    destruct (rows (apply o t) !! id) as [r'|]; [by eapply Hstep, Hc|].
    pose proof (Hok _ _ Hr). pose proof (apply_next_id o t). simpl in *. lia.
  - destruct (rows (apply o t) !! id) as [r'|] eqn:Hr'.
    + destruct (apply_fresh _ _ _ _ Hr Hr') as [-> _]. lia.
    + pose proof (apply_next_id o t). lia.
Qed.

(** The same for a predicate that also rules out the deletion of the row. *)
Lemma runs_present (ok : jop → Prop) (id : Z) (I : Row → Prop) (os : list jop) (t : table)
  (r : Row) :
  (∀ o r ro, ok o → I r → change id r o ro → ∃ r', ro = Some r' ∧ I r') →
  Forall ok os → ids_ok t → rows t !! id = Some r → I r →
  ∃ r', rows (runs os t) !! id = Some r' ∧ I r'.
Proof.
  intros Hstep Hos. revert t r. induction Hos as [|o os Ho _ IH]; intros t r Hids Hr HI; [eauto|].
  change (runs (o :: os) t) with (runs os (apply o t)).
  destruct (Hstep _ _ _ Ho HI (apply_changes o t Hids id r Hr)) as (r' & Hr' & HI').
  by apply (IH _ r'); [apply apply_ids_ok|..].
Qed.

(** ** Table invariants *)

Definition opt_is {A} (o : option A) : bool :=
  match o with Some _ => true | None => false end.

Definition final (s : State) : bool := negb (live s).

(** A row is locked, with a lease, exactly while it runs; only final rows are
    finalized; a running row has consumed an attempt; every claim is recorded. *)
Record row_ok (r : Row) : Prop := {
  ok_locked : opt_is (locked_by r) = bool_decide (state r = StateRunning);
  ok_locked_at : opt_is (locked_at r) = bool_decide (state r = StateRunning);
  ok_lease : opt_is (lease_expires_at r) = bool_decide (state r = StateRunning);
  ok_finalized : live (state r) = true → finalized_at r = None;
  ok_attempt : 0 ≤ attempt r;
  ok_running : state r = StateRunning → 1 ≤ attempt r;
  ok_attempted : attempt r ≤ Z.of_nat (length (attempted_by r));
  ok_max : 1 ≤ max_attempts r;
}.

Lemma held_by_spec (w : string) (r : Row) :
  held_by w r = true ↔ state r = StateRunning ∧ locked_by r = Some w.
Proof. unfold held_by. by rewrite andb_true_iff, !bool_decide_eq_true. Qed.

Lemma guarded_spec (w : string) (j : Job) (id : Z) (r : Row) :
  guarded w j id r = true ↔
  id = job_ID j ∧ state r = StateRunning ∧ locked_by r = Some w ∧ attempt r = job_Attempt j.
Proof.
  unfold guarded, claimGuard.
  rewrite !andb_true_iff, !Z.eqb_eq, held_by_spec. tauto.
Qed.

Lemma claimable_spec (now : Z) (r : Row) :
  claimable now r = true ↔ state r = StateAvailable ∧ scheduled_at r ≤ now.
Proof. unfold claimable. by rewrite andb_true_iff, bool_decide_eq_true, Z.leb_le. Qed.

Lemma lease_lapsed_spec (now : Z) (r : Row) :
  lease_lapsed now r = true ↔
  state r = StateRunning ∧ ∃ e, lease_expires_at r = Some e ∧ e < now.
Proof.
  unfold lease_lapsed. rewrite andb_true_iff, bool_decide_eq_true.
  destruct (lease_expires_at r) as [e|].
  - rewrite Z.ltb_lt. naive_solver.
  - naive_solver.
Qed.

Lemma waiting_spec (now : Z) (r : Row) :
  waiting now r = true ↔
  (state r = StateRetryable ∨ state r = StateScheduled) ∧ scheduled_at r ≤ now.
Proof.
  unfold waiting. by rewrite andb_true_iff, orb_true_iff, !bool_decide_eq_true, Z.leb_le.
Qed.

Lemma purgeable_spec (s d now : Z) (r : Row) :
  purgeable s d now r = true ↔
  ∃ f, finalized_at r = Some f ∧
    (state r = StateSucceeded ∧ f < now - s
     ∨ (state r = StateCancelled ∨ state r = StateDiscarded) ∧ f < now - d).
Proof.
  unfold purgeable. destruct (finalized_at r) as [f|]; [|naive_solver].
  rewrite orb_true_iff, !andb_true_iff, orb_true_iff, !bool_decide_eq_true, !Z.ltb_lt.
  naive_solver.
Qed.

(** Invert a transition and expose the facts of its guard. *)
Ltac inv_change H :=
  inversion H; subst; clear H; try done;
  repeat match goal with
  | H : guarded _ _ _ _ = true |- _ => apply guarded_spec in H as (? & ? & ? & ?)
  | H : held_by _ _ = true |- _ => apply held_by_spec in H as (? & ?)
  | H : claimable _ _ = true |- _ => apply claimable_spec in H as (? & ?)
  | H : lease_lapsed _ _ = true |- _ => apply lease_lapsed_spec in H as (? & ? & ? & ?)
  | H : waiting _ _ = true |- _ => apply waiting_spec in H as (? & ?)
  | H : purgeable _ _ _ _ = true |- _ => apply purgeable_spec in H as (? & ? & ?)
  end.

Lemma reap_state (d c now : Z) (r : Row) :
  state (reap_set d c now r) = StateDiscarded ∧ Z.min (max_attempts r) c ≤ attempt r
  ∨ state (reap_set d c now r) = StateRetryable ∧ attempt r < Z.min (max_attempts r) c.
Proof. simpl. destruct (_ <=? _) eqn:E; zbool; auto. Qed.

Lemma change_row_ok (id : Z) (r r' : Row) (o : jop) :
  row_ok r → change id r o (Some r') → row_ok r'.
Proof.
  intros [H1 H2 H3 H4 H5 H6 H7 H8] Hc.
  inv_change Hc; try match goal with H : state r = _ |- _ => rewrite H in * end;
    try (match goal with H : _ ∨ _ |- _ => destruct H as [H|H]; rewrite H in * end);
    split; simpl; try match goal with H : state r = _ |- _ => rewrite H end;
    auto; try lia; try done;
    try (specialize (H6 eq_refl); lia); try (rewrite length_app; simpl; lia).
  all: destruct (_ <=? _) eqn:E; simpl; try done. intros _.
  case_match; [|done]. zbool. lia.
Qed.

Definition rows_ok (t : table) : Prop := map_Forall (λ _ r, row_ok r) (rows t).

(** No two live rows have the same key. *)
Definition keys_unique (t : table) : Prop :=
  ∀ id1 id2 r1 r2 k,
    rows t !! id1 = Some r1 → rows t !! id2 = Some r2 →
    live (state r1) = true → live (state r2) = true →
    unique_key r1 = Some k → unique_key r2 = Some k → id1 = id2.

Definition table_ok (t : table) : Prop := ids_ok t ∧ rows_ok t ∧ keys_unique t.

(** The columns no statement changes, and liveness, which no row regains. *)
Lemma change_frozen (id : Z) (r r' : Row) (o : jop) :
  change id r o (Some r') →
  kind r' = kind r ∧ payload r' = payload r ∧ priority r' = priority r
  ∧ max_attempts r' = max_attempts r ∧ unique_key r' = unique_key r
  ∧ created_at r' = created_at r ∧ (live (state r') = true → live (state r) = true).
Proof.
  intros Hc. inv_change Hc; simpl; split_and!; try done; intros _;
    repeat match goal with
    | H : _ ∨ _ |- _ => destruct H
    | H : state r = _ |- _ => rewrite H; done
    end.
Qed.

Lemma insert_row_ok (k p : string) (u : option string) (m now : Z) :
  1 ≤ m → row_ok (insert_row k p u m now).
Proof. split; simpl; try done. Qed.

Lemma apply_rows_ok (o : jop) (t : table) : ids_ok t → rows_ok t → rows_ok (apply o t).
Proof.
  intros Hids Hok id r' Hr'. destruct (rows t !! id) as [r|] eqn:Hr.
  - pose proof (apply_changes o t Hids id r Hr) as Hc. rewrite Hr' in Hc.
    eapply change_row_ok; [|exact Hc]. by eapply Hok.
  - destruct (apply_fresh _ _ _ _ Hr Hr') as (_ & k & p & u & m & now & _ & Hm & -> & _).
    by apply insert_row_ok.
Qed.

Lemma key_taken_false (k : string) (t : table) (id : Z) (r : Row) :
  key_taken k t = false → rows t !! id = Some r → live (state r) = true →
  unique_key r ≠ Some k.
Proof.
  unfold key_taken. intros Hk%bool_decide_eq_false Hr Hl Hu. apply Hk. by exists id, r.
Qed.

Lemma apply_keys_unique (o : jop) (t : table) :
  ids_ok t → keys_unique t → keys_unique (apply o t).
Proof.
  intros Hids Hu.
  assert (Hold : ∀ id r r', rows t !! id = Some r → rows (apply o t) !! id = Some r' →
    unique_key r' = unique_key r ∧ (live (state r') = true → live (state r) = true)).
  { intros id r r' Hr Hr'. pose proof (apply_changes o t Hids id r Hr) as Hc.
    rewrite Hr' in Hc. apply change_frozen in Hc. tauto. }
  intros id1 id2 r1 r2 k H1 H2 L1 L2 K1 K2.
  destruct (rows t !! id1) as [q1|] eqn:Q1, (rows t !! id2) as [q2|] eqn:Q2.
  - destruct (Hold _ _ _ Q1 H1) as [E1 M1], (Hold _ _ _ Q2 H2) as [E2 M2].
    apply (Hu id1 id2 q1 q2 k); auto; congruence.
  - destruct (apply_fresh _ _ _ _ Q2 H2) as (_ & ? & ? & ? & ? & ? & _ & _ & _ & Hk).
    destruct (Hold _ _ _ Q1 H1) as [E1 M1]. exfalso.
    apply (key_taken_false k t id1 q1 (Hk k K2) Q1 (M1 L1)). congruence.
  - destruct (apply_fresh _ _ _ _ Q1 H1) as (_ & ? & ? & ? & ? & ? & _ & _ & _ & Hk).
    destruct (Hold _ _ _ Q2 H2) as [E2 M2]. exfalso.
    apply (key_taken_false k t id2 q2 (Hk k K1) Q2 (M2 L2)). congruence.
  - destruct (apply_fresh _ _ _ _ Q1 H1) as [-> _].
    by destruct (apply_fresh _ _ _ _ Q2 H2) as [-> _].
Qed.

Lemma runs_invariant (I : table → Prop) (os : list jop) (t : table) :
  (∀ o t, I t → I (apply o t)) → I t → I (runs os t).
Proof. intros Hs. revert t. induction os as [|o os IH]; intros t Ht; [done|]. apply IH, Hs, Ht. Qed.

Lemma runs_table_ok (os : list jop) (t : table) : table_ok t → table_ok (runs os t).
Proof.
  apply runs_invariant. intros o t' (Hids & Hok & Hu). split_and!.
  - by apply apply_ids_ok.
  - by apply apply_rows_ok.
  - by apply apply_keys_unique.
Qed.

Definition empty_table : table := mkTable ∅ 1.

Lemma empty_table_ok : table_ok empty_table.
Proof.
  split_and!; [apply map_Forall_empty..|]. 
  intros id1 id2 r1 r2 k H1. simpl in H1. by rewrite lookup_empty in H1.
Qed.
