(* ===== verification/JobProps.v ===== *)
(** * What the job table guarantees

    The claim is exact, a lost lease is fenced off for good, heartbeats keep a
    lease, backoffs are waited for, finished jobs stay finished, snoozing and
    releasing cost no attempt, crashed jobs come back, and the sweep that purges
    deletes only expired history. *)
From stdpp Require Import options.
From S2P Require Import Prelude GoStrings Apperr JobStore JobFacts.

(** ** Lemmas *)

(** A completion write, by its claim. *)
Inductive completion : Type :=
  | CSucceed
  | CRetry (in_ : Z) (cause : option err)
  | CCancel (cause : option err)
  | CDiscard (cause : option err)
  | CSnooze (in_ : Z).

Definition complete (c : completion) (io : db) (w : string) (j : Job) (now : Z) (t : table)
  : result err bool * table :=
  match c with
  | CSucceed => Succeed io w j now t
  | CRetry in_ cause => Retry io w j in_ cause now t
  | CCancel cause => Cancel io w j cause now t
  | CDiscard cause => Discard io w j cause now t
  | CSnooze in_ => Snooze io w j in_ now t
  end.

Lemma affected_zero (p : Z → Row → bool) (t : table) :
  map_Forall (λ id r, p id r = false) (rows t) → affected p t = 0.
Proof.
  intros Hp. unfold affected.
  replace (filter _ (rows t)) with (∅ : gmap Z Row); [by rewrite map_size_empty|].
  symmetry. apply map_empty. intros id. apply map_lookup_filter_None. right.
  intros r Hr. simpl. by rewrite (Hp _ _ Hr).
Qed.

Lemma affected_one (p : Z → Row → bool) (t : table) (id : Z) (r : Row) :
  rows t !! id = Some r → p id r = true → (∀ id' r', p id' r' = true → id' = id) →
  affected p t = 1.
Proof.
  intros Hr Hp Huniq. unfold affected.
  replace (filter _ (rows t)) with ({[ id := r ]} : gmap Z Row); [by rewrite map_size_singleton|].
  apply map_eq. intros id'. symmetry. destruct (decide (id' = id)) as [->|Hne].
  - rewrite lookup_singleton_eq. by apply map_lookup_filter_Some.
  - rewrite lookup_singleton_ne by done. apply map_lookup_filter_None. right.
    intros r' _ Hp'. by apply Huniq in Hp'.
Qed.

Lemma update_where_id (p : Z → Row → bool) (f : Row → Row) (t : table) :
  map_Forall (λ id r, p id r = false) (rows t) → update_where p f t = t.
Proof.
  intros Hp. destruct t as [rs n]. unfold update_where. simpl in *. f_equal.
  apply map_eq. intros id. rewrite map_lookup_imap. destruct (rs !! id) as [r|] eqn:Hr; [|done].
  simpl. by rewrite (Hp _ _ Hr).
Qed.

Lemma guarded_uniq (w : string) (j : Job) (id : Z) (r : Row) :
  guarded w j id r = true → id = job_ID j.
Proof. by intros [? _]%guarded_spec. Qed.

Lemma guarded_nowhere (w : string) (j : Job) (t : table) :
  (∀ r, rows t !! job_ID j = Some r → guarded w j (job_ID j) r = false) →
  map_Forall (λ id r, guarded w j id r = false) (rows t).
Proof.
  intros Hg id r Hr. destruct (guarded w j id r) eqn:E; [|done].
  pose proof (guarded_uniq _ _ _ _ E) as ->. rewrite (Hg r Hr) in E. done.
Qed.

(** A completion whose claim matches no row affects none and changes nothing. *)
Lemma complete_lost (c : completion) (w : string) (j : Job) (now : Z) (t : table) :
  (∀ r, rows t !! job_ID j = Some r → guarded w j (job_ID j) r = false) →
  complete c DbOk w j now t = (Ok false, t).
Proof.
  intros Hg%guarded_nowhere.
  destruct c; simpl; unfold Succeed, Retry, Cancel, Discard, Snooze, terminal, call, update_one;
    by rewrite update_where_id, affected_zero.
Qed.

(** The state a completion writes. *)
Definition completed_state (c : completion) : State :=
  match c with
  | CSucceed => StateSucceeded
  | CRetry _ _ => StateRetryable
  | CCancel _ => StateCancelled
  | CDiscard _ => StateDiscarded
  | CSnooze _ => StateScheduled
  end.

Lemma complete_held (c : completion) (w : string) (j : Job) (now : Z) (t : table) (r : Row) :
  rows t !! job_ID j = Some r → guarded w j (job_ID j) r = true →
  (complete c DbOk w j now t).1 = Ok true.
Proof.
  intros Hr Hg.
  assert (Ha : affected (guarded w j) t = 1)
    by (by eapply affected_one; [..|apply guarded_uniq]).
  destruct c; simpl; unfold Succeed, Retry, Cancel, Discard, Snooze, terminal, call, update_one;
    by rewrite Ha.
Qed.

(** ** Claims are ordered *)

Lemma claim_before_trans (x y z : Z * Row) :
  claim_before x y = true → claim_before y z = true → claim_before x z = true.
Proof.
  unfold claim_before. repeat case_match; rewrite ?negb_true_iff, ?negb_false_iff in *;
    zbool; intros; zbool; try lia.
Qed.

Lemma claim_before_spec (x y : Z * Row) :
  claim_before x y = true ↔
  priority x.2 < priority y.2
  ∨ priority x.2 = priority y.2
    ∧ (scheduled_at x.2 < scheduled_at y.2
       ∨ scheduled_at x.2 = scheduled_at y.2 ∧ x.1 < y.1).
Proof.
  unfold claim_before. repeat case_match; rewrite ?negb_true_iff, ?negb_false_iff in *;
    zbool; rewrite ?Z.ltb_lt; lia.
Qed.

#[export] Instance claim_le_total : Total claim_le.
Proof.
  intros x y. unfold claim_le.
  destruct (claim_before x y) eqn:E1, (claim_before y x) eqn:E2; auto.
  apply claim_before_spec in E1, E2. lia.
Qed.

#[export] Instance claim_le_trans : Transitive claim_le.
Proof.
  intros x y z. unfold claim_le. rewrite <- !not_true_iff_false, !claim_before_spec. lia.
Qed.

(** What is left out of the first [n] of a sorted list follows all of them. *)
Lemma StronglySorted_take_after {A} (R : A → A → Prop) (l : list A) (n : nat) (x y : A) :
  StronglySorted R l → x ∈ take n l → y ∈ drop n l → R x y.
Proof.
  intros Hs. revert n. induction Hs as [|a l Hs IH Hall]; intros [|n]; simpl.
  - by intros ?%elem_of_nil.
  - by intros ?%elem_of_nil.
  - by intros ?%elem_of_nil.
  - intros [->|Hx]%elem_of_cons Hy; [|by eapply IH].
    rewrite Forall_forall in Hall. apply Hall. by eapply subseteq_drop.
Qed.

Lemma claim_rows_complete (now batch : Z) (locked : picks) (t : table) (id : Z) (r : Row) :
  rows t !! id = Some r → claimable now r = true → id ∉ skipped locked →
  (id, r) ∉ claim_rows now batch locked t →
  Z.of_nat (length (claim_rows now batch locked t)) = Z.max 0 batch
  ∧ ∀ x, x ∈ claim_rows now batch locked t → claim_before x (id, r) = true.
Proof.
  intros Hr Hc Hl Hnot. unfold claim_rows in *. set (l := merge_sort _ _) in *.
  assert (Hin : (id, r) ∈ l).
  { unfold l. rewrite merge_sort_Permutation. apply list_elem_of_filter.
    split; [done|]. by apply elem_of_map_to_list. }
  assert (Hs : StronglySorted claim_le l) by (apply StronglySorted_merge_sort; apply _).
  assert (Hd : (id, r) ∈ drop (Z.to_nat batch) l).
  { rewrite <- (take_drop (Z.to_nat batch) l) in Hin.
    apply elem_of_app in Hin as [?|?]; done. }
  split.
  - rewrite length_take. apply list_elem_of_lookup_1 in Hd as [i Hi].
    apply lookup_lt_Some in Hi. rewrite length_drop in Hi. lia.
  - intros x Hx. pose proof (StronglySorted_take_after _ _ _ _ _ Hs Hx Hd) as Hle.
    unfold claim_le in Hle. destruct (claim_before x (id, r)) eqn:E; [done|]. exfalso.
    assert (x.1 = id) as Hxid.
    { rewrite <- not_true_iff_false, claim_before_spec in Hle, E. simpl in *. lia. }
    apply Hnot. destruct x as [i r']. simpl in Hxid. subst i.
    assert (r' = r) as ->; [|done].
    assert ((id, r') ∈ l) as Hin' by (by eapply subseteq_take).
    unfold l in Hin'. rewrite merge_sort_Permutation in Hin'.
    apply list_elem_of_filter in Hin' as [_ Hin'%elem_of_map_to_list]. congruence.
Qed.

(** ** Fencing *)

(** What stays true of a row once the claim of attempt [a] was taken back. *)
Definition past (a : Z) (r : Row) : Prop :=
  a ≤ attempt r ∧ (state r = StateRunning → a < attempt r).

Lemma past_change (a : Z) (id : Z) (r r' : Row) (o : jop) :
  past a r → change id r o (Some r') → past a r'.
Proof.
  intros [H1 H2] Hc. inv_change Hc; unfold past; simpl;
    try match goal with H : state r = _ |- _ => rewrite H in *; specialize (H2 eq_refl) end;
    split; try lia; try (intros; discriminate).
Qed.

Lemma past_unguarded (w : string) (j : Job) (r : Row) :
  past (job_Attempt j) r → guarded w j (job_ID j) r = false.
Proof.
  intros [_ H]. apply not_true_iff_false. intros (_ & Hs & _ & Ha)%guarded_spec.
  specialize (H Hs). lia.
Qed.

Lemma apply_reap_row (delay cap now : Z) (t : table) (id : Z) (r : Row) :
  rows t !! id = Some r → lease_lapsed now r = true →
  rows (apply (JReap DbOk delay cap now) t) !! id = Some (reap_set delay cap now r).
Proof.
  intros Hr Hl. change (rows (update_where (λ _, lease_lapsed now) (reap_set delay cap now) t)
    !! id = Some (reap_set delay cap now r)).
  rewrite lookup_update, Hr. simpl. by rewrite Hl.
Qed.

(** C3: the stale-worker fence.  Once the reaper has taken back a lapsed lease,
    no completion the old worker attempts under that claim ever matches the row
    again: after any statements by any workers, including that worker claiming
    the job anew, the write affects no row and changes nothing. *)
Theorem lease_fenced (t : table) (id : Z) (r : Row) (w : string) (j : Job)
  (delay cap now now' : Z) (os : list jop) (c : completion) :
  ids_ok t → rows t !! id = Some r → lease_lapsed now r = true →
  job_ID j = id → job_Attempt j = attempt r →
  let t' := runs os (apply (JReap DbOk delay cap now) t) in
  complete c DbOk w j now' t' = (Ok false, t').
Proof.
  intros Hids Hr Hl Hj Ha t'. apply complete_lost. rewrite Hj.
  destruct (runs_always (λ _, True) id (past (attempt r)) os
              (apply (JReap DbOk delay cap now) t)) as [_ Hal].
  - intros o q q' _. apply past_change.
  - by apply Forall_true.
  - by apply apply_ids_ok.
  - unfold always. rewrite (apply_reap_row _ _ _ _ _ _ Hr Hl).
    unfold past. simpl. split; [lia|]. destruct (_ <=? _); discriminate.
  - intros q Hq. fold t' in Hal. unfold always in Hal. rewrite Hq in Hal.
    rewrite <- Hj. apply past_unguarded. by rewrite Ha.
Qed.

(** Which worker a statement locks rows for. *)
Definition claims_for (w : string) (o : jop) : Prop :=
  match o with JClaim _ w' _ _ _ _ => w' = w | _ => False end.

Definition unheld (w : string) (r : Row) : Prop := held_by w r = false.

Lemma unheld_change (w : string) (id : Z) (r r' : Row) (o : jop) :
  ¬ claims_for w o → unheld w r → change id r o (Some r') → unheld w r'.
Proof.
  unfold unheld. rewrite <- !not_true_iff_false, !held_by_spec. intros Ho HI Hc [Hs Hl].
  apply HI. inv_change Hc; simpl in *; auto. by simplify_eq.
Qed.

Lemma apply_release_row (w : string) (ids : list Z) (t : table) (id : Z) (r : Row) :
  rows t !! id = Some r → id ∈ ids →
  ∃ r', rows (apply (JRelease DbOk w ids) t) !! id = Some r' ∧ unheld w r'.
Proof.
  intros Hr Hin. destruct ids as [|i ids]; [by apply elem_of_nil in Hin|].
  exists (if held_by w r then unlock (set_attempt (attempt r - 1) (set_state StateAvailable r))
          else r).
  split; [|unfold unheld; by destruct (held_by w r) eqn:E].
  etransitivity; [apply lookup_update|]. rewrite Hr. simpl.
  by rewrite bool_decide_eq_true_2.
Qed.

(** The clean-shutdown fence.  Once a worker has released its jobs, whatever
    its dying handlers still report is refused, as long as that worker claims
    nothing more. *)
Lemma release_fenced (t : table) (w : string) (ids : list Z) (r : Row) (j : Job) (now : Z)
  (os : list jop) (c : completion) :
  ids_ok t → rows t !! job_ID j = Some r → job_ID j ∈ ids →
  Forall (λ o, ¬ claims_for w o) os →
  let t' := runs os (apply (JRelease DbOk w ids) t) in
  complete c DbOk w j now t' = (Ok false, t').
Proof.
  intros Hids Hr Hin Hos t'. apply complete_lost.
  destruct (apply_release_row w ids t _ _ Hr Hin) as (r1 & Hr1 & Hun).
  destruct (runs_always (λ o, ¬ claims_for w o) (job_ID j) (unheld w) os
              (apply (JRelease DbOk w ids) t)) as [_ Hal].
  - intros o q q'. apply unheld_change.
  - done.
  - by apply apply_ids_ok.
  - unfold always. by rewrite Hr1.
  - intros q Hq. fold t' in Hal. unfold always in Hal. rewrite Hq in Hal.
    unfold guarded, claimGuard. by rewrite Hal, andb_false_r.
Qed.

(** ** Exclusion under a live lease *)

(** The lease of attempt [a] of worker [w], good until [until]. *)
Definition holds (w : string) (a until : Z) (r : Row) : Prop :=
  state r = StateRunning ∧ locked_by r = Some w ∧ attempt r = a
  ∧ ∃ e, lease_expires_at r = Some e ∧ until ≤ e.

(** Statements other than the holder's own completion of job [id], its release,
    a heartbeat of its that would end the lease sooner, and a reap after the
    lease ends. *)
Definition others (w : string) (id until : Z) (o : jop) : Prop :=
  match o with
  | JSucceed _ w' j _ | JRetry _ w' j _ _ _ | JCancel _ w' j _ _
  | JDiscard _ w' j _ _ | JSnooze _ w' j _ _ => w' = w → job_ID j ≠ id
  | JRelease _ w' ids => w' = w → id ∉ ids
  | JHeartbeat _ w' _ lease now => w' = w → until ≤ now + lease
  | JReap _ _ _ now => now ≤ until
  | _ => True
  end.

Lemma holds_change (w : string) (a until : Z) (id : Z) (r : Row) (o : jop) (ro : option Row) :
  others w id until o → holds w a until r → change id r o ro →
  ∃ r', ro = Some r' ∧ holds w a until r'.
Proof.
  intros Ho (Hs & Hl & Ha & e & He & Hu) Hc.
  inv_change Hc; simpl in Ho; simplify_eq; try congruence;
    try (exfalso; apply Ho; congruence).
  - eexists. split; [done|]. by split_and!; eauto.
  - eexists. split; [done|]. split_and!; simpl; auto. exists (now + l). auto.
  - exfalso. lia.
  - exfalso. match goal with H : state r = _ ∨ _ |- _ => destruct H; congruence end.
  - exfalso. intuition congruence.
Qed.

(** C4: mutual exclusion and the heartbeat.  A job held under a lease stays with
    its holder, at the same attempt, through any statements of other workers,
    through heartbeats, and through every sweep of the reaper that runs before
    the lease ends: nobody else can claim, finish, release or reclaim it. *)
Theorem lease_exclusive (t : table) (id : Z) (r : Row) (w : string) (a until : Z)
  (os : list jop) :
  ids_ok t → rows t !! id = Some r → holds w a until r →
  Forall (others w id until) os →
  ∃ r', rows (runs os t) !! id = Some r' ∧ holds w a until r'.
Proof. intros Hids Hr Hh Hos. eapply runs_present; eauto using holds_change. Qed.

(** ** Backoff and finished jobs *)

Lemma idle_change (at_ : Z) (id : Z) (r : Row) (o : jop) (ro : option Row) :
  live (state r) = true → state r ≠ StateRunning → finalized_at r = None →
  (∀ now, op_now o = Some now → now < scheduled_at r) →
  change id r o ro → ro = Some r.
Proof.
  intros Hl Hs Hf Ho Hc.
  inv_change Hc; simpl in Ho; try congruence; specialize (Ho _ eq_refl); try lia; congruence.
Qed.

(** A backoff is waited out.  Whatever runs before a waiting job's
    [scheduled_at] - claims, scheduler and reaper sweeps, purges, completions of
    other jobs - leaves its row exactly as it is; in particular a failed job
    cannot be claimed again at once. *)
Lemma backoff_respected (t : table) (id : Z) (r : Row) (os : list jop) :
  table_ok t → rows t !! id = Some r → live (state r) = true → state r ≠ StateRunning →
  Forall (λ o, ∀ now, op_now o = Some now → now < scheduled_at r) os →
  rows (runs os t) !! id = Some r.
Proof.
  intros (Hids & Hok & _) Hr Hl Hs Hos.
  destruct (runs_present (λ o, ∀ now, op_now o = Some now → now < scheduled_at r) id
              (λ q, q = r) os t r) as (r' & Hr' & ->); auto.
  intros o q ro Ho -> Hc. exists r. split; [|done].
  eapply idle_change; eauto. by apply (Hok id r Hr).
Qed.

(** A finished job stays as it was finished until it is purged, and then
    stays gone: no statement revives, reruns or rewrites it. *)
Lemma finished_frozen (t : table) (id : Z) (r : Row) (os : list jop) :
  ids_ok t → rows t !! id = Some r → live (state r) = false →
  rows (runs os t) !! id = Some r ∨ rows (runs os t) !! id = None.
Proof.
  intros Hids Hr Hl.
  destruct (runs_always (λ _, True) id (λ q, q = r) os t) as [_ Hal].
  - intros o q q' _ -> Hc.
    inv_change Hc; repeat match goal with
      | H : _ ∨ _ |- _ => destruct H
      | H : state r = _ |- _ => rewrite H in Hl; done
      end.
  - by apply Forall_true.
  - done.
  - unfold always. by rewrite Hr.
  - unfold always in Hal. destruct (rows (runs os t) !! id); [left; by f_equal|by right].
Qed.

(** ** Claims *)

Lemma claim_rows_NoDup (now batch : Z) (locked : picks) (t : table) :
  NoDup (claim_rows now batch locked t).*1.
Proof.
  eapply sublist_NoDup; [|apply fmap_sublist, sublist_take].
  rewrite (merge_sort_Permutation claim_le). eapply sublist_NoDup.
  - apply (NoDup_fst_map_to_list (rows t)).
  - apply fmap_sublist, sublist_filter.
Qed.

Lemma claim_row (io : db) (w : string) (batch lease now : Z) (locked : picks) (t : table)
  (id : Z) (r : Row) :
  0 ≤ batch → (id, r) ∈ claim_rows now batch locked t →
  rows (Claim DbOk w batch lease now locked t).2 !! id = Some (claim_set w lease now r).
Proof.
  intros Hb Hin. unfold Claim. replace (batch <? 0) with false by (symmetry; zbool; lia).
  etransitivity; [apply lookup_update|].
  destruct (claim_rows_spec _ _ _ _ _ _ Hin) as [-> _]. simpl.
  rewrite bool_decide_eq_true_2; [done|]. by apply (list_elem_of_fmap_2 fst _ _ Hin).
Qed.

(** What a claim returns are the rows of the common table expression, in some order. *)
Lemma claimed_perm (w : string) (batch lease now : Z) (locked : picks) (t : table) :
  (claimSQL w batch lease now locked t).1
  ≡ₚ map (λ ir, returned now ir.1 (claim_set w lease now ir.2)) (claim_rows now batch locked t).
Proof. simpl. apply Permutation_map, merge_sort_Permutation. Qed.

Lemma claimed_ids (w : string) (batch lease now : Z) (locked : picks) (t : table) :
  job_ID <$> (claimSQL w batch lease now locked t).1 ≡ₚ (claim_rows now batch locked t).*1.
Proof. rewrite claimed_perm. by rewrite <- list_fmap_compose. Qed.

Lemma elem_of_claimed (w : string) (batch lease now : Z) (locked : picks) (t : table) (j : Job) :
  j ∈ (claimSQL w batch lease now locked t).1 ↔
  ∃ id r, j = returned now id (claim_set w lease now r) ∧ (id, r) ∈ claim_rows now batch locked t.
Proof.
  rewrite claimed_perm. split.
  - intros ([id r] & -> & Hin)%list_elem_of_fmap. eauto.
  - intros (id & r & -> & Hin). apply list_elem_of_fmap. by exists (id, r).
Qed.

(** C7: a claim is exact.  The jobs returned are distinct, at most the batch;
    each was available, due and unlocked, and is now running under this worker
    and a fresh lease with one more attempt, as reported; every other row is
    untouched; and a claimable job is left behind only when the batch is full of
    jobs that go before it in (priority, scheduled_at, id) order.  The order in which
    the jobs come back is the database's choice. *)
Theorem claim_exact (w : string) (batch lease now : Z) (locked : picks) (t : table) :
  0 ≤ batch →
  ∃ js t', Claim DbOk w batch lease now locked t = (Ok js, t')
    ∧ NoDup (job_ID <$> js) ∧ Z.of_nat (length js) ≤ batch
    ∧ (∀ j, j ∈ js → ∃ r,
         rows t !! job_ID j = Some r ∧ state r = StateAvailable ∧ scheduled_at r ≤ now
         ∧ (job_ID j ∉ skipped locked) ∧ j = returned now (job_ID j) (claim_set w lease now r)
         ∧ job_Attempt j = attempt r + 1 ∧ job_Kind j = kind r ∧ job_Payload j = payload r
         ∧ job_MaxAttempts j = max_attempts r
         ∧ rows t' !! job_ID j = Some (claim_set w lease now r)
         ∧ holds w (attempt r + 1) (now + lease) (claim_set w lease now r))
    ∧ (∀ id, id ∉ (job_ID <$> js) → rows t' !! id = rows t !! id)
    ∧ (∀ id r, rows t !! id = Some r → claimable now r = true → id ∉ skipped locked →
         id ∉ (job_ID <$> js) →
         Z.of_nat (length js) = batch
         ∧ ∀ j q, j ∈ js → rows t !! job_ID j = Some q →
             claim_before (job_ID j, q) (id, r) = true).
Proof.
  intros Hb. exists (claimSQL w batch lease now locked t).1, (claimSQL w batch lease now locked t).2.
  pose proof (claimed_ids w batch lease now locked t) as Hids.
  assert (Hlen : length (claimSQL w batch lease now locked t).1 = length (claim_rows now batch locked t))
    by (rewrite claimed_perm; apply length_map).
  split; [|split; [|split; [|split; [|split]]]].
  - unfold Claim. by replace (batch <? 0) with false by (symmetry; zbool; lia).
  - rewrite Hids. apply claim_rows_NoDup.
  - rewrite Hlen. unfold claim_rows. rewrite length_take. lia.
  - intros j (id & r & -> & Hin)%elem_of_claimed. simpl. exists r.
    destruct (claim_rows_spec _ _ _ _ _ _ Hin) as (Hr & [Hs Hd]%claimable_spec & Hl).
    pose proof (claim_row DbOk w batch lease now locked t id r Hb Hin) as H.
    unfold Claim in H. replace (batch <? 0) with false in H by (symmetry; zbool; lia).
    split_and!; try done. unfold holds. split_and!; try done. exists (now + lease). split; [done|lia].
  - intros id Hid. rewrite Hids in Hid. etransitivity; [apply lookup_update|].
    destruct (rows t !! id); [simpl|done]. by rewrite bool_decide_eq_false_2.
  - intros id r Hr Hc Hl Hid. rewrite Hids in Hid.
    assert (Hnot : (id, r) ∉ claim_rows now batch locked t)
      by (intros Hin; apply Hid, (list_elem_of_fmap_2 fst _ _ Hin)).
    destruct (claim_rows_complete _ _ _ _ _ _ Hr Hc Hl Hnot) as [Hn Hbefore]. split; [lia|].
    intros j q (id' & r' & -> & Hin)%elem_of_claimed Hq. simpl in *.
    destruct (claim_rows_spec _ _ _ _ _ _ Hin) as [Hr' _]. simplify_eq. by apply Hbefore.
Qed.

(** ** Attempts are given back *)

Lemma complete_row (c : completion) (w : string) (j : Job) (now : Z) (t : table) (r : Row) :
  rows t !! job_ID j = Some r → guarded w j (job_ID j) r = true →
  ∃ r', rows (complete c DbOk w j now t).2 !! job_ID j = Some r'
    ∧ state r' = completed_state c
    ∧ attempt r' = (match c with CSnooze _ => attempt r - 1 | _ => attempt r end)
    ∧ scheduled_at r' = (match c with CSnooze d | CRetry d _ => now + d | _ => scheduled_at r end)
    ∧ finalized_at r' = (match c with CSnooze _ | CRetry _ _ => finalized_at r | _ => Some now end)
    ∧ locked_by r' = None ∧ lease_expires_at r' = None
    ∧ attempted_by r' = attempted_by r
    ∧ errors r' = (errors r ++
        match c with
        | CRetry _ e | CCancel e | CDiscard e => [mkErrorEntry now (attempt r) (Some w) (errText e)]
        | _ => []
        end).
Proof.
  intros Hr Hg. destruct c; (eexists; split;
    [etransitivity; [apply lookup_update|]; rewrite Hr; simpl; by rewrite Hg|]);
    simpl; rewrite ?app_nil_r; split_and!; done.
Qed.

(** A snooze or a release costs no attempt: a job claimed and then snoozed or
    released by its holder has the attempt count and error history it had
    before the claim, and is due again after the snooze or at once. *)
Lemma attempt_refunded (w : string) (batch lease now d now' : Z) (locked : picks)
  (t t1 : table) (js : list Job) (j : Job) (r : Row) :
  0 ≤ batch → Claim DbOk w batch lease now locked t = (Ok js, t1) → j ∈ js →
  rows t !! job_ID j = Some r →
  (∃ r', rows (Snooze DbOk w j d now' t1).2 !! job_ID j = Some r'
     ∧ state r' = StateScheduled ∧ scheduled_at r' = now' + d
     ∧ attempt r' = attempt r ∧ errors r' = errors r)
  ∧ (∃ r', rows (Release DbOk w [job_ID j] t1).2 !! job_ID j = Some r'
     ∧ state r' = StateAvailable ∧ scheduled_at r' = scheduled_at r
     ∧ attempt r' = attempt r ∧ errors r' = errors r).
Proof.
  intros Hb Hc Hj Hr.
  assert (Hj' := Hc). unfold Claim in Hj'.
  replace (batch <? 0) with false in Hj' by (symmetry; zbool; lia).
  assert (Hjs : (claimSQL w batch lease now locked t).1 = js) by (by injection Hj' as <- _).
  rewrite <- Hjs in Hj. apply elem_of_claimed in Hj as (id & q & -> & Hin). simpl in Hr.
  destruct (claim_rows_spec _ _ _ _ _ _ Hin) as (Hq & _).
  assert (q = r) as -> by congruence.
  assert (Hrow : rows t1 !! id = Some (claim_set w lease now r)).
  { pose proof (claim_row DbOk w batch lease now locked t id r Hb Hin) as H.
    by rewrite Hc in H. }
  assert (Hheld : held_by w (claim_set w lease now r) = true) by by apply held_by_spec.
  split.
  - destruct (complete_row (CSnooze d) w (returned now id (claim_set w lease now r)) now' t1
      (claim_set w lease now r)) as (r' & Hr' & Hs & Ha & Hsch & _ & _ & _ & _ & He);
      [done|by apply guarded_spec|].
    exists r'. simpl in Hr', Hs, Ha, Hsch, He. rewrite app_nil_r in He.
    split_and!; auto. rewrite Ha. simpl. lia.
  - eexists. split; [etransitivity; [apply lookup_update|]; simpl job_ID; rewrite Hrow; simpl;
      rewrite Hheld, bool_decide_eq_true_2 by (by left); done|].
    simpl. split_and!; try done. lia.
Qed.

(** ** Recovery *)

Lemma schedule_row (now : Z) (t : table) (id : Z) (r : Row) :
  rows t !! id = Some r → waiting now r = true →
  rows (apply (JSchedule DbOk now) t) !! id = Some (set_state StateAvailable r).
Proof.
  intros Hr Hw. etransitivity; [apply lookup_update|]. rewrite Hr. simpl. by rewrite Hw.
Qed.

(** The claimable rows that go before a job. *)
Definition ahead (now : Z) (locked : picks) (t : table) (id : Z) (r : Row) : list (Z * Row) :=
  filter (λ ir : Z * Row, claimable now ir.2 = true ∧ (ir.1 ∉ skipped locked)
                          ∧ claim_before ir (id, r) = true) (map_to_list (rows t)).

Lemma claim_takes (w : string) (batch lease now : Z) (locked : picks) (t : table)
  (id : Z) (r : Row) :
  Z.of_nat (length (ahead now locked t id r)) < batch → rows t !! id = Some r →
  claimable now r = true → id ∉ skipped locked → (id, r) ∈ claim_rows now batch locked t.
Proof.
  intros Hb Hr Hc Hl. destruct (decide ((id, r) ∈ claim_rows now batch locked t)) as [|Hn]; [done|].
  destruct (claim_rows_complete _ _ _ _ _ _ Hr Hc Hl Hn) as [Hlen Hbefore]. exfalso.
  assert (length (claim_rows now batch locked t) ≤ length (ahead now locked t id r))%nat; [|lia].
  apply submseteq_length, NoDup_submseteq.
  - apply (NoDup_fmap_1 fst), claim_rows_NoDup.
  - intros [i q] Hx. pose proof (claim_rows_spec _ _ _ _ _ _ Hx) as (Hq & Hcq & Hlq).
    apply list_elem_of_filter. split; [by auto|]. by apply elem_of_map_to_list.
Qed.

(** C13: a crashed worker's job comes back.  Once its lease has lapsed one reaper sweep takes
    it back.  A job with attempts left is then due after the backoff, and whatever
    statements run until then leave it alone; the first scheduler sweep after that makes it
    claimable, and the next claim takes it if fewer claimable jobs go before it than the
    batch holds: it runs at the next attempt under the new worker, the lost one in its
    history.  A job whose attempts are spent - against its own budget or the fleet's
    ceiling - is discarded instead, and stays so. *)
Theorem crash_recovered (t : table) (id : Z) (r : Row) (delay cap now : Z) (os : list jop) :
  table_ok t → rows t !! id = Some r → lease_lapsed now r = true →
  let t1 := runs os (apply (JReap DbOk delay cap now) t) in
  let lost := mkErrorEntry now (attempt r) (locked_by r) reap_error in
  (attempt r < Z.min (max_attempts r) cap →
   Forall (λ o, ∀ x, op_now o = Some x → x < now + delay) os →
   ∀ now2 now3 w batch lease locked,
     now + delay ≤ now2 → now2 ≤ now3 → id ∉ skipped locked →
     let t2 := apply (JSchedule DbOk now2) t1 in
     (∀ r2, rows t2 !! id = Some r2 →
            (Z.of_nat (length (ahead now3 locked t2 id r2)) < batch)%Z) →
     ∃ r', rows (apply (JClaim DbOk w batch lease now3 locked) t2) !! id = Some r'
       ∧ holds w (attempt r + 1) (now3 + lease) r' ∧ errors r' = errors r ++ [lost])
  ∧ (Z.min (max_attempts r) cap ≤ attempt r →
     rows t1 !! id = None
     ∨ ∃ r', rows t1 !! id = Some r' ∧ state r' = StateDiscarded ∧ locked_by r' = None
         ∧ attempt r' = attempt r ∧ errors r' = errors r ++ [lost]).
Proof.
  intros Hok Hr Hl t1 lost. set (t0 := apply (JReap DbOk delay cap now) t) in *.
  pose proof (apply_reap_row delay cap now t id r Hr Hl) as H1. fold t0 in H1.
  assert (Hok0 : table_ok t0) by (by apply (runs_table_ok [JReap DbOk delay cap now])).
  split.
  - intros Ha Hos now2 now3 w batch lease locked Hn2 Hn3 Hlk t2 Hroom.
    destruct (reap_state delay cap now r) as [[_ ?]|[Hs _]]; [lia|].
    assert (H2 : rows t1 !! id = Some (reap_set delay cap now r)).
    { apply backoff_respected; [done|done|by rewrite Hs|by rewrite Hs|done]. }
    assert (H3 : rows t2 !! id = Some (set_state StateAvailable (reap_set delay cap now r))).
    { apply schedule_row; [done|]. apply waiting_spec. split; [by left|done]. }
    pose proof (Hroom _ H3) as Hb.
    eexists. split; [apply (claim_row DbOk); [lia|apply claim_takes; [done..| |done]]|].
    + apply claimable_spec. split; [done|simpl; lia].
    + split; [|done]. unfold holds. split_and!; try done. exists (now3 + lease). split; [done|lia].
  - intros Ha. destruct (reap_state delay cap now r) as [[Hs ?]|[_ ?]]; [|lia].
    destruct (finished_frozen t0 id _ os (proj1 Hok0) H1) as [Hf|Hf]; [by rewrite Hs| |by left].
    right. eexists. split; [exact Hf|]. by split_and!.
Qed.

(** ** Retention *)

Lemma purge_ids_spec (s d now : Z) (scan : list Z) (t : table) (id : Z) :
  id ∈ purge_ids s d now scan t →
  ∃ r, rows t !! id = Some r ∧ purgeable s d now r = true ∧ id ∈ scan.
Proof.
  unfold purge_ids.
  intros [Hp Hin]%(subseteq_take _ _ _)%list_elem_of_filter.
  destruct (rows t !! id) as [r|]; [eauto|done].
Qed.

(** A purge deletes only finished jobs past their retention, at most one
    batch of them, and leaves every other row as it was; a scan of the whole
    table with no more expired rows than a batch deletes all of them. *)
Lemma purge_safe (s d now : Z) (scan : list Z) (t : table) :
  ∃ n t', Purge DbOk s d now scan t = (Ok n, t') ∧ n ≤ 10_000
    ∧ (∀ id r, rows t !! id = Some r →
         rows t' !! id = Some r
         ∨ rows t' !! id = None ∧ purgeable s d now r = true)
    ∧ (∀ id, rows t !! id = None → rows t' !! id = None)
    ∧ ((length scan ≤ purgeBatch)%nat →
       ∀ id r, id ∈ scan → rows t !! id = Some r → purgeable s d now r = true →
         rows t' !! id = None).
Proof.
  exists (purgeSQL s d now scan t).1, (purgeSQL s d now scan t).2. split_and!; [done|..].
  - simpl. unfold purge_ids. rewrite length_take.
    pose proof (Nat.le_min_l purgeBatch
      (length (filter (λ id, match rows t !! id with
                             | Some r => purgeable s d now r
                             | None => false
                             end = true) scan))) as H.
    apply inj_le in H. etransitivity; [exact H|]. unfold purgeBatch. lia.
  - intros id r Hr. simpl. rewrite map_lookup_filter, Hr. simpl.
    case_guard as Hin; simpl; [by left|right]. split; [done|].
    destruct (purge_ids_spec _ _ _ _ _ _ Hin) as (r' & Hr' & Hp & _). by simplify_eq.
  - intros id Hr. simpl. by rewrite map_lookup_filter, Hr.
  - intros Hlen id r Hin Hr Hp. simpl. rewrite map_lookup_filter, Hr. simpl.
    case_guard as Hin'; simpl; [|done]. destruct Hin'. unfold purge_ids.
    rewrite take_ge by (etransitivity; [apply length_filter|done]).
    apply list_elem_of_filter. by rewrite Hr.
Qed.

(** C9: every table the statements can build from the empty one is well formed:
    a row is locked by somebody, with a lease, exactly while it runs; no
    unfinished row has a finish time; a running row has consumed at least one
    attempt and attempt counts never go negative nor outnumber the recorded
    claims; and no two unfinished jobs share a unique key. *)
Theorem jobs_invariant (os : list jop) : table_ok (runs os empty_table).
Proof. apply runs_table_ok, empty_table_ok. Qed.

Definition caps_reach (m : Z) (o : jop) : Prop :=
  match o with JReap _ _ cap _ => m ≤ cap | _ => True end.

Definition dated (m : Z) (r : Row) : Prop :=
  max_attempts r = m ∧ (live (state r) = false → opt_is (finalized_at r) = true).

Lemma dated_change (m : Z) (id : Z) (r r' : Row) (o : jop) :
  caps_reach m o → dated m r → change id r o (Some r') → dated m r'.
Proof.
  intros Ho [Hm Hd] Hc. pose proof (change_frozen _ _ _ _ Hc) as Hf.
  split; [by intuition congruence|].
  inv_change Hc; simpl in *; auto; try (intros; discriminate).
  rewrite Z.min_l by lia. destruct (max_attempts r <=? attempt r); simpl; [auto | discriminate].
Qed.

(** With a fleet-wide ceiling at or above a job's own budget, a finished job
    always carries the finish time its purge needs. *)
Lemma finished_dated (t : table) (id : Z) (r r' : Row) (os : list jop) :
  ids_ok t → rows t !! id = Some r → live (state r) = true →
  Forall (caps_reach (max_attempts r)) os →
  rows (runs os t) !! id = Some r' → live (state r') = false →
  ∃ at_, finalized_at r' = Some at_.
Proof.
  intros Hids Hr Hl Hos Hr' Hf.
  destruct (runs_always (caps_reach (max_attempts r)) id (dated (max_attempts r)) os t)
    as [_ Hal]; auto.
  - intros o q q'. apply dated_change.
  - unfold always. rewrite Hr. split; [done|]. congruence.
  - unfold always in Hal. rewrite Hr' in Hal. destruct Hal as [_ Hd].
    specialize (Hd Hf). destruct (finalized_at r'); [eauto|done].
Qed.

(** Below the job's own budget the ceiling loses that time.  A job whose
    attempts reach the ceiling but not its own maximum is discarded by the
    reaper with no finish time, and no sequence of statements, purges included,
    ever deletes or changes it again. *)
Lemma capped_discard_leaks (t : table) (id : Z) (r : Row) (delay cap now : Z)
  (os : list jop) :
  ids_ok t → rows t !! id = Some r → lease_lapsed now r = true →
  cap ≤ attempt r → attempt r < max_attempts r →
  ∃ r', rows (runs os (apply (JReap DbOk delay cap now) t)) !! id = Some r'
    ∧ state r' = StateDiscarded ∧ finalized_at r' = None.
Proof.
  intros Hids Hr Hl Hcap Hmax.
  assert (Hs : state (reap_set delay cap now r) = StateDiscarded)
    by (destruct (reap_state delay cap now r) as [[??]|[??]]; [done|lia]).
  assert (Hf : finalized_at (reap_set delay cap now r) = None)
    by (simpl; by replace (max_attempts r <=? attempt r) with false by (symmetry; zbool; lia)).
  destruct (runs_present (λ _, True) id
    (λ q, state q = StateDiscarded ∧ finalized_at q = None) os
    (apply (JReap DbOk delay cap now) t) (reap_set delay cap now r)) as (r' & Hr' & ? & ?); eauto.
  - intros o q ro _ [Hq1 Hq2] Hc. inv_change Hc; eauto; try congruence.
    destruct H; congruence.
  - by apply Forall_true.
  - by apply apply_ids_ok.
  - by apply apply_reap_row.
Qed.

(** ** The properties at concrete tables *)

(** One job, claimed by [w1] at 10 under a lease to 40; a second job waits. *)
Definition sample_ops : list jop :=
  [JEnqueue "task.created" "{}" "k1" 0 0; JEnqueue "task.updated" "{}" "" 3 5;
   JClaim DbOk "w1" 1 30 10 ∅].
Definition sample_table : table := runs sample_ops empty_table.
Definition row_at (t : table) (id : Z) : Row :=
  default (insert_row "" "" None 1 0) (rows t !! id).
Definition sample_job : Job := mkJob 1 "task.created" "{}" 1 5 10.

Lemma sample_ok : table_ok sample_table.
Proof. apply runs_table_ok, empty_table_ok. Qed.

Lemma lease_fenced_witness :
  let t' := runs [JSchedule DbOk 60; JClaim DbOk "w1" 5 30 61 ∅]
              (apply (JReap DbOk 1 20 50) sample_table) in
  complete CSucceed DbOk "w1" sample_job 62 t' = (Ok false, t').
Proof.
  apply (lease_fenced sample_table 1 (row_at sample_table 1)).
  - apply sample_ok.
  - vm_eq.
  - vm_eq.
  - done.
  - vm_eq.
Defined.

Lemma release_fenced_witness :
  let t' := runs [JClaim DbOk "w2" 5 30 61 ∅] (apply (JRelease DbOk "w1" [1]) sample_table) in
  complete (CRetry 5 None) DbOk "w1" sample_job 62 t' = (Ok false, t').
Proof.
  apply (release_fenced sample_table "w1" [1] (row_at sample_table 1)).
  - apply sample_ok.
  - vm_eq.
  - by left.
  - by repeat constructor.
Defined.

Lemma lease_exclusive_witness :
  ∃ r', rows (runs [JReap DbOk 1 20 40; JClaim DbOk "w2" 5 30 41 ∅] sample_table) !! 1 = Some r'
        ∧ holds "w1" 1 40 r'.
Proof.
  apply (lease_exclusive sample_table 1 (row_at sample_table 1)).
  - apply sample_ok.
  - vm_eq.
  - split_and!; [vm_eq..|]. exists 40. split; [vm_eq|done].
  - by repeat constructor.
Defined.

Lemma backoff_respected_witness :
  let t := runs [JRetry DbOk "w1" sample_job 100 None 20] sample_table in
  rows (runs [JSchedule DbOk 60; JClaim DbOk "w2" 5 30 61 ∅] t) !! 1 = Some (row_at t 1).
Proof.
  apply backoff_respected.
  - apply (runs_table_ok [_]), sample_ok.
  - apply default_Some. vm_eq.
  - vm_eq.
  - by vm_compute.
  - constructor; [|constructor; [|constructor]]; intros now [= <-]; by vm_compute.
Defined.

Lemma finished_frozen_witness :
  let t := runs [JSucceed DbOk "w1" sample_job 20] sample_table in
  let t' := runs [JReap DbOk 1 20 50; JPurge DbOk 10 10 90 [1; 2]] t in
  rows t' !! 1 = Some (row_at t 1) ∨ rows t' !! 1 = None.
Proof.
  apply finished_frozen.
  - apply (runs_table_ok [_]), sample_ok.
  - apply default_Some. vm_eq.
  - vm_eq.
Defined.

Lemma claim_exact_witness :
  ∃ js t', Claim DbOk "w2" 4 30 20 ∅ sample_table = (Ok js, t')
    ∧ NoDup (job_ID <$> js) ∧ Z.of_nat (length js) ≤ 4
    ∧ (∀ j, j ∈ js → ∃ r,
         rows sample_table !! job_ID j = Some r ∧ state r = StateAvailable
         ∧ scheduled_at r ≤ 20
         ∧ (job_ID j ∉ skipped ∅) ∧ j = returned 20 (job_ID j) (claim_set "w2" 30 20 r)
         ∧ job_Attempt j = attempt r + 1 ∧ job_Kind j = kind r ∧ job_Payload j = payload r
         ∧ job_MaxAttempts j = max_attempts r
         ∧ rows t' !! job_ID j = Some (claim_set "w2" 30 20 r)
         ∧ holds "w2" (attempt r + 1) (20 + 30) (claim_set "w2" 30 20 r))
    ∧ (∀ id, id ∉ (job_ID <$> js) → rows t' !! id = rows sample_table !! id)
    ∧ (∀ id r, rows sample_table !! id = Some r → claimable 20 r = true →
         id ∉ skipped ∅ → id ∉ (job_ID <$> js) →
         Z.of_nat (length js) = 4
         ∧ ∀ j q, j ∈ js → rows sample_table !! job_ID j = Some q →
             claim_before (job_ID j, q) (id, r) = true).
Proof. apply claim_exact. done. Defined.

Lemma attempt_refunded_witness :
  let t := runs (take 2 sample_ops) empty_table in
  (∃ r', rows (Snooze DbOk "w1" sample_job 7 12 sample_table).2 !! 1 = Some r'
     ∧ state r' = StateScheduled ∧ scheduled_at r' = 12 + 7
     ∧ attempt r' = attempt (row_at t 1) ∧ errors r' = errors (row_at t 1))
  ∧ (∃ r', rows (Release DbOk "w1" [1] sample_table).2 !! 1 = Some r'
     ∧ state r' = StateAvailable ∧ scheduled_at r' = scheduled_at (row_at t 1)
     ∧ attempt r' = attempt (row_at t 1) ∧ errors r' = errors (row_at t 1)).
Proof.
  apply (attempt_refunded "w1" 1 30 10 7 12 ∅ (runs (take 2 sample_ops) empty_table)
           sample_table [sample_job] sample_job).
  - done.
  - vm_eq.
  - by left.
  - vm_eq.
Defined.

Lemma crash_recovered_witness :
  let t2 := apply (JSchedule DbOk 55)
              (runs [JClaim DbOk "w3" 8 30 52 ∅] (apply (JReap DbOk 5 20 50) sample_table)) in
  (∃ r', rows (apply (JClaim DbOk "w2" 1 30 60 ∅) t2) !! 1 = Some r'
     ∧ holds "w2" (attempt (row_at sample_table 1) + 1) (60 + 30) r'
     ∧ errors r' = errors (row_at sample_table 1)
         ++ [mkErrorEntry 50 (attempt (row_at sample_table 1)) (locked_by (row_at sample_table 1))
               reap_error])
  ∧ length (ahead 60 ∅ t2 1 (row_at t2 1)) = 0%nat.
Proof.
  intros t2. split; [|vm_eq].
  destruct (crash_recovered sample_table 1 (row_at sample_table 1) 5 20 50 [JClaim DbOk "w3" 8 30 52 ∅])
    as [Hback _]; [apply sample_ok|vm_eq|vm_eq|].
  apply (Hback ltac:(vm_compute; reflexivity)); [|done|done|set_solver|].
  - constructor; [|constructor]. intros x [= <-]. done.
  - intros r2 Hr2. assert (r2 = row_at t2 1) as -> by (unfold row_at; unfold t2; by rewrite Hr2).
    by vm_compute.
Defined.

Lemma finished_dated_witness :
  let t := runs [JSucceed DbOk "w1" sample_job 20] sample_table in
  ∃ at_, finalized_at (row_at t 1) = Some at_.
Proof.
  apply (finished_dated sample_table 1 (row_at sample_table 1) _
           [JSucceed DbOk "w1" sample_job 20]).
  - apply sample_ok.
  - vm_eq.
  - vm_eq.
  - by repeat constructor.
  - apply default_Some. vm_eq.
  - vm_eq.
Defined.

Lemma capped_discard_leaks_witness :
  ∃ r', rows (runs [JPurge DbOk 0 0 1000 [1; 2]] (apply (JReap DbOk 5 1 50) sample_table)) !! 1
        = Some r'
    ∧ state r' = StateDiscarded ∧ finalized_at r' = None.
Proof.
  apply (capped_discard_leaks sample_table 1 (row_at sample_table 1)).
  - apply sample_ok.
  - vm_eq.
  - vm_eq.
  - by vm_compute.
  - by vm_compute.
Defined.
