(* ===== verification/Backoff.v ===== *)
(** * Retry backoff (src/internal/queue/backoff.go) *)
From stdpp Require Import options.
From S2P Require Import Prelude GoFloat.
From S2P Require ConfigSections.

Abbreviation JitterNone := ConfigSections.JitterNone.
Abbreviation JitterEqual := ConfigSections.JitterEqual.
Abbreviation JitterFull := ConfigSections.JitterFull.

Record Backoff : Type := mkBackoff { Base : Z; Max : Z; Jitter : string }.

Definition NewBackoff (cfg : ConfigSections.Backoff) : Backoff :=
  mkBackoff (ConfigSections.B_Base cfg) (ConfigSections.B_Max cfg) (ConfigSections.B_Jitter cfg).

(** [math.Pow(x, 4)] squares twice, rounding each time. *)
Definition pow4 (x : Z) : Z := fmul (fmul x x) (fmul x x).

Definition raw `{FloatConv} (b : Backoff) (attempt : Z) : Z :=
  let attempt := if attempt <? 1 then 1 else attempt in
  let window := fmul (float64 (Base b)) (pow4 (float64 attempt)) in
  if float64 (Max b) <? window then Max b else float_to_int64 window.

(** [draw] is the 53-bit integer behind [rand.Float64]. *)
Definition For `{FloatConv} (b : Backoff) (attempt : Z) (draw : Z) : Z :=
  let raw := raw b attempt in
  if decide (Jitter b = JitterNone) then raw
  else if decide (Jitter b = JitterEqual) then
    let half := Z.quot raw 2 in
    wrap64 (half + scaled_draw draw (float64 half))
  else scaled_draw draw (float64 raw).

(** ** The integer curve the floats compute *)

Definition curve (b : Backoff) (attempt : Z) : Z :=
  Z.min (Max b) (Base b * Z.max 1 attempt ^ 4).

Lemma fmul_ge (x y : Z) : 0 ≤ x → 0 ≤ y → two53 ≤ x * y → two53 ≤ fmul x y.
Proof. intros. by apply round53_ge. Qed.

Lemma fmul_exact (x y : Z) : 0 ≤ x → 0 ≤ y → x * y ≤ two53 → fmul x y = x * y.
Proof. intros. apply round53_small. nia. Qed.

(** A product of floats is exact below [2^53] and stays above it above it. *)
Lemma fmul_spec (x y x' y' : Z) :
  0 ≤ x → 0 ≤ y → (x' = x ∨ two53 ≤ x' ∧ two53 ≤ x) → (y' = y ∨ two53 ≤ y' ∧ two53 ≤ y) →
  (fmul x' y' = x * y ∧ x * y ≤ two53)
  ∨ (two53 ≤ fmul x' y' ∧ two53 ≤ x * y)
  ∨ (x * y = 0 ∧ fmul x' y' = 0).
Proof.
  intros Hx Hy Hx' Hy'. assert (0 < two53) by by vm_compute.
  destruct (decide (x = 0 ∨ y = 0)) as [H0|H0].
  { right. right. assert (x' * y' = 0) as E by nia.
    split; [nia|]. unfold fmul. by rewrite E. }
  assert (1 ≤ x ∧ 1 ≤ y) as [Hx1 Hy1] by lia.
  destruct (decide (x' * y' ≤ two53)) as [Hs|Hs].
  - destruct (decide (x' = x ∧ y' = y)) as [[-> ->]|Hne].
    + left. split; [by apply fmul_exact|done].
    + right. left. destruct Hx' as [->|[? ?]], Hy' as [->|[? ?]]; try (exfalso; tauto);
        (split; [apply fmul_ge|]; nia).
  - right. left. split; [apply fmul_ge; lia|].
    destruct Hx' as [->|[? ?]], Hy' as [->|[? ?]]; nia.
Qed.

(** How a float tracks the integer it stands for. *)
Definition tracks (f z : Z) : Prop := f = z ∨ two53 ≤ f ∧ two53 ≤ z.

Lemma tracks_float64 (z : Z) : 0 ≤ z → tracks (float64 z) z.
Proof.
  intros Hz. unfold tracks, float64. destruct (decide (z ≤ two53)).
  - left. apply round53_small. lia.
  - right. split; [apply round53_ge; lia|lia].
Qed.

Lemma tracks_fmul (f g x y : Z) :
  0 ≤ x → 0 ≤ y → tracks f x → tracks g y → tracks (fmul f g) (x * y).
Proof.
  intros Hx Hy Hf Hg. unfold tracks.
  destruct (fmul_spec x y f g Hx Hy Hf Hg) as [[? ?]|[[? ?]|[-> ->]]]; auto.
Qed.

(** The code's guards, as [Validate] and the configuration's ranges give them:
    no negative durations, and a cap of at most [2^53] ns, some 104 days. *)
Definition backoff_ok (b : Backoff) : Prop := 0 ≤ Base b ∧ 0 ≤ Max b ≤ two53.

Lemma raw_curve_law `{FloatConv} (b : Backoff) (attempt : Z) :
  backoff_ok b → raw b attempt = curve b attempt.
Proof.
  intros [HB HM]. unfold raw, curve.
  replace (if attempt <? 1 then 1 else attempt) with (Z.max 1 attempt)
    by (destruct (attempt <? 1) eqn:E; zbool; lia).
  set (a := Z.max 1 attempt). assert (Ha : 1 ≤ a) by lia.
  assert (Hw : tracks (fmul (float64 (Base b)) (pow4 (float64 a))) (Base b * a ^ 4)).
  { replace (a ^ 4) with ((a * a) * (a * a)) by ring.
    repeat apply tracks_fmul; try apply tracks_float64; nia. }
  set (w := fmul _ _) in *. assert (0 ≤ Base b * a ^ 4) by nia.
  assert (HfM : float64 (Max b) = Max b) by (apply round53_small; lia). rewrite HfM.
  destruct (Max b <? w) eqn:E; zbool.
  - destruct Hw as [Hw|[??]]; lia.
  - rewrite float_to_int64_in.
    + destruct Hw as [Hw|[??]]; lia.
    + assert (- 2 ^ 63 ≤ 0 ∧ 0 < two53 < 2 ^ 63 - 1) by by vm_compute.
      unfold in_int64, int64_min, int64_max. destruct Hw as [Hw|[??]]; lia.
Qed.

Lemma curve_range (b : Backoff) (attempt : Z) :
  backoff_ok b → 0 ≤ curve b attempt ≤ two53.
Proof. intros [HB HM]. unfold curve. assert (0 ≤ Z.max 1 attempt ^ 4) by nia. nia. Qed.

Lemma For_bounds `{FloatConv} (b : Backoff) (attempt draw : Z) :
  backoff_ok b → 0 ≤ draw < two53 →
  0 ≤ For b attempt draw ≤ curve b attempt
  ∧ (Jitter b = JitterNone → For b attempt draw = curve b attempt)
  ∧ (Jitter b = JitterEqual → curve b attempt / 2 ≤ For b attempt draw).
Proof.
  intros Hb Hd. unfold For. rewrite raw_curve_law by done.
  pose proof (curve_range b attempt Hb) as Hr. set (c := curve b attempt) in *.
  assert (0 < two53 ∧ two53 < int64_max) as [? ?] by by vm_compute.
  case_decide as HN.
  { split_and!; try lia; intros _; apply Z.div_le_upper_bound; lia. }
  case_decide as HE.
  - rewrite Z.quot_div_nonneg by lia.
    assert (0 ≤ c / 2 ≤ c) by (split; [apply Z.div_pos; lia | apply Z.div_le_upper_bound; lia]).
    pose proof (Z.div_mod c 2 ltac:(lia)). pose proof (Z.mod_pos_bound c 2 ltac:(lia)).
    assert (Hh : float64 (c / 2) = c / 2) by (apply round53_small; lia). rewrite Hh.
    pose proof (scaled_draw_bounds draw (c / 2) Hd ltac:(lia)).
    rewrite wrap64_id by (unfold in_int64, int64_min, int64_max in *; lia).
    split_and!; try lia; intros; try lia. congruence.
  - assert (Hh : float64 c = c) by (apply round53_small; lia). rewrite Hh.
    pose proof (scaled_draw_bounds draw c Hd ltac:(lia)).
    split_and!; try lia; intros; congruence.
Qed.

(** ** Properties *)

(** C24: the float arithmetic computes the integer curve: the delay window of an
    attempt is [base * attempt^4] capped at [max], exactly, for every attempt
    and base, as long as the cap is at most 2^53 ns; a drawn delay never exceeds
    it nor goes negative, equals it without jitter, and is at least half of it
    with equal jitter. *)
Theorem backoff_window `{FloatConv} (b : Backoff) (attempt draw : Z) :
  backoff_ok b → 0 ≤ draw < two53 →
  raw b attempt = Z.min (Max b) (Base b * Z.max 1 attempt ^ 4)
  ∧ 0 ≤ For b attempt draw ≤ Z.min (Max b) (Base b * Z.max 1 attempt ^ 4)
  ∧ (Jitter b = JitterNone →
       For b attempt draw = Z.min (Max b) (Base b * Z.max 1 attempt ^ 4))
  ∧ (Jitter b = JitterEqual →
       Z.min (Max b) (Base b * Z.max 1 attempt ^ 4) / 2 ≤ For b attempt draw).
Proof. intros Hb Hd. split; [by apply raw_curve_law | by apply For_bounds]. Qed.

(** The conversion of the amd64 instruction. *)
Definition amd64_conv : FloatConv := {| out_of_range := λ _, int64_min |}.

Lemma backoff_window_witness :
  let b := mkBackoff second (10 * minute) JitterEqual in
  @raw amd64_conv b 3 = Z.min (10 * minute) (second * Z.max 1 3 ^ 4)
  ∧ 0 ≤ @For amd64_conv b 3 (2 ^ 52) ≤ Z.min (10 * minute) (second * Z.max 1 3 ^ 4)
  ∧ (Jitter b = JitterNone →
       @For amd64_conv b 3 (2 ^ 52) = Z.min (10 * minute) (second * Z.max 1 3 ^ 4))
  ∧ (Jitter b = JitterEqual →
       Z.min (10 * minute) (second * Z.max 1 3 ^ 4) / 2 ≤ @For amd64_conv b 3 (2 ^ 52)).
Proof.
  apply (@backoff_window amd64_conv (mkBackoff second (10 * minute) JitterEqual)).
  - unfold backoff_ok. simpl. split; [done|]. split; [done|by vm_compute].
  - split; [done|by vm_compute].
Defined.

Example raw_ex :
  map (@raw amd64_conv (mkBackoff second (10 * minute) JitterFull)) [1; 2; 3; 4; 5; 10 ^ 6]
  = [second; 16 * second; 81 * second; 256 * second; 10 * minute; 10 * minute].
Proof. vm_eq. Qed.

(** A cap above 2^53 may be passed by the rounding of a window below it, and one
    at the top of the range converts out of range. *)
Example raw_above_cap :
  @raw amd64_conv (mkBackoff (2 ^ 53 + 3) (2 ^ 53 + 3) JitterNone) 1 = 2 ^ 53 + 4
  ∧ @raw amd64_conv (mkBackoff int64_max int64_max JitterNone) 1 = int64_min.
Proof. split; vm_eq. Qed.
