(* ===== verification/Pool.v ===== *)
(** * The worker pool (src/internal/queue/pool.go, queue.go, events.go, and the
    sweeps of service.go)

    Handlers are functions from a job to what they return or panic with.  The
    concurrent part is a state machine: [pstate] is what the goroutines share,
    [pevent] one atomic step of one of them, [pexec] its effect. *)
From stdpp Require Import options.
From S2P Require Import Prelude GoStrings GoDuration GoFloat Apperr ConfigBase ConfigSections.
From S2P Require Import Backoff JobStore.

(** ** queue.go: what a handler's error says *)

Definition ErrTerminal : err := ESentinel Apperr.ErrTerminal "terminal".

Definition IsTerminal (e : option err) : bool :=
  match e with Some e => errors_is e Apperr.ErrTerminal | None => false end.

Definition Terminal (e : option err) : err :=
  match e with
  | None => ErrTerminal
  | Some e => EWrap2 ErrTerminal ": " e
  end.

(** [SnoozeError.Error]. *)
Definition snooze_text (d : Z) (reason : string) : string :=
  if decide (reason = "") then ("snoozed for " +:+ Duration_String d)%string
  else ("snoozed for " +:+ Duration_String d +:+ ": " +:+ reason)%string.

Definition SnoozeErr (d : Z) (reason : string) : err := ESnooze d reason (snooze_text d reason).

Inductive Outcome : Type :=
  | OutcomeSucceeded | OutcomeRetried | OutcomeCancelled | OutcomeDiscarded
  | OutcomeSnoozed | OutcomeLost.

#[export] Instance Outcome_eq_dec : EqDecision Outcome.
Proof. solve_decision. Defined.

Record Event : Type := mkEvent {
  ev_JobID : Z;
  ev_Kind : string;
  ev_Attempt : Z;
  ev_Outcome : Outcome;
  ev_Err : option err;
}.

(** ** Deciding and recording an outcome *)

(** [errors.As] into a [SnoozeError]. *)
Definition snooze_of (e : option err) : option Z :=
  match e with Some e => fst <$> errors_as_snooze e | None => None end.

Definition isSnooze (e : option err) : bool :=
  match snooze_of e with Some _ => true | None => false end.

Definition retryable (e : option err) : bool :=
  if IsTerminal e then false else Retryable e.

Definition maxAttempts (cfg : Queue) (j : Job) : Z :=
  if (0 <? Q_MaxAttempts cfg) && (Q_MaxAttempts cfg <? job_MaxAttempts j)
  then Q_MaxAttempts cfg else job_MaxAttempts j.

Section pool.
Context `{GoText, FloatConv}.

(** [write]: the outcome, and what the completion statement returned.  [draw] is
    the random draw of the backoff and [now] the database's clock. *)
Definition write (io : db) (cfg : Queue) (workerID : string) (j : Job) (cause : option err)
  (draw now : Z) (t : table) : Outcome * result err bool * table :=
  match cause with
  | None => let '(r, t) := Succeed io workerID j now t in (OutcomeSucceeded, r, t)
  | Some _ =>
      match snooze_of cause with
      | Some for_ => let '(r, t) := Snooze io workerID j for_ now t in (OutcomeSnoozed, r, t)
      | None =>
          if negb (retryable cause) then
            let '(r, t) := Cancel io workerID j cause now t in (OutcomeCancelled, r, t)
          else if maxAttempts cfg j <=? job_Attempt j then
            let '(r, t) := Discard io workerID j cause now t in (OutcomeDiscarded, r, t)
          else
            let '(r, t) :=
              Retry io workerID j (For (NewBackoff (Q_Backoff cfg)) (job_Attempt j) draw) cause
                now t in
            (OutcomeRetried, r, t)
      end
  end.

Definition finish (io : db) (cfg : Queue) (workerID : string) (j : Job) (cause : option err)
  (draw now : Z) (t : table) : Outcome * table :=
  let '(outcome, r, t) := write io cfg workerID j cause draw now t in
  match r with
  | Err _ => (OutcomeLost, t)
  | Ok held => (if held then outcome else OutcomeLost, t)
  end.

(** ** Running a handler *)

Inductive handler_result : Type :=
  | HReturn (e : option err)
  | HPanic (v : string).

Definition Handlers : Type := gmap string (Job → handler_result).

Definition invoke (handlers : Handlers) (j : Job) : option err :=
  match handlers !! job_Kind j with
  | None => Some (Terminal (Some (ENew ("no handler for kind " +:+ Quote (job_Kind j))%string)))
  | Some handler =>
      match handler j with
      | HReturn e => e
      | HPanic v => Some (ENew ("handler panicked: " +:+ v)%string)
      end
  end.

(** ** Subscribers (events.go): buffered channels that drop when full *)

Record Sub : Type := mkSub { sub_cap : Z; sub_buf : list Event }.
Record Subs : Type := mkSubs { subs : gmap Z Sub; subID : Z }.

Definition Subscribe (buffer : Z) (s : Subs) : Z * Subs :=
  let buffer := if buffer <? 1 then 16 else buffer in
  let id := subID s + 1 in
  (id, mkSubs (<[id := mkSub buffer []]> (subs s)) id).

Definition Unsubscribe (id : Z) (s : Subs) : Subs := mkSubs (delete id (subs s)) (subID s).

Definition offer_event (e : Event) (s : Sub) : Sub :=
  if Z.of_nat (length (sub_buf s)) <? sub_cap s
  then mkSub (sub_cap s) (sub_buf s ++ [e]) else s.

Definition publish (e : Event) (s : Subs) : Subs :=
  mkSubs (offer_event e <$> subs s) (subID s).

(** ** In-flight jobs: whether each has a handler to cancel *)

Definition track (id : Z) (cancel : bool) (inflight : gmap Z bool) : gmap Z bool :=
  <[id := cancel]> inflight.

Definition untrack (id : Z) (inflight : gmap Z bool) : gmap Z bool := delete id inflight.

(** The iteration order of the map does not matter to the statements. *)
Definition snapshot (inflight : gmap Z bool) : list Z * list Z :=
  ((map_to_list inflight).*1, (filter (λ ic : Z * bool, ic.2 = true) (map_to_list inflight)).*1).

(** [beat]: the jobs whose handlers it cancels, and the table. *)
Definition beat (io : db) (cfg : Queue) (workerID : string) (now : Z)
  (inflight : gmap Z bool) (t : table) : list Z * table :=
  let '(ids, cancels) := snapshot inflight in
  match ids with
  | [] => ([], t)
  | _ =>
      let '(r, t) := Heartbeat io workerID ids (Q_Lease cfg) now t in
      match r with
      | Err _ => ([], t)
      | Ok held => (if held =? Z.of_nat (length ids) then [] else cancels, t)
      end
  end.

Definition releaseInflight (io : db) (workerID : string) (inflight : gmap Z bool) (t : table)
  : result err unit * list Z * table :=
  let '(ids, cancels) := snapshot inflight in
  match ids with
  | [] => (Ok (), [], t)
  | _ =>
      let '(r, t) := Release io workerID ids t in
      match r with
      | Err e => (Err (EWrap "queue: release in-flight jobs: " e ""), cancels, t)
      | Ok _ => (Ok (), cancels, t)
      end
  end.

(** ** The pool as a state machine *)

(** [claiming] says [claimBatch] passed its check and has yet to run its statement;
    [pending] are the jobs of the claimed batch the dispatch loop has not reached;
    [offering] the one it is sending; [received] those a worker took from the
    channel, [started] those whose handler runs, [closing] those whose outcome is
    written and which are still registered. *)
Record pstate : Type := mkP {
  tbl : table;
  inflight : gmap Z bool;
  claiming : bool;
  pending : list Job;
  offering : option Job;
  received : list Job;
  started : list Job;
  closing : list Job;
  draining : bool;
  cancelled : bool;
}.

(** [EvBeat] reads the registrations and runs its statement; a job finishing
    between the two is one that is [closing]. *)
Inductive pevent : Type :=
  | EvCheck
  | EvClaim (io : db) (now : Z) (locked : picks)
  | EvOffer
  | EvSend
  | EvAbort (io : db)
  | EvStart (j : Job)
  | EvWrite (j : Job) (io : db) (draw now : Z)
  | EvUntrack (j : Job)
  | EvBeat (io : db) (now : Z)
  | EvDrain
  | EvCancel
  | EvReleaseAll (io : db)
  | EvOther (f : table → table).

#[export] Instance Job_eq_dec : EqDecision Job.
Proof. solve_decision. Defined.

(** Remove one occurrence. *)
Fixpoint remove_one (j : Job) (l : list Job) : list Job :=
  match l with
  | [] => []
  | x :: l => if decide (x = j) then l else x :: remove_one j l
  end.

Definition busy (s : pstate) : list Job := received s ++ started s ++ closing s.

Definition set_tbl (t : table) (s : pstate) : pstate :=
  mkP t (inflight s) (claiming s) (pending s) (offering s) (received s) (started s)
    (closing s) (draining s) (cancelled s).

(** [None]: the step is not enabled. *)
Definition pexec (cfg : Queue) (workerID : string) (handlers : Handlers) (e : pevent)
  (s : pstate) : option pstate :=
  match e with
  | EvCheck =>
      match pending s, offering s with
      | [], None =>
          if claiming s || cancelled s || draining s then None
          else Some (mkP (tbl s) (inflight s) true [] None (received s) (started s) (closing s)
                       (draining s) (cancelled s))
      | _, _ => None
      end
  | EvClaim io now locked =>
      match pending s, offering s with
      | [], None =>
          if claiming s then
            let '(r, t) := Claim io workerID (Q_ClaimBatch cfg) (Q_Lease cfg) now locked (tbl s) in
            let claimed := match r with Ok js => js | Err _ => [] end in
            Some (mkP t (inflight s) false claimed None (received s) (started s) (closing s)
                    (draining s) (cancelled s))
          else None
      | _, _ => None
      end
  | EvOffer =>
      match pending s, offering s with
      | j :: rest, None =>
          Some (mkP (tbl s) (track (job_ID j) false (inflight s)) (claiming s) rest (Some j)
                  (received s) (started s) (closing s) (draining s) (cancelled s))
      | _, _ => None
      end
  | EvSend =>
      match offering s with
      | Some j =>
          if Z.of_nat (length (busy s)) <? Q_Workers cfg then
            Some (mkP (tbl s) (inflight s) (claiming s) (pending s) None (received s ++ [j])
                    (started s) (closing s) (draining s) (cancelled s))
          else None
      | None => None
      end
  | EvAbort io =>
      match offering s with
      | Some j =>
          if cancelled s then
            Some (mkP (Release io workerID [job_ID j] (tbl s)).2
                    (untrack (job_ID j) (inflight s)) (claiming s) [] None (received s)
                    (started s) (closing s) (draining s) true)
          else None
      | None => None
      end
  | EvStart j =>
      if decide (j ∈ received s) then
        Some (mkP (tbl s) (track (job_ID j) true (inflight s)) (claiming s) (pending s)
                (offering s) (remove_one j (received s)) (j :: started s) (closing s)
                (draining s) (cancelled s))
      else None
  | EvWrite j io draw now =>
      if decide (j ∈ started s) then
        Some (mkP (finish io cfg workerID j (invoke handlers j) draw now (tbl s)).2
                (inflight s) (claiming s) (pending s) (offering s) (received s)
                (remove_one j (started s)) (j :: closing s) (draining s) (cancelled s))
      else None
  | EvUntrack j =>
      if decide (j ∈ closing s) then
        Some (mkP (tbl s) (untrack (job_ID j) (inflight s)) (claiming s) (pending s)
                (offering s) (received s) (started s) (remove_one j (closing s)) (draining s) (cancelled s))
      else None
  | EvBeat io now => Some (set_tbl (beat io cfg workerID now (inflight s) (tbl s)).2 s)
  | EvDrain =>
      Some (mkP (tbl s) (inflight s) (claiming s) (pending s) (offering s) (received s)
              (started s) (closing s) true (cancelled s))
  | EvCancel =>
      Some (mkP (tbl s) (inflight s) (claiming s) (pending s) (offering s) (received s)
              (started s) (closing s) (draining s) true)
  | EvReleaseAll io => Some (set_tbl (releaseInflight io workerID (inflight s) (tbl s)).2 s)
  | EvOther f => Some (set_tbl (f (tbl s)) s)
  end.

Fixpoint pexecs (cfg : Queue) (workerID : string) (handlers : Handlers) (es : list pevent)
  (s : pstate) : option pstate :=
  match es with
  | [] => Some s
  | e :: es => s' ← pexec cfg workerID handlers e s; pexecs cfg workerID handlers es s'
  end.

Definition idle_pool (t : table) : pstate := mkP t ∅ false [] None [] [] [] false false.

(** [Stop]: after draining began, its polls see whether jobs are in flight and
    whether its own deadline passed; the first of the two decides. *)
Fixpoint Stop_loop (polls : list (bool * bool)) : option bool :=
  match polls with
  | [] => None
  | (idle, deadline) :: polls =>
      if idle then Some true else if deadline then Some false else Stop_loop polls
  end.

(** ** service.go: one sweep of the leader *)

(** [Sweep]'s body: schedule, then reap with the backoff of a first attempt; of a reap
    that failed only the error counts. *)
Definition Sweep (io1 io2 : db) (got : option (gset Z)) (cfg : Queue) (draw now1 now2 : Z) (t : table)
  : result err (Z * Z) * table :=
  let '(r, t) := Schedule io1 now1 t in
  match r with
  | Err e => (Err e, t)
  | Ok _ =>
      let '(counts, e, t) :=
        Reap io2 got (For (NewBackoff (Q_Backoff cfg)) 1 draw) (Q_MaxAttempts cfg) now2 t in
      (match e with Some e => Err e | None => Ok counts end, t)
  end.

Definition Maintenance_Purge (io : db) (cfg : Queue) (now : Z) (scan : list Z) (t : table)
  : result err Z * table :=
  Purge io (R_Succeeded (Q_Retention cfg)) (R_Discarded (Q_Retention cfg)) now scan t.
End pool.
