(* ===== verification/PoolProps.v ===== *)
(** * What the worker pool guarantees

    Every outcome is recorded as its error says; attempts stay within their
    budget across a whole fleet; jobs handed to workers are heartbeated; draining
    hands back what is left; and three races the bookkeeping leaves open. *)
From stdpp Require Import options.
From S2P Require Import Prelude GoStrings GoDuration GoFloat Apperr ConfigBase ConfigSections.
From S2P Require Import Backoff JobStore JobFacts JobProps Pool.
From S2P Require ConfigProps.

(** ** The completion behind an outcome *)

Section pool.
Context `{GoText, FloatConv}.

(** The statement [write] runs for an outcome. *)
Definition chosen (cfg : Queue) (j : Job) (cause : option err) (draw : Z) : Outcome * completion :=
  match cause with
  | None => (OutcomeSucceeded, CSucceed)
  | Some _ =>
      match snooze_of cause with
      | Some d => (OutcomeSnoozed, CSnooze d)
      | None =>
          if negb (retryable cause) then (OutcomeCancelled, CCancel cause)
          else if maxAttempts cfg j <=? job_Attempt j then (OutcomeDiscarded, CDiscard cause)
          else (OutcomeRetried,
                CRetry (For (NewBackoff (Q_Backoff cfg)) (job_Attempt j) draw) cause)
      end
  end.

Lemma write_chosen (io : db) (cfg : Queue) (w : string) (j : Job) (cause : option err)
  (draw now : Z) (t : table) :
  write io cfg w j cause draw now t
  = ((chosen cfg j cause draw).1,
     (complete (chosen cfg j cause draw).2 io w j now t).1,
     (complete (chosen cfg j cause draw).2 io w j now t).2).
Proof.
  unfold write, chosen. destruct cause as [e|]; [|simpl; by destruct (Succeed io w j now t)].
  destruct (snooze_of (Some e)) as [d|]; [simpl; by destruct (Snooze io w j d now t)|].
  destruct (negb _); [simpl; by destruct (Cancel io w j (Some e) now t)|].
  destruct (_ <=? _); [simpl; by destruct (Discard io w j (Some e) now t)|].
  simpl. by destruct (Retry io w j _ (Some e) now t).
Qed.

Lemma finish_chosen (cfg : Queue) (w : string) (j : Job) (cause : option err)
  (draw now : Z) (t : table) (r : Row) :
  rows t !! job_ID j = Some r → guarded w j (job_ID j) r = true →
  finish DbOk cfg w j cause draw now t
  = ((chosen cfg j cause draw).1, (complete (chosen cfg j cause draw).2 DbOk w j now t).2).
Proof.
  intros Hr Hg. unfold finish. rewrite write_chosen.
  pose proof (complete_held (chosen cfg j cause draw).2 w j now t r Hr Hg) as Hh.
  by rewrite Hh.
Qed.

Lemma finish_lost (io : db) (cfg : Queue) (w : string) (j : Job) (cause : option err)
  (draw now : Z) (t : table) :
  (∀ r, rows t !! job_ID j = Some r → guarded w j (job_ID j) r = false) →
  finish DbOk cfg w j cause draw now t = (OutcomeLost, t).
Proof.
  intros Hg. unfold finish. rewrite write_chosen, complete_lost by done. done.
Qed.

(** ** Fleet-wide attempts *)

Definition in_budget (r : Row) : Prop :=
  attempt r ≤ max_attempts r
  ∧ (live (state r) = true → state r ≠ StateRunning → attempt r < max_attempts r).

(** A retry is only recorded while attempts are left. *)
Definition spares (o : jop) (id : Z) (r : Row) : Prop :=
  match o with
  | JRetry _ w j _ _ _ => guarded w j id r = true → job_Attempt j < max_attempts r
  | _ => True
  end.

Lemma change_in_budget (id : Z) (r r' : Row) (o : jop) :
  spares o id r → in_budget r → change id r o (Some r') → in_budget r'.
Proof.
  intros Ho [H1 H2] Hc. unfold in_budget. inversion Hc; subst; simpl in *; auto.
  all: try match goal with
    | Hp : guarded _ _ _ _ = true |- _ =>
        try specialize (Ho Hp); apply guarded_spec in Hp as (_ & _ & _ & Ha)
    | Hp : claimable _ _ = true |- _ => apply claimable_spec in Hp as [Hs _]
    | Hp : held_by _ _ = true |- _ => apply held_by_spec in Hp as [Hs _]
    | Hp : waiting _ _ = true |- _ => apply waiting_spec in Hp as [Hs _]
    end.
  all: try (split; [lia|]; intros _ _; lia).
  all: try (split; [lia|done]).
  - rewrite Hs in H2. split; [|done]. specialize (H2 eq_refl ltac:(done)). lia.
  - destruct (reap_state d c now r) as [[Hs Hm]|[Hs Hm]]; simpl in Hs; rewrite Hs.
    + split; [lia|done].
    + split; [lia|]. intros _ _. lia.
  - destruct Hs as [Hs|Hs]; rewrite Hs in H2; split; auto.
Qed.

(** Statements the fleet runs besides recording outcomes. *)
Definition upkeep (o : jop) : bool :=
  match o with
  | JEnqueue _ _ _ _ _ | JClaim _ _ _ _ _ _ | JHeartbeat _ _ _ _ _ | JRelease _ _ _
  | JReap _ _ _ _ | JSchedule _ _ | JPurge _ _ _ _ _ => true
  | _ => false
  end.

(** The fleet: the table, and every job any worker was ever handed.  Workers may
    have different configurations, and finish a job late, twice or never. *)
Definition fleet : Type := table * list (string * Job).

Inductive fleet_step : fleet → fleet → Prop :=
  | fleet_claim w batch lease now locked js t t' C :
      Claim DbOk w batch lease now locked t = (Ok js, t') →
      fleet_step (t, C) (t', ((λ j, (w, j)) <$> js) ++ C)
  | fleet_finish io cfg w j cause draw now t C :
      (w, j) ∈ C → fleet_step (t, C) ((finish io cfg w j cause draw now t).2, C)
  | fleet_upkeep o t C : upkeep o = true → fleet_step (t, C) (apply o t, C).

(** What a worker knows of a job's budget is the row's. *)
Definition fleet_ok (s : fleet) : Prop :=
  ids_ok s.1
  ∧ map_Forall (λ _ r, in_budget r ∧ 1 ≤ max_attempts r) (rows s.1)
  ∧ ∀ w j, (w, j) ∈ s.2 →
      job_ID j < next_id s.1
      ∧ ∀ r, rows s.1 !! job_ID j = Some r → max_attempts r = job_MaxAttempts j.

(** The statement a [finish] amounts to. *)
Definition completion_op (c : completion) (io : db) (w : string) (j : Job) (now : Z) : jop :=
  match c with
  | CSucceed => JSucceed io w j now
  | CRetry d e => JRetry io w j d e now
  | CCancel e => JCancel io w j e now
  | CDiscard e => JDiscard io w j e now
  | CSnooze d => JSnooze io w j d now
  end.

Lemma complete_op (c : completion) (io : db) (w : string) (j : Job) (now : Z) (t : table) :
  (complete c io w j now t).2 = apply (completion_op c io w j now) t.
Proof. by destruct c. Qed.

Lemma finish_op (io : db) (cfg : Queue) (w : string) (j : Job) (cause : option err)
  (draw now : Z) (t : table) :
  (finish io cfg w j cause draw now t).2
  = apply (completion_op (chosen cfg j cause draw).2 io w j now) t.
Proof.
  rewrite <- complete_op. unfold finish. rewrite write_chosen.
  by destruct (complete (chosen cfg j cause draw).2 io w j now t).1.
Qed.

Lemma maxAttempts_le (cfg : Queue) (j : Job) : maxAttempts cfg j ≤ job_MaxAttempts j.
Proof. unfold maxAttempts. case_match; split_all; zbool; lia. Qed.

Lemma apply_fleet_ok (o : jop) (t : table) (C : list (string * Job)) :
  (∀ id r, rows t !! id = Some r → spares o id r) → fleet_ok (t, C) → fleet_ok (apply o t, C).
Proof.
  intros Hsp (Hids & Hb & HC). simpl in *. split_and!; simpl.
  - by apply apply_ids_ok.
  - intros id r' Hr'. destruct (rows t !! id) as [r|] eqn:Hr.
    + pose proof (apply_changes o t Hids id r Hr) as Hc. rewrite Hr' in Hc.
      destruct (Hb id r Hr) as [Hbr Hm]. split; [by eapply change_in_budget; eauto|].
      apply change_frozen in Hc as (_ & _ & _ & -> & _). done.
    + destruct (apply_fresh _ _ _ _ Hr Hr') as (_ & ? & ? & ? & ? & ? & _ & Hm & -> & _).
      split; [|done]. split; simpl; lia.
  - intros w j Hj. destruct (HC w j Hj) as [Hid Hmax].
    pose proof (apply_next_id o t). split; [lia|]. intros r' Hr'.
    destruct (rows t !! job_ID j) as [r|] eqn:Hr.
    + pose proof (apply_changes o t Hids _ r Hr) as Hc. rewrite Hr' in Hc.
      apply change_frozen in Hc as (_ & _ & _ & -> & _). by apply Hmax.
    + destruct (apply_fresh _ _ _ _ Hr Hr') as [Heq _]. rewrite Heq in Hid. lia.
Qed.

Lemma claim_apply (w : string) (batch lease now : Z) (locked : picks) (js : list Job)
  (t t' : table) :
  Claim DbOk w batch lease now locked t = (Ok js, t') →
  t' = apply (JClaim DbOk w batch lease now locked) t
  ∧ ∀ j, j ∈ js → ∃ r, rows t !! job_ID j = Some r ∧ job_MaxAttempts j = max_attempts r.
Proof.
  intros Hc. split; [simpl; by rewrite Hc|]. intros j Hj. unfold Claim in Hc.
  destruct (batch <? 0); [done|].
  assert (Hjs : (claimSQL w batch lease now locked t).1 = js) by (by injection Hc as <- _).
  rewrite <- Hjs in Hj. apply elem_of_claimed in Hj as (id & r & -> & Hin). exists r. split; [|done].
  by apply claim_rows_spec in Hin as [? _].
Qed.

Lemma fleet_step_ok (s s' : fleet) : fleet_ok s → fleet_step s s' → fleet_ok s'.
Proof.
  intros Hok Hstep. destruct Hstep as [w batch lease now locked js t t' C Hc
    | io cfg w j cause draw now t C Hj | o t C Ho].
  - destruct (claim_apply _ _ _ _ _ _ _ _ Hc) as [-> Hjs].
    destruct (apply_fleet_ok (JClaim DbOk w batch lease now locked) t C) as (H1 & H2 & H3);
      [done..|]. split_and!; auto.
    intros w' j [Hj|Hj]%elem_of_app; [|by apply H3 in Hj].
    apply list_elem_of_fmap in Hj as (j' & [= -> ->] & Hj).
    destruct (Hjs j' Hj) as (r & Hr & Hm). destruct Hok as (Hids & Hb & _).
    simpl in Hids, Hb. pose proof (apply_next_id (JClaim DbOk w batch lease now locked) t).
    pose proof (Hids _ _ Hr) as Hlt. simpl in *. split; [lia|]. intros r' Hr'.
    pose proof (apply_changes (JClaim DbOk w batch lease now locked) t Hids _ r Hr) as Hch.
    simpl in Hch. rewrite Hr' in Hch. apply change_frozen in Hch as (_ & _ & _ & -> & _). done.
  - rewrite finish_op. apply apply_fleet_ok; [|done]. intros id r Hr.
    destruct Hok as (_ & _ & HC). destruct (HC w j Hj) as [_ Hmax]. simpl in Hmax.
    unfold chosen. destruct cause as [e|]; [|done].
    destruct (snooze_of (Some e)); [done|]. destruct (negb _); [done|].
    destruct (maxAttempts cfg j <=? job_Attempt j) eqn:E; [done|]. simpl. intros Hg.
    pose proof (guarded_uniq _ _ _ _ Hg) as ->. rewrite (Hmax r Hr).
    pose proof (maxAttempts_le cfg j). zbool. lia.
  - apply apply_fleet_ok; [|done]. intros id r _. by destruct o.
Qed.

Lemma fleet_init_ok : fleet_ok (empty_table, []).
Proof.
  split_and!; simpl; [apply map_Forall_empty..|]. by intros w j ?%elem_of_nil.
Qed.

(** ** Registrations *)

Lemma remove_one_perm (j : Job) (l : list Job) : j ∈ l → l ≡ₚ j :: remove_one j l.
Proof.
  induction l as [|x l IH]; [by intros ?%elem_of_nil|]. simpl. intros Hj.
  destruct (decide (x = j)) as [->|Hne]; [done|].
  apply elem_of_cons in Hj as [->|Hj]; [done|]. rewrite (IH Hj) at 1. by constructor.
Qed.

(** What the pool should have registered: a job being handed over or not yet
    started has no handler to cancel, a started one has. *)
Definition reg (b : bool) (j : Job) : Z * bool := (job_ID j, b).
Definition registered (s : pstate) : list (Z * bool) :=
  (reg false <$> option_list (offering s)) ++ (reg false <$> received s)
  ++ (reg true <$> started s) ++ (reg true <$> closing s).

Definition owned (s : pstate) : list Z := (job_ID <$> pending s) ++ (registered s).*1.

Definition tracking (s : pstate) : Prop :=
  NoDup (owned s) ∧ inflight s = list_to_map (registered s).

(** A claim that returns no job a worker of this pool is still at. *)
Definition fresh_claim (e : pevent) (s s' : pstate) : Prop :=
  match e with
  | EvClaim _ _ _ => ∀ j, j ∈ pending s' → job_ID j ∉ job_ID <$> busy s
  | _ => True
  end.

Inductive preach (cfg : Queue) (w : string) (hs : Handlers) : pstate → Prop :=
  | preach_idle t : preach cfg w hs (idle_pool t)
  | preach_step e s s' :
      preach cfg w hs s → pexec cfg w hs e s = Some s' → fresh_claim e s s' →
      preach cfg w hs s'.

Lemma registered_ids (s : pstate) :
  (registered s).*1 = job_ID <$> option_list (offering s) ++ busy s.
Proof.
  unfold registered, busy. rewrite !fmap_app, <- !list_fmap_compose. done.
Qed.

Lemma claim_distinct (io : db) (w : string) (batch lease now : Z) (locked : picks) (t t' : table)
  (js : list Job) :
  Claim io w batch lease now locked t = (Ok js, t') → NoDup (job_ID <$> js).
Proof.
  unfold Claim, call. destruct (batch <? 0); [done|]. destruct io; [|done].
  intros Hc. assert (Hjs : (claimSQL w batch lease now locked t).1 = js) by (by injection Hc as <- _).
  rewrite <- Hjs, claimed_ids. apply claim_rows_NoDup.
Qed.

(** The three ways a step moves the registrations. *)
Lemma tracking_perm (s s' : pstate) :
  tracking s → inflight s' = inflight s → pending s' = pending s →
  registered s' ≡ₚ registered s → tracking s'.
Proof.
  intros [Hnd Hin] Hi Hp Hr. unfold tracking, owned in *. rewrite Hi, Hp.
  split; [by rewrite Hr|]. rewrite Hin. symmetry. apply list_to_map_proper; [|done]. rewrite Hr.
  by apply NoDup_app in Hnd as (_ & _ & ?).
Qed.

Lemma tracking_untrack (s s' : pstate) (j : Job) (b : bool) (ps : list Job) :
  tracking s → inflight s' = untrack (job_ID j) (inflight s) → pending s' = ps →
  ps `sublist_of` pending s → registered s ≡ₚ reg b j :: registered s' → tracking s'.
Proof.
  intros [Hnd Hin] Hi <- Hp Hr. unfold tracking, owned in *.
  assert (Hnd' : NoDup ((job_ID <$> pending s) ++ job_ID j :: (registered s').*1))
    by (by rewrite Hr in Hnd).
  apply NoDup_app in Hnd' as (H1 & H2 & [H3 H4]%NoDup_cons). split.
  - apply NoDup_app. split_and!; [|intros x Hx|done].
    + by eapply sublist_NoDup, fmap_sublist.
    + intros Hx'. apply (H2 x); [|by right].
      eapply sublist_subseteq; [|exact Hx]. by apply fmap_sublist.
  - rewrite Hi, Hin.
    rewrite (list_to_map_proper _ (reg b j :: registered s')); [|by rewrite Hr; constructor|done].
    simpl. apply delete_insert_id. by apply not_elem_of_list_to_map_1.
Qed.

Lemma tracking_retrack (s s' : pstate) (j : Job) (b b' : bool) (l : list (Z * bool)) :
  tracking s → inflight s' = track (job_ID j) b' (inflight s) → pending s' = pending s →
  registered s ≡ₚ reg b j :: l → registered s' ≡ₚ reg b' j :: l → tracking s'.
Proof.
  intros [Hnd Hin] Hi Hp Hr Hr'. unfold tracking, owned in *. rewrite Hp. split.
  - rewrite Hr'. by rewrite Hr in Hnd.
  - rewrite Hr in Hnd. apply NoDup_app in Hnd as (_ & _ & Hnd).
    rewrite Hi, Hin. unfold track.
    rewrite (list_to_map_proper (registered s) (reg b j :: l)); [|by rewrite Hr|done].
    rewrite (list_to_map_proper (registered s') (reg b' j :: l)); [|by rewrite Hr'|done].
    simpl. by rewrite insert_insert_eq.
Qed.

Ltac take_out Hj :=
  apply remove_one_perm in Hj;
  match type of Hj with _ ≡ₚ _ :: ?l => generalize dependent l; intros rest Hj; intros end.

Ltac reg_perm :=
  unfold registered; simpl; rewrite ?fmap_app; simpl; solve_Permutation.

Lemma busy_ids (s : pstate) (j : Job) :
  job_ID j ∈ (registered s).*1 ↔
  job_ID j ∈ job_ID <$> option_list (offering s) ∨ job_ID j ∈ job_ID <$> busy s.
Proof. by rewrite registered_ids, fmap_app, elem_of_app. Qed.

Lemma tracking_step (cfg : Queue) (w : string) (hs : Handlers) (e : pevent) (s s' : pstate) :
  tracking s → pexec cfg w hs e s = Some s' → fresh_claim e s s' → tracking s'.
Proof.
  intros Ht Hs Hf. destruct e as [|io now lk| | |io|j|j io draw now|j|io now| | |io|f]; simpl in Hs;
    try (injection Hs as <-; by apply (tracking_perm s)).
  - destruct (pending s) eqn:Hp; [|done]. destruct (offering s) eqn:Ho; [done|].
    destruct (_ || _); [done|]. injection Hs as <-. apply (tracking_perm s); [done..| |].
    + by rewrite Hp.
    + unfold registered. by rewrite Ho.
  - destruct (pending s) eqn:Hp; [|done]. destruct (offering s) eqn:Ho; [done|].
    destruct (claiming s); [|done].
    destruct (Claim io w _ _ now lk (tbl s)) as [r t] eqn:Hc. injection Hs as <-. simpl in Hf.
    destruct Ht as [Hnd Hin]. unfold tracking, owned in *. rewrite Hp in Hnd. simpl in *.
    unfold registered in *. rewrite Ho in *. simpl in *. split; [|done].
    apply NoDup_app. split_and!; [|intros x Hx|done].
    + destruct r as [js|]; [|constructor]. by eapply claim_distinct.
    + apply list_elem_of_fmap in Hx as (j & -> & Hj). intros Hreg. apply (Hf j Hj).
      revert Hreg. unfold busy. rewrite !fmap_app, <- !list_fmap_compose. done.
  - destruct (pending s) as [|j rest] eqn:Hp; [done|]. destruct (offering s) eqn:Ho; [done|].
    injection Hs as <-. destruct Ht as [Hnd Hin]. unfold tracking, owned in *. rewrite Hp in Hnd.
    unfold registered in *. rewrite Ho in *. simpl in *. split; [|by rewrite Hin].
    revert Hnd. by rewrite Permutation_middle.
  - destruct (offering s) as [j|] eqn:Ho; [|done]. destruct (_ <? _); [|done].
    injection Hs as <-. apply (tracking_perm s); [done..|].
    unfold registered. rewrite Ho. reg_perm.
  - destruct (offering s) as [j|] eqn:Ho; [|done]. destruct (cancelled s); [|done].
    injection Hs as <-. apply (tracking_untrack s _ j false []); [done..|apply sublist_nil_l|].
    unfold registered. rewrite Ho. reg_perm.
  - destruct (decide _) as [Hj|]; [|done]. injection Hs as <-. take_out Hj.
    apply (tracking_retrack s _ j false true
      ((reg false <$> option_list (offering s) ++ rest) ++ (reg true <$> started s ++ closing s)));
      [done..| |].
    + unfold registered. rewrite Hj. reg_perm.
    + reg_perm.
  - destruct (decide _) as [Hj|]; [|done]. injection Hs as <-. take_out Hj.
    apply (tracking_perm s); [done..|]. unfold registered. rewrite Hj. reg_perm.
  - destruct (decide _) as [Hj|]; [|done]. injection Hs as <-. take_out Hj.
    apply (tracking_untrack s _ j true (pending s)); [done..|].
    unfold registered. rewrite Hj. reg_perm.
Qed.

(** What holds even when a claim returns a job that a worker of this pool still has, its
    lease lost meanwhile: nothing is registered that is not in hand. *)
Definition has (id : Z) (l : list Job) : Prop := id ∈ job_ID <$> l.

Definition loosely (s : pstate) : Prop :=
  (∀ id, is_Some (inflight s !! id) →
     has id (option_list (offering s)) ∨ has id (received s) ∨ has id (started s) ∨ has id (closing s))
  ∧ (∀ id, inflight s !! id = Some true → has id (started s) ∨ has id (closing s)).

Lemma has_cons (id : Z) (j : Job) (l : list Job) : has id (j :: l) ↔ id = job_ID j ∨ has id l.
Proof. apply elem_of_cons. Qed.
Lemma has_app (id : Z) (l l' : list Job) : has id (l ++ l') ↔ has id l ∨ has id l'.
Proof. unfold has. by rewrite fmap_app, elem_of_app. Qed.
Lemma has_nil (id : Z) : has id [] ↔ False.
Proof. apply elem_of_nil. Qed.

Lemma has_remove_one (j : Job) (l : list Job) (id : Z) :
  has id l → id = job_ID j ∨ has id (remove_one j l).
Proof.
  induction l as [|x l IH]; simpl; [by intros ?%has_nil|].
  destruct (decide (x = j)) as [->|Hne]; rewrite !has_cons; tauto.
Qed.

Lemma loosely_step (cfg : Queue) (w : string) (hs : Handlers) (e : pevent) (s s' : pstate) :
  loosely s → pexec cfg w hs e s = Some s' → loosely s'.
Proof.
  intros [H1 H2] Hs.
  destruct e as [|io now lk| | |io|j|j io draw now|j|io now| | |io|f]; simpl in Hs;
    try (injection Hs as <-; exact (conj H1 H2)).
  - destruct (pending s); [|done]. destruct (offering s) eqn:Ho; [done|]. destruct (_ || _); [done|].
    injection Hs as <-. exact (conj H1 H2).
  - destruct (pending s); [|done]. destruct (offering s) eqn:Ho; [done|]. destruct (claiming s); [|done].
    destruct (Claim io w _ _ now lk (tbl s)) as [r t]. injection Hs as <-.
    exact (conj H1 H2).
  - destruct (pending s) as [|j rest]; [done|]. destruct (offering s) eqn:Ho; [done|].
    injection Hs as <-. unfold track.
    split; intros id; simpl; rewrite ?has_cons, lookup_insert; case_decide; subst; auto; [|done].
    intros Hi. destruct (H1 id Hi) as [Hx|Hx]; [by apply has_nil in Hx|auto].
  - destruct (offering s) as [j|] eqn:Ho; [|done]. destruct (_ <? _); [|done]. injection Hs as <-.
    split; [|exact H2]. intros id Hi. specialize (H1 id Hi). simpl in *.
    rewrite has_app. tauto.
  - destruct (offering s) as [j|] eqn:Ho; [|done]. destruct (cancelled s); [|done]. injection Hs as <-.
    unfold untrack. split; intros id; simpl; rewrite lookup_delete; case_decide; try (by intros [? ?]);
      try done; [|auto].
    intros Hi. specialize (H1 id Hi). simpl in H1.
    rewrite has_cons, has_nil in H1. destruct H1 as [[->|[]]|?]; [done|auto].
  - destruct (decide _) as [Hj|]; [|done]. injection Hs as <-. unfold track.
    split; intros id; simpl; rewrite has_cons, lookup_insert; case_decide; subst; auto.
    + intros Hi. destruct (H1 id Hi) as [?|[Hx|?]]; [tauto| |tauto]. apply (has_remove_one j) in Hx. tauto.
    + intros Hi. specialize (H2 id Hi). tauto.
  - destruct (decide _) as [Hj|]; [|done]. injection Hs as <-.
    split; intros id Hi; simpl in *; rewrite has_cons.
    + destruct (H1 id Hi) as [?|[?|[Hx|?]]]; [tauto..| |tauto]. apply (has_remove_one j) in Hx. tauto.
    + destruct (H2 id Hi) as [Hx|?]; [|tauto]. apply (has_remove_one j) in Hx. tauto.
  - destruct (decide _) as [Hj|]; [|done]. injection Hs as <-. unfold untrack.
    split; intros id; simpl; rewrite lookup_delete; case_decide; try (by intros [? ?]); try done; intros Hi.
    + destruct (H1 id Hi) as [?|[?|[?|Hx]]]; [tauto..|]. apply (has_remove_one j) in Hx as [->|?]; tauto.
    + destruct (H2 id Hi) as [?|Hx]; [tauto|]. apply (has_remove_one j) in Hx as [->|?]; tauto.
Qed.

Lemma pexecs_loosely (cfg : Queue) (w : string) (hs : Handlers) (es : list pevent) (s s' : pstate) :
  loosely s → pexecs cfg w hs es s = Some s' → loosely s'.
Proof.
  revert s. induction es as [|e es IH]; simpl; intros s Hl Hs; [by simplify_eq|].
  destruct (pexec cfg w hs e s) as [s1|] eqn:E; [|done]. by eapply IH; [eapply loosely_step|].
Qed.

Lemma preach_tracking (cfg : Queue) (w : string) (hs : Handlers) (s : pstate) :
  preach cfg w hs s → tracking s.
Proof.
  induction 1 as [t|e s s' _ IH Hs Hf]; [split; [constructor|done]|]. by eapply tracking_step.
Qed.

(** ** Heartbeats and drains *)

Lemma snapshot_ids (m : gmap Z bool) (id : Z) : id ∈ (snapshot m).1 ↔ is_Some (m !! id).
Proof.
  unfold snapshot. simpl. rewrite list_elem_of_fmap. split.
  - intros ([i b] & -> & Hi%elem_of_map_to_list). by exists b.
  - intros [b Hb]. exists (id, b). by rewrite elem_of_map_to_list.
Qed.

Lemma snapshot_cancels (m : gmap Z bool) (id : Z) :
  id ∈ (snapshot m).2 ↔ m !! id = Some true.
Proof.
  unfold snapshot. simpl. rewrite list_elem_of_fmap. split.
  - intros ([i b] & -> & [Hb Hi]%list_elem_of_filter). simpl in *. subst.
    by apply elem_of_map_to_list in Hi.
  - intros Hb. exists (id, true). rewrite list_elem_of_filter, elem_of_map_to_list. done.
Qed.

Lemma snapshot_NoDup (m : gmap Z bool) : NoDup (snapshot m).1.
Proof. apply NoDup_fst_map_to_list. Qed.

(** The rows a statement keyed by distinct ids affects: all of the ids' exactly
    when the count is their number. *)
Lemma affected_all (w : string) (ids : list Z) (t : table) :
  NoDup ids →
  let n := affected (λ id r, bool_decide (id ∈ ids) && held_by w r) t in
  n ≤ Z.of_nat (length ids)
  ∧ (n = Z.of_nat (length ids) ↔
     ∀ id, id ∈ ids → ∃ r, rows t !! id = Some r ∧ held_by w r = true).
Proof.
  intros Hnd n. unfold n, affected.
  set (m := filter _ (rows t)).
  assert (Hsub : dom m ⊆ list_to_set ids).
  { intros id [r Hr]%elem_of_dom. apply map_lookup_filter_Some in Hr as [_ Hp]. simpl in Hp.
    split_all. zbool. by apply elem_of_list_to_set. }
  assert (Hsize : size (list_to_set ids : gset Z) = length ids) by by apply size_list_to_set.
  assert (Hdom : size (dom m) = size m) by apply size_dom.
  split; [apply subseteq_size in Hsub; lia|]. split.
  - intros Heq id Hid.
    assert (Hall : list_to_set ids ⊆ dom m).
    { by rewrite (set_subseteq_size_eq _ _ Hsub) by lia. }
    assert (Hin : id ∈ dom m) by (apply Hall; by apply elem_of_list_to_set).
    apply elem_of_dom in Hin as [r Hr]. apply map_lookup_filter_Some in Hr as [Hr Hp].
    exists r. simpl in Hp. split_all. done.
  - intros Hall. assert (Heq : dom m = list_to_set ids).
    { apply set_eq_subseteq. split; [done|]. intros id Hid%elem_of_list_to_set.
      destruct (Hall id Hid) as (r & Hr & Hh). apply elem_of_dom. exists r.
      apply map_lookup_filter_Some. split; [done|]. simpl. rewrite Hh.
      by rewrite bool_decide_eq_true_2. }
    rewrite Heq in Hdom. lia.
Qed.

Lemma heartbeat_row (w : string) (ids : list Z) (lease now : Z) (t : table) (id : Z) (r : Row) :
  id ∈ ids → rows t !! id = Some r → held_by w r = true →
  ∃ r', rows (Heartbeat DbOk w ids lease now t).2 !! id = Some r'
    ∧ held_by w r' = true ∧ attempt r' = attempt r ∧ lease_expires_at r' = Some (now + lease).
Proof.
  intros Hid Hr Hh. destruct ids as [|i ids]; [by apply elem_of_nil in Hid|].
  eexists. split.
  - etransitivity; [apply lookup_update|]. rewrite Hr. simpl.
    rewrite (bool_decide_eq_true_2 _ Hid), Hh. simpl. done.
  - done.
Qed.

Lemma beat_ok (cfg : Queue) (w : string) (now : Z) (m : gmap Z bool) (t : table) :
  m ≠ ∅ →
  beat DbOk cfg w now m t
  = (if affected (λ id r, bool_decide (id ∈ (snapshot m).1) && held_by w r) t
          =? Z.of_nat (length (snapshot m).1)
     then [] else (snapshot m).2,
     (Heartbeat DbOk w (snapshot m).1 (Q_Lease cfg) now t).2).
Proof.
  intros Hm. unfold beat. destruct (snapshot m) as [ids cancels] eqn:E. simpl.
  destruct ids as [|i ids].
  - exfalso. apply Hm, map_empty. intros id.
    pose proof (snapshot_ids m id) as Hs. rewrite E in Hs. simpl in Hs.
    destruct (m !! id); [|done]. exfalso. eapply not_elem_of_nil, Hs. by eexists.
  - simpl. done.
Qed.

Lemma complete_frame (c : completion) (io : db) (w : string) (j : Job) (now : Z) (t : table)
  (id : Z) : id ≠ job_ID j → rows (complete c io w j now t).2 !! id = rows t !! id.
Proof.
  intros Hne.
  destruct c; simpl; unfold Succeed, Retry, Cancel, Discard, Snooze, terminal;
    apply (call_ind (λ t', rows t' !! id = rows t !! id)); [done| |done| |done| |done| |done| ];
    (etransitivity; [apply lookup_update|]; destruct (rows t !! id) as [r|]; [|done]; simpl;
     destruct (guarded w j id r) eqn:Hg; [by apply guarded_uniq in Hg|done]).
Qed.

Lemma pool_ids (s : pstate) (id : Z) :
  tracking s → id ∈ (registered s).*1 → is_Some (inflight s !! id).
Proof.
  intros [_ ->] Hid. destruct (list_to_map (registered s) !! id) eqn:E; [by eexists|].
  by apply not_elem_of_list_to_map_2 in E.
Qed.

Lemma pool_cancels (cfg : Queue) (w : string) (hs : Handlers) (s : pstate) (id : Z) :
  preach cfg w hs s →
  inflight s !! id = Some true ↔ id ∈ job_ID <$> started s ++ closing s.
Proof.
  intros [Hnd Hin]%preach_tracking. apply NoDup_app in Hnd as (_ & _ & Hnd).
  rewrite Hin, <- elem_of_list_to_map by done. unfold registered.
  rewrite fmap_app, !elem_of_app, !list_elem_of_fmap. unfold reg. split.
  - intros [(j & ? & _)|[(j & ? & _)|[(j & [=] & Hj)|(j & [=] & Hj)]]]; try done; eauto.
  - intros [(j & -> & Hj)|(j & -> & Hj)]; eauto 6.
Qed.

Lemma releaseInflight_ok (w : string) (m : gmap Z bool) (t : table) :
  m ≠ ∅ → (releaseInflight DbOk w m t).2 = apply (JRelease DbOk w (snapshot m).1) t.
Proof.
  intros Hm. unfold releaseInflight. destruct (snapshot m) as [ids cancels]. simpl.
  by destruct ids.
Qed.

Lemma released_unheld (w : string) (ids : list Z) (t : table) (j : Job) (r : Row) (os : list jop) :
  ids_ok t → rows t !! job_ID j = Some r → job_ID j ∈ ids →
  Forall (λ o, ¬ claims_for w o) os →
  ∀ q, rows (runs os (apply (JRelease DbOk w ids) t)) !! job_ID j = Some q →
  guarded w j (job_ID j) q = false.
Proof.
  intros Hids Hr Hin Hos.
  destruct (apply_release_row w ids t _ _ Hr Hin) as (r1 & Hr1 & Hun).
  destruct (runs_always (λ o, ¬ claims_for w o) (job_ID j) (unheld w) os
              (apply (JRelease DbOk w ids) t)) as [_ Hal].
  - intros o q q'. apply unheld_change.
  - done.
  - by apply apply_ids_ok.
  - unfold always. by rewrite Hr1.
  - intros q Hq. unfold always in Hal. rewrite Hq in Hal.
    unfold guarded, claimGuard. by rewrite Hal, andb_false_r.
Qed.

(** A statement over some ids leaves the other rows alone. *)
Lemma ids_frame (p : Row → bool) (f : Row → Row) (ids : list Z) (t : table) (id : Z) :
  id ∉ ids →
  rows (update_where (λ id r, bool_decide (id ∈ ids) && p r) f t) !! id = rows t !! id.
Proof.
  intros Hid. rewrite lookup_update. destruct (rows t !! id); [|done]. simpl.
  by rewrite bool_decide_eq_false_2.
Qed.

Lemma ids_frame_release (io : db) (w : string) (ids : list Z) (t : table) (id : Z) :
  id ∉ ids → rows (Release io w ids t).2 !! id = rows t !! id.
Proof.
  intros Hid. destruct ids as [|i ids]; [done|].
  apply (call_ind (λ t', rows t' !! id = rows t !! id)); [done|]. by apply ids_frame.
Qed.

Lemma ids_frame_heartbeat (io : db) (w : string) (ids : list Z) (lease now : Z) (t : table)
  (id : Z) : id ∉ ids → rows (Heartbeat io w ids lease now t).2 !! id = rows t !! id.
Proof.
  intros Hid. destruct ids as [|i ids]; [done|].
  apply (call_ind (λ t', rows t' !! id = rows t !! id)); [done|]. by apply ids_frame.
Qed.

Lemma beat_frame (io : db) (cfg : Queue) (w : string) (now : Z) (m : gmap Z bool) (t : table)
  (id : Z) : m !! id = None → rows (beat io cfg w now m t).2 !! id = rows t !! id.
Proof.
  intros Hm. assert (Hid : id ∉ (snapshot m).1)
    by (intros [b Hb]%snapshot_ids; congruence).
  unfold beat. destruct (snapshot m) as [ids cancels]. simpl in Hid.
  destruct ids as [|i ids]; [done|].
  pose proof (ids_frame_heartbeat io w _ (Q_Lease cfg) now t id Hid) as Hf.
  destruct (Heartbeat _ _ _ _ _ _) as [[n|e] t']; done.
Qed.

Lemma releaseInflight_frame (io : db) (w : string) (m : gmap Z bool) (t : table) (id : Z) :
  m !! id = None → rows (releaseInflight io w m t).2 !! id = rows t !! id.
Proof.
  intros Hm. assert (Hid : id ∉ (snapshot m).1)
    by (intros [b Hb]%snapshot_ids; congruence).
  unfold releaseInflight. destruct (snapshot m) as [ids cancels]. simpl in Hid.
  destruct ids as [|i ids]; [done|].
  pose proof (ids_frame_release io w _ t id Hid) as Hf.
  destruct (Release _ _ _ _) as [[n|e] t']; done.
Qed.

Lemma wraps_as_snooze (e e' : err) : wraps e e' → errors_as_snooze e' = errors_as_snooze e.
Proof. induction 1; simpl; auto. Qed.

(** Runs of the pool, checking as they go that claims are fresh. *)
Fixpoint pruns (cfg : Queue) (w : string) (hs : Handlers) (es : list pevent) (s : pstate)
  : option pstate :=
  match es with
  | [] => Some s
  | e :: es =>
      s' ← pexec cfg w hs e s;
      if match e with
         | EvClaim _ _ _ =>
             forallb (λ j, bool_decide (job_ID j ∉ job_ID <$> busy s)) (pending s')
         | _ => true
         end
      then pruns cfg w hs es s' else None
  end.

Lemma pruns_preach (cfg : Queue) (w : string) (hs : Handlers) (es : list pevent) (s s' : pstate) :
  preach cfg w hs s → pruns cfg w hs es s = Some s' → preach cfg w hs s'.
Proof.
  revert s. induction es as [|e es IH]; simpl; intros s Hs Hr; [by simplify_eq|].
  destruct (pexec cfg w hs e s) as [s1|] eqn:E; [|done]. simpl in Hr.
  match type of Hr with context [if ?b then _ else _] => destruct b eqn:Hb end; [|done].
  apply (IH s1); [|done]. eapply preach_step; [done..|]. destruct e; simpl; try done.
  intros j Hj. rewrite forallb_forall in Hb. apply list_elem_of_In, Hb in Hj. by zbool.
Qed.

(** ** Properties *)

(** The handler's error says that trying again cannot help: it is marked terminal, or its
    class is one that does not pass. *)
Definition hopeless (e : err) : Prop :=
  carries Apperr.ErrTerminal e ∨ ∃ k, class e k ∧ ¬ transient k.

Definition worth_retrying (e : err) : Prop :=
  ¬ carries Apperr.ErrTerminal e ∧ ∃ k, class e k ∧ transient k.

Lemma retryable_spec (e : err) :
  (retryable (Some e) = true → worth_retrying e) ∧ (retryable (Some e) = false → hopeless e).
Proof.
  unfold retryable, IsTerminal, Retryable, worth_retrying, hopeless.
  destruct (errors_is e Apperr.ErrTerminal) eqn:Ht.
  - split; [done|]. left. by apply is_chain.
  - apply not_is_chain in Ht. pose proof (class_KindOf e) as Hk.
    pose proof (Retryable_transient (KindOf (Some e))) as Hr.
    split; intros Hx.
    + split; [done|]. eexists. split; [exact Hk|]. by apply Hr.
    + right. eexists. split; [exact Hk|]. rewrite <- Hr, Hx. done.
Qed.

(** C8: an outcome is recorded as the handler's error says.  While the claim is
    held, finishing the job always takes effect: the row leaves the running
    state, its lock and lease are dropped and no other row changes.  No error
    succeeds it; the first snooze of the error's chain reschedules it and refunds the
    attempt; an error marked terminal anywhere in its chain, or whose class is a client's
    mistake, cancels it; any other retries it after the backoff while the effective
    budget lasts and discards it after that.  The error is recorded.  What an error says
    is read off its chain ([Apperr.chain]), not by the functions [write] uses. *)
Theorem finish_settles (cfg : Queue) (w : string) (j : Job) (cause : option err) (draw now : Z)
  (t : table) (r : Row) :
  rows t !! job_ID j = Some r → guarded w j (job_ID j) r = true →
  ∃ outcome t' r',
    finish DbOk cfg w j cause draw now t = (outcome, t') ∧ rows t' !! job_ID j = Some r'
    ∧ locked_by r' = None ∧ lease_expires_at r' = None
    ∧ (∀ id, id ≠ job_ID j → rows t' !! id = rows t !! id)
    ∧ match outcome with
      | OutcomeSucceeded =>
          cause = None ∧ state r' = StateSucceeded ∧ finalized_at r' = Some now
          ∧ errors r' = errors r
      | OutcomeSnoozed =>
          ∃ e d reason, cause = Some e ∧ first_in as_snooze e = Some (d, reason)
            ∧ state r' = StateScheduled ∧ scheduled_at r' = now + d
            ∧ attempt r' = attempt r - 1 ∧ errors r' = errors r
      | OutcomeCancelled =>
          ∃ e, cause = Some e ∧ first_in as_snooze e = None ∧ hopeless e
            ∧ state r' = StateCancelled ∧ finalized_at r' = Some now
            ∧ errors r' = errors r ++ [mkErrorEntry now (attempt r) (Some w) (errText cause)]
      | OutcomeDiscarded =>
          ∃ e, cause = Some e ∧ first_in as_snooze e = None ∧ worth_retrying e
            ∧ (job_MaxAttempts j ≤ attempt r ∨ 0 < Q_MaxAttempts cfg ≤ attempt r)
            ∧ state r' = StateDiscarded ∧ finalized_at r' = Some now
            ∧ errors r' = errors r ++ [mkErrorEntry now (attempt r) (Some w) (errText cause)]
      | OutcomeRetried =>
          ∃ e, cause = Some e ∧ first_in as_snooze e = None ∧ worth_retrying e
            ∧ attempt r < job_MaxAttempts j ∧ (0 < Q_MaxAttempts cfg → attempt r < Q_MaxAttempts cfg)
            ∧ state r' = StateRetryable
            ∧ scheduled_at r' = now + For (NewBackoff (Q_Backoff cfg)) (attempt r) draw
            ∧ errors r' = errors r ++ [mkErrorEntry now (attempt r) (Some w) (errText cause)]
      | OutcomeLost => False
      end.
Proof.
  intros Hr Hg. rewrite (finish_chosen cfg w j cause draw now t r Hr Hg).
  assert (Ha : job_Attempt j = attempt r) by (by apply guarded_spec in Hg as (_ & _ & _ & ->)).
  destruct (complete_row (chosen cfg j cause draw).2 w j now t r Hr Hg)
    as (r' & Hr' & Hst & Hat & Hsc & Hfi & Hlo & Hle & _ & Her).
  do 3 eexists. split; [done|]. split; [done|]. split; [done|]. split; [done|].
  split; [intros id; apply complete_frame|].
  unfold chosen in *. destruct cause as [e|]; simpl in *.
  2:{ rewrite Her. by rewrite app_nil_r. }
  rewrite as_snooze_chain in *. destruct (first_in as_snooze e) as [[d reason]|] eqn:Hsn; simpl in *.
  { exists e, d, reason. rewrite Her. by rewrite app_nil_r. }
  pose proof (retryable_spec e) as [Hyes Hno]. destruct (retryable (Some e)) eqn:Hre; simpl in *.
  2:{ exists e. by split_and!; auto. }
  specialize (Hyes eq_refl). unfold maxAttempts in *. rewrite Ha in *.
  destruct (_ && _) eqn:Hcap; split_all; destruct (_ <=? attempt r) eqn:Hmax; simpl in *; zbool;
    exists e; split_and!; try done; try lia; intros; zbool; lia.
Qed.

(** C10: attempts stay within their budget.  However a fleet of workers claims,
    finishes (late, twice, or with lost writes), heartbeats, releases, reaps,
    schedules and purges, no job ever records more attempts than its row allows,
    and a job waiting to run again always has an attempt left. *)
Theorem attempt_budget (s : fleet) (id : Z) (r : Row) :
  rtc fleet_step (empty_table, []) s → rows s.1 !! id = Some r →
  attempt r ≤ max_attempts r
  ∧ (live (state r) = true → state r ≠ StateRunning → attempt r < max_attempts r).
Proof.
  intros Hrun Hr.
  assert (Hok : fleet_ok s)
    by (eapply rtc_invariant; [apply fleet_step_ok|exact Hrun|apply fleet_init_ok]).
  destruct Hok as (_ & Hb & _). by destruct (Hb id r Hr) as [? _].
Qed.

(** C11: the pool's bookkeeping.  Whatever happens, nothing is registered that is not handed
    over and not yet done with, and nothing has a handler to cancel whose handler was not
    started.  As long as no claim returns a job a worker of this pool is still at - it does
    when a lease was lost meanwhile, [reclaimed_unregistered] - the converse holds too: the
    registered jobs are exactly those in hand, those with a handler to cancel exactly the
    started ones; so when none is registered nothing is in a worker's hands, which is what
    [Stop] polls for. *)
Theorem pool_tracks (cfg : Queue) (w : string) (hs : Handlers) (s : pstate) :
  (∀ t es, pexecs cfg w hs es (idle_pool t) = Some s →
     (∀ id, is_Some (inflight s !! id) → id ∈ job_ID <$> option_list (offering s) ++ busy s)
     ∧ (∀ id, inflight s !! id = Some true → id ∈ job_ID <$> started s ++ closing s))
  ∧ (preach cfg w hs s →
     NoDup (job_ID <$> pending s ++ option_list (offering s) ++ busy s)
     ∧ (∀ id, is_Some (inflight s !! id) ↔ id ∈ job_ID <$> option_list (offering s) ++ busy s)
     ∧ (∀ id, inflight s !! id = Some true ↔ id ∈ job_ID <$> started s ++ closing s)
     ∧ (inflight s = ∅ → offering s = None ∧ busy s = [])).
Proof.
  split.
  { intros t es Hs. destruct (pexecs_loosely cfg w hs es (idle_pool t) s) as [H1 H2]; [|done|].
    { split; intros id; simpl; rewrite lookup_empty; [by intros [? ?]|done]. }
    split; intros id Hi; unfold busy.
    - apply H1 in Hi. change (has id (option_list (offering s) ++ received s ++ started s ++ closing s)).
      rewrite !has_app. tauto.
    - apply H2 in Hi. change (has id (started s ++ closing s)). rewrite has_app. tauto. }
  intros Hp. pose proof (preach_tracking _ _ _ _ Hp) as [Hnd Hin].
  split; [|split; [|split]].
  - unfold owned in Hnd. by rewrite registered_ids, <- fmap_app in Hnd.
  - intros id. rewrite Hin, <- registered_ids. split.
    + intros [b Hb%elem_of_list_to_map_2]. apply list_elem_of_fmap. by exists (id, b).
    + intros Hid. destruct (list_to_map (registered s) !! id) eqn:E; [by eexists|].
      by apply not_elem_of_list_to_map_2 in E.
  - intros id. by apply (pool_cancels cfg w hs).
  - intros He. destruct (registered s) as [|[id b] l] eqn:E.
    + unfold registered in E. unfold busy. destruct (offering s), (received s), (started s),
        (closing s); done.
    + rewrite He in Hin. symmetry in Hin. by apply (insert_non_empty (list_to_map l) id b) in Hin.
Qed.

(** What a heartbeat does.  Every registered job the worker still holds gets a
    full lease more.  When all registered jobs are held no handler is cancelled;
    when even one is not - because its lease was lost, or merely because it has
    just finished and is still registered - every started handler of the pool is
    cancelled, including those whose leases were extended. *)
Lemma beat_exact (cfg : Queue) (w : string) (hs : Handlers) (s : pstate) (now : Z) :
  preach cfg w hs s →
  let '(cancels, t') := beat DbOk cfg w now (inflight s) (tbl s) in
  (∀ id r, is_Some (inflight s !! id) → rows (tbl s) !! id = Some r → held_by w r = true →
     ∃ r', rows t' !! id = Some r' ∧ held_by w r' = true ∧ attempt r' = attempt r
       ∧ lease_expires_at r' = Some (now + Q_Lease cfg))
  ∧ ((∀ id, is_Some (inflight s !! id) →
        ∃ r, rows (tbl s) !! id = Some r ∧ held_by w r = true) → cancels = [])
  ∧ ((∃ id, is_Some (inflight s !! id)
        ∧ ∀ r, rows (tbl s) !! id = Some r → held_by w r = false) →
     ∀ id, id ∈ cancels ↔ id ∈ job_ID <$> started s ++ closing s).
Proof.
  intros Hp. destruct (decide (inflight s = ∅)) as [He|He].
  { rewrite He. unfold beat, snapshot. rewrite map_to_list_empty. simpl.
    split_and!; [|done|]; intros; split_all;
      match goal with H : is_Some (∅ !! _) |- _ => rewrite lookup_empty in H; by destruct H end. }
  rewrite beat_ok by done. split_and!.
  - intros id r Hid Hr Hh. apply heartbeat_row; [by apply snapshot_ids|done..].
  - intros Hall. destruct (affected_all w _ (tbl s) (snapshot_NoDup (inflight s))) as [_ [_ Heq]].
    rewrite Heq, Z.eqb_refl; [done|]. intros id Hid%snapshot_ids. auto.
  - intros (id & Hid%snapshot_ids & Hno).
    destruct (_ =? _) eqn:E; zbool.
    + destruct (affected_all w _ (tbl s) (snapshot_NoDup (inflight s))) as [_ [Hall _]].
      specialize (Hall E). destruct (Hall id Hid) as (r & Hr & Hh). rewrite (Hno r Hr) in Hh. done.
    + intros id'. rewrite snapshot_cancels. by apply (pool_cancels cfg w hs).
Qed.

(** C17: a drain hands back what is left.  Releasing at the drain deadline makes every
    registered job this pool still holds available again with its attempt
    refunded, and whatever its dying handler then reports is refused, as long
    as the worker claims nothing more.  As long as no claim has returned a job a worker of the
    pool was still at, all that is in hand is registered ([pool_tracks]). *)
Theorem drain_hands_back (cfg : Queue) (w : string) (hs : Handlers) (s s' : pstate) (j : Job)
  (r : Row) :
  pexec cfg w hs (EvReleaseAll DbOk) s = Some s' → ids_ok (tbl s) →
  is_Some (inflight s !! job_ID j)
  ∨ preach cfg w hs s ∧ j ∈ option_list (offering s) ++ busy s →
  rows (tbl s) !! job_ID j = Some r →
  (held_by w r = true →
     ∃ r', rows (tbl s') !! job_ID j = Some r' ∧ state r' = StateAvailable
       ∧ attempt r' = attempt r - 1 ∧ locked_by r' = None ∧ claimable (scheduled_at r) r' = true)
  ∧ ∀ os cause draw now, Forall (λ o, ¬ claims_for w o) os →
      finish DbOk cfg w j cause draw now (runs os (tbl s')) = (OutcomeLost, runs os (tbl s')).
Proof.
  intros Hs Hids Hj Hr. injection Hs as <-. simpl.
  assert (Hin : job_ID j ∈ (snapshot (inflight s)).1).
  { apply snapshot_ids. destruct Hj as [Hj|[Hp Hj]]; [done|].
    apply pool_ids; [by eapply preach_tracking|]. rewrite registered_ids.
    by apply list_elem_of_fmap_2. }
  rewrite releaseInflight_ok by (intros E; rewrite E in Hin; by apply snapshot_ids in Hin as [? ?]).
  split.
  - intros Hh. destruct (snapshot (inflight s)).1 as [|i ids]; [by apply elem_of_nil in Hin|].
    eexists. split.
    + etransitivity; [apply lookup_update|]. rewrite Hr. simpl.
      rewrite (bool_decide_eq_true_2 _ Hin), Hh. simpl. done.
    + split_and!; try done. apply claimable_spec. simpl. split; [done|lia].
  - intros os cause draw now Hos. apply (finish_lost DbOk).
    by apply (released_unheld w (snapshot (inflight s)).1 (tbl s) _ r).
Qed.

(** An aborted dispatch strands the rest of its batch.  When the pool's context
    ends while a claimed job waits for a worker, that job is released, but the
    jobs of the batch behind it stay as the claim left them, held by this worker
    under a lease, registered nowhere: neither the heartbeat nor a later release
    of the pool reaches them, and only the end of the lease frees them. *)
Lemma abort_strands (cfg : Queue) (w : string) (hs : Handlers) (s s' : pstate) (j k : Job)
  (io io' : db) (now : Z) :
  preach cfg w hs s → offering s = Some j → k ∈ pending s →
  pexec cfg w hs (EvAbort io) s = Some s' →
  let kept t := rows t !! job_ID k = rows (tbl s) !! job_ID k in
  kept (tbl s') ∧ pending s' = [] ∧ inflight s' !! job_ID k = None
  ∧ kept (beat io' cfg w now (inflight s') (tbl s')).2
  ∧ kept (releaseInflight io' w (inflight s') (tbl s')).2.
Proof.
  intros Hp Ho Hk Hs. pose proof (preach_tracking _ _ _ _ Hp) as Ht.
  assert (Ht' : tracking s') by by eapply tracking_step.
  destruct Ht as [Hnd Hin]. unfold owned in Hnd.
  apply NoDup_app in Hnd as (_ & Hdis & _). specialize (Hdis (job_ID k)).
  simpl in Hs. rewrite Ho in Hs. destruct (cancelled s); [|done]. injection Hs as <-. simpl in *.
  assert (Hne : job_ID k ∉ (registered s).*1) by (by apply Hdis, list_elem_of_fmap_2).
  assert (Hkj : job_ID k ≠ job_ID j)
    by (intros E; apply Hne; rewrite registered_ids, Ho, E; by left).
  assert (Hn : untrack (job_ID j) (inflight s) !! job_ID k = None).
  { unfold untrack. rewrite lookup_delete_ne by done. rewrite Hin.
    by apply not_elem_of_list_to_map_1. }
  assert (Hrel : rows (Release io w [job_ID j] (tbl s)).2 !! job_ID k = rows (tbl s) !! job_ID k)
    by (apply ids_frame_release; by rewrite list_elem_of_singleton).
  split_and!; [done..| |].
  - rewrite beat_frame by done. done.
  - rewrite releaseInflight_frame by done. done.
Qed.

(** What the pool makes of an error does not depend on the context wrapped
    around it on the way up: classification, the message a client may see, and
    the outcome recorded for the job are those of the error inside. *)
Lemma outcome_wraps (cfg : Queue) (j : Job) (e e' : err) (draw : Z) :
  wraps e e' → IsTerminal (Some e') = IsTerminal (Some e) →
  KindOf (Some e') = KindOf (Some e) ∧ Message (Some e') = Message (Some e)
  ∧ Retryable (Some e') = Retryable (Some e)
  ∧ (chosen cfg j (Some e') draw).1 = (chosen cfg j (Some e) draw).1.
Proof.
  intros Hw Ht. destruct (wraps_classification e e' Hw) as (H1 & H2 & _ & H4).
  split_and!; [done..|]. unfold chosen, retryable, snooze_of. rewrite Ht, H4.
  rewrite (wraps_as_snooze e e' Hw). repeat case_match; done.
Qed.
End pool.

(** ** The properties at concrete pools *)

#[local] Existing Instance ConfigProps.plain_text.
#[local] Existing Instance amd64_conv.

Definition echo : Handlers := {[ "task.created" := λ _, HReturn None ]}.
Definition three_jobs : table :=
  runs [JEnqueue "task.created" "{}" "" 0 0; JEnqueue "task.updated" "{}" "" 0 1;
        JEnqueue "task.created" "{}" "" 0 2] empty_table.
Definition job (i : Z) : Job :=
  mkJob i (if i =? 2 then "task.updated" else "task.created") "{}" 1 5 (11 - i).

(** Three jobs claimed at 10: one handler runs, one job has just been written, and
    the third waits for a worker. *)
Definition busy_events : list pevent :=
  [EvCheck; EvClaim DbOk 10 ∅; EvOffer; EvSend; EvOffer; EvSend; EvStart (job 1); EvStart (job 2);
   EvWrite (job 2) DbOk 0 20].
Definition busy_pool : pstate :=
  default (idle_pool empty_table)
    (pruns Queue_SetDefaults "w1" echo busy_events (idle_pool three_jobs)).

Lemma busy_pool_reach : preach Queue_SetDefaults "w1" echo busy_pool.
Proof.
  apply (pruns_preach _ _ _ busy_events (idle_pool three_jobs)); [constructor|].
  apply default_Some. vm_eq.
Qed.

(** The race of [beat_exact]: both jobs' leases are the worker's, one has just been
    written as finished, and the heartbeat cancels the other's handler. *)
Example beat_race :
  inflight busy_pool = {[ 1 := true; 2 := true ]}
  ∧ lease_expires_at (row_at (tbl busy_pool) 1) = Some (10 + 30 * second)
  ∧ (1 ∈ (beat DbOk Queue_SetDefaults "w1" 25 (inflight busy_pool) (tbl busy_pool)).1)
  ∧ lease_expires_at (row_at
      (beat DbOk Queue_SetDefaults "w1" 25 (inflight busy_pool) (tbl busy_pool)).2 1)
    = Some (25 + 30 * second).
Proof. split; [vm_eq|]. split; [vm_eq|]. split; [vm_decide|vm_eq]. Qed.

(** A poll of [Stop] between two jobs of a batch sees nothing registered while the
    rest of the batch is still to be dispatched. *)
Example stop_between_jobs :
  let s := default (idle_pool empty_table)
             (pruns Queue_SetDefaults "w1" echo
                [EvCheck; EvClaim DbOk 10 ∅; EvDrain] (idle_pool three_jobs)) in
  draining s = true ∧ inflight s = ∅ ∧ length (pending s) = 3%nat.
Proof. split; [vm_eq|]. split; vm_eq. Qed.

(** A pool whose lease lapsed while its handler ran claims the job again; when the first
    attempt ends, the second is in a worker's hands and registered nowhere. *)
Example reclaimed_unregistered :
  let lapse t := runs [JReap DbOk 0 20 (100 * second); JSchedule DbOk (100 * second)] t in
  let again := mkJob 1 "task.created" "{}" 2 5 0 in
  let one := runs [JEnqueue "task.created" "{}" "" 0 0] empty_table in
  let s := default (idle_pool empty_table)
             (pexecs Queue_SetDefaults "w1" echo
                [EvCheck; EvClaim DbOk 10 ∅; EvOffer; EvSend;
                 EvStart (mkJob 1 "task.created" "{}" 1 5 10); EvOther lapse;
                 EvCheck; EvClaim DbOk (100 * second) ∅; EvOffer; EvSend; EvStart again;
                 EvWrite (mkJob 1 "task.created" "{}" 1 5 10) DbOk 0 (101 * second);
                 EvUntrack (mkJob 1 "task.created" "{}" 1 5 10)] (idle_pool one)) in
  started s = [again] ∧ inflight s = ∅ ∧ held_by "w1" (row_at (tbl s) 1) = true.
Proof. split; [vm_eq|]. split; vm_eq. Qed.

Lemma finish_settles_witness :
  let t := tbl busy_pool in
  ∃ outcome t' r',
    finish DbOk Queue_SetDefaults "w1" (job 1) (Some (ENew "boom")) 0 30 t = (outcome, t')
    ∧ rows t' !! 1 = Some r' ∧ locked_by r' = None ∧ lease_expires_at r' = None
    ∧ (∀ id, id ≠ 1 → rows t' !! id = rows t !! id)
    ∧ outcome ≠ OutcomeLost.
Proof.
  destruct (finish_settles Queue_SetDefaults "w1" (job 1) (Some (ENew "boom")) 0 30
              (tbl busy_pool) (row_at (tbl busy_pool) 1)) as (o & t' & r' & H1 & H2 & H3 & H4 & H5 & H6).
  - vm_eq.
  - vm_eq.
  - exists o, t', r'. repeat (split; [eassumption|]). intros ->. exact H6.
Defined.

Lemma fleet_claimed :
  rtc fleet_step (empty_table, [])
    (tbl (default (idle_pool empty_table)
            (pruns Queue_SetDefaults "w1" echo [EvCheck; EvClaim DbOk 10 ∅] (idle_pool three_jobs))),
     ((λ j, ("w1", j)) <$> (job <$> [1; 2; 3])) ++ []).
Proof.
  eapply rtc_l; [by apply (fleet_upkeep (JEnqueue "task.created" "{}" "" 0 0))|].
  eapply rtc_l; [by apply (fleet_upkeep (JEnqueue "task.updated" "{}" "" 0 1))|].
  eapply rtc_l; [by apply (fleet_upkeep (JEnqueue "task.created" "{}" "" 0 2))|].
  eapply rtc_l; [|apply rtc_refl].
  apply (fleet_claim "w1" 10 (30 * second) 10 ∅ (job <$> [1; 2; 3]) three_jobs _ []). vm_eq.
Qed.

Lemma attempt_budget_witness :
  let t := tbl (default (idle_pool empty_table)
             (pruns Queue_SetDefaults "w1" echo [EvCheck; EvClaim DbOk 10 ∅] (idle_pool three_jobs))) in
  attempt (row_at t 1) ≤ max_attempts (row_at t 1)
  ∧ (live (state (row_at t 1)) = true → state (row_at t 1) ≠ StateRunning →
     attempt (row_at t 1) < max_attempts (row_at t 1)).
Proof.
  intros t. eapply (attempt_budget _ 1); [apply fleet_claimed|vm_eq].
Defined.

Lemma pool_tracks_witness :
  NoDup (job_ID <$> pending busy_pool ++ option_list (offering busy_pool) ++ busy busy_pool)
  ∧ (∀ id, inflight busy_pool !! id = Some true
           ↔ id ∈ job_ID <$> started busy_pool ++ closing busy_pool).
Proof.
  destruct (pool_tracks Queue_SetDefaults "w1" echo busy_pool) as [_ Ht].
  destruct (Ht busy_pool_reach) as (H1 & _ & H2 & _).
  exact (conj H1 H2).
Defined.

Lemma beat_exact_witness :
  let '(cancels, t') := beat DbOk Queue_SetDefaults "w1" 25 (inflight busy_pool) (tbl busy_pool) in
  (∃ r', rows t' !! 1 = Some r' ∧ lease_expires_at r' = Some (25 + 30 * second))
  ∧ ∀ id, id ∈ cancels ↔ id ∈ job_ID <$> started busy_pool ++ closing busy_pool.
Proof.
  pose proof (beat_exact Queue_SetDefaults "w1" echo busy_pool 25 busy_pool_reach) as Hb.
  destruct (beat _ _ _ _ _ _) as [cancels t']. destruct Hb as (H1 & _ & H3). split.
  - destruct (H1 1 (row_at (tbl busy_pool) 1)) as (r' & ? & _ & _ & ?); [vm_decide|vm_eq..|].
    exists r'. split; assumption.
  - apply H3. exists 2. split; [vm_decide|]. intros r Hr.
    assert (r = row_at (tbl busy_pool) 2) as -> by (unfold row_at; by rewrite Hr).
    vm_eq.
Defined.

Lemma drain_hands_back_witness :
  let s' := set_tbl (releaseInflight DbOk "w1" (inflight busy_pool) (tbl busy_pool)).2 busy_pool in
  (∃ r', rows (tbl s') !! 1 = Some r' ∧ state r' = StateAvailable ∧ attempt r' = 0)
  ∧ finish DbOk Queue_SetDefaults "w1" (job 1) None 0 40 (tbl s') = (OutcomeLost, tbl s').
Proof.
  intros s'.
  destruct (drain_hands_back Queue_SetDefaults "w1" echo busy_pool s' (job 1)
              (row_at (tbl busy_pool) 1)) as [H1 H2].
  - reflexivity.
  - vm_decide.
  - right. split; [apply busy_pool_reach|vm_decide].
  - vm_eq.
  - split; [|apply (H2 [] None 0 40); constructor].
    destruct H1 as (r' & Hr' & Hs & Ha & _); [vm_eq|]. exists r'.
    split; [exact Hr'|]. split; [exact Hs|]. rewrite Ha. vm_eq.
Defined.

(** The context ends while the third job waits for a worker. *)
Definition aborting_pool : pstate :=
  default (idle_pool empty_table)
    (pruns Queue_SetDefaults "w1" echo [EvCheck; EvClaim DbOk 10 ∅; EvOffer; EvCancel]
       (idle_pool three_jobs)).

Lemma aborting_pool_reach : preach Queue_SetDefaults "w1" echo aborting_pool.
Proof.
  apply (pruns_preach _ _ _ [EvCheck; EvClaim DbOk 10 ∅; EvOffer; EvCancel] (idle_pool three_jobs));
    [constructor|]. apply default_Some. vm_eq.
Qed.

Lemma abort_strands_witness :
  let s' := default (idle_pool empty_table)
              (pexec Queue_SetDefaults "w1" echo (EvAbort DbOk) aborting_pool) in
  inflight s' !! 2 = None
  ∧ rows (beat DbOk Queue_SetDefaults "w1" 25 (inflight s') (tbl s')).2 !! 2
    = rows (tbl aborting_pool) !! 2
  ∧ held_by "w1" (row_at (tbl aborting_pool) 2) = true.
Proof.
  intros s'. destruct (abort_strands Queue_SetDefaults "w1" echo aborting_pool s' (job 1) (job 2)
              DbOk DbOk 25) as (_ & _ & H3 & H4 & _).
  - apply aborting_pool_reach.
  - vm_eq.
  - vm_decide.
  - unfold s'. vm_eq.
  - split; [exact H3|]. split; [exact H4|vm_eq].
Defined.

Lemma outcome_wraps_witness :
  let e := Apperr.New Unavailable "down" in
  (chosen Queue_SetDefaults (job 1) (Some (EWrap "deliver: " e "")) 0).1
  = (chosen Queue_SetDefaults (job 1) (Some e) 0).1.
Proof.
  intros e. apply (outcome_wraps Queue_SetDefaults (job 1) e (EWrap "deliver: " e "") 0).
  - apply wraps_context, wraps_refl.
  - done.
Defined.
