(* ===== verification/Outbox.v ===== *)
(** * The transactional outbox and the unit of work (src/internal/outbox/outbox.go,
    src/internal/postgres/tx.go, leader.go; src/internal/task/pgrepo/event.go)

    A transaction works on a private copy of the database, which becomes the
    database at commit.  What a context carries is the transaction in progress
    and the side effects put off until it commits. *)
From stdpp Require Import options.
From S2P Require Import Prelude GoStrings Apperr Task JobStore.

(** ** outbox.go *)

Record OutboxJob : Type := mkOutboxJob {
  oj_Kind : string;
  oj_Payload : result err string;  (* what marshalling the payload gives *)
  oj_UniqueKey : string;
  oj_MaxAttempts : Z;
}.

(** The [jobs_available] channel. *)
Definition Channel : string := "jobs_available".

(** [io] is a failure of the driver.  [inserted] is false for a duplicate key. *)
Definition Enqueue (io : option err) (j : OutboxJob) (now : Z) (t : table)
  : result err bool * table :=
  if decide (oj_Kind j = "") then (Err (ENew "outbox: job kind is required"), t)
  else match oj_Payload j with
       | Err e => (Err (EWrap ("outbox: marshal payload for " +:+ oj_Kind j +:+ ": ") e ""), t)
       | Ok payload =>
           let wrap e := EWrap ("outbox: enqueue " +:+ oj_Kind j +:+ ": ") e "" in
           match io with
           | Some e => (Err (wrap e), t)
           | None =>
               match insertSQL (oj_Kind j) payload (oj_UniqueKey j) (oj_MaxAttempts j) now t with
               | (Err e, t') => (Err (wrap e), t')
               | (Ok (Some _), t') => (Ok true, t')
               | (Ok None, t') => (Ok false, t')
               end
           end
       end.

(** ** The database and its transactions *)

Section unit_of_work.
Context `{UuidPkg}.

Record pgdb : Type := mkPg {
  pg_tasks : gmap uuid Task;
  pg_jobs : table;
}.

(** A rollback restores every row; values of the identity sequence stay spent. *)
Definition rollback (before after_ : pgdb) : pgdb :=
  mkPg (pg_tasks before) (mkTable (rows (pg_jobs before)) (next_id (pg_jobs after_))).

(** [unitOfWork]: the transaction's copy of the database, and the notifications to
    send once it has committed (the only side effects the program puts off). *)
Record unitOfWork : Type := mkUow { uow_tx : pgdb; uow_after : list string }.

(** What a context carries of it. *)
Definition Ctx : Type := option unitOfWork.

Definition WithTx (tx : pgdb) : Ctx := Some (mkUow tx []).

Definition TxFrom (ctx : Ctx) : option pgdb := uow_tx <$> ctx.

Definition AfterCommit (ctx : Ctx) (kind : string) : bool * Ctx :=
  match ctx with
  | None => (false, ctx)
  | Some u => (true, Some (mkUow (uow_tx u) (uow_after u ++ [kind])))
  end.

(** The hooks to run, in order, and the context without them. *)
Definition RunAfterCommit (ctx : Ctx) : list string * Ctx :=
  match ctx with
  | None => ([], ctx)
  | Some u => (uow_after u, Some (mkUow (uow_tx u) []))
  end.

(** What the process has done to the outside: the committed database, and the
    notifications sent on [Channel]. *)
Record world : Type := mkWorld { w_db : pgdb; w_sent : list string }.

(** [Notify] is best effort: [delivered] says whether the statement went through. *)
Definition Notify (delivered : bool) (kind : string) (s : world) : world :=
  if delivered then mkWorld (w_db s) (w_sent s ++ [kind]) else s.
End unit_of_work.

(** ** leader.go

    [lock_SQL] is what the advisory-lock query answers; [fn] runs only for the
    winner. *)
Definition WithLeader {A} (name : string) (quoted : string) (lock_SQL : result err bool)
  (fn : A → option err * A) (a : A) : result err bool * A :=
  match lock_SQL with
  | Err e => (Err (EWrap ("postgres: leader lock " +:+ quoted +:+ ": ") e ""), a)
  | Ok false => (Ok false, a)
  | Ok true => match fn a with
               | (None, a') => (Ok true, a')
               | (Some e, a') => (Err e, a')
               end
  end.

(** FNV-1a on 64 bits, masked to 63. *)
Definition fnv_offset : Z := 14695981039346656037.
Definition fnv_prime : Z := 1099511628211.
Definition fnv64a (s : string) : Z :=
  foldl (λ h c, (Z.lxor h (Z.of_nat (Ascii.nat_of_ascii c)) * fnv_prime) mod 2 ^ 64) fnv_offset
    (String.list_ascii_of_string s).
Definition lockKey (name : string) : Z := Z.land (fnv64a ("taskapi/" +:+ name)) int64_max.

(** Distinct sweeps have distinct locks, and a key is a positive bigint. *)
Lemma lockKey_range (name : string) : 0 ≤ lockKey name ≤ int64_max.
Proof.
  unfold lockKey. change int64_max with (Z.ones 63). rewrite Z.land_ones by lia.
  pose proof (Z.mod_pos_bound (fnv64a ("taskapi/" +:+ name)) (2 ^ 63)). split; [lia|].
  rewrite Z.ones_equiv. lia.
Qed.

Example lockKey_distinct :
  NoDup (map lockKey ["queue-sweep"; "queue-purge"; "idempotency-purge"]).
Proof. vm_decide. Qed.

(** ** event.go *)

Section event.
Context `{UuidPkg}.

Definition JobKind : string := "task.event".
Definition EventCreated : string := "task.created".
Definition EventUpdated : string := "task.updated".
Definition EventDeleted : string := "task.deleted".

Record Event : Type := mkEvent {
  e_Event : string;
  e_TaskID : uuid;
  e_Version : Z;
  e_Name : string;
  e_Status : Z;
  e_OccurredAt : Z;
}.

Definition eventFor (name : string) (t : Task) : Event :=
  mkEvent name (ID t) (Version t) (Name t) (TStatus t) (UpdatedAt t).

Definition event_ID (e : Event) : string :=
  (e_Event e +:+ ":" +:+ uuid_String (e_TaskID e) +:+ ":" +:+ itoa (e_Version e))%string.
End event.

(** What [json.Marshal] makes of an event; the text the [jsonb] column hands back for
    it, which Postgres writes anew; and the decoding of that text. *)
Class EventJson `{UuidPkg} : Type := {
  event_marshal : Event → string;
  event_json : Event → string;
  event_unjson : string → result err Event;
}.
Class EventJsonLaws `{EventJson} : Prop := {
  event_unjson_json (e : Event) : event_unjson (event_json e) = Ok e;
}.
