(* ===== verification/PgRepo.v ===== *)
(** * The Postgres repository (src/internal/task/pgrepo/pgrepo.go)

    Statements are functions of the [tasks] table; [write] composes one with the
    enqueue of its event in the caller's transaction or in one of its own.
    Driver failures are arguments: each says which call fails, and a failing
    commit may have been applied. *)
From stdpp Require Import options.
From S2P Require Import Prelude GoStrings Apperr Task JobStore Outbox.
From S2P Require MemRepo.

(** The uuid order of Postgres, which the program expects to be that of the text. *)
Class PgUuid `{UuidPkg} : Type := { uuid_lt : uuid → uuid → bool }.
Class PgUuidLaws `{PgUuid} : Prop := {
  uuid_lt_text (u v : uuid) : uuid_lt u v = String.ltb (uuid_String u) (uuid_String v);
}.

Section pgrepo.
Context `{UuidPkg}.

(** ** The tasks table *)

Abbreviation tasks := (gmap uuid Task).

(** A [timestamptz] is a count of microseconds; the driver drops the rest. *)
Definition micro (t : Z) : Z := t / 1000 * 1000.

(** The checks of the columns.  [length] counts characters: the bytes of valid
    UTF-8 that do not continue one.  Text cannot hold a NUL byte. *)
Definition continuation (c : Ascii.ascii) : bool :=
  let n := Ascii.nat_of_ascii c in (128 <=? n)%nat && (n <? 192)%nat.
Fixpoint char_length (s : string) : Z :=
  match s with
  | EmptyString => 0
  | String c s => (if continuation c then 0 else 1) + char_length s
  end.
Definition text_ok (s : string) : bool := negb (contains_byte (byte 0) s).
Definition name_check (s : string) : bool := (1 <=? char_length s) && (char_length s <=? 255).
Definition status_check (s : Z) : bool := (s =? 0) || (s =? 1).

Definition stored (t : Task) : Task :=
  mkTask (ID t) (Name t) (TStatus t) (micro (CreatedAt t)) (micro (UpdatedAt t)) (Version t).

Definition row_error (name : string) (status : Z) : option string :=
  if negb (text_ok name) then Some "invalid byte sequence for encoding UTF8: 0x00"
  else if negb (name_check name) then Some "tasks_name_check"
  else if negb (status_check status) then Some "tasks_status_check"
  else None.

Definition insertTaskSQL (t : Task) (ts : tasks) : result err Task * tasks :=
  match row_error (Name t) (TStatus t), ts !! ID t with
  | Some e, _ => (Err (ENew e), ts)
  | None, Some _ => (Err (ENew "tasks_pkey"), ts)
  | None, None => (Ok (stored t), <[ID t := stored t]> ts)
  end.

Definition no_rows : err := ESentinel PgxErrNoRows "no rows in result set".

Definition updateTaskSQL (t : Task) (expectedVersion : Z) (ts : tasks)
  : result err Task * tasks :=
  match ts !! ID t with
  | None => (Err no_rows, ts)
  | Some x =>
      if (expectedVersion =? 0) || (Version x =? expectedVersion) then
        match row_error (Name t) (TStatus t) with
        | Some e => (Err (ENew e), ts)
        | None =>
            if int64_max <? Version x + 1 then (Err (ENew "bigint out of range"), ts)
            else
              let x' := mkTask (ID x) (Name t) (TStatus t) (CreatedAt x) (micro (UpdatedAt t))
                          (Version x + 1) in
              (Ok x', <[ID t := x']> ts)
        end
      else (Err no_rows, ts)
  end.

Definition deleteTaskSQL (id : uuid) (ts : tasks) : result err Task * tasks :=
  match ts !! id with
  | None => (Err no_rows, ts)
  | Some x => (Ok x, delete id ts)
  end.

(** Run a statement unless the driver fails. *)
Definition query {A} (io : option err) (r : result err A * tasks) (ts : tasks)
  : result err A * tasks :=
  match io with Some e => (Err e, ts) | None => r end.

(** ** Transactions *)

(** The driver's failures during one [write]. *)
Record txio : Type := mkTxio {
  io_begin : option err;
  io_stmt : option err;
  io_miss : option err;
  io_enqueue : option err;
  io_commit : db;
  io_notify : bool;
}.

Definition classifyMiss (io : option err) (id : uuid) (ts : tasks) : err :=
  match io with
  | Some e => EWrap "classify update miss: " e ""
  | None => match ts !! id with Some _ => ErrConflict | None => ErrNotFound end
  end.

(** What runs inside the transaction: the statement, then the event. *)
Definition change_and_enqueue `{!EventJson} (io : txio) (event : string)
  (fn : tasks → result err Task * tasks) (now : Z) (tx : pgdb) : result err Task * pgdb :=
  match fn (pg_tasks tx) with
  | (Err e, ts) => (Err e, mkPg ts (pg_jobs tx))
  | (Ok t, ts) =>
      let payload := eventFor event t in
      match Enqueue (io_enqueue io)
              (mkOutboxJob JobKind (Ok (event_json payload)) (event_ID payload) 0) now
              (pg_jobs tx) with
      | (Err e, js) => (Err e, mkPg ts js)
      | (Ok _, js) => (Ok t, mkPg ts js)
      end
  end.

Definition write `{!EventJson} (io : txio) (ctx : Ctx) (event : string)
  (fn : tasks → result err Task * tasks) (now : Z) (s : world)
  : result err Task * Ctx * world :=
  match TxFrom ctx with
  | Some tx =>
      let '(r, tx') := change_and_enqueue io event fn now tx in
      let ctx' := (λ u, mkUow tx' (uow_after u)) <$> ctx in
      match r with
      | Err e => (Err e, ctx', s)
      | Ok t => (Ok t, (AfterCommit ctx' JobKind).2, s)
      end
  | None =>
      match io_begin io with
      | Some e => (Err (EWrap "begin: " e ""), None, s)
      | None =>
          let before := w_db s in
          let '(r, tx') := change_and_enqueue io event fn now before in
          let undone := mkWorld (rollback before tx') (w_sent s) in
          match r with
          | Err e => (Err e, None, undone)
          | Ok t =>
              match io_commit io with
              | DbOk => (Ok t, None, Notify (io_notify io) JobKind (mkWorld tx' (w_sent s)))
              | DbErr e applied =>
                  (Err (EWrap "commit: " e ""), None,
                   if applied then mkWorld tx' (w_sent s) else undone)
              end
          end
      end
  end.

(** ** Operations *)

Definition insert_fn (io : txio) (t : Task) (ts : tasks) : result err Task * tasks :=
  match query (io_stmt io) (insertTaskSQL t ts) ts with
  | (Err e, ts') => (Err (EWrap "insert task: " e ""), ts')
  | r => r
  end.

Definition update_fn (io : txio) (t : Task) (expectedVersion : Z) (ts : tasks)
  : result err Task * tasks :=
  match query (io_stmt io) (updateTaskSQL t expectedVersion ts) ts with
  | (Err e, ts') =>
      if errors_is e PgxErrNoRows then (Err (classifyMiss (io_miss io) (ID t) ts'), ts')
      else (Err (EWrap "update task: " e ""), ts')
  | r => r
  end.

Definition delete_fn (io : txio) (id : uuid) (ts : tasks) : result err Task * tasks :=
  match query (io_stmt io) (deleteTaskSQL id ts) ts with
  | (Err e, ts') =>
      if errors_is e PgxErrNoRows then (Err ErrNotFound, ts')
      else (Err (EWrap "delete task: " e ""), ts')
  | r => r
  end.

Definition Create `{!EventJson} (io : txio) (ctx : Ctx) (t : Task) (now : Z) (s : world) :=
  write io ctx EventCreated (insert_fn io t) now s.

Definition Update `{!EventJson} (io : txio) (ctx : Ctx) (t : Task) (expectedVersion now : Z)
  (s : world) :=
  write io ctx EventUpdated (update_fn io t expectedVersion) now s.

Definition Delete `{!EventJson} (io : txio) (ctx : Ctx) (id : uuid) (now : Z) (s : world)
  : result err unit * Ctx * world :=
  let '(r, ctx', s') := write io ctx EventDeleted (delete_fn io id) now s in
  (match r with Ok _ => Ok () | Err e => Err e end, ctx', s').

(** Reads go to the pool, also under an ambient transaction. *)
Definition Get (io : option err) (id : uuid) (s : world) : result err Task :=
  match io with
  | Some e => if errors_is e PgxErrNoRows then Err ErrNotFound else Err (EWrap "get task: " e "")
  | None => match pg_tasks (w_db s) !! id with
            | Some t => Ok t
            | None => Err ErrNotFound
            end
  end.

(** The rows of the keyset query, in its order. *)
Definition row_before `{!PgUuid} (created : Z) (id : uuid) (t : Task) : bool :=
  if CreatedAt t =? created then uuid_lt (ID t) id else CreatedAt t <? created.

Definition listed `{!PgUuid} (q : ListQuery) (t : Task) : bool :=
  match q_Status q with None => true | Some st => TStatus t =? st end
  && (IsZero (q_Cursor q)
      || row_before (micro (c_CreatedAt (q_Cursor q))) (c_ID (q_Cursor q)) t).

(** [ORDER BY created_at DESC, id DESC]: [a] need not come after [b]. *)
Definition newest_le `{!PgUuid} (a b : Task) : Prop :=
  row_before (CreatedAt b) (ID b) a = false.

#[export] Instance newest_le_dec `{!PgUuid} : RelDecision newest_le.
Proof. intros a b. unfold newest_le. apply _. Defined.

Definition listSQL `{!PgUuid} (q : ListQuery) (limit : Z) (ts : tasks) : list Task :=
  take (Z.to_nat limit)
    (merge_sort newest_le (filter (λ t, listed q t = true) (snd <$> map_to_list ts))).

(** [None] is the panic of slicing with a limit below one. *)
Definition List `{!PgUuid} (io : option err) (q : ListQuery) (s : world)
  : option (result err Page) :=
  match io with
  | Some e => Some (Err (EWrap "list tasks: " e ""))
  | None =>
      if q_Limit q + 1 <? 0 then
        Some (Err (EWrap "list tasks: " (ENew "LIMIT must not be negative") ""))
      else
        let ts := listSQL q (q_Limit q + 1) (pg_tasks (w_db s)) in
        if Z.of_nat (length ts) <=? q_Limit q then Some (Ok (mkPage ts zeroCursor))
        else if q_Limit q <? 0 then None
        else
          let page := take (Z.to_nat (q_Limit q)) ts in
          match last page with
          | None => None
          | Some t => Some (Ok (mkPage page (CursorOf t)))
          end
  end.
End pgrepo.
