(* ===== verification/TaskService.v ===== *)
(** * The task service (src/internal/task/service.go) over any repository

    [Repository] is the interface of the same name; its two implementations are
    instances.  The clock and the id source are arguments. *)
From stdpp Require Import options.
From S2P Require Import Prelude GoStrings GoTime Apperr Task JobStore Outbox.
From S2P Require MemRepo PgRepo.

Class Repository `{UuidPkg} (S : Type) : Type := {
  r_Create : Task → S → result err Task * S;
  r_Get : uuid → S → result err Task;
  r_Update : Task → Z → S → result err Task * S;
  r_Delete : uuid → S → result err unit * S;
  r_List : ListQuery → S → option (result err Page);
}.

Section service.
Context `{UuidPkg}.

Record CreateInput : Type := mkCreateInput { ci_Name : string; ci_Status : Status }.

Record UpdateInput : Type := mkUpdateInput {
  ui_ID : uuid;
  ui_Name : string;
  ui_Status : Status;
  ui_ExpectedVersion : Z;
}.

Record ListInput : Type := mkListInput {
  li_Status : option Status;
  li_PageSize : Z;
  li_PageToken : string;
}.

Definition Create {S : Type} `{!Repository S} (in_ : CreateInput) (now : Z) (newID : uuid) (s : S)
  : result err Task * S :=
  match ValidateName (ci_Name in_) with
  | Some e => (Err e, s)
  | None =>
      match ValidateStatus (ci_Status in_) with
      | Some e => (Err e, s)
      | None =>
          match r_Create (mkTask newID (ci_Name in_) (ci_Status in_) now now 1) s with
          | (Err e, s') => (Err (EWrap "create task: " e ""), s')
          | r => r
          end
      end
  end.

Definition Update {S : Type} `{!Repository S} (in_ : UpdateInput) (now : Z) (s : S) : result err Task * S :=
  if decide (ui_ID in_ = uuid_Nil) then (Err (invalid "id" "must not be empty"), s)
  else match ValidateName (ui_Name in_) with
       | Some e => (Err e, s)
       | None =>
           match ValidateStatus (ui_Status in_) with
           | Some e => (Err e, s)
           | None =>
               if ui_ExpectedVersion in_ <? 0 then
                 (Err (invalid "version" "must not be negative"), s)
               else
                 match r_Update (mkTask (ui_ID in_) (ui_Name in_) (ui_Status in_) 0 now 0)
                         (ui_ExpectedVersion in_) s with
                 | (Err e, s') =>
                     (Err (EWrap ("update task " +:+ uuid_String (ui_ID in_) +:+ ": ") e ""), s')
                 | r => r
                 end
           end
       end.

Definition Get {S : Type} `{!Repository S} (id : uuid) (s : S) : result err Task :=
  if decide (id = uuid_Nil) then Err (invalid "id" "must not be empty")
  else match r_Get id s with
       | Err e => Err (EWrap ("get task " +:+ uuid_String id +:+ ": ") e "")
       | r => r
       end.

Definition Delete {S : Type} `{!Repository S} (id : uuid) (s : S) : result err unit * S :=
  if decide (id = uuid_Nil) then (Err (invalid "id" "must not be empty"), s)
  else match r_Delete id s with
       | (Err e, s') => (Err (EWrap ("delete task " +:+ uuid_String id +:+ ": ") e ""), s')
       | r => r
       end.

(** The query a request stands for. *)
Definition list_query `{TimeText} (in_ : ListInput) : result err ListQuery :=
  match match li_Status in_ with Some st => ValidateStatus st | None => None end with
  | Some e => Err e
  | None =>
      match clampLimit (li_PageSize in_) with
      | Err e => Err e
      | Ok limit =>
          match DecodeCursor (li_PageToken in_) with
          | Err e => Err e
          | Ok cursor => Ok (mkListQuery (li_Status in_) limit cursor)
          end
      end
  end.

Definition List `{TimeText} {S : Type} `{!Repository S} (in_ : ListInput) (s : S) : option (result err Page) :=
  match list_query in_ with
  | Err e => Some (Err e)
  | Ok q =>
      (λ r, match r with Err e => Err (EWrap "list tasks: " e "") | Ok p => Ok p end)
        <$> r_List q s
  end.
End service.

(** ** The two repositories *)

#[export] Instance mem_repository `{UuidPkg} : Repository MemRepo.Store := {
  r_Create := MemRepo.Create None;
  r_Get := MemRepo.Get None;
  r_Update := MemRepo.Update None;
  r_Delete := MemRepo.Delete None;
  r_List := MemRepo.List None;
}.

(** Postgres, under a context that may carry a transaction; [dbnow] is the clock of
    the database and [io] what the driver does. *)
Definition pg_repository `{EventJson, !PgRepo.PgUuid} (io : PgRepo.txio) (dbnow : Z)
  : Repository (Ctx * world) := {|
  r_Create t s := let '(r, c, w) := PgRepo.Create io s.1 t dbnow s.2 in (r, (c, w));
  r_Get id s := PgRepo.Get (PgRepo.io_stmt io) id s.2;
  r_Update t v s := let '(r, c, w) := PgRepo.Update io s.1 t v dbnow s.2 in (r, (c, w));
  r_Delete id s := let '(r, c, w) := PgRepo.Delete io s.1 id dbnow s.2 in (r, (c, w));
  r_List q s := PgRepo.List (PgRepo.io_stmt io) q s.2;
|}.

(** A driver that does not fail. *)
Definition io_ok : PgRepo.txio := PgRepo.mkTxio None None None None DbOk true.

(** ** [NewService] and its options *)

(** The service: its repository and its two sources, [time.Now] and [uuid.New] unless an
    option gives another; [None] is a nil function. *)
Record Service (R C I : Type) : Type := mkService { sv_repo : R; sv_now : C; sv_newID : I }.
Arguments mkService {R C I}.
Arguments sv_repo {R C I}.
Arguments sv_now {R C I}.
Arguments sv_newID {R C I}.

Section new.
Context {R C I : Type} (time_Now : C) (uuid_New : I).

Definition WithClock (now : option C) (s : Service R C I) : Service R C I :=
  match now with Some c => mkService (sv_repo s) c (sv_newID s) | None => s end.

Definition WithIDSource (next : option I) (s : Service R C I) : Service R C I :=
  match next with Some i => mkService (sv_repo s) (sv_now s) i | None => s end.

Definition NewService (repo : R) (opts : list (Service R C I → Service R C I)) : Service R C I :=
  foldl (λ s o, o s) (mkService repo time_Now uuid_New) opts.

(** The last source given counts, a nil one never does, and the options do not touch each
    other's field or the repository. *)
Lemma NewService_last (repo : R) (cs : list (option C)) (srcs : list (option I)) :
  let s := NewService repo ((WithClock <$> cs) ++ (WithIDSource <$> srcs)) in
  sv_repo s = repo
  ∧ sv_now s = foldl (λ c o, default c o) time_Now cs
  ∧ sv_newID s = foldl (λ i o, default i o) uuid_New srcs.
Proof.
  unfold NewService. rewrite foldl_app.
  assert (Hc : ∀ cs s, foldl (λ s o, o s) s (WithClock <$> cs)
    = mkService (sv_repo s) (foldl (λ c o, default c o) (sv_now s) cs) (sv_newID s)).
  { clear. induction cs as [|[c|] cs IH]; intros s; simpl; [by destruct s|by rewrite IH..]. }
  assert (Hi : ∀ srcs s, foldl (λ s o, o s) s (WithIDSource <$> srcs)
    = mkService (sv_repo s) (sv_now s) (foldl (λ i o, default i o) (sv_newID s) srcs)).
  { clear. induction srcs as [|[i|] srcs IH]; intros s; simpl; [by destruct s|by rewrite IH..]. }
  by rewrite Hc, Hi.
Qed.
End new.

(** ** Requests as data *)

Section calls.
Context `{UuidPkg, TimeText}.

Inductive call : Type :=
  | CCreate (in_ : CreateInput) (now : Z) (newID : uuid)
  | CUpdate (in_ : UpdateInput) (now : Z)
  | CGet (id : uuid)
  | CDelete (id : uuid)
  | CList (in_ : ListInput).

Inductive answer : Type :=
  | ATask (r : result err Task)
  | ADone (r : result err unit)
  | APage (r : option (result err Page)).

Definition serve {S : Type} `{!Repository S} (c : call) (s : S) : answer * S :=
  match c with
  | CCreate i now id => let '(r, s') := Create i now id s in (ATask r, s')
  | CUpdate i now => let '(r, s') := Update i now s in (ATask r, s')
  | CGet id => (ATask (Get id s), s)
  | CDelete id => let '(r, s') := Delete id s in (ADone r, s')
  | CList i => (APage (List i s), s)
  end.

Fixpoint serves {S : Type} `{!Repository S} (cs : list call) (s : S) : list answer * S :=
  match cs with
  | [] => ([], s)
  | c :: cs => let '(a, s) := serve c s in let '(l, s) := serves cs s in (a :: l, s)
  end.
End calls.
