(* ===== verification/Backends.v ===== *)
(** * The two backends agree

    The in-memory repository is the specification of the Postgres one: behind the
    service, the same requests get the same answers, page by page, up to the
    microseconds a column of Postgres holds of an instant, as long as names are storable
    as text, ids are fresh, page tokens are of whole microseconds, and the driver does
    not fail. *)
From stdpp Require Import options.
From S2P Require Import Prelude GoStrings GoTime Apperr Task JobStore Outbox TaskService UuidInstance.
From Stdlib Require Import Ascii.
Open Scope Z_scope.
From S2P Require MemRepo PgRepo JobFacts.

Lemma StronglySorted_mono {A} (R R' : A → A → Prop) (l : list A) :
  (∀ x y, R x y → R' x y) → StronglySorted R l → StronglySorted R' l.
Proof.
  intros HR. induction 1 as [|x l Hs IH Hall]; constructor; [done|].
  by eapply Forall_impl; [exact Hall|apply HR].
Qed.

Section agreement.
Context `{UuidPkg} `{!EventJson, !PgRepo.PgUuid, TimeText} `{ulaws : !UuidLaws} `{plaws : !PgRepo.PgUuidLaws}.
Context (dbnow : Z).

#[local] Existing Instances PgRepo.newest_le_dec MemRepo.newest_le_dec.
#[local] Instance pg : Repository (Ctx * world) := pg_repository io_ok dbnow.

Definition precise (t : Z) : Prop := PgRepo.micro t = t.

Lemma precise_micro (t : Z) : precise (PgRepo.micro t).
Proof. unfold precise, PgRepo.micro. by rewrite Z.div_mul. Qed.

(** ** Listing *)

Lemma row_before_Less (c : Cursor) (t : Task) :
  PgRepo.row_before (c_CreatedAt c) (c_ID c) t
  = Less (mkTask (c_ID c) "" 0 (c_CreatedAt c) 0 0) t.
Proof using plaws.
  unfold PgRepo.row_before, Less. simpl. rewrite PgRepo.uuid_lt_text, (Z.eqb_sym (c_CreatedAt c)).
  by destruct (_ =? _).
Qed.

Lemma pg_newest_le (a b : Task) : PgRepo.newest_le a b ↔ MemRepo.newest_le a b.
Proof using plaws.
  rewrite MemRepo.newest_le_Less. unfold PgRepo.newest_le.
  change (PgRepo.row_before _ _ a) with (PgRepo.row_before (c_CreatedAt (CursorOf b)) (c_ID (CursorOf b)) a).
  by rewrite row_before_Less.
Qed.

#[local] Instance pg_newest_total : Total PgRepo.newest_le.
Proof using plaws. intros a b. rewrite !pg_newest_le. apply MemRepo.newest_le_total. Qed.

#[local] Instance pg_newest_trans : Transitive PgRepo.newest_le.
Proof using plaws. intros a b c. rewrite !pg_newest_le. apply MemRepo.newest_le_trans. Qed.

Lemma listed_selects (q : ListQuery) (t : Task) :
  precise (c_CreatedAt (q_Cursor q)) → PgRepo.listed q t = MemRepo.selects q t.
Proof using plaws.
  intros Hc. unfold PgRepo.listed, MemRepo.selects. rewrite Hc. f_equal.
  - destruct (q_Status q) as [st|]; [|done]. destruct (_ =? _) eqn:E; zbool.
    + by rewrite bool_decide_eq_true_2.
    + by rewrite bool_decide_eq_false_2.
  - destruct (IsZero (q_Cursor q)) eqn:Hz; [by unfold After; rewrite Hz|]. simpl.
    rewrite row_before_Less.
    set (k := mkTask (c_ID (q_Cursor q)) "" 0 (c_CreatedAt (q_Cursor q)) 0 0).
    assert (Hk : q_Cursor q = CursorOf k) by (by destruct (q_Cursor q)).
    rewrite Hk in Hz |- *. symmetry. by apply After_CursorOf.
Qed.

Lemma sort_agree (q : ListQuery) (m : MemRepo.Store) :
  MemRepo.keyed m → precise (c_CreatedAt (q_Cursor q)) →
  merge_sort PgRepo.newest_le (filter (λ t, PgRepo.listed q t = true) (snd <$> map_to_list m))
  = MemRepo.sortNewestFirst (MemRepo.matching q m).
Proof using ulaws plaws.
  intros Hk Hc.
  assert (Hf : filter (λ t, PgRepo.listed q t = true) (snd <$> map_to_list m)
               = MemRepo.matching q m).
  { unfold MemRepo.matching. apply list_filter_iff. intros t. by rewrite listed_selects. }
  rewrite Hf. pose proof (MemRepo.matching_NoDup q m Hk) as Hnd.
  apply MemRepo.newer_unique; [|by apply MemRepo.sort_newer|].
  - apply MemRepo.newer_of_le; [by rewrite merge_sort_Permutation|].
    eapply StronglySorted_mono; [intros a b; apply pg_newest_le|].
    apply StronglySorted_merge_sort; apply _.
  - by rewrite MemRepo.sort_perm, merge_sort_Permutation.
Qed.

Lemma list_agree (q : ListQuery) (s : world) :
  MemRepo.keyed (pg_tasks (w_db s)) → precise (c_CreatedAt (q_Cursor q)) → 1 ≤ q_Limit q →
  PgRepo.List None q s = MemRepo.List None q (pg_tasks (w_db s)).
Proof using ulaws plaws.
  intros Hk Hc Hl. unfold PgRepo.List, PgRepo.listSQL, MemRepo.List, MemRepo.paginate.
  rewrite sort_agree by done.
  set (l := MemRepo.sortNewestFirst _). replace (q_Limit q + 1 <? 0) with false by (symmetry; zbool; lia).
  replace (q_Limit q <? 0) with false by (symmetry; zbool; lia).
  rewrite take_take, Nat.min_l by lia.
  destruct (Z.of_nat (length l) <=? q_Limit q) eqn:E; zbool.
  - rewrite take_ge by lia. by rewrite (proj2 (Z.leb_le _ _) E).
  - rewrite length_take.
    replace (_ <=? q_Limit q) with false by (symmetry; zbool; lia).
    by destruct (last (take (Z.to_nat (q_Limit q)) l)).
Qed.

(** ** Writing *)

(** Whatever the enqueue does with its event, with a working driver it succeeds. *)
Lemma write_ok (event : string) (fn : gmap uuid Task → result err Task * gmap uuid Task)
  (s : world) :
  let '(r, ctx, s') := PgRepo.write io_ok None event fn dbnow s in
  r = (fn (pg_tasks (w_db s))).1 ∧ ctx = None
  ∧ (∀ t, (fn (pg_tasks (w_db s))).1 = Ok t →
       pg_tasks (w_db s') = (fn (pg_tasks (w_db s))).2)
  ∧ (∀ e, (fn (pg_tasks (w_db s))).1 = Err e → pg_tasks (w_db s') = pg_tasks (w_db s)).
Proof.
  unfold PgRepo.write, PgRepo.change_and_enqueue. simpl.
  destruct (fn (pg_tasks (w_db s))) as [[t|e] ts']; simpl; [|by split_and!].
  unfold Enqueue. simpl. unfold insertSQL. simpl.
  repeat (case_match; simplify_eq/=; try done); by split_and!.
Qed.

(** The stores that agree. *)
Definition agree (bound : Z) (m : MemRepo.Store) (s : Ctx * world) : Prop :=
  s.1 = None ∧ pg_tasks (w_db s.2) = m ∧ MemRepo.keyed m
  ∧ map_Forall (λ _ t, precise (CreatedAt t) ∧ precise (UpdatedAt t)
                       ∧ 1 ≤ Version t ≤ bound) m.

(** The names the table accepts are those the service validates. *)
Lemma char_length_bounds (s : string) : 0 ≤ PgRepo.char_length s ≤ len s.
Proof.
  unfold len. induction s as [|c s IH]; simpl; [lia|].
  destruct (PgRepo.continuation c); lia.
Qed.

Definition storable (name : string) : Prop :=
  PgRepo.text_ok name = true ∧ (name ≠ "" → 1 ≤ PgRepo.char_length name).

Lemma row_ok_validated (name : string) (st : Status) :
  storable name → ValidateName name = None → ValidateStatus st = None →
  PgRepo.row_error name st = None.
Proof.
  intros [Ht Hc] Hn Hs. unfold PgRepo.row_error, PgRepo.name_check. rewrite Ht. simpl.
  unfold ValidateName in Hn. case_decide as Htrim; [done|].
  destruct (MaxNameLength <? len name) eqn:Hlen; [done|]. zbool. unfold MaxNameLength in Hlen.
  pose proof (char_length_bounds name).
  assert (name ≠ "") as Hne by (intros ->; by apply Htrim).
  specialize (Hc Hne).
  replace (1 <=? _) with true by (symmetry; zbool; lia).
  replace (_ <=? 255) with true by (symmetry; zbool; lia). simpl.
  unfold ValidateStatus, Status_Valid in Hs. unfold PgRepo.status_check.
  unfold StatusIncomplete, StatusCompleted in Hs. by destruct ((st =? 0) || (st =? 1)).
Qed.

(** The request with its instant as a column of Postgres holds it. *)
Definition floored (c : call) : call :=
  match c with
  | CCreate i now id => CCreate i (PgRepo.micro now) id
  | CUpdate i now => CUpdate i (PgRepo.micro now)
  | c => c
  end.

(** Postgres does not tell them apart. *)
Lemma serve_floored (c : call) (s : Ctx * world) : serve (floored c) s = serve c s.
Proof.
  destruct c as [i now id|i now|id|id|i]; try done; simpl.
  - assert (Hf : PgRepo.insert_fn io_ok
        (mkTask id (ci_Name i) (ci_Status i) (PgRepo.micro now) (PgRepo.micro now) 1)
      = PgRepo.insert_fn io_ok (mkTask id (ci_Name i) (ci_Status i) now now 1)).
    { unfold PgRepo.insert_fn, PgRepo.insertTaskSQL, PgRepo.stored. simpl. by rewrite precise_micro. }
    unfold Create. destruct (ValidateName _); [done|]. destruct (ValidateStatus _); [done|].
    simpl. unfold PgRepo.Create. by rewrite Hf.
  - assert (Hf : ∀ v, PgRepo.update_fn io_ok
        (mkTask (ui_ID i) (ui_Name i) (ui_Status i) 0 (PgRepo.micro now) 0) v
      = PgRepo.update_fn io_ok (mkTask (ui_ID i) (ui_Name i) (ui_Status i) 0 now 0) v).
    { intros v. unfold PgRepo.update_fn, PgRepo.updateTaskSQL. simpl. by rewrite precise_micro. }
    unfold Update. case_decide; [done|]. destruct (ValidateName _); [done|].
    destruct (ValidateStatus _); [done|]. destruct (_ <? 0); [done|].
    simpl. unfold PgRepo.Update. by rewrite Hf.
Qed.

(** What is asked of a request: storable names, a fresh id on create, and a page token
    whose instant is of whole microseconds, as those this service hands out. *)
Definition fair (c : call) (m : MemRepo.Store) : Prop :=
  match c with
  | CCreate i now id => storable (ci_Name i) ∧ m !! id = None
  | CUpdate i now => storable (ui_Name i)
  | CList i => ∀ cur, DecodeCursor (li_PageToken i) = Ok cur → precise (c_CreatedAt cur)
  | CGet _ | CDelete _ => True
  end.

Lemma agree_weaken (b b' : Z) (m : MemRepo.Store) (s : Ctx * world) :
  b ≤ b' → agree b m s → agree b' m s.
Proof.
  intros Hb (E1 & E2 & E3 & E4). split_and!; auto.
  eapply map_Forall_impl; [exact E4|]. simpl. intros ? ? (? & ? & ?). split_and!; auto; lia.
Qed.

Lemma agree_insert (b : Z) (m : MemRepo.Store) (s s' : Ctx * world) (t : Task) :
  agree b m s → s'.1 = None → pg_tasks (w_db s'.2) = <[ID t := t]> m →
  precise (CreatedAt t) → precise (UpdatedAt t) → 1 ≤ Version t ≤ b → agree b (<[ID t := t]> m) s'.
Proof.
  intros (_ & _ & Hk & Hf) E1 E2 Hc Hu Hv. split_and!; auto.
  - by apply MemRepo.keyed_insert.
  - by apply map_Forall_insert_2.
Qed.

Lemma create_agree (b : Z) (i : CreateInput) (now : Z) (id : uuid) (m : MemRepo.Store)
  (s : Ctx * world) :
  agree b m s → 1 ≤ b → precise now → storable (ci_Name i) → m !! id = None →
  (Create i now id s).1 = (Create i now id m).1
  ∧ agree b (Create i now id m).2 (Create i now id s).2.
Proof.
  intros Ha Hb Hnow Hst Hid. unfold Create.
  destruct (ValidateName _) eqn:Hn; [done|]. destruct (ValidateStatus _) eqn:Hs; [done|].
  set (t := mkTask id (ci_Name i) (ci_Status i) now now 1).
  assert (Hfn : PgRepo.insert_fn io_ok t m = (Ok t, <[ID t := t]> m)).
  { unfold PgRepo.insert_fn, PgRepo.query, PgRepo.insertTaskSQL. simpl.
    rewrite (row_ok_validated (ci_Name i) (ci_Status i)), Hid by done.
    unfold PgRepo.stored. simpl. by rewrite Hnow. }
  destruct s as [ctx w]. pose proof Ha as (Hctx & Ht & _). simpl in Hctx, Ht. subst ctx.
  simpl. unfold PgRepo.Create.
  pose proof (write_ok EventCreated (PgRepo.insert_fn io_ok t) w) as Hw.
  destruct (PgRepo.write _ _ _ _ _ _) as [[r c] w'].
  rewrite Ht, Hfn in Hw. simpl in Hw. destruct Hw as (-> & -> & Hok & _).
  unfold MemRepo.Create. simpl. rewrite Hid. simpl. split; [done|].
  eapply (agree_insert b m _ _ t); [exact Ha|done|by apply (Hok t)|done|done|simpl; lia].
Qed.

Lemma update_agree (b : Z) (i : UpdateInput) (now : Z) (m : MemRepo.Store) (s : Ctx * world) :
  agree b m s → b < int64_max → precise now → storable (ui_Name i) →
  (Update i now s).1 = (Update i now m).1
  ∧ agree (b + 1) (Update i now m).2 (Update i now s).2.
Proof.
  intros Ha Hb Hnow Hst. pose proof (agree_weaken b (b + 1) m s ltac:(lia) Ha) as Ha'.
  unfold Update. case_decide; [done|].
  destruct (ValidateName _) eqn:Hn; [done|]. destruct (ValidateStatus _) eqn:Hs; [done|].
  destruct (_ <? 0); [done|].
  set (t := mkTask (ui_ID i) (ui_Name i) (ui_Status i) 0 now 0). set (v := ui_ExpectedVersion i).
  destruct s as [ctx w]. pose proof Ha as (Hctx & Ht & Hk & Hf). simpl in Hctx, Ht. subst ctx.
  assert (Hfn : PgRepo.update_fn io_ok t v m
                = ((MemRepo.Update None t v m).1, (MemRepo.Update None t v m).2)).
  { unfold PgRepo.update_fn, PgRepo.query, PgRepo.updateTaskSQL, MemRepo.Update,
      PgRepo.classifyMiss. simpl.
    destruct (m !! ui_ID i) as [x|] eqn:Hx; [|by simpl; rewrite Hx].
    destruct (Hf _ _ Hx) as (_ & _ & Hv1 & Hv2). pose proof (Hk _ _ Hx) as HID. simpl in HID.
    rewrite (row_ok_validated (ui_Name i) (ui_Status i)) by done. rewrite Hnow, HID.
    replace (int64_max <? Version x + 1) with false by (symmetry; zbool; lia).
    rewrite wrap64_id by (unfold in_int64, int64_min; lia).
    destruct (v =? 0), (Version x =? v); simpl; rewrite ?Hx; done. }
  change (r_Update t v m) with (MemRepo.Update None t v m).
  change (r_Update t v (None, w)) with
    (let '(r, c, w0) := PgRepo.Update io_ok None t v dbnow w in (r, (c, w0))).
  destruct (MemRepo.Update None t v m) as [ru m'] eqn:Hu. simpl in Hfn.
  unfold PgRepo.Update.
  pose proof (write_ok EventUpdated (PgRepo.update_fn io_ok t v) w) as Hw.
  destruct (PgRepo.write _ _ _ _ _ _) as [[r c] w'].
  rewrite Ht, Hfn in Hw. simpl in Hw. destruct Hw as (-> & -> & Hok & Herr).
  destruct ru as [u|e]; simpl in *.
  - split; [done|]. specialize (Hok u eq_refl). unfold MemRepo.Update in Hu. simpl in Hu.
    destruct (m !! ui_ID i) as [x|] eqn:Hx; [|done].
    destruct (negb _ && negb _); [done|]. injection Hu as <- <-.
    destruct (Hf _ _ Hx) as (Hc & _ & Hv1 & Hv2).
    rewrite wrap64_id in * by (unfold in_int64, int64_min; lia).
    eapply (agree_insert (b + 1) m (None, w)
              (None, w') (mkTask (ui_ID i) (ui_Name i) (ui_Status i) (CreatedAt x) now (Version x + 1)));
      [exact Ha'|done|exact Hok|done|done|simpl; lia].
  - split; [done|]. assert (m' = m) as ->.
    { unfold MemRepo.Update in Hu. repeat case_match; congruence. }
    destruct Ha' as (_ & _ & ? & ?). split_and!; auto. simpl. by rewrite (Herr e).
Qed.

Lemma delete_agree (b : Z) (id : uuid) (m : MemRepo.Store) (s : Ctx * world) :
  agree b m s →
  (Delete id s).1 = (Delete id m).1 ∧ agree b (Delete id m).2 (Delete id s).2.
Proof.
  intros Ha. unfold Delete. case_decide; [done|].
  destruct s as [ctx w]. pose proof Ha as (Hctx & Ht & Hk & Hf). simpl in Hctx, Ht. subst ctx.
  simpl. unfold PgRepo.Delete.
  pose proof (write_ok EventDeleted (PgRepo.delete_fn io_ok id) w) as Hw.
  destruct (PgRepo.write _ _ _ _ _ _) as [[r c] w'].
  rewrite Ht in Hw. revert Hw. unfold PgRepo.delete_fn, PgRepo.query, PgRepo.deleteTaskSQL, MemRepo.Delete.
  simpl. destruct (m !! id) as [x|] eqn:Hx; simpl; intros (-> & -> & Hok & Herr); simpl.
  - split; [done|]. split_and!; [done|by apply (Hok x)| |].
    + by apply MemRepo.keyed_delete.
    + by apply map_Forall_delete.
  - split; [done|]. split_and!; auto. simpl. by rewrite (Herr ErrNotFound).
Qed.

Lemma serve_agree (b : Z) (c : call) (m : MemRepo.Store) (s : Ctx * world) :
  agree b m s → 1 ≤ b < int64_max → fair c m →
  (serve c s).1 = (serve (floored c) m).1 ∧ agree (b + 1) (serve (floored c) m).2 (serve c s).2.
Proof using ulaws plaws.
  intros Ha Hb Hf. rewrite <- serve_floored. pose proof precise_micro as Hpm. destruct c as [i now id|i now|id|id|i]; simpl in *.
  - destruct Hf as (? & ?).
    destruct (create_agree b i (PgRepo.micro now) id m s) as [E1 E2]; auto; [lia|].
    destruct (Create i _ id s), (Create i _ id m). simpl in *. subst.
    split; [done|]. eapply agree_weaken; [|done]. lia.
  - destruct (update_agree b i (PgRepo.micro now) m s) as [E1 E2]; auto; [lia|].
    destruct (Update i _ s), (Update i _ m). simpl in *. by subst.
  - split; [|eapply agree_weaken; [|done]; lia]. unfold Get. case_decide; [done|].
    destruct s as [ctx w], Ha as (_ & Ht & _). simpl in *. by rewrite Ht.
  - destruct (delete_agree b id m s) as [E1 E2]; auto.
    destruct (Delete id s), (Delete id m). simpl in *. subst.
    split; [done|]. eapply agree_weaken; [|done]. lia.
  - split; [|eapply agree_weaken; [|done]; lia]. unfold List, list_query. f_equal.
    destruct (match li_Status i with Some st => ValidateStatus st | None => None end); [done|].
    destruct (clampLimit (li_PageSize i)) as [l|] eqn:Hl; [|done].
    destruct (DecodeCursor (li_PageToken i)) as [cur|] eqn:Hcur; [|done].
    destruct s as [ctx w], Ha as (_ & Ht & Hk & _). cbn [fst snd] in *.
    change (r_List ?q (ctx, w)) with (PgRepo.List None q w).
    change (r_List ?q m) with (MemRepo.List None q m).
    rewrite list_agree, Ht; [done|by rewrite Ht|by apply Hf|].
    cbn [q_Limit]. unfold clampLimit, DefaultPageSize, MaxPageSize in Hl.
    repeat case_match; simplify_eq; zbool; lia.
Qed.

Fixpoint fair_run (cs : list call) (m : MemRepo.Store) : Prop :=
  match cs with
  | [] => True
  | c :: cs => fair c m ∧ fair_run cs (serve (floored c) m).2
  end.

Lemma serves_agree (cs : list call) (b : Z) (m : MemRepo.Store) (s : Ctx * world) :
  agree b m s → 1 ≤ b → b + Z.of_nat (length cs) ≤ int64_max → fair_run cs m →
  (serves cs s).1 = (serves (floored <$> cs) m).1
  ∧ agree (b + Z.of_nat (length cs)) (serves (floored <$> cs) m).2 (serves cs s).2.
Proof using ulaws plaws.
  revert b m s. induction cs as [|c cs IH]; intros b m s Ha Hb Hmax Hf; csimpl in *.
  { by rewrite Z.add_0_r. }
  destruct Hf as [Hc Hf]. destruct (serve_agree b c m s) as [E1 E2]; auto; [lia|].
  destruct (serve (floored c) m) as [a m1], (serve c s) as [a' s1]. csimpl in *. subst a'.
  destruct (IH (b + 1) m1 s1) as [E3 E4]; auto; [lia..|].
  destruct (serves (floored <$> cs) m1) as [l m2], (serves cs s1) as [l' s2]. csimpl in *. subst l'.
  split; [done|]. by replace (b + Z.of_nat (S (length cs))) with (b + 1 + Z.of_nat (length cs)) by lia.
Qed.
End agreement.

(** ** Properties *)

(** C18: the two backends are one service.  Any sequence of requests - creates,
    conditional and unconditional updates, reads, deletes, filtered pages with the
    tokens of earlier pages - gets from Postgres, whatever the clock reads, the answers,
    errors and their texts included, that the in-memory map gives when the clock is cut
    to microseconds, and leaves the same tasks behind.  Names must be storable, the ids of
    creates fresh and the instants of page tokens of whole microseconds, and the driver
    must not fail. *)
Theorem backends_agree `{UuidPkg} `{!EventJson, !PgRepo.PgUuid, TimeText} `{!UuidLaws}
  `{!PgRepo.PgUuidLaws} (dbnow : Z) (cs : list call) (jobs : table) (sent : list string) :
  fair_run cs ∅ → Z.of_nat (length cs) < int64_max →
  let mem := serves (floored <$> cs) (∅ : MemRepo.Store) in
  let pg := @serves _ _ _ (pg_repository io_ok dbnow) cs (None, mkWorld (mkPg ∅ jobs) sent) in
  pg.1 = mem.1 ∧ pg_tasks (w_db pg.2.2) = mem.2.
Proof.
  intros Hf Hlen. destruct (serves_agree dbnow cs 1 ∅ (None, mkWorld (mkPg ∅ jobs) sent))
    as [E1 E2]; [|lia|lia|done|].
  - split_and!; [done|done|apply MemRepo.keyed_empty|apply map_Forall_empty].
  - split; [exact E1|]. by destruct E2 as (_ & ? & _).
Qed.

(** ** Concrete backends *)

#[export] Instance text_order `{UuidPkg} : PgRepo.PgUuid :=
  {| PgRepo.uuid_lt u v := String.ltb (uuid_String u) (uuid_String v) |}.
#[export] Instance text_order_laws `{UuidPkg} : PgRepo.PgUuidLaws.
Proof. done. Qed.

(** An event as the binary digits of its code. *)
Fixpoint bits (p : positive) : string :=
  match p with xH => "" | xO p => String "0"%char (bits p) | xI p => String "1"%char (bits p) end.
Fixpoint unbits (s : string) : positive :=
  match s with
  | EmptyString => xH
  | String c s => if decide (c = "0"%char) then xO (unbits s) else xI (unbits s)
  end.
Lemma unbits_bits (p : positive) : unbits (bits p) = p.
Proof. by induction p as [p IH|p IH|]; simpl; rewrite ?IH. Qed.

#[export] Instance Event_eq_dec `{UuidPkg} : EqDecision Event.
Proof. solve_decision. Defined.
#[export] Instance Event_countable `{UuidPkg} : Countable Event.
Proof.
  refine (inj_countable'
    (λ e, (e_Event e, e_TaskID e, e_Version e, e_Name e, e_Status e, e_OccurredAt e))
    (λ '(a, b, c, d, e, f), mkEvent a b c d e f) _). by intros [].
Defined.

#[export] Instance event_bits `{UuidPkg} : EventJson := {|
  event_marshal e := (" " +:+ bits (encode e))%string;
  event_json e := bits (encode e);
  event_unjson s := match decode (unbits s) with Some e => Ok e | None => Err (ENew "bad event") end;
|}.
#[export] Instance event_bits_laws `{UuidPkg} : EventJsonLaws.
Proof. split. intros e. simpl. by rewrite unbits_bits, decode_encode. Qed.

(** Two creates, an update against the right and one against a stale version, two
    pages of one task, and a delete. *)
Definition second_task : Cursor := mkCursor 6000 (uuid_of 2).
Definition page_token : string := Encode second_task.
Definition sample_calls : list call :=
  [CCreate (mkCreateInput "buy milk" 0) 5123 (uuid_of 1);
   CCreate (mkCreateInput "call mum" 0) 6789 (uuid_of 2);
   CUpdate (mkUpdateInput (uuid_of 1) "buy oat milk" 1 1) 7001;
   CUpdate (mkUpdateInput (uuid_of 1) "buy rice milk" 0 1) 8000;
   CList (mkListInput None 1 "");
   CList (mkListInput None 1 page_token);
   CDelete (uuid_of 2); CGet (uuid_of 2)].

Lemma sample_fair : fair_run sample_calls ∅.
Proof.
  assert (He : DecodeCursor page_token = Ok second_task)
    by (apply DecodeCursor_Encode_law; split; [done|reflexivity]).
  assert (Hp : ∀ tok cur, (tok = "" ∨ tok = page_token) →
    DecodeCursor tok = Ok cur → precise (c_CreatedAt cur)).
  { intros tok cur [->| ->] Hd.
    - assert (Hz : DecodeCursor "" = Ok zeroCursor) by done.
      assert (zeroCursor = cur) as <- by congruence. unfold precise. vm_eq.
    - assert (second_task = cur) as <- by congruence. unfold precise. vm_eq. }
  unfold sample_calls. cbn [fair_run fair].
  repeat lazymatch goal with |- _ ∧ _ => split end.
  all: lazymatch goal with
    | |- storable _ => split; [vm_eq|intros _; vm_decide]
    | |- _ !! _ = None => vm_eq
    | |- True => exact I
    | |- _ => intros cur; apply Hp; auto
    end.
Qed.

Lemma backends_agree_witness :
  let mem := serves (floored <$> sample_calls) (∅ : MemRepo.Store) in
  let pg := @serves _ _ _ (pg_repository io_ok 9000) sample_calls
              (None, mkWorld (mkPg ∅ JobFacts.empty_table) []) in
  pg.1 = mem.1 ∧ pg_tasks (w_db pg.2.2) = mem.2.
Proof. apply backends_agree; [apply sample_fair|reflexivity]. Defined.

(** Served the same nanoseconds the two differ: Postgres stores what the column holds. *)
Example backends_differ_below_a_microsecond :
  let c := CCreate (mkCreateInput "buy milk" 0) 1500 (uuid_of 1) in
  let at_ a := match a with ATask (Ok t) => CreatedAt t | _ => 0 end in
  at_ (serve c (∅ : MemRepo.Store)).1 = 1500
  ∧ at_ (@serve _ _ _ (pg_repository io_ok 0) c (None, mkWorld (mkPg ∅ JobFacts.empty_table) [])).1 = 1000.
Proof. split; vm_eq. Qed.
