(* ===== verification/OutboxProps.v ===== *)
(** * Every change has its event

    The transactional outbox of the Postgres repository: a task changes exactly
    when its event is queued, in one commit, and no change loses its event to
    the deduplication key. *)
From stdpp Require Import options.
From S2P Require Import Prelude GoStrings Apperr Task JobStore JobFacts Outbox UuidInstance.
From S2P Require PgRepo TaskService Backends.
Import Backends.
From Stdlib Require Import Ascii.
Open Scope Z_scope.

(** The text of a uuid is hexadecimal digits and dashes. *)
Class UuidText `{UuidPkg} : Prop := {
  uuid_no_colon (u : uuid) : contains_byte ":" (uuid_String u) = false;
}.

Section outbox.
Context `{UuidPkg} `{!EventJson} `{ulaws : !UuidLaws} `{utext : !UuidText}.

(** ** Event identifiers *)

Definition event_names : list string := [EventCreated; EventUpdated; EventDeleted].

Definition event_key (ev : string) (u : uuid) (v : Z) : string :=
  (ev +:+ ":" +:+ uuid_String u +:+ ":" +:+ itoa v)%string.

Lemma event_ID_key (e : Event) : event_ID e = event_key (e_Event e) (e_TaskID e) (e_Version e).
Proof. done. Qed.

Lemma event_key_inj (ev ev' : string) (u u' : uuid) (v v' : Z) :
  ev ∈ event_names → ev' ∈ event_names → event_key ev u v = event_key ev' u' v' →
  ev = ev' ∧ u = u' ∧ v = v'.
Proof using ulaws utext.
  intros Hev Hev' Hk. unfold event_key in Hk.
  assert (Hlen : String.length ev = String.length ev')
    by (unfold event_names in *; set_unfold in Hev; set_unfold in Hev';
        destruct Hev as [->|[->|[->|[]]]], Hev' as [->|[->|[->|[]]]]; done).
  apply string_app_inj_len in Hk as [-> Hk]; [|done]. split; [done|].
  assert (Hc : cut ":" (uuid_String u +:+ String ":" (itoa v))
               = cut ":" (uuid_String u' +:+ String ":" (itoa v')))
    by (f_equal; by injection Hk).
  rewrite !cut_app in Hc by apply uuid_no_colon. injection Hc as Hu Hv.
  split; [by apply uuid_String_inj|]. by apply (inj pretty).
Qed.

(** ** Changes and runs *)

Inductive change_op : Type :=
  | ChCreate (t : Task)
  | ChUpdate (t : Task) (expectedVersion : Z)
  | ChDelete (id : uuid).

Definition op_event (o : change_op) : string :=
  match o with ChCreate _ => EventCreated | ChUpdate _ _ => EventUpdated | ChDelete _ => EventDeleted end.

Definition op_fn (io : PgRepo.txio) (o : change_op)
  : gmap uuid Task → result err Task * gmap uuid Task :=
  match o with
  | ChCreate t => PgRepo.insert_fn io t
  | ChUpdate t v => PgRepo.update_fn io t v
  | ChDelete id => PgRepo.delete_fn io id
  end.

(** [Create], [Update] and [Delete] in a transaction of their own. *)
Definition change_task (io : PgRepo.txio) (o : change_op) (now : Z) (s : world)
  : result err Task * world :=
  let '(r, _, s') := PgRepo.write io None (op_event o) (op_fn io o) now s in (r, s').

(** The identifiers ever created, besides the world. *)
Definition state : Type := gset uuid * world.

Definition creates (o : change_op) : gset uuid :=
  match o with ChCreate t => {[ ID t ]} | _ => ∅ end.

Definition with_jobs (f : table → table) (s : world) : world :=
  mkWorld (mkPg (pg_tasks (w_db s)) (f (pg_jobs (w_db s)))) (w_sent s).

(** Only the repository enqueues; every other statement on the jobs may run. *)
Inductive pg_step : state → state → Prop :=
  | pg_change io o now used s :
      creates o ## used → pg_step (used, s) (creates o ∪ used, (change_task io o now s).2)
  | pg_jobs_run o used s :
      (∀ k p u m now, o ≠ JEnqueue k p u m now) →
      pg_step (used, s) (used, with_jobs (apply o) s).

Definition pg_empty : state := (∅, mkWorld (mkPg ∅ empty_table) []).

(** ** The invariant *)

Definition key_old (used : gset uuid) (ts : gmap uuid Task) (k : string) : Prop :=
  ∃ ev u v, k = event_key ev u v ∧ ev ∈ event_names ∧ u ∈ used
    ∧ (ev = EventDeleted → ts !! u = None)
    ∧ (ev ≠ EventDeleted → ∀ x, ts !! u = Some x → v ≤ Version x).

Definition outbox_ok (st : state) : Prop :=
  let d := w_db st.2 in
  ids_ok (pg_jobs d)
  ∧ map_Forall (λ id t, ID t = id ∧ id ∈ st.1) (pg_tasks d)
  ∧ ∀ id r k, rows (pg_jobs d) !! id = Some r → unique_key r = Some k →
      key_old st.1 (pg_tasks d) k.

(** The effect of a change on the tasks, and what it inserts. *)
Definition apply_change (o : change_op) (t : Task) (ts : gmap uuid Task) : gmap uuid Task :=
  match o with ChDelete id => delete id ts | _ => <[ID t := t]> ts end.

Definition event_row (o : change_op) (t : Task) (now : Z) : Row :=
  let e := eventFor (op_event o) t in
  insert_row JobKind (event_json e) (Some (event_ID e)) 5 now.

Definition published (o : change_op) (t : Task) (now : Z) (d d' : pgdb) : Prop :=
  pg_tasks d' = apply_change o t (pg_tasks d)
  ∧ rows (pg_jobs d') = <[next_id (pg_jobs d) := event_row o t now]> (rows (pg_jobs d)).

Definition unchanged (d d' : pgdb) : Prop :=
  pg_tasks d' = pg_tasks d ∧ rows (pg_jobs d') = rows (pg_jobs d).

(** ** One change *)

Lemma op_event_name (o : change_op) : op_event o ∈ event_names.
Proof. unfold event_names. rewrite !elem_of_cons. destruct o; simpl; auto. Qed.

(** A change that succeeds, from its statement. *)
Lemma op_fn_ok (io : PgRepo.txio) (o : change_op) (ts ts' : gmap uuid Task) (t : Task) :
  map_Forall (λ id t, ID t = id) ts → op_fn io o ts = (Ok t, ts') →
  ts' = apply_change o t ts
  ∧ match o with
    | ChCreate t0 => ID t = ID t0
    | ChUpdate _ _ => ∃ x, ts !! ID t = Some x ∧ Version t = Version x + 1
    | ChDelete id => ts !! id = Some t ∧ ID t = id
    end.
Proof.
  intros Hk. destruct o as [t0|t0 v|id]; simpl;
    unfold PgRepo.insert_fn, PgRepo.update_fn, PgRepo.delete_fn, PgRepo.query.
  - destruct (PgRepo.io_stmt io); [by intros [=]|]. unfold PgRepo.insertTaskSQL.
    repeat (case_match; simplify_eq/=; try done); by intros [= <- <-].
  - destruct (PgRepo.io_stmt io); [simpl; case_match; by intros [=]|].
    unfold PgRepo.updateTaskSQL. destruct (ts !! ID t0) as [x|] eqn:Hx; [|done].
    pose proof (Hk _ _ Hx) as HID. simpl in HID.
    repeat (case_match; simplify_eq/=); intros; simplify_eq/=; rewrite ?HID; eauto.
  - destruct (PgRepo.io_stmt io); [simpl; case_match; by intros [=]|].
    unfold PgRepo.deleteTaskSQL. destruct (ts !! id) as [x|] eqn:Hx; [|done].
    intros [= <- <-]. split; [done|]. split; [done|]. by apply Hk in Hx.
Qed.

(** The task a change is about. *)
Definition op_id (o : change_op) : uuid :=
  match o with ChCreate t | ChUpdate t _ => ID t | ChDelete id => id end.

Lemma op_fn_id (io : PgRepo.txio) (o : change_op) (ts ts' : gmap uuid Task) (t : Task) :
  map_Forall (λ id t, ID t = id) ts → op_fn io o ts = (Ok t, ts') → ID t = op_id o.
Proof.
  intros Hk Hfn. pose proof (op_fn_ok _ _ _ _ _ Hk Hfn) as [_ Hop].
  destruct o as [t0|t0 v|id]; simpl in *; [done| |by destruct Hop].
  unfold PgRepo.update_fn, PgRepo.query in Hfn.
  destruct (PgRepo.io_stmt io); [simpl in Hfn; by case_match|].
  unfold PgRepo.updateTaskSQL in Hfn. destruct (ts !! ID t0) as [x|] eqn:Hx; [|done].
  pose proof (Hk _ _ Hx) as HID. simpl in HID.
  repeat (case_match; simplify_eq/=; try done).
Qed.

(** The key of a change's event is new. *)
Lemma event_key_new (used : gset uuid) (o : change_op) (ts ts' : gmap uuid Task) (t : Task)
  (io : PgRepo.txio) :
  map_Forall (λ id t, ID t = id) ts → creates o ## used → op_fn io o ts = (Ok t, ts') →
  ¬ key_old used ts (event_key (op_event o) (ID t) (Version t)).
Proof using ulaws utext.
  intros Hk Hc Hfn (ev & u & v & Heq & Hev & Hu & Hdel & Hver).
  apply event_key_inj in Heq as (<- & <- & <-); [|apply op_event_name|done].
  apply op_fn_ok in Hfn as [_ Hfn]; [|done]. destruct o as [t0|t0 v|id]; simpl in *.
  - apply (Hc (ID t)); [|done]. rewrite Hfn. set_solver.
  - destruct Hfn as (x & Hx & Hv). pose proof (Hver ltac:(done) x Hx). lia.
  - destruct Hfn as [Hx <-]. by rewrite Hdel in Hx.
Qed.

Lemma event_ID_nonempty (o : change_op) (t : Task) :
  event_ID (eventFor (op_event o) t) ≠ "".
Proof. by destruct o. Qed.

Lemma change_and_enqueue_spec (io : PgRepo.txio) (o : change_op) (now : Z) (st : state) :
  outbox_ok st → creates o ## st.1 →
  match PgRepo.change_and_enqueue io (op_event o) (op_fn io o) now (w_db st.2) with
  | (Ok t, d') =>
      published o t now (w_db st.2) d'
      ∧ op_fn io o (pg_tasks (w_db st.2)) = (Ok t, pg_tasks d')
      ∧ next_id (pg_jobs d') = next_id (pg_jobs (w_db st.2)) + 1
  | (Err _, d') => next_id (pg_jobs (w_db st.2)) ≤ next_id (pg_jobs d')
  end.
Proof using ulaws utext.
  intros (Hids & Hts & Hkeys) Hc. unfold PgRepo.change_and_enqueue.
  set (d := w_db st.2) in *. destruct (op_fn io o (pg_tasks d)) as [[t|e] ts'] eqn:Hfn; [|simpl; lia].
  assert (Hk : map_Forall (λ id t, ID t = id) (pg_tasks d))
    by (eapply map_Forall_impl; [exact Hts|by intros ? ? []]).
  unfold Enqueue. simpl. destruct (PgRepo.io_enqueue io); [simpl; lia|].
  unfold insertSQL. rewrite decide_False by apply event_ID_nonempty. simpl.
  destruct (key_taken _ _) eqn:Ht.
  { exfalso. unfold key_taken in Ht. apply bool_decide_eq_true in Ht as (id & r & Hr & _ & Hu).
    eapply event_key_new; [exact Hk|exact Hc|exact Hfn|].
    change (event_key _ _ _) with (event_ID (eventFor (op_event o) t)). by eapply Hkeys. }
  simpl. split; [|done]. split; [|done]. simpl. by apply op_fn_ok in Hfn as [-> _].
Qed.

(** ** The invariant is preserved *)

Lemma key_old_more (used used' : gset uuid) (ts : gmap uuid Task) (k : string) :
  used ⊆ used' → key_old used ts k → key_old used' ts k.
Proof. clear ulaws utext. intros Hs (ev & u & v & ?). exists ev, u, v. set_solver. Qed.

Lemma key_old_change (used : gset uuid) (o : change_op) (io : PgRepo.txio)
  (ts ts' : gmap uuid Task) (t : Task) (k : string) :
  map_Forall (λ id t, ID t = id) ts → creates o ## used → op_fn io o ts = (Ok t, ts') →
  key_old used ts k → key_old (creates o ∪ used) ts' k.
Proof. clear ulaws utext.
  intros Hk Hc Hfn (ev & u & v & -> & Hev & Hu & Hdel & Hver). exists ev, u, v.
  split_and!; [done|done|set_solver| |]; apply op_fn_ok in Hfn as [-> Hfn]; try done;
    destruct o as [t0|t0 v0|id]; simpl in *.
  - intros He. rewrite lookup_insert_ne; [auto|]. intros <-. apply (Hc (ID t)); [|done].
    rewrite Hfn. set_solver.
  - intros He. specialize (Hdel He). destruct Hfn as (x & Hx & _).
    rewrite lookup_insert_ne; [done|]. intros <-. congruence.
  - intros He. apply lookup_delete_None. auto.
  - intros He x. rewrite lookup_insert_ne; [auto|]. intros <-. apply (Hc (ID t)); [|done].
    rewrite Hfn. set_solver.
  - intros He x Hx. destruct Hfn as (y & Hy & Hv).
    apply lookup_insert_Some in Hx as [[<- <-]|[_ Hx]]; [|auto].
    specialize (Hver He y Hy). lia.
  - intros He x [_ Hx]%lookup_delete_Some. auto.
Qed.

Lemma outbox_ok_publish (io : PgRepo.txio) (o : change_op) (now : Z) (used : gset uuid)
  (s : world) (t : Task) (d' : pgdb) (sent : list string) :
  outbox_ok (used, s) → creates o ## used → published o t now (w_db s) d' →
  op_fn io o (pg_tasks (w_db s)) = (Ok t, pg_tasks d') →
  next_id (pg_jobs d') = next_id (pg_jobs (w_db s)) + 1 →
  outbox_ok (creates o ∪ used, mkWorld d' sent).
Proof. clear ulaws utext.
  intros (Hids & Hts & Hkeys) Hc [Ht Hr] Hfn Hn. unfold outbox_ok. simpl in *.
  assert (Hk : map_Forall (λ id t, ID t = id) (pg_tasks (w_db s)))
    by (eapply map_Forall_impl; [exact Hts|by intros ? ? []]).
  pose proof (op_fn_ok _ _ _ _ _ Hk Hfn) as [_ Hop]. split_and!.
  - unfold ids_ok. rewrite Hr, Hn. apply map_Forall_insert_2; [simpl; lia|].
    eapply map_Forall_impl; [exact Hids|]. simpl. intros; lia.
  - rewrite Ht. destruct o as [t0|t0 v|id]; simpl in *.
    + apply map_Forall_insert_2; [set_solver|].
      eapply map_Forall_impl; [exact Hts|]. simpl. set_solver.
    + destruct Hop as (x & Hx & _). apply map_Forall_insert_2.
      * apply Hts in Hx as [_ Hx]. set_solver.
      * eapply map_Forall_impl; [exact Hts|]. simpl. set_solver.
    + apply map_Forall_delete. eapply map_Forall_impl; [exact Hts|]. simpl. set_solver.
  - intros id r k Hr' Hu. rewrite Hr in Hr'. apply lookup_insert_Some in Hr' as [[_ <-]|[_ Hr']].
    + simpl in Hu. injection Hu as <-. exists (op_event o), (ID t), (Version t).
      split_and!; [done|apply op_event_name| | |]; rewrite ?Ht; destruct o as [t0|t0 v|id']; simpl in *.
      * set_solver.
      * destruct Hop as (x & Hx & _). apply Hts in Hx as [_ Hx]. set_solver.
      * destruct Hop as [Hx ->]. apply Hts in Hx as [_ Hx]. set_solver.
      * done.
      * done.
      * intros _. destruct Hop as [_ ->]. apply lookup_delete_eq.
      * intros _ x. rewrite lookup_insert_eq. intros [= <-]. lia.
      * intros _ x. rewrite lookup_insert_eq. intros [= <-]. lia.
      * done.
    + eapply key_old_change; [exact Hk|exact Hc|exact Hfn|]. by eapply Hkeys.
Qed.

Lemma outbox_ok_rollback (used used' : gset uuid) (s : world) (d' : pgdb) (sent : list string) :
  outbox_ok (used, s) → used ⊆ used' → next_id (pg_jobs (w_db s)) ≤ next_id (pg_jobs d') →
  outbox_ok (used', mkWorld (rollback (w_db s) d') sent).
Proof. clear ulaws utext.
  intros (Hids & Hts & Hkeys) Hu Hn. unfold outbox_ok. simpl in *. split_and!.
  - eapply map_Forall_impl; [exact Hids|]. simpl. intros; lia.
  - eapply map_Forall_impl; [exact Hts|]. simpl. set_solver.
  - intros id r k Hr Hk. eapply key_old_more; [exact Hu|]. by eapply Hkeys.
Qed.

(** What a change does, driver failures included. *)
Lemma change_task_spec (io : PgRepo.txio) (o : change_op) (now : Z) (used : gset uuid)
  (s s' : world) (r : result err Task) :
  outbox_ok (used, s) → creates o ## used → change_task io o now s = (r, s') →
  outbox_ok (creates o ∪ used, s')
  ∧ ((∃ t, published o t now (w_db s) (w_db s')
        ∧ op_fn io o (pg_tasks (w_db s)) = (Ok t, pg_tasks (w_db s'))
        ∧ (r = Ok t ∨ is_ok r = false ∧ PgRepo.io_commit io ≠ DbOk))
     ∨ is_ok r = false ∧ unchanged (w_db s) (w_db s')).
Proof using ulaws utext.
  intros Hok Hc. unfold change_task, PgRepo.write. simpl.
  destruct (PgRepo.io_begin io).
  { intros [= <- <-]. split; [|by right; split].
    destruct Hok as (Hids & Hts & Hkeys). split_and!; [done| |].
    - eapply map_Forall_impl; [exact Hts|]. simpl. set_solver.
    - intros id q k Hq Hk. eapply key_old_more; [|by eapply Hkeys]. set_solver. }
  pose proof (change_and_enqueue_spec io o now (used, s) Hok Hc) as Hspec. simpl in Hspec.
  destruct (PgRepo.change_and_enqueue _ _ _ _ _) as [[t|e] d'].
  - destruct Hspec as (Hp & Hfn & Hn).
    destruct (PgRepo.io_commit io) as [|e []] eqn:Hio; intros [= <- <-].
    + unfold Notify. split.
      * destruct (PgRepo.io_notify io); by eapply outbox_ok_publish.
      * left. exists t. destruct (PgRepo.io_notify io); auto.
    + split; [by eapply outbox_ok_publish|]. left. exists t. auto.
    + split; [eapply outbox_ok_rollback; [done|set_solver|lia]|by right].
  - intros [= <- <-]. split; [eapply outbox_ok_rollback; [done|set_solver|lia]|by right].
Qed.

Lemma change_task_next (io : PgRepo.txio) (o : change_op) (now : Z) (used : gset uuid) (s : world) :
  outbox_ok (used, s) → creates o ## used →
  next_id (pg_jobs (w_db s)) ≤ next_id (pg_jobs (w_db (change_task io o now s).2)).
Proof using ulaws utext.
  intros Hok Hc. unfold change_task, PgRepo.write. simpl. destruct (PgRepo.io_begin io); [simpl; lia|].
  pose proof (change_and_enqueue_spec io o now (used, s) Hok Hc) as Hspec. simpl in Hspec.
  destruct (PgRepo.change_and_enqueue _ _ _ _ _) as [[t|e] d']; [|exact Hspec].
  destruct Hspec as (_ & _ & Hn). destruct (PgRepo.io_commit io) as [|e []]; simpl; [|lia..].
  unfold Notify. destruct (PgRepo.io_notify io); simpl; lia.
Qed.

Lemma outbox_ok_jobs (o : jop) (used : gset uuid) (s : world) :
  (∀ k p u m now, o ≠ JEnqueue k p u m now) → outbox_ok (used, s) →
  outbox_ok (used, with_jobs (apply o) s).
Proof.
  intros Ho (Hids & Hts & Hkeys). unfold outbox_ok. simpl in *.
  split_and!; [by apply apply_ids_ok|done|]. intros id r' k Hr' Hu.
  destruct (rows (pg_jobs (w_db s)) !! id) as [r|] eqn:Hr.
  - pose proof (apply_changes o _ Hids id r Hr) as Hch. rewrite Hr' in Hch.
    apply change_frozen in Hch as (_ & _ & _ & _ & Hk & _). rewrite Hk in Hu. by eapply Hkeys.
  - destruct (apply_fresh _ _ _ _ Hr Hr') as (_ & ? & ? & ? & ? & ? & -> & _). by edestruct Ho.
Qed.

Lemma reach_outbox_ok (st : state) : rtc pg_step pg_empty st → outbox_ok st.
Proof using ulaws utext.
  intros Hrun. eapply rtc_invariant; [|exact Hrun|].
  - intros s s' Hs Hstep. destruct Hstep as [io o now used s Hc|o used s Ho].
    + by apply (change_task_spec io o now used s _ (change_task io o now s).1); [..|apply surjective_pairing].
    + by apply outbox_ok_jobs.
  - split_and!; simpl; [apply map_Forall_empty..|]. intros id r k Hr. by rewrite lookup_empty in Hr.
Qed.
End outbox.

(** ** Properties *)

(** C14: the transactional outbox.  In every state that changes and job statements can
    reach, a create, update or delete either takes effect together with its
    event or not at all: a success has changed the task and added exactly one
    row to the queue, available at once, whose payload is the change and whose
    key is its identifier - never lost to deduplication; a failure has changed
    neither table, unless it is the commit that failed, and then both or
    neither. *)
Theorem outbox_atomic `{UuidLaws} `{!EventJson, !UuidText} (st : state) (io : PgRepo.txio)
  (o : change_op) (now : Z) (s' : world) (r : result err Task) :
  rtc pg_step pg_empty st → creates o ## st.1 → change_task io o now st.2 = (r, s') →
  match r with
  | Ok t => published o t now (w_db st.2) (w_db s')
  | Err _ =>
      unchanged (w_db st.2) (w_db s')
      ∨ PgRepo.io_commit io ≠ DbOk ∧ ∃ t, published o t now (w_db st.2) (w_db s')
  end.
Proof.
  intros Hrun%reach_outbox_ok Hc Hch. destruct st as [used s].
  destruct (change_task_spec io o now used s s' r Hrun Hc Hch) as [_ [(t & Hp & _ & Hr)|[Hr Hu]]].
  - destruct Hr as [->|[Hr Hio]]; [done|]. destruct r; [done|]. right. eauto.
  - destruct r; [done|]. by left.
Qed.

(** ** At concrete worlds *)

Lemma hex_no_colon (w : nat) (n : Z) :
  0 ≤ n < pow16 w → contains_byte ":" (hex w n) = false.
Proof.
  revert n. induction w as [|w IH]; intros n Hn; [done|].
  assert (HS : pow16 (S w) = 16 * pow16 w)
    by (unfold pow16; rewrite Nat2Z.inj_succ, Z.pow_succ_r; lia).
  assert (Hpos : 0 < pow16 w) by (unfold pow16; apply Z.pow_pos_nonneg; lia).
  assert (Hd : 0 ≤ n / pow16 w < 16)
    by (split; [apply Z.div_pos; lia | apply Z.div_lt_upper_bound; lia]).
  change (contains_byte ":" (String (hex_char (n / pow16 w)) (hex w (n mod pow16 w))) = false).
  simpl. rewrite IH by (by apply Z.mod_pos_bound).
  case_bool_decide as Heq; [|done]. pose proof (hex_spec _ Hd) as Hs. by rewrite Heq in Hs.
Qed.

#[export] Instance uuid128_text : UuidText.
Proof.
  split. intros [n p]. change (contains_byte ":" (uuid128_String (n ↾ p)) = false).
  unfold uuid128_String. cbn [proj1_sig]. cbv zeta.
  unfold uuid_ok in p. apply andb_true_iff in p as [Hlo Hhi]. zbool.
  rewrite !contains_byte_app, !hex_no_colon; try (by apply Z.mod_pos_bound); [done|].
  change (pow16 24) with (2 ^ 96). change (pow16 8) with (2 ^ 32).
  Z.div_mod_to_equations. lia.
Qed.

Definition milk (v : Z) : Task := mkTask (uuid_of 7) "buy milk" 0 5000 6000 v.

(** One task, created, its event claimed by a worker. *)
Definition created_world : world :=
  (change_task TaskService.io_ok (ChCreate (milk 1)) 10 pg_empty.2).2.
Definition claimed_world : world := with_jobs (apply (JClaim DbOk "w1" 10 30 20 ∅)) created_world.
Definition sample_state : state := ({[ uuid_of 7 ]} ∪ ∅, claimed_world).

Lemma sample_reach : rtc pg_step pg_empty sample_state.
Proof.
  eapply rtc_l; [apply (pg_change TaskService.io_ok (ChCreate (milk 1)) 10); apply disjoint_empty_r|].
  eapply rtc_l; [apply (pg_jobs_run (JClaim DbOk "w1" 10 30 20 ∅)); discriminate|].
  apply rtc_refl.
Qed.

(** The stored task. *)
Definition updated : Task := mkTask (uuid_of 7) "buy milk" 0 5000 6000 2.

Lemma outbox_atomic_witness :
  published (ChUpdate (milk 0) 1) updated 25 (w_db claimed_world)
    (w_db (change_task TaskService.io_ok (ChUpdate (milk 0) 1) 25 claimed_world).2).
Proof.
  apply (outbox_atomic sample_state TaskService.io_ok (ChUpdate (milk 0) 1) 25
    (change_task TaskService.io_ok (ChUpdate (milk 0) 1) 25 claimed_world).2 (Ok updated)).
  - apply sample_reach.
  - apply disjoint_empty_l.
  - etransitivity; [apply surjective_pairing|]. apply (f_equal2 pair); [vm_eq|reflexivity].
Defined.

(** A deletion reports as its time the time of the last update. *)
Example deletion_time :
  let s' := change_task TaskService.io_ok (ChDelete (uuid_of 7)) 90 claimed_world in
  match s'.1 with
  | Ok t => e_OccurredAt (eventFor EventDeleted t) = UpdatedAt t ∧ UpdatedAt t = 6000
  | Err _ => False
  end.
Proof. by vm_compute. Qed.
