(* ===== verification/Sha256.v ===== *)
(** * SHA-256, as crypto/sha256 and encoding/hex compute it

    Bytes are characters and words are 32-bit integers.  The tokens of clients and
    the fingerprints of requests are compared as digests. *)
From stdpp Require Import options.
From S2P Require Import Prelude GoStrings.
From Stdlib Require Import Ascii.
Open Scope Z_scope.

Definition word (z : Z) : Z := z mod 2 ^ 32.
Definition add32 (x y : Z) : Z := word (x + y).
Definition rotr (n x : Z) : Z := Z.lor (Z.shiftr x n) (word (Z.shiftl x (32 - n))).
Definition not32 (x : Z) : Z := Z.lxor x (2 ^ 32 - 1).

Definition Ch (x y z : Z) : Z := Z.lxor (Z.land x y) (Z.land (not32 x) z).
Definition Maj (x y z : Z) : Z := Z.lxor (Z.lxor (Z.land x y) (Z.land x z)) (Z.land y z).
Definition Sigma0 (x : Z) : Z := Z.lxor (Z.lxor (rotr 2 x) (rotr 13 x)) (rotr 22 x).
Definition Sigma1 (x : Z) : Z := Z.lxor (Z.lxor (rotr 6 x) (rotr 11 x)) (rotr 25 x).
Definition sigma0 (x : Z) : Z := Z.lxor (Z.lxor (rotr 7 x) (rotr 18 x)) (Z.shiftr x 3).
Definition sigma1 (x : Z) : Z := Z.lxor (Z.lxor (rotr 17 x) (rotr 19 x)) (Z.shiftr x 10).

(** The constants are the first 32 bits of the fractional parts of the cube roots of
    the first 64 primes, and of the square roots of the first eight. *)
Definition is_prime (p : Z) : bool :=
  forallb (λ d, negb (p mod Z.of_nat d =? 0)) (seq 2 (Z.to_nat p - 2)).
Definition primes (n : nat) : list Z :=
  take n (filter (λ p, is_prime p = true) (Z.of_nat <$> seq 2 310)).

(** The integer cube root below [2^n], a bit at a time. *)
Fixpoint cube_root (n : nat) (r z : Z) : Z :=
  match n with
  | O => r
  | S n =>
      let r' := r + 2 ^ Z.of_nat n in cube_root n (if r' * r' * r' <=? z then r' else r) z
  end.

Definition round_constants : list Z :=
  Eval vm_compute in (λ p, word (cube_root 36 0 (p * 2 ^ 96))) <$> primes 64.
Definition initial_hash : list Z :=
  Eval vm_compute in (λ p, word (Z.sqrt (p * 2 ^ 64))) <$> primes 8.

(** ** Padding and blocks *)

Definition byte_of (z : Z) : ascii := ascii_of_nat (Z.to_nat (z mod 256)).
Definition code_of (c : ascii) : Z := Z.of_nat (nat_of_ascii c).

(** The big-endian bytes of a number, [n] of them. *)
Fixpoint be_bytes (n : nat) (z : Z) : list ascii :=
  match n with
  | O => []
  | S n => byte_of (z / 2 ^ (8 * Z.of_nat n)) :: be_bytes n z
  end.

Definition pad (msg : list ascii) : list ascii :=
  let l := Z.of_nat (length msg) in
  let zeros := Z.to_nat ((55 - l) mod 64) in
  msg ++ byte_of 128 :: replicate zeros (byte_of 0) ++ be_bytes 8 (8 * l).

Fixpoint words (l : list ascii) : list Z :=
  match l with
  | a :: b :: c :: d :: l =>
      (((code_of a * 256 + code_of b) * 256 + code_of c) * 256 + code_of d) :: words l
  | _ => []
  end.

Fixpoint blocks (fuel : nat) (ws : list Z) : list (list Z) :=
  match fuel, ws with
  | S fuel, _ :: _ => take 16 ws :: blocks fuel (drop 16 ws)
  | _, _ => []
  end.

(** ** Compression *)

(** The message schedule, its latest sixteen words first. *)
Fixpoint schedule (n : nat) (rev : list Z) : list Z :=
  match n with
  | O => rev
  | S n =>
      let w i := nth i rev 0 in
      schedule n (add32 (add32 (sigma1 (w 1%nat)) (w 6%nat))
                    (add32 (sigma0 (w 14%nat)) (w 15%nat)) :: rev)
  end.

Definition round (st : list Z) (kw : Z * Z) : list Z :=
  match st with
  | [a; b; c; d; e; f; g; h] =>
      let t1 := add32 (add32 (add32 h (Sigma1 e)) (add32 (Ch e f g) kw.1)) kw.2 in
      let t2 := add32 (Sigma0 a) (Maj a b c) in
      [add32 t1 t2; a; b; c; add32 d t1; e; f; g]
  | _ => st
  end.

Definition compress (st block : list Z) : list Z :=
  let w := rev (schedule 48 (rev block)) in
  zip_with add32 st (foldl round st (zip round_constants w)).

Definition sha256 (s : string) : string :=
  let msg := pad (String.list_ascii_of_string s) in
  let ws := words msg in
  String.string_of_list_ascii
    (concat (be_bytes 4 <$> foldl compress initial_hash (blocks (length ws) ws))).

(** encoding/hex *)
Definition hex_digit (n : Z) : ascii := byte_of (if n <? 10 then 48 + n else 87 + n).
Fixpoint hex_EncodeToString (s : string) : string :=
  match s with
  | EmptyString => EmptyString
  | String c s =>
      String (hex_digit (code_of c / 16)) (String (hex_digit (code_of c mod 16)) (hex_EncodeToString s))
  end.

Definition hex_value (c : ascii) : option Z :=
  let n := code_of c in
  if (48 <=? n) && (n <=? 57) then Some (n - 48)
  else if (97 <=? n) && (n <=? 102) then Some (n - 87)
  else if (65 <=? n) && (n <=? 70) then Some (n - 55)
  else None.

(** [hex.DecodeString]; [None] is an error. *)
Fixpoint hex_DecodeString (s : string) : option string :=
  match s with
  | EmptyString => Some EmptyString
  | String a (String b s) =>
      x ← hex_value a; y ← hex_value b; r ← hex_DecodeString s;
      Some (String (byte_of (16 * x + y)) r)
  | String _ EmptyString => None
  end.

Example sha256_abc :
  hex_EncodeToString (sha256 "abc")
  = "ba7816bf8f01cfea414140de5dae2223b00361a396177a9cb410ff61f20015ad".
Proof. vm_eq. Qed.

Example sha256_two_blocks :
  hex_EncodeToString (sha256 "abcdbcdecdefdefgefghfghighijhijkijkljklmklmnlmnomnopnopq")
  = "248d6a61d20638b8e5c026930c3e6039a33ce45964ff2167f6ecedd419db06c1".
Proof. vm_eq. Qed.
