(* ===== verification/Http.v ===== *)
(** * HTTP: requests, responses and the middleware chain (src/internal/httpx)

    A handler is a function of the request and of the state it runs in: the
    response writer, as net/http defines it, and the application's own state
    [S].  A panic is an outcome a middleware may recover from. *)
From stdpp Require Import options.
From S2P Require Import Prelude GoStrings.
From Stdlib Require Import Ascii.
Open Scope Z_scope.

(** ** Headers: a map from canonical names to values *)

(** [textproto.CanonicalMIMEHeaderKey], of a valid name: upper case after a dash and
    at the start, lower case elsewhere. *)
Definition upper_byte (c : ascii) : ascii :=
  let n := nat_of_ascii c in
  if (97 <=? n)%nat && (n <=? 122)%nat then ascii_of_nat (n - 32) else c.
Fixpoint canonical_from (upper : bool) (s : string) : string :=
  match s with
  | EmptyString => EmptyString
  | String a s =>
      String (if upper then upper_byte a else lower_byte a)
        (canonical_from (bool_decide (a = "-"%char)) s)
  end.
Definition canonical (s : string) : string := canonical_from true s.

Abbreviation Header := (gmap string (list string)).

Definition header_Get (k : string) (h : Header) : string :=
  match h !! canonical k with Some (v :: _) => v | _ => "" end.
Definition header_Set (k v : string) (h : Header) : Header := <[canonical k := [v]]> h.
Definition header_Del (k : string) (h : Header) : Header := delete (canonical k) h.

(** ** Requests *)

(** The body to be read: what the client sends, how its connection may fail, and the
    cap of [http.MaxBytesReader]. *)
Record Body : Type := mkBody { b_data : string; b_broken : bool; b_max : option Z }.

Inductive body_error : Type := MaxBytesError | BrokenBody.

Definition io_ReadAll (b : Body) : result body_error string :=
  match b_max b with
  | Some n =>
      if n <? len (b_data b) then Err MaxBytesError
      else if b_broken b then Err BrokenBody else Ok (b_data b)
  | None => if b_broken b then Err BrokenBody else Ok (b_data b)
  end.

(** [auth.Identity]. *)
Record Identity : Type := mkIdentity { ClientID : string; Tier : string; Key : string }.

(** A request, with what the middleware put in its context. *)
Record Request : Type := mkRequest {
  Method : string;
  Path : string;
  ReqHeader : Header;
  ReqBody : option Body;
  ContentLength : Z;
  RemoteAddr : string;
  ctx_RequestID : option string;
  ctx_Identity : option Identity;
}.

Definition with_request_id (id : string) (r : Request) : Request :=
  mkRequest (Method r) (Path r) (ReqHeader r) (ReqBody r) (ContentLength r) (RemoteAddr r)
    (Some id) (ctx_Identity r).
Definition with_identity (id : Identity) (r : Request) : Request :=
  mkRequest (Method r) (Path r) (ReqHeader r) (ReqBody r) (ContentLength r) (RemoteAddr r)
    (ctx_RequestID r) (Some id).
Definition with_body (b : option Body) (r : Request) : Request :=
  mkRequest (Method r) (Path r) (ReqHeader r) b (ContentLength r) (RemoteAddr r)
    (ctx_RequestID r) (ctx_Identity r).
Definition with_header (h : Header) (r : Request) : Request :=
  mkRequest (Method r) (Path r) h (ReqBody r) (ContentLength r) (RemoteAddr r)
    (ctx_RequestID r) (ctx_Identity r).

(** ** The response writer

    The header map is live until the status is written, which the first write does
    if the handler has not; later statuses are ignored. *)
Record Writer : Type := mkWriter {
  w_header : Header;
  w_wrote : option (Z * Header);
  w_body : string;
}.

Definition new_writer : Writer := mkWriter ∅ None "".

Definition on_header (f : Header → Header) (w : Writer) : Writer :=
  mkWriter (f (w_header w)) (w_wrote w) (w_body w).
Definition WriteHeader (status : Z) (w : Writer) : Writer :=
  match w_wrote w with
  | Some _ => w
  | None => mkWriter (w_header w) (Some (status, w_header w)) (w_body w)
  end.
Definition Write (b : string) (w : Writer) : Writer :=
  let w := WriteHeader 200 w in mkWriter (w_header w) (w_wrote w) (w_body w +:+ b)%string.

(** What the client is sent when the handler returns. *)
Record Response : Type := mkResponse {
  resp_Status : Z; resp_Header : Header; resp_Body : string }.
Definition sent (w : Writer) : Response :=
  match w_wrote w with
  | Some (st, h) => mkResponse st h (w_body w)
  | None => mkResponse 200 (w_header w) ""
  end.

(** ** Handlers *)

(** How a handler ends; [PanicAbort] is [http.ErrAbortHandler]. *)
Inductive flow : Type :=
  | Returned
  | Panicked (v : string)
  | PanicAbort.

Definition Handler (S : Type) : Type := Request → Writer * S → flow * (Writer * S).
Definition Middleware (S : Type) : Type := Handler S → Handler S.

(** A handler that only touches the writer. *)
Definition respond {S} (f : Writer → Writer) (ws : Writer * S) : flow * (Writer * S) :=
  (Returned, (f ws.1, ws.2)).

(** chain.go *)
Fixpoint Chain_loop {S} (mw : list (Middleware S)) (h : Handler S) : Handler S :=
  match mw with [] => h | m :: rest => m (Chain_loop rest h) end.
Definition Chain {S} (h : Handler S) (mw : list (Middleware S)) : Handler S := Chain_loop mw h.

(** ** requestid.go *)

Definition RequestIDHeader : string := "X-Request-Id".
Definition maxInboundRequestID : Z := 64.

Definition printable (c : ascii) : bool :=
  let n := nat_of_ascii c in (32 <=? n)%nat && (n <=? 126)%nat.

Definition sanitizeRequestID (raw : string) : string :=
  if bool_decide (raw = "") || (maxInboundRequestID <? len raw) then ""
  else if forallb printable (String.list_ascii_of_string raw) then raw else "".

(** [fresh] is what [uuid.NewString] returns. *)
Definition RequestID {S} (fresh : string) : Middleware S := λ next r ws,
  let id := sanitizeRequestID (header_Get RequestIDHeader (ReqHeader r)) in
  let id := if decide (id = "") then fresh else id in
  next (with_request_id id r) (on_header (header_Set RequestIDHeader id) ws.1, ws.2).

Definition RequestIDFrom (r : Request) : string := default "" (ctx_RequestID r).

(** ** problem.go *)

Definition StatusText (code : Z) : string :=
  match code with
  | 200 => "OK" | 201 => "Created" | 204 => "No Content"
  | 400 => "Bad Request" | 401 => "Unauthorized" | 403 => "Forbidden" | 404 => "Not Found"
  | 405 => "Method Not Allowed" | 408 => "Request Timeout" | 409 => "Conflict"
  | 412 => "Precondition Failed" | 413 => "Request Entity Too Large"
  | 422 => "Unprocessable Entity" | 429 => "Too Many Requests"
  | 499 => "" | 500 => "Internal Server Error" | 503 => "Service Unavailable"
  | 504 => "Gateway Timeout" | _ => ""
  end.

(** The string encoding of encoding/json: HTML characters are escaped too.  Bytes
    above ASCII are copied, as they are for the valid UTF-8 this is used on. *)
Definition hex_lower (n : nat) : ascii :=
  ascii_of_nat (if (n <? 10)%nat then 48 + n else 87 + n).
Definition quote_byte : ascii := ascii_of_nat 34.
Definition json_byte (c : ascii) : string :=
  let n := nat_of_ascii c in
  if bool_decide (c = quote_byte) || bool_decide (c = "\"%char) then String "\" (String c "")
  else if (n =? 8)%nat then "\b" else if (n =? 12)%nat then "\f"
  else if (n =? 10)%nat then "\n" else if (n =? 13)%nat then "\r" else if (n =? 9)%nat then "\t"
  else if (n <? 32)%nat || bool_decide (c = "<"%char) || bool_decide (c = ">"%char)
          || bool_decide (c = "&"%char)
  then ("\u00" +:+ String (hex_lower (n / 16)) (String (hex_lower (n mod 16)) ""))%string
  else String c "".
Fixpoint json_escape (s : string) : string :=
  match s with EmptyString => "" | String c s => (json_byte c +:+ json_escape s)%string end.
Definition json_string (s : string) : string :=
  (String quote_byte (json_escape s) +:+ String quote_byte "")%string.

Definition ProblemContentType : string := "application/problem+json".

(** The fields, in order; an empty detail or instance is omitted. *)
Definition problem_json (status : Z) (detail instance_ : string) : string :=
  let field name v := (json_string name +:+ ":" +:+ v)%string in
  let opt name v := if decide (v = "") then [] else [field name (json_string v)] in
  ("{" +:+ join_with "," ([field "type" (json_string "about:blank");
                           field "title" (json_string (StatusText status));
                           field "status" (itoa status)]
                          ++ opt "detail" detail ++ opt "instance" instance_)
   +:+ "}" +:+ String (ascii_of_nat 10) "")%string.

Definition WriteProblem (r : Request) (status : Z) (detail : string) (w : Writer) : Writer :=
  if bool_decide (header_Get "Content-Type" (w_header w) ≠ "") && (status =? 500) then w
  else
    let w := on_header (header_Set "Content-Type" ProblemContentType) w in
    let w := on_header (header_Set "X-Content-Type-Options" "nosniff") w in
    let w := WriteHeader status w in
    Write (problem_json status detail (RequestIDFrom r)) w.

(** ** recover.go *)

Definition Recover {S} : Middleware S := λ next r ws,
  match next r ws with
  | (Panicked _, ws') => (Returned, (WriteProblem r 500 "internal error" ws'.1, ws'.2))
  | res => res
  end.

(** ** limits.go *)

Definition MaxBody {S} (limit : Z) : Middleware S := λ next r ws,
  if limit <=? 0 then next r ws
  else if limit <? ContentLength r then
    respond (λ w, WriteProblem r 413
                    ("request body exceeds the limit of " +:+ itoa limit +:+ " bytes")%string
                    (on_header (header_Set "Connection" "close") w)) ws
  else
    let cap b := mkBody (b_data b) (b_broken b)
                   (Some match b_max b with Some n => Z.min n limit | None => limit end) in
    next (with_body (cap <$> ReqBody r) r) ws.

(** ** route.go *)

Definition RouteOther : string := "other".
Definition RouteConnect : string := "/task.v1.TaskService/{method}".

Definition isSingleSegment (s : string) : bool :=
  bool_decide (s ≠ "") && negb (contains_byte "/" s).

(** The rest of a path below a prefix, when it is one segment. *)
Definition one_below (prefix path : string) : bool :=
  match cut_prefix prefix path with Some rest => isSingleSegment rest | None => false end.

Definition fixedRoutes : list string :=
  ["/api/v1/tasks"; "/tasks"; "/healthz"; "/readyz"; "/metrics"; "/version"; "/openapi.yaml";
   "/openapi.json"; "/docs"; "/docs/"].

Definition Route (path : string) : string :=
  if decide (path ∈ fixedRoutes) then path
  else if one_below "/api/v1/tasks/" path then "/api/v1/tasks/{id}"
  else if one_below "/tasks/" path then "/tasks/{id}"
  else if one_below "/task.v1.TaskService/" path then RouteConnect
  else if has_prefix "/debug/" path then "/debug/*"
  else RouteOther.

Definition IsLegacyRoute (path : string) : bool :=
  bool_decide (path = "/tasks") || one_below "/tasks/" path.

(** ** deprecation.go *)

(** [SunsetDate] in [http.TimeFormat]. *)
Definition SunsetDate : string := "Fri, 01 Jan 2027 00:00:00 GMT".

Definition Deprecation {S} : Middleware S := λ next r ws,
  if IsLegacyRoute (Path r) then
    let set h :=
      header_Set "Link"
        ("</api/v1" +:+ Path r +:+ ">; rel=" +:+ String quote_byte "successor-version"
         +:+ String quote_byte "")%string
        (header_Set "Sunset" SunsetDate (header_Set "Deprecation" "true" h)) in
    next r (on_header set ws.1, ws.2)
  else next r ws.

(** ** logger.go *)

(** The canonical line of a request. *)
Record AccessLine : Type := mkLine {
  al_RequestID : string; al_Method : string; al_Route : string; al_Status : Z; al_In : Z; al_Out : Z }.

(** [put] is what the logger does with a line; [debug] whether it would.  The recorder
    forwards every call, so it is read off the writer, to which nothing was written
    before; the route is templated before the handler runs.  A panic passes without a
    line. *)
Definition Logger {S} (debug : bool) (put : AccessLine → S → S) : Middleware S := λ next r ws,
  if debug then
    let route := Route (Path r) in
    match next r ws with
    | (Returned, (w, s)) =>
        (Returned, (w, put (mkLine (RequestIDFrom r) (Method r) route (resp_Status (sent w))
                              (ContentLength r) (len (w_body w) - len (w_body ws.1))) s))
    | res => res
    end
  else next r ws.

(** The recorder of logger.go: it remembers the first status and counts what was written. *)
Record recorder : Type := mkRecorder {
  rec_writer : Writer; rec_status : Z; rec_written : Z; rec_wrote : bool }.

Definition new_recorder (w : Writer) : recorder := mkRecorder w 200 0 false.

Definition rec_WriteHeader (status : Z) (r : recorder) : recorder :=
  if rec_wrote r then r
  else mkRecorder (WriteHeader status (rec_writer r)) status (rec_written r) true.

Definition rec_Write (b : string) (r : recorder) : recorder :=
  mkRecorder (Write b (rec_writer r)) (rec_status r) (rec_written r + len b) true.

(** What a handler may ask of a writer. *)
Inductive wcall : Type :=
  | CallHeader (f : Header → Header)
  | CallWriteHeader (status : Z)
  | CallWrite (b : string).

Definition writer_call (w : Writer) (c : wcall) : Writer :=
  match c with
  | CallHeader f => on_header f w
  | CallWriteHeader s => WriteHeader s w
  | CallWrite b => Write b w
  end.

Definition recorder_call (r : recorder) (c : wcall) : recorder :=
  match c with
  | CallHeader f => mkRecorder (on_header f (rec_writer r)) (rec_status r) (rec_written r) (rec_wrote r)
  | CallWriteHeader s => rec_WriteHeader s r
  | CallWrite b => rec_Write b r
  end.

(** What the recorder knows is on the writer. *)
Definition recorded (n : Z) (r : recorder) : Prop :=
  rec_wrote r = (match w_wrote (rec_writer r) with Some _ => true | None => false end)
  ∧ rec_status r = resp_Status (sent (rec_writer r))
  ∧ rec_written r = len (w_body (rec_writer r)) - n.

Lemma recorded_call (n : Z) (r : recorder) (c : wcall) :
  recorded n r →
  recorded n (recorder_call r c) ∧ rec_writer (recorder_call r c) = writer_call (rec_writer r) c.
Proof.
  unfold recorded, sent. destruct r as [[h [[s h']|] b] st wr wt]; simpl; intros (-> & -> & ->);
    destruct c as [f|s'|b']; simpl; split_and!; try done; rewrite ?len_app; lia.
Qed.

Lemma recorded_calls (n : Z) (cs : list wcall) (r : recorder) :
  recorded n r →
  recorded n (foldl recorder_call r cs)
  ∧ rec_writer (foldl recorder_call r cs) = foldl writer_call (rec_writer r) cs.
Proof.
  revert r. induction cs as [|c cs IH]; intros r Hr; [done|]. simpl.
  destruct (recorded_call n r c Hr) as [Hr' <-]. by apply IH.
Qed.

(** Whatever the handler asks, the writer under the recorder is as if it had been asked
    itself, the status recorded is the one sent and the bytes are those written - which is
    how [Logger] reads them. *)
Lemma recorder_reads (cs : list wcall) (w : Writer) :
  w_wrote w = None →
  let r := foldl recorder_call (new_recorder w) cs in
  rec_writer r = foldl writer_call w cs
  ∧ rec_status r = resp_Status (sent (rec_writer r))
  ∧ rec_written r = len (w_body (rec_writer r)) - len (w_body w).
Proof.
  intros Hw r. assert (H0 : recorded (len (w_body w)) (new_recorder w)).
  { unfold recorded, sent. simpl. rewrite Hw. split_and!; [done|done|lia]. }
  destruct (recorded_calls _ cs _ H0) as [(_ & Hs & Hn) Hc]. done.
Qed.
