(* ===== verification/Mux.v ===== *)
(** * Routing (net/http's [ServeMux], as the program mounts its handlers)

    Patterns are a method and a path; every path of the program is literal but the
    catch-all "/".  What is dispatched is a request whose path is clean: the mux
    redirects any other before it looks at the patterns. *)
From stdpp Require Import options.
From S2P Require Import Prelude GoStrings ConfigReload Http.
From Stdlib Require Import Ascii.
Open Scope Z_scope.

(** No method is every method. *)
Record pattern : Type := mkPattern { pt_method : string; pt_path : string }.

Definition HandleFunc {H} (method path : string) (h : H) (mux : list (pattern * H))
  : list (pattern * H) := mux ++ [(mkPattern method path, h)].

(** A pattern for GET takes HEAD as well. *)
Definition allows (p : pattern) (method : string) : bool :=
  bool_decide (pt_method p = "") || bool_decide (pt_method p = method)
  || (bool_decide (pt_method p = "GET") && bool_decide (method = "HEAD")).

Definition literal (p : pattern) (path : string) : bool := bool_decide (pt_path p = path).
Definition covers (p : pattern) (path : string) : bool :=
  literal p path || bool_decide (pt_path p = "/").

Definition named (p : pattern) : bool := negb (bool_decide (pt_method p = "")).

(** The handlers of the patterns that pass a test and allow the method. *)
Definition matching {H} (f : pattern → bool) (mux : list (pattern * H)) (method : string) : list H :=
  omap (λ ph : pattern * H, if f ph.1 && allows ph.1 method then Some ph.2 else None) mux.

(** The most specific pattern that matches: a literal path before the catch-all, and of
    two with the same path the one that names a method. *)
Definition pick {H} (mux : list (pattern * H)) (method path : string) : option H :=
  head (matching (λ p, literal p path && named p) mux method
        ++ matching (λ p, literal p path) mux method
        ++ matching (λ p, covers p path && named p) mux method
        ++ matching (λ p, covers p path) mux method).

(** What the patterns that fit the path would have allowed. *)
Definition allowed_methods {H} (mux : list (pattern * H)) (path : string) : list string :=
  sort_strings (elements (list_to_set
    (mux ≫= λ ph, if covers ph.1 path && named ph.1
                  then pt_method ph.1 :: (if decide (pt_method ph.1 = "GET") then ["HEAD"] else [])
                  else []) : gset string)).

Definition newline : string := String (ascii_of_nat 10) EmptyString.

(** [http.Error]. *)
Definition http_Error (text : string) (code : Z) (w : Writer) : Writer :=
  Write (text +:+ newline)%string
    (WriteHeader code
       (on_header (λ h, header_Set "X-Content-Type-Options" "nosniff"
                          (header_Set "Content-Type" "text/plain; charset=utf-8"
                             (header_Del "Content-Length" h))) w)).

Definition ServeMux {S} (mux : list (pattern * Handler S)) : Handler S := λ r ws,
  match pick mux (Method r) (Path r) with
  | Some h => h r ws
  | None =>
      match allowed_methods mux (Path r) with
      | [] => respond (http_Error "404 page not found" 404) ws
      | ms => respond (λ w, http_Error "Method Not Allowed" 405
                              (on_header (header_Set "Allow" (join_with ", " ms)) w)) ws
      end
  end.

(** ** Facts *)

Section facts.
Context {H : Type}.

Lemma matching_in (f : pattern → bool) (mux : list (pattern * H)) (method : string) (h : H) :
  h ∈ matching f mux method ↔ ∃ p, (p, h) ∈ mux ∧ f p = true ∧ allows p method = true.
Proof.
  unfold matching. rewrite list_elem_of_omap. split.
  - intros ([p h'] & Hin & Hsome). simpl in Hsome. destruct (f p && allows p method) eqn:Hb; [|done].
    split_all. simplify_eq. eauto.
  - intros (p & Hin & Hf & Ha). exists (p, h). simpl. by rewrite Hf, Ha.
Qed.

Lemma pick_in (mux : list (pattern * H)) (method path : string) (h : H) :
  pick mux method path = Some h →
  ∃ p, (p, h) ∈ mux ∧ covers p path = true ∧ allows p method = true.
Proof.
  unfold pick. intros Hh. apply head_Some_elem_of in Hh.
  rewrite !elem_of_app, !matching_in in Hh.
  assert (Hlit : ∀ p, literal p path = true → covers p path = true) by (unfold covers; by intros p ->).
  destruct Hh as [(p & ? & Hf & ?)|[(p & ? & Hf & ?)|[(p & ? & Hf & ?)|(p & ? & Hf & ?)]]];
    exists p; split_all; auto.
Qed.

(** With a catch-all for every method the mux answers nothing itself. *)
Lemma pick_catch_all (mux : list (pattern * H)) (h : H) (method path : string) :
  (mkPattern "" "/", h) ∈ mux → is_Some (pick mux method path).
Proof.
  intros Hin. unfold pick.
  assert (Hne : h ∈ matching (λ p, covers p path) mux method).
  { apply matching_in. eexists. split; [exact Hin|]. unfold covers, literal, allows. simpl.
    by rewrite orb_true_r. }
  revert Hne. generalize (matching (λ p, covers p path) mux method). intros l Hl.
  repeat (destruct (matching _ mux method); [|by eexists]).
  destruct l; [by apply not_elem_of_nil in Hl|by eexists].
Qed.
End facts.
