(* ===== verification/ConfigDuration.v ===== *)
(** * Durations in the configuration (src/internal/config/duration.go)

    [time.ParseDuration] as Go's library has it - machine integers, the float that
    scales a fraction, the overflow tests - and the encodings of [config.Duration] on top
    of it.  What is printed is read back as it was. *)
From stdpp Require Import options.
From S2P Require Import Prelude GoStrings GoDuration GoFloat Apperr ConfigBase Http.
From S2P Require ConfigProps.
From Stdlib Require Import Ascii QArith Qround.
Open Scope Z_scope.

(** ** Go's library *)

Definition is_digit (c : ascii) : bool := (48 <=? nat_of_ascii c)%nat && (nat_of_ascii c <=? 57)%nat.
Definition digit_of (c : ascii) : Z := Z.of_nat (nat_of_ascii c) - 48.

Definition max_u : Z := 2 ^ 63.

(** [leadingInt]: [None] on overflow. *)
Fixpoint leadingInt (x : Z) (s : string) : option (Z * string) :=
  match s with
  | String c s' =>
      if is_digit c then
        if max_u / 10 <? x then None
        else
          let y := x * 10 + digit_of c in
          if max_u <? y then None else leadingInt y s'
      else Some (x, s)
  | EmptyString => Some (x, s)
  end.

(** [leadingFraction]: digits past the range are skipped.  The scale is a float, a
    power of ten. *)
Fixpoint leadingFraction (x scale : Z) (overflow : bool) (s : string) : Z * Z * string :=
  match s with
  | String c s' =>
      if is_digit c then
        if overflow then leadingFraction x scale true s'
        else if (max_u - 1) / 10 <? x then leadingFraction x scale true s'
        else
          let y := x * 10 + digit_of c in
          if max_u <? y then leadingFraction x scale true s'
          else leadingFraction y (fmul scale 10) false s'
      else (x, scale, s)
  | EmptyString => (x, scale, s)
  end.

(** The text up to the next period or digit, and the rest. *)
Fixpoint take_unit (s : string) : string * string :=
  match s with
  | String c s' =>
      if bool_decide (c = "."%char) || is_digit c then ("", s)
      else let '(u, r) := take_unit s' in (String c u, r)
  | EmptyString => ("", "")
  end.

(** The second spelling of the micro sign is the Greek letter. *)
Definition unitMap (u : string) : option Z :=
  if decide (u = "ns") then Some 1
  else if decide (u ∈ ["us"; micro_unit; bytes_string [206; 188; 115]%nat]) then Some 1000
  else if decide (u = "ms") then Some millisecond
  else if decide (u = "s") then Some second
  else if decide (u = "m") then Some minute
  else if decide (u = "h") then Some hour
  else None.

(** [uint64(float64(f) * (float64(unit) / scale))]. *)
Definition frac_value (f unit_ scale : Z) : Z :=
  Qfloor (fround (inject_Z (float64 f) * fround (inject_Z unit_ / inject_Z scale))).

(** [time]'s own quoting, byte by byte. *)
Definition hex_digit (n : nat) : ascii := ascii_of_nat (if (n <? 10)%nat then 48 + n else 87 + n).
Definition time_quote_byte (c : ascii) : string :=
  let n := nat_of_ascii c in
  if (128 <=? n)%nat || (n <? 32)%nat
  then ("\x" +:+ String (hex_digit (n / 16)) (String (hex_digit (n mod 16)) ""))%string
  else if (n =? 34)%nat || (n =? 92)%nat then String "\" (String c "")
  else String c "".
Definition time_quote (s : string) : string :=
  let q := String (ascii_of_nat 34) "" in
  (q +:+ String.concat "" (time_quote_byte <$> String.list_ascii_of_string s) +:+ q)%string.

Definition invalid (orig : string) : err := ENew ("time: invalid duration " +:+ time_quote orig)%string.

(** What follows a period, and whether it held a digit. *)
Definition read_fraction (s : string) : Z * Z * string * bool :=
  match s with
  | String c s' =>
      if decide (c = "."%char) then
        let '(f, scale, s2) := leadingFraction 0 1 false s' in
        (f, scale, s2, negb (bool_decide (s2 = s')))
      else (0, 1, s, false)
  | EmptyString => (0, 1, s, false)
  end.

(** One round of the loop: a number with its unit, added to [d]; sums of [uint64] wrap
    around. *)
Definition parse_round (orig : string) (d : Z) (s : string) : result err (Z * string) :=
  let starts := match s with String c _ => bool_decide (c = "."%char) || is_digit c | _ => false end in
  if negb starts then Err (invalid orig)
  else match leadingInt 0 s with
  | None => Err (invalid orig)
  | Some (v, s1) =>
      let pre := negb (bool_decide (s1 = s)) in
      let '(f, scale, s2, post) := read_fraction s1 in
      if negb pre && negb post then Err (invalid orig)
      else
        let '(u, rest) := take_unit s2 in
        if decide (u = "") then
          Err (ENew ("time: missing unit in duration " +:+ time_quote orig)%string)
        else match unitMap u with
        | None => Err (ENew ("time: unknown unit " +:+ time_quote u +:+ " in duration "
                             +:+ time_quote orig)%string)
        | Some unit_ =>
            if max_u / unit_ <? v then Err (invalid orig)
            else
              let v := v * unit_ in
              let v := if 0 <? f then v + frac_value f unit_ scale else v in
              if (0 <? f) && (max_u <? v) then Err (invalid orig)
              else
                let d := (d + v) mod 2 ^ 64 in
                if max_u <? d then Err (invalid orig) else Ok (d, rest)
        end
  end.

(** Every round consumes a byte; the fuel is the length. *)
Fixpoint parse_loop (fuel : nat) (orig : string) (d : Z) (s : string) : result err Z :=
  match s with
  | EmptyString => Ok d
  | _ => match fuel with
         | O => Err (invalid orig)
         | S fuel => '(d, rest) ← parse_round orig d s; parse_loop fuel orig d rest
         end
  end.

Definition ParseDuration (orig : string) : result err Z :=
  let '(neg, s) :=
    match orig with
    | String c s =>
        if decide (c = "-"%char) then (true, s)
        else if decide (c = "+"%char) then (false, s) else (false, orig)
    | EmptyString => (false, orig)
    end in
  if decide (s = "0") then Ok 0
  else if decide (s = "") then Err (invalid orig)
  else
    d ← parse_loop (String.length s) orig 0 s;
    if neg then Ok (wrap64 (- wrap64 d))
    else if max_u - 1 <? d then Err (invalid orig) else Ok d.

Definition go_units : list string := ["1h30m"; "1.5s"; "+2.25h"; ".5m"; "0"; "-1us"; "100"; "1x"; "."; ""].
Example ParseDuration_ex :
  (λ s, match ParseDuration s with Ok d => Some d | Err _ => None end) <$> go_units
  = [Some (90 * minute); Some (1500 * millisecond); Some (135 * minute); Some (30 * second);
     Some 0; Some (-1000); None; None; None; None].
Proof. vm_eq. Qed.

(** ** config.Duration *)

Section encodings.
Context `{GoText}.

Definition MarshalText (d : Z) : string := Duration_String d.

Definition UnmarshalText (b : string) : result err Z :=
  match ParseDuration b with
  | Ok d => Ok d
  | Err e => Err (EWrap ("invalid duration " +:+ Quote b +:+ ": ")%string e "")
  end.

Definition not_a_duration : err :=
  ENew ("duration must be a string like " +:+ json_string "30s"
        +:+ " or an integer of nanoseconds")%string.

(** What the YAML decoder makes of the node: the integer, and the string, it can be. *)
Definition UnmarshalYAML (as_int : option Z) (as_string : option string) : result err Z :=
  match as_int with
  | Some n => Ok n
  | None => match as_string with
            | Some s => UnmarshalText s
            | None => Err not_a_duration
            end
  end.

(** JSON asks in the other order. *)
Definition UnmarshalJSON (as_int : option Z) (as_string : option string) : result err Z :=
  match as_string with
  | Some s => UnmarshalText s
  | None => match as_int with Some n => Ok n | None => Err not_a_duration end
  end.

Definition MarshalYAML (d : Z) : string := Duration_String d.
Definition MarshalJSON (d : Z) : string := json_string (Duration_String d).
End encodings.

(** ** Reading digits *)

(** Text a number may stand before: it starts with no digit. *)
Definition stops (s : string) : Prop :=
  match s with String c _ => is_digit c = false | EmptyString => True end.

Lemma leadingInt_stop (x : Z) (s : string) : stops s → leadingInt x s = Some (x, s).
Proof. destruct s as [|c s]; simpl; [done|]. by intros ->. Qed.

Lemma pretty_char_digit (n : N) :
  (n < 10)%N → is_digit (pretty_N_char n) = true ∧ digit_of (pretty_N_char n) = Z.of_N n.
Proof.
  intros Hn. assert (Hall : Forall (λ n, is_digit (pretty_N_char n) = true
    ∧ digit_of (pretty_N_char n) = Z.of_N n) (N.of_nat <$> seq 0 10)) by vm_decide.
  rewrite Forall_forall in Hall. apply Hall. apply list_elem_of_fmap. exists (N.to_nat n).
  rewrite elem_of_seq. lia.
Qed.

Lemma digit_char_digit (d : Z) :
  0 ≤ d < 10 → is_digit (digit_char d) = true ∧ digit_of (digit_char d) = d.
Proof.
  intros Hd. assert (Hall : Forall (λ d, is_digit (digit_char d) = true
    ∧ digit_of (digit_char d) = d) (seqZ 0 10)) by vm_decide.
  rewrite Forall_forall in Hall. apply Hall. apply elem_of_seqZ. lia.
Qed.

Lemma leadingInt_digit (x : Z) (c : ascii) (s : string) :
  is_digit c = true → 0 ≤ digit_of c → x * 10 + digit_of c ≤ max_u →
  leadingInt x (String c s) = leadingInt (x * 10 + digit_of c) s.
Proof.
  intros Hc H0 Hm. simpl. rewrite Hc.
  replace (max_u / 10 <? x) with false by (symmetry; zbool; apply Z.div_le_lower_bound; lia).
  by replace (max_u <? x * 10 + digit_of c) with false by (symmetry; zbool; lia).
Qed.

Lemma leadingInt_pretty (n : N) (s : string) :
  Z.of_N n ≤ max_u → leadingInt 0 (pretty_N_go n s) = leadingInt (Z.of_N n) s.
Proof.
  revert s. induction n as [n IH] using (well_founded_induction N.lt_wf_0); intros s Hn.
  destruct (decide (0 < n)%N) as [Hpos|]; [|replace n with 0%N by lia; by rewrite pretty_N_go_0].
  rewrite pretty_N_go_step by done.
  pose proof (N.div_mod n 10 ltac:(done)) as Hdm. pose proof (N.mod_lt n 10 ltac:(done)) as Hlt.
  assert (Hq : (n / 10 < n)%N) by by apply N.div_lt.
  destruct (pretty_char_digit _ Hlt) as [Hc Hv]. specialize (IH _ Hq).
  generalize dependent (n mod 10)%N. generalize dependent (n / 10)%N.
  intros q IH Hq r Hdm Hlt Hc Hv. rewrite IH by lia.
  rewrite leadingInt_digit by (rewrite ?Hv; lia || done). rewrite Hv. f_equal. lia.
Qed.

Lemma pretty_N_go_app (n : N) (s t : string) :
  (pretty_N_go n s +:+ t)%string = pretty_N_go n (s +:+ t).
Proof.
  revert s. induction n as [n IH] using (well_founded_induction N.lt_wf_0); intros s.
  destruct (decide (0 < n)%N) as [Hpos|]; [|replace n with 0%N by lia; by rewrite !pretty_N_go_0].
  rewrite !(pretty_N_go_step n) by done. rewrite IH by by apply N.div_lt. done.
Qed.

Lemma itoa_N (n : Z) (s : string) :
  0 ≤ n → (itoa n +:+ s)%string = (if decide (n = 0) then "0" +:+ s else pretty_N_go (Z.to_N n) s)%string.
Proof.
  intros Hn. destruct n as [|p|p]; [done| |lia]. rewrite decide_False by done.
  change (itoa (Zpos p)) with (pretty_N_go (Npos p) ""). apply pretty_N_go_app.
Qed.

Lemma leadingInt_itoa (n : Z) (s : string) :
  0 ≤ n ≤ max_u → stops s → leadingInt 0 (itoa n +:+ s) = Some (n, s).
Proof.
  intros Hn Hs. rewrite itoa_N by lia. case_decide as H0.
  - subst. change ("0" +:+ s)%string with (String "0" s).
    rewrite leadingInt_digit by (vm_compute; done). by apply leadingInt_stop.
  - rewrite leadingInt_pretty by (rewrite Z2N.id; lia). rewrite Z2N.id by lia. by apply leadingInt_stop.
Qed.

(** A number starts with a digit. *)
Lemma itoa_starts (n : Z) (s : string) :
  0 ≤ n → ∃ c r, (itoa n +:+ s)%string = String c r ∧ is_digit c = true ∧ (itoa n +:+ s ≠ s)%string.
Proof.
  intros Hn. rewrite itoa_N by done.
  assert (Hlen : ∀ c r, (String.length s ≤ String.length r)%nat → String c r ≠ s).
  { intros c r Hr Heq. apply (f_equal String.length) in Heq. simpl in Heq. lia. }
  case_decide; [exists "0"%char, s; split_and!; [done|done|by apply Hlen]|].
  assert (Hgo : ∀ n s', (0 < n)%N → (String.length s ≤ String.length s')%nat → ∃ c r,
    pretty_N_go n s' = String c r ∧ is_digit c = true ∧ (String.length s ≤ String.length r)%nat).
  { clear. induction n as [n IH] using (well_founded_induction N.lt_wf_0); intros s' Hpos Hl.
    rewrite pretty_N_go_step by done.
    destruct (pretty_char_digit (n mod 10) ltac:(by apply N.mod_lt)) as [Hd _].
    destruct (decide (0 < n / 10)%N) as [Hp|Hp].
    - apply IH; [by apply N.div_lt|done|simpl; lia].
    - apply N.nlt_ge, N.le_0_r in Hp. rewrite Hp, pretty_N_go_0. eauto. }
  destruct (Hgo (Z.to_N n) s) as (c & r & -> & Hc & Hr);
    [apply N2Z.inj_lt; rewrite Z2N.id; lia|done|]. exists c, r.
  split_and!; [done|done|by apply Hlen].
Qed.

(** ** Reading fractions *)

(** The digits [fmt_frac] puts before a text. *)
Fixpoint digits (prec : nat) (v : Z) (acc : string) : string :=
  match prec with
  | O => acc
  | S prec => digits prec (v / 10) (String (digit_char (v mod 10)) acc)
  end.

Lemma fmt_frac_true (prec : nat) (v : Z) (acc : string) :
  fmt_frac prec v true acc = (String "." (digits prec v acc), v / 10 ^ Z.of_nat prec).
Proof.
  revert v acc. induction prec as [|p IH]; intros v acc; simpl; [by rewrite Z.div_1_r|].
  rewrite IH. f_equal. rewrite Z.div_div by (try apply Z.pow_pos_nonneg; lia).
  f_equal. rewrite <- Z.pow_succ_r by lia. f_equal. lia.
Qed.

(** Trailing zeros are dropped: what is printed is a shorter number of digits of [v]
    without them. *)
Lemma fmt_frac_false (prec : nat) (v : Z) (acc : string) :
  0 ≤ v →
  (v mod 10 ^ Z.of_nat prec = 0 ∧ fmt_frac prec v false acc = (acc, v / 10 ^ Z.of_nat prec))
  ∨ ∃ k, (0 < k ≤ prec)%nat ∧ v mod 10 ^ Z.of_nat (prec - k) = 0
      ∧ 0 < (v / 10 ^ Z.of_nat (prec - k)) mod 10 ^ Z.of_nat k
      ∧ fmt_frac prec v false acc
        = (String "." (digits k (v / 10 ^ Z.of_nat (prec - k)) acc), v / 10 ^ Z.of_nat prec).
Proof.
  revert v. induction prec as [|p IH]; intros v Hv; simpl fmt_frac.
  - left. by rewrite Z.mod_1_r, Z.div_1_r.
  - assert (Hpow : 10 ^ Z.of_nat (S p) = 10 * 10 ^ Z.of_nat p)
      by (rewrite <- Z.pow_succ_r by lia; f_equal; lia).
    assert (Hp : 0 < 10 ^ Z.of_nat p) by (apply Z.pow_pos_nonneg; lia).
    assert (Hdiv : v / 10 / 10 ^ Z.of_nat p = v / 10 ^ Z.of_nat (S p))
      by (rewrite Hpow, Z.div_div by lia; done).
    destruct (v mod 10 =? 0) eqn:E; zbool; simpl.
    + destruct (IH (v / 10)) as [[Hm Hf]|(k & Hk & Hm & Hpos & Hf)]; [apply Z.div_pos; lia| |].
      * left. split; [|by rewrite Hf, Hdiv]. rewrite Hpow, Z.rem_mul_r by lia. lia.
      * right. exists k. replace (S p - k)%nat with (S (p - k)) by lia.
        assert (Hpow' : 10 ^ Z.of_nat (S (p - k)) = 10 * 10 ^ Z.of_nat (p - k))
          by (rewrite <- Z.pow_succ_r by lia; f_equal; lia).
        assert (0 < 10 ^ Z.of_nat (p - k)) by (apply Z.pow_pos_nonneg; lia).
        rewrite Hpow'. rewrite <- Z.div_div by lia. split_and!; [lia|lia| |done|].
        -- rewrite Z.rem_mul_r by lia. lia.
        -- by rewrite Hf, Hdiv.
    + right. exists (S p). replace (S p - S p)%nat with 0%nat by lia. simpl Z.of_nat at 1.
      rewrite Z.pow_0_r, Z.mod_1_r, Z.div_1_r. rewrite fmt_frac_true, Hdiv.
      split_and!; [lia|lia|done| |done].
      rewrite Hpow, Z.rem_mul_r by lia. pose proof (Z.mod_pos_bound v 10 ltac:(lia)).
      pose proof (Z.mod_pos_bound (v / 10) (10 ^ Z.of_nat p) Hp). lia.
Qed.

Lemma leadingFraction_stop (x scale : Z) (s : string) :
  stops s → leadingFraction x scale false s = (x, scale, s).
Proof. destruct s as [|c s]; simpl; [done|]. by intros ->. Qed.

Lemma fmul_10 (k : nat) : (k < 15)%nat → fmul (10 ^ Z.of_nat k) 10 = 10 ^ Z.of_nat (S k).
Proof.
  intros Hk. unfold fmul. replace (10 ^ Z.of_nat k * 10) with (10 ^ Z.of_nat (S k))
    by (rewrite Z.mul_comm, <- Z.pow_succ_r by lia; f_equal; lia).
  apply round53_small. split; [apply Z.pow_nonneg; lia|].
  transitivity (10 ^ 15); [apply Z.pow_le_mono_r; lia|by vm_compute].
Qed.

Lemma leadingFraction_digit (x : Z) (j : nat) (d : Z) (s : string) :
  0 ≤ d < 10 → 0 ≤ x < 10 ^ Z.of_nat j → (j < 15)%nat →
  leadingFraction x (10 ^ Z.of_nat j) false (String (digit_char d) s)
  = leadingFraction (x * 10 + d) (10 ^ Z.of_nat (S j)) false s.
Proof.
  intros Hd Hx Hj. destruct (digit_char_digit d Hd) as [Hc Hv].
  cbn [leadingFraction]. rewrite Hc, Hv, fmul_10 by lia.
  assert (Hle : 10 ^ Z.of_nat j ≤ 10 ^ 15) by (apply Z.pow_le_mono_r; lia).
  assert (Hb : x < 10 ^ 15) by lia. unfold max_u. change (10 ^ 15) with 1000000000000000 in Hb.
  replace ((2 ^ 63 - 1) / 10 <? x) with false by (symmetry; zbool; apply Z.div_le_lower_bound; lia).
  by replace (2 ^ 63 <? x * 10 + d) with false by (symmetry; zbool; lia).
Qed.

Lemma leadingFraction_digits (k : nat) (x v : Z) (j : nat) (s : string) :
  0 ≤ x < 10 ^ Z.of_nat j → 0 ≤ v → (j + k <= 15)%nat →
  leadingFraction x (10 ^ Z.of_nat j) false (digits k v s)
  = leadingFraction (x * 10 ^ Z.of_nat k + v mod 10 ^ Z.of_nat k) (10 ^ Z.of_nat (j + k)) false s.
Proof.
  revert v s. induction k as [|k IH]; intros v s Hx Hv Hjk.
  - cbn [digits]. rewrite Z.mod_1_r, Nat.add_0_r. f_equal. simpl. lia.
  - cbn [digits]. rewrite IH by (try apply Z.div_pos; lia).
    pose proof (Z.mod_pos_bound v 10 ltac:(lia)).
    assert (Hk : 0 < 10 ^ Z.of_nat k) by (apply Z.pow_pos_nonneg; lia).
    pose proof (Z.mod_pos_bound (v / 10) (10 ^ Z.of_nat k) Hk).
    assert (Hj : 10 ^ Z.of_nat (j + k) = 10 ^ Z.of_nat j * 10 ^ Z.of_nat k)
      by (rewrite <- Z.pow_add_r by lia; f_equal; lia).
    assert (HS : 10 ^ Z.of_nat (S k) = 10 * 10 ^ Z.of_nat k)
      by (rewrite <- Z.pow_succ_r by lia; f_equal; lia).
    rewrite leadingFraction_digit; [|done| |lia].
    + f_equal; [|f_equal; lia]. rewrite HS, Z.rem_mul_r by lia. ring.
    + rewrite Hj. split; [nia|]. nia.
Qed.

(** What a fraction scales to: exactly what it was printed from. *)
Lemma frac_value_exact (f unit_ : Z) (k p : nat) :
  (k <= p)%nat → (p <= 9)%nat → unit_ = 10 ^ Z.of_nat p → 0 < f < 10 ^ Z.of_nat k →
  frac_value f unit_ (10 ^ Z.of_nat k) = f * 10 ^ Z.of_nat (p - k).
Proof.
  intros Hk Hp -> Hf. unfold frac_value.
  assert (Hk0 : 0 < 10 ^ Z.of_nat k) by (apply Z.pow_pos_nonneg; lia).
  assert (Hpk : 10 ^ Z.of_nat p = 10 ^ Z.of_nat (p - k) * 10 ^ Z.of_nat k)
    by (rewrite <- Z.pow_add_r by lia; f_equal; lia).
  assert (Hpk0 : 0 < 10 ^ Z.of_nat (p - k)) by (apply Z.pow_pos_nonneg; lia).
  assert (Hb : 10 ^ Z.of_nat p ≤ 10 ^ 9) by (apply Z.pow_le_mono_r; lia).
  change (10 ^ 9) with 1000000000 in Hb.
  assert (Hff : float64 f = f) by (apply round53_small; unfold two53; nia).
  rewrite Hff.
  assert (Hu : (fround (inject_Z (10 ^ Z.of_nat p) / inject_Z (10 ^ Z.of_nat k))
                == inject_Z (10 ^ Z.of_nat (p - k)))%Q).
  { apply fround_int; [unfold two53; nia|]. rewrite Hpk, inject_Z_mult. field.
    change 0%Q with (inject_Z 0). rewrite inject_Z_injective. lia. }
  assert (Hm : (fround (inject_Z f * fround (inject_Z (10 ^ Z.of_nat p) / inject_Z (10 ^ Z.of_nat k)))
                == inject_Z (f * 10 ^ Z.of_nat (p - k)))%Q).
  { apply fround_int; [unfold two53; nia|]. by rewrite Hu, inject_Z_mult. }
  rewrite Hm. apply Qfloor_Z.
Qed.

(** ** One number with its unit *)

(** What may follow a unit. *)
Definition resumes (s : string) : Prop :=
  match s with String c _ => is_digit c = true | EmptyString => True end.

Lemma take_unit_app (u rest : string) :
  forallb (λ c, negb (bool_decide (c = "."%char) || is_digit c)) (String.list_ascii_of_string u) = true →
  resumes rest → take_unit (u +:+ rest) = (u, rest).
Proof.
  intros Hu Hr. induction u as [|c u IH].
  - destruct rest as [|c r]; [done|]. simpl in *. by rewrite Hr, orb_true_r.
  - simpl in Hu. apply andb_true_iff in Hu as [Hc Hu]. apply negb_true_iff in Hc.
    cbn [String.app take_unit]. simpl. rewrite Hc. specialize (IH Hu). by rewrite IH.
Qed.

(** The units the printer uses. *)
Definition printed_units : list (string * Z) :=
  [("ns", 1); (micro_unit, 1000); ("ms", millisecond); ("s", second); ("m", minute); ("h", hour)].

Lemma printed_unit (u : string) (n : Z) :
  (u, n) ∈ printed_units →
  unitMap u = Some n ∧ u ≠ "" ∧ 0 < n ∧ (∀ rest, stops (u +:+ rest))
  ∧ (∀ rest, read_fraction (u +:+ rest) = (0, 1, u +:+ rest, false)%string)
  ∧ ∀ rest, resumes rest → take_unit (u +:+ rest) = (u, rest).
Proof.
  intros Hu. unfold printed_units in Hu.
  repeat (apply elem_of_cons in Hu as [[= -> ->]|Hu];
    [split_and!; try done; intros rest Hr; by apply take_unit_app|]).
  by apply elem_of_nil in Hu.
Qed.

(** The end of a round, once the number is read. *)
Lemma round_sum (d v w unit_ : Z) :
  0 < unit_ → 0 ≤ d → 0 ≤ v → 0 ≤ w → d + (v * unit_ + w) ≤ max_u →
  (max_u / unit_ <? v) = false ∧ (max_u <? v * unit_ + w) = false
  ∧ (d + (v * unit_ + w)) mod 2 ^ 64 = d + (v * unit_ + w).
Proof.
  intros Hu Hd Hv Hw Hm. unfold max_u in *. split_and!.
  - zbool. apply Z.div_le_lower_bound; lia.
  - zbool. lia.
  - apply Z.mod_small. lia.
Qed.

Lemma round_plain (orig : string) (d v : Z) (u : string) (n : Z) (rest : string) :
  (u, n) ∈ printed_units → 0 ≤ d → 0 ≤ v → d + v * n ≤ max_u → resumes rest →
  parse_round orig d (itoa v +:+ u +:+ rest) = Ok (d + v * n, rest).
Proof.
  intros Hu Hd Hv Hm Hr. destruct (printed_unit u n Hu) as (Hmap & Hp & Hn & Hst & Hdot & Htake).
  destruct (itoa_starts v (u +:+ rest) Hv) as (c & r & Heq & Hc & Hne).
  destruct (round_sum d v 0 n) as (H1 & _ & H3); [lia..|].
  unfold parse_round. rewrite Heq. rewrite Hc, orb_true_r. cbn [negb]. rewrite <- Heq.
  rewrite leadingInt_itoa; [|split; [done|nia]|done].
  rewrite Hdot, (bool_decide_eq_false_2 (u +:+ rest = _)%string) by congruence. cbn [negb andb].
  rewrite Htake by done. rewrite decide_False by done. rewrite Hmap, H1. cbn [andb].
  replace (0 <? 0) with false by done. rewrite Z.add_0_r in H3. rewrite H3. cbn [andb].
  by replace (max_u <? d + v * n) with false by (symmetry; zbool; lia).
Qed.

Lemma round_frac (orig : string) (d v w : Z) (u : string) (p k : nat) :
  (u, 10 ^ Z.of_nat p) ∈ printed_units → (p <= 9)%nat → (0 < k <= p)%nat → 0 ≤ d → 0 ≤ v → 0 ≤ w →
  let f := w mod 10 ^ Z.of_nat k in
  0 < f → d + (v * 10 ^ Z.of_nat p + f * 10 ^ Z.of_nat (p - k)) ≤ max_u →
  parse_round orig d (itoa v +:+ String "." (digits k w u))
  = Ok (d + (v * 10 ^ Z.of_nat p + f * 10 ^ Z.of_nat (p - k)), "").
Proof.
  intros Hu Hp Hk Hd Hv Hw f Hf Hm.
  destruct (printed_unit u _ Hu) as (Hmap & Hne' & Hn & Hst & Hdot & Htake).
  destruct (itoa_starts v (String "." (digits k w u)) Hv) as (c & r & Heq & Hc & Hne).
  assert (Hk0 : 0 < 10 ^ Z.of_nat k) by (apply Z.pow_pos_nonneg; lia).
  assert (Hfk : 0 < f < 10 ^ Z.of_nat k) by (split; [done|by apply Z.mod_pos_bound]).
  assert (Hpk : 0 < 10 ^ Z.of_nat (p - k)) by (apply Z.pow_pos_nonneg; lia).
  destruct (round_sum d v (f * 10 ^ Z.of_nat (p - k)) (10 ^ Z.of_nat p)) as (H1 & H2 & H3); [nia..|].
  specialize (Hst ""). specialize (Htake "" I). rewrite string_app_nil_r in Hst, Htake.
  assert (Hfrac : leadingFraction 0 1 false (digits k w u) = (f, 10 ^ Z.of_nat k, u)).
  { change 1 with (10 ^ Z.of_nat 0). rewrite (leadingFraction_digits k 0 w 0 u) by lia.
    simpl Z.add. rewrite leadingFraction_stop by done. simpl. done. }
  unfold parse_round. rewrite Heq. rewrite Hc, orb_true_r. cbn [negb]. rewrite <- Heq.
  rewrite leadingInt_itoa; [|split; [done|nia]|done].
  rewrite (bool_decide_eq_false_2 (String "." _ = _)) by congruence.
  unfold read_fraction. rewrite decide_True by done. rewrite Hfrac. cbn [negb andb].
  rewrite Htake. rewrite decide_False by done. rewrite Hmap, H1.
  replace (0 <? f) with true by (symmetry; zbool; lia). cbn [andb].
  rewrite (frac_value_exact f _ k p) by (done || lia).
  rewrite H2, H3.
  by replace (max_u <? d + _) with false by (symmetry; zbool; lia).
Qed.

(** A number with a fraction, as [fmtFrac] prints it, whether or not a digit is left. *)
Lemma round_fmt (orig : string) (d v w : Z) (u : string) (p : nat) :
  (u, 10 ^ Z.of_nat p) ∈ printed_units → (p <= 9)%nat → 0 ≤ d → 0 ≤ v → 0 ≤ w →
  d + (v * 10 ^ Z.of_nat p + w mod 10 ^ Z.of_nat p) ≤ max_u →
  parse_round orig d (itoa v +:+ (fmt_frac p w false u).1)
  = Ok (d + (v * 10 ^ Z.of_nat p + w mod 10 ^ Z.of_nat p), "").
Proof.
  intros Hu Hp Hd Hv Hw Hm.
  destruct (fmt_frac_false p w u Hw) as [[Hz ->]|(k & Hk & Hz & Hpos & ->)]; cbn [fst].
  - rewrite Hz in Hm |- *. rewrite Z.add_0_r in Hm |- *.
    rewrite <- (string_app_nil_r u) at 1. by apply round_plain.
  - assert (Hpk : 0 < 10 ^ Z.of_nat (p - k)) by (apply Z.pow_pos_nonneg; lia).
    assert (Hsplit : w mod 10 ^ Z.of_nat p
      = (w / 10 ^ Z.of_nat (p - k)) mod 10 ^ Z.of_nat k * 10 ^ Z.of_nat (p - k)).
    { replace (10 ^ Z.of_nat p) with (10 ^ Z.of_nat (p - k) * 10 ^ Z.of_nat k)
        by (rewrite <- Z.pow_add_r by lia; f_equal; lia).
      rewrite Z.rem_mul_r by (try apply Z.pow_pos_nonneg; lia). lia. }
    rewrite Hsplit in Hm |- *. apply round_frac; try done; try lia. by apply Z.div_pos.
Qed.

(** ** The loop *)

Lemma leadingInt_length (x : Z) (s : string) (v : Z) (r : string) :
  leadingInt x s = Some (v, r) → (String.length r ≤ String.length s)%nat.
Proof.
  revert x. induction s as [|c s IH]; simpl; intros x Hl; [by simplify_eq|].
  repeat (case_match; simplify_eq/=; try done); apply IH in Hl; lia.
Qed.

Lemma leadingFraction_length (x sc : Z) (o : bool) (s : string) :
  (String.length (leadingFraction x sc o s).2 ≤ String.length s)%nat.
Proof.
  revert x sc o. induction s as [|c s IH]; simpl; intros x sc o; [done|].
  repeat case_match; simpl; try lia; etransitivity; try apply IH; lia.
Qed.

Lemma read_fraction_length (s : string) :
  (String.length (read_fraction s).1.2 ≤ String.length s)%nat.
Proof.
  destruct s as [|c s]; simpl; [done|]. case_decide; [|done].
  pose proof (leadingFraction_length 0 1 false s). destruct (leadingFraction 0 1 false s) as [[f sc] r].
  simpl in *. lia.
Qed.

Lemma take_unit_split (s : string) : s = ((take_unit s).1 +:+ (take_unit s).2)%string.
Proof.
  induction s as [|c s IH]; simpl; [done|]. case_match; [done|].
  destruct (take_unit s) as [u r]. simpl in *. by rewrite IH at 1.
Qed.

(** Every round that succeeds consumes something. *)
Lemma round_consumes (orig : string) (d d' : Z) (s rest : string) :
  parse_round orig d s = Ok (d', rest) → (String.length rest < String.length s)%nat.
Proof.
  unfold parse_round. intros Hr. destruct (negb _); [done|].
  destruct (leadingInt 0 s) as [[v s1]|] eqn:Hl; [|done].
  apply leadingInt_length in Hl. pose proof (read_fraction_length s1) as Hf.
  destruct (read_fraction s1) as [[[f sc] s2] post]. simpl in Hf.
  destruct (_ && _); [done|]. pose proof (take_unit_split s2) as Ht.
  destruct (take_unit s2) as [u r]. simpl in Ht. case_decide as Hu; [done|].
  assert (Hlt : (String.length r < String.length s2)%nat).
  { rewrite Ht, string_length_app. destruct u; [done|simpl; lia]. }
  repeat (case_match; simplify_eq/=; try done); lia.
Qed.

Lemma loop_round (fuel : nat) (orig : string) (d d' : Z) (s rest : string) :
  parse_round orig d s = Ok (d', rest) → (String.length s ≤ fuel)%nat →
  ∃ fuel', (String.length rest ≤ fuel')%nat
    ∧ parse_loop fuel orig d s = parse_loop fuel' orig d' rest.
Proof.
  intros Hr Hf. pose proof (round_consumes _ _ _ _ _ Hr) as Hlt.
  destruct s as [|c s]; [simpl in Hlt; lia|]. destruct fuel as [|fuel]; [simpl in Hf; lia|].
  exists fuel. split; [simpl in *; lia|]. cbn [parse_loop]. by rewrite Hr.
Qed.

Lemma loop_done (fuel : nat) (orig : string) (d : Z) : parse_loop fuel orig d "" = Ok d.
Proof. by destruct fuel. Qed.

(** The fuel is enough: more changes nothing. *)
Lemma loop_fuel (fuel fuel' : nat) (orig : string) (d : Z) (s : string) :
  (String.length s ≤ fuel)%nat → (String.length s ≤ fuel')%nat →
  parse_loop fuel orig d s = parse_loop fuel' orig d s.
Proof.
  revert fuel' d s. induction fuel as [|fuel IH]; intros fuel' d s H1 H2.
  - destruct s; [|simpl in H1; lia]. by rewrite !loop_done.
  - destruct s as [|c s]; [by rewrite !loop_done|]. destruct fuel' as [|fuel']; [simpl in H2; lia|].
    cbn [parse_loop]. destruct (parse_round orig d (String c s)) as [[d' rest]|] eqn:Hr; [|done].
    apply round_consumes in Hr. simpl in *. apply IH; lia.
Qed.

(** ** What is printed is read back *)

(** [u] is what a text says, after [d] was read before it. *)
Definition reads (orig : string) (d : Z) (s : string) (d' : Z) : Prop :=
  ∀ fuel, (String.length s ≤ fuel)%nat → parse_loop fuel orig d s = Ok d'.

Lemma reads_round (orig : string) (d d1 d2 : Z) (s rest : string) :
  parse_round orig d s = Ok (d1, rest) → reads orig d1 rest d2 → reads orig d s d2.
Proof.
  intros Hr Hd fuel Hf. destruct (loop_round fuel _ _ _ _ _ Hr Hf) as (fuel' & Hl & ->). by apply Hd.
Qed.

Lemma reads_end (orig : string) (d : Z) : reads orig d "" d.
Proof. intros fuel _. apply loop_done. Qed.

Lemma fmt_frac_rest (p : nat) (w : Z) (u : string) :
  0 ≤ w → (fmt_frac p w false u).2 = w / 10 ^ Z.of_nat p.
Proof. intros Hw. by destruct (fmt_frac_false p w u Hw) as [[_ ->]|(k & _ & _ & _ & ->)]. Qed.

Lemma reads_frac (orig : string) (d v w : Z) (u : string) (p : nat) :
  (u, 10 ^ Z.of_nat p) ∈ printed_units → (p <= 9)%nat → 0 ≤ d → 0 ≤ v → 0 ≤ w →
  d + (v * 10 ^ Z.of_nat p + w mod 10 ^ Z.of_nat p) ≤ max_u →
  reads orig d (itoa v +:+ (fmt_frac p w false u).1)
    (d + (v * 10 ^ Z.of_nat p + w mod 10 ^ Z.of_nat p)).
Proof. intros. eapply reads_round; [by apply round_fmt|apply reads_end]. Qed.

Lemma reads_with_frac (orig : string) (w : Z) (u : string) (p : nat) :
  (u, 10 ^ Z.of_nat p) ∈ printed_units → (p <= 9)%nat → 0 ≤ w ≤ max_u →
  reads orig 0 (with_frac p w u) w.
Proof.
  intros Hu Hp Hw. unfold with_frac. pose proof (fmt_frac_rest p w u ltac:(lia)) as Hr.
  assert (Hpos : 0 < 10 ^ Z.of_nat p) by (apply Z.pow_pos_nonneg; lia).
  pose proof (Z.div_mod w (10 ^ Z.of_nat p) ltac:(lia)) as Hdm.
  pose proof (reads_frac orig 0 (w / 10 ^ Z.of_nat p) w u p Hu Hp ltac:(lia)
                ltac:(apply Z.div_pos; lia) ltac:(lia) ltac:(lia)) as Hf.
  destruct (fmt_frac p w false u) as [f v]. simpl in *. subst v.
  by replace (0 + _) with w in Hf by lia.
Qed.

Lemma itoa_resumes (n : Z) (s : string) : 0 ≤ n → resumes (itoa n +:+ s).
Proof. intros Hn. destruct (itoa_starts n s Hn) as (c & r & -> & Hc & _). done. Qed.

Lemma reads_plain (orig : string) (d v : Z) (u : string) (n d' : Z) (rest : string) :
  (u, n) ∈ printed_units → 0 ≤ d → 0 ≤ v → d + v * n ≤ max_u → resumes rest →
  reads orig (d + v * n) rest d' → reads orig d (itoa v +:+ (u +:+ rest)) d'.
Proof. intros. eapply reads_round; [by apply round_plain|done]. Qed.

(** Hours and minutes in front of seconds that read as [x]. *)
Section clock.
Context (orig sec : string) (x : Z) (Hsec : ∀ d, 0 ≤ d → d + x ≤ max_u → reads orig d sec (d + x))
  (Hres : resumes sec) (Hx : 0 ≤ x).

Lemma reads_minutes (d m : Z) :
  0 ≤ d → 0 ≤ m → d + m * minute + x ≤ max_u →
  reads orig d (itoa m +:+ ("m" +:+ sec)) (d + m * minute + x).
Proof using Hsec Hres Hx.
  intros Hd Hm Hb. assert (Hmin : minute = 60000000000) by done.
  apply (reads_plain _ _ _ _ minute); try done; try lia; [vm_decide|]. apply Hsec; lia.
Qed.

Lemma reads_hours (h m : Z) :
  0 ≤ h → 0 ≤ m → h * hour + m * minute + x ≤ max_u →
  reads orig 0 (itoa h +:+ ("h" +:+ (itoa m +:+ ("m" +:+ sec)))) (h * hour + m * minute + x).
Proof using Hsec Hres Hx.
  intros Hh Hm Hb. assert (Hmin : minute = 60000000000) by done.
  assert (Hhour : hour = 3600000000000) by done.
  apply (reads_plain _ _ _ _ hour); try done; try lia; [vm_decide|by apply itoa_resumes|].
  apply reads_minutes; lia.
Qed.
End clock.

Lemma reads_clock (orig : string) (u : Z) :
  second ≤ u ≤ max_u → reads orig 0 (abs_String u) u.
Proof.
  intros Hu. assert (Hs : second = 1000000000) by done. assert (Hmin : minute = 60 * second) by done.
  assert (Hhour : hour = 60 * minute) by done. unfold abs_String.
  replace (u =? 0) with false by (symmetry; zbool; lia).
  replace (u <? 1000) with false by (symmetry; zbool; lia).
  replace (u <? millisecond) with false by (symmetry; zbool; unfold millisecond; lia).
  replace (u <? second) with false by (symmetry; zbool; lia).
  pose proof (fmt_frac_rest 9 u "s" ltac:(lia)) as Hr.
  pose proof (λ d v, reads_frac orig d v u "s" 9 ltac:(vm_decide) ltac:(lia)) as Hf.
  destruct (fmt_frac 9 u false "s") as [f v]. cbn [fst snd] in *.
  change (10 ^ Z.of_nat 9) with second in *.
  set (x := v mod 60 * second + u mod second).
  assert (Hv : 0 ≤ v) by (subst v; apply Z.div_pos; lia).
  pose proof (Z.mod_pos_bound u second ltac:(lia)). pose proof (Z.mod_pos_bound v 60 ltac:(lia)).
  pose proof (Z.div_mod u second ltac:(lia)) as Hu1. pose proof (Z.div_mod v 60 ltac:(lia)) as Hv1.
  pose proof (Z.div_mod (v / 60) 60 ltac:(lia)) as Hm1.
  pose proof (Z.mod_pos_bound (v / 60) 60 ltac:(lia)).
  assert (0 ≤ v / 60) by (apply Z.div_pos; lia). assert (0 ≤ v / 60 / 60) by (apply Z.div_pos; lia).
  assert (Hsec : ∀ d, 0 ≤ d → d + x ≤ max_u → reads orig d (itoa (v mod 60) +:+ f) (d + x))
    by (intros d Hd Hm; apply Hf; lia).
  assert (Hres : resumes (itoa (v mod 60) +:+ f)) by (apply itoa_resumes; lia).
  destruct (v / 60 =? 0) eqn:Em; zbool; [|destruct (v / 60 / 60 =? 0) eqn:Eh; zbool].
  - replace u with (0 + x) by lia. apply Hsec; lia.
  - pose proof (reads_minutes orig _ x Hsec Hres ltac:(lia) 0 (v / 60 mod 60)) as Hg.
    replace u with (0 + (v / 60 mod 60) * minute + x) by lia. apply Hg; lia.
  - pose proof (reads_hours orig _ x Hsec Hres ltac:(lia) (v / 60 / 60) (v / 60 mod 60)) as Hg.
    replace u with ((v / 60 / 60) * hour + (v / 60 mod 60) * minute + x) by lia. apply Hg; lia.
Qed.

Lemma reads_abs (orig : string) (u : Z) :
  0 ≤ u ≤ max_u → reads orig 0 (abs_String u) u.
Proof.
  intros Hu. destruct (decide (second ≤ u)) as [Hs|Hs]; [apply reads_clock; lia|]. unfold abs_String.
  destruct (u =? 0) eqn:E0; zbool; [subst; change "0s" with (itoa 0 +:+ ("s" +:+ ""))%string;
    apply (reads_plain _ _ _ _ second); try done; [vm_decide|apply reads_end]|].
  destruct (u <? 1000) eqn:E1; zbool.
  { rewrite <- (string_app_nil_r "ns"). apply (reads_plain _ _ _ _ 1); try done; try lia; [vm_decide|].
    rewrite Z.mul_1_r. apply reads_end. }
  destruct (u <? millisecond); [by apply reads_with_frac; [vm_decide|lia|]|].
  destruct (u <? second) eqn:E3; zbool; [by apply reads_with_frac; [vm_decide|lia|]|lia].
Qed.

(** The text of a magnitude starts with a digit. *)
Lemma abs_String_starts (u : Z) :
  0 ≤ u → ∃ c r, abs_String u = String c r ∧ is_digit c = true.
Proof.
  intros Hu. assert (Hi : ∀ n s, 0 ≤ n → ∃ c r, (itoa n +:+ s)%string = String c r ∧ is_digit c = true).
  { intros n s Hn. destruct (itoa_starts n s Hn) as (c & r & ? & ? & _). by exists c, r. }
  assert (Hf : ∀ p s, ∃ c r, with_frac p u s = String c r ∧ is_digit c = true).
  { intros p s. unfold with_frac. pose proof (fmt_frac_rest p u s Hu) as Hr.
    destruct (fmt_frac p u false s) as [f v]. simpl in Hr. subst. apply Hi, Z.div_pos; [lia|].
    apply Z.pow_pos_nonneg; lia. }
  unfold abs_String. destruct (u =? 0); [by eexists _, _|].
  destruct (u <? 1000); [by apply Hi|]. destruct (u <? millisecond); [done|].
  destruct (u <? second); [done|]. pose proof (fmt_frac_rest 9 u "s" Hu) as Hr.
  destruct (fmt_frac 9 u false "s") as [f v]. simpl in Hr.
  assert (Hv : 0 ≤ v) by (subst; apply Z.div_pos; [lia|done]).
  destruct (v / 60 =? 0); [apply Hi, Z.mod_pos_bound; lia|].
  destruct (v / 60 / 60 =? 0); [apply Hi, Z.mod_pos_bound; lia|].
  apply Hi. repeat (apply Z.div_pos; [|lia]). done.
Qed.

(** A number without a unit is refused; only [ParseDuration] itself lets a zero pass. *)
Lemma lone_zero (orig : string) : is_ok (parse_loop (String.length "0") orig 0 "0") = false.
Proof. reflexivity. Qed.

(** C23: what is printed is read back.  The text of every 64-bit duration, of either sign
    and down to the nanosecond, parses to that duration, through the floating-point
    scaling of fractions and the overflow tests, the least one included. *)
Theorem duration_roundtrip `{GoText} (d : Z) :
  in_int64 d → ParseDuration (Duration_String d) = Ok d ∧ UnmarshalText (MarshalText d) = Ok d.
Proof.
  intros Hd. assert (Hp : ParseDuration (Duration_String d) = Ok d);
    [|split; [done|unfold UnmarshalText, MarshalText; by rewrite Hp]].
  assert (Hu : 0 ≤ Z.abs d ≤ max_u) by (unfold in_int64, int64_min, int64_max, max_u in *; lia).
  destruct (abs_String_starts (Z.abs d)) as (c & r & Hs & Hc); [lia|].
  pose proof (reads_abs (Duration_String d) (Z.abs d) Hu _ (le_n _)) as Hr.
  assert (Hne : abs_String (Z.abs d) ≠ "0" ∧ abs_String (Z.abs d) ≠ "").
  { split; intros E; rewrite E in Hr; [|by rewrite Hs in E].
    pose proof (lone_zero (Duration_String d)) as Hz. by rewrite Hr in Hz. }
  destruct Hne as [Hne0 Hne]. unfold Duration_String in *. unfold ParseDuration.
  destruct (d <? 0) eqn:Hneg; zbool.
  - rewrite decide_True by done. rewrite !decide_False by done. rewrite Hr. simpl. f_equal.
    unfold wrap64, in_int64, int64_min, int64_max, max_u in *.
    destruct (decide (Z.abs d = 2 ^ 63)) as [E|].
    + rewrite E. replace d with (- 2 ^ 63) by lia. done.
    + rewrite (Z.mod_small (Z.abs d + 2 ^ 63)) by lia. rewrite Z.mod_small by lia. lia.
  - rewrite Hs in *. rewrite !(decide_False (P := c = _)) by (intros ->; done).
    rewrite decide_False by done. rewrite decide_False by done. rewrite Hr. simpl.
    unfold in_int64, int64_min, int64_max, max_u in *.
    replace (2 ^ 63 - 1 <? Z.abs d) with false by (symmetry; zbool; lia). f_equal. lia.
Qed.

(** ** Results fit *)

Lemma round_range (orig : string) (d d' : Z) (s rest : string) :
  parse_round orig d s = Ok (d', rest) → 0 ≤ d' ≤ max_u.
Proof.
  unfold parse_round. intros Hr.
  destruct (negb _); [done|]. destruct (leadingInt 0 s) as [[v s1]|]; [|done].
  destruct (read_fraction s1) as [[[f sc] s2] post]. destruct (negb _ && _); [done|].
  destruct (take_unit s2) as [u r]. case_decide; [done|].
  destruct (unitMap u) as [n|]; [|done]. destruct (max_u / n <? v); [done|].
  destruct (_ && _); [done|]. destruct (max_u <? _) eqn:Hm; [done|]. injection Hr as <- _. zbool.
  split; [apply Z.mod_pos_bound; lia|done].
Qed.

Lemma loop_range (fuel : nat) (orig : string) (d d' : Z) (s : string) :
  0 ≤ d ≤ max_u → parse_loop fuel orig d s = Ok d' → 0 ≤ d' ≤ max_u.
Proof.
  revert d s. induction fuel as [|fuel IH]; intros d s Hd Hp; destruct s as [|c s]; simpl in Hp;
    try (by simplify_eq).
  destruct (parse_round orig d (String c s)) as [[d1 rest]|] eqn:Hr; [|done]. simpl in Hp.
  apply round_range in Hr. by eapply IH.
Qed.

(** Whatever parses fits in 64 bits. *)
Lemma duration_fits (s : string) (d : Z) : ParseDuration s = Ok d → in_int64 d.
Proof.
  unfold ParseDuration. destruct (match s with String _ _ => _ | EmptyString => _ end) as [neg b].
  case_decide; [intros [= <-]; done|]. case_decide; [done|].
  destruct (parse_loop _ s 0 b) as [u|] eqn:Hp; [|done]. simpl.
  apply loop_range in Hp; [|done]. destruct neg; [intros [= <-]; apply wrap64_range|].
  destruct (_ <? _) eqn:Hm; [done|]. intros [= <-]. zbool.
  unfold in_int64, int64_min, int64_max, max_u in *. lia.
Qed.

(** ** At concrete texts *)

#[local] Existing Instance ConfigProps.plain_text.

Lemma duration_roundtrip_witness :
  ParseDuration "-2562047h47m16.854775808s" = Ok int64_min.
Proof.
  apply (duration_roundtrip int64_min). unfold in_int64, int64_min, int64_max. lia.
Defined.

(** Two halves of 2^64 add up to zero before the overflow test sees the sum: so does the
    library. *)
Example sum_wraps : ParseDuration "9223372036854775808ns9223372036854775808ns" = Ok 0.
Proof. vm_eq. Qed.

(** An integer is nanoseconds in YAML and JSON; as text it has no unit and is refused. *)
Example integer_forms :
  UnmarshalYAML (Some 1500) (Some "1500") = Ok 1500
  ∧ UnmarshalJSON (Some 1500) None = Ok 1500
  ∧ is_ok (UnmarshalText "1500") = false.
Proof. split_and!; vm_eq. Qed.
