(* ===== verification/Sink.v ===== *)
(** * The demonstration receiver (src/deploy/webhook-sink/main.go)

    A webhook target that fails on demand and counts what it received.  The handlers take
    the mutex for a moment at a time: a delivery reads the settings, waits, and counts,
    with other requests in between, so its counting step takes the settings it read as an
    argument.  The text of a float and its scanning are [FloatText]. *)
From stdpp Require Import options.
From S2P Require Import Prelude GoStrings GoDuration Apperr ConfigBase ConfigDuration Http Mux.
From Stdlib Require Import QArith.
Open Scope Z_scope.

(** [%.2f] and [fmt.Sscanf] with [%f]. *)
Class FloatText : Type := { Fixed2 : f64 → string; Sscanf : string → option f64 }.

Record sink : Type := mkSink {
  seen : gmap string Z;
  received : Z;
  failRate : f64;
  latency : Z;
  down : bool;
}.

(** What a delivery reads at its start. *)
Definition settings : Type := Z * f64 * bool.
Definition settings_of (s : sink) : settings := (latency s, failRate s, down s).

Definition set_settings (c : settings) (s : sink) : sink :=
  mkSink (seen s) (received s) c.1.2 c.1.1 c.2.

(** [x < y] on a drawn float and a setting. *)
Definition draw_lt (q : Q) (x : f64) : bool :=
  match x with
  | FNaN => false | FPosInf => true | FNegInf => false
  | FNum y => negb (Qle_bool y q)
  end.

Section sink.
Context `{FloatText}.

(** *** main *)

Definition envFloat (getenv : string → string) (key : string) (def : f64) : f64 :=
  if decide (getenv key = "") then def else default def (Sscanf (getenv key)).

Definition envDuration (getenv : string → string) (key : string) (def : Z) : Z :=
  if decide (getenv key = "") then def
  else match ParseDuration (getenv key) with Ok d => d | Err _ => def end.

Definition new_sink (getenv : string → string) : sink :=
  mkSink ∅ 0 (envFloat getenv "SINK_FAIL_RATE" (FNum 0)) (envDuration getenv "SINK_LATENCY" 0) false.

(** *** receive *)

(** What a delivery does once it has read the settings: the answer, and whether it counts.
    [elapsed] is whether the latency passed before the client went away. *)
Definition answer (c : settings) (elapsed : bool) (draw : Q) : option (Writer → Writer) * bool :=
  if (0 <? c.1.1) && negb elapsed then (None, false)
  else if c.2 then (Some (http_Error "sink is down" 503), false)
  else if f64_gt c.1.2 0 && draw_lt draw c.1.2 then (Some (http_Error "injected failure" 500), false)
  else (Some (WriteHeader 200), true).

Definition count_delivery (id : string) (s : sink) : sink :=
  mkSink (<[id := default 0 (seen s !! id) + 1]> (seen s)) (received s + 1)
    (failRate s) (latency s) (down s).

(** The second half, under the settings [c] read before. *)
Definition receive_with (c : settings) (elapsed : bool) (draw : Q) : Handler sink := λ r ws,
  let '(reply, counts) := answer c elapsed draw in
  let s := if counts then count_delivery (header_Get "X-Event-Id" (ReqHeader r)) ws.2 else ws.2 in
  (Returned, (match reply with Some f => f ws.1 | None => ws.1 end, s)).

Definition receive (elapsed : bool) (draw : Q) : Handler sink := λ r ws,
  receive_with (settings_of ws.2) elapsed draw r ws.

(** *** stats *)

Record Stats : Type := mkStats {
  st_received : Z; st_distinct : Z; st_duplicates : Z;
  st_fail_rate : f64; st_latency : string; st_down : bool; st_by_event : gmap string Z }.

(** The loop over the map. *)
Definition duplicates (seen : gmap string Z) : Z :=
  map_fold (λ _ n acc, if 1 <? n then acc + (n - 1) else acc) 0 seen.

(** A float without a JSON form makes the encoder fail, and nothing is written. *)
Definition stats (s : sink) : option Stats :=
  match failRate s with
  | FNum _ => Some (mkStats (received s) (Z.of_nat (size (seen s))) (duplicates (seen s))
                      (failRate s) (Duration_String (latency s)) (down s) (seen s))
  | _ => None
  end.

(** [json_stats] is what the encoder writes of them. *)
Definition stats_handler (json_stats : Stats → string) : Handler sink := λ _ ws,
  let w := on_header (header_Set "Content-Type" "application/json") ws.1 in
  (Returned, (match stats ws.2 with Some st => Write (json_stats st) w | None => w end, ws.2)).

(** *** control *)

Record control_req : Type := mkControl {
  c_FailRate : option f64; c_Latency : option string; c_Down : option bool; c_Reset : bool }.

Definition set_rate (x : option f64) (s : sink) : sink :=
  match x with Some x => set_settings (latency s, x, down s) s | None => s end.
Definition set_latency (d : option Z) (s : sink) : sink :=
  match d with Some d => set_settings (d, failRate s, down s) s | None => s end.
Definition set_down (b : option bool) (s : sink) : sink :=
  match b with Some b => set_settings (latency s, failRate s, b) s | None => s end.
Definition reset (b : bool) (s : sink) : sink :=
  if b then mkSink ∅ 0 (failRate s) (latency s) (down s) else s.

(** The fields in the order of the code, up to a latency that does not parse. *)
Definition apply_control (req : control_req) (s : sink) : option err * sink :=
  let s := set_rate (c_FailRate req) s in
  match c_Latency req with
  | None => (None, reset (c_Reset req) (set_down (c_Down req) s))
  | Some text =>
      match ParseDuration text with
      | Err e => (Some e, s)
      | Ok d => (None, reset (c_Reset req) (set_down (c_Down req) (set_latency (Some d) s)))
      end
  end.

Definition print_bool (b : bool) : string := if b then "true" else "false".

(** [body] is what decoding the request gives. *)
Definition control (body : result err control_req) : Handler sink := λ _ ws,
  match body with
  | Err e => (Returned, (http_Error (err_text e) 400 ws.1, ws.2))
  | Ok req =>
      match apply_control req ws.2 with
      | (Some e, s) => (Returned, (http_Error (err_text e) 400 ws.1, s))
      | (None, s) =>
          (Returned,
           (Write ("fail_rate=" +:+ Fixed2 (failRate s) +:+ " latency=" +:+ Duration_String (latency s)
                   +:+ " down=" +:+ print_bool (down s) +:+ newline)%string ws.1, s))
      end
  end.

(** The routes. *)
Definition routes (elapsed : bool) (draw : Q) (json_stats : Stats → string)
  (body : result err control_req) : list (pattern * Handler sink) :=
  HandleFunc "GET" "/healthz" (λ _, respond (WriteHeader 200))
    (HandleFunc "POST" "/control" (control body)
       (HandleFunc "GET" "/stats" (stats_handler json_stats)
          (HandleFunc "POST" "/hook" (receive elapsed draw) []))).

(** ** What the counters mean

    The requests the sink serves, in the order in which they took the mutex to write: a
    delivery counts under the settings it read some time before. *)
Inductive request : Type :=
  | Deliver (read : settings) (elapsed : bool) (draw : Q) (id : string)
  | Control (req : control_req).

Definition serve (s : sink) (q : request) : sink :=
  match q with
  | Deliver c elapsed draw id => if (answer c elapsed draw).2 then count_delivery id s else s
  | Control req => (apply_control req s).2
  end.

Definition run (qs : list request) (s : sink) : sink := foldl serve s qs.

(** The ids counted since the last reset, the latest first. *)
Definition resets (req : control_req) : bool :=
  c_Reset req && match c_Latency req with Some t => is_ok (ParseDuration t) | None => true end.

Definition note (acc : list string) (q : request) : list string :=
  match q with
  | Deliver c elapsed draw id => if (answer c elapsed draw).2 then id :: acc else acc
  | Control req => if resets req then [] else acc
  end.

Definition accepted (qs : list request) : list string := foldl note [] qs.

Definition times (id : string) (ids : list string) : Z := Z.of_nat (length (filter (λ x, x = id) ids)).

(** The counters against the ids accepted. *)
Definition counts (ids : list string) (s : sink) : Prop :=
  received s = Z.of_nat (length ids)
  ∧ ∀ id, seen s !! id = if decide (id ∈ ids) then Some (times id ids) else None.

Lemma times_cons (id id' : string) (ids : list string) :
  times id (id' :: ids) = (if decide (id' = id) then 1 else 0) + times id ids.
Proof. unfold times. rewrite filter_cons. case_decide; simpl; lia. Qed.

Lemma times_absent (id : string) (ids : list string) : id ∉ ids → times id ids = 0.
Proof.
  induction ids as [|id' ids IH]; intros Hid; [done|]. apply not_elem_of_cons in Hid as [Hne Hid].
  rewrite times_cons, decide_False, IH by done. lia.
Qed.

Lemma counts_delivery (ids : list string) (id : string) (s : sink) :
  counts ids s → counts (id :: ids) (count_delivery id s).
Proof.
  intros [Hr Hs]. split; [simpl; lia|]. intros id'. simpl. rewrite times_cons.
  destruct (decide (id = id')) as [<-|Hne].
  - rewrite lookup_insert_eq, (decide_True (P := id ∈ id :: ids)) by left. rewrite Hs.
    case_decide; simpl; f_equal; [lia|]. by rewrite times_absent.
  - rewrite lookup_insert_ne by done. rewrite Hs.
    rewrite (decide_ext (id' ∈ id :: ids) (id' ∈ ids)) by (rewrite elem_of_cons; naive_solver).
    by case_decide.
Qed.

Lemma counts_control (ids : list string) (req : control_req) (s : sink) :
  counts ids s → counts (if resets req then [] else ids) (apply_control req s).2.
Proof.
  intros [Hr Hs]. unfold apply_control, resets.
  assert (Hset : ∀ c t, received (set_settings c t) = received t ∧ seen (set_settings c t) = seen t) by done.
  destruct (c_FailRate req) as [x|], (c_Latency req) as [t|], (c_Down req) as [b|], (c_Reset req);
    simpl; try destruct (ParseDuration t); simpl; (split; [done|]); try exact Hs; intros id; done.
Qed.

Lemma counts_run (qs : list request) (ids : list string) (s : sink) :
  counts ids s → counts (foldl note ids qs) (run qs s).
Proof.
  revert ids s. induction qs as [|q qs IH]; intros ids s Hc; [done|]. simpl. apply IH.
  destruct q as [c el dr id|req]; simpl.
  - case_match; [by apply counts_delivery|done].
  - by apply counts_control.
Qed.

(** What [stats] adds up over the map. *)
Definition total (m : gmap string Z) : Z := map_fold (λ _ n acc, n + acc) 0 m.

Lemma total_insert (id : string) (m : gmap string Z) :
  total (<[id := default 0 (m !! id) + 1]> m) = total m + 1.
Proof.
  unfold total. rewrite <- insert_delete_eq, map_fold_insert_L by first [by rewrite lookup_delete_eq|lia].
  destruct (m !! id) as [n|] eqn:Hn; simpl.
  - rewrite (map_fold_delete_L (λ _ n acc, n + acc) 0 id n m) by first [done|lia]. lia.
  - rewrite delete_id by done. lia.
Qed.

Lemma total_seen (qs : list request) (s : sink) :
  total (seen s) = received s → total (seen (run qs s)) = received (run qs s).
Proof.
  revert s. induction qs as [|q qs IH]; intros s Hs; [done|]. simpl. apply IH.
  destruct q as [c el dr id|req]; simpl.
  - case_match; [|done]. simpl. by rewrite total_insert, Hs.
  - unfold apply_control.
    destruct (c_FailRate req), (c_Latency req) as [t|], (c_Down req), (c_Reset req); simpl;
      try destruct (ParseDuration t); simpl; done.
Qed.

Lemma duplicates_total (m : gmap string Z) :
  map_Forall (λ _ n, 1 ≤ n) m → duplicates m = total m - Z.of_nat (size m).
Proof.
  unfold duplicates, total. induction m as [|id n m Hid Hfold IH] using map_first_key_ind; intros Hm.
  { done. }
  apply map_Forall_insert in Hm as [Hn Hm]; [|done].
  rewrite map_fold_insert_first_key, map_fold_insert_first_key by done.
  rewrite map_size_insert_None by done. rewrite IH by done.
  destruct (1 <? n) eqn:Hlt; zbool; lia.
Qed.

(** The statistics of a fresh sink after any requests, settings changed and deliveries under
    stale settings included: as many received as were accepted since the last reset, each
    id as often as it was, and the duplicates are what remains when every id is counted
    once. *)
Lemma stats_exact (getenv : string → string) (qs : list request) (st : Stats) :
  stats (run qs (new_sink getenv)) = Some st →
  st_received st = Z.of_nat (length (accepted qs))
  ∧ st_distinct st = Z.of_nat (size (list_to_set (accepted qs) : gset string))
  ∧ st_duplicates st = st_received st - st_distinct st
  ∧ ∀ id, default 0 (st_by_event st !! id) = times id (accepted qs).
Proof.
  pose proof (counts_run qs [] (new_sink getenv) ltac:(by split)) as [Hr Hs].
  pose proof (total_seen qs (new_sink getenv) ltac:(done)) as Ht.
  fold (accepted qs) in Hr, Hs. set (s := run qs (new_sink getenv)) in *.
  assert (Hpos : map_Forall (λ _ n, 1 ≤ n) (seen s)).
  { intros id n Hn. rewrite Hs in Hn. case_decide as Hin; [|done]. simplify_eq.
    unfold times. apply list_elem_of_In, in_split in Hin as (l1 & l2 & ->).
    rewrite filter_app, filter_cons_True, length_app by done. simpl. lia. }
  assert (Hdom : dom (seen s) = list_to_set (accepted qs)).
  { apply set_eq. intros id. rewrite elem_of_dom, Hs, elem_of_list_to_set.
    case_decide; [by split; eauto|]. split; [by intros [? ?]|done]. }
  unfold stats. intros Hst. destruct (failRate s); simplify_eq/=.
  rewrite <- Hdom, size_dom, duplicates_total, Ht by done. split_and!; [done|done|done|].
  intros id. rewrite Hs. case_decide; [done|]. by rewrite times_absent.
Qed.
End sink.

(** ** Examples *)

#[local] Instance no_floats : FloatText := { Fixed2 _ := "0.00"; Sscanf _ := None }.

Definition deliver_ok (id : string) : request := Deliver (0, FNum 0, false) true 0 id.

Example redelivered :
  st_duplicates <$> stats (run [deliver_ok "a"; deliver_ok "b"; deliver_ok "a"; deliver_ok "a"]
                             (new_sink (λ _, ""))) = Some 2.
Proof. vm_eq. Qed.

(** A request refused for its latency has changed the failure rate all the same. *)
Example half_a_control :
  let '(e, s) := apply_control (mkControl (Some (FNum 1)) (Some "soon") (Some true) true)
                   (new_sink (λ _, "")) in
  is_Some e ∧ failRate s = FNum 1 ∧ down s = false.
Proof. vm_compute. by split; [eexists|]. Qed.

(** A delivery that was waiting while the sink was taken down and reset is still counted. *)
Example counted_after_the_reset :
  received (run [Control (mkControl None None (Some true) true); deliver_ok "a"] (new_sink (λ _, ""))) = 1.
Proof. vm_eq. Qed.
