(* ===== verification/Migrate.v ===== *)
(** * Schema migrations (src/internal/postgres/migrate.go and version.go, src/migrations)

    What wraps the migration library: the versions read off the embedded file names, the
    count of what is pending, the address handed to the driver, and the three operations.
    The library and the database are [Migrator]. *)
From stdpp Require Import options.
From S2P Require Import Prelude GoStrings Apperr ConfigDuration.
From Stdlib Require Import Ascii.
Open Scope Z_scope.

(** ** Go's library *)

Definition max_uint64 : Z := 2 ^ 64 - 1.

Fixpoint parse_digits (x : Z) (s : string) : option Z :=
  match s with
  | EmptyString => Some x
  | String c s =>
      if is_digit c then
        let y := x * 10 + digit_of c in
        if max_uint64 <? y then None else parse_digits y s
      else None
  end.

(** [strconv.ParseUint] in base 10 with 64 bits. *)
Definition ParseUint (s : string) : option Z :=
  if decide (s = "") then None else parse_digits 0 s.

(** [strings.HasSuffix]. *)
Fixpoint has_suffix (suf s : string) : bool :=
  bool_decide (s = suf) || match s with String _ s => has_suffix suf s | EmptyString => false end.

(** ** version.go *)

Definition upMigrationVersion (name : string) : option Z :=
  if has_suffix ".up.sql" name then
    match cut "_" name with
    | Some (digits, _) => ParseUint digits
    | None => None
    end
  else None.

(** ** migrations.go: the files that are embedded, in the order of their names *)

Definition FS : list string :=
  ["0001_init.down.sql"; "0001_init.up.sql"; "0002_idempotency_response_bytes.down.sql";
   "0002_idempotency_response_bytes.up.sql"].

(** ** migrate.go *)

Record Status : Type := mkStatus { Version : Z; Dirty : bool; Pending : Z }.

(** What the library answers: the two errors the program tells apart, and the others. *)
Inductive migrate_error : Type :=
  | ErrNoChange
  | ErrNilVersion
  | MigrateError (e : err).

Definition migrate_text (e : migrate_error) : err :=
  match e with
  | ErrNoChange => ENew "no change"
  | ErrNilVersion => ENew "no migration"
  | MigrateError e => e
  end.

Class Migrator (DB : Type) : Type := {
  iofs_New : option err;
  NewWithSource : string → option err;
  m_Up : DB → option migrate_error * DB;
  m_Steps : Z → DB → option migrate_error * DB;
  m_Version : DB → Z * bool * option migrate_error;
}.

(** The text after the first prefix of a list the address has. *)
Fixpoint strip_first (prefixes : list string) (dsn : string) : option string :=
  match prefixes with
  | [] => None
  | p :: ps => match cut_prefix p dsn with Some rest => Some rest | None => strip_first ps dsn end
  end.

Definition pgxURL (dsn : string) : string :=
  match strip_first ["postgres://"; "postgresql://"] dsn with
  | Some rest => ("pgx5://" +:+ rest)%string
  | None => dsn
  end.

(** The test of the loop. *)
Definition is_pending (applied : Z) (name : string) : bool :=
  match upMigrationVersion name with Some version => applied <? version | None => false end.

(** Reading the embedded directory cannot fail. *)
Definition countPending (entries : list string) (applied : Z) : Z :=
  Z.of_nat (length (filter (λ name, is_pending applied name = true) entries)).

Section migrate.
Context {DB : Type} `{!Migrator DB}.

Definition migrator (dsn : string) : option err :=
  match iofs_New with
  | Some e => Some (EWrap "postgres: read embedded migrations: " e "")
  | None =>
      match NewWithSource (pgxURL dsn) with
      | Some e => Some (EWrap "postgres: open migrator: " e "")
      | None => None
      end
  end.

(** Anything but [ErrNoChange], wrapped. *)
Definition unless_no_change (prefix : string) (e : option migrate_error) : option err :=
  match e with
  | None | Some ErrNoChange => None
  | Some e => Some (EWrap prefix (migrate_text e) "")
  end.

Definition MigrateUp (dsn : string) (db : DB) : option err * DB :=
  match migrator dsn with
  | Some e => (Some e, db)
  | None => let '(e, db) := m_Up db in (unless_no_change "postgres: migrate up: " e, db)
  end.

Definition MigrateDown (dsn : string) (db : DB) : option err * DB :=
  match migrator dsn with
  | Some e => (Some e, db)
  | None => let '(e, db) := m_Steps (-1) db in (unless_no_change "postgres: migrate down: " e, db)
  end.

Definition MigrateStatus (dsn : string) (db : DB) : result err Status :=
  match migrator dsn with
  | Some e => Err e
  | None =>
      match m_Version db with
      | (version, dirty, (None | Some ErrNilVersion)) =>
          Ok (mkStatus version dirty (countPending FS version))
      | (_, _, Some e) => Err (EWrap "postgres: migrate status: " (migrate_text e) "")
      end
  end.
End migrate.

(** What the library documents of [Up]: it succeeds, or has nothing to do, when the
    database is at the last version of the source. *)
Class MigratorLaws (DB : Type) `{Migrator DB} (last_version : Z) : Prop := {
  up_last db e db' : m_Up db = (e, db') → e = None ∨ e = Some ErrNoChange →
    m_Version db' = (last_version, false, None);
}.

(** ** File names *)

Fixpoint all_digits (s : string) : bool :=
  match s with EmptyString => true | String c s => is_digit c && all_digits s end.

Lemma parse_digits_digit (x : Z) (c : ascii) (s : string) :
  is_digit c = true → x * 10 + digit_of c ≤ max_uint64 →
  parse_digits x (String c s) = parse_digits (x * 10 + digit_of c) s.
Proof.
  intros Hc Hm. simpl. rewrite Hc.
  by replace (max_uint64 <? x * 10 + digit_of c) with false by (symmetry; zbool; lia).
Qed.

Lemma parse_digits_pretty (n : N) (s : string) :
  Z.of_N n ≤ max_uint64 → parse_digits 0 (pretty_N_go n s) = parse_digits (Z.of_N n) s.
Proof.
  revert s. induction n as [n IH] using (well_founded_induction N.lt_wf_0); intros s Hn.
  destruct (decide (0 < n)%N) as [Hpos|]; [|replace n with 0%N by lia; by rewrite pretty_N_go_0].
  rewrite pretty_N_go_step by done.
  pose proof (N.div_mod n 10 ltac:(done)) as Hdm. pose proof (N.mod_lt n 10 ltac:(done)) as Hlt.
  assert (Hq : (n / 10 < n)%N) by by apply N.div_lt.
  destruct (pretty_char_digit _ Hlt) as [Hc Hv]. specialize (IH _ Hq).
  generalize dependent (n mod 10)%N. generalize dependent (n / 10)%N.
  intros q IH Hq r Hdm Hlt Hc Hv. rewrite IH by lia.
  rewrite parse_digits_digit by (rewrite ?Hv; lia || done). rewrite Hv. f_equal. lia.
Qed.

Lemma all_digits_pretty (n : N) (s : string) : all_digits s = true → all_digits (pretty_N_go n s) = true.
Proof.
  revert s. induction n as [n IH] using (well_founded_induction N.lt_wf_0); intros s Hs.
  destruct (decide (0 < n)%N) as [Hpos|]; [|replace n with 0%N by lia; by rewrite pretty_N_go_0].
  rewrite pretty_N_go_step by done. apply IH; [by apply N.div_lt|]. simpl.
  destruct (pretty_char_digit (n mod 10) ltac:(by apply N.mod_lt)) as [-> _]. done.
Qed.

(** A decimal, padded with zeros as the file names are. *)
Definition padded (zeros : nat) (n : Z) : string := Nat.iter zeros (String "0") (itoa n).

Lemma itoa_digits (n : Z) :
  0 ≤ n ≤ max_uint64 → all_digits (itoa n) = true ∧ parse_digits 0 (itoa n) = Some n ∧ itoa n ≠ "".
Proof.
  intros Hn. pose proof (itoa_N n "" ltac:(lia)) as Hi. rewrite string_app_nil_r in Hi.
  pose proof (itoa_starts n "" ltac:(lia)) as (c & r & Hs & _ & _). rewrite string_app_nil_r in Hs.
  split_and!; [| |by rewrite Hs]; rewrite Hi; case_decide as H0; subst; try done.
  - by apply all_digits_pretty.
  - rewrite parse_digits_pretty; rewrite Z2N.id by lia; [done|lia].
Qed.

Lemma padded_digits (zeros : nat) (n : Z) :
  0 ≤ n ≤ max_uint64 → all_digits (padded zeros n) = true ∧ ParseUint (padded zeros n) = Some n.
Proof.
  intros Hn. destruct (itoa_digits n Hn) as (Hd & Hp & Hne).
  assert (Hall : all_digits (padded zeros n) = true ∧ parse_digits 0 (padded zeros n) = Some n
                 ∧ padded zeros n ≠ "").
  { induction zeros as [|k (IH1 & IH2 & _)]; [done|]. split_and!; [done| |done].
    change (padded (S k) n) with (String "0" (padded k n)).
    by rewrite parse_digits_digit by (vm_compute; done). }
  destruct Hall as (H1 & H2 & H3). split; [done|]. unfold ParseUint. by rewrite decide_False.
Qed.

Lemma cut_digits (digits rest : string) :
  all_digits digits = true → cut "_" (digits +:+ String "_" rest) = Some (digits, rest).
Proof.
  intros Hd. apply cut_app. induction digits as [|c digits IH]; [done|]. simpl in *. split_all.
  rewrite IH, orb_false_r by done. apply bool_decide_eq_false_2. by intros ->.
Qed.

Lemma has_suffix_app (s suf : string) : has_suffix suf (s +:+ suf) = true.
Proof.
  induction s as [|c s IH]; simpl.
  - destruct suf; simpl; [done|]. by rewrite bool_decide_eq_true_2.
  - rewrite IH. apply orb_true_r.
Qed.

(** ** Facts *)

(** The version of an up migration is read back from its name, whatever the padding, over
    the whole range of its type; a down migration has none. *)
Lemma version_roundtrip (zeros : nat) (n : Z) (name : string) :
  0 ≤ n ≤ max_uint64 →
  upMigrationVersion (padded zeros n +:+ String "_" (name +:+ ".up.sql")) = Some n.
Proof.
  intros Hn. destruct (padded_digits zeros n Hn) as [Hd Hp]. unfold upMigrationVersion.
  rewrite cut_digits, Hp by done.
  replace (padded zeros n +:+ String "_" (name +:+ ".up.sql"))%string
    with ((padded zeros n +:+ String "_" name) +:+ ".up.sql")%string.
  - by rewrite has_suffix_app.
  - change (String "_" (name +:+ ".up.sql"))%string with (String "_" name +:+ ".up.sql")%string.
    by rewrite string_app_assoc.
Qed.

Example down_has_no_version : upMigrationVersion "0001_init.down.sql" = None.
Proof. vm_eq. Qed.
Example version_overflows : upMigrationVersion "18446744073709551616_x.up.sql" = None.
Proof. vm_eq. Qed.

(** Applying a version leaves no more pending than before. *)
Lemma countPending_antitone (entries : list string) (v v' : Z) :
  v ≤ v' → 0 ≤ countPending entries v' ≤ countPending entries v.
Proof.
  intros Hv. unfold countPending. split; [lia|]. apply Nat2Z.inj_le.
  induction entries as [|name entries IH]; [done|]. rewrite !filter_cons.
  assert (Hmono : is_pending v' name = true → is_pending v name = true).
  { unfold is_pending. destruct (upMigrationVersion name); [|done]. intros ?. zbool. lia. }
  destruct (decide (is_pending v' name = true)) as [Hp|]; [rewrite decide_True by auto; simpl; lia|].
  case_decide; simpl; lia.
Qed.

Example pending_of_embedded : countPending FS <$> [0; 1; 2] = [2; 1; 0].
Proof. vm_eq. Qed.

(** The scheme handed to the driver is pgx5 exactly for an address with a Postgres scheme;
    rewriting once more changes nothing. *)
Lemma pgxURL_scheme (rest : string) :
  pgxURL ("postgres://" +:+ rest) = ("pgx5://" +:+ rest)%string
  ∧ pgxURL ("postgresql://" +:+ rest) = ("pgx5://" +:+ rest)%string
  ∧ pgxURL ("pgx5://" +:+ rest) = ("pgx5://" +:+ rest)%string.
Proof. done. Qed.

Section migrated.
Context {DB : Type} `{!Migrator DB} (last_version : Z) `{!MigratorLaws DB last_version}.

(** After a successful [MigrateUp] the status is clean with nothing pending, provided no
    embedded migration is newer than the last one the library knows. *)
Lemma up_leaves_nothing (dsn : string) (db db' : DB) :
  (∀ name v, name ∈ FS → upMigrationVersion name = Some v → v ≤ last_version) →
  MigrateUp dsn db = (None, db') →
  MigrateStatus dsn db' = Ok (mkStatus last_version false 0).
Proof using Type*.
  intros Hlast. unfold MigrateUp, MigrateStatus. destruct (migrator dsn); [done|].
  destruct (m_Up db) as [e db1] eqn:Hup. intros [= He ->].
  rewrite (up_last db e db') by (try done; destruct e as [[]|]; simpl in He; auto; done).
  unfold countPending.
  replace (filter (λ name, is_pending last_version name = true) FS) with ([] : list string); [done|].
  symmetry. destruct (filter _ FS) as [|name l] eqn:Hl; [done|]. exfalso.
  assert (Hin : name ∈ name :: l) by left. rewrite <- Hl in Hin. apply list_elem_of_filter in Hin as [Hp Hin].
  unfold is_pending in Hp. destruct (upMigrationVersion name) as [v|] eqn:Hv; [|done].
  specialize (Hlast name v Hin Hv). zbool. lia.
Qed.
End migrated.

(** A database of the documented kind: the version, and whether the schema is broken. *)
#[local] Instance file_db : Migrator (Z * bool) := {
  iofs_New := None;
  NewWithSource _ := None;
  m_Up db := if db.2 then (Some (MigrateError (ENew "Dirty database")), db)
             else if db.1 =? 2 then (Some ErrNoChange, db) else (None, (2, false));
  m_Steps n db := if db.1 <=? 0 then (Some ErrNoChange, db) else (None, (db.1 + n, db.2));
  m_Version db := if db.1 =? 0 then ((0, false), Some ErrNilVersion) else (db, None);
}.

#[local] Instance file_db_laws : MigratorLaws (Z * bool) 2.
Proof.
  split. intros [v d] e db' Hup He. simpl in Hup. destruct d; simplify_eq/=; [by destruct He|].
  destruct (v =? 2) eqn:Hv; zbool; by simplify_eq/=.
Qed.

(** The schema from nothing to the last version and one step back. *)
Example up_and_down :
  let '(e, db) := MigrateUp "postgres://db/tasks" (0, false) in
  let '(e', db') := MigrateDown "postgres://db/tasks" db in
  e = None ∧ e' = None
  ∧ MigrateStatus "postgres://db/tasks" (0, false) = Ok (mkStatus 0 false 2)
  ∧ MigrateStatus "postgres://db/tasks" db = Ok (mkStatus 2 false 0)
  ∧ MigrateStatus "postgres://db/tasks" db' = Ok (mkStatus 1 false 1).
Proof. vm_compute. done. Qed.

(** A broken schema is reported, not repaired. *)
Example dirty_stops :
  is_Some (MigrateUp "postgres://db/tasks" (1, true)).1
  ∧ MigrateStatus "postgres://db/tasks" (1, true) = Ok (mkStatus 1 true 1).
Proof. vm_compute. by split; [eexists|]. Qed.
