(* ===== verification/Auth.v ===== *)
(** * Who is calling (src/internal/auth)

    A bearer token is looked up by its digest; everyone else is anonymous and is
    told apart by address, trusting exactly the configured number of proxies. *)
From stdpp Require Import options.
From S2P Require Import Prelude GoStrings Http.
From S2P Require Sha256 ConfigBase ConfigSections.
From Stdlib Require Import Ascii.
Open Scope Z_scope.

Definition Anonymous : string := "anonymous".

Definition IsAnonymous (i : Identity) : bool := bool_decide (ClientID i = Anonymous).

Record client : Type := mkClient { c_id : string; c_tier : string; c_digest : string }.

Record Resolver : Type := mkResolver {
  r_mode : string; r_realm : string; r_clients : list client; r_hops : Z }.

Definition NewResolver (cfg : ConfigSections.Auth) (hops : Z) : Resolver :=
  mkResolver (ConfigSections.Au_Mode cfg) (ConfigSections.Au_Realm cfg)
    (omap (λ c, mkClient (ConfigSections.AC_ID c) (ConfigSections.AC_Tier c)
                  <$> Sha256.hex_DecodeString (to_lower (ConfigSections.AC_TokenSHA256 c)))
       (ConfigSections.Au_Clients cfg)) hops.

(** [host] *)
Definition host (addr : string) : string :=
  match ConfigBase.split_host_port addr with Some (h, _) => h | None => addr end.

(** One entry of the header, unless it is blank. *)
Definition keep (p : string) : option string :=
  let v := trim_space p in if decide (v = "") then None else Some (host v).

Definition forwardedFor (header : string) : list string :=
  if decide (header = "") then [] else omap keep (split ","%char header).

Definition ClientIP (r : Request) (hops : Z) : string :=
  let peer := host (RemoteAddr r) in
  if hops <=? 0 then peer
  else
    let chain := forwardedFor (header_Get "X-Forwarded-For" (ReqHeader r)) ++ [peer] in
    let i := Z.of_nat (length chain) - 1 - hops in
    if i <? 0 then peer else default peer (chain !! Z.to_nat i).

Definition bearerToken (header : string) : string * bool :=
  match cut " "%char header with
  | None => ("", false)
  | Some (scheme, rest) =>
      if negb (equal_fold scheme "Bearer") then ("", false)
      else let token := trim_space rest in (token, bool_decide (token ≠ ""))
  end.

(** The scan that does not stop at a match: the last one wins. *)
Definition scan (sum : string) (cs : list client) : option client :=
  foldl (λ m c, if decide (sum = c_digest c) then Some c else m) None cs.

Definition Resolve (r : Resolver) (req : Request) : Identity * bool :=
  let anon := mkIdentity Anonymous ConfigSections.TierAnonymous (ClientIP req (r_hops r)) in
  if decide (r_mode r = ConfigSections.AuthOff) then (anon, true)
  else
    let unmatched := (anon, bool_decide (r_mode r ≠ ConfigSections.AuthRequired)) in
    let '(token, ok) := bearerToken (header_Get "Authorization" (ReqHeader req)) in
    if negb ok then unmatched
    else match scan (Sha256.sha256 token) (r_clients r) with
         | None => unmatched
         | Some c => (mkIdentity (c_id c) (c_tier c) (c_id c), true)
         end.

(** [From]: the identity a context carries. *)
Definition From (r : Request) : Identity :=
  default (mkIdentity Anonymous ConfigSections.TierAnonymous "") (ctx_Identity r).

(** [outcome]: the metric label. *)
Definition outcome (id : Identity) (ok : bool) : string :=
  if negb ok then "rejected" else if IsAnonymous id then "anonymous" else "authenticated".

(** [Middleware] *)
Definition auth_Middleware {S} (r : Resolver) : Middleware S := λ next req ws,
  let '(id, ok) := Resolve r req in
  if negb ok then
    respond (λ w,
      WriteProblem req 401 "a valid bearer token is required"
        (on_header (header_Set "WWW-Authenticate"
           ("Bearer realm=" +:+ String quote_byte (r_realm r) +:+ String quote_byte "")%string) w)) ws
  else next (with_identity id req) ws.

(** ** Looking up tokens *)

Lemma scan_spec (sum : string) (cs : list client) :
  match scan sum cs with
  | Some c => c ∈ cs ∧ c_digest c = sum
  | None => ∀ c, c ∈ cs → c_digest c ≠ sum
  end.
Proof.
  unfold scan. induction cs as [|c cs IH] using rev_ind; [by intros c ?%elem_of_nil|].
  rewrite foldl_app. simpl. case_decide as Hc.
  - split; [apply elem_of_app; right; by left|done].
  - destruct (foldl _ None cs) as [c'|].
    + destruct IH. split; [apply elem_of_app; by left|done].
    + intros c' [Hin|Hin]%elem_of_app; [by apply IH|].
      apply list_elem_of_singleton in Hin as ->. congruence.
Qed.

(** ** The address of the caller *)

(** Entries that survive [forwardedFor] as they are: no comma, not blank. *)
Definition plain_entry (e : string) : Prop :=
  contains_byte "," e = false ∧ trim_space e ≠ "".

Lemma split_no_sep (c : ascii) (s : string) : contains_byte c s = false → split c s = [s].
Proof.
  induction s as [|a s IH]; simpl; [done|]. intros [Ha Hs]%orb_false_iff.
  apply bool_decide_eq_false in Ha. rewrite decide_False by done. by rewrite (IH Hs).
Qed.

Lemma split_nonempty (c : ascii) (s : string) : split c s ≠ [].
Proof. destruct s as [|a s]; simpl; [done|]. repeat case_match; done. Qed.

Lemma split_app_sep (c : ascii) (s t : string) :
  split c (s +:+ String c t)%string = split c s ++ split c t.
Proof.
  induction s as [|a s IH]; simpl.
  - by rewrite decide_True.
  - case_decide; [by rewrite IH|]. rewrite IH.
    destruct (split c s) eqn:E; [by apply split_nonempty in E|done].
Qed.

(** What the proxies append to what the caller wrote. *)
Definition appended (written : string) (entries : list string) : string :=
  foldl (λ h e, (h +:+ String "," e)%string) written entries.

#[local] Arguments keep : simpl never.

Lemma forwarded_appended (written : string) (entries : list string) :
  Forall plain_entry entries → entries ≠ [] →
  forwardedFor (appended written entries)
  = omap keep (split "," written) ++ (host ∘ trim_space <$> entries).
Proof.
  intros Hp Hne. unfold forwardedFor.
  assert (Hsplit : split "," (appended written entries) = split "," written ++ entries).
  { clear Hne. revert written. induction Hp as [|e es [He _] _ IH]; intros written; simpl.
    - by rewrite app_nil_r.
    - rewrite IH, split_app_sep, (split_no_sep _ e He), <- (assoc_L (++)). done. }
  assert (Hnil : appended written entries ≠ "").
  { destruct entries as [|e es] using rev_ind; [done|]. unfold appended.
    rewrite foldl_app. simpl. intros E%(f_equal String.length).
    rewrite string_length_app in E. simpl in E. lia. }
  rewrite decide_False, Hsplit by done. rewrite omap_app. f_equal.
  clear Hne Hsplit Hnil. induction Hp as [|e es [_ He] _ IH]; [done|].
  assert (Hk : keep e = Some (host (trim_space e))) by (unfold keep; by rewrite decide_False).
  change (omap keep (e :: es))
    with (match keep e with Some y => y :: omap keep es | None => omap keep es end).
  by rewrite Hk, IH.
Qed.

(** ** Properties *)


(** C30: behind the configured proxies a caller cannot choose its address.  Whatever a
    client writes in the forwarding header, when each of the trusted proxies
    appends the address it was talking to, the address used for the quota is the
    one the outermost trusted proxy saw. *)
Theorem ip_unforgeable (req : Request) (written seen : string) (rest : list string) (hops : Z) :
  Forall plain_entry (seen :: rest) → hops = Z.of_nat (length (seen :: rest)) →
  header_Get "X-Forwarded-For" (ReqHeader req) = appended written (seen :: rest) →
  ClientIP req hops = host (trim_space seen).
Proof.
  intros Hp Hh Hx. unfold ClientIP. rewrite Hx, forwarded_appended by done.
  replace (hops <=? 0) with false by (symmetry; zbool; simpl in *; lia).
  set (attacker := omap keep (split "," written)).
  rewrite !length_app, length_fmap. simpl length in *.
  replace (_ <? 0) with false by (symmetry; zbool; lia).
  replace (Z.to_nat _) with (length attacker) by lia.
  by rewrite <- (assoc_L (++)), lookup_app_r, Nat.sub_diag by lia.
Qed.

(** ** At concrete requests *)

Definition request (h : Header) : Request :=
  mkRequest "GET" "/tasks" h None 0 "10.0.0.9:5000" None None.

Definition demo : Resolver := NewResolver ConfigSections.Auth_SetDefaults 0.

(** The token documented for the demo, in any letter case of the scheme. *)
Example resolve_demo :
  Resolve demo (request (header_Set "Authorization" "bearer demo-standard-token" ∅))
  = (mkIdentity "demo" "standard" "demo", true)
  ∧ Resolve demo (request (header_Set "Authorization" "Bearer wrong" ∅))
    = (mkIdentity "anonymous" "anonymous" "10.0.0.9", true).
Proof. split; vm_eq. Qed.

Lemma ip_unforgeable_witness :
  ClientIP (request (header_Set "X-Forwarded-For" "6.6.6.6, 1.1.1.1,203.0.113.7, 10.0.0.8" ∅)) 2
  = host (trim_space "203.0.113.7").
Proof.
  apply (ip_unforgeable _ "6.6.6.6, 1.1.1.1" "203.0.113.7" [" 10.0.0.8"] 2).
  - repeat constructor; vm_compute; discriminate.
  - done.
  - vm_eq.
Defined.

(** Only the first line of the header is read, so a proxy that adds a line of its own
    rather than appending to the caller's leaves the caller's choice in force. *)
Example ip_forged_by_a_second_line :
  ClientIP (request {[ "X-Forwarded-For" := ["6.6.6.6"; "203.0.113.7"] ]}) 1 = "6.6.6.6".
Proof. vm_eq. Qed.
