(* ===== verification/RateLimit.v ===== *)
(** * Inbound protection (src/internal/ratelimit)

    One token bucket per caller, evicted when idle, and a cap on the requests in
    flight.  The token bucket is golang.org/x/time/rate: [RateLib] holds what is
    called of it, [RateLaws] what the eviction relies on. *)
From stdpp Require Import options.
From S2P Require Import Prelude GoStrings GoFloat Apperr ConfigBase Http.
From S2P Require ConfigSections Backoff Auth.
From Stdlib Require Import QArith Qround.
Open Scope Z_scope.

(** ** Durations as floats *)

(** [time.Duration.Seconds], of a non-negative duration. *)
Definition Seconds (d : Z) : Q :=
  fround (inject_Z (d / second) + fround (inject_Z (d mod second) / inject_Z second)).

(** [math.Round] of a non-negative float: half away from zero. *)
Definition math_Round (q : Q) : Z := Qfloor (q + (1 # 2)).

(** ** golang.org/x/time/rate *)

Class RateLib : Type := {
  limiter : Type;
  NewLimiter : ConfigSections.Quota → limiter;
  AllowN : Z → limiter → bool * limiter;
  (** [int] of it. *)
  TokensAt : Z → limiter → Z;
  (** Reserve a token, ask for its delay, and cancel. *)
  ReserveCancel : Z → limiter → Z * limiter;
}.

(** ** limiter.go *)

Section limiter.
Context `{RateLib, FloatConv}.

Record bucket : Type := mkBucket { b_limiter : limiter; b_tier : string; b_seen : Z }.
Abbreviation Limiter := (gmap string bucket).

Definition New : Limiter := ∅.

Record Decision : Type := mkDecision {
  Allowed : bool;
  Limit : Z;
  Window : Z;
  Remaining : Z;
  Reset : Z;
  d_Tier : string;
}.

Definition quota (cfg : ConfigSections.RateLimit) (tier : string) : ConfigSections.Quota :=
  let tiers := ConfigSections.RL_Tiers cfg in
  if decide (tier = ConfigSections.TierInternal) then ConfigSections.T_Internal tiers
  else if decide (tier = ConfigSections.TierStandard) then ConfigSections.T_Standard tiers
  else ConfigSections.T_Anonymous tiers.

Definition refill (q : ConfigSections.Quota) : Z :=
  if f64_le (ConfigSections.Quo_Rate q) 0 then second
  else match ConfigSections.Quo_Rate q with
       | FNum r =>
           let seconds := Qceiling (fround (fround (inject_Z (ConfigSections.Quo_Burst q)) / r)) in
           wrap64 (float_to_int64 (Z.max seconds 1) * second)
       | FNaN => wrap64 (out_of_range 0 * second)
       | _ => second
       end.

(** [Allow], with the two readings of the clock. *)
Definition Allow (cfg : ConfigSections.RateLimit) (id : Identity) (now1 now2 : Z) (l : Limiter)
  : Decision * Limiter :=
  let q := quota cfg (Tier id) in
  let lim := match l !! Key id with
             | Some b => if decide (b_tier b = Tier id) then b_limiter b else NewLimiter q
             | None => NewLimiter q
             end in
  let '(allowed, lim) := AllowN now2 lim in
  let remaining := Z.max (TokensAt now2 lim) 0 in
  let '(reset, lim) := if allowed then (0, lim) else ReserveCancel now2 lim in
  (mkDecision allowed (ConfigSections.Quo_Burst q) (refill q) remaining reset (Tier id),
   <[Key id := mkBucket lim (Tier id) now1]> l).

Definition Len (l : Limiter) : Z := Z.of_nat (size l).

Definition Sweep (cfg : ConfigSections.RateLimit) (now : Z) (l : Limiter) : Z * Limiter :=
  let cutoff := now - ConfigSections.RL_KeyTTL cfg in
  let l' := filter (λ kb : string * bucket, ¬ b_seen kb.2 < cutoff) l in
  (Len l - Len l', l').

(** ** middleware.go *)

Definition writeHeaders (d : Decision) (h : Header) : Header :=
  let window := math_Round (Seconds (Window d)) in
  let reset := Qceiling (Seconds (Reset d)) in
  let policy := (itoa (Limit d) +:+ ";w=" +:+ itoa window)%string in
  header_Set "RateLimit-Reset" (itoa reset)
    (header_Set "RateLimit-Remaining" (itoa (Remaining d))
       (header_Set "RateLimit-Limit" (itoa (Limit d))
          (header_Set "RateLimit" ("limit=" +:+ itoa (Limit d) +:+ ", remaining="
                                   +:+ itoa (Remaining d) +:+ ", reset=" +:+ itoa reset)%string
             (header_Set "RateLimit-Policy" policy h)))).

Definition retryAfter (d : Z) : string := itoa (Z.max (Qceiling (Seconds d)) 1).

(** [Middleware]: [lim] reads and writes the limiter in the application's state. *)
Definition quota_Middleware {S} (cfg : ConfigSections.RateLimit) (get : S → Limiter)
  (set : Limiter → S → S) (now1 now2 : Z) : Middleware S := λ next r ws,
  let id := Auth.From r in
  let '(d, l) := Allow cfg id now1 now2 (get ws.2) in
  let w := on_header (writeHeaders d) ws.1 in
  let s := set l ws.2 in
  if Allowed d then next r (w, s)
  else respond (λ w, WriteProblem r 429
                  ("rate limit exceeded for the " +:+ Tier id +:+ " tier")%string
                  (on_header (header_Set "Retry-After" (retryAfter (Reset d))) w)) (w, s).
End limiter.

(** ** inflight.go

    The semaphore is the number of slots taken; the slot is given back however the
    handler ends. *)
Definition take_slot (limit slots : Z) : option Z :=
  if slots <? limit then Some (slots + 1) else None.
Definition give_slot (slots : Z) : Z := slots - 1.

Definition Inflight {S} (limit : Z) (get : S → Z) (set : Z → S → S) : Middleware S :=
  λ next r ws,
  match take_slot limit (get ws.2) with
  | Some n =>
      let '(f, ws') := next r (ws.1, set n ws.2) in
      (f, (ws'.1, set (give_slot (get ws'.2)) ws'.2))
  | None =>
      respond (λ w, WriteProblem r 503 "too many requests in flight; retry shortly"
                      (on_header (header_Set "Retry-After" "1") w)) ws
  end.

(** Requests interleaved: each arrives, and one that got a slot ends, by a return, a
    panic or an abort. *)
Inductive inflight_event : Type :=
  | Arrive (r : nat)
  | End (r : nat) (f : flow).

(** The slots taken, and the requests their handlers are running. *)
Record inflight_state : Type := mkInflight { if_slots : Z; if_running : gset nat }.

Inductive inflight_step (limit : Z) : inflight_event → inflight_state → inflight_state → Prop :=
  | step_admit r s n :
      r ∉ if_running s → take_slot limit (if_slots s) = Some n →
      inflight_step limit (Arrive r) s (mkInflight n ({[r]} ∪ if_running s))
  | step_shed r s :
      r ∉ if_running s → take_slot limit (if_slots s) = None →
      inflight_step limit (Arrive r) s s
  | step_end r f s :
      r ∈ if_running s →
      inflight_step limit (End r f) s
        (mkInflight (give_slot (if_slots s)) (if_running s ∖ {[r]})).

Inductive inflight_reach (limit : Z) : inflight_state → Prop :=
  | reach_idle : inflight_reach limit (mkInflight 0 ∅)
  | reach_next e s s' : inflight_reach limit s → inflight_step limit e s s' → inflight_reach limit s'.

(** ** Eviction loses no quota *)

(** A bucket left alone this long is full again. *)
Definition refilled (q : ConfigSections.Quota) (d : Z) : Prop :=
  1 ≤ ConfigSections.Quo_Burst q ∧
  match ConfigSections.Quo_Rate q with
  | FNum r => (0 < r)%Q ∧ (inject_Z (ConfigSections.Quo_Burst q * second) <= inject_Z d * r)%Q
  | _ => False
  end.

Lemma refilled_mono (q : ConfigSections.Quota) (d d' : Z) :
  d ≤ d' → refilled q d → refilled q d'.
Proof.
  intros Hd [Hb Hq]. split; [done|]. destruct (ConfigSections.Quo_Rate q) as [| | |r]; try done.
  destruct Hq as [Hr Hq]. split; [done|]. eapply Qle_trans; [exact Hq|].
  apply Qmult_le_compat_r; [by rewrite <- Zle_Qle|by apply Qlt_le_weak].
Qed.

(** [rl_used q t l]: the limiter was made for [q] and last called by [t].  A limiter
    that had the time to refill answers as a new one does. *)
Class RateLaws `{RateLib} : Type := {
  rl_used : ConfigSections.Quota → Z → limiter → Prop;
  rl_used_new q t : rl_used q t (NewLimiter q);
  rl_used_allow q t now l : rl_used q t l → t ≤ now → rl_used q now (AllowN now l).2;
  rl_used_reserve q t now l : rl_used q t l → t ≤ now → rl_used q now (ReserveCancel now l).2;
  rl_idle q t now l :
    rl_used q t l → refilled q (now - t) → AllowN now l = AllowN now (NewLimiter q);
}.

Section sweeping.
Context `{RateLib, FloatConv} (cfg : ConfigSections.RateLimit).
Abbreviation Limiter := (gmap string bucket).

Inductive event : Type :=
  | EAllow (id : Identity) (now1 now2 : Z)
  | ESweep (now : Z).

Definition is_sweep (e : event) : bool := match e with ESweep _ => true | _ => false end.

Fixpoint run (es : list event) (l : Limiter) : list Decision :=
  match es with
  | [] => []
  | EAllow id now1 now2 :: es =>
      let '(d, l') := Allow cfg id now1 now2 l in d :: run es l'
  | ESweep now :: es => run es (Sweep cfg now l).2
  end.

(** The clock does not go back, and [eps] bounds the gap between its two readings. *)
Fixpoint clocked (eps t : Z) (es : list event) : Prop :=
  match es with
  | [] => True
  | EAllow _ now1 now2 :: es => t ≤ now1 ≤ now2 ∧ now2 ≤ now1 + eps ∧ clocked eps now2 es
  | ESweep now :: es => t ≤ now ∧ clocked eps now es
  end.

Context `{!RateLaws} (eps : Z).

(** A swept map against an unswept one. *)
Definition swept_of (now : Z) (l u : Limiter) : Prop :=
  ∀ k, match u !! k with
       | None => l !! k = None
       | Some b =>
           (∃ t, rl_used (quota cfg (b_tier b)) t (b_limiter b) ∧ t ≤ b_seen b + eps ∧ t ≤ now)
           ∧ (l !! k = Some b ∨ l !! k = None ∧ b_seen b + ConfigSections.RL_KeyTTL cfg < now)
       end.

Lemma swept_of_later (now now' : Z) (l u : Limiter) :
  now ≤ now' → swept_of now l u → swept_of now' l u.
Proof.
  intros Hn Hs k. specialize (Hs k). destruct (u !! k) as [b|]; [|done].
  destruct Hs as [(t & ? & ? & ?) Hl]. split; [exists t; split_and!; auto; lia|].
  destruct Hl as [|[? ?]]; [by left|right]. split; [done|lia].
Qed.

Lemma swept_sweep (t now : Z) (l u : Limiter) :
  t ≤ now → swept_of t l u → swept_of now (Sweep cfg now l).2 u.
Proof.
  intros Ht Hs k. pose proof (swept_of_later _ _ _ _ Ht Hs k) as Hk.
  unfold Sweep. simpl. destruct (u !! k) as [b|].
  - destruct Hk as [Hu [Hl|[Hl Hb]]]; split; auto; rewrite map_lookup_filter, Hl; simpl.
    + destruct (decide (b_seen b < now - ConfigSections.RL_KeyTTL cfg)) as [Hlt|Hge].
      * right. rewrite option_guard_False by auto. split; [done|lia].
      * left. by rewrite option_guard_True.
    + by right.
  - by rewrite map_lookup_filter, Hk.
Qed.

(** The limiter both maps end up using, and what it answers. *)
Lemma swept_allow (now1 now2 t : Z) (id : Identity) (l u : Limiter) :
  t ≤ now1 ≤ now2 → now2 ≤ now1 + eps →
  refilled (quota cfg (Tier id)) (ConfigSections.RL_KeyTTL cfg - eps) →
  swept_of t l u →
  (Allow cfg id now1 now2 l).1 = (Allow cfg id now1 now2 u).1
  ∧ swept_of now2 (Allow cfg id now1 now2 l).2 (Allow cfg id now1 now2 u).2.
Proof.
  intros Ht He Hq Hs. pose proof (Hs (Key id)) as Hk. unfold Allow.
  set (q := quota cfg (Tier id)) in *.
  set (pick := λ m : Limiter, match m !! Key id with
    | Some b => if decide (b_tier b = Tier id) then b_limiter b else NewLimiter q
    | None => NewLimiter q end).
  assert (Hsame : AllowN now2 (pick l) = AllowN now2 (pick u)
                  ∧ ∃ t', rl_used q t' (pick u) ∧ t' ≤ now2).
  { unfold pick. destruct (u !! Key id) as [b|] eqn:Hu.
    - destruct Hk as [(t' & Hused & Hseen & Ht') Hl].
      destruct (decide (b_tier b = Tier id)) as [Heq|Hne].
      + rewrite Heq in Hused. fold q in Hused. split; [|exists t'; split; [done|lia]].
        destruct Hl as [->|[-> Hb]]; [by rewrite decide_True|].
        symmetry. eapply rl_idle; [exact Hused|].
        eapply refilled_mono; [|exact Hq]. lia.
      + split; [|exists now2; split; [apply rl_used_new|lia]].
        destruct Hl as [->|[-> _]]; [by rewrite decide_False|done].
    - rewrite Hk. split; [done|]. exists now2. split; [apply rl_used_new|lia]. }
  destruct Hsame as [Hsame (t' & Hused & Ht')].
  change (match l !! Key id with
          | Some b => if decide (b_tier b = Tier id) then b_limiter b else NewLimiter q
          | None => NewLimiter q end) with (pick l).
  change (match u !! Key id with
          | Some b => if decide (b_tier b = Tier id) then b_limiter b else NewLimiter q
          | None => NewLimiter q end) with (pick u).
  rewrite Hsame. pose proof (rl_used_allow q t' now2 _ Hused Ht') as Hused2.
  destruct (AllowN now2 (pick u)) as [allowed lim]. simpl in Hused2.
  set (res := if allowed then (0, lim) else ReserveCancel now2 lim).
  assert (Hused3 : rl_used q now2 res.2)
    by (unfold res; destruct allowed; [done|by eapply rl_used_reserve]).
  destruct res as [reset lim']. simpl in *. split; [done|].
  intros k. destruct (decide (k = Key id)) as [->|Hne].
  - rewrite !lookup_insert_eq. simpl. split; [|by left]. exists now2. split_and!; [done|lia|lia].
  - rewrite !lookup_insert_ne by done. apply (swept_of_later t); [lia|done].
Qed.

Lemma run_swept (es : list event) (t : Z) (l u : Limiter) :
  clocked eps t es → (∀ tier, refilled (quota cfg tier) (ConfigSections.RL_KeyTTL cfg - eps)) →
  swept_of t l u → run es l = run (filter (λ e, is_sweep e = false) es) u.
Proof.
  intros Hc Hq. revert t l u Hc. induction es as [|[id now1 now2|now] es IH]; intros t l u Hc Hs.
  - done.
  - destruct Hc as (Ht & He & Hc). rewrite filter_cons_True by done. simpl.
    destruct (swept_allow now1 now2 t id l u Ht He (Hq _) Hs) as [Hd Hs'].
    destruct (Allow cfg id now1 now2 l) as [d l'], (Allow cfg id now1 now2 u) as [d' u'].
    simpl in Hd, Hs'. rewrite Hd. f_equal. by eapply IH.
  - destruct Hc as [Ht Hc]. rewrite filter_cons_False by done. simpl.
    eapply IH; [exact Hc|]. by eapply swept_sweep.
Qed.
End sweeping.

(** ** Properties *)

(** C31: evicting idle callers changes no decision.  When the bucket of every tier
    refills within the key's time to live, a limiter that sweeps at any moments
    answers every request of every caller - allowed or not, tokens remaining,
    time to wait - exactly as one that never sweeps. *)
Theorem sweep_invisible `{RateLib, FloatConv, !RateLaws} (cfg : ConfigSections.RateLimit)
  (eps t : Z) (es : list event) :
  clocked eps t es →
  (∀ tier, refilled (quota cfg tier) (ConfigSections.RL_KeyTTL cfg - eps)) →
  run cfg es New = run cfg (filter (λ e, is_sweep e = false) es) New.
Proof.
  intros Hc Hq. eapply run_swept; [exact Hc|exact Hq|].
  intros k. unfold New. by rewrite lookup_empty.
Qed.

(** The cap on requests in flight is exact.  However requests arrive and end, the
    slots taken are the requests running, never more than the limit; and an arrival
    is refused exactly when the limit is reached, so no outcome leaks a slot. *)
Lemma inflight_exact (limit : Z) (s : inflight_state) :
  0 ≤ limit → inflight_reach limit s →
  if_slots s = Z.of_nat (size (if_running s)) ∧ if_slots s ≤ limit
  ∧ (∀ r, r ∉ if_running s →
      (inflight_step limit (Arrive r) s s ↔ limit = Z.of_nat (size (if_running s)))).
Proof.
  intros Hlim Hs.
  assert (Hinv : if_slots s = Z.of_nat (size (if_running s)) ∧ if_slots s ≤ limit).
  { induction Hs as [|e s s' Hs [IH IHl] He].
    - split; [done|exact Hlim].
    - destruct He as [r s n Hr Ht|r s Hr Ht|r f s Hr]; simpl; [|done|].
      + unfold take_slot in Ht. case_match eqn:Hlt; [|done]. injection Ht as <-.
        rewrite size_union by set_solver. rewrite size_singleton. lia.
      + unfold give_slot. rewrite size_difference by set_solver. rewrite size_singleton.
        assert (size (if_running s) ≠ 0%nat) by (rewrite size_empty_iff; set_solver). lia. }
  destruct Hinv as [Hn Hl]. split_and!; [done|done|]. intros r Hr. rewrite <- Hn. split.
  - intros He. remember (Arrive r) as e eqn:Ee. remember s as s' eqn:Es in He at 2.
    destruct He as [r' s n _ Ht|r' s _ Ht|]; simplify_eq.
    + apply (f_equal if_running) in Es. simpl in Es. set_solver.
    + unfold take_slot in Ht. case_match eqn:Hlt; [done|]. lia.
  - intros ->. apply step_shed; [done|]. unfold take_slot. case_match eqn:Hlt; [lia|done].
Qed.

Lemma inflight_exact_witness :
  let s := mkInflight 1 {[7%nat]} in
  if_slots s = Z.of_nat (size (if_running s)) ∧ if_slots s ≤ 1
  ∧ (∀ r, r ∉ if_running s →
      (inflight_step 1 (Arrive r) s s ↔ 1 = Z.of_nat (size (if_running s)))).
Proof.
  apply (inflight_exact 1); [lia|].
  replace (mkInflight 1 {[7%nat]}) with (mkInflight (0 + 1) ({[7%nat]} ∪ ∅))
    by (f_equal; set_solver).
  eapply (reach_next _ (Arrive 7)); [apply reach_idle|]. apply step_admit; [set_solver|done].
Defined.

(** ** A concrete token bucket *)

Record tb : Type := mkTb { tb_quota : ConfigSections.Quota; tb_tokens : Q; tb_last : option Z }.

Definition tb_burst (l : tb) : Q := inject_Z (ConfigSections.Quo_Burst (tb_quota l)).
Definition tb_rate (l : tb) : Q :=
  match ConfigSections.Quo_Rate (tb_quota l) with FNum r => r | _ => 0 end.

(** The tokens at an instant, at most the burst. *)
Definition tb_at (now : Z) (l : tb) : Q :=
  match tb_last l with
  | None => tb_burst l
  | Some t =>
      let x := (tb_tokens l + inject_Z (now - t) * tb_rate l / inject_Z second)%Q in
      if Qle_bool (tb_burst l) x then tb_burst l else x
  end.

#[export] Instance token_bucket : RateLib := {|
  limiter := tb;
  NewLimiter q := mkTb q 0 None;
  AllowN now l :=
    if Qle_bool 1 (tb_at now l) then (true, mkTb (tb_quota l) (tb_at now l - 1) (Some now))
    else (false, l);
  TokensAt now l := Qfloor (tb_at now l);
  ReserveCancel now l :=
    (Qceiling ((1 - tb_at now l) * inject_Z second / tb_rate l),
     mkTb (tb_quota l) (tb_at now l) (Some now));
|}.

(** Only a bucket that is ever refilled is required to hold tokens. *)
Definition refills (q : ConfigSections.Quota) : Prop :=
  1 ≤ ConfigSections.Quo_Burst q
  ∧ match ConfigSections.Quo_Rate q with FNum r => (0 <= r)%Q | _ => False end.

Definition tb_used (q : ConfigSections.Quota) (t : Z) (l : tb) : Prop :=
  tb_quota l = q
  ∧ match tb_last l with
    | None => l = mkTb q 0 None
    | Some t' => t' ≤ t ∧ (refills q → (0 <= tb_tokens l)%Q)
    end.

Lemma Qinject_nonneg (z : Z) : 0 ≤ z → (0 <= inject_Z z)%Q.
Proof. intros. change 0%Q with (inject_Z 0). by rewrite <- Zle_Qle. Qed.

(** What has accrued since the last call. *)
Lemma tb_accrued (q : ConfigSections.Quota) (d : Z) (l : tb) :
  tb_quota l = q → refills q → 0 ≤ d → (0 <= inject_Z d * tb_rate l / inject_Z second)%Q.
Proof.
  intros Hq [_ Hr] Hd. unfold Qdiv, tb_rate. rewrite Hq.
  destruct (ConfigSections.Quo_Rate q) as [| | |r]; try done.
  by repeat apply Qmult_le_0_compat; [apply Qinject_nonneg| |].
Qed.

Lemma tb_at_nonneg (q : ConfigSections.Quota) (t now : Z) (l : tb) :
  refills q → tb_used q t l → t ≤ now → (0 <= tb_at now l)%Q.
Proof.
  intros Hr [Hq Hl] Ht. unfold tb_at.
  assert (H0 : (0 <= tb_burst l)%Q)
    by (unfold tb_burst; rewrite Hq; apply Qinject_nonneg; destruct Hr; lia).
  destruct (tb_last l) as [t'|]; [|done]. destruct Hl as [Ht' Htok].
  destruct (Qle_bool _ _); [done|].
  pose proof (tb_accrued q (now - t') l Hq Hr ltac:(lia)) as H1.
  pose proof (Qplus_le_compat _ _ _ _ (Htok Hr) H1) as H2. by rewrite Qplus_0_l in H2.
Qed.

Lemma tb_full (q : ConfigSections.Quota) (t now : Z) (l : tb) :
  tb_used q t l → refilled q (now - t) → tb_at now l = tb_burst l.
Proof.
  intros [Hq Hl] [Hb Hr]. unfold tb_at. destruct (tb_last l) as [t'|]; [|done].
  destruct Hl as [Ht' Htok].
  destruct (ConfigSections.Quo_Rate q) as [| | |r] eqn:Hrate; try done.
  destruct Hr as [Hr0 Hr].
  assert (Hle : (tb_burst l <= tb_tokens l + inject_Z (now - t') * tb_rate l / inject_Z second)%Q).
  { unfold tb_burst, tb_rate. rewrite Hq, Hrate.
    assert (H0 : (0 <= tb_tokens l)%Q).
    { apply Htok. split; [done|]. rewrite Hrate. by apply Qlt_le_weak. }
    rewrite <- (Qplus_0_l (inject_Z _)). apply Qplus_le_compat; [done|].
    apply Qle_shift_div_l; [done|]. rewrite <- inject_Z_mult.
    eapply Qle_trans; [exact Hr|]. apply Qmult_le_compat_r; [|by apply Qlt_le_weak].
    rewrite <- Zle_Qle. lia. }
  by rewrite (proj2 (Qle_bool_iff _ _) Hle).
Qed.

#[export, refine] Instance token_bucket_laws : RateLaws := {| rl_used := tb_used |}.
Proof.
  - intros q t. by split.
  - intros q t now l Hu Ht. unfold AllowN, token_bucket.
    pose proof (λ Hr, tb_at_nonneg q t now l Hr Hu Ht) as Hat.
    destruct (Qle_bool 1 (tb_at now l)) eqn:H1; simpl.
    + apply Qle_bool_iff in H1. destruct Hu as [Hq Hl]. split; [done|]. simpl.
      split; [lia|]. intros Hr. by apply Qle_minus_iff in H1.
    + destruct Hu as [Hq Hl]. split; [done|]. destruct (tb_last l) as [t'|]; [|done].
      destruct Hl. split; [lia|done].
  - intros q t now l Hu Ht. simpl. pose proof (λ Hr, tb_at_nonneg q t now l Hr Hu Ht) as Hat.
    destruct Hu as [Hq Hl]. split; [done|]. simpl. split; [lia|done].
  - intros q t now l Hu Hf. unfold AllowN, token_bucket.
    rewrite (tb_full q t now l Hu Hf).
    assert (Hb : Qle_bool 1 (tb_burst l) = true).
    { apply Qle_bool_iff. unfold tb_burst. destruct Hu as [-> _]. change 1%Q with (inject_Z 1).
      rewrite <- Zle_Qle. by destruct Hf. }
    rewrite Hb. unfold NewLimiter, tb_at. simpl.
    replace (tb_burst (mkTb q 0 None)) with (tb_burst l)
      by (unfold tb_burst; destruct Hu as [-> _]; done).
    rewrite Hb. by destruct Hu as [-> _].
Defined.

#[local] Existing Instance Backoff.amd64_conv.

(** One request a second per caller, bursts of two, forgotten after five seconds. *)
Definition small_limits (ttl : Z) (rate : Q) : ConfigSections.RateLimit :=
  let q := ConfigSections.mkQuota (FNum rate) 2 in
  ConfigSections.mkRateLimit true 1 ttl second (ConfigSections.mkTiers q q q).
Definition caller : Identity := mkIdentity "" ConfigSections.TierAnonymous "ip:10.0.0.1".
Definition visit (t : Z) : event := EAllow caller t t.

Lemma sweep_invisible_witness :
  let cfg := small_limits (5 * second) 1 in
  let es := [visit 1; visit 2; visit 3; ESweep (6 * second); visit (6 * second)] in
  clocked 0 0 es
  ∧ run cfg es New = run cfg (filter (λ e, is_sweep e = false) es) New
  ∧ Allowed <$> run cfg es New = [true; true; false; true].
Proof.
  assert (Hc : clocked 0 0 [visit 1; visit 2; visit 3; ESweep (6 * second); visit (6 * second)])
    by (vm_compute; intuition congruence).
  split; [exact Hc|]. split.
  - apply (sweep_invisible (small_limits (5 * second) 1) 0 0); [exact Hc|].
    intros tier. unfold quota. repeat case_decide; (split; [done|]);
      vm_compute; intuition congruence.
  - vm_compute. reflexivity.
Defined.

(** The hypothesis matters: with a bucket slower to refill than the key's time to
    live, the sweep hands a refused caller a full bucket. *)
Example sweep_refills_a_slow_bucket :
  let cfg := small_limits (60 * second) (1 # 100) in
  let es := [visit 1; visit 2; visit 3; ESweep (61 * second); visit (61 * second)] in
  Allowed <$> run cfg es New = [true; true; false; true]
  ∧ Allowed <$> run cfg (filter (λ e, is_sweep e = false) es) New = [true; true; false; false].
Proof. vm_compute. split; reflexivity. Qed.

(** ** The sweeping loop *)

Section run.
Context `{RateLib, FloatConv}.

Abbreviation Limiter := (gmap string bucket).

(** What the select meets: the ticker, at an instant, or the cancelled context; in between
    the requests do to the buckets what they do. *)
Inductive limiter_event : Type :=
  | LTick (now : Z)
  | LRequests (f : Limiter → Limiter)
  | LCancelled.

(** [report]: the gauge, if there is an observer. *)
Definition report (obs : bool) (l : Limiter) : list Z := if obs then [Len l] else [].

(** The lines at trace and info, the values of the gauge, the buckets, and whether the loop
    returned. *)
Fixpoint limiter_loop (cfg : ConfigSections.RateLimit) (obs : bool) (es : list limiter_event) (l : Limiter)
  : list (string * Z) * list Z * Limiter * bool :=
  match es with
  | [] => ([], [], l, false)
  | LCancelled :: _ => ([("rate limiter stopped", 0)], [], l, true)
  | LRequests f :: es => limiter_loop cfg obs es (f l)
  | LTick now :: es =>
      let '(n, l) := Sweep cfg now l in
      let lines := if 0 <? n then [("idle rate-limit buckets evicted", n)] else [] in
      let '(more, gauge, l', r) := limiter_loop cfg obs es l in
      (lines ++ more, report obs l ++ gauge, l', r)
  end.

(** [Run]: always nil in the end. *)
Definition limiter_Run (cfg : ConfigSections.RateLimit) (obs : bool) (es : list limiter_event) (l : Limiter)
  : list (string * Z) * list Z * Limiter * option (option err) :=
  let '(lines, gauge, l', r) := limiter_loop cfg obs es l in
  (("rate limiter started", 0) :: lines, report obs l ++ gauge, l', if r then Some None else None).

(** It returns with the cancellation and for no other reason. *)
Lemma limiter_Run_returns (cfg : ConfigSections.RateLimit) (obs : bool) (es : list limiter_event) (l : Limiter) :
  (limiter_Run cfg obs es l).2
  = if existsb (λ e, match e with LCancelled => true | _ => false end) es then Some None else None.
Proof.
  unfold limiter_Run. assert (Hl : (limiter_loop cfg obs es l).2
    = existsb (λ e, match e with LCancelled => true | _ => false end) es).
  { revert l. induction es as [|[now|f|] es IH]; intros l; simpl; try done.
    specialize (IH (filter (λ kb : string * bucket, ¬ b_seen kb.2 < now - ConfigSections.RL_KeyTTL cfg) l)).
    by destruct (limiter_loop _ _ _ _) as [[[lines gauge] l'] r]. }
  destruct (limiter_loop cfg obs es l) as [[[lines gauge] l'] r]. simpl in *. by rewrite Hl.
Qed.

(** A sweep leaves the callers seen since the cutoff and says how many it dropped, so the
    gauge is the number of callers not idle beyond the time to live. *)
Lemma Sweep_exact (cfg : ConfigSections.RateLimit) (now : Z) (l : Limiter) :
  let '(n, l') := Sweep cfg now l in
  0 ≤ n ∧ Len l' = Len l - n
  ∧ ∀ k b, l' !! k = Some b ↔ l !! k = Some b ∧ now - ConfigSections.RL_KeyTTL cfg ≤ b_seen b.
Proof.
  unfold Sweep, Len. set (P := λ kb : string * bucket, ¬ b_seen kb.2 < now - ConfigSections.RL_KeyTTL cfg).
  split; [|split; [lia|]].
  - pose proof (map_filter_subseteq P l) as Hs%subseteq_dom. apply subseteq_size in Hs. rewrite !size_dom in Hs. lia.
  - intros k b. rewrite map_lookup_filter_Some. unfold P. simpl. split; intros [? ?]; (split; [done|lia]).
Qed.

(** Something is published before the first tick, and once a tick. *)
Lemma gauge_published (cfg : ConfigSections.RateLimit) (es : list limiter_event) (l : Limiter) :
  forallb (λ e, match e with LCancelled => false | _ => true end) es = true →
  length (limiter_Run cfg true es l).1.1.2
  = S (length (filter (λ e, match e with LTick _ => true | _ => false end = true) es)).
Proof.
  intros He. unfold limiter_Run.
  assert (Hl : length (limiter_loop cfg true es l).1.1.2
    = length (filter (λ e, match e with LTick _ => true | _ => false end = true) es)).
  { revert l He. induction es as [|[now|f|] es IH]; intros l He; simpl in *; try done.
    - specialize (IH (filter (λ kb : string * bucket, ¬ b_seen kb.2 < now - ConfigSections.RL_KeyTTL cfg) l) He).
      destruct (limiter_loop _ _ _ _) as [[[lines gauge] l'] r]. simpl in *. by rewrite IH.
    - by apply IH. }
  destruct (limiter_loop cfg true es l) as [[[lines gauge] l'] r]. simpl in *. by rewrite Hl.
Qed.
End run.
