(* ===== verification/Idem.v ===== *)
(** * Idempotency keys (src/internal/idempotency)

    The fingerprint of a request, the two stores - [mem_store], one map, and
    [pg_store], a table whose row commits with the write it answers for - behind
    the interface [Store], and the middleware over that interface.

    The middleware runs a handler of an inner state [A] (what the repositories act
    on) inside the state [S] of the store: [bare] runs it directly, and a [Unit]
    holds what the handler's context carries while the key is reserved. *)
From stdpp Require Import options.
From S2P Require Import Prelude GoStrings Apperr JobStore Outbox Http.
From S2P Require ConfigSections Task Sha256.
From Stdlib Require Import Ascii.
Open Scope Z_scope.

(** ** idempotency.go *)

Definition HeaderKey : string := "Idempotency-Key".
Definition HeaderReplayed : string := "Idempotency-Replayed".

Definition canonicalPath (path : string) : string :=
  match cut_prefix "/api/v1/" path with
  | Some rest => ("/" +:+ rest)%string
  | None => if decide (path = "/api/v1") then "/" else path
  end.

(** A part with its length in front. *)
Definition part (s : string) : string := (itoa (len s) +:+ ":" +:+ s)%string.
Definition preimage (method path body : string) : string :=
  (part method +:+ part (canonicalPath path) +:+ part body)%string.
Definition Fingerprint (method path body : string) : string :=
  Sha256.sha256 (preimage method path body).

(** [None] is no error.  A byte above ASCII starts a rune above ASCII, or is
    decoded to U+FFFD. *)
Definition CheckKey (key : string) (maxBytes : Z) : option string :=
  if decide (key = "") then Some (HeaderKey +:+ " must not be empty")%string
  else if maxBytes <? len key then
    Some (HeaderKey +:+ " must be at most " +:+ itoa maxBytes +:+ " bytes, got "
          +:+ itoa (len key))%string
  else if forallb printable (String.list_ascii_of_string key) then None
  else Some (HeaderKey +:+ " must be printable ASCII")%string.

(** ** store.go *)

Inductive kstate : Type := StateInProgress | StateCompleted.
#[export] Instance kstate_eq_dec : EqDecision kstate.
Proof. solve_decision. Defined.

Record Record_ : Type := mkRecord {
  r_Fingerprint : string;
  r_State : kstate;
  r_StatusCode : Z;
  r_ContentType : string;
  r_Body : string;
}.
Definition Completed (r : Record_) : bool := bool_decide (r_State r = StateCompleted).

Class Store (A S : Type) : Type := {
  (** Run under the caller's own context. *)
  bare : S → A;
  set_bare : A → S → S;
  Unit : Type;
  Reserve : Z → string → string → Z → S → result err (Unit + Record_) * S;
  (** What a handler under the unit's context acts on. *)
  within : Unit → S → A;
  set_within : A → Unit → S → Unit * S;
  Complete : Z → string → string → Unit → S → option err * Unit * S;
  Abandon : Unit → S → Unit * S;
  Purge : Z → S → result err Z * S;
}.

(** ** middleware.go and recorder.go *)

Definition stored (status : Z) : bool := (200 <=? status) && (status <? 300).

Definition safeMethod (method : string) : bool :=
  bool_decide (method ∈ ["GET"; "HEAD"; "OPTIONS"; "TRACE"]).

Definition identityRequest (r : Request) : Request :=
  with_header (header_Del "Accept-Encoding" (ReqHeader r)) r.

Definition readBody (r : Request) : result body_error string * Request :=
  match ReqBody r with
  | None => (Ok "", r)
  | Some b =>
      match io_ReadAll b with
      | Err e => (Err e, r)
      | Ok body => (Ok body, with_body (Some (mkBody body false None)) r)
      end
  end.

(** The recorder is a writer whose header stays live: it is flushed as the handler
    left it, not as it was when the status was written. *)
Definition rec_status (rec : Writer) : Z :=
  match w_wrote rec with Some (status, _) => status | None => 200 end.
Definition rec_flush (rec w : Writer) : Writer :=
  Write (w_body rec) (WriteHeader (rec_status rec) (on_header (λ h, w_header rec ∪ h) w)).

Definition replay (r : Request) (seen : Record_) (fingerprint : string) (w : Writer) : Writer :=
  if decide (r_Fingerprint seen = fingerprint) then
    if Completed seen then
      let h := if decide (r_ContentType seen = "") then id
               else header_Set "Content-Type" (r_ContentType seen) in
      let w := on_header h w in
      let w := on_header (header_Set "X-Content-Type-Options" "nosniff") w in
      let w := on_header (header_Set HeaderReplayed "true") w in
      let w := on_header (header_Set "Content-Length" (itoa (len (r_Body seen)))) w in
      Write (r_Body seen) (WriteHeader (r_StatusCode seen) w)
    else
      WriteProblem r 409 ("a request with this " +:+ HeaderKey +:+ " is still in progress")%string
        (on_header (header_Set "Retry-After" "1") w)
  else WriteProblem r 422 (HeaderKey +:+ " has already been used for a different request")%string w.

Section middleware.
Context {A S : Type} `{!Store A S}.

(** The handler under the caller's context. *)
Definition pass (next : Handler A) : Handler S := λ r ws,
  let '(f, (w, a)) := next r (ws.1, bare ws.2) in (f, (w, set_bare a ws.2)).

Definition execute (next : Handler A) (r : Request) (unit : Unit) (ws : Writer * S)
  : flow * (Writer * S) :=
  let '(w, s) := ws in
  let '(f, (rec, a)) := next (identityRequest r) (new_writer, within unit s) in
  let '(unit, s) := set_within a unit s in
  match f with
  | Returned =>
      if stored (rec_status rec) then
        match Complete (rec_status rec) (header_Get "Content-Type" (w_header rec)) (w_body rec)
                unit s with
        | (Some _, unit, s) =>
            let '(_, s) := Abandon unit s in
            respond (WriteProblem r 503 "the write could not be committed; retry with the same key")
              (w, s)
        | (None, unit, s) => let '(_, s) := Abandon unit s in respond (rec_flush rec) (w, s)
        end
      else let '(unit, s) := Abandon unit s in
           let '(_, s) := Abandon unit s in respond (rec_flush rec) (w, s)
  | _ => let '(_, s) := Abandon unit s in (f, (w, s))
  end.

Definition handle (next : Handler A) (cfg : ConfigSections.Idempotency) (now : Z) (key : string)
  (r : Request) (ws : Writer * S) : flow * (Writer * S) :=
  match readBody r with
  | (Err MaxBytesError, r) => respond (WriteProblem r 413 "request body is too large") ws
  | (Err BrokenBody, r) => respond (WriteProblem r 400 "could not read the request body") ws
  | (Ok body, r) =>
      let fingerprint := Fingerprint (Method r) (Path r) body in
      match Reserve now key fingerprint (ConfigSections.I_TTL cfg) ws.2 with
      | (Err _, s) =>
          respond (WriteProblem r 503 "could not record the idempotency key; retry with the same key")
            (ws.1, s)
      | (Ok (inr seen), s) => respond (replay r seen fingerprint) (ws.1, s)
      | (Ok (inl unit), s) => execute next r unit (ws.1, s)
      end
  end.

Definition Middleware (cfg : ConfigSections.Idempotency) (now : Z) (next : Handler A)
  : Handler S := λ r ws,
  if negb (ConfigSections.I_Enabled cfg) || safeMethod (Method r) then pass next r ws
  else
    let key := header_Get HeaderKey (ReqHeader r) in
    if decide (key = "") then
      if ConfigSections.I_Required cfg then
        respond (WriteProblem r 400 (HeaderKey +:+ " is required on " +:+ Method r)%string) ws
      else pass next r ws
    else
      match CheckKey key (ConfigSections.I_MaxKeyBytes cfg) with
      | Some e => respond (WriteProblem r 400 e) ws
      | None => handle next cfg now key r ws
      end.
End middleware.

(** ** memory.go *)

Record memRecord : Type := mkMem { m_rec : Record_; m_expires : Z }.
Abbreviation MemoryStore := (gmap string memRecord).
Record memUnit : Type := mkMemUnit { mu_key : string; mu_done : bool }.

Definition mem_Reserve (now : Z) (key fingerprint : string) (ttl : Z) (s : MemoryStore)
  : (memUnit + Record_) * MemoryStore :=
  let fresh :=
    (inl (mkMemUnit key false),
     <[key := mkMem (mkRecord fingerprint StateInProgress 0 "" "") (now + ttl)]> s) in
  match s !! key with
  | Some held => if now <? m_expires held then (inr (m_rec held), s) else fresh
  | None => fresh
  end.

Definition mem_Complete (status : Z) (contentType body : string) (u : memUnit) (s : MemoryStore)
  : memUnit * MemoryStore :=
  if mu_done u then (u, s)
  else
    (mkMemUnit (mu_key u) true,
     alter (λ held, mkMem (mkRecord (r_Fingerprint (m_rec held)) StateCompleted status contentType
                             body) (m_expires held)) (mu_key u) s).

Definition mem_Abandon (u : memUnit) (s : MemoryStore) : memUnit * MemoryStore :=
  if mu_done u then (u, s) else (mkMemUnit (mu_key u) true, delete (mu_key u) s).

Definition mem_Purge (now : Z) (s : MemoryStore) : Z * MemoryStore :=
  let s' := filter (λ kh : string * memRecord, now < m_expires kh.2) s in
  (Z.of_nat (size s) - Z.of_nat (size s'), s').

(** The store beside what the handlers act on. *)
#[export] Instance mem_store (A : Type) : Store A (A * MemoryStore) := {
  bare := fst;
  set_bare a s := (a, s.2);
  Unit := memUnit;
  Reserve now key fp ttl s := let '(u, m) := mem_Reserve now key fp ttl s.2 in (Ok u, (s.1, m));
  within _ s := s.1;
  set_within a u s := (u, (a, s.2));
  Complete st ct b u s := let '(u, m) := mem_Complete st ct b u s.2 in (None, u, (s.1, m));
  Abandon u s := let '(u, m) := mem_Abandon u s.2 in (u, (s.1, m));
  Purge now s := let '(n, m) := mem_Purge now s.2 in (Ok n, (s.1, m));
}.

(** ** postgres.go *)

(** A row of [idempotency_keys]; nullable columns are options. *)
Record krow : Type := mkKrow {
  k_fingerprint : string;
  k_state : kstate;
  k_status_code : option Z;
  k_content_type : option string;
  k_response_body : option string;
  k_expires_at : Z;
}.
Abbreviation keys := (gmap string krow).

(** The constraint that a completed row has a response. *)
Definition row_check (k : krow) : bool :=
  match k_state k with
  | StateInProgress => true
  | StateCompleted => bool_decide (is_Some (k_status_code k)) && bool_decide (is_Some (k_response_body k))
  end.

(** The row as [RETURNING] gives it, and whether this statement inserted it.  A
    second request holding the key waits for the first one's transaction to end,
    so the row it finds is a committed one. *)
Definition scan_row (k : krow) : Record_ :=
  mkRecord (k_fingerprint k) (k_state k) (default 0 (k_status_code k))
    (default "" (k_content_type k)) (default "" (k_response_body k)).
Definition reserveSQL (now : Z) (key fingerprint : string) (ttl : Z) (ks : keys)
  : bool * Record_ * keys :=
  match ks !! key with
  | Some k => (false, scan_row k, ks)
  | None =>
      let k := mkKrow fingerprint StateInProgress None None None (now + ttl) in
      (true, scan_row k, <[key := k]> ks)
  end.

Definition completeSQL (key : string) (status : Z) (contentType : string) (body : option string)
  (ks : keys) : result err keys :=
  match ks !! key with
  | None => Ok ks
  | Some k =>
      let k' := mkKrow (k_fingerprint k) StateCompleted (Some status) (Some contentType) body
                  (k_expires_at k) in
      if row_check k' then Ok (<[key := k']> ks)
      else Err (ENew "idempotency_keys_completed_has_response")
  end.

Definition purgeSQL (now : Z) (ks : keys) : Z * keys :=
  let ks' := filter (λ kr : string * krow, now ≤ k_expires_at kr.2) ks in
  (Z.of_nat (size ks) - Z.of_nat (size ks'), ks').

(** The bytes of a [bytes.Buffer]: nil when nothing was written, which the driver
    sends as NULL. *)
Definition buffer_Bytes (body : string) : option string :=
  if decide (body = "") then None else Some body.

(** The failures of the driver during one keyed request. *)
Record keyio : Type := mkKeyio {
  kio_begin : option err;
  kio_reserve : option err;
  kio_complete : option err;
  kio_commit : db;
  kio_notify : bool;
  kio_lock : result err bool;
  kio_purge : option err;
}.

(** The %q of a printable key. *)
Fixpoint go_escape (s : string) : string :=
  match s with
  | EmptyString => EmptyString
  | String c s =>
      if bool_decide (c = quote_byte) || bool_decide (c = "\"%char)
      then String "\" (String c (go_escape s)) else String c (go_escape s)
  end.
Definition go_quote (s : string) : string :=
  (String quote_byte (go_escape s) +:+ String quote_byte "")%string.

Section postgres.
Context `{Task.UuidPkg} (io : keyio).

(** What is committed. *)
Record pgstate : Type := mkPgState { pg_world : world; pg_keys : keys }.

(** The open transaction: its copy of the keys, and the context with its copy of
    the rest. *)
Record pgUnit : Type := mkPgUnit {
  pu_key : string; pu_keys : keys; pu_ctx : Ctx; pu_done : bool }.

Definition set_done (u : pgUnit) : pgUnit := mkPgUnit (pu_key u) (pu_keys u) (pu_ctx u) true.

Definition pg_Reserve (now : Z) (key fingerprint : string) (ttl : Z) (s : pgstate)
  : result err (pgUnit + Record_) * pgstate :=
  match kio_begin io with
  | Some e => (Err (EWrap "idempotency: begin: " e ""), s)
  | None =>
      match kio_reserve io with
      | Some e =>
          (Err (EWrap ("idempotency: reserve " +:+ go_quote key +:+ ": ")%string e ""), s)
      | None =>
          let '(reserved, rec, ks) := reserveSQL now key fingerprint ttl (pg_keys s) in
          if reserved then (Ok (inl (mkPgUnit key ks (WithTx (w_db (pg_world s))) false)), s)
          else (Ok (inr rec), s)
      end
  end.

(** Undo the transaction of a unit. *)
Definition undo (u : pgUnit) (s : pgstate) : pgstate :=
  match TxFrom (pu_ctx u) with
  | Some tx => mkPgState (mkWorld (rollback (w_db (pg_world s)) tx) (w_sent (pg_world s))) (pg_keys s)
  | None => s
  end.

Definition commit (u : pgUnit) (ks : keys) (s : pgstate) : pgstate :=
  match TxFrom (pu_ctx u) with
  | Some tx => mkPgState (mkWorld tx (w_sent (pg_world s))) ks
  | None => s
  end.

(** The hooks put off until the commit, in order. *)
Definition run_hooks (u : pgUnit) (s : pgstate) : pgUnit * pgstate :=
  let '(kinds, ctx) := RunAfterCommit (pu_ctx u) in
  (mkPgUnit (pu_key u) (pu_keys u) ctx (pu_done u),
   mkPgState (foldl (λ w kind, Notify (kio_notify io) kind w) (pg_world s) kinds) (pg_keys s)).

Definition pg_Complete (status : Z) (contentType body : string) (u : pgUnit) (s : pgstate)
  : option err * pgUnit * pgstate :=
  if pu_done u then (Some (ENew "idempotency: unit already finished"), u, s)
  else
    let u := set_done u in
    let wrap op e :=
      EWrap ("idempotency: " +:+ op +:+ " " +:+ go_quote (pu_key u) +:+ ": ")%string e "" in
    match match kio_complete io with
          | Some e => Err e
          | None => completeSQL (pu_key u) status contentType (buffer_Bytes body) (pu_keys u)
          end with
    | Err e => (Some (wrap "complete" e), u, undo u s)
    | Ok ks =>
        match kio_commit io with
        | DbErr e applied =>
            (Some (wrap "commit" e), u, if applied then commit u ks s else undo u s)
        | DbOk => let '(u, s) := run_hooks u (commit u ks s) in (None, u, s)
        end
    end.

Definition pg_Abandon (u : pgUnit) (s : pgstate) : pgUnit * pgstate :=
  if pu_done u then (u, s) else (set_done u, undo u s).

Definition pg_Purge (now : Z) (s : pgstate) : result err Z * pgstate :=
  match kio_begin io with
  | Some e => (Err (EWrap "idempotency: purge: begin: " e ""), s)
  | None =>
      match WithLeader "idempotency-purge" (go_quote "idempotency-purge") (kio_lock io)
              (λ nk : Z * keys,
                 match kio_purge io with
                 | Some e => (Some (EWrap "idempotency: purge: " e ""), nk)
                 | None => (None, purgeSQL now nk.2)
                 end) (0, pg_keys s) with
      | (Err e, _) => (Err e, s)
      | (Ok false, _) => (Ok 0, s)
      | (Ok true, (n, ks)) =>
          match kio_commit io with
          | DbOk => (Ok n, mkPgState (pg_world s) ks)
          | DbErr e applied =>
              (Err (EWrap "idempotency: purge: commit: " e ""),
               if applied then mkPgState (pg_world s) ks else s)
          end
      end
  end.

Definition keep_ctx (ctx own : Ctx) : Ctx := match ctx with None => own | Some u => Some u end.

(** A handler acts on the context and on what the process has done; it cannot take
    the transaction out of its context. *)
Definition pg_store : Store (Ctx * world) pgstate := {|
  bare s := (None, pg_world s);
  set_bare a s := mkPgState a.2 (pg_keys s);
  Unit := pgUnit;
  Reserve := pg_Reserve;
  within u s := (pu_ctx u, pg_world s);
  set_within a u s :=
    (mkPgUnit (pu_key u) (pu_keys u) (keep_ctx a.1 (pu_ctx u)) (pu_done u),
     mkPgState a.2 (pg_keys s));
  Complete := pg_Complete;
  Abandon := pg_Abandon;
  Purge := pg_Purge;
|}.
End postgres.
