(* ===== verification/IdemProps.v ===== *)
(** * Idempotency keys: properties

    The fingerprint separates requests, a key in memory has one owner at a time, a
    keyed write in Postgres is all or nothing, and a retry is answered with the
    stored response and runs nothing. *)
From stdpp Require Import options.
From S2P Require Import Prelude GoStrings Apperr JobStore Outbox Http Idem.
From S2P Require UuidInstance ConfigSections GoTime Task JobFacts PgRepo TaskService Backends.
From Stdlib Require Import Ascii.
Open Scope Z_scope.

(** ** Parts with their length in front *)

Definition colon_free (s : string) : Prop := contains_byte ":"%char s = false.

Lemma pretty_N_char_digit (x : N) : (x < 10)%N → pretty_N_char x ≠ ":"%char.
Proof.
  intros Hx. assert (Hc : x ∈ N.of_nat <$> seq 0 10).
  { apply list_elem_of_fmap. exists (N.to_nat x). split; [lia|]. apply elem_of_seq. lia. }
  repeat (apply elem_of_cons in Hc as [->|Hc]; [done|]). by apply elem_of_nil in Hc.
Qed.

Lemma pretty_N_colon_free (x : N) (s : string) : colon_free s → colon_free (pretty_N_go x s).
Proof.
  revert s. induction (N.lt_wf_0 x) as [x _ IH]; intros s Hs.
  destruct (decide (0 < x)%N) as [Hx|Hx].
  - rewrite pretty_N_go_step by done. apply IH; [by apply N.div_lt|].
    unfold colon_free. simpl. pose proof (pretty_N_char_digit (x mod 10)%N ltac:(apply N.mod_lt; done)).
    by rewrite (bool_decide_eq_false_2 _) by done.
  - replace x with 0%N by lia. by rewrite pretty_N_go_0.
Qed.

Lemma itoa_colon_free (n : Z) : 0 ≤ n → colon_free (itoa n).
Proof.
  intros Hn. destruct n as [|p|p]; [done| |lia]. unfold itoa, pretty, pretty_Z, pretty, pretty_positive.
  unfold pretty, pretty_N. case_decide; [done|]. by apply pretty_N_colon_free.
Qed.

Lemma part_app (s s' t t' : string) :
  (part s +:+ t = part s' +:+ t')%string → s = s' ∧ t = t'.
Proof.
  unfold part. rewrite !string_app_assoc, !string_app_cons, !string_app_nil_l. intros Heq.
  pose proof (f_equal (cut ":"%char) Heq) as Hc.
  rewrite !cut_app in Hc by (apply itoa_colon_free; unfold len; lia).
  injection Hc as Hlen Hrest. apply (inj pretty) in Hlen. unfold len in Hlen.
  apply string_app_inj_len in Hrest; [done|lia].
Qed.

(** ** The memory store, its requests interleaved *)

(** A request holding a key: its unit, fingerprint and the expiry of the key. *)
Record holder : Type := mkHolder { h_unit : memUnit; h_fingerprint : string; h_expires : Z }.
Record memsys : Type := mkMemsys {
  ms_now : Z; ms_store : MemoryStore; ms_held : gmap nat holder }.

(** No holder outlives its key. *)
Definition timely (now : Z) (s : memsys) : Prop :=
  map_Forall (λ _ h, now < h_expires h) (ms_held s).

(** Request [i] claims a key, which it gets, ends with a response or without one; the
    purge runs.  Each is one critical section of the store's mutex. *)
Inductive mem_step : memsys → memsys → Prop :=
  | ms_reserve i now key fp ttl u s m :
      ms_now s ≤ now → timely now s → 0 < ttl → ms_held s !! i = None →
      mem_Reserve now key fp ttl (ms_store s) = (inl u, m) →
      mem_step s (mkMemsys now m (<[i := mkHolder u fp (now + ttl)]> (ms_held s)))
  | ms_complete i now status ct body h u m s :
      ms_now s ≤ now → timely now s → ms_held s !! i = Some h →
      mem_Complete status ct body (h_unit h) (ms_store s) = (u, m) →
      mem_step s (mkMemsys now m (delete i (ms_held s)))
  | ms_abandon i now h u m s :
      ms_now s ≤ now → timely now s → ms_held s !! i = Some h →
      mem_Abandon (h_unit h) (ms_store s) = (u, m) →
      mem_step s (mkMemsys now m (delete i (ms_held s)))
  | ms_purge now n m s :
      ms_now s ≤ now → timely now s → mem_Purge now (ms_store s) = (n, m) →
      mem_step s (mkMemsys now m (ms_held s)).

Definition mem_idle : memsys := mkMemsys 0 ∅ ∅.

(** The record of a key that is held. *)
Definition held_record (h : holder) : memRecord :=
  mkMem (mkRecord (h_fingerprint h) StateInProgress 0 "" "") (h_expires h).

Definition mem_ok (s : memsys) : Prop :=
  timely (ms_now s) s
  ∧ map_Forall (λ i h,
      mu_done (h_unit h) = false
      ∧ ms_store s !! mu_key (h_unit h) = Some (held_record h)
      ∧ ∀ j h', ms_held s !! j = Some h' → mu_key (h_unit h') = mu_key (h_unit h) → j = i)
      (ms_held s).

(** Ending request [i], which owns the key it changes, leaves the others alone. *)
Lemma mem_ok_end (i : nat) (h : holder) (now : Z) (f : option memRecord → option memRecord)
  (s : memsys) :
  mem_ok s → timely now s → ms_held s !! i = Some h →
  mem_ok (mkMemsys now (partial_alter f (mu_key (h_unit h)) (ms_store s)) (delete i (ms_held s))).
Proof.
  intros [_ Hs] Ht Hi. unfold mem_ok, timely. cbn [ms_held ms_store ms_now]. split.
  - intros j h' Hj. apply lookup_delete_Some in Hj as [_ Hj]. exact (Ht j h' Hj).
  - intros j h' [Hne Hj]%lookup_delete_Some. destruct (Hs j h' Hj) as (Hd & Hl & Hu).
    split; [done|]. split.
    + rewrite lookup_partial_alter_ne; [exact Hl|]. intros Heq.
      apply Hne. apply (Hu i h Hi). congruence.
    + intros k h'' [_ Hk]%lookup_delete_Some. by apply Hu.
Qed.

Lemma mem_step_ok (s s' : memsys) : mem_ok s → mem_step s s' → mem_ok s'.
Proof.
  intros Hok Hstep.
  destruct Hstep as [i now key fp ttl u s m Hc Ht Httl Hi Hr|i now st ct b h u m s Hc Ht Hi Hm
    |i now h u m s Hc Ht Hi Hm|now n m s Hc Ht Hp].
  - destruct Hok as [_ Hs].
    assert (Hfree : ∀ j h, ms_held s !! j = Some h → mu_key (h_unit h) ≠ key).
    { intros j h Hj <-. destruct (Hs j h Hj) as (_ & Hl & _). unfold mem_Reserve in Hr.
      rewrite Hl in Hr. simpl in Hr. specialize (Ht j h Hj). simpl in Ht.
      by rewrite (proj2 (Z.ltb_lt _ _) Ht) in Hr. }
    assert (u = mkMemUnit key false ∧ m = <[key := held_record (mkHolder u fp (now + ttl))]> (ms_store s))
      as [-> ->] by (unfold mem_Reserve in Hr; repeat case_match; by simplify_eq).
    unfold mem_ok, timely. cbn [ms_held ms_store ms_now]. split.
    + apply map_Forall_insert_2; [simpl; lia|exact Ht].
    + intros j h [[<- <-]|[Hne Hj]]%lookup_insert_Some; simpl.
      * split; [done|]. rewrite lookup_insert_eq. split; [done|].
        intros k h' [[? _]|[_ Hk]]%lookup_insert_Some Heq; [done|]. by destruct (Hfree k h' Hk).
      * destruct (Hs j h Hj) as (Hd & Hl & Hu). split; [done|].
        rewrite lookup_insert_ne by (intros Heq; by destruct (Hfree j h Hj)). split; [done|].
        intros k h' [[<- <-]|[_ Hk]]%lookup_insert_Some Heq; [|by apply (Hu k h')].
        simpl in Heq. by destruct (Hfree j h Hj).
  - unfold mem_Complete in Hm. destruct (proj2 Hok i h Hi) as (Hd & _). rewrite Hd in Hm.
    injection Hm as <- <-. by apply mem_ok_end.
  - unfold mem_Abandon in Hm. destruct (proj2 Hok i h Hi) as (Hd & _). rewrite Hd in Hm.
    injection Hm as <- <-. by apply mem_ok_end.
  - destruct Hok as [_ Hs]. split; [exact Ht|]. intros j h Hj.
    destruct (Hs j h Hj) as (Hd & Hl & Hu). split; [done|]. split; [|exact Hu].
    injection Hp as <- <-. simpl. apply map_lookup_filter_Some. split; [done|]. exact (Ht j h Hj).
Qed.

Lemma mem_reach_ok (s : memsys) : rtc mem_step mem_idle s → mem_ok s.
Proof.
  intros Hs. eapply rtc_invariant; [exact mem_step_ok|exact Hs|].
  split; intros j h Hj; cbn [ms_held mem_idle] in Hj; by rewrite lookup_empty in Hj.
Qed.

(** ** Postgres: one keyed write *)

Section pg.
Context `{Task.UuidPkg}.

(** Inside a transaction a handler changes the transaction's copy, not what is
    committed. *)
Definition in_tx (next : Handler (Ctx * world)) : Prop := ∀ r w u wd,
  ∃ f w' ctx' wd', next r (w, (Some u, wd)) = (f, (w', (ctx', wd'))) ∧ w_db wd' = w_db wd.

(** The request carries a key the middleware acts on, and its body can be read. *)
Definition keyed (cfg : ConfigSections.Idempotency) (r : Request) (key body : string) : Prop :=
  ConfigSections.I_Enabled cfg = true ∧ safeMethod (Method r) = false
  ∧ header_Get HeaderKey (ReqHeader r) = key
  ∧ CheckKey key (ConfigSections.I_MaxKeyBytes cfg) = None
  ∧ (readBody r).1 = Ok body.

Definition fingerprint_of (r : Request) (body : string) : string :=
  Fingerprint (Method r) (Path r) body.

(** Nothing happened: the rows are those of before, and identities may be spent. *)
Definition nothing (s s' : pgstate) : Prop :=
  pg_keys s' = pg_keys s
  ∧ pg_tasks (w_db (pg_world s')) = pg_tasks (w_db (pg_world s))
  ∧ rows (pg_jobs (w_db (pg_world s'))) = rows (pg_jobs (w_db (pg_world s))).

(** Everything happened: what the handler wrote in its transaction [tx] and the row of
    the key with the response [rec] are committed. *)
Definition everything (key : string) (row : krow) (tx : pgdb) (s s' : pgstate) : Prop :=
  w_db (pg_world s') = tx ∧ pg_keys s' = <[key := row]> (pg_keys s).

(** The row that stands for a response. *)
Definition response_row (fp : string) (expires : Z) (rec : Writer) : krow :=
  mkKrow fp StateCompleted (Some (rec_status rec)) (Some (header_Get "Content-Type" (w_header rec)))
    (Some (w_body rec)) expires.

Lemma readBody_keeps (r : Request) :
  Method (readBody r).2 = Method r ∧ Path (readBody r).2 = Path r.
Proof. unfold readBody. by repeat case_match. Qed.

Lemma CheckKey_not_empty (key : string) (n : Z) : CheckKey key n = None → key ≠ "".
Proof. unfold CheckKey. by case_decide. Qed.

(** A keyed request reserves its key, and goes on with what it finds. *)
Lemma Middleware_keyed {A S} `{!Store A S} (cfg : ConfigSections.Idempotency) (now : Z)
  (next : Handler A) (r : Request) (key body : string) (w : Writer) (s : S) :
  keyed cfg r key body →
  Middleware cfg now next r (w, s)
  = let fp := fingerprint_of r body in
    let r' := (readBody r).2 in
    match Reserve now key fp (ConfigSections.I_TTL cfg) s with
    | (Err _, s) =>
        respond (WriteProblem r' 503 "could not record the idempotency key; retry with the same key")
          (w, s)
    | (Ok (inr seen), s) => respond (replay r' seen fp) (w, s)
    | (Ok (inl unit), s) => execute next r' unit (w, s)
    end.
Proof.
  intros (He & Hsafe & Hk & Hc & Hb). unfold Middleware. rewrite He, Hsafe. simpl.
  rewrite Hk, decide_False by (by eapply CheckKey_not_empty). rewrite Hc.
  unfold handle. destruct (readBody_keeps r) as [Hm Hp].
  destruct (readBody r) as [rb r']. simpl in Hb, Hm, Hp. subst rb.
  unfold fingerprint_of. by rewrite <- Hm, <- Hp.
Qed.

Lemma completeSQL_spec (key : string) (st : Z) (ct body fp : string) (expires : Z) (ks : keys) :
  completeSQL key st ct (buffer_Bytes body)
    (<[key := mkKrow fp StateInProgress None None None expires]> ks)
  = if decide (body = "") then Err (ENew "idempotency_keys_completed_has_response")
    else Ok (<[key := mkKrow fp StateCompleted (Some st) (Some ct) (Some body) expires]> ks).
Proof.
  unfold completeSQL, buffer_Bytes. rewrite lookup_insert_eq. by case_decide; simpl; rewrite ?insert_insert_eq.
Qed.

Lemma undo_nothing (u : pgUnit) (s s' : pgstate) :
  pg_keys s' = pg_keys s → w_db (pg_world s') = w_db (pg_world s) → nothing s (undo u s').
Proof.
  intros Hk Hd. unfold nothing, undo. destruct (TxFrom (pu_ctx u)); simpl; by rewrite ?Hk, ?Hd.
Qed.

(** The transaction and the hooks a handler leaves in the context. *)
Definition tx_of (ctx : Ctx) (s : pgstate) : pgdb := default (w_db (pg_world s)) (TxFrom ctx).
Definition hooks_of (ctx : Ctx) : list string := (RunAfterCommit ctx).1.

Lemma notify_all (delivered : bool) (kinds : list string) (wd : world) :
  foldl (λ w kind, Notify delivered kind w) wd kinds
  = mkWorld (w_db wd) (w_sent wd ++ if delivered then kinds else []).
Proof.
  revert wd. induction kinds as [|k kinds IH]; intros wd; simpl.
  - destruct wd, delivered; simpl; by rewrite app_nil_r.
  - rewrite IH. destruct delivered; simpl; [by rewrite <- app_assoc|done].
Qed.

(** What a keyed write that got its key does, in terms of what its handler did: [rec]
    is the response it wrote, [ctx] its transaction, [wd] what it did outside of it. *)
Definition keyed_outcome (io : keyio) (r : Request) (key fp : string) (expires : Z)
  (f0 : flow) (rec : Writer) (ctx : Ctx) (wd : world) (w : Writer) (s : pgstate)
  (f : flow) (w' : Writer) (s' : pgstate) : Prop :=
  let refused := WriteProblem r 503 "the write could not be committed; retry with the same key" w in
  let committed := everything key (response_row fp expires rec) (tx_of ctx s) s s' in
  let quiet := w_sent (pg_world s') = w_sent wd in
  match f0 with
  | Returned =>
      f = Returned ∧
      if stored (rec_status rec) then
        if bool_decide (w_body rec = "") || bool_decide (is_Some (kio_complete io)) then
          nothing s s' ∧ w' = refused ∧ quiet
        else match kio_commit io with
             | DbOk =>
                 committed ∧ w' = rec_flush rec w
                 ∧ w_sent (pg_world s') = w_sent wd ++ (if kio_notify io then hooks_of ctx else [])
             | DbErr _ true => committed ∧ w' = refused ∧ quiet
             | DbErr _ false => nothing s s' ∧ w' = refused ∧ quiet
             end
      else nothing s s' ∧ w' = rec_flush rec w ∧ quiet
  | _ => f = f0 ∧ w' = w ∧ nothing s s' ∧ quiet
  end.

Lemma undo_sent (u : pgUnit) (s : pgstate) : w_sent (pg_world (undo u s)) = w_sent (pg_world s).
Proof. unfold undo. by destruct (TxFrom (pu_ctx u)). Qed.

Lemma pg_execute (io : keyio) (next : Handler (Ctx * world)) (r : Request)
  (key fp : string) (expires : Z) (w : Writer) (s : pgstate)
  (f0 : flow) (rec : Writer) (ctx : Ctx) (wd : world) :
  let _ := pg_store io in
  next (identityRequest r) (new_writer, (WithTx (w_db (pg_world s)), pg_world s))
    = (f0, (rec, (ctx, wd))) →
  w_db wd = w_db (pg_world s) →
  ∃ f w' s',
    execute next r
      (mkPgUnit key (<[key := mkKrow fp StateInProgress None None None expires]> (pg_keys s))
         (WithTx (w_db (pg_world s))) false) (w, s) = (f, (w', s'))
    ∧ keyed_outcome io r key fp expires f0 rec ctx wd w s f w' s'.
Proof.
  intros st Hn Hd. unfold execute, respond.
  cbn [within set_within Complete Abandon st pg_store pu_ctx pu_key pu_keys pu_done fst snd]. rewrite Hn.
  cbn [fst snd].
  set (ctx' := keep_ctx ctx (WithTx (w_db (pg_world s)))).
  set (ks0 := <[key := mkKrow fp StateInProgress None None None expires]> (pg_keys s)).
  set (u := mkPgUnit key ks0 ctx' false). set (s1 := mkPgState wd (pg_keys s)).
  assert (Htx : TxFrom ctx' = Some (tx_of ctx s)) by (unfold ctx', tx_of; by destruct ctx).
  assert (Hhooks : hooks_of ctx' = hooks_of ctx) by (unfold ctx'; by destruct ctx).
  assert (Hundo : ∀ b, nothing s (undo (mkPgUnit key ks0 ctx' b) s1))
    by (intros b; by apply undo_nothing).
  destruct f0; [|do 3 eexists; split; [done|]; split; [done|]; split; [done|];
                  split; [apply (Hundo false)|by rewrite undo_sent]..].
  unfold keyed_outcome. destruct (stored (rec_status rec)).
  2: { do 3 eexists. split; [done|]. split; [done|]. split; [apply (Hundo false)|].
       split; [done|]. by rewrite undo_sent. }
  unfold pg_Complete. cbn [pu_done u].
  change (set_done u) with (mkPgUnit key ks0 ctx' true).
  destruct (kio_complete io) as [e|]; [rewrite (bool_decide_eq_true_2 (is_Some _)) by eauto; rewrite orb_true_r|].
  { do 3 eexists. split; [done|]. split; [done|]. split; [apply (Hundo true)|].
    split; [done|]. by rewrite undo_sent. }
  rewrite (bool_decide_eq_false_2 (is_Some None)) by (by intros []). rewrite orb_false_r.
  pose proof (completeSQL_spec key (rec_status rec) (header_Get "Content-Type" (w_header rec))
    (w_body rec) fp expires (pg_keys s)) as Hcomplete.
  fold ks0 in Hcomplete. 
  change (set_done u) with (mkPgUnit key ks0 ctx' true). cbn [pu_key pu_keys]. rewrite Hcomplete. clear Hcomplete.
  case_decide as Hb; [rewrite bool_decide_eq_true_2 by done|rewrite bool_decide_eq_false_2 by done].
  { do 3 eexists. split; [done|]. split; [done|]. split; [apply (Hundo true)|].
    split; [done|]. by rewrite undo_sent. }
  set (ks := <[key := _]> (pg_keys s)).
  assert (Hc : commit (mkPgUnit key ks0 ctx' true) ks s1
               = mkPgState (mkWorld (tx_of ctx s) (w_sent wd)) ks)
    by (unfold commit; cbn [pu_ctx]; by rewrite Htx).
  rewrite Hc.
  destruct (kio_commit io) as [|e applied].
  - unfold run_hooks. cbn [pu_ctx pu_key pu_keys pu_done pg_world pg_keys].
    destruct (RunAfterCommit ctx') as [kinds c] eqn:Hk.
    assert (kinds = hooks_of ctx) as -> by (rewrite <- Hhooks; unfold hooks_of; by rewrite Hk).
    rewrite notify_all. do 3 eexists. by repeat split.
  - destruct applied; do 3 eexists; (split; [done|]); (split; [done|]).
    + by repeat split.
    + split; [apply (Hundo true)|]. split; [done|]. by rewrite undo_sent.
Qed.
(** What a keyed request does when the driver lets it reserve its key. *)
Lemma keyed_cases (io : keyio) (cfg : ConfigSections.Idempotency) (now : Z)
  (next : Handler (Ctx * world)) (r : Request) (key body : string) (w : Writer) (s : pgstate) :
  let _ := pg_store io in
  keyed cfg r key body → in_tx next → kio_begin io = None → kio_reserve io = None →
  let fp := fingerprint_of r body in
  let r' := (readBody r).2 in
  match pg_keys s !! key with
  | Some k => Middleware cfg now next r (w, s) = (Returned, (replay r' (scan_row k) fp w, s))
  | None =>
      ∃ f0 rec ctx wd f w' s',
        next (identityRequest r') (new_writer, (WithTx (w_db (pg_world s)), pg_world s))
          = (f0, (rec, (ctx, wd)))
        ∧ Middleware cfg now next r (w, s) = (f, (w', s'))
        ∧ keyed_outcome io r' key fp (now + ConfigSections.I_TTL cfg) f0 rec ctx wd w s f w' s'
  end.
Proof.
  intros st Hk Hin Hb Hr fp r'.
  pose proof (Middleware_keyed cfg now next r key body w s Hk) as Hm.
  cbn [Reserve st pg_store] in Hm. unfold pg_Reserve, reserveSQL in Hm. rewrite Hb, Hr in Hm.
  destruct (pg_keys s !! key) as [k|] eqn:Hs; cbn zeta in Hm; [exact Hm|].
  destruct (Hin (identityRequest r') new_writer (mkUow (w_db (pg_world s)) []) (pg_world s))
    as (f0 & rec & ctx & wd & Hn & Hd).
  destruct (pg_execute io next r' key fp (now + ConfigSections.I_TTL cfg) w s f0 rec ctx wd Hn Hd)
    as (f & w' & s' & He & Ho).
  exists f0, rec, ctx, wd, f, w', s'. split; [exact Hn|]. split; [|exact Ho].
  rewrite Hm. exact He.
Qed.

(** ** Postgres: histories *)

(** A row of a key that has been committed. *)
Definition row_good (k : krow) : Prop :=
  ∃ st ct b, k_state k = StateCompleted ∧ k_status_code k = Some st ∧ stored st = true
    ∧ k_content_type k = Some ct ∧ k_response_body k = Some b.

(** Until [t]: requests, keyed or not, with whatever handler and failures of the
    driver; anything else that happens to the tables; and the purge. *)
Inductive key_step (t : Z) : pgstate → pgstate → Prop :=
  | ks_request io cfg now next r w s :
      let _ := pg_store io in
      in_tx next → key_step t s (Middleware cfg now next r (w, s)).2.2
  | ks_other wd s : key_step t s (mkPgState wd (pg_keys s))
  | ks_purge io now s : now ≤ t → key_step t s (pg_Purge io now s).2.

Lemma outcome_keys (io : keyio) (r : Request) (key fp : string) (expires : Z) (f0 f : flow)
  (rec w w' : Writer) (ctx : Ctx) (wd : world) (s s' : pgstate) :
  keyed_outcome io r key fp expires f0 rec ctx wd w s f w' s' →
  pg_keys s' = pg_keys s
  ∨ ∃ k, row_good k ∧ pg_keys s' = <[key := k]> (pg_keys s).
Proof.
  assert (Hgood : stored (rec_status rec) = true → row_good (response_row fp expires rec))
    by (intros; do 3 eexists; eauto).
  unfold keyed_outcome, nothing, everything. intros Ho.
  destruct f0; [|naive_solver..]. destruct Ho as [_ Ho].
  destruct (stored (rec_status rec)); [|naive_solver].
  case_match; [naive_solver|]. repeat case_match; split_all; eauto.
Qed.

Lemma pass_keys (io : keyio) (next : Handler (Ctx * world)) (r : Request) (w : Writer) (s : pgstate) :
  let _ := pg_store io in pg_keys (pass next r (w, s)).2.2 = pg_keys s.
Proof.
  intros st. unfold pass. simpl. by destruct (next r _) as [f [w' a]].
Qed.

(** A request that is not keyed leaves the keys alone. *)
Lemma keyed_or_not (io : keyio) (cfg : ConfigSections.Idempotency) (now : Z)
  (next : Handler (Ctx * world)) (r : Request) (w : Writer) (s : pgstate) :
  let _ := pg_store io in
  (∃ key body, keyed cfg r key body) ∨ pg_keys (Middleware cfg now next r (w, s)).2.2 = pg_keys s.
Proof.
  intros st. unfold Middleware.
  destruct (_ || _) eqn:Hact; [right; apply pass_keys|].
  apply orb_false_iff in Hact as [He Hsafe]. apply negb_false_iff in He.
  case_decide as Hkey.
  { destruct (ConfigSections.I_Required cfg); [by right|right; apply pass_keys]. }
  destruct (CheckKey _ _) eqn:Hcheck; [by right|].
  destruct (readBody r) as [[body|[|]] r'] eqn:Hbody;
    [left|right; unfold handle; rewrite Hbody; done..].
  exists (header_Get HeaderKey (ReqHeader r)), body. repeat split; try done. by rewrite Hbody.
Qed.

Lemma request_keys (io : keyio) (cfg : ConfigSections.Idempotency) (now : Z)
  (next : Handler (Ctx * world)) (r : Request) (w : Writer) (s : pgstate) :
  let _ := pg_store io in
  in_tx next →
  let s' := (Middleware cfg now next r (w, s)).2.2 in
  pg_keys s' = pg_keys s
  ∨ ∃ key k, pg_keys s !! key = None ∧ row_good k ∧ pg_keys s' = <[key := k]> (pg_keys s).
Proof.
  intros st Hin. cbn zeta.
  destruct (keyed_or_not io cfg now next r w s) as [(key & body & Hk)|?]; [|by left].
  pose proof (Middleware_keyed cfg now next r key body w s Hk) as Hm.
  pose proof (keyed_cases io cfg now next r key body w s Hk Hin) as Hc.
  cbn [Reserve st pg_store] in Hm. unfold pg_Reserve in Hm.
  destruct (kio_begin io) as [e|]; [left; by rewrite Hm|].
  destruct (kio_reserve io) as [e|]; [left; by rewrite Hm|].
  subst st. specialize (Hc eq_refl eq_refl).
  destruct (pg_keys s !! key) as [k|] eqn:Hs; [left; by rewrite Hc|].
  destruct Hc as (f0 & rec & ctx & wd & f & w' & s' & _ & -> & Ho).
  destruct (outcome_keys _ _ _ _ _ _ _ _ _ _ _ _ _ _ Ho) as [?|(k & ? & ?)]; eauto 10.
Qed.

Lemma purge_keys (io : keyio) (now : Z) (s : pgstate) (key : string) (k : krow) :
  pg_keys (pg_Purge io now s).2 !! key = Some k → pg_keys s !! key = Some k.
Proof.
  unfold pg_Purge, WithLeader, purgeSQL. repeat case_match; simplify_eq/=; try done;
    by intros [? _]%map_lookup_filter_Some.
Qed.

Lemma purge_keeps (io : keyio) (now : Z) (s : pgstate) (key : string) (k : krow) :
  now ≤ k_expires_at k → pg_keys s !! key = Some k → pg_keys (pg_Purge io now s).2 !! key = Some k.
Proof.
  unfold pg_Purge, WithLeader, purgeSQL. intros Hn Hs.
  repeat case_match; simplify_eq/=; try done; by apply map_lookup_filter_Some.
Qed.

Definition keys_ok (s : pgstate) : Prop := map_Forall (λ _, row_good) (pg_keys s).

Lemma key_step_ok (t : Z) (s s' : pgstate) : keys_ok s → key_step t s s' → keys_ok s'.
Proof.
  intros Hs Hstep. destruct Hstep as [io cfg now next r w s st Hin|wd s|io now s _].
  - destruct (request_keys io cfg now next r w s Hin) as [He|(key & k & _ & Hk & He)];
      subst st; unfold keys_ok; rewrite He; [done|]. by apply map_Forall_insert_2.
  - done.
  - intros key k Hk. apply (Hs key). by eapply purge_keys.
Qed.

(** A committed key stays until it expires. *)
Lemma key_step_keeps (t : Z) (key : string) (k : krow) (s s' : pgstate) :
  t ≤ k_expires_at k → pg_keys s !! key = Some k → key_step t s s' → pg_keys s' !! key = Some k.
Proof.
  intros Ht Hk Hstep. destruct Hstep as [io cfg now next r w s st Hin|wd s|io now s Hn].
  - destruct (request_keys io cfg now next r w s Hin) as [He|(key' & k' & Hn & _ & He)];
      subst st; rewrite He; [done|]. rewrite lookup_insert_ne; [done|congruence].
  - done.
  - apply purge_keeps; [lia|done].
Qed.

(** A key already answered for is replayed, whatever the handler. *)
Lemma keyed_replayed (io : keyio) (cfg : ConfigSections.Idempotency) (now : Z)
  (next : Handler (Ctx * world)) (r : Request) (key body : string) (k : krow) (w : Writer)
  (s : pgstate) :
  let _ := pg_store io in
  keyed cfg r key body → kio_begin io = None → kio_reserve io = None →
  pg_keys s !! key = Some k →
  Middleware cfg now next r (w, s)
  = (Returned, (replay (readBody r).2 (scan_row k) (fingerprint_of r body) w, s)).
Proof.
  intros st Hk Hb Hr Hs.
  pose proof (Middleware_keyed cfg now next r key body w s Hk) as Hm.
  cbn [Reserve st pg_store] in Hm. unfold pg_Reserve, reserveSQL in Hm.
  rewrite Hb, Hr, Hs in Hm. exact Hm.
Qed.
End pg.

(** ** What the client sees *)

(** A writer no handler has touched. *)
Definition fresh (w : Writer) : Prop :=
  w_wrote w = None ∧ w_body w = "" ∧ w_header w !! canonical "Content-Type" = None.

Lemma header_Get_Set_eq (k v : string) (h : Header) : header_Get k (header_Set k v h) = v.
Proof. unfold header_Get, header_Set. by rewrite lookup_insert_eq. Qed.

Lemma header_Get_Set_ne (k k' v : string) (h : Header) :
  canonical k ≠ canonical k' → header_Get k (header_Set k' v h) = header_Get k h.
Proof. intros Hne. unfold header_Get, header_Set. by rewrite lookup_insert_ne. Qed.

(** The response a caller can compare: status, body and content type. *)
Definition seen_as (st : Z) (ct b : string) (w : Writer) : Prop :=
  rec_status w = st ∧ w_body w = b ∧ header_Get "Content-Type" (w_header w) = ct.

Lemma rec_flush_seen (rec w : Writer) :
  fresh w →
  seen_as (rec_status rec) (header_Get "Content-Type" (w_header rec)) (w_body rec) (rec_flush rec w).
Proof.
  intros (Hw & Hb & Hh). unfold seen_as, rec_flush, Write, WriteHeader, on_header.
  cbn [w_wrote w_header w_body]. rewrite Hw. cbn [w_wrote w_header w_body].
  unfold rec_status at 1. cbn [w_wrote]. rewrite Hb. split; [done|]. split; [done|].
  unfold header_Get. destruct (w_header rec !! _) eqn:Hr.
  - by rewrite (lookup_union_Some_l _ _ _ _ Hr).
  - by rewrite (lookup_union_r _ _ _ Hr), Hh.
Qed.

Lemma replay_seen (r : Request) (seen : Record_) (fp : string) (w : Writer) :
  fresh w → r_Fingerprint seen = fp → r_State seen = StateCompleted →
  seen_as (r_StatusCode seen) (r_ContentType seen) (r_Body seen) (replay r seen fp w)
  ∧ header_Get HeaderReplayed (w_header (replay r seen fp w)) = "true".
Proof.
  intros (Hw & Hb & Hh) Hfp Hst. unfold replay. rewrite decide_True by done.
  unfold Completed. rewrite bool_decide_eq_true_2 by done.
  unfold seen_as, Write, WriteHeader, on_header. cbn [w_wrote w_header w_body].
  rewrite Hw. cbn [w_wrote w_header w_body]. unfold rec_status. cbn [w_wrote]. rewrite Hb.
  assert (Hne : ∀ k', canonical "Content-Type" ≠ canonical k' → ∀ v h,
    header_Get "Content-Type" (header_Set k' v h) = header_Get "Content-Type" h)
    by (intros; by apply header_Get_Set_ne).
  split; [split; [done|]; split; [done|]|].
  - rewrite !Hne by (intros [=]). case_decide as Hct; [|by apply header_Get_Set_eq].
    rewrite Hct. unfold header_Get. simpl id. by rewrite Hh.
  - rewrite header_Get_Set_ne by (intros [=]). by apply header_Get_Set_eq.
Qed.

Lemma WriteProblem_status (r : Request) (st : Z) (d : string) (w : Writer) :
  w_wrote w = None → st ≠ 500 → rec_status (WriteProblem r st d w) = st.
Proof.
  intros Hw Hst. unfold WriteProblem. rewrite (proj2 (Z.eqb_neq _ _) Hst), andb_false_r.
  unfold Write, WriteHeader, on_header. cbn [w_wrote]. by rewrite Hw.
Qed.

Lemma replay_mismatch (r : Request) (seen : Record_) (fp : string) (w : Writer) :
  fresh w → stored (rec_status (replay r seen fp w)) = true → r_Fingerprint seen = fp.
Proof.
  intros (Hw & _) Hs. destruct (decide (r_Fingerprint seen = fp)) as [|Hne]; [done|].
  unfold replay in Hs. rewrite decide_False in Hs by done.
  by rewrite WriteProblem_status in Hs.
Qed.

Section retry.
Context `{Task.UuidPkg}.

(** A request answered with success leaves a row that tells what was answered. *)
Lemma answered (io : keyio) (cfg : ConfigSections.Idempotency) (now : Z)
  (next : Handler (Ctx * world)) (r : Request) (key body : string) (w w' : Writer)
  (s s' : pgstate) :
  let _ := pg_store io in
  keys_ok s → keyed cfg r key body → in_tx next → fresh w →
  Middleware cfg now next r (w, s) = (Returned, (w', s')) → stored (rec_status w') = true →
  ∃ k, pg_keys s' !! key = Some k ∧ row_good k
    ∧ k_fingerprint k = fingerprint_of r body
    ∧ seen_as (r_StatusCode (scan_row k)) (r_ContentType (scan_row k)) (r_Body (scan_row k)) w'.
Proof.
  intros st Hok Hk Hin Hw Hm Hs.
  pose proof (Middleware_keyed cfg now next r key body w s Hk) as Hk'.
  rewrite Hm in Hk'. cbn [Reserve st pg_store] in Hk'. unfold pg_Reserve in Hk'.
  destruct (kio_begin io) eqn:Hb.
  { injection Hk' as -> _. rewrite WriteProblem_status in Hs by (done || apply Hw). done. }
  destruct (kio_reserve io) eqn:Hr.
  { injection Hk' as -> _. rewrite WriteProblem_status in Hs by (done || apply Hw). done. }
  clear Hk'. pose proof (keyed_cases io cfg now next r key body w s Hk Hin Hb Hr) as Hc.
  subst st. destruct (pg_keys s !! key) as [k|] eqn:Hks.
  - rewrite Hc in Hm. injection Hm as <- <-. exists k. split; [done|].
    pose proof (Hok key k Hks) as Hg. split; [done|].
    pose proof (replay_mismatch _ _ _ _ Hw Hs) as Hfp. split; [exact Hfp|].
    apply replay_seen; [done|done|]. by destruct Hg as (? & ? & ? & ? & _).
  - destruct Hc as (f0 & rec & ctx & wd & f & w'' & s'' & _ & He & Ho).
    rewrite He in Hm. injection Hm as -> -> ->.
    assert (Href : ∀ d, w' ≠ WriteProblem (readBody r).2 503 d w).
    { intros d ->. rewrite WriteProblem_status in Hs by (done || apply Hw). done. }
    unfold keyed_outcome in Ho. destruct f0; [|naive_solver..]. destruct Ho as [_ Ho].
    destruct (stored (rec_status rec)) eqn:Hrec.
    2: { destruct Ho as (_ & -> & _). rewrite (proj1 (rec_flush_seen rec w Hw)) in Hs. congruence. }
    destruct (_ || _); [naive_solver|]. destruct (kio_commit io) as [|e [|]]; [|naive_solver..].
    destruct Ho as ([_ Hkeys] & -> & _).
    exists (response_row (fingerprint_of r body) (now + ConfigSections.I_TTL cfg) rec).
    rewrite Hkeys, lookup_insert_eq. split; [done|]. split; [by do 3 eexists; eauto|].
    split; [done|]. by apply rec_flush_seen.
Qed.
End retry.

(** ** The task service inside a unit *)

Section service.
Context `{Task.UuidPkg} `{!EventJson, !PgRepo.PgUuid, GoTime.TimeText}.

(** A handler that decodes a request, calls the task service on Postgres, and renders
    the answer. *)
Definition task_handler (io : PgRepo.txio) (dbnow : Z) (decode : Request → TaskService.call)
  (render : TaskService.answer → Writer → Writer) : Handler (Ctx * world) := λ r ws,
  let _ := TaskService.pg_repository io dbnow in
  let '(a, s) := TaskService.serve (decode r) ws.2 in (Returned, (render a ws.1, s)).

Lemma write_in_tx (io : PgRepo.txio) (event : string)
  (fn : gmap Task.uuid Task.Task → result err Task.Task * gmap Task.uuid Task.Task) (now : Z)
  (u : unitOfWork) (wd : world) :
  ∃ r ctx, PgRepo.write io (Some u) event fn now wd = (r, ctx, wd).
Proof.
  unfold PgRepo.write. simpl. destruct (PgRepo.change_and_enqueue io event fn now (uow_tx u)) as [r tx].
  destruct r; eauto.
Qed.

Lemma task_handler_in_tx (io : PgRepo.txio) (dbnow : Z) (decode : Request → TaskService.call)
  (render : TaskService.answer → Writer → Writer) : in_tx (task_handler io dbnow decode render).
Proof.
  intros r w u wd. unfold task_handler.
  assert (∃ a ctx, @TaskService.serve _ _ _ (TaskService.pg_repository io dbnow) (decode r)
                     (Some u, wd) = (a, (ctx, wd))) as (a & ctx & Hs).
  2: { cbn [snd]. rewrite Hs. do 4 eexists. split; [reflexivity|done]. }
  destruct (decode r) as [i now id|i now|id|id|i]; simpl.
  - unfold TaskService.Create. destruct (Task.ValidateName _); [eauto|].
    destruct (Task.ValidateStatus _); [eauto|]. simpl. unfold PgRepo.Create.
    match goal with |- context [PgRepo.write io (Some u) ?e ?f ?n wd] =>
      destruct (write_in_tx io e f n u wd) as (x & ctx & ->) end. destruct x; eauto.
  - unfold TaskService.Update. case_decide; [eauto|]. destruct (Task.ValidateName _); [eauto|].
    destruct (Task.ValidateStatus _); [eauto|]. destruct (_ <? 0); [eauto|]. simpl. unfold PgRepo.Update.
    match goal with |- context [PgRepo.write io (Some u) ?e ?f ?n wd] =>
      destruct (write_in_tx io e f n u wd) as (x & ctx & ->) end. destruct x; eauto.
  - eauto.
  - unfold TaskService.Delete. case_decide; [eauto|]. simpl. unfold PgRepo.Delete.
    match goal with |- context [PgRepo.write io (Some u) ?e ?f ?n wd] =>
      destruct (write_in_tx io e f n u wd) as (x & ctx & ->) end. destruct x; eauto.
  - eauto.
Qed.
End service.

(** ** Properties *)

(** A path that is not under [/api/v1]. *)
Definition legacy (p : string) : Prop := p ≠ "/api/v1" ∧ ∀ x, p ≠ ("/api/v1/" +:+ x)%string.

Lemma canonical_legacy (p : string) : legacy p → canonicalPath p = p.
Proof.
  intros [Hp Hx]. unfold canonicalPath. destruct (cut_prefix "/api/v1/" p) as [x|] eqn:E.
  - apply cut_prefix_Some in E. by destruct (Hx x).
  - by rewrite decide_False.
Qed.

(** C32: the fingerprint separates requests and joins the two surfaces.  What is hashed is the
    same for two requests exactly when they agree on method, canonical path and body, so no
    path and body can be cut again into others.  The canonical path of a path under
    [/api/v1] is the same path without it, and any other path is its own: so a request made
    on one surface and repeated on the other hashes the same bytes. *)
Theorem fingerprint_separates (m m' p p' b b' : string) :
  (preimage m p b = preimage m' p' b' ↔ m = m' ∧ canonicalPath p = canonicalPath p' ∧ b = b')
  ∧ (∀ x, canonicalPath ("/api/v1/" +:+ x) = ("/" +:+ x)%string) ∧ canonicalPath "/api/v1" = "/"
  ∧ (legacy p → canonicalPath p = p)
  ∧ (∀ x, legacy ("/" +:+ x) → preimage m ("/api/v1/" +:+ x) b = preimage m ("/" +:+ x) b).
Proof.
  assert (Hv : ∀ x, canonicalPath ("/api/v1/" +:+ x) = ("/" +:+ x)%string)
    by (intros x; unfold canonicalPath; by rewrite cut_prefix_app).
  split; [|split; [exact Hv|split; [done|split; [apply canonical_legacy|]]]].
  - split; [|unfold preimage; by intros (-> & -> & ->)].
    unfold preimage. intros [-> [-> Hb]%part_app]%part_app. split; [done|]. split; [done|].
    pose proof (part_app b b' "" "") as Hp. rewrite !string_app_nil_r in Hp. by apply Hp.
  - intros x Hx. unfold preimage. by rewrite Hv, (canonical_legacy _ Hx).
Qed.

(** C22: in memory a key has one owner at a time.  As long as requests end before their key
    expires, in any interleaving of requests and purges a held key has one holder, it
    is recorded as in progress with that holder's fingerprint, and another request
    with the key is shown that record instead of being run. *)
Theorem mem_key_exclusive (s : memsys) (i : nat) (h : holder) :
  rtc mem_step mem_idle s → ms_held s !! i = Some h →
  (∀ j h', ms_held s !! j = Some h' → mu_key (h_unit h') = mu_key (h_unit h) → j = i)
  ∧ (∀ now fp ttl, now < h_expires h →
      mem_Reserve now (mu_key (h_unit h)) fp ttl (ms_store s)
      = (inr (mkRecord (h_fingerprint h) StateInProgress 0 "" ""), ms_store s)).
Proof.
  intros Hs Hi. destruct (proj2 (mem_reach_ok s Hs) i h Hi) as (_ & Hl & Hu). split; [done|].
  intros now fp ttl Hn. unfold mem_Reserve. rewrite Hl. simpl. by rewrite (proj2 (Z.ltb_lt _ _) Hn).
Qed.

(** C5: a keyed write is all or nothing.  The first time a key is used, either the row of
    the key with exactly the response sent and everything the handler wrote are
    committed together, and only then are its notifications sent; or nothing is - after
    a response that is not a success, a panic, an empty success (which the table's
    constraint refuses) or a failure of the driver, where the client is told 503. *)
Theorem keyed_write_atomic `{Task.UuidPkg} (io : keyio) (cfg : ConfigSections.Idempotency)
  (now : Z) (next : Handler (Ctx * world)) (r : Request) (key body : string) (w : Writer)
  (s : pgstate) :
  let _ := pg_store io in
  keyed cfg r key body → in_tx next → kio_begin io = None → kio_reserve io = None →
  pg_keys s !! key = None →
  ∃ f0 rec ctx wd f w' s',
    next (identityRequest (readBody r).2)
      (new_writer, (WithTx (w_db (pg_world s)), pg_world s)) = (f0, (rec, (ctx, wd)))
    ∧ Middleware cfg now next r (w, s) = (f, (w', s'))
    ∧ keyed_outcome io (readBody r).2 key (fingerprint_of r body)
        (now + ConfigSections.I_TTL cfg) f0 rec ctx wd w s f w' s'.
Proof.
  intros st Hk Hin Hb Hr Hs.
  pose proof (keyed_cases io cfg now next r key body w s Hk Hin Hb Hr) as Hc.
  cbn zeta in Hc. by rewrite Hs in Hc.
Qed.

(** C6: a retry is answered and runs nothing.  Once a keyed request was answered with a
    success, then - whatever requests, changes and failures follow, until its key has
    expired and is purged - the same request with the same key, on either surface, gets
    the same status, content type and body, marked as replayed, whatever its handler
    would do, and changes nothing. *)
Theorem retry_replays `{Task.UuidPkg} (io io2 : keyio) (cfg cfg2 : ConfigSections.Idempotency)
  (now now2 t : Z) (next next2 : Handler (Ctx * world)) (r r2 : Request) (key body : string)
  (w w2 w1 : Writer) (s0 s s1 s2 : pgstate) :
  pg_keys s0 = ∅ → rtc (key_step t) s0 s →
  keyed cfg r key body → in_tx next → fresh w →
  @Middleware _ _ (pg_store io) cfg now next r (w, s) = (Returned, (w1, s1)) →
  stored (rec_status w1) = true →
  rtc (key_step t) s1 s2 → (∀ k, pg_keys s1 !! key = Some k → t ≤ k_expires_at k) →
  keyed cfg2 r2 key body → Method r2 = Method r → canonicalPath (Path r2) = canonicalPath (Path r) →
  fresh w2 → kio_begin io2 = None → kio_reserve io2 = None →
  ∃ w', @Middleware _ _ (pg_store io2) cfg2 now2 next2 r2 (w2, s2) = (Returned, (w', s2))
    ∧ seen_as (rec_status w1) (header_Get "Content-Type" (w_header w1)) (w_body w1) w'
    ∧ header_Get HeaderReplayed (w_header w') = "true".
Proof.
  intros H0 Hs Hk Hin Hw Hm Hst Hs2 Ht Hk2 Hmeth Hpath Hw2 Hb Hr.
  assert (Hok : keys_ok s).
  { eapply rtc_invariant; [apply key_step_ok|exact Hs|].
    unfold keys_ok. rewrite H0. apply map_Forall_empty. }
  destruct (answered io cfg now next r key body w w1 s s1 Hok Hk Hin Hw Hm Hst)
    as (k & Hks & Hg & Hfp & Hst1 & Hb1 & Hct1).
  assert (Hks2 : pg_keys s2 !! key = Some k).
  { apply (rtc_invariant (key_step t) (λ s, pg_keys s !! key = Some k)
      (λ x y, key_step_keeps t key k x y (Ht k Hks)) s1 s2 Hs2 Hks). }
  exists (replay (readBody r2).2 (scan_row k) (fingerprint_of r2 body) w2).
  split; [by apply (keyed_replayed io2 cfg2 now2 next2 r2 key body k w2 s2)|].
  rewrite Hst1, Hct1, Hb1. apply replay_seen; [done| |].
  - simpl. rewrite Hfp. unfold fingerprint_of, Fingerprint, preimage. by rewrite Hmeth, Hpath.
  - by destruct Hg as (? & ? & ? & ? & _).
Qed.

(** ** Concrete requests *)

Import UuidInstance Backends GoTime.

Definition two_requests : memsys :=
  mkMemsys 5 (<["k" := mkMem (mkRecord "fp" StateInProgress 0 "" "") 10]> ∅)
    (<[7%nat := mkHolder (mkMemUnit "k" false) "fp" 10]> ∅).

Lemma mem_key_exclusive_witness :
  (∀ j h', ms_held two_requests !! j = Some h' → mu_key (h_unit h') = "k" → j = 7%nat)
  ∧ (∀ now fp ttl, now < 10 →
      mem_Reserve now "k" fp ttl (ms_store two_requests)
      = (inr (mkRecord "fp" StateInProgress 0 "" ""), ms_store two_requests)).
Proof.
  apply (mem_key_exclusive two_requests 7 (mkHolder (mkMemUnit "k" false) "fp" 10)); [|done].
  apply rtc_once. apply (ms_reserve 7 5 "k" "fp" 5 (mkMemUnit "k" false) mem_idle);
    [done| |done|done|done].
  intros j h Hj. cbn [ms_held mem_idle] in Hj. by rewrite lookup_empty in Hj.
Defined.

(** A holder that outlives its key ends another's reservation: after the first abandons,
    the key of the second, still running, is free for a third. *)
Example stale_unit_frees_a_key :
  let '(a, m) := mem_Reserve 0 "k" "A" 10 ∅ in
  let '(b, m) := mem_Reserve 20 "k" "B" 10 m in
  match a, b with
  | inl ua, inl _ =>
      match (mem_Reserve 22 "k" "C" 10 (mem_Abandon ua m).2).1 with inl _ => True | inr _ => False end
  | _, _ => False
  end.
Proof. by vm_compute. Qed.

(** Or it completes: the second's key replays the response of the first. *)
Example stale_unit_answers_for_another :
  let '(a, m) := mem_Reserve 0 "k" "A" 10 ∅ in
  let '(b, m) := mem_Reserve 20 "k" "B" 10 m in
  match a with
  | inl ua =>
      match (mem_Reserve 22 "k" "B" 10 (mem_Complete 201 "" "answer to A" ua m).2).1 with
      | inr seen => Completed seen = true ∧ r_Fingerprint seen = "B" ∧ r_Body seen = "answer to A"
      | inl _ => False
      end
  | inr _ => False
  end.
Proof. by vm_compute. Qed.

(** A create, decoded from the body, answered with 201. *)
Definition create_handler : Handler (Ctx * world) :=
  task_handler TaskService.io_ok 9000
    (λ r, TaskService.CCreate
            (TaskService.mkCreateInput (from_option b_data "" (ReqBody r)) 0) 5000 (uuid_of 1))
    (λ a, match a with
          | TaskService.ATask (Ok _) => λ w, Write "created" (WriteHeader 201 w)
          | _ => WriteHeader 400
          end).

Definition keyed_post (path : string) : Request :=
  mkRequest "POST" path (header_Set HeaderKey "k1" ∅) (Some (mkBody "buy milk" false None)) 8
    "192.0.2.1:4711" None None.

Definition io_fine : keyio := mkKeyio None None None DbOk true (Ok true) None.
Definition pg_start : pgstate := mkPgState (mkWorld (mkPg ∅ JobFacts.empty_table) []) ∅.
Definition default_keys : ConfigSections.Idempotency := ConfigSections.Idempotency_SetDefaults.

Lemma keyed_post_ok (path : string) : keyed default_keys (keyed_post path) "k1" "buy milk".
Proof. repeat split. Qed.

Definition after_post : flow * (Writer * pgstate) :=
  @Middleware _ _ (pg_store io_fine) default_keys 1000 create_handler
    (keyed_post "/api/v1/tasks") (new_writer, pg_start).

Lemma create_in_tx : in_tx create_handler.
Proof. apply task_handler_in_tx. Qed.

Lemma keyed_write_atomic_witness :
  ∃ f0 rec ctx wd f w' s',
    create_handler (identityRequest (readBody (keyed_post "/api/v1/tasks")).2)
      (new_writer, (WithTx (w_db (pg_world pg_start)), pg_world pg_start)) = (f0, (rec, (ctx, wd)))
    ∧ after_post = (f, (w', s'))
    ∧ keyed_outcome io_fine (readBody (keyed_post "/api/v1/tasks")).2 "k1"
        (fingerprint_of (keyed_post "/api/v1/tasks") "buy milk") (1000 + 24 * hour)
        f0 rec ctx wd new_writer pg_start f w' s'.
Proof.
  apply (keyed_write_atomic io_fine default_keys 1000 create_handler
    (keyed_post "/api/v1/tasks") "k1" "buy milk" new_writer pg_start);
    [apply keyed_post_ok|apply create_in_tx|reflexivity..].
Defined.

(** The write took place: one task, one event, one notification, one key. *)
Example after_post_commits :
  let '(_, (w, s)) := after_post in
  rec_status w = 201 ∧ size (pg_tasks (w_db (pg_world s))) = 1%nat
  ∧ size (rows (pg_jobs (w_db (pg_world s)))) = 1%nat
  ∧ w_sent (pg_world s) = [JobKind] ∧ size (pg_keys s) = 1%nat.
Proof. vm_compute. repeat split. Qed.

Lemma retry_replays_witness :
  ∃ w', @Middleware _ _ (pg_store io_fine) default_keys 2000 create_handler
          (keyed_post "/tasks") (new_writer, after_post.2.2) = (Returned, (w', after_post.2.2))
    ∧ seen_as 201 "" "created" w' ∧ header_Get HeaderReplayed (w_header w') = "true".
Proof.
  assert (Hst : stored (rec_status after_post.2.1) = true) by vm_eq.
  apply (retry_replays io_fine io_fine default_keys default_keys 1000 2000 5000
    create_handler create_handler (keyed_post "/api/v1/tasks") (keyed_post "/tasks") "k1" "buy milk"
    new_writer new_writer after_post.2.1 pg_start pg_start after_post.2.2 after_post.2.2);
    [reflexivity|apply rtc_refl|apply keyed_post_ok|apply create_in_tx|repeat split|
    |exact Hst|apply rtc_refl| |apply keyed_post_ok|reflexivity|reflexivity
    |repeat split|reflexivity|reflexivity].
  - assert (Hf : after_post.1 = Returned) by vm_eq.
    etransitivity; [apply surjective_pairing|]. apply (f_equal2 pair); [exact Hf|].
    apply surjective_pairing.
  - intros k Hk. assert (Hx : k_expires_at <$> pg_keys after_post.2.2 !! "k1" = Some (1000 + 24 * hour))
      by vm_eq.
    rewrite Hk in Hx. injection Hx as ->. vm_compute. discriminate.
Defined.

(** An empty success cannot be recorded: a keyed request that succeeds without a body is
    answered 503 and undone, however often it is retried. *)
Example empty_success_never_commits :
  let next : Handler (Ctx * world) := λ _ ws, respond (WriteHeader 200) ws in
  let '(_, (w, s)) := @Middleware _ _ (pg_store io_fine) default_keys 1000 next
                        (keyed_post "/api/v1/tasks") (new_writer, pg_start) in
  rec_status w = 503 ∧ size (pg_keys s) = 0%nat.
Proof. vm_compute. by split. Qed.
