(* ===== verification/Webhook.v ===== *)
(** * Webhook delivery (src/internal/queue/handler/webhook.go, src/internal/resilience)

    The handler that turns a job into a POST, and what the answer means for the job.
    The policy chain around the call - retry, circuit breaker, timeout - is
    failsafe-go: [Guard] holds what the handler calls of it, [GuardLaws] what it
    documents.  The remote end is a function from the number of an attempt to what
    came of it. *)
From stdpp Require Import options.
From S2P Require Import Prelude GoStrings GoDuration GoFloat Apperr ConfigBase ConfigSections.
From S2P Require Import Task JobStore Outbox Pool PoolProps Http.
From S2P Require UuidInstance Backends ConfigProps JobFacts.
Open Scope Z_scope.

Definition target : string := "webhook".

(** ** Outcomes of one attempt *)

Definition classify (status : Z) : option err :=
  if (200 <=? status) && (status <? 300) then None
  else if status =? 429 then Some (Apperr.New Exhausted "webhook rate limited")
  else if 500 <=? status then
    Some (Apperr.New Unavailable ("webhook returned " +:+ itoa status)%string)
  else if 400 <=? status then
    Some (Terminal (Some (Apperr.New Invalid
            ("webhook rejected the event with " +:+ itoa status)%string)))
  else Some (Apperr.New Unavailable ("webhook returned " +:+ itoa status)%string).

Definition resultOf (e : option err) : string :=
  match e with
  | None => "success"
  | Some _ => if IsTerminal e then "rejected" else "failure"
  end.

(** What the circuit breaker and the retry count. *)
Definition IsDependencyFailure (e : option err) : bool :=
  match e with None => false | Some _ => negb (IsTerminal e) end.

(** What came of an attempt: an answer, a transport failure, or the attempt's own
    timeout cutting it off. *)
Inductive reply : Type :=
  | Replied (status : Z)
  | Undelivered (text : string)
  | TimedOut.

(** [send], seen through the timeout policy around it. *)
Definition send (rp : reply) : option err :=
  match rp with
  | Replied status => classify status
  | Undelivered text => Some (Apperr.Wrap Unavailable (ENew text) "webhook delivery failed")
  | TimedOut => Some (ENew "timeout exceeded")
  end.

(** ** Requests: what is on the wire is what is left of the body's reader *)

Record OutRequest : Type := mkOut {
  or_url : string;
  or_header : Header;
  or_body : string;               (* not yet read *)
  or_GetBody : option string;     (* the rewind hook of http.NewRequest *)
}.

Definition rewind (req : OutRequest) : OutRequest :=
  match or_GetBody req with
  | None => req
  | Some body => mkOut (or_url req) (or_header req) body (or_GetBody req)
  end.

Definition drained (req : OutRequest) : OutRequest :=
  mkOut (or_url req) (or_header req) "" (or_GetBody req).

(** ** resilience.go *)

Inductive breaker_state : Type := ClosedState | OpenState | HalfOpenState.

Definition stateValue (s : breaker_state) : Z :=
  match s with OpenState => 2 | HalfOpenState => 1 | ClosedState => 0 end.

(** The level and the message of a transition. *)
Definition transitionLine (to : breaker_state) : Z * string :=
  match to with
  | OpenState => (4, "circuit breaker opened")
  | HalfOpenState => (0, "circuit breaker probing")
  | ClosedState => (0, "circuit breaker closed")
  end.

(** [Run] calls the function it is given some number of times, one attempt after
    another; the function's result on attempt [k] is [fn k]. *)
Class Guard : Type := {
  executor : Type;
  Run : executor → (nat → option err) → option err * nat * executor;
  RemainingDelay : executor → Z;
  guard_Name : executor → string;
}.

(** An error a policy wraps is seen through by [errors.Is] and [errors.As]. *)
Definition sees_through (e e0 : err) : Prop :=
  (∀ s, errors_is e s = errors_is e0 s)
  ∧ errors_as_app e = errors_as_app e0 ∧ errors_as_snooze e = errors_as_snooze e0.

(** The documented behaviour of retry(breaker(timeout(call))) with the program's
    settings: at most [WithMaxAttempts] attempts, a retry only after what
    [HandleIf] calls a failure, and a result that is that of the last attempt, the
    refusal of the breaker or that of the budget. *)
Class GuardLaws `{Guard} (retry : WebhookRetry) : Prop := {
  run_calls g fn r n g' :
    1 ≤ WR_MaxAttempts retry → Run g fn = (r, n, g') → Z.of_nat n ≤ WR_MaxAttempts retry;
  run_retries g fn r n g' k : Run g fn = (r, n, g') → (S k < n)%nat → IsDependencyFailure (fn k) = true;
  run_final g fn r n g' k : Run g fn = (r, n, g') → n = S k → IsDependencyFailure (fn k) = false → r = fn k;
  run_result g fn r n g' : Run g fn = (r, n, g') →
    match r with
    | None => ∃ k, n = S k ∧ fn k = None
    | Some e =>
        errors_is e BreakerErrOpen = true ∨ errors_is e BudgetErrExceeded = true
        ∨ ∃ k e0, n = S k ∧ fn k = Some e0 ∧ sees_through e e0
    end;
}.

(** ** The handler *)

Section webhook.
Context `{EventJson, Guard}.

Record Options : Type := mkOptions { wo_URL : string; wo_Timeout : Z; wo_Guard : option executor }.

(** [http.NewRequestWithContext]; [parse_error] is what net/url says of the address. *)
Definition new_request (parse_error : option err) (url body : string) : result err OutRequest :=
  match parse_error with
  | Some e => Err e
  | None => Ok (mkOut url ∅ body (Some body))
  end.

Definition event_request (req : OutRequest) (j : Job) (e : Outbox.Event) : OutRequest :=
  mkOut (or_url req)
    (header_Set "X-Event-Id" (event_ID e)
       (header_Set "Idempotency-Key" (itoa (job_ID j) +:+ ":" +:+ itoa (job_Attempt j))%string
          (header_Set "Content-Type" "application/json" (or_header req))))
    (or_body req) (or_GetBody req).

(** The requests put on the wire by [n] attempts: each attempt rewinds the request it
    was given, and sending drains the copy. *)
Fixpoint transmitted (n : nat) (req : OutRequest) : list OutRequest :=
  match n with O => [] | S n => rewind req :: transmitted n req end.

(** What the job is told, what was sent, and the guard afterwards. *)
Definition deliver (w : Options) (req : OutRequest) (remote : nat → reply)
  : option err * list OutRequest * option executor :=
  match wo_Guard w with
  | None => (send (remote 0%nat), [req], None)
  | Some g =>
      let '(e, n, g) := Run g (λ k, send (remote k)) in
      let told :=
        match e with
        | None => None
        | Some e' =>
            if errors_is e' BreakerErrOpen then
              Some (SnoozeErr (RemainingDelay g)
                      ("circuit breaker open for " +:+ guard_Name g)%string)
            else if errors_is e' BudgetErrExceeded then
              Some (SnoozeErr (wo_Timeout w)
                      ("retry budget exhausted for " +:+ guard_Name g)%string)
            else e
        end in
      (told, transmitted n req, Some g)
  end.

(** [queue.Unmarshal]. *)
Definition Unmarshal (j : Job) : result err Outbox.Event :=
  match event_unjson (job_Payload j) with
  | Ok e => Ok e
  | Err e =>
      Err (Terminal (Some (EWrap ("queue: payload of job " +:+ itoa (job_ID j)
                                  +:+ " is not usable: ")%string e "")))
  end.

Definition Handle (w : Options) (parse_error : option err) (j : Job) (remote : nat → reply)
  : option err * list OutRequest * option executor :=
  match Unmarshal j with
  | Err e => (Some e, [], wo_Guard w)
  | Ok event =>
      if decide (wo_URL w = "") then (None, [], wo_Guard w)
      else
        match new_request parse_error (wo_URL w) (event_marshal event) with
        | Err e => (Some (Terminal (Some (EWrap "build request: " e ""))), [], wo_Guard w)
        | Ok req => deliver w (event_request req j event) remote
        end
  end.
End webhook.

(** ** What an attempt says of the delivery *)

Inductive verdict : Type := Accepted | Rejected | Failing.
#[export] Instance verdict_eq_dec : EqDecision verdict.
Proof. solve_decision. Defined.

Definition verdict_of (rp : reply) : verdict :=
  match rp with
  | Replied s =>
      if (200 <=? s) && (s <? 300) then Accepted
      else if (400 <=? s) && (s <? 500) && negb (s =? 429) then Rejected else Failing
  | _ => Failing
  end.

Lemma send_verdict (rp : reply) :
  match verdict_of rp with
  | Accepted => send rp = None
  | Rejected => ∃ e, send rp = Some e ∧ IsTerminal (Some e) = true ∧ errors_as_snooze e = None
  | Failing =>
      ∃ e, send rp = Some e ∧ IsTerminal (Some e) = false ∧ errors_as_snooze e = None
           ∧ Retryable (Some e) = true
  end.
Proof.
  destruct rp as [s|t|]; simpl; [|by eexists..].
  unfold classify. destruct ((200 <=? s) && (s <? 300)) eqn:H2; [done|].
  destruct (s =? 429) eqn:H4; [rewrite andb_false_r; by eexists|]. rewrite andb_true_r.
  destruct (500 <=? s) eqn:H5; zbool.
  - rewrite (proj2 (Z.ltb_ge s 500)), andb_false_r by lia. by eexists.
  - rewrite (proj2 (Z.ltb_lt s 500)), andb_true_r by lia.
    by destruct (400 <=? s); eexists.
Qed.

(** The errors of an attempt are neither of the guard's. *)
Lemma send_not_guard (rp : reply) (e : err) (s : sentinel) :
  send rp = Some e → s = BreakerErrOpen ∨ s = BudgetErrExceeded → errors_is e s = false.
Proof.
  intros Hs Hcase. assert (Hne : s ≠ Apperr.ErrTerminal) by (by destruct Hcase as [->| ->]).
  destruct rp as [st|t|]; simpl in Hs; [|by simplify_eq/=..].
  unfold classify in Hs. repeat case_match; simplify_eq/=; try done.
  by rewrite bool_decide_eq_false_2.
Qed.

Lemma IsDependencyFailure_verdict (rp : reply) :
  IsDependencyFailure (send rp) = bool_decide (verdict_of rp = Failing).
Proof.
  pose proof (send_verdict rp) as Hv. destruct (verdict_of rp); simpl in Hv.
  - by rewrite Hv.
  - destruct Hv as (e & -> & Ht & _). simpl in *. by rewrite Ht.
  - destruct Hv as (e & -> & Ht & _). simpl in *. by rewrite Ht.
Qed.

(** ** From the answers to the job's outcome *)

Section outcome.
Context `{EventJson, Guard} (retry : WebhookRetry) `{!GuardLaws retry}.

(** The request of a job's attempt: the same for every attempt of the delivery. *)
Definition job_request (url : string) (j : Job) (e : Outbox.Event) : OutRequest :=
  event_request (mkOut url ∅ (event_marshal e) (Some (event_marshal e))) j e.

(** The verdict on the last of [n] attempts. *)
Definition last_verdict (remote : nat → reply) (n : nat) : option verdict :=
  match n with O => None | S k => Some (verdict_of (remote k)) end.

Lemma transmitted_all (n : nat) (url : string) (j : Job) (e : Outbox.Event) :
  transmitted n (job_request url j e) = replicate n (job_request url j e).
Proof. induction n as [|n IH]; [done|]. simpl. by rewrite IH. Qed.

(** What [deliver] tells the job, by what happened. *)
Definition told_of (told : option err) (v : option verdict) : Prop :=
  match told with
  | None => v = Some Accepted
  | Some e =>
      match errors_as_snooze e with
      | Some _ => v ≠ Some Accepted ∧ v ≠ Some Rejected
      | None => if Pool.retryable told then v = Some Failing else v = Some Rejected
      end
  end.

Lemma told_send (rp : reply) : told_of (send rp) (Some (verdict_of rp)).
Proof.
  pose proof (send_verdict rp) as Hv. unfold told_of, retryable.
  destruct (verdict_of rp); cbv iota in Hv.
  - by rewrite Hv.
  - destruct Hv as (e & -> & Ht & ->). by rewrite Ht.
  - destruct Hv as (e & -> & Ht & -> & Hr). by rewrite Ht, Hr.
Qed.

Lemma told_through (rp : reply) (e e0 : err) :
  send rp = Some e0 → sees_through e e0 → told_of (Some e) (Some (verdict_of rp)).
Proof.
  intros Hs (Hi & Ha & Hz). pose proof (told_send rp) as Ht. rewrite Hs in Ht.
  unfold told_of, retryable, IsTerminal, Retryable, KindOf in *.
  by rewrite Hz, Ha, !Hi.
Qed.

(** A final verdict is the guard's result. *)
Lemma guard_final (g g' : executor) (remote : nat → reply) (r : option err) (n : nat) (v : verdict) :
  Run g (λ k, send (remote k)) = (r, n, g') → last_verdict remote n = Some v → v ≠ Failing →
  ∃ k, n = S k ∧ r = send (remote k).
Proof using retry GuardLaws0.
  intros Hrun Hv Hne. destruct n as [|k]; [done|]. injection Hv as Hv. exists k. split; [done|].
  eapply (run_final g _ _ _ _ k Hrun); [done|].
  rewrite IsDependencyFailure_verdict, Hv. by apply bool_decide_eq_false.
Qed.

Lemma deliver_guarded (w : Options) (g : executor) (url : string) (j : Job) (e : Outbox.Event)
  (remote : nat → reply) :
  wo_Guard w = Some g → 1 ≤ WR_MaxAttempts retry →
  ∃ told n g', deliver w (job_request url j e) remote
      = (told, replicate n (job_request url j e), Some g')
    ∧ Z.of_nat n ≤ WR_MaxAttempts retry
    ∧ (∀ k, (S k < n)%nat → verdict_of (remote k) = Failing)
    ∧ told_of told (last_verdict remote n).
Proof using retry GuardLaws0.
  intros Hg Hm. unfold deliver. rewrite Hg.
  destruct (Run g (λ k, send (remote k))) as [[r n] g'] eqn:Hrun.
  rewrite transmitted_all. do 3 eexists. split; [reflexivity|].
  split; [by eapply run_calls|]. split.
  { intros k Hk. pose proof (run_retries g _ _ _ _ k Hrun Hk) as Hf.
    cbv beta in Hf. rewrite IsDependencyFailure_verdict in Hf. by apply bool_decide_eq_true in Hf. }
  pose proof (run_result g _ _ _ _ Hrun) as Hres. cbv beta in Hres.
  assert (Hguard : ∀ e' s, r = Some e' → s = BreakerErrOpen ∨ s = BudgetErrExceeded →
    errors_is e' s = true → last_verdict remote n ≠ Some Accepted ∧ last_verdict remote n ≠ Some Rejected).
  { intros e' s -> Hs Hi. split; intros Hv;
      destruct (guard_final g g' remote _ n _ Hrun Hv) as (k & _ & Hk); try done;
      by rewrite (send_not_guard (remote k) e' s) in Hi. }
  destruct r as [e'|].
  - destruct (errors_is e' BreakerErrOpen) eqn:Hopen; [apply (Hguard e' BreakerErrOpen); auto|].
    destruct (errors_is e' BudgetErrExceeded) eqn:Hbudget; [apply (Hguard e' BudgetErrExceeded); auto|].
    destruct Hres as [?|[?|(k & e0 & -> & Hk & Hthrough)]]; [congruence..|].
    by eapply told_through.
  - destruct Hres as (k & -> & Hk). pose proof (told_send (remote k)) as Ht.
    by rewrite Hk in Ht.
Qed.
End outcome.

(** ** Properties *)


(** ** A guard that retries and can be open *)

Fixpoint run_attempts (more k : nat) (fn : nat → option err) : option err * nat :=
  match more with
  | O => (fn k, S k)
  | S more => if IsDependencyFailure (fn k) then run_attempts more (S k) fn else (fn k, S k)
  end.

(** The state is whether the circuit is open; [more] is one less than the attempts. *)
Definition simple_guard (more : nat) : Guard := {|
  executor := bool;
  Run open fn :=
    if open then (Some (ESentinel BreakerErrOpen "circuit breaker open"), 0%nat, open)
    else (run_attempts more 0 fn, open);
  RemainingDelay _ := 30 * second;
  guard_Name _ := "webhook";
|}.

Lemma run_attempts_spec (more k : nat) (fn : nat → option err) :
  ∃ n, run_attempts more k fn = (fn (k + n)%nat, S (k + n)) ∧ (n ≤ more)%nat
    ∧ ∀ i, (k ≤ i < k + n)%nat → IsDependencyFailure (fn i) = true.
Proof.
  revert k. induction more as [|more IH]; intros k; simpl.
  - exists 0%nat. rewrite Nat.add_0_r. split; [done|]. split; lia.
  - destruct (IsDependencyFailure (fn k)) eqn:Hk.
    + destruct (IH (S k)) as (n & -> & Hn & Hf). exists (S n).
      replace (k + S n)%nat with (S k + n)%nat by lia. split; [done|]. split; [lia|].
      intros i Hi. destruct (decide (i = k)) as [->|]; [done|]. apply Hf. lia.
    + exists 0%nat. rewrite Nat.add_0_r. split; [done|]. split; lia.
Qed.

Lemma simple_guard_laws (more : nat) (retry : WebhookRetry) :
  WR_MaxAttempts retry = Z.of_nat (S more) → @GuardLaws (simple_guard more) retry.
Proof.
  intros Hm. assert (Hrun : ∀ open fn r n g', @Run (simple_guard more) open fn = (r, n, g') →
    (r = Some (ESentinel BreakerErrOpen "circuit breaker open") ∧ n = 0%nat)
    ∨ ∃ k, r = fn k ∧ n = S k ∧ (k ≤ more)%nat
           ∧ ∀ i, (i < k)%nat → IsDependencyFailure (fn i) = true).
  { intros open fn r n g' Hr. simpl in Hr. destruct open; [left; by simplify_eq|right].
    destruct (run_attempts_spec more 0 fn) as (k & Heq & Hk & Hf). rewrite Heq in Hr.
    simplify_eq/=. exists k. split_and!; [done..|]. intros i Hi. apply Hf. lia. }
  split.
  - intros g fn r n g' _ [[_ ->]|(k & _ & -> & Hk & _)]%Hrun; lia.
  - intros g fn r n g' i [[_ ->]|(k & _ & -> & Hk & Hf)]%Hrun Hi; [lia|]. apply Hf. lia.
  - intros g fn r n g' i [[_ ->]|(k & -> & -> & _)]%Hrun Heq _; [done|]. by simplify_eq.
  - intros g fn r n g' [[-> ->]|(k & -> & -> & _)]%Hrun; [by left|].
    destruct (fn k) as [e|] eqn:Hk; [|by exists k].
    right. right. exists k, e. split; [done|]. split; [done|]. by repeat split.
Qed.

(** ** Concrete deliveries *)

Import UuidInstance Backends.
#[local] Existing Instance ConfigProps.plain_text.
#[local] Existing Instance Backoff.amd64_conv.

Definition sample_event : Outbox.Event := Outbox.mkEvent EventCreated (uuid_of 7) 1 "buy milk" 0 6000.
Definition event_job : Job := mkJob 12 JobKind (event_json sample_event) 3 5 0.
Definition sink (open : bool) : @Options (simple_guard 2) :=
  @mkOptions (simple_guard 2) "https://hooks.example/in" (3 * second) (Some open).
Definition default_retry : WebhookRetry := W_Retry Webhook_SetDefaults.

(** Two failures, then an acceptance. *)
Definition flaky (k : nat) : reply :=
  match k with O => TimedOut | S O => Replied 503 | _ => Replied 204 end.


(** The outcomes of a flaky, a rejecting and a refused delivery. *)
Definition outcome_of (open : bool) (remote : nat → reply) : Outcome * nat :=
  let '(told, sent, _) := @Handle _ _ (simple_guard 2) (sink open) None event_job remote in
  ((write DbOk Queue_SetDefaults "w1" event_job told 0 10 JobFacts.empty_table).1.1, length sent).

Example delivery_outcomes :
  outcome_of false flaky = (OutcomeSucceeded, 3%nat)
  ∧ outcome_of false (λ _, Replied 422) = (OutcomeCancelled, 1%nat)
  ∧ outcome_of false (λ _, Replied 429) = (OutcomeRetried, 3%nat)
  ∧ outcome_of true flaky = (OutcomeSnoozed, 0%nat).
Proof.
  split_and!; vm_eq.
Qed.
