(* ===== verification/WebhookClient.v ===== *)
(** * The webhook's HTTP client (src/internal/queue/handler/webhook.go)

    The client [NewWebhook] builds, what it does with an answer before [send] sees it -
    net/http follows redirects - and what the handler reports of each attempt. *)
From stdpp Require Import options.
From S2P Require Import Prelude GoStrings Apperr Task JobStore Outbox Pool Webhook.
From S2P Require UuidInstance Backends.
Open Scope Z_scope.

(** ** [NewWebhook] *)

(** An [http.Client]: its timeout and its transport, [None] for the default one, counting
    the tracing wrappers around it. *)
Record client : Type := mkClient { cl_Timeout : Z; cl_Transport : option string; cl_Traced : nat }.

Definition NewWebhook_client (given : option client) (timeout : Z) (trace : bool) : client :=
  let c := match given with Some c => c | None => mkClient timeout None 0 end in
  if trace then mkClient (cl_Timeout c) (cl_Transport c) (S (cl_Traced c)) else c.

(** Tracing moves neither the timeout nor where the requests go. *)
Lemma trace_keeps_timeout (given : option client) (timeout : Z) (trace : bool) :
  cl_Timeout (NewWebhook_client given timeout trace) = cl_Timeout (NewWebhook_client given timeout false)
  ∧ cl_Transport (NewWebhook_client given timeout trace) = cl_Transport (NewWebhook_client given timeout false).
Proof. by destruct trace. Qed.

(** ** [client.Do]: net/http's redirect policy, for a request with a body to send again *)

Record wire : Type := mkWire { wr_Method : string; wr_URL : string; wr_Body : string }.
Record answer : Type := mkAnswer { an_Status : Z; an_Location : string }.

(** The request that follows an answer, if one does.  301, 302 and 303 turn a POST into a
    GET without its body; 307 and 308 repeat it.  An answer with no Location is final. *)
Definition follow (resolve : string → string → string) (q : wire) (a : answer) : option wire :=
  if decide (an_Location a = "") then None
  else
    let url := resolve (wr_URL q) (an_Location a) in
    if bool_decide (an_Status a ∈ [301; 302; 303]) then
      let head := bool_decide (wr_Method q = "HEAD") in
      Some (mkWire (if head then "HEAD" else "GET") url "")
    else if bool_decide (an_Status a ∈ [307; 308]) then Some (mkWire (wr_Method q) url (wr_Body q))
    else None.

(** At most ten requests: the answer, or nothing when there would be more, and what was
    sent. *)
Definition maxRedirects : nat := 9.

Fixpoint client_Do (hops : nat) (resolve : string → string → string) (endpoint : wire → answer)
  (q : wire) : option answer * list wire :=
  let a := endpoint q in
  match follow resolve q a with
  | None => (Some a, [q])
  | Some q' =>
      match hops with
      | O => (None, [q])
      | S hops =>
          let '(r, sent) := client_Do hops resolve endpoint q' in
          (r, q :: sent)
      end
  end.

Definition Do := client_Do maxRedirects.

(** The attempt as [Webhook.send] sees it. *)
Definition reply_of (r : option answer) : reply :=
  match r with
  | Some a => Replied (an_Status a)
  | None => Undelivered "stopped after 10 redirects"
  end.

Lemma client_Do_bound (hops : nat) (resolve : string → string → string) (endpoint : wire → answer) (q : wire) :
  (1 ≤ length (client_Do hops resolve endpoint q).2 ≤ S hops)%nat.
Proof.
  revert q. induction hops as [|hops IH]; intros q; simpl; destruct (follow _ _ _) as [q'|]; simpl; try lia.
  specialize (IH q'). destruct (client_Do hops resolve endpoint q') as [r sent]. simpl in *. lia.
Qed.

(** An endpoint that does not redirect gets one request, and its status is the reply. *)
Lemma Do_direct (resolve : string → string → string) (endpoint : wire → answer) (q : wire) :
  an_Status (endpoint q) ∉ [301; 302; 303; 307; 308] →
  Do resolve endpoint q = (Some (endpoint q), [q]).
Proof.
  intros Hs. unfold Do, maxRedirects. simpl.
  assert (Hf : follow resolve q (endpoint q) = None).
  { unfold follow. case_decide; [done|].
    rewrite !bool_decide_eq_false_2; [done|intros Hin; apply Hs; set_solver..]. }
  by rewrite Hf.
Qed.

(** Whatever the endpoint says, an event is posted in full at least once, and only requests
    that carry it whole or carry nothing are sent. *)
Lemma Do_bodies (hops : nat) (resolve : string → string → string) (endpoint : wire → answer) (q q' : wire) :
  q' ∈ (client_Do hops resolve endpoint q).2 →
  wr_Body q' = wr_Body q ∧ wr_Method q' = wr_Method q ∨ wr_Body q' = "" ∧ wr_Method q' ∈ ["GET"; "HEAD"].
Proof.
  revert q. induction hops as [|hops IH]; intros q; simpl.
  - destruct (follow _ _ _); intros ->%list_elem_of_singleton; auto.
  - destruct (follow resolve q (endpoint q)) as [q1|] eqn:Hf; [|intros ->%list_elem_of_singleton; auto].
    specialize (IH q1). destruct (client_Do hops resolve endpoint q1) as [r sent]. simpl in *.
    intros [->|Hin]%elem_of_cons; [auto|]. apply IH in Hin. unfold follow in Hf.
    repeat (case_decide || case_bool_decide); simplify_eq/=; set_solver.
Qed.

(** ** [send] with what it reports, and the attempts of a delivery *)

(** The label of the histogram and the outcome. *)
Definition send_observed (r : result string Z) : string * option err :=
  match r with
  | Err text => ("error", Some (Apperr.Wrap Unavailable (ENew text) "webhook delivery failed"))
  | Ok status => (resultOf (classify status), classify status)
  end.

Lemma send_observed_send (r : result string Z) :
  (send_observed r).2 = send (match r with Ok s => Replied s | Err t => Undelivered t end).
Proof. by destruct r. Qed.

(** [observe]; [obs] is whether there is an observer. *)
Definition observe (obs : bool) (result : string) (log : list (string * string)) : list (string * string) :=
  if obs then log ++ [(target, result)] else log.

(** The closure of [deliver], called again and again: what it reported, and the retries it
    counted. *)
Fixpoint attempts (obs : bool) (done : nat) (answers : list (result string Z))
  (log : list (string * string)) (retries : Z) : list (string * string) * Z :=
  match answers with
  | [] => (log, retries)
  | r :: answers =>
      let retries := if (0 <? done)%nat && obs then retries + 1 else retries in
      attempts obs (S done) answers (observe obs (send_observed r).1 log) retries
  end.

Lemma attempts_from (done : nat) (answers : list (result string Z)) (log : list (string * string)) (retries : Z) :
  attempts true done answers log retries
  = (log ++ ((λ r, (target, (send_observed r).1)) <$> answers),
     retries + Z.of_nat (length answers) - (if (0 <? done)%nat then 0 else Z.min 1 (Z.of_nat (length answers)))).
Proof.
  revert done log retries. induction answers as [|r answers IH]; intros done log retries; simpl.
  - rewrite app_nil_r. f_equal. destruct (0 <? done)%nat; lia.
  - rewrite IH. rewrite <- app_assoc. f_equal. rewrite andb_true_r.
    destruct (0 <? done)%nat eqn:Hd; change (0 <? S done)%nat with true; cbv iota; lia.
Qed.

(** Every attempt is timed once, under one of four labels, and every one but the first is
    counted as a retry. *)
Lemma attempts_counted (answers : list (result string Z)) :
  let '(log, retries) := attempts true 0 answers [] 0 in
  length log = length answers ∧ retries = Z.max 0 (Z.of_nat (length answers) - 1)
  ∧ ∀ t l, (t, l) ∈ log → t = target ∧ l ∈ ["success"; "rejected"; "failure"; "error"].
Proof.
  rewrite attempts_from. simpl. split; [by rewrite length_fmap|]. split; [lia|].
  intros t l (r & [= -> ->] & _)%list_elem_of_fmap. split; [done|].
  destruct r as [s|x]; simpl; [|set_solver]. unfold resultOf. repeat case_match; set_solver.
Qed.

(** An endpoint that moved answers the event with a redirect to a page that is there: the
    event was refused, a GET without it was answered, and the job succeeds. *)
Definition moved (q : wire) : answer :=
  if decide (wr_Method q = "POST") then mkAnswer 302 "https://hooks.example/login" else mkAnswer 200 "".

Example redirect_counts_as_delivered :
  let '(r, sent) := Do (λ _ l, l) moved (mkWire "POST" "https://hooks.example/in" "event") in
  sent = [mkWire "POST" "https://hooks.example/in" "event"; mkWire "GET" "https://hooks.example/login" ""]
  ∧ send (reply_of r) = None.
Proof. vm_compute. done. Qed.

(** A redirect of an endpoint that keeps redirecting is a failure, after ten requests. *)
Example redirect_loop :
  let '(r, sent) := Do (λ _ l, l) (λ _, mkAnswer 307 "https://hooks.example/in")
                      (mkWire "POST" "https://hooks.example/in" "event") in
  length sent = 10%nat ∧ IsDependencyFailure (send (reply_of r)) = true.
Proof. vm_compute. done. Qed.
