(* ===== verification/Delivery.v ===== *)
(** * From a committed change to the endpoint

    The whole path of an event: API replicas commit changes with their events
    ([OutboxProps]), workers claim the jobs ([JobStore]), deliver them over HTTP
    ([Webhook]) and record what came of it ([Pool]), and the leader requeues, schedules
    and purges, in any interleaving, with processes dying at any point.  Two logs that
    no part of the program reads say what happened: the events committed, and the
    requests sent with what the sender made of the answers. *)
From stdpp Require Import options.
From S2P Require Import Prelude GoStrings GoDuration GoFloat Apperr ConfigBase ConfigSections.
From S2P Require Import Task Outbox OutboxProps JobStore JobFacts JobProps Backoff Pool PoolProps Http Webhook.
From S2P Require UuidInstance Backends PgRepo TaskService ConfigProps.
Open Scope Z_scope.

Section delivery.
Context `{GoText, FloatConv, UuidPkg} `{!EventJson, !Guard}.
(** The queue's configuration and the address events are delivered to. *)
Context (cfg : Queue) (url : string).

Definition request_log : Type := list (OutRequest * verdict).

(** [d_hand] are the jobs claimed and not yet run, with their worker; [d_done] those
    whose handler returned and whose outcome is still to be written; [d_gone] the rows
    purged so far. *)
Record dstate : Type := mkD {
  d_used : gset uuid;
  d_world : world;
  d_events : list Outbox.Event;
  d_hand : list (string * Job);
  d_done : list (string * Job * option err);
  d_log : request_log;
  d_gone : gmap Z Row;
}.

Definition jobs_of (s : dstate) : table := pg_jobs (w_db (d_world s)).

(** Every row there ever was. *)
Definition history (s : dstate) : gmap Z Row := rows (jobs_of s) ∪ d_gone s.

(** What the task table says was committed, by the tasks before and after. *)
Definition committed (o : change_op) (before after_ : gmap uuid Task) : list Outbox.Event :=
  if decide (before !! op_id o = after_ !! op_id o) then []
  else match after_ !! op_id o, before !! op_id o with
       | Some t, _ | None, Some t => [eventFor (op_event o) t]
       | None, None => []
       end.

(** The table after a statement; what it deleted is remembered. *)
Definition set_jobs (t : table) (s : dstate) : dstate :=
  mkD (d_used s) (with_jobs (λ _, t) (d_world s)) (d_events s) (d_hand s) (d_done s) (d_log s)
    (d_gone s ∪ (rows (jobs_of s) ∖ rows t)).

Definition set_work (hand : list (string * Job)) (done_ : list (string * Job * option err))
  (sent : request_log) (s : dstate) : dstate :=
  mkD (d_used s) (d_world s) (d_events s) hand done_ (sent ++ d_log s) (d_gone s).

(** [newQueue]: the one handler of the pool. *)
Definition handlers (w : Options) (remote : nat → reply) : Handlers :=
  {[ JobKind := λ j, HReturn (Handle w None j remote).1.1 ]}.

(** The requests of a delivery, with what came of each. *)
Definition sent (w : Options) (j : Job) (remote : nat → reply) : request_log :=
  imap (λ k q, (q, verdict_of (remote k))) (Handle w None j remote).1.2.

(** The statements of heartbeats, shutdowns and the leader's sweeps. *)
Definition sweeping (o : jop) : bool :=
  match o with
  | JHeartbeat _ _ _ _ _ | JRelease _ _ _ | JSchedule _ _ | JPurge _ _ _ _ _ => true
  | JReap _ _ cap _ => cap =? Q_MaxAttempts cfg
  | _ => false
  end.

Inductive dstep : dstate → dstate → Prop :=
  | ds_change io o now s w :
      creates o ## d_used s → w = (change_task io o now (d_world s)).2 →
      dstep s (mkD (creates o ∪ d_used s) w
                 (committed o (pg_tasks (w_db (d_world s))) (pg_tasks (w_db w)) ++ d_events s)
                 (d_hand s) (d_done s) (d_log s) (d_gone s))
  | ds_sweep o s : sweeping o = true → dstep s (set_jobs (apply o (jobs_of s)) s)
  | ds_claim io w batch lease now locked r t s :
      Claim io w batch lease now locked (jobs_of s) = (r, t) →
      dstep s (set_work (((λ j, (w, j)) <$> match r with Ok js => js | Err _ => [] end) ++ d_hand s)
                 (d_done s) [] (set_jobs t s))
  | ds_handle w j o remote l1 l2 s :
      d_hand s = l1 ++ (w, j) :: l2 → wo_URL o = url →
      dstep s (set_work (l1 ++ l2) ((w, j, invoke (handlers o remote) j) :: d_done s)
                 (sent o j remote) s)
  (* the handler panics, or the process dies, after some of the attempts *)
  | ds_panic w j o remote n v l1 l2 s :
      d_hand s = l1 ++ (w, j) :: l2 → wo_URL o = url →
      dstep s (set_work (l1 ++ l2) ((w, j, invoke {[ JobKind := λ _, HPanic v ]} j) :: d_done s)
                 (take n (sent o j remote)) s)
  | ds_cut w j o remote n l1 l2 s :
      d_hand s = l1 ++ (w, j) :: l2 → wo_URL o = url →
      dstep s (set_work (l1 ++ l2) (d_done s) (take n (sent o j remote)) s)
  | ds_lose hand done_ s :
      hand ⊆ d_hand s → done_ ⊆ d_done s → dstep s (set_work hand done_ [] s)
  | ds_finish w j told io draw now l1 l2 s :
      d_done s = l1 ++ (w, j, told) :: l2 →
      dstep s (set_work (d_hand s) (l1 ++ l2) []
                 (set_jobs (finish io cfg w j told draw now (jobs_of s)).2 s)).

Definition d_empty : dstate := mkD ∅ (mkWorld (mkPg ∅ empty_table) []) [] [] [] [] ∅.

(** ** The invariant *)

(** A request of this event, on behalf of this job, was sent and answered so. *)
Definition heard (log : request_log) (id : Z) (e : Outbox.Event) (v : verdict) : Prop :=
  ∃ j, job_ID j = id ∧ (job_request url j e, v) ∈ log.

(** What the log owes to a row that is settled. *)
Definition settled (log : request_log) (id : Z) (r : Row) (e : Outbox.Event) : Prop :=
  match state r with
  | StateSucceeded => heard log id e Accepted
  | StateCancelled => heard log id e Rejected
  | StateDiscarded => Z.min (max_attempts r) (Q_MaxAttempts cfg) ≤ attempt r
  | _ => True
  end.

Definition row_good (s : dstate) (id : Z) (r : Row) : Prop :=
  kind r = JobKind
  ∧ ∃ e, e ∈ d_events s ∧ payload r = event_json e ∧ settled (d_log s) id r e.

(** What a job in hand says is what its row says. *)
Definition known (s : dstate) (j : Job) (e : Outbox.Event) : Prop :=
  ∃ r, history s !! job_ID j = Some r ∧ e ∈ d_events s ∧ payload r = event_json e
       ∧ job_Kind j = JobKind ∧ job_Payload j = event_json e ∧ job_MaxAttempts j = max_attempts r.

(** What a handler's result owes to the log. *)
Definition owed (log : request_log) (j : Job) (e : Outbox.Event) (told : option err) : Prop :=
  match told with
  | None => heard log (job_ID j) e Accepted
  | Some _ =>
      snooze_of told = None → retryable told = false → heard log (job_ID j) e Rejected
  end.

(** The event of a stored task's last change. *)
Definition announced (t : Task) (es : list Outbox.Event) : Prop :=
  eventFor EventCreated t ∈ es ∨ eventFor EventUpdated t ∈ es.

Record dinv (s : dstate) : Prop := {
  di_outbox : outbox_ok (d_used s, d_world s);
  di_gone id r : d_gone s !! id = Some r →
    id < next_id (jobs_of s) ∧ rows (jobs_of s) !! id = None ∧ live (state r) = false;
  di_rows id r : history s !! id = Some r → row_good s id r;
  di_events e : e ∈ d_events s → ∃ id r, history s !! id = Some r ∧ payload r = event_json e;
  di_hand w j : (w, j) ∈ d_hand s → ∃ e, known s j e;
  di_done w j told : (w, j, told) ∈ d_done s → ∃ e, known s j e ∧ owed (d_log s) j e told;
  di_log q v : (q, v) ∈ d_log s → ∃ j e, e ∈ d_events s ∧ q = job_request url j e;
  di_tasks id t : pg_tasks (w_db (d_world s)) !! id = Some t → announced t (d_events s);
}.

(** ** Rows through a statement *)

Lemma history_Some (s : dstate) (id : Z) (r : Row) :
  rows (jobs_of s) !! id = Some r → history s !! id = Some r.
Proof. intros Hr. unfold history. by apply lookup_union_Some_l. Qed.

Lemma history_set_jobs (t : table) (s : dstate) (id : Z) :
  history (set_jobs t s) !! id
  = match rows t !! id with
    | Some r => Some r
    | None => match d_gone s !! id with Some r => Some r | None => rows (jobs_of s) !! id end
    end.
Proof.
  unfold history. change (jobs_of (set_jobs t s)) with t.
  change (d_gone (set_jobs t s)) with (d_gone s ∪ (rows (jobs_of s) ∖ rows t)).
  rewrite !lookup_union, lookup_difference.
  by destruct (rows t !! id), (d_gone s !! id), (rows (jobs_of s) !! id).
Qed.

(** Every row goes through one transition, purged rows through none, and no row appears. *)
Lemma history_stmt (s : dstate) (o : jop) (id : Z) :
  dinv s → (∀ k p u m now, o ≠ JEnqueue k p u m now) →
  match history s !! id with
  | Some r => ∃ r', history (set_jobs (apply o (jobs_of s)) s) !! id = Some r' ∧ change id r o (Some r')
  | None => history (set_jobs (apply o (jobs_of s)) s) !! id = None
  end.
Proof.
  intros Hinv Ho. rewrite history_set_jobs. unfold history. rewrite lookup_union.
  destruct (rows (jobs_of s) !! id) as [r|] eqn:Hr.
  - destruct (d_gone s !! id) as [g|] eqn:Hg; [apply (di_gone s Hinv) in Hg as (_ & ? & _); congruence|].
    assert (Hc : change id r o (rows (apply o (jobs_of s)) !! id))
      by exact (apply_changes o _ (proj1 (di_outbox s Hinv)) id r Hr).
    destruct (rows (apply o (jobs_of s)) !! id) as [r'|]; [by exists r'|].
    exists r. split; [done|constructor].
  - destruct (rows (apply o (jobs_of s)) !! id) as [r'|] eqn:Hr'.
    { destruct (apply_fresh _ _ _ _ Hr Hr') as (_ & k & p & u & m & now & -> & _). by edestruct Ho. }
    destruct (d_gone s !! id) as [g|]; [|done]. exists g. split; [done|constructor].
Qed.

(** What backs a statement that settles a row. *)
Definition backed (s : dstate) (o : jop) : Prop :=
  match o with
  | JEnqueue _ _ _ _ _ => False
  | JSucceed _ _ j _ => ∃ e, known s j e ∧ heard (d_log s) (job_ID j) e Accepted
  | JCancel _ _ j _ _ => ∃ e, known s j e ∧ heard (d_log s) (job_ID j) e Rejected
  | JDiscard _ _ j _ _ =>
      ∃ e, known s j e ∧ Z.min (job_MaxAttempts j) (Q_MaxAttempts cfg) ≤ job_Attempt j
  | JReap _ _ cap _ => cap = Q_MaxAttempts cfg
  | _ => True
  end.

Lemma row_good_change (s : dstate) (o : jop) (id : Z) (r r' : Row) :
  backed s o → history s !! id = Some r → row_good s id r → change id r o (Some r') →
  row_good s id r'.
Proof.
  intros Hb Hr (Hk & e & He & Hp & Hs) Hc.
  pose proof (change_frozen id r r' o Hc) as (Hk' & Hp' & _).
  split; [congruence|]. rewrite Hp'. revert Hs.
  inversion Hc; subst; simpl in Hb; intros Hs; try (by exists e).
  1-3: (destruct Hb as (e' & (r0 & Hr0 & He' & Hpe & _ & _ & Hm) & Hh);
        match goal with Hg : guarded _ _ _ _ = true |- _ => apply guarded_spec in Hg as (-> & _ & _ & Ha) end;
        rewrite Hr in Hr0; injection Hr0 as <-; exists e'; split_and!; [done..|]).
  - exact Hh.
  - exact Hh.
  - unfold settled. simpl. lia.
  - exists e. split_and!; [done..|]. unfold settled.
    destruct (reap_state d c now r) as [[-> Hm]|[-> _]]; [rewrite Hb in Hm; exact Hm|done].
Qed.

(** ** The log only grows, and with it what it backs *)

Lemma heard_mono (log log' : request_log) (id : Z) (e : Outbox.Event) (v : verdict) :
  log ⊆ log' → heard log id e v → heard log' id e v.
Proof. intros Hl (j & Hj & Hin). exists j. split; [done|]. by apply Hl. Qed.

Lemma settled_mono (log log' : request_log) (id : Z) (r : Row) (e : Outbox.Event) :
  log ⊆ log' → settled log id r e → settled log' id r e.
Proof. intros Hl. unfold settled. destruct (state r); eauto using heard_mono. Qed.

Lemma owed_mono (log log' : request_log) (j : Job) (e : Outbox.Event) (told : option err) :
  log ⊆ log' → owed log j e told → owed log' j e told.
Proof. intros Hl. unfold owed. destruct told; eauto using heard_mono. Qed.

(** Steps of the workers: nothing but the hands, the results and the log changes. *)
Lemma dinv_work (s : dstate) (hand : list (string * Job)) (done_ : list (string * Job * option err))
  (new : request_log) :
  dinv s →
  (∀ q v, (q, v) ∈ new → ∃ j e, e ∈ d_events s ∧ q = job_request url j e) →
  (∀ w j, (w, j) ∈ hand → ∃ e, known s j e) →
  (∀ w j told, (w, j, told) ∈ done_ →
    ∃ e, known s j e ∧ (owed (d_log s) j e told ∨ owed new j e told)) →
  dinv (set_work hand done_ new s).
Proof.
  intros [Hob Hg Hrows Hev _ _ Hlog Hts] Hnew Hh Hd.
  split; [exact Hob|exact Hg| |exact Hev|exact Hh| | |exact Hts].
  - intros id r (Hk & e & He & Hp & Hs)%Hrows. split; [done|]. exists e. split_and!; [done..|].
    eapply settled_mono, Hs. simpl. set_solver.
  - intros w j told (e & Hj & Ho)%Hd. exists e. split; [done|].
    destruct Ho as [Ho|Ho]; (eapply owed_mono, Ho); simpl; set_solver.
  - intros q v [Hq|Hq]%elem_of_app; eauto.
Qed.

(** ** Statements *)

Lemma backed_inserts (s : dstate) (o : jop) :
  backed s o → ∀ k p u m now, o ≠ JEnqueue k p u m now.
Proof. by intros Hb k p u m now ->. Qed.

(** A purge takes only rows that are settled. *)
Lemma purged_settled (o : jop) (t : table) (id : Z) (r : Row) :
  ids_ok t → rows t !! id = Some r → rows (apply o t) !! id = None → live (state r) = false.
Proof.
  intros Hids Hr Hn. pose proof (apply_changes o t Hids id r Hr) as Hc. rewrite Hn in Hc.
  inversion Hc as [| | | | | | | | | | |io su di now scan Hp]; subst.
  apply purgeable_spec in Hp as (f & _ & Hs). by destruct Hs as [[-> _]|[[->| ->] _]].
Qed.

Lemma known_stmt (s : dstate) (o : jop) (j : Job) (e : Outbox.Event) :
  dinv s → backed s o → known s j e → known (set_jobs (apply o (jobs_of s)) s) j e.
Proof.
  intros Hinv Hb (r & Hr & He & Hp & Hj). pose proof (history_stmt s o (job_ID j) Hinv (backed_inserts s o Hb)) as Hh.
  rewrite Hr in Hh. destruct Hh as (r' & Hr' & Hc). apply change_frozen in Hc as (_ & Hp' & _ & Hm & _).
  exists r'. split; [done|]. by rewrite Hp', Hm.
Qed.

Lemma dinv_stmt (s : dstate) (o : jop) :
  dinv s → backed s o → dinv (set_jobs (apply o (jobs_of s)) s).
Proof.
  intros Hinv Hb. pose proof (backed_inserts s o Hb) as Ho.
  assert (Hh := λ id, history_stmt s o id Hinv Ho). pose proof Hinv as [Hob Hg Hrows Hev Hhand Hdone Hlog Hts].
  split; simpl.
  - exact (outbox_ok_jobs o (d_used s) (d_world s) Ho Hob).
  - change (jobs_of (set_jobs (apply o (jobs_of s)) s)) with (apply o (jobs_of s)).
    intros id r Hin. pose proof (apply_next_id o (jobs_of s)) as Hn.
    apply lookup_union_Some_raw in Hin as [Hin|[_ [Hr Hr']%lookup_difference_Some]].
    + destruct (Hg id r Hin) as (Hlt & Hnone & Hl). split_and!; [lia| |done].
      destruct (rows (apply o (jobs_of s)) !! id) as [r'|] eqn:Hr'; [|done].
      destruct (apply_fresh _ _ _ _ Hnone Hr') as (_ & k & p & u & m & now & -> & _). done.
    + split_and!; [|done|by eapply purged_settled; [apply Hob|..]].
      pose proof (proj1 Hob id r Hr). simpl in *. unfold jobs_of in *. lia.
  - intros id r' Hr'. specialize (Hh id). destruct (history s !! id) as [r|] eqn:Hr; [|congruence].
    destruct Hh as (r0 & Hr0 & Hc). rewrite Hr' in Hr0. injection Hr0 as <-.
    exact (row_good_change s o id r r' Hb Hr (Hrows id r Hr) Hc).
  - intros e (id & r & Hr & Hp)%Hev. specialize (Hh id). rewrite Hr in Hh.
    destruct Hh as (r' & Hr' & Hc). apply change_frozen in Hc as (_ & Hp' & _).
    exists id, r'. by rewrite Hp'.
  - intros w j (e & Hj)%Hhand. exists e. by apply known_stmt.
  - intros w j told (e & Hj & Hw)%Hdone. exists e. split; [by apply known_stmt|done].
  - exact Hlog.
  - exact Hts.
Qed.

(** ** Claims and outcomes *)

(** Recording an outcome is backed by what the handler was told. *)
Lemma finish_backed (s : dstate) (io : db) (w : string) (j : Job) (e : Outbox.Event)
  (told : option err) (draw now : Z) :
  known s j e → owed (d_log s) j e told →
  backed s (completion_op (chosen cfg j told draw).2 io w j now).
Proof.
  intros Hj Ho. unfold chosen. destruct told as [x|]; [|by exists e].
  unfold owed in Ho. destruct (snooze_of (Some x)) as [d|]; [done|].
  destruct (retryable (Some x)); simpl.
  - destruct (maxAttempts cfg j <=? job_Attempt j) eqn:Hm; [|done]. exists e. split; [done|].
    revert Hm. unfold maxAttempts. case_match; split_all; zbool; intros; lia.
  - exists e. split; [done|]. by apply Ho.
Qed.

Lemma dinv_finish (s : dstate) (w : string) (j : Job) (told : option err) (io : db) (draw now : Z)
  (l1 l2 : list (string * Job * option err)) :
  dinv s → d_done s = l1 ++ (w, j, told) :: l2 →
  dinv (set_work (d_hand s) (l1 ++ l2) []
          (set_jobs (finish io cfg w j told draw now (jobs_of s)).2 s)).
Proof.
  intros Hinv Hl. destruct (di_done s Hinv w j told) as (e & Hj & Ho); [rewrite Hl; set_solver|].
  rewrite finish_op.
  pose proof (dinv_stmt s _ Hinv (finish_backed s io w j e told draw now Hj Ho)) as Hinv'.
  apply dinv_work; [done| | |].
  - by intros q v ?%elem_of_nil.
  - exact (di_hand _ Hinv').
  - intros w' j' told' Hin. destruct (di_done _ Hinv' w' j' told') as (e' & Hj' & Ho'); [|eauto].
    change (d_done (set_jobs _ s)) with (d_done s). rewrite Hl. set_solver.
Qed.

Lemma claimed_job (io : db) (w : string) (batch lease now : Z) (locked : picks)
  (t t' : table) (js : list Job) (j : Job) :
  Claim io w batch lease now locked t = (Ok js, t') → j ∈ js →
  ∃ r, rows t !! job_ID j = Some r ∧ job_Kind j = kind r ∧ job_Payload j = payload r
       ∧ job_MaxAttempts j = max_attempts r.
Proof.
  unfold Claim, call. destruct (batch <? 0); [done|]. destruct io as [|x applied]; [|done].
  intros [= <- _] Hin. change (j ∈ (claimSQL w batch lease now locked t).1) in Hin.
  apply elem_of_claimed in Hin as (id & r & -> & Hin). exists r.
  split; [|done]. by apply claim_rows_spec in Hin as [? _].
Qed.

Lemma dinv_claim (s : dstate) (io : db) (w : string) (batch lease now : Z) (locked : picks)
  (r : result err (list Job)) (t : table) :
  dinv s → Claim io w batch lease now locked (jobs_of s) = (r, t) →
  dinv (set_work (((λ j, (w, j)) <$> match r with Ok js => js | Err _ => [] end) ++ d_hand s)
          (d_done s) [] (set_jobs t s)).
Proof.
  intros Hinv Hc.
  assert (t = apply (JClaim io w batch lease now locked) (jobs_of s)) as -> by (simpl; by rewrite Hc).
  pose proof (dinv_stmt s (JClaim io w batch lease now locked) Hinv I) as Hinv'.
  apply dinv_work; [done| | |].
  - by intros q v ?%elem_of_nil.
  - intros w' j0 [Hin|Hin]%elem_of_app; [|by apply (di_hand _ Hinv' w')].
    apply list_elem_of_fmap in Hin as (j & [= -> ->] & Hin).
    destruct r as [js|x]; [|by apply elem_of_nil in Hin].
    destruct (claimed_job _ _ _ _ _ _ _ _ _ _ Hc Hin) as (q & Hq%history_Some & Hk & Hp & Hm).
    destruct (di_rows s Hinv _ _ Hq) as (Hkind & e & He & Hpe & _). exists e.
    apply (known_stmt s (JClaim io w batch lease now locked) j e Hinv I).
    exists q. by rewrite Hk, Hp.
  - intros w' j told Hin. destruct (di_done _ Hinv' w' j told Hin) as (e & ? & ?). eauto.
Qed.

(** ** Changes *)

(** The task table shows the change a transaction published. *)
Lemma committed_published (io : PgRepo.txio) (o : change_op) (used : gset uuid) (ts ts' : gmap uuid Task)
  (t : Task) :
  map_Forall (λ id t, ID t = id ∧ id ∈ used) ts → creates o ## used →
  op_fn io o ts = (Ok t, ts') → committed o ts ts' = [eventFor (op_event o) t].
Proof.
  intros Hts Hc Hfn.
  assert (Hk : map_Forall (λ id t, ID t = id) ts)
    by (eapply map_Forall_impl; [exact Hts|by intros ? ? []]).
  pose proof (op_fn_id io o ts ts' t Hk Hfn) as Hid. apply op_fn_ok in Hfn as [-> Hop]; [|done].
  unfold committed. rewrite <- Hid. destruct o as [t0|t0 v|id]; simpl in *.
  - rewrite lookup_insert_eq, decide_False; [done|]. intros Heq.
    apply Hts in Heq as [_ Hin]. apply (Hc (ID t)); [|done]. rewrite Hid. set_solver.
  - rewrite lookup_insert_eq. destruct Hop as (x & -> & Hv). rewrite decide_False; [done|].
    intros [= ->]. lia.
  - destruct Hop as [Hx _]. rewrite Hid, lookup_delete_eq, Hx. by rewrite decide_False.
Qed.

Lemma committed_same (o : change_op) (ts : gmap uuid Task) : committed o ts ts = [].
Proof. unfold committed. by rewrite decide_True. Qed.

(** More events and more rows, each of them the other's. *)
Definition grows (s s' : dstate) (new : list Outbox.Event) : Prop :=
  d_events s' = new ++ d_events s ∧ d_gone s' = d_gone s
  ∧ next_id (jobs_of s) ≤ next_id (jobs_of s') ∧ rows (jobs_of s) ⊆ rows (jobs_of s')
  ∧ (∀ id r, rows (jobs_of s') !! id = Some r → rows (jobs_of s) !! id = None →
      next_id (jobs_of s) ≤ id ∧ kind r = JobKind ∧ state r = StateAvailable
      ∧ ∃ e, e ∈ new ∧ payload r = event_json e)
  ∧ (∀ e, e ∈ new → ∃ id r, rows (jobs_of s') !! id = Some r ∧ payload r = event_json e).

Lemma history_grows (s s' : dstate) (new : list Outbox.Event) (id : Z) (r : Row) :
  dinv s → grows s s' new → history s !! id = Some r → history s' !! id = Some r.
Proof.
  intros Hinv (_ & Hgone & _ & Hsub & Hfresh & _) Hr. unfold history in *. rewrite Hgone.
  apply lookup_union_Some_raw in Hr as [Hr|[Hr Hgr]].
  - apply lookup_union_Some_l. exact (lookup_weaken _ _ _ _ Hr Hsub).
  - apply lookup_union_Some_raw. right. split; [|done].
    destruct (rows (jobs_of s') !! id) as [r'|] eqn:Hr'; [|done].
    destruct (Hfresh id r' Hr' Hr) as [Hid _]. apply (di_gone s Hinv) in Hgr as [Hlt _]. lia.
Qed.

Lemma known_grows (s s' : dstate) (new : list Outbox.Event) (j : Job) (e : Outbox.Event) :
  dinv s → grows s s' new → known s j e → known s' j e.
Proof.
  intros Hinv Hg (r & Hr & He & Hrest). exists r. split; [by eapply history_grows|].
  split; [|done]. destruct Hg as [-> _]. set_solver.
Qed.

(** A row of the grown state is an old one or a new event's. *)
Lemma rows_grow (s s' : dstate) (new : list Outbox.Event) (id : Z) (r : Row) :
  dinv s → grows s s' new → d_log s' = d_log s → history s' !! id = Some r → row_good s' id r.
Proof.
  intros Hinv Hgr Hlog Hr. pose proof Hgr as (Hev & Hgone & _ & _ & Hfresh & _).
  destruct (history s !! id) as [r0|] eqn:Hr0.
  - pose proof (history_grows s s' new id r0 Hinv Hgr Hr0) as Hr'. rewrite Hr in Hr'. injection Hr' as <-.
    destruct (di_rows s Hinv id r Hr0) as (Hk & e & He & Hrest). split; [done|]. exists e.
    rewrite Hev, Hlog. split; [set_solver|done].
  - apply lookup_union_None in Hr0 as [Hn Hg]. unfold history in Hr. rewrite Hgone in Hr.
    apply lookup_union_Some_raw in Hr as [Hr|[_ Hr]]; [|congruence].
    destruct (Hfresh id r Hr Hn) as (_ & Hk & Hs & e & He & Hp). split; [done|]. exists e.
    rewrite Hev. split_and!; [set_solver|done|]. unfold settled. by rewrite Hs.
Qed.

Lemma dinv_grows (s s' : dstate) (new : list Outbox.Event) :
  dinv s → grows s s' new → outbox_ok (d_used s', d_world s') →
  (∀ id t, pg_tasks (w_db (d_world s')) !! id = Some t → announced t (d_events s')) →
  d_hand s' = d_hand s → d_done s' = d_done s → d_log s' = d_log s → dinv s'.
Proof.
  intros Hinv Hgr Hob Hts Hhand Hdone Hlog. pose proof Hgr as (Hev & Hgone & Hn & _ & Hfresh & Hnew).
  pose proof (λ j e, known_grows s s' new j e Hinv Hgr) as Hknown. split; rewrite ?Hhand, ?Hdone, ?Hlog.
  - exact Hob.
  - intros id r Hin. rewrite Hgone in Hin. destruct (di_gone s Hinv id r Hin) as (Hlt & Hnone & Hl).
    split_and!; [lia| |done]. destruct (rows (jobs_of s') !! id) as [r'|] eqn:Hr'; [|done].
    destruct (Hfresh id r' Hr' Hnone) as [Hid _]. lia.
  - intros id r Hr. by eapply rows_grow.
  - intros e He. rewrite Hev in He. apply elem_of_app in He as [He|He].
    + destruct (Hnew e He) as (id & r & Hr%history_Some & Hp). eauto.
    + destruct (di_events s Hinv e He) as (id & r & Hr & Hp). exists id, r.
      split; [by eapply history_grows|done].
  - intros w j (e & Hj)%(di_hand s Hinv). eauto.
  - intros w j told (e & Hj & Ho)%(di_done s Hinv). eauto.
  - intros q v (j & e & He & Hq)%(di_log s Hinv). exists j, e. rewrite Hev. split; [set_solver|done].
  - exact Hts.
Qed.

Section changes.
Context `{ulaws : !UuidLaws, utext : !UuidText}.

(** What a change leaves stored has its event among the committed ones. *)
Lemma tasks_announced (s : dstate) (io : PgRepo.txio) (o : change_op) (now : Z) (w : world)
  (r : result err Task) (id : uuid) (t : Task) :
  dinv s → creates o ## d_used s → change_task io o now (d_world s) = (r, w) →
  pg_tasks (w_db w) !! id = Some t →
  announced t (committed o (pg_tasks (w_db (d_world s))) (pg_tasks (w_db w)) ++ d_events s).
Proof using ulaws utext.
  intros Hinv Hc Hch Ht. pose proof (di_outbox s Hinv) as Hob.
  assert (Hold : pg_tasks (w_db (d_world s)) !! id = Some t →
    ∀ new, announced t (new ++ d_events s)).
  { intros Hin%(di_tasks s Hinv) new. unfold announced in *. set_solver. }
  destruct (change_task_spec io o now (d_used s) (d_world s) w r Hob Hc Hch)
    as [_ [(t' & [Hts _] & Hfn & _)|[_ [Hts _]]]]; [|rewrite Hts in Ht; by apply Hold].
  erewrite committed_published; [|exact (proj1 (proj2 Hob))|exact Hc|exact Hfn].
  rewrite Hts in Ht. destruct o as [t0|t0 v|id0]; simpl in Ht.
  - apply lookup_insert_Some in Ht as [[_ <-]|[_ Ht]]; [left; simpl; set_solver|by apply Hold].
  - apply lookup_insert_Some in Ht as [[_ <-]|[_ Ht]]; [right; simpl; set_solver|by apply Hold].
  - apply lookup_delete_Some in Ht as [_ Ht]. by apply Hold.
Qed.

Lemma dinv_change (io : PgRepo.txio) (o : change_op) (now : Z) (s : dstate) (w : world) :
  dinv s → creates o ## d_used s → w = (change_task io o now (d_world s)).2 →
  dinv (mkD (creates o ∪ d_used s) w
          (committed o (pg_tasks (w_db (d_world s))) (pg_tasks (w_db w)) ++ d_events s)
          (d_hand s) (d_done s) (d_log s) (d_gone s)).
Proof using ulaws utext.
  intros Hinv Hc ->. pose proof (di_outbox s Hinv) as Hob.
  pose proof (change_task_next io o now (d_used s) (d_world s) Hob Hc) as Hn.
  destruct (change_task io o now (d_world s)) as [r w] eqn:Hch. simpl in *.
  destruct (change_task_spec io o now (d_used s) (d_world s) w r Hob Hc Hch) as [Hob' Hcase].
  apply (dinv_grows s _ (committed o (pg_tasks (w_db (d_world s))) (pg_tasks (w_db w))));
    [exact Hinv| |exact Hob'| |done..]; cycle 1.
  { intros id t Ht. exact (tasks_announced s io o now w r id t Hinv Hc Hch Ht). }
  destruct Hcase as [(t & [_ Hrows] & Hfn & _)|[_ [Hts Hrows]]].
  - erewrite committed_published; [|exact (proj1 (proj2 Hob))|exact Hc|exact Hfn].
    split_and!; [done|done|exact Hn| | |]; unfold jobs_of; simpl; rewrite Hrows.
    + apply insert_subseteq. apply eq_None_not_Some. intros (q & Hq%(proj1 Hob)). simpl in Hq. lia.
    + intros id q Hq Hnone. apply lookup_insert_Some in Hq as [[<- <-]|[_ Hq]]; [|congruence].
      split_and!; [done..|]. eexists. split; [apply list_elem_of_here|done].
    + intros e ->%list_elem_of_singleton. do 2 eexists. split; [apply lookup_insert_eq|done].
  - rewrite Hts, committed_same. split_and!; [done|done|exact Hn| | |]; unfold jobs_of; simpl; rewrite ?Hrows.
    + done.
    + intros; congruence.
    + by intros e ?%elem_of_nil.
Qed.

End changes.

(** ** Deliveries *)

Context (retry : WebhookRetry) `{jlaws : !EventJsonLaws, glaws : !GuardLaws retry}.
Context (url_set : url ≠ "") (attempts_set : 1 ≤ WR_MaxAttempts retry).

Lemma event_json_inj (e e' : Outbox.Event) : event_json e = event_json e' → e = e'.
Proof using jlaws.
  intros Hj. pose proof (event_unjson_json e) as He. rewrite Hj, event_unjson_json in He. by injection He.
Qed.

Lemma elem_of_sent (w : Options) (j : Job) (remote : nat → reply) (q : OutRequest) (v : verdict) :
  (q, v) ∈ sent w j remote ↔
  ∃ k, (Handle w None j remote).1.2 !! k = Some q ∧ v = verdict_of (remote k).
Proof.
  unfold sent. rewrite elem_of_lookup_imap. split.
  - intros (k & x & [= -> ->] & Hk). eauto.
  - intros (k & Hk & ->). eauto.
Qed.

(** A delivery sends its event's request, and what it tells the job it heard. *)
Lemma handle_spec (w : Options) (j : Job) (e : Outbox.Event) (remote : nat → reply) :
  wo_URL w = url → job_Payload j = event_json e →
  ∃ n, (Handle w None j remote).1.2 = replicate n (job_request url j e)
       ∧ told_of (Handle w None j remote).1.1 (last_verdict remote n).
Proof using jlaws glaws url_set attempts_set.
  intros Hu Hp. unfold Handle, Unmarshal. rewrite Hp, event_unjson_json, decide_False by (by rewrite Hu).
  simpl. rewrite Hu. destruct (wo_Guard w) as [g|] eqn:Hg.
  - destruct (deliver_guarded retry w g url j e remote Hg attempts_set) as (told & n & g' & Hd & _ & _ & Ht).
    exists n. unfold job_request in Hd. rewrite Hd. done.
  - exists 1%nat. unfold deliver. rewrite Hg. split; [done|]. apply told_send.
Qed.

Lemma sent_requests (w : Options) (j : Job) (e : Outbox.Event) (remote : nat → reply)
  (q : OutRequest) (v : verdict) :
  wo_URL w = url → job_Payload j = event_json e → (q, v) ∈ sent w j remote → q = job_request url j e.
Proof using jlaws glaws url_set attempts_set.
  intros Hu Hp Hin. destruct (handle_spec w j e remote Hu Hp) as (n & Hreq & _).
  apply elem_of_sent in Hin as (k & Hk & _). rewrite Hreq in Hk. by apply lookup_replicate in Hk as [-> _].
Qed.

(** The last verdict of a delivery is in what it adds to the log. *)
Lemma sent_last (w : Options) (j : Job) (e : Outbox.Event) (remote : nat → reply) (n : nat) (v : verdict) :
  (Handle w None j remote).1.2 = replicate n (job_request url j e) →
  last_verdict remote n = Some v → heard (sent w j remote) (job_ID j) e v.
Proof.
  intros Hreq Hv. destruct n as [|k]; [done|]. injection Hv as <-. exists j. split; [done|].
  apply elem_of_sent. exists k. split; [|done]. rewrite Hreq. apply lookup_replicate. split; [done|lia].
Qed.

Lemma invoke_one (h : Job → handler_result) (j : Job) :
  job_Kind j = JobKind →
  invoke {[ JobKind := h ]} j
  = match h j with HReturn e => e | HPanic v => Some (ENew ("handler panicked: " +:+ v)%string) end.
Proof.
  intros Hk. unfold invoke.
  assert (Hh : ({[ JobKind := h ]} : Handlers) !! job_Kind j = Some h)
    by (rewrite Hk; apply (lookup_singleton_eq (M := gmap string))).
  by rewrite Hh.
Qed.

Lemma owed_handle (w : Options) (j : Job) (e : Outbox.Event) (remote : nat → reply) :
  wo_URL w = url → job_Payload j = event_json e → job_Kind j = JobKind →
  owed (sent w j remote) j e (invoke (handlers w remote) j).
Proof using jlaws glaws url_set attempts_set.
  intros Hu Hp Hk. unfold handlers. rewrite invoke_one by done.
  destruct (handle_spec w j e remote Hu Hp) as (n & Hreq & Ht).
  unfold owed, told_of in *. destruct (Handle w None j remote).1.1 as [x|].
  - unfold snooze_of. destruct (errors_as_snooze x); [done|]. intros _ Hr. rewrite Hr in Ht.
    by eapply sent_last.
  - by eapply sent_last.
Qed.

(** A panic is retried, so it owes nothing. *)
Lemma owed_panic (j : Job) (e : Outbox.Event) (v : string) (log : request_log) :
  job_Kind j = JobKind → owed log j e (invoke {[ JobKind := λ _, HPanic v ]} j).
Proof. intros Hk. by rewrite invoke_one. Qed.

(** What a worker does with a job in hand, however much of the delivery it gets to. *)
Lemma dinv_attempt (s : dstate) (w : string) (j : Job) (o : Options) (remote : nat → reply)
  (new : request_log) (l1 l2 : list (string * Job)) (result : list (string * Job * option err)) :
  dinv s → d_hand s = l1 ++ (w, j) :: l2 → wo_URL o = url → new ⊆ sent o j remote →
  (∀ x, x ∈ result →
    ∃ told, x = (w, j, told) ∧ ∀ e, job_Payload j = event_json e → job_Kind j = JobKind → owed new j e told) →
  dinv (set_work (l1 ++ l2) (result ++ d_done s) new s).
Proof using jlaws glaws url_set attempts_set.
  intros Hinv Hl Hu Hsub Hres.
  assert (∃ e, known s j e) as (e & Hj) by (apply (di_hand s Hinv w); rewrite Hl; set_solver).
  pose proof Hj as (r & _ & He & _ & Hk & Hp & _).
  apply dinv_work; [done| | |].
  - intros q v Hq%Hsub. exists j, e. split; [done|]. by eapply sent_requests.
  - intros w' j' Hin. apply (di_hand s Hinv w'). rewrite Hl. set_solver.
  - intros w' j' told [Hin|Hin]%elem_of_app.
    + destruct (Hres _ Hin) as (told' & [= -> -> ->] & Ho). exists e. auto.
    + destruct (di_done s Hinv w' j' told Hin) as (e' & ? & ?). exists e'. auto.
Qed.

(** ** Reachable states *)

Section reachable.
Context `{ulaws : !UuidLaws, utext : !UuidText}.

Lemma sweep_backed (s : dstate) (o : jop) : sweeping o = true → backed s o.
Proof. clear. destruct o; simpl; try done. by intros ?%Z.eqb_eq. Qed.

Lemma dinv_step (s s' : dstate) : dinv s → dstep s s' → dinv s'.
Proof using jlaws glaws url_set attempts_set ulaws utext.
  intros Hinv Hstep. destruct Hstep as [io o now s w Hc Hw|o s Ho|io w batch lease now locked r t s Hc
    |w j o remote l1 l2 s Hl Hu|w j o remote n v l1 l2 s Hl Hu|w j o remote n l1 l2 s Hl Hu
    |hand done_ s Hh Hd|w j told io draw now l1 l2 s Hl].
  - by eapply dinv_change.
  - by apply dinv_stmt, sweep_backed.
  - by eapply dinv_claim.
  - eapply (dinv_attempt s w j o remote _ l1 l2 [_]); [done..|].
    intros x ->%list_elem_of_singleton. eexists. split; [done|]. intros. by apply owed_handle.
  - eapply (dinv_attempt s w j o remote _ l1 l2 [_]); [done..|apply subseteq_take|].
    intros x ->%list_elem_of_singleton. eexists. split; [done|]. intros. by apply owed_panic.
  - eapply (dinv_attempt s w j o remote _ l1 l2 []); [done..|apply subseteq_take|].
    by intros x ?%elem_of_nil.
  - apply dinv_work; [done| | |].
    + by intros q v ?%elem_of_nil.
    + intros w j Hin%Hh. by apply (di_hand s Hinv w).
    + intros w j told Hin%Hd. destruct (di_done s Hinv w j told Hin) as (e & ? & ?). eauto.
  - by eapply dinv_finish.
Qed.

Lemma dinv_empty : dinv d_empty.
Proof.
  clear. split; simpl.
  - split_and!; simpl; [apply map_Forall_empty..|]. intros id r k Hr. by rewrite lookup_empty in Hr.
  - intros id r Hr. by rewrite lookup_empty in Hr.
  - intros id r Hr. unfold history in Hr. simpl in Hr. by rewrite map_union_empty, lookup_empty in Hr.
  - by intros e ?%elem_of_nil.
  - by intros w j ?%elem_of_nil.
  - by intros w j told ?%elem_of_nil.
  - by intros q v ?%elem_of_nil.
  - intros id t Ht. by rewrite lookup_empty in Ht.
Qed.

Lemma reach_dinv (s : dstate) : rtc dstep d_empty s → dinv s.
Proof using jlaws glaws url_set attempts_set ulaws utext.
  intros Hr. eapply rtc_invariant; [intros; by eapply dinv_step|exact Hr|apply dinv_empty].
Qed.

(** ** No event is stuck *)

Lemma rows_ok_step (s s' : dstate) :
  dinv s → rows_ok (jobs_of s) → dstep s s' → rows_ok (jobs_of s').
Proof using ulaws utext.
  intros Hinv Hok Hstep. pose proof (di_outbox s Hinv) as Hob.
  destruct Hstep as [io o now s w Hc Hw|o s Ho|io w batch lease now locked r t s Hc
    |w j o remote l1 l2 s Hl Hu|w j o remote n v l1 l2 s Hl Hu|w j o remote n l1 l2 s Hl Hu
    |hand done_ s Hh Hd|w j told io draw now l1 l2 s Hl]; try exact Hok.
  - destruct (change_task io o now (d_world s)) as [r w'] eqn:Hch. simpl in Hw. subst w'.
    destruct (change_task_spec io o now (d_used s) (d_world s) w r Hob Hc Hch)
      as [_ [(t & [_ Hrows] & _)|[_ [_ Hrows]]]]; unfold rows_ok, jobs_of; simpl; rewrite Hrows; [|exact Hok].
    apply map_Forall_insert_2; [by apply insert_row_ok|exact Hok].
  - apply (apply_rows_ok o (jobs_of s)); [apply Hob|exact Hok].
  - assert (t = apply (JClaim io w batch lease now locked) (jobs_of s)) as -> by (simpl; by rewrite Hc).
    apply (apply_rows_ok _ (jobs_of s)); [apply Hob|exact Hok].
  - unfold set_work, set_jobs, jobs_of. simpl. rewrite finish_op.
    apply (apply_rows_ok _ (jobs_of s)); [apply Hob|exact Hok].
Qed.

Lemma reach_rows_ok (s : dstate) : rtc dstep d_empty s → rows_ok (jobs_of s).
Proof using jlaws glaws url_set attempts_set ulaws utext.
  intros Hr. eapply (rtc_invariant _ (λ x, dinv x ∧ rows_ok (jobs_of x))); [|exact Hr|].
  - intros x y [Hx Hok] Hs. split; [by eapply dinv_step|by eapply rows_ok_step].
  - split; [apply dinv_empty|]. apply map_Forall_empty.
Qed.

End reachable.

(** A step of the leader. *)
Lemma sweep_to (s : dstate) (o : jop) (id : Z) (r : Row) :
  sweeping o = true → rows (apply o (jobs_of s)) !! id = Some r →
  ∃ s', rtc dstep s s' ∧ rows (jobs_of s') !! id = Some r.
Proof.
  clear. intros Ho Hr. exists (set_jobs (apply o (jobs_of s)) s).
  split; [by apply rtc_once, ds_sweep|done].
Qed.

(** A live row with an attempt left can be made available. *)
Lemma to_available (s : dstate) (id : Z) (r : Row) :
  rows (jobs_of s) !! id = Some r → row_ok r → live (state r) = true →
  (state r = StateRunning → attempt r < Z.min (max_attempts r) (Q_MaxAttempts cfg)) →
  ∃ s' r', rtc dstep s s' ∧ rows (jobs_of s') !! id = Some r' ∧ state r' = StateAvailable
    ∧ payload r' = payload r.
Proof.
  clear. intros Hr Hok Hl Ha.
  assert (Hwait : ∀ s q, rows (jobs_of s) !! id = Some q →
    state q = StateRetryable ∨ state q = StateScheduled →
    ∃ s' r', rtc dstep s s' ∧ rows (jobs_of s') !! id = Some r' ∧ state r' = StateAvailable
      ∧ payload r' = payload q).
  { intros s0 q Hq Hs. destruct (sweep_to s0 (JSchedule DbOk (scheduled_at q)) id
      (set_state StateAvailable q)) as (s' & Hstep & Hr'); [done| |by exists s', (set_state StateAvailable q)].
    apply schedule_row; [done|by apply waiting_spec]. }
  destruct (state r) eqn:Hs; try done; eauto.
  - exists s, r. split; [constructor|done].
  - pose proof (ok_lease r Hok) as Hlease. rewrite Hs, bool_decide_eq_true_2 in Hlease by done.
    destruct (lease_expires_at r) as [x|] eqn:Hx; [|done].
    set (q := reap_set 0 (Q_MaxAttempts cfg) (x + 1) r).
    destruct (sweep_to s (JReap DbOk 0 (Q_MaxAttempts cfg) (x + 1)) id q) as (s1 & Hstep & Hq).
    { apply Z.eqb_refl. }
    { apply apply_reap_row; [done|]. apply lease_lapsed_spec. split; [done|]. exists x. split; [done|lia]. }
    destruct (reap_state 0 (Q_MaxAttempts cfg) (x + 1) r) as [[_ ?]|[Hsq _]]; [specialize (Ha eq_refl); lia|].
    destruct (Hwait s1 q Hq (or_introl Hsq)) as (s2 & r' & Hstep2 & Hrest).
    exists s2, r'. split; [by etransitivity|exact Hrest].
Qed.

(** A worker claims an available row. *)
Lemma to_claimed (s : dstate) (w : string) (id : Z) (r : Row) :
  rows (jobs_of s) !! id = Some r → state r = StateAvailable →
  ∃ s' r' j l1 l2, dstep s s' ∧ d_hand s' = l1 ++ (w, j) :: l2 ∧ job_ID j = id
    ∧ job_Payload j = payload r ∧ rows (jobs_of s') !! id = Some r' ∧ guarded w j id r' = true.
Proof.
  clear. intros Hr Hs. set (b := Z.of_nat (size (rows (jobs_of s))) + 1). set (now := scheduled_at r).
  assert (Hin : (id, r) ∈ claim_rows now b ∅ (jobs_of s)).
  { apply (claim_takes w b 0); [|done| |set_solver].
    - unfold b. enough (length (ahead now ∅ (jobs_of s) id r) ≤ size (rows (jobs_of s)))%nat by lia.
      unfold ahead. rewrite length_filter. by rewrite length_map_to_list.
    - apply claimable_spec. split; [done|apply Z.le_refl]. }
  pose proof (claim_row DbOk w b 0 now ∅ (jobs_of s) id r ltac:(lia) Hin) as Hrow.
  set (j := returned now id (claim_set w 0 now r)).
  assert (∃ js, (Claim DbOk w b 0 now ∅ (jobs_of s)).1 = Ok js ∧ j ∈ js) as (js & Hjs & Hj).
  { unfold Claim. replace (b <? 0) with false by (unfold b; symmetry; zbool; lia). eexists. split; [reflexivity|].
    change (j ∈ (claimSQL w b 0 now ∅ (jobs_of s)).1). apply elem_of_claimed. by exists id, r. }
  destruct (Claim DbOk w b 0 now ∅ (jobs_of s)) as [res t] eqn:Hc. simpl in Hjs, Hrow. subst res.
  assert (Hh : (w, j) ∈ ((λ j, (w, j)) <$> js) ++ d_hand s)
    by (apply elem_of_app; left; by apply list_elem_of_fmap_2).
  apply list_elem_of_split in Hh as (l1 & l2 & Hl).
  eexists _, _, j, l1, l2. split; [by eapply ds_claim|]. split; [exact Hl|].
  split_and!; [done|done|exact Hrow|]. by apply guarded_spec.
Qed.

(** A guard whose breaker is closed makes the call. *)
Definition lets_through (g : executor) : Prop := ∀ fn, (Run g fn).1.2 ≠ 0%nat.

(** The attempts of a guarded delivery are the guard's calls. *)
Lemma handle_attempts (w : Options) (g : executor) (j : Job) (e : Outbox.Event) (remote : nat → reply) :
  wo_URL w = url → wo_Guard w = Some g → job_Payload j = event_json e →
  (Handle w None j remote).1.2
  = transmitted (Run g (λ k, send (remote k))).1.2 (job_request url j e).
Proof using jlaws url_set.
  intros Hu Hg Hp. unfold Handle, Unmarshal. rewrite Hp, event_unjson_json, decide_False by (by rewrite Hu).
  simpl. unfold deliver. rewrite Hg, Hu. by destruct (Run g (λ k, send (remote k))) as [[x n] g'].
Qed.

(** An endpoint that accepts settles the delivery. *)
Lemma accepting_delivery (g : executor) (j : Job) (e : Outbox.Event) :
  lets_through g → job_Payload j = event_json e → job_Kind j = JobKind →
  let w := mkOptions url 0 (Some g) in
  invoke (handlers w (λ _, Replied 200)) j = None
  ∧ heard (sent w j (λ _, Replied 200)) (job_ID j) e Accepted.
Proof using jlaws glaws url_set attempts_set.
  intros Hg Hp Hk w. destruct (handle_spec w j e (λ _, Replied 200) eq_refl Hp) as (n & Hreq & Ht).
  assert (Hn : last_verdict (λ _, Replied 200) n = Some Accepted).
  { destruct n as [|n]; [exfalso|done].
    rewrite (handle_attempts w g j e _ eq_refl eq_refl Hp) in Hreq.
    specialize (Hg (λ _, send (Replied 200))). by destruct (Run g (λ _, send (Replied 200))).1.2. }
  split; [|by eapply sent_last].
  unfold handlers. rewrite invoke_one by done. rewrite Hn in Ht. unfold told_of in Ht.
  destruct (Handle w None j (λ _, Replied 200)).1.1 as [x|]; [|done]. exfalso.
  destruct (errors_as_snooze x); [by destruct Ht as [[] _]|].
  by destruct (retryable (Some x)).
Qed.

(** A claimed job is delivered to such an endpoint and its row succeeds. *)
Lemma to_delivered (s : dstate) (g : executor) (w : string) (j : Job) (e : Outbox.Event)
  (r : Row) (l1 l2 : list (string * Job)) :
  lets_through g → job_Payload j = event_json e → job_Kind j = JobKind →
  d_hand s = l1 ++ (w, j) :: l2 → rows (jobs_of s) !! job_ID j = Some r →
  guarded w j (job_ID j) r = true →
  ∃ s' r', rtc dstep s s' ∧ heard (d_log s') (job_ID j) e Accepted
    ∧ rows (jobs_of s') !! job_ID j = Some r' ∧ state r' = StateSucceeded.
Proof using jlaws glaws url_set attempts_set.
  intros Hg Hp Hk Hl Hr Hgd. set (o := mkOptions url 0 (Some g)). set (remote := λ _ : nat, Replied 200).
  destruct (accepting_delivery g j e Hg Hp Hk) as [Hi Hh].
  destruct (complete_row CSucceed w j 0 (jobs_of s) r Hr Hgd) as (r' & Hr' & Hs' & _).
  assert (Hf : (finish DbOk cfg w j None 0 0 (jobs_of s)).2 = (complete CSucceed DbOk w j 0 (jobs_of s)).2)
    by (rewrite finish_op; symmetry; apply complete_op).
  do 2 eexists. split.
  { eapply rtc_l; [exact (ds_handle w j o remote l1 l2 s Hl eq_refl)|]. apply rtc_once.
    apply (ds_finish w j None DbOk 0 0 [] (d_done s)). unfold set_work, d_done at 1.
    by rewrite <- Hi. }
  split; [|split; [|exact Hs']].
  - eapply heard_mono, Hh. simpl. set_solver.
  - rewrite <- Hr'. exact (f_equal (λ t, rows t !! job_ID j) Hf).
Qed.
End delivery.

(** ** Properties *)

(** What the invariant says of each committed change, of each request sent and of each
    task stored. *)
Lemma reach_delivered `{GoText, FloatConv, UuidPkg} `{!EventJson, !Guard, !UuidLaws, !UuidText}
  `{!EventJsonLaws} (cfg : Queue) (url : string) (retry : WebhookRetry) `{!GuardLaws retry}
  (s : dstate) :
  url ≠ "" → 1 ≤ WR_MaxAttempts retry → rtc (dstep cfg url) d_empty s →
  (∀ e, e ∈ d_events s →
    ∃ id r, history s !! id = Some r ∧ payload r = event_json e
      ∧ match state r with
        | StateSucceeded => heard url (d_log s) id e Accepted
        | StateCancelled => heard url (d_log s) id e Rejected
        | StateDiscarded => Z.min (max_attempts r) (Q_MaxAttempts cfg) ≤ attempt r
        | _ => rows (jobs_of s) !! id = Some r
        end)
  ∧ (∀ q v, (q, v) ∈ d_log s → ∃ j e, e ∈ d_events s ∧ q = job_request url j e)
  ∧ (∀ id t, pg_tasks (w_db (d_world s)) !! id = Some t → announced t (d_events s)).
Proof.
  intros Hu Ha Hreach. pose proof (reach_dinv cfg url retry Hu Ha s Hreach) as Hinv.
  split_and!; [|exact (di_log _ _ s Hinv)|exact (di_tasks _ _ s Hinv)].
  intros e He. destruct (di_events _ _ s Hinv e He) as (id & r & Hr & Hp). exists id, r.
  split_and!; [done|done|]. destruct (di_rows _ _ s Hinv id r Hr) as (_ & e' & _ & Hp' & Hs).
  rewrite Hp in Hp'. apply event_json_inj in Hp' as <-. unfold settled in Hs.
  apply lookup_union_Some_raw in Hr as [Hr|[_ Hr]]; [by destruct (state r)|].
  apply (di_gone _ _ s Hinv) in Hr as (_ & _ & Hl). by destruct (state r).
Qed.

(** C2: no event is stuck.  From every reachable state, whatever crashed on the way, an
    event whose job is neither settled nor out of attempts can still be delivered: there
    are steps of the leader and of a worker after which an endpoint that accepts has it
    and its row says succeeded. *)
Theorem event_never_stuck `{GoText, FloatConv, UuidPkg} `{!EventJson, !Guard, !UuidLaws, !UuidText}
  `{!EventJsonLaws} (cfg : Queue) (url : string) (retry : WebhookRetry) `{!GuardLaws retry}
  (s : dstate) (g : executor) (id : Z) (r : Row) (e : Outbox.Event) :
  url ≠ "" → 1 ≤ WR_MaxAttempts retry → rtc (dstep cfg url) d_empty s → lets_through g →
  rows (jobs_of s) !! id = Some r → payload r = event_json e → live (state r) = true →
  (state r = StateRunning → attempt r < Z.min (max_attempts r) (Q_MaxAttempts cfg)) →
  ∃ s' r', rtc (dstep cfg url) s s' ∧ heard url (d_log s') id e Accepted
    ∧ rows (jobs_of s') !! id = Some r' ∧ state r' = StateSucceeded.
Proof.
  intros Hu Ha Hreach Hg Hr Hp Hl Hatt.
  pose proof (reach_rows_ok cfg url retry Hu Ha s Hreach id r Hr) as Hok.
  destruct (to_available cfg url s id r Hr Hok Hl Hatt) as (s1 & r1 & Hst1 & Hr1 & Hs1 & Hp1).
  destruct (to_claimed cfg url s1 "w" id r1 Hr1 Hs1)
    as (s2 & r2 & j & l1 & l2 & Hst2 & Hhand & <- & Hpj & Hr2 & Hgd).
  assert (H02 : rtc (dstep cfg url) s s2) by (by eapply rtc_r).
  pose proof (reach_dinv cfg url retry Hu Ha s2 ltac:(by etransitivity)) as Hinv.
  assert (Hpay : job_Payload j = event_json e) by (by rewrite Hpj, Hp1).
  assert (Hk : job_Kind j = JobKind).
  { destruct (di_hand _ _ s2 Hinv "w" j) as (e' & q & _ & _ & _ & Hk & _); [|done].
    rewrite Hhand. apply elem_of_app. right. apply list_elem_of_here. }
  destruct (to_delivered cfg url retry Hu Ha s2 g "w" j e r2 l1 l2 Hg Hpay Hk Hhand Hr2 Hgd)
    as (s3 & r3 & Hst3 & Hheard & Hr3 & Hs3).
  exists s3, r3. split; [by etransitivity|done].
Qed.

(** ** A delivery from commit to row *)

Import UuidInstance Backends.
#[local] Existing Instance ConfigProps.plain_text.
#[local] Existing Instance Backoff.amd64_conv.
#[local] Existing Instance simple_guard.

Definition hook : string := "https://hooks.example/in".

Definition created : dstate :=
  let w := (change_task TaskService.io_ok (ChCreate (milk 1)) 10 (d_world d_empty)).2 in
  mkD ({[ uuid_of 7 ]} ∪ ∅) w (committed (ChCreate (milk 1)) ∅ (pg_tasks (w_db w)) ++ []) [] [] [] ∅.

Definition first_job : Job := mkJob 1 JobKind (event_json (eventFor EventCreated (milk 1))) 1 5 10.

Definition claimed : dstate :=
  set_work [("w1", first_job)] [] []
    (set_jobs (Claim DbOk "w1" 10 30 20 ∅ (jobs_of created)).2 created).

Definition handled : dstate :=
  set_work [] [("w1", first_job, invoke (@handlers _ _ (simple_guard 2) (sink false) flaky) first_job)]
    (@sent _ _ (simple_guard 2) (sink false) first_job flaky) claimed.

Definition finished : dstate :=
  set_work (d_hand handled) ([] ++ []) []
    (set_jobs (finish DbOk Queue_SetDefaults "w1" first_job None 0 30 (jobs_of handled)).2 handled).

#[local] Abbreviation steps := (@dstep _ _ _ _ (simple_guard 2) Queue_SetDefaults hook).

Lemma created_step : steps d_empty created.
Proof. apply (ds_change _ _ TaskService.io_ok (ChCreate (milk 1)) 10); [apply disjoint_empty_r|reflexivity]. Qed.

Lemma claimed_step : steps created claimed.
Proof.
  apply (ds_claim _ _ DbOk "w1" 10 30 20 ∅ (Ok [first_job])).
  etransitivity; [apply surjective_pairing|]. apply (f_equal2 pair); [vm_eq|reflexivity].
Qed.

Lemma handled_step : steps claimed handled.
Proof.
  apply (@ds_handle _ _ _ _ (simple_guard 2) _ hook "w1" first_job (sink false) flaky [] []); reflexivity.
Qed.

Lemma finished_step : steps handled finished.
Proof. apply (ds_finish _ _ "w1" first_job None DbOk 0 30 [] [] handled). vm_eq. Qed.

Lemma finished_reach : rtc steps d_empty finished.
Proof.
  eapply rtc_l; [apply created_step|]. eapply rtc_l; [apply claimed_step|].
  eapply rtc_l; [apply handled_step|]. apply rtc_once, finished_step.
Qed.

Definition first_event : Outbox.Event := eventFor EventCreated (milk 1).

(** Two failures, then an acceptance: the row succeeded after three requests. *)
Example finished_row :
  (state <$> rows (jobs_of finished) !! 1) = Some StateSucceeded
  ∧ snd <$> d_log finished = [Failing; Failing; Accepted] ∧ d_events finished = [first_event].
Proof. split_and!; vm_eq. Qed.

Lemma simple_lets_through : @lets_through (simple_guard 2) false.
Proof.
  intros fn. change ((run_attempts 2 0 fn).2 ≠ 0%nat). simpl.
  by destruct (IsDependencyFailure (fn 0%nat)), (IsDependencyFailure (fn 1%nat)).
Qed.

Lemma claimed_reach : rtc steps d_empty claimed.
Proof. eapply rtc_l; [apply created_step|]. apply rtc_once, claimed_step. Qed.

(** The worker that claimed the job is gone. *)
Definition claimed_row : Row :=
  claim_set "w1" 30 20 (event_row (ChCreate (milk 1)) (milk 1) 10).

Lemma event_never_stuck_witness :
  ∃ s' r', rtc steps claimed s' ∧ heard hook (d_log s') 1 first_event Accepted
    ∧ rows (jobs_of s') !! 1 = Some r' ∧ state r' = StateSucceeded.
Proof.
  pose proof (simple_guard_laws 2 default_retry eq_refl) as Hlaws.
  apply (@event_never_stuck _ _ _ _ (simple_guard 2) _ _ _ Queue_SetDefaults hook default_retry Hlaws
    claimed false 1 claimed_row first_event ltac:(discriminate) ltac:(vm_compute; discriminate)
    claimed_reach simple_lets_through).
  - vm_eq.
  - reflexivity.
  - reflexivity.
  - intros _. vm_compute. reflexivity.
Defined.
