(* ===== verification/Api.v ===== *)
(** * The RPC handlers and the public handler (src/internal/api, src/internal/runtime)

    Each procedure converts a request, calls the task service, and converts the
    result or the error; [wrap] puts the middleware around them in the program's
    order.  Messages are the fields of the protobuf messages the handlers read; the
    transcoding of REST to procedures and the JSON codec are vanguard and protojson
    and are left out. *)
From stdpp Require Import options.
From S2P Require Import Prelude GoStrings GoTime GoFloat Apperr Task TaskService Http.
From S2P Require MemRepo Auth RateLimit Idem ConfigSections.
Open Scope Z_scope.

(** ** errors.go *)

(** [connect.Code], with its numbers. *)
Definition Code : Type := Z.
Definition CodeCanceled : Code := 1.
Definition CodeInvalidArgument : Code := 3.
Definition CodeDeadlineExceeded : Code := 4.
Definition CodeNotFound : Code := 5.
Definition CodePermissionDenied : Code := 7.
Definition CodeResourceExhausted : Code := 8.
Definition CodeAborted : Code := 10.
Definition CodeInternal : Code := 13.
Definition CodeUnavailable : Code := 14.
Definition CodeUnauthenticated : Code := 16.

Definition codeByKind (k : Kind) : option Code :=
  if k =? Invalid then Some CodeInvalidArgument
  else if k =? Unauthenticated then Some CodeUnauthenticated
  else if k =? Forbidden then Some CodePermissionDenied
  else if k =? NotFound then Some CodeNotFound
  else if k =? Conflict then Some CodeAborted
  else if k =? Unprocessable then Some CodeInvalidArgument
  else if k =? Exhausted then Some CodeResourceExhausted
  else if k =? Unavailable then Some CodeUnavailable
  else if k =? Timeout then Some CodeDeadlineExceeded
  else if k =? Canceled then Some CodeCanceled
  else None.

(** The HTTP status the Connect protocol gives each code. *)
Definition http_status (c : Code) : Z :=
  if c =? CodeInvalidArgument then 400 else if c =? CodeUnauthenticated then 401
  else if c =? CodePermissionDenied then 403 else if c =? CodeNotFound then 404
  else if c =? CodeAborted then 409 else if c =? CodeResourceExhausted then 429
  else if c =? CodeCanceled then 499 else if c =? CodeUnavailable then 503
  else if c =? CodeDeadlineExceeded then 504 else 500.

Record ConnectError : Type := mkConnectError { ce_Code : Code; ce_Message : string }.

Definition toConnectError (e : err) : ConnectError :=
  mkConnectError (default CodeInternal (codeByKind (KindOf (Some e)))) (Message (Some e)).

Section api.
Context `{UuidPkg, TimeText}.

(** ** convert.go *)

(** The wire task; timestamps are instants. *)
Record ProtoTask : Type := mkProtoTask {
  pt_Id : string;
  pt_Name : string;
  pt_Status : Z;
  pt_CreatedAt : Z;
  pt_UpdatedAt : Z;
  pt_Version : Z;
}.

Definition toProto (t : Task) : ProtoTask :=
  mkProtoTask (uuid_String (ID t)) (Name t) (TStatus t) (CreatedAt t) (UpdatedAt t) (Version t).
Definition toProtoList (ts : list Task) : list ProtoTask := map toProto ts.

Definition parseID (raw : string) : result err uuid :=
  match uuid_Parse raw with
  | None => Err (Field "id" "must be a UUID")
  | Some id => Ok id
  end.

Definition statusFilter (s : option Z) : option Status := s.

(** ** server.go *)

Record ListTasksRequest : Type := mkListReq {
  lr_Status : option Z; lr_PageSize : Z; lr_PageToken : string }.
Record ListTasksResponse : Type := mkListResp {
  ls_Result : list ProtoTask; ls_NextPageToken : string }.

Section server.
Context {S : Type} `{!Repository S}.

Definition ListTasks (msg : ListTasksRequest) (s : S)
  : option (result ConnectError ListTasksResponse) :=
  (λ r, match r with
        | Err e => Err (toConnectError e)
        | Ok page => Ok (mkListResp (toProtoList (Tasks page)) (Encode (Next page)))
        end)
    <$> TaskService.List (mkListInput (statusFilter (lr_Status msg)) (lr_PageSize msg) (lr_PageToken msg)) s.

Definition absent_task : err := Field "task" "must be present".

(** [task] is the task of the request, [newID] and [now] what the service draws. *)
Definition CreateTask (task : option ProtoTask) (now : Z) (newID : uuid) (s : S)
  : result ConnectError ProtoTask * S :=
  match task with
  | None => (Err (toConnectError absent_task), s)
  | Some t =>
      match TaskService.Create (mkCreateInput (pt_Name t) (pt_Status t)) now newID s with
      | (Err e, s) => (Err (toConnectError e), s)
      | (Ok created, s) => (Ok (toProto created), s)
      end
  end.

Definition UpdateTask (id : string) (task : option ProtoTask) (now : Z) (s : S)
  : result ConnectError ProtoTask * S :=
  match parseID id with
  | Err e => (Err (toConnectError e), s)
  | Ok uid =>
      match task with
      | None => (Err (toConnectError absent_task), s)
      | Some t =>
          match TaskService.Update (mkUpdateInput uid (pt_Name t) (pt_Status t) (pt_Version t)) now s with
          | (Err e, s) => (Err (toConnectError e), s)
          | (Ok updated, s) => (Ok (toProto updated), s)
          end
      end
  end.

Definition DeleteTask (id : string) (s : S) : result ConnectError unit * S :=
  match parseID id with
  | Err e => (Err (toConnectError e), s)
  | Ok uid =>
      match TaskService.Delete uid s with
      | (Err e, s) => (Err (toConnectError e), s)
      | (Ok _, s) => (Ok tt, s)
      end
  end.
End server.
End api.

(** ** runtime/handler.go *)

Section wrap.
Context `{RateLimit.RateLib, FloatConv} {A T : Type} `{!Idem.Store A T}.

(** What the middleware share: the slots taken, the buckets of the limiter, the state of
    the idempotency store with what lies behind it, and the access log. *)
Record server : Type := mkServer {
  sv_slots : Z; sv_limiter : gmap string RateLimit.bucket; sv_store : T; sv_log : list AccessLine }.

Definition set_slots (n : Z) (s : server) : server :=
  mkServer n (sv_limiter s) (sv_store s) (sv_log s).
Definition set_limiter (l : gmap string RateLimit.bucket) (s : server) : server :=
  mkServer (sv_slots s) l (sv_store s) (sv_log s).
Definition set_store (t : T) (s : server) : server :=
  mkServer (sv_slots s) (sv_limiter s) t (sv_log s).
Definition put_line (l : AccessLine) (s : server) : server :=
  mkServer (sv_slots s) (sv_limiter s) (sv_store s) (sv_log s ++ [l]).

Record Options : Type := mkOptions {
  ro_MaxBodyBytes : Z;
  ro_Idempotency : bool;                         (* a store is given *)
  ro_IdempotencyConfig : ConfigSections.Idempotency;
  ro_Auth : option Auth.Resolver;
  ro_RateLimit : option ConfigSections.RateLimit;
  ro_GlobalInflight : Z;
}.

(** The readings of the clock and the drawn id of one request, and whether the logger
    listens at DEBUG then. *)
Record draws : Type := mkDraws { d_id : string; d_now : Z; d_now1 : Z; d_now2 : Z; d_debug : bool }.

(** A handler of the store's state, beside the rest. *)
Definition on_store (h : Handler T) : Handler server := λ r ws,
  let '(f, (w, t)) := h r (ws.1, sv_store ws.2) in
  (f, (w, set_store t ws.2)).

(** Tracing and metrics go around these in [Public.full_wrap]. *)
Definition middlewares (o : Options) (d : draws) : list (Middleware server) :=
  [RequestID (d_id d); Logger (d_debug d) put_line; Recover]
  ++ (if 0 <? ro_GlobalInflight o
      then [RateLimit.Inflight (ro_GlobalInflight o) sv_slots set_slots] else [])
  ++ (match ro_Auth o with Some a => [Auth.auth_Middleware a] | None => [] end)
  ++ (match ro_RateLimit o with
      | Some cfg => [RateLimit.quota_Middleware cfg sv_limiter set_limiter (d_now1 d) (d_now2 d)]
      | None => []
      end)
  ++ [Deprecation; MaxBody (ro_MaxBodyBytes o)].

(** [h] is what the routes lead to. *)
Definition wrap (h : Handler A) (o : Options) (d : draws) : Handler server :=
  Chain
    (on_store (if ro_Idempotency o then Idem.Middleware (ro_IdempotencyConfig o) (d_now d) h
               else Idem.pass h))
    (middlewares o d).
End wrap.
