(* ===== verification/ApiProps.v ===== *)
(** * The public handler: properties

    The answer of an update on every branch, and what the order of the middleware
    guarantees of every request. *)
From stdpp Require Import options.
From S2P Require Import Prelude GoStrings GoTime GoFloat Apperr Task TaskService Http Api.
From S2P Require MemRepo Auth RateLimit Idem IdemProps ConfigSections Backoff UuidInstance.
Open Scope Z_scope.

(** ** What the middleware leave alone *)

Section keeps.
Context `{RateLimit.RateLib, FloatConv} {A T : Type} `{!Idem.Store A T}.

(** A part of the server's state that a quota, the store and, for [Inflight], taking and
    giving back a slot do not change. *)
Section part.
Context {X : Type} (g : @server _ T → X).

Definition keeps (h : Handler (@server _ T)) : Prop :=
  ∀ r w s, g (h r (w, s)).2.2 = g s.

Context (Hlimiter : ∀ l s, g (set_limiter l s) = g s) (Hstore : ∀ t s, g (set_store t s) = g s)
  (Hinflight : ∀ n h, keeps h → keeps (RateLimit.Inflight n sv_slots set_slots h)).

Lemma on_store_keeps (h : Handler T) : keeps (on_store h).
Proof using Hstore.
  intros r w s. unfold on_store. simpl. destruct (h r _) as [f [w' t]]. apply Hstore.
Qed.

Lemma Chain_keeps (mw : list (Middleware (@server _ T))) (h : Handler server) :
  keeps h → Forall (λ m, ∀ h, keeps h → keeps (m h)) mw → keeps (Chain h mw).
Proof. intros Hh Hmw. unfold Chain. induction Hmw as [|m mw Hm Hmw IH]; simpl; auto. Qed.

Lemma quota_keeps (cfg : ConfigSections.RateLimit) (now1 now2 : Z) (h : Handler server) :
  keeps h → keeps (RateLimit.quota_Middleware cfg sv_limiter set_limiter now1 now2 h).
Proof using Hlimiter.
  intros Hh r w s. unfold RateLimit.quota_Middleware. simpl.
  destruct (RateLimit.Allow cfg _ now1 now2 _) as [d l].
  case_match; [by rewrite Hh, Hlimiter|apply Hlimiter].
Qed.

(** Everything inside the access logger. *)
Lemma inner_keeps (o : Options) (d : draws) :
  Forall (λ m : Middleware (@server _ T), ∀ h, keeps h → keeps (m h)) (drop 2 (middlewares o d)).
Proof using Hlimiter Hinflight.
  unfold middlewares. simpl. apply Forall_cons_2.
  { intros h Hh r w s. unfold Recover. pose proof (Hh r w s) as Hs.
    destruct (h r (w, s)) as [[|v|] [w' s']]; exact Hs. }
  repeat apply Forall_app_2.
  - case_match; [|apply Forall_nil_2]. apply Forall_cons_2; [|apply Forall_nil_2]. apply Hinflight.
  - destruct (ro_Auth o) as [a|]; [|apply Forall_nil_2]. apply Forall_cons_2; [|apply Forall_nil_2].
    intros h Hh r w s. unfold Auth.auth_Middleware. destruct (Auth.Resolve _ r) as [id ok].
    destruct ok; simpl; [apply Hh|done].
  - destruct (ro_RateLimit o) as [q|]; [|apply Forall_nil_2]. apply Forall_cons_2; [|apply Forall_nil_2].
    intros h. apply quota_keeps.
  - repeat apply Forall_cons_2; [| |apply Forall_nil_2].
    + intros h Hh r w s. unfold Deprecation. by case_match; apply Hh.
    + intros h Hh r w s. unfold MaxBody. repeat case_match; simpl; auto; apply Hh.
Qed.

Lemma below_keeps (h : Handler A) (o : Options) (d : draws) :
  keeps (Chain (on_store (if ro_Idempotency o then Idem.Middleware (ro_IdempotencyConfig o) (d_now d) h
                          else Idem.pass h)) (drop 2 (middlewares o d))).
Proof using Hlimiter Hstore Hinflight. apply Chain_keeps; [apply on_store_keeps|apply inner_keeps]. Qed.
End part.

Lemma inflight_slots (n : Z) (h : Handler (@server _ T)) :
  keeps sv_slots h → keeps sv_slots (RateLimit.Inflight n sv_slots set_slots h).
Proof.
  intros Hh r w s. unfold RateLimit.Inflight, RateLimit.take_slot. simpl.
  destruct (sv_slots s <? _); [|done]. pose proof (Hh r w (set_slots (sv_slots s + 1) s)) as Hs.
  destruct (h r _) as [f [w' s']]. cbn [sv_slots set_slots fst snd] in *.
  rewrite Hs. unfold RateLimit.give_slot. lia.
Qed.

Lemma inflight_log (n : Z) (h : Handler (@server _ T)) :
  keeps sv_log h → keeps sv_log (RateLimit.Inflight n sv_slots set_slots h).
Proof.
  intros Hh r w s. unfold RateLimit.Inflight, RateLimit.take_slot. simpl.
  destruct (sv_slots s <? _); [|done]. pose proof (Hh r w (set_slots (sv_slots s + 1) s)) as Hs.
  by destruct (h r _) as [f [w' s']].
Qed.

(** The chain inside the two outermost. *)
Lemma wrap_unfold (h : Handler A) (o : Options) (d : draws) (r : Request) (ws : Writer * @server _ T) :
  wrap h o d r ws
  = RequestID (d_id d) (Logger (d_debug d) put_line
      (Chain (on_store (if ro_Idempotency o then Idem.Middleware (ro_IdempotencyConfig o) (d_now d) h
                        else Idem.pass h)) (drop 2 (middlewares o d)))) r ws.
Proof. done. Qed.

Lemma Logger_line {S} (debug : bool) (put : AccessLine → S → S) (h : Handler S) (r : Request)
  (ws : Writer * S) :
  let '(f, (w, s)) := h r ws in
  ∃ line, al_Status line = resp_Status (sent w) ∧ al_Route line = Route (Path r)
    ∧ al_Method line = Method r
    ∧ Logger debug put h r ws
      = (f, (w, match f with Returned => if debug then put line s else s | _ => s end)).
Proof.
  unfold Logger. destruct (h r ws) as [f [w s]].
  eexists (mkLine (RequestIDFrom r) (Method r) (Route (Path r)) (resp_Status (sent w))
             (ContentLength r) (len (w_body w) - len (w_body ws.1))).
  split; [done|]. split; [done|]. split; [done|]. by destruct debug, f.
Qed.
End keeps.

(** A problem refuses: its status is sent when nothing was written before. *)
Lemma respond_status {S} (r : Request) (st : Z) (detail : string) (f : Header → Header)
  (w : Writer) (s : S) :
  w_wrote w = None → st ≠ 500 →
  Idem.rec_status (respond (λ w, WriteProblem r st detail (on_header f w)) (w, s)).2.1 = st.
Proof. intros Hw Hst. unfold respond. simpl. by apply IdemProps.WriteProblem_status. Qed.

(** A validation error is one field of an invalid request. *)
Lemma invalid_name `{UuidPkg} (name : string) (e : err) :
  ValidateName name = Some e → ∃ f msg, e = Field f msg.
Proof. unfold ValidateName, invalid. repeat case_match; intros; simplify_eq; eauto. Qed.

Lemma invalid_status (st : Status) (e : err) : ValidateStatus st = Some e → ∃ f msg, e = Field f msg.
Proof. unfold ValidateStatus, invalid. case_match; intros; simplify_eq; eauto. Qed.

(** ** Properties *)

Section chain.
Context `{RateLimit.RateLib, FloatConv} {A T : Type} `{!Idem.Store A T}.

(** The state but for the access log. *)
Definition quiet (s : @server _ T) : @server _ T :=
  mkServer (sv_slots s) (sv_limiter s) (sv_store s) [].

(** What is inside the access logger. *)
Definition inner (h : Handler A) (o : Options) (d : draws) : Handler (@server _ T) :=
  Chain (on_store (if ro_Idempotency o then Idem.Middleware (ro_IdempotencyConfig o) (d_now d) h
                   else Idem.pass h)) (drop 2 (middlewares o d)).

Lemma inner_recovers (h : Handler A) (o : Options) (d : draws) (r : Request) (ws : Writer * server) (v : string) :
  (inner h o d r ws).1 ≠ Panicked v.
Proof.
  unfold inner, Chain, middlewares. simpl. unfold Recover. by destruct (Chain_loop _ _ r ws) as [[] [w s]].
Qed.

Lemma inner_order (h : Handler A) (o : Options) (d : draws) (auth : Auth.Resolver)
  (limits : ConfigSections.RateLimit) (r : Request) (g : Header → Header) (s : @server _ T) :
  ro_Auth o = Some auth → ro_RateLimit o = Some limits → 0 < ro_GlobalInflight o →
  let '(f, (w, s')) := inner h o d r (on_header g new_writer, s) in
  (ro_GlobalInflight o ≤ sv_slots s → Idem.rec_status w = 503 ∧ s' = s)
  ∧ (sv_slots s < ro_GlobalInflight o →
     let '(id, ok) := Auth.Resolve auth r in
     let '(decision, l) := RateLimit.Allow limits id (d_now1 d) (d_now2 d) (sv_limiter s) in
     if ok then
       RateLimit.Allowed decision = false → Idem.rec_status w = 429 ∧ s' = set_limiter l s
     else Idem.rec_status w = 401 ∧ s' = s).
Proof.
  intros Ha Hl Hi. destruct (inner h o d r (on_header g new_writer, s)) as [f [w s']] eqn:Hw.
  unfold inner, middlewares, Chain in Hw. rewrite Ha, Hl, (proj2 (Z.ltb_lt 0 _) Hi) in Hw.
  cbn [app drop Chain_loop] in Hw. unfold Recover, RateLimit.Inflight in Hw.
  cbn [fst snd] in Hw. unfold RateLimit.take_slot in Hw. split.
  - intros Hge. rewrite (proj2 (Z.ltb_ge _ _) Hge) in Hw. simpl in Hw. simplify_eq/=.
    split; [by apply IdemProps.WriteProblem_status|done].
  - intros Hlt. rewrite (proj2 (Z.ltb_lt _ _) Hlt) in Hw. unfold Auth.auth_Middleware in Hw.
    destruct (Auth.Resolve auth r) as [id ok]. destruct ok; simpl negb in Hw; cbv iota in Hw.
    + unfold RateLimit.quota_Middleware in Hw. cbn [fst snd] in Hw.
      change (Auth.From (with_identity id _)) with id in Hw.
      change (sv_limiter (set_slots _ s)) with (sv_limiter s) in Hw.
      destruct (RateLimit.Allow limits id _ _ _) as [decision l]. intros Hno.
      rewrite Hno in Hw. simpl in Hw. simplify_eq/=. split; [by apply IdemProps.WriteProblem_status|].
      unfold set_slots, set_limiter, RateLimit.give_slot. simpl. f_equal. lia.
    + destruct (RateLimit.Allow limits id _ _ _) as [decision l]. simpl in Hw. simplify_eq/=.
      split; [by apply IdemProps.WriteProblem_status|]. unfold set_slots, RateLimit.give_slot. destruct s. simpl. f_equal. lia.
Qed.
End chain.

(** C16: the order of the middleware.  Whatever the handler does, no panic of it leaves the
    chain - only the abort net/http asks for passes through -, its slot is given back, and a
    request that is answered leaves exactly one line in the access log when the logger
    listens at DEBUG, and none otherwise, with the status the client is sent and a route of
    the fixed set.  A request over the cap on requests in flight is answered 503 before
    anything is looked up or charged; one whose caller the resolver refuses - without a
    recognised token where one is required ([Auth.resolve_exact]) - is answered 401 and
    charges no bucket; one over its quota is answered 429, and neither the store of
    idempotency keys nor the handler has seen it. *)
Theorem chain_order `{RateLimit.RateLib, FloatConv} {A T : Type} `{!Idem.Store A T}
  (h : Handler A) (o : Options) (d : draws) (auth : Auth.Resolver)
  (limits : ConfigSections.RateLimit) (r : Request) (s : @server _ T) :
  ro_Auth o = Some auth → ro_RateLimit o = Some limits → 0 < ro_GlobalInflight o →
  let '(f, (w, s')) := wrap h o d r (new_writer, s) in
  (∀ v, f ≠ Panicked v) ∧ sv_slots s' = sv_slots s
  ∧ (∃ line, al_Status line = resp_Status (sent w) ∧ al_Route line = Route (Path r)
       ∧ sv_log s' = sv_log s ++ match f with Returned => if d_debug d then [line] else [] | _ => [] end)
  ∧ (ro_GlobalInflight o ≤ sv_slots s → Idem.rec_status w = 503 ∧ quiet s' = quiet s)
  ∧ (sv_slots s < ro_GlobalInflight o →
     let '(id, ok) := Auth.Resolve auth r in
     let '(decision, l) := RateLimit.Allow limits id (d_now1 d) (d_now2 d) (sv_limiter s) in
     if ok then
       RateLimit.Allowed decision = false → Idem.rec_status w = 429 ∧ quiet s' = quiet (set_limiter l s)
     else Idem.rec_status w = 401 ∧ quiet s' = quiet s).
Proof.
  intros Ha Hl Hi. rewrite wrap_unfold. fold (inner h o d). unfold RequestID.
  set (r1 := with_request_id _ r). cbn [fst snd]. set (g := header_Set RequestIDHeader _).
  pose proof (Logger_line (d_debug d) put_line (inner h o d) r1 (on_header g new_writer, s)) as Hline.
  pose proof (inner_recovers h o d r1 (on_header g new_writer, s)) as Hrec.
  pose proof (inner_order h o d auth limits r1 g s Ha Hl Hi) as Hord.
  pose proof (below_keeps sv_slots (λ _ _, eq_refl) (λ _ _, eq_refl) inflight_slots h o d r1
                (on_header g new_writer) s) as Hslots.
  pose proof (below_keeps sv_log (λ _ _, eq_refl) (λ _ _, eq_refl) inflight_log h o d r1
                (on_header g new_writer) s) as Hlog.
  fold (inner h o d) in Hslots, Hlog.
  destruct (inner h o d r1 (on_header g new_writer, s)) as [f [w s1]].
  destruct Hline as (line & Hst & Hrt & _ & ->). cbn [fst snd] in *.
  change (Auth.Resolve auth r1) with (Auth.Resolve auth r) in Hord.
  set (s' := match f with Returned => _ | _ => _ end).
  assert (Hs : sv_slots s' = sv_slots s1 ∧ quiet s' = quiet s1) by (by subst s'; destruct f, (d_debug d)).
  destruct Hs as [Hs Hq]. split; [intros v ->; by apply (Hrec v)|]. split; [congruence|]. split.
  - exists line. split; [done|]. split; [done|]. rewrite <- Hlog. subst s'.
    destruct f, (d_debug d); simpl; by rewrite ?app_nil_r.
  - rewrite Hq. destruct Hord as [H503 Hrest]. split; [intros Hge; by destruct (H503 Hge) as [? ->]|].
    intros Hlt. specialize (Hrest Hlt). destruct (Auth.Resolve auth r) as [id ok].
    destruct (RateLimit.Allow _ _ _ _ _) as [decision l]. destruct ok.
    + intros Hno. by destruct (Hrest Hno) as [? ->].
    + by destruct Hrest as [? ->].
Qed.

(** The answer of UpdateTask, on every branch, with the in-memory repository.  A
    malformed or nil id, a missing task, a bad name or status or a negative version is
    InvalidArgument, an unknown task NotFound, a version that has moved Aborted, and
    then nothing changes; otherwise the task is replaced, keeping its id and creation
    time, its version is the next one, and that task is the answer. *)
Lemma update_answers `{UuidPkg, TimeText} (id : string) (task : option ProtoTask) (now : Z)
  (m : MemRepo.Store) :
  let '(res, m') := UpdateTask id task now m in
  let refused c := m' = m ∧ ∃ msg, res = Err (mkConnectError c msg) in
  match uuid_Parse id, task with
  | Some uid, Some p =>
      if bool_decide (uid = uuid_Nil) || bool_decide (is_Some (ValidateName (pt_Name p)))
         || bool_decide (is_Some (ValidateStatus (pt_Status p))) || (pt_Version p <? 0)
      then refused CodeInvalidArgument
      else match m !! uid with
           | None => refused CodeNotFound
           | Some t =>
               if negb (pt_Version p =? 0) && negb (Version t =? pt_Version p)
               then refused CodeAborted
               else let t' := mkTask uid (pt_Name p) (pt_Status p) (CreatedAt t) now
                                (wrap64 (Version t + 1)) in
                    m' = <[uid := t']> m ∧ res = Ok (toProto t')
           end
  | _, _ => refused CodeInvalidArgument
  end.
Proof.
  unfold UpdateTask, parseID. destruct (uuid_Parse id) as [uid|]; [|split; eauto].
  destruct task as [p|]; [|split; eauto].
  unfold TaskService.Update. cbn [ui_ID ui_Name ui_Status ui_ExpectedVersion].
  destruct (decide (uid = uuid_Nil)) as [Hn|Hn].
  { rewrite (bool_decide_eq_true_2 _ Hn). split; eauto. }
  rewrite (bool_decide_eq_false_2 _ Hn). cbn [orb].
  pose proof (invalid_name (pt_Name p)) as Hname. pose proof (invalid_status (pt_Status p)) as Hstatus.
  destruct (ValidateName (pt_Name p)) as [e|].
  { rewrite bool_decide_eq_true_2 by eauto. destruct (Hname e eq_refl) as (f & msg & ->). split; eauto. }
  rewrite (bool_decide_eq_false_2 (is_Some None)) by (by intros []). cbn [orb].
  destruct (ValidateStatus (pt_Status p)) as [e|].
  { rewrite bool_decide_eq_true_2 by eauto. destruct (Hstatus e eq_refl) as (f & msg & ->). split; eauto. }
  rewrite (bool_decide_eq_false_2 (is_Some None)) by (by intros []). cbn [orb].
  destruct (pt_Version p <? 0); [split; eauto|].
  unfold r_Update, mem_repository, MemRepo.Update. cbn [ID Name TStatus UpdatedAt].
  destruct (m !! uid) as [t|]; [|split; eauto].
  destruct (negb (pt_Version p =? 0) && negb (Version t =? pt_Version p)); [split; eauto|].
  by split.
Qed.

(** ** A concrete server *)

#[local] Existing Instance Backoff.amd64_conv.
#[local] Existing Instance RateLimit.token_bucket.
#[local] Existing Instance Idem.mem_store.

(** One request at a time, bursts of two per caller, no idempotency. *)
Definition small_server : Options :=
  mkOptions 65536 false ConfigSections.Idempotency_SetDefaults
    (Some (Auth.NewResolver ConfigSections.Auth_SetDefaults 0))
    (Some (RateLimit.small_limits second (QArith_base.Qmake 1 1))) 1.
Definition idle_server : @server _ (nat * Idem.MemoryStore) := mkServer 0 ∅ (0%nat, ∅) [].
Definition a_get (h : Header) : Request :=
  mkRequest "GET" "/tasks" h None 0 "192.0.2.1:4711" None None.
Definition at_time (t : Z) : draws := mkDraws "fresh-id" t t t true.

(** A handler that counts, answers, and panics on demand. *)
Definition counting (panics : bool) : Handler nat := λ r ws,
  if panics then (Panicked "boom", (ws.1, S ws.2))
  else (Returned, (Http.Write "ok" ws.1, S ws.2)).

Lemma chain_order_witness :
  let s := mkServer 1 ∅ (0%nat, ∅) [] in
  let '(f, (w, s')) := wrap (counting false) small_server (at_time 5) (a_get ∅) (new_writer, s) in
  sv_slots s' = 1 ∧ Idem.rec_status w = 503 ∧ quiet s' = quiet s
  ∧ al_Status <$> sv_log s' = [503].
Proof.
  pose proof (chain_order (counting false) small_server (at_time 5)
    (Auth.NewResolver ConfigSections.Auth_SetDefaults 0) (RateLimit.small_limits second (QArith_base.Qmake 1 1))
    (a_get ∅) (mkServer 1 ∅ (0%nat, ∅) []) eq_refl eq_refl eq_refl) as Hc.
  assert (Hlog : al_Status <$> sv_log (wrap (counting false) small_server (at_time 5) (a_get ∅)
    (new_writer, mkServer 1 ∅ (0%nat, ∅) [])).2.2 = [503]) by vm_eq.
  cbv zeta. destruct (wrap _ _ _ _ _) as [f [w s']]. destruct Hc as (_ & Hs & _ & H503 & _).
  split; [exact Hs|]. destruct H503 as [Hst Hq]; [vm_compute; discriminate|].
  split; [exact Hst|]. split; [exact Hq|exact Hlog].
Defined.

(** Three requests of one caller within a second, and a panic: the third is refused
    without reaching the handler, and every slot comes back. *)
Definition visits (n : nat) : list Z * nat * Z :=
  let '(codes, s) :=
    foldl (λ '(codes, s) t,
      let '(_, (w, s)) := wrap (counting (t =? 2)) small_server (at_time t) (a_get ∅) (new_writer, s) in
      (codes ++ [Idem.rec_status w], s)) ([], idle_server) (Z.of_nat <$> seq 1 n) in
  (codes, (sv_store s).1, sv_slots s).

Example three_visits : visits 3 = ([200; 500; 429], 2%nat, 0).
Proof. vm_eq. Qed.

(** A panic after the body was begun, or after the headers were set, is not answered
    with a problem the client can read: in the first case it is appended to the body
    of a 200, in the second nothing is written and net/http sends an empty 200. *)
Example recovered_too_late :
  let begun : Handler nat := λ r ws, (Panicked "boom", (Http.Write "partial" ws.1, ws.2)) in
  let typed : Handler nat := λ r ws,
    (Panicked "boom", (on_header (header_Set "Content-Type" "application/json") ws.1, ws.2)) in
  let answer h := sent (wrap h small_server (at_time 5) (a_get ∅) (new_writer, idle_server)).2.1 in
  resp_Status (answer begun) = 200 ∧ has_prefix "partial{" (resp_Body (answer begun)) = true
  ∧ resp_Status (answer typed) = 200 ∧ resp_Body (answer typed) = "".
Proof. split_and!; vm_eq. Qed.
