(* ===== verification/Regexp.v ===== *)
(** * The part of Go's regexp the log scrubbers use

    Backtracking over bytes: alternatives in order, stars greedy, the match that starts
    leftmost - what [regexp] promises for expressions that are not POSIX.  A byte is
    as good as a rune here: every class is ASCII or the complement of ASCII. *)
From stdpp Require Import options.
From S2P Require Import Prelude GoStrings.
From Stdlib Require Import Ascii.
Open Scope nat_scope.

Inductive re : Type :=
  | REps
  | RSet (f : ascii → bool)
  | RSeq (a b : re)
  | RAlt (a b : re)
  | RStar (a : re)
  | RWord
  | RGroup (a : re).

Definition RPlus (a : re) : re := RSeq a (RStar a).

(** The byte before, what is left, and the text of the group. *)
Record cursor : Type := mkCursor { before : option ascii; rest : list ascii; group : list ascii }.

Definition is_word (c : option ascii) : bool :=
  match c with
  | None => false
  | Some c => let n := nat_of_ascii c in
      ((48 <=? n) && (n <=? 57)) || ((65 <=? n) && (n <=? 90)) || ((97 <=? n) && (n <=? 122)) || (n =? 95)
  end.

(** [\b] *)
Definition word_boundary (s : cursor) : bool := xorb (is_word (before s)) (is_word (head (rest s))).

Definition captured (s s' : cursor) : cursor :=
  mkCursor (before s') (rest s') (take (length (rest s) - length (rest s')) (rest s)).

Section matching.
Context {X : Type}.

(** The rounds of a star: each consumes, so the length of what is left bounds them. *)
Fixpoint rounds (once : (cursor → option X) → cursor → option X) (n : nat) (k : cursor → option X)
  (s : cursor) : option X :=
  match n with
  | O => k s
  | S n =>
      match once (λ s', if length (rest s') <? length (rest s) then rounds once n k s' else None) s with
      | Some x => Some x
      | None => k s
      end
  end.

Fixpoint matches (r : re) (k : cursor → option X) (s : cursor) : option X :=
  match r with
  | REps => k s
  | RSet f =>
      match rest s with
      | c :: l => if f c then k (mkCursor (Some c) l (group s)) else None
      | [] => None
      end
  | RSeq a b => matches a (matches b k) s
  | RAlt a b => match matches a k s with Some x => Some x | None => matches b k s end
  | RStar a => rounds (matches a) (S (length (rest s))) k s
  | RWord => if word_boundary s then k s else None
  | RGroup a => matches a (λ s', k (captured s s')) s
  end.
End matching.

(** [ReplaceAllString], for expressions that match no empty text. *)
Fixpoint replace_from (r : re) (repl : list ascii → list ascii) (fuel : nat) (s : cursor) : list ascii :=
  match fuel with
  | O => rest s
  | S fuel =>
      match matches r (λ s', if length (rest s') <? length (rest s) then Some s' else None) s with
      | Some s' => repl (group s') ++ replace_from r repl fuel (mkCursor (before s') (rest s') [])
      | None =>
          match rest s with
          | [] => []
          | c :: l => c :: replace_from r repl fuel (mkCursor (Some c) l [])
          end
      end
  end.

Definition ReplaceAll (r : re) (repl : list ascii → list ascii) (s : string) : string :=
  String.string_of_list_ascii
    (replace_from r repl (S (String.length s)) (mkCursor None (String.list_ascii_of_string s) [])).

(** ** Building expressions *)

Definition chr (c : ascii) : re := RSet (λ x, bool_decide (x = c)).
Definition of_bytes (l : list nat) : re := foldr (λ n r, RSeq (chr (ascii_of_nat n)) r) REps l.
Definition in_range (lo hi : nat) (c : ascii) : bool :=
  (lo <=? nat_of_ascii c) && (nat_of_ascii c <=? hi).
Definition one_of (s : string) (c : ascii) : bool := contains_byte c s.

(** [\s] *)
Definition space (c : ascii) : bool := in_range 9 10 c || in_range 12 13 c || in_range 32 32 c.
Definition alpha (c : ascii) : bool := in_range 65 90 c || in_range 97 122 c.
Definition digit (c : ascii) : bool := in_range 48 57 c.

(** A letter under [(?i)]: both cases, and the two runes that fold to [s] and to [k]. *)
Definition fold_letter (c : ascii) : re :=
  let both := RSet (λ x, bool_decide (lower_byte x = lower_byte c)) in
  if decide (lower_byte c = "s"%char) then RAlt both (of_bytes [197; 191])
  else if decide (lower_byte c = "k"%char) then RAlt both (of_bytes [226; 132; 170])
  else both.

Definition fold_word (w : string) : re :=
  foldr (λ c r, RSeq (fold_letter c) r) REps (String.list_ascii_of_string w).

Definition alternatives (ws : list re) : re :=
  match ws with
  | [] => REps
  | w :: ws => foldl RAlt w ws
  end.

(** ** Soundness *)

Definition all_bytes : list ascii := ascii_of_nat <$> seq 0 256.

Lemma elem_of_all_bytes (c : ascii) : c ∈ all_bytes.
Proof.
  apply list_elem_of_fmap. exists (nat_of_ascii c). split; [by rewrite ascii_nat_embedding|].
  apply elem_of_seq. pose proof (nat_ascii_bounded c). lia.
Qed.

(** [r] cannot match without consuming a byte of [f]. *)
Fixpoint needs (f : ascii → bool) (r : re) : bool :=
  match r with
  | REps | RWord | RStar _ => false
  | RSet g => forallb (λ c, negb (g c) || f c) all_bytes
  | RSeq a b => needs f a || needs f b
  | RAlt a b => needs f a && needs f b
  | RGroup a => needs f a
  end.

(** What an answer of [matches] means: the continuation gave it, after a part of what was
    left was consumed. *)
Definition consumed {X} (P : list ascii → Prop) (k : cursor → option X) (s : cursor) (x : X) : Prop :=
  ∃ s' l, k s' = Some x ∧ rest s = l ++ rest s' ∧ P l.

Lemma rounds_consumed {X} (once : (cursor → option X) → cursor → option X)
  (k : cursor → option X) (n : nat) (s : cursor) (x : X) :
  (∀ k s x, once k s = Some x → consumed (λ _, True) k s x) →
  rounds once n k s = Some x → consumed (λ _, True) k s x.
Proof.
  intros Honce. revert s. induction n as [|n IH]; intros s Hx; [by exists s, []|]. simpl in Hx.
  destruct (once _ s) as [y|] eqn:Hy; [|by exists s, []]. injection Hx as ->.
  destruct (Honce _ _ _ Hy) as (s1 & l & Hk & Hl & _).
  destruct (length (rest s1) <? length (rest s)); [|done].
  destruct (IH s1 Hk) as (s2 & l2 & Hk2 & Hl2 & _). exists s2, (l ++ l2).
  split; [done|]. split; [by rewrite Hl, Hl2, app_assoc|done].
Qed.

Lemma matches_consumed {X} (f : ascii → bool) (r : re) (k : cursor → option X) (s : cursor) (x : X) :
  matches r k s = Some x →
  consumed (λ l, needs f r = true → existsb f l = true) k s x.
Proof.
  revert k s x. induction r as [|g|a IHa b IHb|a IHa b IHb|a IHa| |a IHa]; intros k s x Hx; simpl in Hx.
  - by exists s, [].
  - destruct (rest s) as [|c l] eqn:Hr; [done|]. destruct (g c) eqn:Hg; [|done].
    eexists _, [c]. split; [exact Hx|]. split; [done|]. intros Hall.
    change (forallb (λ c, negb (g c) || f c) all_bytes = true) in Hall. rewrite forallb_forall in Hall. specialize (Hall c (proj1 (list_elem_of_In _ _) (elem_of_all_bytes c))).
    rewrite Hg in Hall. simpl in Hall |- *. by rewrite Hall.
  - destruct (IHa _ _ _ Hx) as (s1 & l1 & Hk & Hl & Hn).
    destruct (IHb _ _ _ Hk) as (s2 & l2 & Hk2 & Hl2 & Hn2).
    exists s2, (l1 ++ l2). split; [done|]. split; [by rewrite Hl, Hl2, app_assoc|].
    simpl. rewrite existsb_app. intros [Ha|Hb]%orb_true_iff; [by rewrite Hn|].
    by rewrite Hn2, orb_true_r.
  - destruct (matches a k s) as [y|] eqn:Hy.
    + injection Hx as ->. destruct (IHa _ _ _ Hy) as (s1 & l1 & Hk & Hl & Hn).
      exists s1, l1. split; [done|]. split; [done|]. simpl. intros [? ?]%andb_true_iff. by apply Hn.
    + destruct (IHb _ _ _ Hx) as (s1 & l1 & Hk & Hl & Hn).
      exists s1, l1. split; [done|]. split; [done|]. simpl. intros [? ?]%andb_true_iff. by apply Hn.
  - destruct (rounds_consumed (matches a) k (S (length (rest s))) s x) as (s1 & l & Hk & Hl & _).
    + intros k' s' y Hy. destruct (IHa _ _ _ Hy) as (s1 & l & Hk & Hl & _). by exists s1, l.
    + exact Hx.
    + by exists s1, l.
  - destruct (word_boundary s); [|done]. by exists s, [].
  - destruct (IHa _ _ _ Hx) as (s1 & l & Hk & Hl & Hn). by exists (captured s s1), l.
Qed.

(** A text without the byte an expression needs is left as it is. *)
Lemma replace_needs (f : ascii → bool) (r : re) (repl : list ascii → list ascii) (n : nat) (s : cursor) :
  needs f r = true → existsb f (rest s) = false → replace_from r repl n s = rest s.
Proof.
  intros Hn. revert s. induction n as [|n IH]; intros s Hf; [done|]. simpl.
  destruct (matches r _ s) as [s'|] eqn:Hm.
  - destruct (matches_consumed f _ _ _ _ Hm) as (s1 & l & _ & Hl & Hl').
    rewrite Hl, existsb_app, (Hl' Hn) in Hf. done.
  - destruct (rest s) as [|c l] eqn:Hr; [done|]. simpl in Hf. apply orb_false_iff in Hf as [_ Hf].
    by rewrite IH.
Qed.

Lemma existsb_contains (c : ascii) (s : string) :
  existsb (λ x, bool_decide (x = c)) (String.list_ascii_of_string s) = contains_byte c s.
Proof.
  induction s as [|a s IH]; [done|]. simpl. by rewrite IH.
Qed.

Lemma ReplaceAll_needs (c : ascii) (r : re) (repl : list ascii → list ascii) (s : string) :
  needs (λ x, bool_decide (x = c)) r = true → contains_byte c s = false → ReplaceAll r repl s = s.
Proof.
  intros Hn Hc. unfold ReplaceAll. rewrite (replace_needs _ r repl _ _ Hn).
  - apply String.string_of_list_ascii_of_string.
  - simpl. by rewrite existsb_contains.
Qed.
