(* ===== verification/Logging.v ===== *)
(** * The logger (src/internal/logging)

    Levels and formats, the redaction of attributes and of text, the suppression of
    repeated lines, and the chain of handlers a record passes: trace, throttle, redact,
    backend.  The backend is what receives; how it prints is slog's and tint's. *)
From stdpp Require Import options.
From S2P Require Import Prelude GoStrings GoDuration Apperr ConfigBase Regexp Sha256.
From S2P Require ConfigSections.
From Stdlib Require Import Ascii.
Open Scope Z_scope.

(** ** Levels and formats *)

Definition LevelTrace : Z := -8.
Definition LevelDebug : Z := -4.
Definition LevelInfo : Z := 0.
Definition LevelWarn : Z := 4.
Definition LevelError : Z := 8.

Definition ParseLevel `{GoText} (s : string) : result err Z :=
  let t := to_lower (trim_space s) in
  if decide (t = "trace") then Ok LevelTrace
  else if decide (t = "debug") then Ok LevelDebug
  else if decide (t ∈ ["info"; ""]) then Ok LevelInfo
  else if decide (t ∈ ["warn"; "warning"]) then Ok LevelWarn
  else if decide (t ∈ ["error"; "err"]) then Ok LevelError
  else Err (ENew ("unknown log level " +:+ Quote s
                  +:+ " (want one of: error, warn, info, debug, trace)")%string).

(** [slog.Level.String]: the tier below, and the distance to it. *)
Definition level_String (l : Z) : string :=
  let from (base : string) (v : Z) :=
    if v =? 0 then base else (base +:+ (if (0 <? v)%Z then "+" else "") +:+ itoa v)%string in
  if l <? LevelInfo then from "DEBUG" (l - LevelDebug)
  else if l <? LevelWarn then from "INFO" (l - LevelInfo)
  else if l <? LevelError then from "WARN" (l - LevelWarn)
  else from "ERROR" (l - LevelError).

Definition LevelName (l : Z) : string := if l =? LevelTrace then "TRACE" else level_String l.

Definition FormatAuto : string := "auto".
Definition FormatText : string := "text".
Definition FormatJSON : string := "json".

Definition resolveFormat `{GoText} (format : string) (isTerminal : bool) : result err string :=
  let t := to_lower (trim_space format) in
  if decide (t = FormatJSON) then Ok FormatJSON
  else if decide (t ∈ [FormatText; "console"]) then Ok FormatText
  else if decide (t ∈ [FormatAuto; ""]) then Ok (if isTerminal then FormatText else FormatJSON)
  else Err (ENew ("unknown log format " +:+ Quote format +:+ " (want one of: " +:+ FormatAuto +:+ ", "
                  +:+ FormatText +:+ ", " +:+ FormatJSON +:+ ")")%string).

(** [NO_COLOR] and [FORCE_COLOR], as [LookupEnv] and [Getenv] answer. *)
Definition colorEnabled (no_color : option string) (force_color : string) (isTerminal : bool) : bool :=
  match no_color with
  | Some _ => false
  | None => if decide (force_color = "") then isTerminal
            else if decide (force_color = "0") then isTerminal else true
  end.

(** The level of the knob, and the complaint. *)
Definition resolveLevel `{GoText} (name : string) : Z * option err :=
  if decide (name = "") then (LevelInfo, None)
  else match ParseLevel name with
       | Ok l => (l, None)
       | Err e => (LevelInfo, Some e)
       end.

(** The backend's format: an unknown one falls back to JSON. *)
Definition newBackend `{GoText} (format : string) (isTerminal : bool) : string * option err :=
  match resolveFormat format isTerminal with
  | Ok f => (f, None)
  | Err e => (FormatJSON, Some e)
  end.

(** ** Text *)

Definition Redacted : string :=
  (bytes_string [194; 171]%nat +:+ "redacted" +:+ bytes_string [194; 187]%nat)%string.

Definition none_of (cs : string) (c : ascii) : bool := negb (one_of cs c) && negb (space c).

Definition urlUserinfoRe : re :=
  RSeq (RGroup (RSeq (RSet alpha)
         (RSeq (RStar (RSet (λ c, alpha c || digit c || one_of "+.-" c)))
         (RSeq (chr ":") (RSeq (chr "/") (RSeq (chr "/") (RPlus (RSet (none_of ":/@")))))))))
       (RSeq (chr ":") (RSeq (RStar (RSet (none_of "@"))) (chr "@"))).

Definition double_quote : ascii := ascii_of_nat 34.
Definition quoted (q : ascii) : re :=
  RSeq (chr q) (RSeq (RStar (RSet (λ c, negb (bool_decide (c = q))))) (chr q)).

Definition kvPasswordRe : re :=
  RSeq RWord (RSeq (RGroup (alternatives (fold_word <$> ["password"; "passwd"; "secret"; "token"])))
    (RSeq (RStar (RSet space)) (RSeq (chr "=") (RSeq (RStar (RSet space))
      (alternatives [quoted double_quote; quoted "'"; RPlus (RSet (none_of ""))]))))).

(** A letter or a digit of the class under [(?i)], which adds the two folding runes. *)
Definition credential_byte : re :=
  alternatives [RSet (λ c, alpha c || digit c || one_of "._~+/=-" c);
                of_bytes [197; 191]%nat; of_bytes [226; 132; 170]%nat].

Definition bearerRe : re :=
  RSeq RWord (RSeq (RGroup (alternatives (fold_word <$> ["bearer"; "basic"])))
    (RSeq (RPlus (RSet space)) (RPlus credential_byte))).

(** [$1], a separator, the mask, and what follows it. *)
Definition masked (sep after : string) (g : list ascii) : list ascii :=
  g ++ String.list_ascii_of_string (sep +:+ Redacted +:+ after)%string.

Definition ScrubValue (s : string) : string :=
  if decide (s = "") then s else
  let s := if contains_byte "@" s then ReplaceAll urlUserinfoRe (masked ":" "@") s else s in
  let s := if contains_byte "=" s then ReplaceAll kvPasswordRe (masked "=" "") s else s in
  ReplaceAll bearerRe (masked " " "") s.

(** The first eight characters of the digest in hexadecimal. *)
Definition Fingerprint (s : string) : string :=
  String.substring 0 8 (hex_EncodeToString (sha256 s)).

(** ** Attributes *)

Definition denied : gset string := list_to_set
  ["access_token"; "api_key"; "apikey"; "auth_token"; "authorization"; "bearer"; "bearer_token";
   "body"; "client_secret"; "cookie"; "credential"; "credentials"; "database_url"; "dsn";
   "idempotency_key"; "passwd"; "password"; "private_key"; "refresh_token"; "request_body";
   "response_body"; "secret"; "set-cookie"; "token"].

Definition is_denied (key : string) : bool := bool_decide (to_lower key ∈ denied).

(** An attribute's value: text, a group, an error with its text, a [LogValuer] with what
    it resolves to, or a value of another kind. *)
Inductive value : Type :=
  | VString (s : string)
  | VGroup (attrs : list (string * value))
  | VError (text : string)
  | VValuer (v : value)
  | VOther (payload : string).

Abbreviation attr := (string * value)%type.

Fixpoint sanitize_value (key : string) (v : value) : value :=
  if is_denied key then VString Redacted
  else
    match v with
    | VValuer v => sanitize_value key v
    | VGroup attrs => VGroup (map (λ '(k, v), (k, sanitize_value k v)) attrs)
    | VString s => VString (ScrubValue s)
    | VError t => if decide (ScrubValue t = t) then v else VString (ScrubValue t)
    | VOther _ => v
    end.

Definition sanitize (a : attr) : attr := (a.1, sanitize_value a.1 a.2).

(** ** Records *)

Record Record : Type := mkRecord { Level : Z; Message : string; Attrs : list attr }.

Definition AddAttrs (l : list attr) (r : Record) : Record :=
  mkRecord (Level r) (Message r) (Attrs r ++ l).

Definition redact_Handle (r : Record) : Record :=
  mkRecord (Level r) (ScrubValue (Message r)) (sanitize <$> Attrs r).

(** ** Suppression *)

Definition maxThrottleKeys : Z := 512.
Definition throttleWindow : Z := 10 * second.

Record throttleEntry : Type := mkEntry { lastEmit : Z; suppressed : Z }.

Abbreviation seenMap := (gmap string throttleEntry).

Definition throttle_key (r : Record) : string :=
  (itoa (Level r) +:+ String (ascii_of_nat 0) (Message r))%string.

Definition msize (m : seenMap) : Z := Z.of_nat (size m).

Section throttle.
Context (window : Z).

Definition evictLocked (now : Z) (seen : seenMap) : seenMap :=
  if msize seen <? maxThrottleKeys then seen
  else
    let cutoff := now + wrap64 (-10 * window) in
    let seen := filter (λ ke : string * throttleEntry, ¬ lastEmit ke.2 < cutoff) seen in
    if maxThrottleKeys <=? msize seen then ∅ else seen.

(** Whether the record is emitted, the twins dropped since the last one, and the map. *)
Definition admit_key (now : Z) (key : string) (seen : seenMap) : bool * Z * seenMap :=
  match seen !! key with
  | None => (true, 0, <[key := mkEntry now 0]> (evictLocked now seen))
  | Some e =>
      if window <=? now - lastEmit e then
        (true, suppressed e, <[key := mkEntry now 0]> seen)
      else (false, 0, <[key := mkEntry (lastEmit e) (suppressed e + 1)]> seen)
  end.

(** [throttleHandler.Handle], and that of the handlers derived from it, which share the
    map: the record handed on, if any. *)
Definition throttle_Handle (now : Z) (r : Record) (seen : seenMap) : option Record * seenMap :=
  if Level r <? LevelWarn then (Some r, seen)
  else
    let '(emit, n, seen) := admit_key now (throttle_key r) seen in
    (if emit then Some (if 0 <? n then AddAttrs [("suppressed", VOther (itoa n))] r else r) else None,
     seen).
End throttle.

(** ** The chain *)

(** The active span: whether it is valid, whether it is sampled, and its two ids. *)
Record Span : Type := mkSpan { IsValid : bool; IsSampled : bool; TraceID : string; SpanID : string }.

Definition trace_Handle (sc : Span) (r : Record) : Record :=
  if IsValid sc && IsSampled sc then
    AddAttrs [("trace_id", VString (TraceID sc)); ("span_id", VString (SpanID sc))] r
  else r.

Record Options : Type := mkOptions {
  o_Level : string; o_Format : string; o_Service : string; o_Version : string; NoThrottle : bool }.

(** A logger: the knob, the attributes given with [With] - sanitized on their way to the
    backend - and the map, which loggers derived from one another share: whoever uses
    several passes it from call to call. *)
Record Handle : Type := mkHandle {
  lvl : Z; format : string; base : list attr; throttled : bool; seen : seenMap }.

Definition With (l : list attr) (h : Handle) : Handle :=
  mkHandle (lvl h) (format h) (base h ++ (sanitize <$> l)) (throttled h) (seen h).

Definition withBaseAttrs (o : Options) (h : Handle) : Handle :=
  let h := if decide (o_Service o = "") then h else With [("service", VString (o_Service o))] h in
  if decide (o_Version o = "") then h else With [("version", VString (o_Version o))] h.

(** [New]: always a logger, with the complaints joined. *)
Definition New `{GoText} (o : Options) (isTerminal : bool) : Handle * list err :=
  let '(l, e1) := resolveLevel (o_Level o) in
  let '(f, e2) := newBackend (o_Format o) isTerminal in
  (withBaseAttrs o (mkHandle l f [] (negb (NoThrottle o)) ∅),
   omap (λ e, e) [e1; e2]).

Definition SetLevel `{GoText} (name : string) (h : Handle) : Handle * option err :=
  match ParseLevel name with
  | Ok l => (mkHandle l (format h) (base h) (throttled h) (seen h), None)
  | Err e => (h, Some e)
  end.

Definition LevelString (h : Handle) : string := LevelName (lvl h).

(** A call of the logger: below the knob nothing happens; what the backend receives are
    the attributes of the logger and the record. *)
Definition Log (now : Z) (sc : Span) (r : Record) (h : Handle) : option (list attr * Record) * Handle :=
  if Level r <? lvl h then (None, h)
  else
    let r := trace_Handle sc r in
    let '(out, s) := if throttled h then throttle_Handle throttleWindow now r (seen h) else (Some r, seen h) in
    ((λ r, (base h, redact_Handle r)) <$> out,
     mkHandle (lvl h) (format h) (base h) (throttled h) s).

Fixpoint log_all (calls : list (Z * Span * Record)) (h : Handle) : list (list attr * Record) :=
  match calls with
  | [] => []
  | (now, sc, r) :: calls =>
      let '(out, h) := Log now sc r h in
      match out with Some x => x :: log_all calls h | None => log_all calls h end
  end.
