(* ===== verification/LoggingProps.v ===== *)
(** * What the logger promises

    No value under a denied key reaches the backend; a repeated warning is emitted once a
    window with a true count of what was dropped; a validated configuration always gives
    a logger.  Then what the text scrubbers let through. *)
From stdpp Require Import options.
From S2P Require Import Prelude GoStrings GoDuration Apperr ConfigBase Regexp Logging.
From S2P Require ConfigSections ConfigProps.
From Stdlib Require Import Ascii.
Open Scope Z_scope.

#[local] Arguments ScrubValue : simpl never.
#[local] Arguments is_denied : simpl never.

(** ** Redaction *)

(** Two values an observer without secrets cannot tell apart under a key: the same, up to
    what stands under denied keys at any depth. *)
Inductive agree : string → value → value → Prop :=
  | agree_denied k v v' : is_denied k = true → agree k v v'
  | agree_refl k v : agree k v v
  | agree_group k l l' : agrees l l' → agree k (VGroup l) (VGroup l')
  | agree_valuer k v v' : agree k v v' → agree k (VValuer v) (VValuer v')
with agrees : list attr → list attr → Prop :=
  | agrees_nil : agrees [] []
  | agrees_cons k v v' l l' : agree k v v' → agrees l l' → agrees ((k, v) :: l) ((k, v') :: l').

Scheme agree_mut := Minimality for agree Sort Prop
  with agrees_mut := Minimality for agrees Sort Prop.

Lemma sanitize_denied (k : string) (v : value) :
  is_denied k = true → sanitize_value k v = VString Redacted.
Proof. intros Hk. destruct v; simpl; by rewrite Hk. Qed.

Lemma sanitize_agree (k : string) (v v' : value) :
  agree k v v' → sanitize_value k v = sanitize_value k v'.
Proof.
  revert k v v'. apply (agree_mut (λ k v v', sanitize_value k v = sanitize_value k v')
    (λ l l', map (λ '(k, v), (k, sanitize_value k v)) l = map (λ '(k, v), (k, sanitize_value k v)) l')).
  - intros k v v' Hk. by rewrite !sanitize_denied.
  - done.
  - intros k l l' _ IH. simpl. destruct (is_denied k); [done|]. by rewrite IH.
  - intros k v v' _ IH. simpl. by rewrite IH.
  - done.
  - intros k v v' l l' _ IHv _ IHl. simpl. by rewrite IHv, IHl.
Qed.

Lemma sanitize_agrees (l l' : list attr) : agrees l l' → sanitize <$> l = sanitize <$> l'.
Proof.
  induction 1 as [|k v v' l l' Hv _ IH]; [done|]. rewrite !fmap_cons, IH. f_equal.
  unfold sanitize. simpl. by rewrite (sanitize_agree _ _ _ Hv).
Qed.

Lemma agrees_refl (l : list attr) : agrees l l.
Proof. induction l as [|[k v] l IH]; constructor; [apply agree_refl|done]. Qed.

Lemma agrees_app (l l' m m' : list attr) : agrees l l' → agrees m m' → agrees (l ++ m) (l' ++ m').
Proof. induction 1; intros Hm; [done|]. simpl. constructor; auto. Qed.

(** Records that agree: the same level and message. *)
Definition agree_record (r r' : Record) : Prop :=
  Level r = Level r' ∧ Message r = Message r' ∧ agrees (Attrs r) (Attrs r').

Lemma agree_AddAttrs (l : list attr) (r r' : Record) :
  agree_record r r' → agree_record (AddAttrs l r) (AddAttrs l r').
Proof.
  intros (? & ? & ?). repeat split; try done. simpl. apply agrees_app; [done|apply agrees_refl].
Qed.

Lemma agree_trace (sc : Span) (r r' : Record) :
  agree_record r r' → agree_record (trace_Handle sc r) (trace_Handle sc r').
Proof. intros Hr. unfold trace_Handle. destruct (_ && _); [by apply agree_AddAttrs|done]. Qed.

Lemma redact_agree (r r' : Record) : agree_record r r' → redact_Handle r = redact_Handle r'.
Proof. intros (Hl & Hm & Ha). unfold redact_Handle. by rewrite Hl, Hm, (sanitize_agrees _ _ Ha). Qed.

Lemma throttle_agree (w now : Z) (r r' : Record) (s : seenMap) :
  agree_record r r' →
  (throttle_Handle w now r s).2 = (throttle_Handle w now r' s).2
  ∧ redact_Handle <$> (throttle_Handle w now r s).1 = redact_Handle <$> (throttle_Handle w now r' s).1.
Proof.
  intros Hr. pose proof Hr as (Hl & Hm & _). unfold throttle_Handle, throttle_key. rewrite <- Hl, <- Hm.
  destruct (Level r <? LevelWarn); [split; [done|by simpl; rewrite (redact_agree _ _ Hr)]|].
  destruct (admit_key _ _ _ _) as [[emit n] s']. split; [done|]. simpl. destruct emit; [|done]. simpl.
  f_equal. apply redact_agree. destruct (0 <? n); [by apply agree_AddAttrs|done].
Qed.

Lemma Log_agree (now : Z) (sc : Span) (r r' : Record) (h : Handle) :
  agree_record r r' → Log now sc r h = Log now sc r' h.
Proof.
  intros Hr. unfold Log. pose proof Hr as (Hl & _). rewrite <- Hl.
  destruct (Level r <? lvl h); [done|]. apply (agree_trace sc) in Hr.
  destruct (throttled h).
  - destruct (throttle_agree throttleWindow now _ _ (seen h) Hr) as [H2 H1].
    destruct (throttle_Handle _ _ (trace_Handle sc r) _) as [o s],
      (throttle_Handle _ _ (trace_Handle sc r') _) as [o' s']. simpl in *. subst s'.
    destruct o, o'; simpl in *; try done. apply (inj Some) in H1. by rewrite H1.
  - simpl. by rewrite (redact_agree _ _ Hr).
Qed.

(** A value without secrets: no denied key in it, and nothing its scrubbing changes. *)
Inductive plain : string → value → Prop :=
  | plain_string k s : is_denied k = false → ScrubValue s = s → plain k (VString s)
  | plain_error k s : is_denied k = false → ScrubValue s = s → plain k (VError s)
  | plain_other k p : is_denied k = false → plain k (VOther p)
  | plain_group k l : is_denied k = false → plains l → plain k (VGroup l)
with plains : list attr → Prop :=
  | plains_nil : plains []
  | plains_cons k v l : plain k v → plains l → plains ((k, v) :: l).

Scheme plain_mut := Minimality for plain Sort Prop
  with plains_mut := Minimality for plains Sort Prop.

Lemma sanitize_plain (k : string) (v : value) : plain k v → sanitize_value k v = v.
Proof.
  revert k v. apply (plain_mut (λ k v, sanitize_value k v = v)
    (λ l, map (λ '(k, v), (k, sanitize_value k v)) l = l)); try done.
  - intros k s Hk Hs. simpl. by rewrite Hk, Hs.
  - intros k s Hk Hs. simpl. rewrite Hk. by rewrite decide_True.
  - intros k p Hk. simpl. by rewrite Hk.
  - intros k l Hk _ IH. simpl. by rewrite Hk, IH.
  - intros k v l _ IHv _ IHl. simpl. by rewrite IHv, IHl.
Qed.

(** ** Suppression *)

(** One key on its own: the answers it got, oldest first, and the entry it is left with. *)
Inductive window_run (w : Z) : list (Z * bool * Z) → option throttleEntry → Prop :=
  | wr_nil : window_run w [] None
  | wr_first t : window_run w [(t, true, 0)] (Some (mkEntry t 0))
  | wr_drop out e t :
      window_run w out (Some e) → t - lastEmit e < w →
      window_run w (out ++ [(t, false, 0)]) (Some (mkEntry (lastEmit e) (suppressed e + 1)))
  | wr_emit out e t :
      window_run w out (Some e) → w ≤ t - lastEmit e →
      window_run w (out ++ [(t, true, suppressed e)]) (Some (mkEntry t 0)).

(** The answers of a sequence of arrivals, and the map they leave. *)
Fixpoint admissions (w : Z) (arrivals : list (Z * string)) (seen : seenMap)
  : list (string * (Z * bool * Z)) * seenMap :=
  match arrivals with
  | [] => ([], seen)
  | (now, key) :: arrivals =>
      let '(emit, n, seen) := admit_key w now key seen in
      let '(out, seen) := admissions w arrivals seen in
      ((key, (now, emit, n)) :: out, seen)
  end.

Definition answers_of (key : string) (out : list (string * (Z * bool * Z))) : list (Z * bool * Z) :=
  omap (λ ka, if decide (ka.1 = key) then Some ka.2 else None) out.

Definition dropped (a : Z * bool * Z) : Prop := a.1.2 = false.

(** The last emission, and what came after it. *)
Lemma window_run_split (w : Z) (out : list (Z * bool * Z)) (e : throttleEntry) :
  window_run w out (Some e) →
  ∃ pre n mid, out = pre ++ (lastEmit e, true, n) :: mid ∧ Forall dropped mid
    ∧ suppressed e = Z.of_nat (length mid).
Proof.
  remember (Some e) as oe eqn:He. intros Hr. revert e He.
  induction Hr as [|t|out e t Hr IH Ht|out e t Hr IH Ht]; intros e0 He; simplify_eq/=.
  - by exists [], 0, [].
  - destruct (IH e eq_refl) as (pre & n & mid & -> & Hm & Hs).
    exists pre, n, (mid ++ [(t, false, 0)]). split; [by rewrite <- app_assoc|].
    split; [apply Forall_app; split; [done|by repeat constructor]|]. rewrite length_app. simpl. lia.
  - exists out, (suppressed e), []. done.
Qed.

(** Every answer is what the last emission calls for: the first record is emitted; a later
    one is when a window has passed since, with the count of what was dropped, and is
    dropped when it has not. *)
Definition served (w : Z) (out : list (Z * bool * Z)) : Prop :=
  ∀ pre t emit n post, out = pre ++ (t, emit, n) :: post →
    (pre = [] ∧ emit = true ∧ n = 0)
    ∨ ∃ pre' t0 n0 mid, pre = pre' ++ (t0, true, n0) :: mid ∧ Forall dropped mid
      ∧ (w ≤ t - t0 ∧ emit = true ∧ n = Z.of_nat (length mid) ∨ t - t0 < w ∧ emit = false ∧ n = 0).

Lemma served_snoc (w : Z) (out : list (Z * bool * Z)) (e : throttleEntry) (a : Z * bool * Z) :
  window_run w out (Some e) → served w out →
  (w ≤ a.1.1 - lastEmit e ∧ a.1.2 = true ∧ a.2 = suppressed e
   ∨ a.1.1 - lastEmit e < w ∧ a.1.2 = false ∧ a.2 = 0) →
  served w (out ++ [a]).
Proof.
  intros Hr Ho Ha pre t emit n post Heq. destruct post as [|b post _] using rev_ind.
  - apply app_inj_tail in Heq as [<- ->]. simpl in Ha. right.
    destruct (window_run_split _ _ _ Hr) as (pre' & n' & mid & -> & Hm & Hs).
    exists pre', (lastEmit e), n', mid. split; [done|]. split; [done|]. rewrite <- Hs. exact Ha.
  - rewrite app_comm_cons, app_assoc in Heq. apply app_inj_tail in Heq as [-> _]. by eapply Ho.
Qed.

Lemma window_run_served (w : Z) (out : list (Z * bool * Z)) (oe : option throttleEntry) :
  window_run w out oe → served w out.
Proof.
  induction 1 as [|t|out e t Hr IH Ht|out e t Hr IH Ht].
  - intros [|? ?] ? ? ? ? ?; done.
  - intros [|? [|? ?]] ? ? ? ? [=]; subst. by left.
  - eapply served_snoc; eauto.
  - eapply served_snoc; eauto.
Qed.

Lemma evictLocked_bound (w now : Z) (seen : seenMap) : msize (evictLocked w now seen) < maxThrottleKeys.
Proof.
  unfold evictLocked. destruct (msize seen <? maxThrottleKeys) eqn:Hs; zbool; [done|].
  destruct (maxThrottleKeys <=? _) eqn:Hf; zbool; [|done]. unfold msize. by rewrite map_size_empty.
Qed.

Lemma msize_insert (k : string) (e : throttleEntry) (seen : seenMap) :
  msize (<[k := e]> seen) = if decide (seen !! k = None) then msize seen + 1 else msize seen.
Proof.
  unfold msize. case_decide as Hk.
  - rewrite map_size_insert_None by done. lia.
  - destruct (seen !! k) eqn:Hl; [|done]. by erewrite map_size_insert_Some.
Qed.

Lemma admit_bound (w now : Z) (key : string) (seen : seenMap) :
  msize seen ≤ maxThrottleKeys → msize (admit_key w now key seen).2 ≤ maxThrottleKeys.
Proof.
  intros Hs. unfold admit_key. destruct (seen !! key) as [e|] eqn:Hk.
  - destruct (w <=? _); simpl; rewrite msize_insert, Hk; simpl; done.
  - simpl. rewrite msize_insert. pose proof (evictLocked_bound w now seen). case_decide; lia.
Qed.

(** Every key's answers follow its own window, as long as the map never fills. *)
Definition follows (w : Z) (out : list (string * (Z * bool * Z))) (seen : seenMap) : Prop :=
  ∀ key, window_run w (answers_of key out) (seen !! key).

Lemma answers_of_snoc (key key' : string) (out : list (string * (Z * bool * Z))) (a : Z * bool * Z) :
  answers_of key (out ++ [(key', a)])
  = answers_of key out ++ (if decide (key' = key) then [a] else []).
Proof. unfold answers_of. rewrite omap_app. simpl. by destruct (decide (key' = key)). Qed.

Lemma admit_follows (w now : Z) (key : string) (out : list (string * (Z * bool * Z))) (seen : seenMap) :
  follows w out seen → (seen !! key = None → msize seen < maxThrottleKeys) →
  let '(emit, n, seen') := admit_key w now key seen in
  follows w (out ++ [(key, (now, emit, n))]) seen'
  ∧ dom seen' = {[ key ]} ∪ dom seen.
Proof.
  intros Hf Hs. unfold admit_key. destruct (seen !! key) as [e|] eqn:Hk.
  - assert (Hd : dom seen = {[ key ]} ∪ dom seen)
      by (apply elem_of_dom_2 in Hk; set_solver).
    destruct (w <=? now - lastEmit e) eqn:Hw; zbool; (split; [|by rewrite dom_insert_L]);
      intros k; rewrite answers_of_snoc; (destruct (decide (key = k)) as [<-|Hne];
        [rewrite lookup_insert_eq|rewrite lookup_insert_ne, app_nil_r by done; apply Hf]);
      pose proof (Hf key) as Hr; rewrite Hk in Hr; by constructor.
  - unfold evictLocked. rewrite (proj2 (Z.ltb_lt _ _) (Hs eq_refl)).
    split; [|by rewrite dom_insert_L].
    intros k. rewrite answers_of_snoc. destruct (decide (key = k)) as [<-|Hne];
      [rewrite lookup_insert_eq|rewrite lookup_insert_ne, app_nil_r by done; apply Hf].
    pose proof (Hf key) as Hr. rewrite Hk in Hr. inversion Hr as [Hn| | |]. apply wr_first.
Qed.

Lemma admissions_follow (w : Z) (K : gset string) (arrivals : list (Z * string)) :
  Z.of_nat (size K) ≤ maxThrottleKeys → Forall (λ tk, tk.2 ∈ K) arrivals →
  ∀ out seen, dom seen ⊆ K → follows w out seen →
    follows w (out ++ (admissions w arrivals seen).1) (admissions w arrivals seen).2.
Proof.
  intros HK. induction arrivals as [|[now key] arrivals IH]; intros Hall out seen Hd Hf; simpl.
  { by rewrite app_nil_r. }
  apply Forall_cons in Hall as [Hkey Hall]. simpl in Hkey.
  pose proof (admit_follows w now key out seen Hf) as Ha.
  destruct (admit_key w now key seen) as [[emit n] seen1]. destruct Ha as [Hf1 Hd1].
  { intros Hk. apply not_elem_of_dom in Hk. unfold msize. rewrite <- size_dom.
    assert (Hsub : {[ key ]} ∪ dom seen ⊆ K) by set_solver.
    apply subseteq_size in Hsub. rewrite size_union, size_singleton in Hsub by set_solver. lia. }
  assert (Hd2 : dom seen1 ⊆ K) by (rewrite Hd1; set_solver).
  specialize (IH Hall _ seen1 Hd2 Hf1). destruct (admissions w arrivals seen1) as [out2 seen2].
  simpl in *. by rewrite <- app_assoc in IH.
Qed.

Lemma admissions_bound (w : Z) (arrivals : list (Z * string)) (seen : seenMap) :
  msize seen ≤ maxThrottleKeys → msize (admissions w arrivals seen).2 ≤ maxThrottleKeys.
Proof.
  revert seen. induction arrivals as [|[now key] arrivals IH]; intros seen Hs; [done|]. simpl.
  pose proof (admit_bound w now key seen Hs) as Hb.
  destruct (admit_key w now key seen) as [[emit n] seen1]. specialize (IH seen1 Hb).
  by destruct (admissions w arrivals seen1).
Qed.

(** Every arrival of a key is answered, in order. *)
Definition arrivals_of (key : string) (arrivals : list (Z * string)) : list Z :=
  omap (λ tk, if decide (tk.2 = key) then Some tk.1 else None) arrivals.

Lemma admissions_answered (w : Z) (key : string) (arrivals : list (Z * string)) (seen : seenMap) :
  (λ a, a.1.1) <$> answers_of key (admissions w arrivals seen).1 = arrivals_of key arrivals.
Proof.
  revert seen. induction arrivals as [|[now k] arrivals IH]; intros seen; [done|].
  simpl. destruct (admit_key w now k seen) as [[emit n] seen1]. specialize (IH seen1).
  destruct (admissions w arrivals seen1) as [out seen2]. unfold answers_of, arrivals_of in *. simpl in *.
  destruct (decide (k = key)); simpl; [f_equal|]; exact IH.
Qed.

(** C38: the contract of the throttle.  Over any sequence of arrivals the map never holds
    more than [maxThrottleKeys] entries, and every arrival is answered.  As long as no more
    keys than that occur, every key is served on its own: its first record is emitted at
    once; after that a record is emitted exactly when a window has passed since the last
    emission, and says exactly how many twins were dropped in between. *)
Theorem throttle_contract (w : Z) (arrivals : list (Z * string)) :
  let '(out, seen) := admissions w arrivals ∅ in
  msize seen ≤ maxThrottleKeys
  ∧ (∀ key, (λ a, a.1.1) <$> answers_of key out = arrivals_of key arrivals)
  ∧ (Z.of_nat (size (list_to_set arrivals.*2 : gset string)) ≤ maxThrottleKeys → ∀ key,
       served w (answers_of key out)).
Proof.
  pose proof (admissions_bound w arrivals ∅) as Hb.
  assert (Hf : Z.of_nat (size (list_to_set arrivals.*2 : gset string)) ≤ maxThrottleKeys →
    follows w ([] ++ (admissions w arrivals ∅).1) (admissions w arrivals ∅).2).
  { intros HK. apply (admissions_follow w (list_to_set arrivals.*2)); [done| |set_solver|].
    - apply Forall_forall. intros tk Htk. apply elem_of_list_to_set, list_elem_of_fmap. by exists tk.
    - intros k. rewrite lookup_empty. constructor. }
  pose proof (λ key, admissions_answered w key arrivals ∅) as Hall.
  destruct (admissions w arrivals ∅) as [out seen]. split; [apply Hb; vm_decide|]. split; [exact Hall|].
  intros HK key. by eapply window_run_served, (Hf HK).
Qed.

(** Five identical errors in twelve seconds and one of another message. *)
Definition flood : list (Z * string) :=
  [(0, "down"); (1 * second, "down"); (2 * second, "slow"); (3 * second, "down");
   (10 * second, "down"); (12 * second, "down")].

Lemma throttle_contract_witness :
  served throttleWindow (answers_of "down" (admissions throttleWindow flood ∅).1)
  ∧ answers_of "down" (admissions throttleWindow flood ∅).1
    = [(0, true, 0); (1 * second, false, 0); (3 * second, false, 0); (10 * second, true, 2);
       (12 * second, false, 0)].
Proof.
  split; [|vm_compute; reflexivity].
  pose proof (throttle_contract throttleWindow flood) as Ht.
  destruct (admissions throttleWindow flood ∅) as [out seen].
  destruct Ht as (_ & _ & Hk). apply Hk. vm_compute. discriminate.
Defined.

(** ** Levels, formats, and what validation promises the logger *)

Lemma level_round_trip `{GoText} (l : Z) :
  l ∈ [LevelTrace; LevelDebug; LevelInfo; LevelWarn; LevelError] → ParseLevel (LevelName l) = Ok l.
Proof.
  intros Hl. repeat (apply elem_of_cons in Hl as [->|Hl]; [vm_compute; reflexivity|]).
  by apply elem_of_nil in Hl.
Qed.

Lemma checkLevel_parses `{GoText} (s : string) :
  ConfigSections.checkLevel s = None → ∃ l, ParseLevel s = Ok l.
Proof.
  unfold ConfigSections.checkLevel, ParseLevel. destruct (decide _) as [Hin|]; [intros _|done].
  repeat (apply elem_of_cons in Hin as [Hin|Hin]; [rewrite Hin; simpl; eexists; reflexivity|]).
  by apply elem_of_nil in Hin.
Qed.

(** Redaction is complete for keyed secrets.  Two runs of a logger whose calls differ
    only in what stands under denied keys, at any depth of groups and valuers, in the
    records or in the attributes given with [With], deliver the same to the backend,
    throttling included; and what holds no secret and no scrubbed text is delivered as
    it was given. *)
Lemma secrets_never_logged (h : Handle) (extra extra' : list attr)
  (calls calls' : list (Z * Span * Record)) :
  agrees extra extra' →
  Forall2 (λ c c', c.1 = c'.1 ∧ agree_record c.2 c'.2) calls calls' →
  log_all calls (With extra h) = log_all calls' (With extra' h)
  ∧ (∀ k v, plain k v → sanitize (k, v) = (k, v)).
Proof.
  intros He Hc. split; [|intros k v Hp; unfold sanitize; simpl; by rewrite (sanitize_plain k v Hp)].
  assert (With extra h = With extra' h) as <- by (unfold With; by rewrite (sanitize_agrees _ _ He)).
  generalize (With extra h) as g. clear He extra extra' h.
  induction Hc as [|[[now sc] r] [[now' sc'] r'] calls calls' [Heq Hr] _ IH]; intros g; [done|].
  simpl in Heq, Hr. simplify_eq. simpl. rewrite (Log_agree now' sc' r r' g Hr).
  destruct (Log now' sc' r' g) as [[x|] g']; by rewrite IH.
Qed.

Definition no_span : Span := mkSpan false false "" "".
Definition login (password : string) : Record :=
  mkRecord LevelError "login failed"
    [("user", VString "ada"); ("request", VGroup [("Password", VString password); ("tries", VOther "3")])].
Definition plain_logger : Handle := mkHandle LevelInfo FormatJSON [] true ∅.

Lemma secrets_never_logged_witness :
  log_all [(0, no_span, login "hunter2")] (With [("token", VString "t1")] plain_logger)
  = log_all [(0, no_span, login "correct horse")] (With [("token", VString "t2")] plain_logger)
  ∧ log_all [(0, no_span, login "hunter2")] plain_logger
    = [([], mkRecord LevelError "login failed"
              [("user", VString "ada");
               ("request", VGroup [("Password", VString Redacted); ("tries", VOther "3")])])].
Proof.
  split; [|vm_compute; reflexivity].
  apply (secrets_never_logged plain_logger).
  - constructor; [apply agree_denied; vm_compute; reflexivity|constructor].
  - constructor; [split; [done|]|constructor]. split; [done|]. split; [done|].
    apply agrees_cons; [apply agree_refl|]. apply agrees_cons; [|constructor].
    apply agree_group, agrees_cons; [apply agree_denied; vm_compute; reflexivity|apply agrees_refl].
Defined.

(** ** What the scrubbers let through *)

(** The tests for a byte before the first two expressions only save work. *)
Lemma scrub_unguarded (s : string) :
  s ≠ "" →
  ScrubValue s = ReplaceAll bearerRe (masked " " "") (ReplaceAll kvPasswordRe (masked "=" "")
                   (ReplaceAll urlUserinfoRe (masked ":" "@") s)).
Proof.
  intros Hs. unfold ScrubValue. rewrite decide_False by done. f_equal.
  assert (Hu : (if contains_byte "@" s then ReplaceAll urlUserinfoRe (masked ":" "@") s else s)
               = ReplaceAll urlUserinfoRe (masked ":" "@") s).
  { destruct (contains_byte "@" s) eqn:Hc; [done|]. symmetry.
    apply (ReplaceAll_needs "@"); [vm_compute; reflexivity|done]. }
  rewrite Hu. destruct (contains_byte "=" _) eqn:Hc; [done|]. symmetry.
  apply (ReplaceAll_needs "="); [vm_compute; reflexivity|done].
Qed.

Example scrubs_the_usual :
  ScrubValue "dial postgres://app:hunter2@db:5432/tasks" = ("dial postgres://app:" +:+ Redacted +:+ "@db:5432/tasks")%string
  ∧ ScrubValue "host=db password=hunter2 user=app" = ("host=db password=" +:+ Redacted +:+ " user=app")%string
  ∧ ScrubValue "Authorization: Bearer abc.def" = ("Authorization: Bearer " +:+ Redacted)%string.
Proof. vm_compute. done. Qed.

(** A credential after a scheme after [token=] survives: the second expression takes the
    scheme for the secret, and leaves nothing for the third to find. *)
Example scheme_hides_the_token :
  ScrubValue "token=Bearer s3cr3t" = ("token=" +:+ Redacted +:+ " s3cr3t")%string.
Proof. vm_compute. done. Qed.

(** A password without a user name, and the tail of one with an at sign, survive. *)
Example url_passwords_that_survive :
  ScrubValue "redis://:hunter2@cache:6379" = "redis://:hunter2@cache:6379"
  ∧ ScrubValue "postgres://app:p@ssw0rd@db" = ("postgres://app:" +:+ Redacted +:+ "@ssw0rd@db")%string.
Proof. vm_compute. done. Qed.

(** Eviction drops the count of a quiet key with the key: after 512 other messages the
    twins dropped in the first window are never reported. *)
Example eviction_forgets_the_count :
  let others := (λ n, (200 * second, itoa (Z.of_nat n))) <$> seq 0 511 in
  last (admissions throttleWindow ([(0, "down"); (1 * second, "down")] ++ others
          ++ [(200 * second, "new"); (201 * second, "down")]) ∅).1
  = Some ("down", (201 * second, true, 0)).
Proof. vm_compute. done. Qed.
