(* ===== verification/LogHandlers.v ===== *)
(** * The handlers of the logger (src/internal/logging/logging.go, redact.go, throttle.go,
    trace.go)

    [Logging] has the chain as one function; this file has it as the objects the code
    builds: handlers that wrap one another, derived by [WithAttrs] and [WithGroup], the
    derived ones sharing the suppression map of the handler they come from and the level
    of one knob.  A handler's pointer to the map is a location in a store. *)
From stdpp Require Import options.
From S2P Require Import Prelude GoStrings GoDuration Apperr ConfigBase Regexp Logging LoggingProps.
From S2P Require ConfigProps.
From Stdlib Require Import Ascii.
Open Scope Z_scope.

#[local] Arguments ScrubValue : simpl never.
#[local] Arguments is_denied : simpl never.

(** ** logging.go: what is written to, and how values are written *)

(** The writer of the options: none, an open file or something else. *)
Inductive writer : Type := WNil | WFile (fd : Z) | WOther.

Record options : Type := mkLogOptions {
  lo_Writer : writer;
  lo_Level : string;
  lo_Format : string;
  lo_Service : string;
  lo_Version : string;
  lo_AddSource : bool;
  lo_NoThrottle : bool;
  lo_TimeFormat : string;
}.

Definition TimeOnly : string := "15:04:05".
Definition Stderr : writer := WFile 2.

Definition withDefaults (o : options) : options :=
  mkLogOptions (match lo_Writer o with WNil => Stderr | w => w end) (lo_Level o) (lo_Format o)
    (lo_Service o) (lo_Version o) (lo_AddSource o) (lo_NoThrottle o)
    (if decide (lo_TimeFormat o = "") then TimeOnly else lo_TimeFormat o).

(** [tty] and [cygwin] are the two tests of the isatty library on a descriptor. *)
Definition isTerminal (tty cygwin : Z → bool) (w : writer) : bool :=
  match w with WFile fd => tty fd || cygwin fd | _ => false end.

(** What a backend asks before it writes an attribute, by the kind of its value. *)
Inductive written : Type :=
  | WLevel (l : Z)
  | WDuration (d : Z)
  | WText (s : string)
  | WAny (payload : string).

Definition LevelKey : string := "level".

Definition replaceAttr (groups : list string) (key : string) (v : written) : written :=
  if decide (key = LevelKey) then
    match v with WLevel l => WText (LevelName l) | _ => v end
  else match v with WDuration d => WText (Duration_String d) | _ => v end.

(** ** The handlers *)

(** What [WithAttrs] and [WithGroup] have given a backend, in order. *)
Inductive piece : Type := PAttrs (l : list attr) | PGroup (name : string).

Inductive handler : Type :=
  | Backend (pre : list piece)
  | Redacting (next : handler)
  | Throttling (seen : nat) (next : handler)
  | Sharing (parent : nat) (next : handler)
  | Tracing (next : handler).

Definition NewRedactHandler (h : handler) : handler := Redacting h.
Definition NewTraceHandler (h : handler) : handler := Tracing h.
(** The new map is at [fresh]. *)
Definition NewThrottleHandler (fresh : nat) (h : handler) : handler := Throttling fresh h.
(** [derive]: the suppression state stays the parent's. *)
Definition derive (seen : nat) (next : handler) : handler := Sharing seen next.

Fixpoint WithAttrs (l : list attr) (h : handler) : handler :=
  match h with
  | Backend pre => Backend (pre ++ [PAttrs l])
  | Redacting next => Redacting (WithAttrs (sanitize <$> l) next)
  | Throttling s next | Sharing s next => derive s (WithAttrs l next)
  | Tracing next => Tracing (WithAttrs l next)
  end.

Fixpoint WithGroup (name : string) (h : handler) : handler :=
  match h with
  | Backend pre => Backend (pre ++ [PGroup name])
  | Redacting next => Redacting (WithGroup name next)
  | Throttling s next | Sharing s next => derive s (WithGroup name next)
  | Tracing next => Tracing (WithGroup name next)
  end.

(** The knob decides, through every wrapper. *)
Fixpoint handler_Enabled (knob level : Z) (h : handler) : bool :=
  match h with
  | Backend _ => knob <=? level
  | Redacting next | Throttling _ next | Sharing _ next | Tracing next => handler_Enabled knob level next
  end.

Abbreviation maps := (gmap nat seenMap).

(** [throttleHandler.admit] on the map it points to. *)
Definition admit_record (now : Z) (s : nat) (r : Record) (m : maps) : bool * Z * maps :=
  let '(emit, n, seen) := admit_key throttleWindow now (throttle_key r) (default ∅ (m !! s)) in
  (emit, n, <[s := seen]> m).

(** What the backend gets: its own attributes and groups, and the record. *)
Abbreviation delivery := (list piece * Record)%type.

Fixpoint handle (now : Z) (sc : Span) (h : handler) (r : Record) (m : maps) : option delivery * maps :=
  match h with
  | Backend pre => (Some (pre, r), m)
  | Redacting next => handle now sc next (redact_Handle r) m
  | Throttling s next | Sharing s next =>
      if Level r <? LevelWarn then handle now sc next r m
      else
        let '(emit, n, m) := admit_record now s r m in
        if emit then
          handle now sc next (if 0 <? n then AddAttrs [("suppressed", VOther (itoa n))] r else r) m
        else (None, m)
  | Tracing next => handle now sc next (trace_Handle sc r) m
  end.

Definition decorate (h : handler) (noThrottle : bool) (fresh : nat) : handler :=
  let h := NewRedactHandler h in
  let h := if noThrottle then h else NewThrottleHandler fresh h in
  NewTraceHandler h.

(** ** log/slog: loggers *)

Definition Logger_With (l : list attr) (h : handler) : handler :=
  match l with [] => h | _ => WithAttrs l h end.
Definition Logger_WithGroup (name : string) (h : handler) : handler :=
  if decide (name = "") then h else WithGroup name h.

(** ** A process and the loggers it derives *)

Record logs : Type := mkLogs {
  knob : Z;
  loggers : list handler;
  suppressions : maps;
  delivered : list delivery;
}.

Inductive log_op : Type :=
  | LWith (i : nat) (l : list attr)
  | LGroup (i : nat) (name : string)
  | LCall (i : nat) (now : Z) (sc : Span) (r : Record)
  | LSetLevel (name : string).

Section logger.
Context `{GoText}.

(** [New]: the chain over its backend, with the base attributes. *)
Definition boot (o : options) : logs :=
  let o := withDefaults o in
  let h := decorate (Backend []) (lo_NoThrottle o) 0 in
  let h := if decide (lo_Service o = "") then h else Logger_With [("service", VString (lo_Service o))] h in
  let h := if decide (lo_Version o = "") then h else Logger_With [("version", VString (lo_Version o))] h in
  mkLogs (resolveLevel (lo_Level o)).1 [h] {[ 0%nat := ∅ ]} [].

Definition log_exec (op : log_op) (s : logs) : logs :=
  match op with
  | LWith i l =>
      match loggers s !! i with
      | Some h => mkLogs (knob s) (loggers s ++ [Logger_With l h]) (suppressions s) (delivered s)
      | None => s
      end
  | LGroup i name =>
      match loggers s !! i with
      | Some h => mkLogs (knob s) (loggers s ++ [Logger_WithGroup name h]) (suppressions s) (delivered s)
      | None => s
      end
  | LCall i now sc r =>
      match loggers s !! i with
      | Some h =>
          if handler_Enabled (knob s) (Level r) h then
            let '(out, m) := handle now sc h r (suppressions s) in
            mkLogs (knob s) (loggers s) m (delivered s ++ option_list out)
          else s
      | None => s
      end
  | LSetLevel name =>
      match ParseLevel name with
      | Ok l => mkLogs l (loggers s) (suppressions s) (delivered s)
      | Err _ => s
      end
  end.

Definition log_run (ops : list log_op) (s : logs) : logs := foldl (λ s op, log_exec op s) s ops.

(** ** Secrets, through every derived logger *)

(** Redaction stands between the logger and its backend. *)
Fixpoint redacts (h : handler) : bool :=
  match h with
  | Backend _ => false
  | Redacting _ => true
  | Throttling _ next | Sharing _ next | Tracing next => redacts next
  end.

Lemma redacts_With (l : list attr) (h : handler) : redacts (WithAttrs l h) = redacts h.
Proof. revert l. by induction h; simpl. Qed.
Lemma redacts_Group (name : string) (h : handler) : redacts (WithGroup name h) = redacts h.
Proof. by induction h. Qed.

Lemma redacts_Logger_With (l : list attr) (h : handler) : redacts (Logger_With l h) = redacts h.
Proof. destruct l; [done|apply redacts_With]. Qed.

Lemma WithAttrs_agree (l l' : list attr) (h : handler) :
  redacts h = true → agrees l l' → WithAttrs l h = WithAttrs l' h.
Proof.
  intros Hr Hl. induction h; simpl in *; try done; f_equal; auto.
  by rewrite (sanitize_agrees _ _ Hl).
Qed.

Lemma Logger_With_agree (l l' : list attr) (h : handler) :
  redacts h = true → agrees l l' → Logger_With l h = Logger_With l' h.
Proof. intros Hr Hl. pose proof (WithAttrs_agree l l' h Hr Hl). by destruct Hl. Qed.

Lemma handle_agree (now : Z) (sc : Span) (h : handler) (r r' : Record) (m : maps) :
  redacts h = true → agree_record r r' → handle now sc h r m = handle now sc h r' m.
Proof.
  intros Hh. revert r r' m. induction h as [pre|next IH|s next IH|s next IH|next IH]; intros r r' m Hr; simpl in *.
  - done.
  - by rewrite (redact_agree _ _ Hr).
  - pose proof Hr as (Hl & Hm & _). unfold admit_record, throttle_key. rewrite <- Hl, <- Hm.
    destruct (Level r <? LevelWarn); [by apply IH|].
    destruct (admit_key _ _ _ _) as [[[] n] seen]; [|done]. apply IH; [done|].
    destruct (0 <? n); [by apply agree_AddAttrs|done].
  - pose proof Hr as (Hl & Hm & _). unfold admit_record, throttle_key. rewrite <- Hl, <- Hm.
    destruct (Level r <? LevelWarn); [by apply IH|].
    destruct (admit_key _ _ _ _) as [[[] n] seen]; [|done]. apply IH; [done|].
    destruct (0 <? n); [by apply agree_AddAttrs|done].
  - apply IH; [done|]. by apply agree_trace.
Qed.

(** Two processes that differ only in secrets. *)
Inductive op_agree : log_op → log_op → Prop :=
  | oa_with i l l' : agrees l l' → op_agree (LWith i l) (LWith i l')
  | oa_group i name : op_agree (LGroup i name) (LGroup i name)
  | oa_call i now sc r r' : agree_record r r' → op_agree (LCall i now sc r) (LCall i now sc r')
  | oa_level name : op_agree (LSetLevel name) (LSetLevel name).

Definition all_redact (s : logs) : Prop := Forall (λ h, redacts h = true) (loggers s).

Lemma all_redact_lookup (s : logs) (i : nat) (h : handler) :
  all_redact s → loggers s !! i = Some h → redacts h = true.
Proof. intros Ha Hi. by eapply (Forall_lookup_1 _ _ _ _ Ha Hi). Qed.

Lemma all_redact_exec (op : log_op) (s : logs) : all_redact s → all_redact (log_exec op s).
Proof.
  intros Ha. destruct op as [i l|i name|i now sc r|name]; simpl.
  - destruct (loggers s !! i) as [h|] eqn:Hi; [|done]. apply Forall_app_2; [exact Ha|].
    apply Forall_singleton. rewrite redacts_Logger_With. by eapply all_redact_lookup.
  - destruct (loggers s !! i) as [h|] eqn:Hi; [|done]. apply Forall_app_2; [exact Ha|].
    apply Forall_singleton. pose proof (all_redact_lookup s i h Ha Hi).
    unfold Logger_WithGroup. case_decide; [done|by rewrite redacts_Group].
  - destruct (loggers s !! i); [|done]. case_match; [|done]. by destruct (handle _ _ _ _ _).
  - by destruct (ParseLevel name).
Qed.

Lemma boot_redacts (o : options) : all_redact (boot o).
Proof.
  apply Forall_singleton. assert (Hd : redacts (decorate (Backend []) (lo_NoThrottle (withDefaults o)) 0) = true)
    by (unfold decorate; by case_match).
  repeat case_decide; by rewrite ?redacts_Logger_With.
Qed.

Lemma exec_agree (op op' : log_op) (s : logs) : all_redact s → op_agree op op' → log_exec op s = log_exec op' s.
Proof.
  intros Ha Hop. destruct Hop as [i l l' Hl| |i now sc r r' Hr|]; simpl; [|done| |done].
  - destruct (loggers s !! i) as [h|] eqn:Hi; [|done].
    by rewrite (Logger_With_agree l l' h (all_redact_lookup s i h Ha Hi) Hl).
  - destruct (loggers s !! i) as [h|] eqn:Hi; [|done]. pose proof Hr as (<- & _).
    by rewrite (handle_agree now sc h r r' _ (all_redact_lookup s i h Ha Hi) Hr).
Qed.

(** ** The chain as one function *)

(** A chain over its backend does what [Logging.Log] does, and so do all the chains derived
    from it, over one map. *)
Lemma chain_Log (now : Z) (sc : Span) (r : Record) (m : maps) (s : nat) (seen : seenMap)
  (pre : list piece) (k : Z) (fmt : string) (base : list attr) (h : handler) :
  m !! s = Some seen → k ≤ Level r →
  h = Tracing (Throttling s (Redacting (Backend pre))) ∨ h = Tracing (Sharing s (Redacting (Backend pre))) →
  let flat := Log now sc r (mkHandle k fmt base true seen) in
  (handle now sc h r m).1 = (λ o, (pre, o.2)) <$> flat.1
  ∧ (handle now sc h r m).2 !! s = Some (Logging.seen flat.2).
Proof.
  intros Hm Hk Hh flat. subst flat. unfold Log. simpl.
  replace (Level r <? k) with false by (symmetry; apply Z.ltb_ge; lia).
  unfold throttle_Handle. destruct Hh as [-> | ->]; simpl.
  all: destruct (Level (trace_Handle sc r) <? LevelWarn); [done|]; unfold admit_record; rewrite Hm; simpl.
  all: destruct (admit_key _ _ _ seen) as [[[] n] seen']; simpl; rewrite ?lookup_insert_eq; try done.
Qed.

(** Stamping the span inside the throttle instead would deliver the same records, their
    attributes in another order. *)
Lemma trace_order (now : Z) (sc : Span) (r : Record) (m : maps) (s : nat) (pre : list piece) :
  let outside := handle now sc (Tracing (Throttling s (Redacting (Backend pre)))) r m in
  let inside := handle now sc (Throttling s (Tracing (Redacting (Backend pre)))) r m in
  inside.2 = outside.2
  ∧ match inside.1, outside.1 with
    | Some (p, a), Some (q, b) =>
        p = q ∧ Level a = Level b ∧ Message a = Message b ∧ Attrs a ≡ₚ Attrs b
    | None, None => True
    | _, _ => False
    end.
Proof.
  simpl. unfold trace_Handle. destruct (IsValid sc && IsSampled sc) eqn:Hs; simpl.
  - unfold admit_record, throttle_key. simpl. destruct (Level r <? LevelWarn); [done|].
    destruct (admit_key _ _ _ _) as [[[] n] seen]; simpl; [|done]. split; [done|].
    destruct (0 <? n); simpl; [|done]. split_and!; try done.
    rewrite !fmap_app. simpl. rewrite <- !(assoc_L (++)). solve_Permutation.
  - destruct (Level r <? LevelWarn); [done|]. destruct (admit_record _ _ _ _) as [[[] n] m']; done.
Qed.
End logger.

(** ** Properties *)

(** C37: no secret under a denied key reaches the backend, whichever of the loggers derived
    from one another is used.  Two processes whose loggers are derived, grouped, called and
    set to levels alike, and whose records and [With] attributes differ only in what stands
    under denied keys, at any depth of groups and valuers, deliver the same, suppressed
    lines included; and what holds no secret and no scrubbed text is delivered as it was
    given. *)
Theorem no_secret_delivered `{GoText} (o : options) (ops ops' : list log_op) :
  Forall2 op_agree ops ops' →
  log_run ops (boot o) = log_run ops' (boot o)
  ∧ (∀ k v, plain k v → sanitize (k, v) = (k, v)).
Proof.
  intros Hops. split; [|intros k v Hp; unfold sanitize; simpl; by rewrite (sanitize_plain k v Hp)].
  pose proof (boot_redacts o) as Ha. revert Ha. generalize (boot o) as s. unfold log_run.
  induction Hops as [|op op' ops ops' Hop _ IH]; intros s Ha; [done|]. simpl.
  rewrite (exec_agree op op' s Ha Hop). by apply IH, all_redact_exec.
Qed.

(** ** A process and its loggers *)

#[local] Existing Instance ConfigProps.plain_text.

Definition quiet_options : options := mkLogOptions WNil "info" "json" "" "" false false "".

(** The second logger is derived with [token], the third from it with a group. *)
Definition session (token password : string) : list log_op :=
  [LWith 0 [("token", VString token)]; LGroup 1 "request";
   LCall 1 0 no_span (login password); LCall 2 1 no_span (login password);
   LCall 0 (20 * second) no_span (login password)].

Lemma no_secret_delivered_witness :
  log_run (session "t1" "hunter2") (boot quiet_options)
  = log_run (session "t2" "correct horse") (boot quiet_options).
Proof.
  apply (no_secret_delivered quiet_options).
  assert (Hl : agree_record (login "hunter2") (login "correct horse")).
  { split; [done|]. split; [done|]. apply agrees_cons; [apply agree_refl|]. apply agrees_cons; [|constructor].
    apply agree_group, agrees_cons; [apply agree_denied; vm_compute; reflexivity|apply agrees_refl]. }
  apply Forall2_cons_2; [apply oa_with, agrees_cons; [apply agree_denied; vm_compute; reflexivity|constructor]|].
  apply Forall2_cons_2; [apply oa_group|].
  do 3 (apply Forall2_cons_2; [by apply oa_call|]). constructor.
Defined.

(** Loggers derived from one another share their budget: the twin of a line is dropped
    wherever it is logged from, and counted on the next one. *)
Example budget_shared :
  (λ d : delivery, (d.1, Attrs d.2)) <$> delivered (log_run (session "t" "p") (boot quiet_options))
  = [([PAttrs [("token", VString Redacted)]],
      [("user", VString "ada"); ("request", VGroup [("Password", VString Redacted); ("tries", VOther "3")])]);
     ([], [("user", VString "ada");
           ("request", VGroup [("Password", VString Redacted); ("tries", VOther "3")]);
           ("suppressed", VOther "1")])].
Proof. vm_compute. reflexivity. Qed.

(** A group opened under a denied name is not masked, as a group given as an attribute is. *)
Example group_name_unmasked :
  (λ d : delivery, (d.1, Attrs d.2))
    <$> delivered (log_run [LGroup 0 "credentials";
                            LCall 1 0 no_span (mkRecord LevelInfo "m" [("pin", VString "1234")]);
                            LCall 0 0 no_span (mkRecord LevelInfo "m" [("credentials", VGroup [("pin", VString "1234")])])]
                     (boot quiet_options))
  = [([PGroup "credentials"], [("pin", VString "1234")]); ([], [("credentials", VString Redacted)])].
Proof. vm_compute. reflexivity. Qed.

(** An empty time format is the default one: it does not turn the time off. *)
Example empty_time_format : lo_TimeFormat (withDefaults quiet_options) = TimeOnly.
Proof. reflexivity. Qed.

(** A setting called level that is a duration is written as a bare count. *)
Example level_key_duration :
  replaceAttr [] "level" (WDuration second) = WDuration second
  ∧ replaceAttr [] "window" (WDuration second) = WText "1s".
Proof. split; vm_compute; reflexivity. Qed.
