(* ===== verification/Purger.v ===== *)
(** * The purge loop and loggers in contexts (src/internal/idempotency/purge.go,
    src/internal/logging/context.go)

    The timer that deletes expired keys through the interface [Idem.Store], and the few
    functions that carry a logger in a context. *)
From stdpp Require Import options.
From S2P Require Import Prelude GoStrings Apperr Idem.
From S2P Require Import Logging.
Open Scope Z_scope.

(** ** logging/context.go

    A context, as far as these functions see it: the logger it carries.  [slog.Default] is
    what the process set, and is never nil. *)
Record context : Type := mkContext { ctxKey : option Handle }.

Definition Into (ctx : context) (log : option Handle) : context :=
  match log with None => ctx | Some _ => mkContext log end.

(** A nil context is [None]. *)
Definition From (slog_Default : Handle) (ctx : option context) : Handle :=
  match ctx with
  | Some c => match ctxKey c with Some l => l | None => slog_Default end
  | None => slog_Default
  end.

Definition ctx_With (slog_Default : Handle) (ctx : context) (attrs : list attr) : context :=
  match attrs with
  | [] => ctx
  | _ => Into ctx (Some (With attrs (From slog_Default (Some ctx))))
  end.

Definition Enabled (slog_Default : Handle) (ctx : context) (level : Z) : bool :=
  negb (level <? lvl (From slog_Default (Some ctx))).

Definition Trace (slog_Default : Handle) (ctx : context) (now : Z) (sc : Span) (msg : string)
  (attrs : list attr) : option (list attr * Logging.Record) * Handle :=
  Log now sc (mkRecord LevelTrace msg attrs) (From slog_Default (Some ctx)).

(** A scope added to a context adds its attributes, sanitized, to those already carried, and
    moves nothing else of the logger. *)
Lemma ctx_With_scope (def : Handle) (ctx : context) (attrs : list attr) :
  let h := From def (Some ctx) in let h' := From def (Some (ctx_With def ctx attrs)) in
  base h' = base h ++ (sanitize <$> attrs) ∧ lvl h' = lvl h ∧ format h' = format h ∧ seen h' = seen h.
Proof. destruct attrs as [|a attrs]; simpl; [by rewrite app_nil_r|done]. Qed.

(** Nothing is built for a tier that is off. *)
Lemma Enabled_Trace (def : Handle) (ctx : context) (now : Z) (sc : Span) (msg : string) (attrs : list attr) :
  Enabled def ctx LevelTrace = false → (Trace def ctx now sc msg attrs).1 = None.
Proof.
  unfold Enabled, Trace, Log. cbn [Level]. intros Hl%negb_false_iff. by rewrite Hl.
Qed.

(** ** purge.go *)

Record Purger : Type := mkPurger { pu_interval : Z; pu_ttl : Z; pu_log : Handle }.

Definition NewPurger (slog_Default : Handle) (cfg : ConfigSections.Idempotency) (log : option Handle) : Purger :=
  let log := match log with Some l => l | None => slog_Default end in
  mkPurger (ConfigSections.I_PurgeInterval cfg) (ConfigSections.I_TTL cfg)
    (With [("component", VString "idempotency-purge")] log).

Section purger.
Context {A S : Type} `{!Store A S}.

(** [cancelled] is whether the context was by the time the store answered. *)
Definition purge (now : Z) (cancelled : bool) (s : S) : list Logging.Record * S :=
  match Purge now s with
  | (Err e, s) =>
      (if cancelled then []
       else [mkRecord LevelError "idempotency purge failed" [("err", VError (err_text e))]], s)
  | (Ok n, s) =>
      (if 0 <? n then [mkRecord LevelInfo "expired idempotency keys purged" [("count", VOther (itoa n))]]
       else [], s)
  end.

(** What the select of the loop meets: the timer, or the cancelled context; [Request] is
    what the handlers do to the store in between. *)
Inductive event : Type :=
  | Tick (now : Z) (cancelled : bool)
  | Request (f : S → S)
  | Cancelled.

Definition started (p : Purger) : Logging.Record :=
  mkRecord LevelInfo "idempotency purge started"
    [("interval", VOther (itoa (pu_interval p))); ("ttl", VOther (itoa (pu_ttl p)))].
Definition stopped : Logging.Record := mkRecord LevelInfo "idempotency purge stopped" [].

(** The loop over the events it meets: its lines, the store, and whether it returned. *)
Fixpoint loop (es : list event) (s : S) : list Logging.Record * S * bool :=
  match es with
  | [] => ([], s, false)
  | Cancelled :: _ => ([stopped], s, true)
  | Request f :: es => loop es (f s)
  | Tick now cancelled :: es =>
      let '(lines, s) := purge now cancelled s in
      let '(rest, s, r) := loop es s in
      (lines ++ rest, s, r)
  end.

(** It always returns nil. *)
Definition Run (p : Purger) (es : list event) (s : S) : list Logging.Record * S * option (option err) :=
  let '(lines, s, r) := loop es s in (started p :: lines, s, if r then Some None else None).

(** The loop ends with the first cancellation and nowhere else, whatever the store answers. *)
Lemma loop_returns (es : list event) (s : S) :
  (loop es s).2 = existsb (λ e, match e with Cancelled => true | _ => false end) es.
Proof.
  revert s. induction es as [|[now c|f|] es IH]; intros s; simpl; try done.
  destruct (purge now c s) as [lines s']. specialize (IH s').
  by destruct (loop es s') as [[rest s''] r].
Qed.
End purger.

(** ** The memory store is purged in silence *)

(** What is live at an instant. *)
Definition live (now : Z) (m : MemoryStore) : MemoryStore :=
  filter (λ kh : string * memRecord, now < m_expires kh.2) m.

Lemma live_lookup (now : Z) (m : MemoryStore) (key : string) :
  live now m !! key = match m !! key with
                      | Some h => if decide (now < m_expires h) then Some h else None
                      | None => None
                      end.
Proof.
  unfold live. rewrite map_lookup_filter. destruct (m !! key) as [h|]; [|done].
  destruct (decide (now < m_expires h)) as [Hh|Hh]; csimpl; by case_guard.
Qed.

Lemma live_live (t now : Z) (m : MemoryStore) : t ≤ now → live now (live t m) = live now m.
Proof.
  intros Ht. apply map_eq. intros k. rewrite !live_lookup. destruct (m !! k) as [h|]; [|done].
  destruct (decide (now < m_expires h)); [by rewrite !decide_True by lia|].
  by case_decide; [rewrite decide_False|].
Qed.

(** A purge keeps what is live and nothing else, and counts what it dropped. *)
Lemma purge_exact (now : Z) (m : MemoryStore) :
  (mem_Purge now m).2 = live now m
  ∧ (mem_Purge now m).1 = Z.of_nat (size m) - Z.of_nat (size (live now m)).
Proof. done. Qed.

(** No request can tell whether the purge ran: two stores that agree on what is live answer
    a reservation alike and still agree afterwards, at that instant and later. *)
Lemma purge_invisible (t now now' ttl : Z) (key fingerprint : string) (m : MemoryStore) :
  t ≤ now ≤ now' →
  let purged := (mem_Purge t m).2 in
  (mem_Reserve now key fingerprint ttl purged).1 = (mem_Reserve now key fingerprint ttl m).1
  ∧ live now' (mem_Reserve now key fingerprint ttl purged).2
    = live now' (mem_Reserve now key fingerprint ttl m).2.
Proof.
  intros Ht purged. unfold purged. change (mem_Purge t m).2 with (live t m).
  assert (Hins : ∀ h, live now' (<[key := h]> (live t m)) = live now' (<[key := h]> m)).
  { intros h. apply map_eq. intros k. rewrite !live_lookup. destruct (decide (key = k)) as [<-|Hne].
    - by rewrite !lookup_insert_eq.
    - rewrite !lookup_insert_ne by done. rewrite <- !live_lookup. by rewrite live_live by lia. }
  unfold mem_Reserve. rewrite live_lookup. destruct (m !! key) as [h|] eqn:Hk; [|split; [done|apply Hins]].
  destruct (now <? m_expires h) eqn:Hlt; zbool.
  - rewrite decide_True by lia. rewrite (proj2 (Z.ltb_lt _ _)) by done. split; [done|]. simpl.
    by rewrite live_live by lia.
  - destruct (decide (t < m_expires h)); [|split; [done|apply Hins]].
    rewrite (proj2 (Z.ltb_ge _ _)) by done. split; [done|apply Hins].
Qed.
