(* ===== verification/Admin.v ===== *)
(** * The private listener (src/internal/admin)

    Readiness, liveness, and the debug surface over the logger's knob. *)
From stdpp Require Import options.
From S2P Require Import Prelude GoStrings GoDuration Apperr ConfigBase Logging.
From S2P Require ConfigProps.
Open Scope Z_scope.

(** ** admin.go *)

(** A handler: the names of its checks in their order, whether it drains, its start. *)
Record Handler : Type := mkHandler { checks : list string; draining : bool; started : Z }.

Definition New (cs : list string) (now : Z) : Handler := mkHandler cs false now.
Definition StartDraining (h : Handler) : Handler := mkHandler (checks h) true (started h).
Definition Draining (h : Handler) : bool := draining h.

Record response : Type := mkResponse {
  status : Z;
  headers : list (string * string);
  fields : list (string * string);
  results : option (gmap string string);
}.

(** [writeJSON], before the encoder prints the body. *)
Definition writeJSON (status : Z) (fields : list (string * string))
  (results : option (gmap string string)) : response :=
  mkResponse status [("Content-Type", "application/json"); ("Cache-Control", "no-store")] fields results.

Definition StatusOK : Z := 200.
Definition StatusBadRequest : Z := 400.
Definition StatusServiceUnavailable : Z := 503.

(** [Duration.Round]: to the nearest, half away from zero. *)
Definition Round (d m : Z) : Z :=
  if m <=? 0 then d
  else
    let r := Z.rem d m in
    if d <? 0 then
      let r := - r in
      if r + r <? m then d + r
      else let d1 := wrap64 (d - m + r) in if d1 <? d then d1 else int64_min
    else if r + r <? m then d - r
    else let d1 := wrap64 (d + m - r) in if d <? d1 then d1 else int64_max.

Definition healthz (h : Handler) (now : Z) : response :=
  writeJSON StatusOK
    [("status", "ok"); ("uptime", Duration_String (Round (now - started h) second))] None.

(** The loop over the checks: the map of results, whether all passed, and the checks
    probed. *)
Definition probe_one (probe : string → option err) (acc : gmap string string * bool) (c : string)
  : gmap string string * bool :=
  match probe c with
  | Some _ => (<[c := "failed"]> acc.1, false)
  | None => (<[c := "ok"]> acc.1, acc.2)
  end.

Definition readyz (h : Handler) (probe : string → option err) : response * list string :=
  if draining h then (writeJSON StatusServiceUnavailable [("status", "draining")] None, [])
  else
    let '(rs, ready) := foldl (probe_one probe) (∅, true) (checks h) in
    (if ready then writeJSON StatusOK [("status", "ready")] (Some rs)
     else writeJSON StatusServiceUnavailable [("status", "not ready")] (Some rs),
     checks h).

(** ** debug.go *)

Record Debug : Type := mkDebug { d_Config : bool; d_Level : bool; d_Metrics : bool; d_Pprof : bool }.

Definition pprof_routes : list string :=
  ["GET /debug/pprof/"; "GET /debug/pprof/cmdline"; "GET /debug/pprof/profile";
   "GET /debug/pprof/symbol"; "POST /debug/pprof/symbol"; "GET /debug/pprof/trace"].

Definition register (d : Debug) : list string :=
  (if d_Metrics d then ["GET /metrics"] else [])
  ++ (if d_Config d then ["GET /debug/config"] else [])
  ++ (if d_Level d then ["GET /debug/log-level"; "PUT /debug/log-level"] else [])
  ++ (if d_Pprof d then pprof_routes else []).

Definition Mux (d : Debug) : list string :=
  ["GET /healthz"; "GET /readyz"; "GET /version"] ++ register d.

(** The body: what the writer produced, and its error after it. *)
Definition configHandler (write : string * option err) : string :=
  match write with
  | (out, None) => out
  | (out, Some e) =>
      let nl := String (Ascii.ascii_of_nat 10) EmptyString in
      (out +:+ nl +:+ "# error rendering configuration: " +:+ err_text e +:+ nl)%string
  end.

Definition getLevel (k : Handle) : response :=
  writeJSON StatusOK [("level", LevelString k)] None.

(** [body] is what reading up to 64 bytes gives. *)
Definition setLevel `{GoText} (body : result err string) (query : string) (k : Handle) : response * Handle :=
  match body with
  | Err _ => (writeJSON StatusBadRequest [("error", "could not read the body")] None, k)
  | Ok body =>
      let want := trim_space (String.substring 0 64 body) in
      let want := if decide (want = "") then trim_space query else want in
      match SetLevel want k with
      | (k, Some e) => (writeJSON StatusBadRequest [("error", err_text e)] None, k)
      | (k, None) => (getLevel k, k)
      end
  end.

(** ** Facts *)

Lemma probe_fold (probe : string → option err) (cs : list string) (rs : gmap string string) (b : bool) :
  let '(rs', b') := foldl (probe_one probe) (rs, b) cs in
  (b' = b && forallb (λ c, bool_decide (probe c = None)) cs)
  ∧ ∀ c, rs' !! c = if decide (c ∈ cs)
                    then Some (if decide (probe c = None) then "ok" else "failed") else rs !! c.
Proof.
  revert rs b. induction cs as [|c cs IH]; intros rs b.
  { simpl. split; [by rewrite andb_true_r|done]. }
  simpl. specialize (IH (probe_one probe (rs, b) c).1 (probe_one probe (rs, b) c).2).
  rewrite <- surjective_pairing in IH.
  destruct (foldl (probe_one probe) (probe_one probe (rs, b) c) cs) as [rs' b'].
  destruct IH as [Hb Hr]. split.
  - rewrite Hb. unfold probe_one. destruct (probe c) eqn:Hp; simpl; [by rewrite andb_false_r|done].
  - intros c'. rewrite Hr. unfold probe_one.
    destruct (decide (c = c')) as [<-|Hne].
    + rewrite (decide_True (P := c ∈ c :: cs)) by left. case_decide as Hc; [done|].
      destruct (probe c) eqn:Hp; simpl; by rewrite lookup_insert_eq.
    + rewrite (decide_ext (c' ∈ c :: cs) (c' ∈ cs)) by (rewrite elem_of_cons; naive_solver).
      case_decide; [done|]. destruct (probe c); simpl; by rewrite lookup_insert_ne.
Qed.

(** Ready exactly when not draining and every probe passes; the response names the checks
    and never what a failing one said; a draining handler probes nothing. *)
Lemma readyz_exact (h : Handler) (probe : string → option err) :
  let '(r, probed) := readyz h probe in
  (status r = StatusOK ↔ draining h = false ∧ ∀ c, c ∈ checks h → probe c = None)
  ∧ (status r = StatusOK ∨ status r = StatusServiceUnavailable)
  ∧ (draining h = true → probed = [])
  ∧ ∀ probe', (∀ c, is_Some (probe c) ↔ is_Some (probe' c)) → readyz h probe' = (r, probed).
Proof.
  unfold readyz. destruct (draining h); [naive_solver|].
  pose proof (probe_fold probe (checks h) ∅ true) as Hf.
  destruct (foldl (probe_one probe) (∅, true) (checks h)) as [rs b]. destruct Hf as [Hb Hr].
  assert (Hall : b = true ↔ ∀ c, c ∈ checks h → probe c = None).
  { rewrite Hb. simpl. rewrite forallb_forall. split.
    - intros Ha c Hc%list_elem_of_In. by eapply bool_decide_eq_true_1, Ha.
    - intros Ha c Hc%list_elem_of_In. by apply bool_decide_eq_true_2, Ha. }
  split; [destruct b; simpl; naive_solver|]. split; [destruct b; auto|]. split; [done|].
  intros probe' Hp. pose proof (probe_fold probe' (checks h) ∅ true) as Hf'.
  destruct (foldl (probe_one probe') (∅, true) (checks h)) as [rs' b']. destruct Hf' as [Hb' Hr'].
  assert (Hs : ∀ c, probe c = None ↔ probe' c = None).
  { intros c. specialize (Hp c). destruct (probe c), (probe' c); naive_solver. }
  assert (b' = b) as ->.
  { rewrite Hb, Hb'. simpl. clear -Hs. induction (checks h) as [|c cs IH]; [done|]. simpl.
    rewrite IH. f_equal. apply bool_decide_ext. by rewrite Hs. }
  assert (rs' = rs) as ->; [|done].
  apply map_eq. intros c. rewrite Hr, Hr'. destruct (decide (c ∈ checks h)); [|done].
  destruct (decide (probe c = None)), (decide (probe' c = None)); naive_solver.
Qed.

(** A [PUT] moves the threshold every later call of the logger is held to. *)
Lemma setLevel_moves `{GoText} (body query : string) (k k' : Handle) (r : response) :
  setLevel (Ok body) query k = (r, k') →
  (status r = StatusOK ∧ fields r = [("level", LevelName (lvl k'))]
   ∧ ∀ now sc rec, Level rec < lvl k' → (Log now sc rec k').1 = None)
  ∨ (status r = StatusBadRequest ∧ k' = k).
Proof.
  unfold setLevel, SetLevel. destruct (ParseLevel _) as [l|e]; intros [= <- <-]; [left|by right].
  split; [done|]. split; [done|]. intros now sc rec Hl. unfold Log. simpl in *.
  by rewrite (proj2 (Z.ltb_lt _ _) Hl).
Qed.

(** A [PUT] with nothing in it is a [PUT] of [info], and what follows the 64th byte is not
    looked at. *)
Example odd_levels :
  (setLevel (H := ConfigProps.plain_text) (Ok "") "" (mkHandle LevelTrace FormatJSON [] true ∅)).1
  = writeJSON StatusOK [("level", "INFO")] None
  ∧ (setLevel (H := ConfigProps.plain_text)
       (Ok ("debug                                                            nonsense")%string) ""
       (mkHandle LevelInfo FormatJSON [] true ∅)).1
  = writeJSON StatusOK [("level", "DEBUG")] None.
Proof. vm_compute. done. Qed.
