(* ===== verification/Listener.v ===== *)
(** * The queue's wake-ups (src/internal/queue/listener.go)

    The loop that turns notifications into wake-ups of the claim loop, over what each of
    its connections meets. *)
From stdpp Require Import options.
From S2P Require Import Prelude.
Open Scope Z_scope.

Definition maxBackoff : Z := 30 * second.

(** What one round of [Run] meets: how many notifications [listen] got before it failed,
    whether the context was cancelled by then, and whether it was during the sleep; and
    whether the claim loop took the wake-up during that sleep. *)
Record round : Type := mkRound { notified : nat; stopped : bool; stopped_asleep : bool; taken : bool }.

(** The channel holds one wake-up or none. *)
Definition wake (ch : bool) : bool := true.

Definition listen (n : nat) (ch : bool) : bool := Nat.iter n wake ch.

(** [Run] over the rounds the connection goes through: the waits, the channel, and
    whether it returned. *)
Fixpoint Run (rounds : list round) (backoff : Z) (ch : bool) : list Z * bool * bool :=
  match rounds with
  | [] => ([], ch, false)
  | r :: rounds =>
      let ch := listen (notified r) ch in
      if stopped r then ([], ch, true)
      else
        let ch := wake ch in
        if stopped_asleep r then ([backoff], ch, true)
        else
          let '(waits, ch, returned) := Run rounds (Z.min (backoff * 2) maxBackoff) (ch && negb (taken r)) in
          (backoff :: waits, ch, returned)
  end.

(** ** Facts *)

(** The waits double to the bound and stay there. *)
Lemma Run_waits (rounds : list round) (backoff : Z) (ch : bool) :
  0 < backoff ≤ maxBackoff →
  ∀ i w, (Run rounds backoff ch).1.1 !! i = Some w → w = Z.min (backoff * 2 ^ Z.of_nat i) maxBackoff.
Proof.
  revert backoff ch. induction rounds as [|r rounds IH]; intros b ch Hb i w Hi; simpl in Hi; [done|].
  destruct (stopped r); [done|]. destruct (stopped_asleep r).
  { destruct i as [|i]; [|done]. simplify_eq/=. lia. }
  specialize (IH (Z.min (b * 2) maxBackoff) (wake (listen (notified r) ch) && negb (taken r))).
  unfold maxBackoff, second in *. destruct (Run rounds _ _) as [[waits ch'] ret]. simpl in Hi.
  destruct i as [|i]; simplify_eq/=; [lia|]. rewrite (IH ltac:(lia) i w Hi).
  replace (Z.of_nat (S i)) with (Z.succ (Z.of_nat i)) by lia. rewrite Z.pow_succ_r by lia.
  pose proof (Z.pow_pos_nonneg 2 (Z.of_nat i)). nia.
Qed.

(** A connection that served notifications for days is waited for as long as one that never
    came up: nothing sets the wait back. *)
Example backoff_never_resets :
  (Run (replicate 5 (mkRound 0 false false false) ++ [mkRound 1000 false false false; mkRound 0 true false false])
     second false).1.1
  = [second; 2 * second; 4 * second; 8 * second; 16 * second; 30 * second].
Proof. vm_compute. done. Qed.

(** The wake-up for what was lost comes with the disconnection, not with the reconnection:
    once the claim loop has taken it, a job enqueued during the wait or before the new
    [LISTEN] leaves the channel empty. *)
Example woken_too_early :
  Run [mkRound 0 false false true] second false = ([second], false, false).
Proof. vm_compute. done. Qed.
