(* ===== verification/PoolRun.v ===== *)
(** * The goroutines of the worker pool (src/internal/queue/pool.go, service.go)

    [Pool.pexec] says what a pool does; this file says which goroutine does it.  A
    state holds the program counters of [Run]'s claim loop, of every worker, of the
    heartbeat and of [Stop], with what they share; [rexec] is one step of one of them.
    [Run] ends, every run is a run of [Pool.pexec], and the maintenance loop of
    service.go sweeps only as the leader. *)
From stdpp Require Import options.
From S2P Require Import Prelude GoStrings GoDuration GoFloat Apperr ConfigBase ConfigSections.
From S2P Require Import Backoff JobStore Pool Outbox Logging.

(** ** Program counters *)

(** The goroutine of [Run]: [claimLoop] with [claimBatch] and [wait] inlined, then the
    closing of the channel and the wait for the others. *)
Inductive loop_pc : Type :=
  | LTop                                       (* claimBatch's opening select *)
  | LClaim                                     (* before store.Claim *)
  | LBatch (rest : list Job) (full : bool)     (* the range over the claimed *)
  | LSend (j : Job) (rest : list Job) (full : bool)
  | LCool                                      (* wait(FetchCooldown) *)
  | LSelect                                    (* the select of claimLoop *)
  | LLeft                                      (* claimLoop returned *)
  | LClosed                                    (* jobs closed, wg.Wait *)
  | LReturned.

Inductive work_pc : Type :=
  | WRecv
  | WGot (j : Job)
  | WRun (j : Job)
  | WWrote (j : Job) (outcome : Outcome)
  | WPublished (j : Job)
  | WStopped.

Inductive stop_pc : Type :=
  | SIdle | SPoll | SWait | SRelease | SReturned (e : option err).

(** [poll_C] and [beat_C] are the one-slot channels of the tickers; [notify] is the
    listener's, [None] for a nil channel. *)
Record rstate : Type := mkR {
  r_tbl : table;
  r_inflight : gmap Z bool;
  r_subs : Subs;
  loop : loop_pc;
  workers : list work_pc;
  beating : bool;
  stop : stop_pc;
  r_draining : bool;
  r_cancelled : bool;
  deadline : bool;
  poll_C : bool;
  beat_C : bool;
  notify : option bool;
}.

(** The first group are steps of [Run]'s goroutines, the second of [Stop]'s, the third
    the world's. *)
Inductive revent : Type :=
  | RCheck
  | RClaim (io : db) (now : Z) (locked : picks)
  | RNext
  | RSend (i : nat)
  | RAbort (io : db)
  | RCooled
  | RWaitStop
  | RSelectStop
  | RSelectPoll
  | RSelectNotify
  | RClose
  | RReturn
  | RStart (i : nat)
  | RWrite (i : nat) (io : db) (draw now : Z)
  | RPublish (i : nat)
  | RUntrack (i : nat)
  | RQuit (i : nat)
  | RBeat (io : db) (now : Z)
  | RBeatStop
  | SDrain
  | SCheck
  | SAfter
  | SDeadline
  | SReleaseAll (io : db)
  | ETick
  | EBeatTick
  | ENotify
  | ECancel
  | EDeadline
  | ESubscribe (buffer : Z)
  | EUnsubscribe (id : Z)
  | EStore (f : table → table).

Definition with_tbl (t : table) (m : gmap Z bool) (s : rstate) : rstate :=
  mkR t m (r_subs s) (loop s) (workers s) (beating s) (stop s) (r_draining s) (r_cancelled s)
    (deadline s) (poll_C s) (beat_C s) (notify s).
Definition with_loop (l : loop_pc) (s : rstate) : rstate :=
  mkR (r_tbl s) (r_inflight s) (r_subs s) l (workers s) (beating s) (stop s) (r_draining s)
    (r_cancelled s) (deadline s) (poll_C s) (beat_C s) (notify s).
Definition with_worker (i : nat) (w : work_pc) (s : rstate) : rstate :=
  mkR (r_tbl s) (r_inflight s) (r_subs s) (loop s) (<[i := w]> (workers s)) (beating s) (stop s)
    (r_draining s) (r_cancelled s) (deadline s) (poll_C s) (beat_C s) (notify s).
Definition with_subs (u : Subs) (s : rstate) : rstate :=
  mkR (r_tbl s) (r_inflight s) u (loop s) (workers s) (beating s) (stop s) (r_draining s)
    (r_cancelled s) (deadline s) (poll_C s) (beat_C s) (notify s).
Definition with_stop (p : stop_pc) (draining : bool) (s : rstate) : rstate :=
  mkR (r_tbl s) (r_inflight s) (r_subs s) (loop s) (workers s) (beating s) p draining
    (r_cancelled s) (deadline s) (poll_C s) (beat_C s) (notify s).
Definition with_beating (b : bool) (s : rstate) : rstate :=
  mkR (r_tbl s) (r_inflight s) (r_subs s) (loop s) (workers s) b (stop s) (r_draining s)
    (r_cancelled s) (deadline s) (poll_C s) (beat_C s) (notify s).
Definition with_signals (cancelled dl poll beat : bool) (n : option bool) (s : rstate) : rstate :=
  mkR (r_tbl s) (r_inflight s) (r_subs s) (loop s) (workers s) (beating s) (stop s) (r_draining s)
    cancelled dl poll beat n.

Definition stopping (s : rstate) : bool := r_cancelled s || r_draining s.

Definition after_batch (cfg : Queue) (full : bool) : loop_pc :=
  if full then if Q_FetchCooldown cfg <=? 0 then LTop else LCool else LSelect.

Definition stopped (w : work_pc) : bool := match w with WStopped => true | _ => false end.

Section run.
Context `{GoText, FloatConv}.

(** Where the claim's answer leaves [claimBatch]. *)
Definition claimed_pc (cfg : Queue) (r : result err (list Job)) : loop_pc :=
  match r with
  | Ok (j :: js) => LBatch (j :: js) (Z.of_nat (length (j :: js)) =? Q_ClaimBatch cfg)
  | _ => LSelect
  end.

Definition loop_step (cfg : Queue) (workerID : string) (e : revent) (s : rstate)
  : option rstate :=
  match e, loop s with
  | RCheck, LTop => Some (with_loop (if stopping s then LSelect else LClaim) s)
  | RClaim io now locked, LClaim =>
      let '(r, t) := Claim io workerID (Q_ClaimBatch cfg) (Q_Lease cfg) now locked (r_tbl s) in
      Some (with_loop (claimed_pc cfg r) (with_tbl t (r_inflight s) s))
  | RNext, LBatch [] full => Some (with_loop (after_batch cfg full) s)
  | RNext, LBatch (j :: rest) full =>
      Some (with_loop (LSend j rest full)
              (with_tbl (r_tbl s) (track (job_ID j) false (r_inflight s)) s))
  | RSend i, LSend j rest full =>
      match workers s !! i with
      | Some WRecv => Some (with_loop (LBatch rest full) (with_worker i (WGot j) s))
      | _ => None
      end
  | RAbort io, LSend j _ _ =>
      if r_cancelled s then
        Some (with_loop LSelect
                (with_tbl (Release io workerID [job_ID j] (r_tbl s)).2
                   (untrack (job_ID j) (r_inflight s)) s))
      else None
  | RCooled, LCool => Some (with_loop LTop s)
  | RWaitStop, LCool => if stopping s then Some (with_loop LLeft s) else None
  | RSelectStop, LSelect => if stopping s then Some (with_loop LLeft s) else None
  | RSelectPoll, LSelect =>
      if poll_C s then
        Some (with_loop LTop
                (with_signals (r_cancelled s) (deadline s) false (beat_C s) (notify s) s))
      else None
  | RSelectNotify, LSelect =>
      match notify s with
      | Some true =>
          Some (with_loop LTop
                  (with_signals (r_cancelled s) (deadline s) (poll_C s) (beat_C s) (Some false) s))
      | _ => None
      end
  | RClose, LLeft => Some (with_loop LClosed s)
  | RReturn, LClosed =>
      if forallb stopped (workers s) && negb (beating s) then Some (with_loop LReturned s)
      else None
  | _, _ => None
  end.

Definition job_event (j : Job) (outcome : Outcome) (cause : option err) : Pool.Event :=
  Pool.mkEvent (job_ID j) (job_Kind j) (job_Attempt j) outcome cause.

Definition closed (l : loop_pc) : bool :=
  match l with LClosed | LReturned => true | _ => false end.

Definition worker_step (cfg : Queue) (workerID : string) (handlers : Handlers) (e : revent)
  (s : rstate) : option rstate :=
  match e with
  | RStart i =>
      match workers s !! i with
      | Some (WGot j) =>
          Some (with_worker i (WRun j)
                  (with_tbl (r_tbl s) (track (job_ID j) true (r_inflight s)) s))
      | _ => None
      end
  | RWrite i io draw now =>
      match workers s !! i with
      | Some (WRun j) =>
          let '(outcome, t) := finish io cfg workerID j (invoke handlers j) draw now (r_tbl s) in
          Some (with_worker i (WWrote j outcome) (with_tbl t (r_inflight s) s))
      | _ => None
      end
  | RPublish i =>
      match workers s !! i with
      | Some (WWrote j outcome) =>
          Some (with_worker i (WPublished j)
                  (with_subs (publish (job_event j outcome (invoke handlers j)) (r_subs s)) s))
      | _ => None
      end
  | RUntrack i =>
      match workers s !! i with
      | Some (WPublished j) =>
          Some (with_worker i WRecv
                  (with_tbl (r_tbl s) (untrack (job_ID j) (r_inflight s)) s))
      | _ => None
      end
  | RQuit i =>
      match workers s !! i with
      | Some WRecv => if closed (loop s) then Some (with_worker i WStopped s) else None
      | _ => None
      end
  | _ => None
  end.

Definition beat_step (cfg : Queue) (workerID : string) (e : revent) (s : rstate)
  : option rstate :=
  match e with
  | RBeat io now =>
      if beating s && beat_C s then
        Some (with_signals (r_cancelled s) (deadline s) (poll_C s) false (notify s)
                (with_tbl (beat io cfg workerID now (r_inflight s) (r_tbl s)).2 (r_inflight s) s))
      else None
  | RBeatStop => if beating s && r_cancelled s then Some (with_beating false s) else None
  | _ => None
  end.

Definition stop_step (workerID : string) (e : revent) (s : rstate) : option rstate :=
  match e, stop s with
  | SDrain, SIdle => Some (with_stop SPoll true s)
  | SCheck, SPoll =>
      Some (with_stop (if (size (r_inflight s) =? 0)%nat then SReturned None else SWait)
              (r_draining s) s)
  | SAfter, SWait => Some (with_stop SPoll (r_draining s) s)
  | SDeadline, SWait => if deadline s then Some (with_stop SRelease (r_draining s) s) else None
  | SReleaseAll io, SRelease =>
      let '(r, _, t) := releaseInflight io workerID (r_inflight s) (r_tbl s) in
      Some (with_stop (SReturned match r with Ok _ => None | Err e => Some e end) (r_draining s)
              (with_tbl t (r_inflight s) s))
  | _, _ => None
  end.

Definition world_step (e : revent) (s : rstate) : option rstate :=
  match e with
  | ETick => Some (with_signals (r_cancelled s) (deadline s) true (beat_C s) (notify s) s)
  | EBeatTick => Some (with_signals (r_cancelled s) (deadline s) (poll_C s) true (notify s) s)
  | ENotify =>
      match notify s with
      | Some _ =>
          Some (with_signals (r_cancelled s) (deadline s) (poll_C s) (beat_C s) (Some true) s)
      | None => None
      end
  | ECancel => Some (with_signals true (deadline s) (poll_C s) (beat_C s) (notify s) s)
  | EDeadline => Some (with_signals (r_cancelled s) true (poll_C s) (beat_C s) (notify s) s)
  | ESubscribe buffer => Some (with_subs (Subscribe buffer (r_subs s)).2 s)
  | EUnsubscribe id => Some (with_subs (Unsubscribe id (r_subs s)) s)
  | EStore f => Some (with_tbl (f (r_tbl s)) (r_inflight s) s)
  | _ => None
  end.

Definition rexec (cfg : Queue) (workerID : string) (handlers : Handlers) (e : revent)
  (s : rstate) : option rstate :=
  match e with
  | RCheck | RClaim _ _ _ | RNext | RSend _ | RAbort _ | RCooled | RWaitStop | RSelectStop
  | RSelectPoll | RSelectNotify | RClose | RReturn => loop_step cfg workerID e s
  | RStart _ | RWrite _ _ _ _ | RPublish _ | RUntrack _ | RQuit _ =>
      worker_step cfg workerID handlers e s
  | RBeat _ _ | RBeatStop => beat_step cfg workerID e s
  | SDrain | SCheck | SAfter | SDeadline | SReleaseAll _ => stop_step workerID e s
  | _ => world_step e s
  end.

Fixpoint rexecs (cfg : Queue) (workerID : string) (handlers : Handlers) (es : list revent)
  (s : rstate) : option rstate :=
  match es with
  | [] => Some s
  | e :: es => s' ← rexec cfg workerID handlers e s; rexecs cfg workerID handlers es s'
  end.

(** [Run] has started its goroutines; [range p.cfg.Workers] starts none for a
    negative count. *)
Definition running_pool (cfg : Queue) (has_notify : bool) (t : table) : rstate :=
  mkR t ∅ (mkSubs ∅ 0) LTop (replicate (Z.to_nat (Q_Workers cfg)) WRecv) true SIdle false false
    false false false (if has_notify then Some false else None).

(** ** What [finish] logs *)

Definition outcome_string (o : Outcome) : string :=
  match o with
  | OutcomeSucceeded => "succeeded" | OutcomeRetried => "retried"
  | OutcomeCancelled => "cancelled" | OutcomeDiscarded => "discarded"
  | OutcomeSnoozed => "snoozed" | OutcomeLost => "lost"
  end.

Definition logOutcome (outcome : Outcome) : Z * string :=
  match outcome with
  | OutcomeDiscarded => (LevelError, "job discarded")
  | OutcomeRetried | OutcomeCancelled => (LevelWarn, "job " +:+ outcome_string outcome)%string
  | _ => (LevelDebug, "job " +:+ outcome_string outcome)%string
  end.

(** ** service.go: the maintenance loop *)

(** [asLeader]: what the begin, the lock and the commit answer, and the statements of
    [fn], which run on the pool and not in the transaction that holds the lock. *)
Definition asLeader {A} (begin : bool) (lock : result err bool) (commit : bool)
  (name quoted : string) (fn : A → option err * A) (a : A) : bool * A :=
  if begin then
    let '(r, a) := WithLeader name quoted lock fn a in
    (match r with Ok true => commit | _ => false end, a)
  else (false, a).

Inductive sweep_event : Type :=
  | MSweep (begin : bool) (lock : result err bool) (commit : bool) (io1 io2 : db)
      (got : option (gset Z)) (draw now1 now2 : Z)
  | MPurge (begin : bool) (lock : result err bool) (commit : bool) (io : db) (now : Z)
      (scan : list Z).

Definition drop_value {A B} (f : A → result err B * A) (a : A) : option err * A :=
  let '(r, a) := f a in (match r with Ok _ => None | Err e => Some e end, a).

Definition Maintenance_step (cfg : Queue) (e : sweep_event) (t : table) : table :=
  match e with
  | MSweep b l c io1 io2 got draw now1 now2 =>
      (asLeader b l c "queue-sweep" (Quote "queue-sweep")
         (drop_value (Sweep io1 io2 got cfg draw now1 now2)) t).2
  | MPurge b l c io now scan =>
      (asLeader b l c "queue-purge" (Quote "queue-purge")
         (drop_value (Maintenance_Purge io cfg now scan)) t).2
  end.

(** [Run]: the ticks it serves until its context ends. *)
Definition Maintenance_Run (cfg : Queue) (ticks : list sweep_event) (t : table) : table :=
  foldl (λ t e, Maintenance_step cfg e t) t ticks.
End run.
