(* ===== verification/PoolRunProps.v ===== *)
(** * What the goroutines of the worker pool guarantee

    [Run] ends, joins what it started, and every run of the goroutines is a run of
    [Pool.pexec]. *)
From stdpp Require Import options.
From S2P Require Import Prelude GoStrings GoDuration GoFloat Apperr ConfigBase ConfigSections.
From S2P Require Import Backoff JobStore JobFacts JobProps Pool PoolProps PoolRun.
From S2P Require ConfigProps.

(** ** Facts on workers *)

Lemma omap_insert_perm {A B} (f : A → option B) (l : list A) (i : nat) (x y : A) :
  l !! i = Some x →
  omap f (<[i := y]> l) ++ option_list (f x) ≡ₚ omap f l ++ option_list (f y).
Proof.
  intros Hi. rewrite (insert_take_drop l i y) by (by eapply lookup_lt_Some).
  rewrite <- (take_drop_middle l i x Hi) at 3.
  rewrite !omap_app. simpl. destruct (f x), (f y); simpl; solve_Permutation.
Qed.

Definition weight_sum {A} (f : A → nat) (l : list A) : nat := sum_list_with f l.

Lemma weight_insert {A} (f : A → nat) (l : list A) (i : nat) (x y : A) :
  l !! i = Some x → (weight_sum f (<[i := y]> l) + f x = weight_sum f l + f y)%nat.
Proof.
  unfold weight_sum. revert i. induction l as [|z l IH]; intros [|i]; simpl; intros H; try done.
  - injection H as ->. lia.
  - specialize (IH i H). lia.
Qed.

(** ** How much a stopping pool can still do *)

(** Steps of [Run]'s goroutines, and what gives them more to do. *)
Definition of_run (e : revent) : bool :=
  match e with
  | RCheck | RClaim _ _ _ | RNext | RSend _ | RAbort _ | RCooled | RWaitStop | RSelectStop
  | RSelectPoll | RSelectNotify | RClose | RReturn | RStart _ | RWrite _ _ _ _ | RPublish _
  | RUntrack _ | RQuit _ | RBeat _ _ | RBeatStop => true
  | _ => false
  end.

Definition supplies (e : revent) : bool :=
  match e with ETick | EBeatTick | ENotify => true | _ => false end.

Definition work_weight (w : work_pc) : nat :=
  match w with
  | WStopped => 0 | WRecv => 1 | WPublished _ => 2 | WWrote _ _ => 3 | WRun _ => 4 | WGot _ => 5
  end.

Definition loop_weight (cfg : Queue) (l : loop_pc) : nat :=
  match l with
  | LReturned => 0 | LClosed => 1 | LLeft => 2 | LSelect => 3 | LTop => 4 | LCool => 5
  | LBatch rest _ => 6 + 6 * length rest
  | LSend _ rest _ => 11 + 6 * length rest
  | LClaim => 7 + 6 * Z.to_nat (Q_ClaimBatch cfg)
  end.

Definition signal_weight (s : rstate) : nat :=
  (if poll_C s then 2 else 0) + (match notify s with Some true => 2 | _ => 0 end)
  + (if beat_C s then 1 else 0).

Definition run_weight (cfg : Queue) (s : rstate) : nat :=
  loop_weight cfg (loop s) + weight_sum work_weight (workers s)
  + (if beating s then 1 else 0) + signal_weight s.

Definition count (f : revent → bool) (es : list revent) : nat := length (filter (λ e, f e = true) es).

Lemma count_cons (f : revent → bool) (e : revent) (es : list revent) :
  count f (e :: es) = ((if f e then 1 else 0) + count f es)%nat.
Proof. unfold count. rewrite filter_cons. destruct (f e); by case_decide. Qed.

Section facts.
Context `{GoText, FloatConv}.

Lemma claim_length (io : db) (w : string) (batch lease now : Z) (locked : picks) (t t' : table)
  (js : list Job) :
  Claim io w batch lease now locked t = (Ok js, t') → (length js ≤ Z.to_nat batch)%nat.
Proof.
  unfold Claim, call. destruct (batch <? 0); [done|]. destruct io; [|done].
  intros [= <- _]. change (length (claimSQL w batch lease now locked t).1 ≤ Z.to_nat batch)%nat.
  rewrite claimed_perm, length_map. unfold claim_rows. rewrite length_take. lia.
Qed.

(** Case on a step, leaving one goal for each way it can be taken. *)
Ltac step_cases Hs := simpl in Hs; simplify_eq/=; repeat (case_match; simplify_eq/=; try done).

Lemma stopping_stays (cfg : Queue) (w : string) (hs : Handlers) (e : revent) (s s' : rstate) :
  rexec cfg w hs e s = Some s' →
  (r_cancelled s = true → r_cancelled s' = true) ∧ (r_draining s = true → r_draining s' = true).
Proof. intros Hs. destruct e; by step_cases Hs. Qed.

Lemma stopping_step (cfg : Queue) (w : string) (hs : Handlers) (e : revent) (s s' : rstate) :
  rexec cfg w hs e s = Some s' → stopping s = true → stopping s' = true.
Proof.
  intros Hs. pose proof (stopping_stays _ _ _ _ _ _ Hs) as [H1 H2]. unfold stopping.
  rewrite !orb_true_iff. tauto.
Qed.

Lemma claimed_weight (cfg : Queue) (w : string) (io : db) (now : Z) (locked : picks)
  (t t' : table) (r : result err (list Job)) :
  Claim io w (Q_ClaimBatch cfg) (Q_Lease cfg) now locked t = (r, t') →
  (loop_weight cfg (claimed_pc cfg r) < loop_weight cfg LClaim)%nat.
Proof.
  intros Hc. destruct r as [[|j js]|]; simpl; [lia| |lia].
  apply claim_length in Hc. simpl in Hc. lia.
Qed.

Ltac weigh :=
  unfold run_weight, signal_weight; simpl;
  repeat match goal with
  | Hi : ?l !! ?i = Some ?x |- context [weight_sum work_weight (<[?i := ?y]> ?l)] =>
      pose proof (weight_insert work_weight l i x y Hi); simpl in *; clear Hi
  | Hl : ?f ?s = _ |- context [?f ?s] => rewrite Hl; simpl in *
  end; lia.

Lemma loop_weight_step (cfg : Queue) (w : string) (e : revent) (s s' : rstate) :
  loop_step cfg w e s = Some s' → stopping s = true →
  (run_weight cfg s' + 1 ≤ run_weight cfg s)%nat.
Proof.
  intros Hs Hst. unfold loop_step in Hs. destruct e; step_cases Hs.
  all: try match goal with
    | Hc : Claim _ _ _ _ _ _ _ = _ |- _ => apply claimed_weight in Hc
    end.
  all: try (unfold after_batch; repeat case_match).
  all: weigh.
Qed.

Lemma worker_weight_step (cfg : Queue) (w : string) (hs : Handlers) (e : revent)
  (s s' : rstate) :
  worker_step cfg w hs e s = Some s' → (run_weight cfg s' + 1 ≤ run_weight cfg s)%nat.
Proof. intros Hs. unfold worker_step in Hs. destruct e; step_cases Hs; weigh. Qed.

Lemma weight_step (cfg : Queue) (w : string) (hs : Handlers) (e : revent) (s s' : rstate) :
  rexec cfg w hs e s = Some s' → stopping s = true →
  (run_weight cfg s' + (if of_run e then 1 else 0)
   ≤ run_weight cfg s + (if supplies e then 2 else 0))%nat.
Proof.
  intros Hs Hst. destruct e; unfold rexec in Hs;
    try (apply loop_weight_step in Hs; [simpl; lia|done]);
    try (apply worker_weight_step in Hs; simpl; lia).
  all: step_cases Hs; unfold run_weight, signal_weight; simpl; split_all;
    repeat match goal with Hb : ?f ?s = _ |- context [?f ?s] => rewrite Hb end;
    repeat case_match; lia.
Qed.

Lemma run_work (cfg : Queue) (w : string) (hs : Handlers) (es : list revent) (s s' : rstate) :
  rexecs cfg w hs es s = Some s' → stopping s = true →
  (count of_run es + run_weight cfg s' ≤ run_weight cfg s + 2 * count supplies es)%nat.
Proof.
  revert s. induction es as [|e es IH]; simpl; intros s Hs Hst; [simplify_eq; simpl; lia|].
  destruct (rexec cfg w hs e s) as [s1|] eqn:He; [|done]. simpl in Hs.
  pose proof (weight_step _ _ _ _ _ _ He Hst). rewrite !count_cons.
  apply IH in Hs; [|by eapply stopping_step]. destruct (of_run e), (supplies e); lia.
Qed.

(** A worker that has not stopped can step once the channel is closed; until then it
    can unless it waits for a job. *)
Lemma worker_progress (cfg : Queue) (w : string) (hs : Handlers) (s : rstate) (i : nat)
  (p : work_pc) :
  workers s !! i = Some p → stopped p = false → (p = WRecv → closed (loop s) = true) →
  ∃ e, of_run e = true ∧ is_Some (rexec cfg w hs e s).
Proof.
  intros Hi Hp Hc. destruct p as [|j|j|j o|j|].
  - exists (RQuit i). simpl. rewrite Hi, Hc by done. by eauto.
  - exists (RStart i). simpl. rewrite Hi. by eauto.
  - exists (RWrite i DbOk 0 0). simpl. rewrite Hi. destruct (finish _ _ _ _ _ _ _ _). by eauto.
  - exists (RPublish i). simpl. rewrite Hi. by eauto.
  - exists (RUntrack i). simpl. rewrite Hi. by eauto.
  - done.
Qed.

Lemma workers_stopped_or (l : list work_pc) :
  forallb stopped l = true ∨ ∃ i p, l !! i = Some p ∧ stopped p = false.
Proof.
  induction l as [|p l IH]; [by left|]. simpl. destruct (stopped p) eqn:E.
  - destruct IH as [->|(i & q & Hi & Hq)]; [by left|]. right. by exists (S i), q.
  - right. by exists 0%nat, p.
Qed.

(** A receiver for the job being sent, or a worker that can step. *)
Lemma send_progress (cfg : Queue) (w : string) (hs : Handlers) (s : rstate) (j : Job)
  (rest : list Job) (full : bool) (p : work_pc) :
  loop s = LSend j rest full → workers s !! 0%nat = Some p → stopped p = false →
  ∃ e, of_run e = true ∧ is_Some (rexec cfg w hs e s).
Proof.
  intros Hl Hp Hs. assert (p = WRecv ∨ p ≠ WRecv) as [->|Hne] by (destruct p; auto).
  - exists (RSend 0). simpl. rewrite Hl, Hp. by eauto.
  - by apply (worker_progress cfg w hs s 0 p).
Qed.

(** No worker stops before the channel is closed. *)
Definition open_workers (cfg : Queue) (s : rstate) : Prop :=
  length (workers s) = Z.to_nat (Q_Workers cfg)
  ∧ (closed (loop s) = false → ∀ i p, workers s !! i = Some p → stopped p = false).

Lemma open_insert (s : rstate) (i : nat) (q : work_pc) :
  stopped q = false →
  (∀ i p, workers s !! i = Some p → stopped p = false) →
  ∀ k p, <[i := q]> (workers s) !! k = Some p → stopped p = false.
Proof.
  intros Hq Hall k p Hk. apply list_lookup_insert_Some in Hk as [(_ & <- & _)|[_ Hk]]; [done|].
  by eapply Hall.
Qed.

Lemma open_loop (cfg : Queue) (w : string) (e : revent) (s s' : rstate) :
  loop_step cfg w e s = Some s' → open_workers cfg s → open_workers cfg s'.
Proof.
  intros Hs [Hlen Hop]. unfold loop_step in Hs.
  destruct e; step_cases Hs; split; simpl; rewrite ?length_insert; try done.
  all: intros _; try (apply open_insert; [done|]); apply Hop;
    by match goal with Hl : loop _ = _ |- _ => rewrite ?Hl end.
Qed.

Lemma open_worker (cfg : Queue) (w : string) (hs : Handlers) (e : revent) (s s' : rstate) :
  worker_step cfg w hs e s = Some s' → open_workers cfg s → open_workers cfg s'.
Proof.
  intros Hs [Hlen Hop]. unfold worker_step in Hs.
  destruct e; step_cases Hs; split; simpl; rewrite ?length_insert; try done.
  all: intros Hc; try (apply open_insert; [done|by apply Hop]).
  congruence.
Qed.

Lemma open_step (cfg : Queue) (w : string) (hs : Handlers) (e : revent) (s s' : rstate) :
  rexec cfg w hs e s = Some s' → open_workers cfg s → open_workers cfg s'.
Proof.
  intros Hs. destruct e; unfold rexec in Hs;
    try (by apply (open_loop _ _ _ _ _ Hs)); try (by apply (open_worker _ _ _ _ _ _ Hs)).
  all: by step_cases Hs.
Qed.

Lemma open_run (cfg : Queue) (w : string) (hs : Handlers) (es : list revent) (s s' : rstate) :
  rexecs cfg w hs es s = Some s' → open_workers cfg s → open_workers cfg s'.
Proof.
  revert s. induction es as [|e es IH]; simpl; intros s Hs Ho; [by simplify_eq|].
  destruct (rexec cfg w hs e s) as [s1|] eqn:He; [|done]. by eapply IH, open_step.
Qed.

Lemma open_start (cfg : Queue) (b : bool) (t : table) : open_workers cfg (running_pool cfg b t).
Proof.
  split; [apply length_replicate|]. intros _ i p Hi. simpl in Hi.
  by apply lookup_replicate in Hi as [-> _].
Qed.

(** A pool that is stopping is never stuck before its workers have all left, and once
    its context has ended not before [Run] returns. *)
Lemma stopping_progress (cfg : Queue) (w : string) (hs : Handlers) (s : rstate) :
  0 < Q_Workers cfg → open_workers cfg s → stopping s = true →
  closed (loop s) = false ∨ forallb stopped (workers s) = false
  ∨ (r_cancelled s = true ∧ loop s ≠ LReturned) →
  ∃ e, of_run e = true ∧ is_Some (rexec cfg w hs e s).
Proof.
  intros Hw [Hlen Hop] Hst Hleft.
  assert (Hstep : ∀ e, of_run e = true → is_Some (rexec cfg w hs e s) →
    ∃ e, of_run e = true ∧ is_Some (rexec cfg w hs e s)) by eauto.
  assert (Hwork : closed (loop s) = true → forallb stopped (workers s) = false →
    ∃ e, of_run e = true ∧ is_Some (rexec cfg w hs e s)).
  { intros Hc Hf. destruct (workers_stopped_or (workers s)) as [E|(i & p & Hi & Hp)];
      [by rewrite E in Hf|]. by apply (worker_progress cfg w hs s i p). }
  destruct (loop s) as [| |[|j rest] full|j rest full| | | | |] eqn:Hl; simpl in *.
  - apply (Hstep RCheck); [done|]. simpl. rewrite Hl. by eauto.
  - apply (Hstep (RClaim DbOk 0 ∅)); [done|]. simpl. rewrite Hl.
    destruct (Claim _ _ _ _ _ _ _). by eauto.
  - apply (Hstep RNext); [done|]. simpl. rewrite Hl. by eauto.
  - apply (Hstep RNext); [done|]. simpl. rewrite Hl. by eauto.
  - destruct (workers s !! 0%nat) as [p|] eqn:Hp.
    + eapply send_progress; [done|done|]. by eapply Hop.
    + apply lookup_ge_None in Hp. lia.
  - apply (Hstep RCooled); [done|]. simpl. rewrite Hl. by eauto.
  - apply (Hstep RSelectStop); [done|]. simpl. rewrite Hl, Hst. by eauto.
  - apply (Hstep RClose); [done|]. simpl. rewrite Hl. by eauto.
  - destruct (forallb stopped (workers s)) eqn:Hf; [|by apply Hwork].
    destruct Hleft as [|[|[Hc _]]]; [done..|].
    destruct (beating s) eqn:Hb.
    + apply (Hstep RBeatStop); [done|]. simpl. rewrite Hb, Hc. by eauto.
    + apply (Hstep RReturn); [done|]. simpl. rewrite Hl, Hf, Hb. by eauto.
  - destruct Hleft as [|[Hf|[_ ?]]]; [done| |done]. by apply Hwork.
Qed.

(** ** Nothing is left registered *)

Definition in_hand (p : work_pc) : option Job :=
  match p with
  | WGot j | WRun j | WWrote j _ | WPublished j => Some j
  | _ => None
  end.

Definition hands (s : rstate) : list Job :=
  match loop s with LSend j _ _ => [j] | _ => [] end ++ omap in_hand (workers s).

Definition covered (s : rstate) : Prop :=
  ∀ id, is_Some (r_inflight s !! id) → id ∈ job_ID <$> hands s.

Lemma in_hand_insert (s : rstate) (i : nat) (p q : work_pc) :
  workers s !! i = Some p →
  omap in_hand (<[i := q]> (workers s)) ++ option_list (in_hand p)
  ≡ₚ omap in_hand (workers s) ++ option_list (in_hand q).
Proof. apply omap_insert_perm. Qed.

Lemma covered_same (s s' : rstate) :
  covered s → r_inflight s' = r_inflight s → hands s ⊆ hands s' → covered s'.
Proof.
  intros Hc Hi Hh id Hid. rewrite Hi in Hid. apply Hc in Hid.
  apply list_elem_of_fmap in Hid as (j & -> & Hj). by apply list_elem_of_fmap_2, Hh.
Qed.

Lemma covered_track (s s' : rstate) (j : Job) (b : bool) :
  covered s → r_inflight s' = track (job_ID j) b (r_inflight s) → hands s ⊆ hands s' →
  j ∈ hands s' → covered s'.
Proof.
  intros Hc Hi Hh Hj id Hid. rewrite Hi in Hid. unfold track in Hid.
  destruct (decide (id = job_ID j)) as [->|Hne]; [by apply list_elem_of_fmap_2|].
  rewrite lookup_insert_ne in Hid by done. apply Hc in Hid.
  apply list_elem_of_fmap in Hid as (k & -> & Hk). by apply list_elem_of_fmap_2, Hh.
Qed.

Lemma covered_untrack (s s' : rstate) (j : Job) :
  covered s → r_inflight s' = untrack (job_ID j) (r_inflight s) → hands s ⊆ j :: hands s' →
  covered s'.
Proof.
  intros Hc Hi Hh id Hid. rewrite Hi in Hid. unfold untrack in Hid.
  destruct (decide (id = job_ID j)) as [->|Hne];
    [rewrite lookup_delete_eq in Hid; by destruct Hid|].
  rewrite lookup_delete_ne in Hid by done. apply Hc in Hid.
  apply list_elem_of_fmap in Hid as (k & -> & Hk). apply Hh, elem_of_cons in Hk as [->|Hk];
    [done|]. by apply list_elem_of_fmap_2.
Qed.

(** What is in hand once worker [i] is at [q]. *)
Ltac hands_insert :=
  match goal with
  | Hi : workers ?s !! ?i = Some ?p |- context [<[?i := ?q]> (workers ?s)] =>
      let Hp := fresh in pose proof (in_hand_insert s i p q Hi) as Hp; simpl in Hp;
      rewrite ?app_nil_r in Hp; try apply Permutation_app_inv_r in Hp
  end.

Ltac hands_subset :=
  unfold hands; simpl;
  repeat match goal with Hl : loop _ = _ |- _ => rewrite Hl; clear Hl end; simpl;
  try hands_insert;
  intros k Hk;
  repeat match goal with
  | Hp : _ ≡ₚ _ |- _ => apply (elem_of_Permutation_proper k) in Hp
  end;
  rewrite ?elem_of_cons, ?elem_of_app, ?elem_of_cons, ?elem_of_nil in *; tauto.

Lemma covered_step (cfg : Queue) (w : string) (hs : Handlers) (e : revent) (s s' : rstate) :
  rexec cfg w hs e s = Some s' → covered s → covered s'.
Proof.
  intros Hs Hc. destruct e; step_cases Hs.
  all: try (apply (covered_same s); [done..|]; hands_subset).
  - apply (covered_track s _ j false); [done..|hands_subset|by left].
  - apply (covered_untrack s _ j); [done..|]. hands_subset.
  - apply (covered_track s _ j true); [done..|hands_subset|]. unfold hands. simpl.
    hands_insert. apply elem_of_app. right.
    match goal with Hp : _ ≡ₚ _ |- _ => rewrite Hp end.
    match goal with Hi : workers s !! _ = Some _ |- _ => apply list_elem_of_lookup_2 in Hi end.
    apply list_elem_of_omap. by eexists.
  - apply (covered_untrack s _ j); [done..|]. hands_subset.
Qed.

Lemma covered_run (cfg : Queue) (w : string) (hs : Handlers) (es : list revent)
  (s s' : rstate) :
  rexecs cfg w hs es s = Some s' → covered s → covered s'.
Proof.
  revert s. induction es as [|e es IH]; simpl; intros s Hs Hc; [by simplify_eq|].
  destruct (rexec cfg w hs e s) as [s1|] eqn:He; [|done]. by eapply IH, covered_step.
Qed.

(** [Run] returns only after every goroutine it started. *)
Definition joined (s : rstate) : Prop :=
  loop s = LReturned → forallb stopped (workers s) = true ∧ beating s = false.

Lemma joined_step (cfg : Queue) (w : string) (hs : Handlers) (e : revent) (s s' : rstate) :
  rexec cfg w hs e s = Some s' → joined s → joined s'.
Proof.
  intros Hs Hj. destruct e; step_cases Hs.
  all: unfold joined in *; simpl; try done.
  all: try (intros Hl; specialize (Hj Hl) as [Hw Hb]; try done).
  all: try (rewrite forallb_forall in Hw;
    match goal with Hi : workers _ !! _ = Some _ |- _ =>
      apply list_elem_of_lookup_2, list_elem_of_In, Hw in Hi end; done).
  all: split_all; try (rewrite negb_true_iff in *); try done; try congruence.
  - unfold claimed_pc. by repeat case_match.
  - unfold after_batch. by repeat case_match.
Qed.

(** ** Every run is a run of the abstract pool *)

Definition got (p : work_pc) : option Job := match p with WGot j => Some j | _ => None end.
Definition ran (p : work_pc) : option Job := match p with WRun j => Some j | _ => None end.
Definition wrote (p : work_pc) : option Job :=
  match p with WWrote j _ | WPublished j => Some j | _ => None end.

Definition batch_of (l : loop_pc) : list Job :=
  match l with LBatch rest _ | LSend _ rest _ => rest | _ => [] end.
Definition sending (l : loop_pc) : option Job :=
  match l with LSend j _ _ => Some j | _ => None end.
Definition claiming_pc (l : loop_pc) : bool := match l with LClaim => true | _ => false end.

(** The state of [Pool.pexec] a state of the goroutines stands for; the order in which
    workers hold their jobs is theirs. *)
Record stands_for (s : rstate) (ps : pstate) : Prop := {
  sf_tbl : tbl ps = r_tbl s;
  sf_inflight : inflight ps = r_inflight s;
  sf_claiming : claiming ps = claiming_pc (loop s);
  sf_pending : pending ps = batch_of (loop s);
  sf_offering : offering ps = sending (loop s);
  sf_received : received ps ≡ₚ omap got (workers s);
  sf_started : started ps ≡ₚ omap ran (workers s);
  sf_closing : closing ps ≡ₚ omap wrote (workers s);
  sf_draining : draining ps = r_draining s;
  sf_cancelled : cancelled ps = r_cancelled s;
}.

Lemma hands_split (l : list work_pc) :
  omap got l ++ omap ran l ++ omap wrote l ≡ₚ omap in_hand l.
Proof. induction l as [|[] l IH]; simpl; rewrite <- ?IH; solve_Permutation. Qed.

Lemma stands_busy (s : rstate) (ps : pstate) :
  stands_for s ps → busy ps ≡ₚ omap in_hand (workers s).
Proof. intros []. unfold busy. by rewrite sf_received0, sf_started0, sf_closing0, hands_split. Qed.

Lemma idle_stands (cfg : Queue) (b : bool) (t : table) :
  stands_for (running_pool cfg b t) (idle_pool t).
Proof.
  assert (Hn : ∀ f : work_pc → option Job, f WRecv = None →
    omap f (replicate (Z.to_nat (Q_Workers cfg)) WRecv) = []).
  { intros f Hf. induction (Z.to_nat _) as [|n IH]; simpl; [done|]. by rewrite Hf. }
  split; simpl; try done; by rewrite Hn.
Qed.

(** A claim hands out no job a worker still has. *)
Definition claims_fresh (e : revent) (s s' : rstate) : Prop :=
  match e with
  | RClaim _ _ _ => ∀ j, j ∈ batch_of (loop s') → job_ID j ∉ job_ID <$> omap in_hand (workers s)
  | _ => True
  end.

(** The move of the abstract pool a step is, a fresh claim for a fresh claim. *)
Definition matched (cfg : Queue) (w : string) (hs : Handlers) (fresh : Prop) (ps ps' : pstate) : Prop :=
  ps' = ps ∨ ∃ pe, pexec cfg w hs pe ps = Some ps' ∧ (fresh → fresh_claim pe ps ps').

(** The fields of the state after a step, from those before. *)
Ltac stand :=
  match goal with Hst : stands_for _ _ |- _ => destruct Hst end;
  match goal with Hl : loop _ = _ |- _ => rewrite Hl in *; simpl in * | _ => idtac end;
  split; simpl; try done; try congruence.

Ltac stays ps := exists ps; split; [by left|]; stand.

(** The abstract state as the fields of the goroutines' one. *)
Ltac unpack :=
  match goal with Hst : stands_for ?s ?ps |- _ =>
    destruct ps as [tb fl cl pe off re st cg dr ca];
    destruct Hst as [Etb Efl Ecl Epe Eof Ere Est Ecg Edr Eca]; simpl in *
  end;
  match goal with Hl : loop _ = _ |- _ => rewrite Hl in *; simpl in * | _ => idtac end; subst.

Ltac moves pe tac :=
  eexists; split; [right; exists pe; split; [simpl; tac; reflexivity|try done]|split; simpl; try done].

Lemma omap_length_le {A B} (f : A → option B) (l : list A) :
  (length (omap f l) ≤ length l)%nat.
Proof. induction l as [|x l IH]; csimpl; [lia|]. destruct (f x); csimpl; lia. Qed.

Lemma workers_busy_lt (cfg : Queue) (s : rstate) (i : nat) (l : list Job) :
  open_workers cfg s → workers s !! i = Some WRecv → l ≡ₚ omap in_hand (workers s) →
  Z.of_nat (length l) < Q_Workers cfg.
Proof.
  intros [Hlen _] Hi Hl. assert (Hlt : (length (omap in_hand (workers s)) < length (workers s))%nat).
  { clear Hlen Hl. revert i Hi. induction (workers s) as [|p ws IH]; intros [|i] Hi; try done; csimpl in *.
    - injection Hi as ->. csimpl. pose proof (omap_length_le in_hand ws). lia.
    - apply IH in Hi. destruct (in_hand p); csimpl; lia. }
  rewrite Hl. lia.
Qed.

Lemma matched_loop (cfg : Queue) (w : string) (hs : Handlers) (e : revent) (s s' : rstate)
  (ps : pstate) :
  open_workers cfg s → loop_step cfg w e s = Some s' → stands_for s ps →
  ∃ ps', matched cfg w hs (claims_fresh e s s') ps ps' ∧ stands_for s' ps'.
Proof.
  intros Hop Hs Hst. unfold loop_step in Hs. destruct e; step_cases Hs.
  all: try (by stays ps).
  - unpack.
    match goal with H : stopping s = false |- _ =>
      unfold stopping in H; moves EvCheck ltac:(rewrite H) end.
  - pose proof (stands_busy _ _ Hst) as Hb. unpack.
    match goal with Hc : Claim _ _ _ _ _ _ _ = (?r, _) |- _ =>
      assert (Hp : batch_of (claimed_pc cfg r) = match r with Ok js => js | Err _ => [] end)
        by (by destruct r as [[|]|]);
      moves (EvClaim io now locked) ltac:(rewrite Hc) end.
    1: { simpl. intros Hf j Hj. unfold busy in *. simpl in *. rewrite Hb. apply Hf. by rewrite Hp. }
    all: try done; unfold claimed_pc; by repeat case_match.
  - exists ps. split; [by left|]. unpack. split; simpl; try done; unfold after_batch;
      by repeat case_match.
  - unpack. moves EvOffer idtac.
  - pose proof (stands_busy _ _ Hst) as Hb.
    match goal with Hi : workers s !! i = Some WRecv |- _ =>
      pose proof (workers_busy_lt _ _ _ _ Hop Hi Hb) as Hlt;
      pose proof (omap_insert_perm got _ i _ (WGot j) Hi) as Pg;
      pose proof (omap_insert_perm ran _ i _ (WGot j) Hi) as Pr;
      pose proof (omap_insert_perm wrote _ i _ (WGot j) Hi) as Pw end.
    simpl in *. rewrite ?app_nil_r in *. unpack. unfold busy in Hlt. simpl in Hlt.
    apply Z.ltb_lt in Hlt. moves EvSend ltac:(unfold busy; simpl; rewrite Hlt).
    + by rewrite Ere, Pg.
    + by rewrite Est, Pr.
    + by rewrite Ecg, Pw.
  - unpack.
    match goal with Hc : r_cancelled s = true |- _ => moves (EvAbort io) ltac:(rewrite Hc) end.
Qed.

Section moving.
Context (f : work_pc → option Job) (ws : list work_pc) (i : nat) (p q : work_pc) (l : list Job)
  (Hi : ws !! i = Some p) (Hl : l ≡ₚ omap f ws).

Lemma take_one (j : Job) :
  f p = Some j → f q = None → j ∈ l ∧ remove_one j l ≡ₚ omap f (<[i := q]> ws).
Proof using Hi Hl.
  intros Hp Hq. pose proof (omap_insert_perm f ws i p q Hi) as Hperm.
  rewrite Hp, Hq, app_nil_r in Hperm. simpl in Hperm.
  assert (Hj : j ∈ l) by (rewrite Hl, <- Hperm; apply elem_of_app; right; by left).
  split; [done|]. apply (Permutation_cons_inv (a := j)). rewrite <- (remove_one_perm j l Hj), Hl,
    <- Hperm. solve_Permutation.
Qed.

Lemma put_one (j : Job) : f p = None → f q = Some j → j :: l ≡ₚ omap f (<[i := q]> ws).
Proof using Hi Hl.
  intros Hp Hq. pose proof (omap_insert_perm f ws i p q Hi) as Hperm.
  rewrite Hp, Hq, app_nil_r in Hperm. simpl in Hperm. rewrite Hperm, Hl. solve_Permutation.
Qed.

Lemma keep_one : f p = f q → l ≡ₚ omap f (<[i := q]> ws).
Proof using Hi Hl.
  intros Hp. pose proof (omap_insert_perm f ws i p q Hi) as Hperm. rewrite Hp in Hperm.
  apply Permutation_app_inv_r in Hperm. by rewrite Hperm.
Qed.
End moving.

Lemma matched_worker (cfg : Queue) (w : string) (hs : Handlers) (e : revent) (s s' : rstate)
  (ps : pstate) :
  worker_step cfg w hs e s = Some s' → stands_for s ps →
  ∃ ps', matched cfg w hs (claims_fresh e s s') ps ps' ∧ stands_for s' ps'.
Proof.
  intros Hs Hst. unfold worker_step in Hs. destruct e; step_cases Hs.
  all: match goal with Hi : workers _ !! _ = Some _ |- _ => rename Hi into Hx end; unpack.
  - destruct (take_one got _ i _ (WRun j) _ Hx Ere j) as [Hin Hre]; [done..|].
    moves (EvStart j) ltac:(rewrite decide_True by exact Hin).
    + by apply (put_one ran _ i (WGot j)).
    + by apply (keep_one wrote _ i (WGot j)).
  - destruct (take_one ran _ i _ (WWrote j o) _ Hx Est j) as [Hin Hst]; [done..|].
    match goal with Hf : finish _ _ _ _ _ _ _ _ = _ |- _ =>
      moves (EvWrite j io draw now) ltac:(rewrite decide_True by exact Hin; rewrite Hf) end.
    + by apply (keep_one got _ i (WRun j)).
    + by apply (put_one wrote _ i (WRun j)).
  - eexists. split; [by left|]. split; simpl; try done; by eapply keep_one.
  - destruct (take_one wrote _ i _ WRecv _ Hx Ecg j) as [Hin Hcg]; [done..|].
    moves (EvUntrack j) ltac:(rewrite decide_True by exact Hin).
    + by apply (keep_one got _ i (WPublished j)).
    + by apply (keep_one ran _ i (WPublished j)).
  - eexists. split; [by left|]. split; simpl; try done; by eapply keep_one.
Qed.

Lemma matched_step (cfg : Queue) (w : string) (hs : Handlers) (e : revent) (s s' : rstate)
  (ps : pstate) :
  open_workers cfg s → rexec cfg w hs e s = Some s' → stands_for s ps →
  ∃ ps', matched cfg w hs (claims_fresh e s s') ps ps' ∧ stands_for s' ps'.
Proof.
  intros Hop Hs Hst. destruct e; unfold rexec in Hs;
    try (by eapply matched_loop); try (by eapply matched_worker).
  all: step_cases Hs.
  all: try (by stays ps).
  - unpack. moves (EvBeat io now) idtac.
  - unpack. moves EvDrain idtac.
  - unpack. match goal with Hr : releaseInflight _ _ _ _ = _ |- _ =>
      moves (EvReleaseAll io) ltac:(rewrite Hr) end.
  - unpack. match goal with Hr : releaseInflight _ _ _ _ = _ |- _ =>
      moves (EvReleaseAll io) ltac:(rewrite Hr) end.
  - unpack. moves EvCancel idtac.
  - unpack. moves (EvOther f) idtac.
Qed.

(** Every run of the goroutines is one of the abstract pool. *)
Lemma simulated (cfg : Queue) (w : string) (hs : Handlers) (es : list revent) (s s' : rstate)
  (ps : pstate) :
  open_workers cfg s → rexecs cfg w hs es s = Some s' → stands_for s ps →
  ∃ pes ps', pexecs cfg w hs pes ps = Some ps' ∧ stands_for s' ps'.
Proof.
  revert s ps. induction es as [|e es IH]; simpl; intros s ps Hop Hs Hst.
  - exists [], ps. by simplify_eq.
  - destruct (rexec cfg w hs e s) as [s1|] eqn:He; [|done]. simpl in Hs.
    destruct (matched_step _ _ _ _ _ _ ps Hop He Hst) as (ps1 & Hm & Hst1).
    destruct (IH s1 ps1 (open_step _ _ _ _ _ _ He Hop) Hs Hst1) as (pes & ps' & Hpes & Hst').
    destruct Hm as [->|(pe & Hpe & _)]; [by exists pes, ps'|].
    exists (pe :: pes), ps'. simpl. by rewrite Hpe.
Qed.

(** The reachable states, when no claim hands out a job a worker of this pool still
    has. *)
Inductive rreach (cfg : Queue) (w : string) (hs : Handlers) : rstate → Prop :=
  | rreach_start b t : rreach cfg w hs (running_pool cfg b t)
  | rreach_step e s s' :
      rreach cfg w hs s → rexec cfg w hs e s = Some s' → claims_fresh e s s' →
      rreach cfg w hs s'.

Fixpoint rruns (cfg : Queue) (w : string) (hs : Handlers) (es : list revent) (s : rstate)
  : option rstate :=
  match es with
  | [] => Some s
  | e :: es =>
      s' ← rexec cfg w hs e s;
      if match e with
         | RClaim _ _ _ =>
             forallb (λ j, bool_decide (job_ID j ∉ job_ID <$> omap in_hand (workers s)))
               (batch_of (loop s'))
         | _ => true
         end
      then rruns cfg w hs es s' else None
  end.

Lemma rruns_rreach (cfg : Queue) (w : string) (hs : Handlers) (es : list revent)
  (s s' : rstate) :
  rreach cfg w hs s → rruns cfg w hs es s = Some s' → rreach cfg w hs s'.
Proof.
  revert s. induction es as [|e es IH]; simpl; intros s Hs Hr; [by simplify_eq|].
  destruct (rexec cfg w hs e s) as [s1|] eqn:E; [|done]. simpl in Hr.
  match type of Hr with context [if ?b then _ else _] => destruct b eqn:Hb end; [|done].
  apply (IH s1); [|done]. eapply rreach_step; [done..|]. destruct e; simpl; try done.
  intros j Hj. rewrite forallb_forall in Hb. apply list_elem_of_In, Hb in Hj. by zbool.
Qed.

Lemma rreach_run (cfg : Queue) (w : string) (hs : Handlers) (s : rstate) :
  rreach cfg w hs s → ∃ b t es, rexecs cfg w hs es (running_pool cfg b t) = Some s.
Proof.
  induction 1 as [b t|e s s' _ (b & t & es & IH) He _]; [by exists b, t, []|].
  exists b, t, (es ++ [e]). revert IH. generalize (running_pool cfg b t).
  induction es as [|e' es IH]; intros r; simpl.
  - intros [= ->]. by rewrite He.
  - destruct (rexec cfg w hs e' r); [simpl; auto|done].
Qed.

Lemma stopping_run (cfg : Queue) (w : string) (hs : Handlers) (es : list revent)
  (s s' : rstate) :
  rexecs cfg w hs es s = Some s' → stopping s = true → stopping s' = true.
Proof.
  revert s. induction es as [|e es IH]; simpl; intros s Hs Hst; [by simplify_eq|].
  destruct (rexec cfg w hs e s) as [s1|] eqn:He; [|done]. by eapply IH, stopping_step.
Qed.

(** [Run]'s heartbeat ends only with its context. *)
Definition beats_on (s : rstate) : Prop := beating s = false → r_cancelled s = true.

Lemma ends_run (cfg : Queue) (w : string) (hs : Handlers) (es : list revent) (s s' : rstate) :
  rexecs cfg w hs es s = Some s' → beats_on s → joined s → beats_on s' ∧ joined s'.
Proof.
  revert s. induction es as [|e es IH]; simpl; intros s Hs Hb Hj; [by simplify_eq|].
  destruct (rexec cfg w hs e s) as [s1|] eqn:He; [|done].
  apply (IH s1); [done| |by eapply joined_step]. unfold beats_on in *.
  destruct e; step_cases He; auto. by split_all.
Qed.

(** ** Properties *)

(** C20: [Run] ends.  Once the pool is stopping, its own goroutines have only so many
    steps left, however they interleave with each other, with [Stop] and with the
    world, and at most two more for every tick or wake-up on the way.  They are never stuck
    before every worker has left and, once the context has ended, before [Run] has
    returned. *)
Theorem run_returns (cfg : Queue) (w : string) (hs : Handlers) (b : bool) (t : table)
  (es es' : list revent) (s s' : rstate) :
  0 < Q_Workers cfg →
  rexecs cfg w hs es (running_pool cfg b t) = Some s → stopping s = true →
  rexecs cfg w hs es' s = Some s' →
  (count of_run es' ≤ run_weight cfg s + 2 * count supplies es')%nat
  ∧ (closed (loop s') = false ∨ forallb stopped (workers s') = false
     ∨ (r_cancelled s' = true ∧ loop s' ≠ LReturned) →
     ∃ e, of_run e = true ∧ is_Some (rexec cfg w hs e s')).
Proof.
  intros Hw Hs Hst Hs'. split.
  - pose proof (run_work _ _ _ _ _ _ Hs' Hst). lia.
  - apply stopping_progress; [done| |].
    + by eapply open_run, open_run, open_start.
    + by eapply stopping_run.
Qed.

(** C21: nothing escapes [Run].  It returns only after its context has ended, with every
    worker and the heartbeat gone and no job registered. *)
Theorem run_joins (cfg : Queue) (w : string) (hs : Handlers) (b : bool) (t : table)
  (es : list revent) (s : rstate) :
  rexecs cfg w hs es (running_pool cfg b t) = Some s → loop s = LReturned →
  r_cancelled s = true ∧ beating s = false
  ∧ (∀ i p, workers s !! i = Some p → p = WStopped) ∧ r_inflight s = ∅.
Proof.
  intros Hs Hl. destruct (ends_run _ _ _ _ _ _ Hs) as [Hb Hj]; [done..|].
  destruct (Hj Hl) as [Hw Hbe]. rewrite forallb_forall in Hw.
  assert (Hstop : ∀ i p, workers s !! i = Some p → p = WStopped).
  { intros i p Hi. apply list_elem_of_lookup_2, list_elem_of_In, Hw in Hi. by destruct p. }
  split_and!; [auto..|]. apply map_empty. intros id. apply eq_None_not_Some. intros Hid.
  apply (covered_run _ _ _ _ _ _ Hs) in Hid; [|by intros ? [? ?]].
  unfold hands in Hid. rewrite Hl in Hid. simpl in Hid.
  apply list_elem_of_fmap in Hid as (j & _ & Hj').
  apply list_elem_of_omap in Hj' as (p & Hp & Hpj).
  apply list_elem_of_lookup in Hp as [i Hi]. by rewrite (Hstop i p Hi) in Hpj.
Qed.

End facts.

(** ** At a concrete pool *)

#[local] Existing Instance ConfigProps.plain_text.
#[local] Existing Instance amd64_conv.

(** Three jobs are claimed and one handler runs; then the context ends, the others are
    dropped and everything winds down. *)
Definition started_run : list revent :=
  [RCheck; RClaim DbOk 10 ∅; RNext; RSend 0; RStart 0; RNext].
Definition ended_run : list revent :=
  [RAbort DbOk; RSelectStop; RClose; RWrite 0 DbOk 0 20; RPublish 0; RUntrack 0]
  ++ (RQuit <$> seq 0 8) ++ [RBeatStop; RReturn].

Definition at_run (es : list revent) : rstate :=
  default (running_pool Queue_SetDefaults true empty_table)
    (rruns Queue_SetDefaults "w1" echo es (running_pool Queue_SetDefaults true three_jobs)).

Definition at_exec (es : list revent) (s : rstate) : rstate :=
  default s (rexecs Queue_SetDefaults "w1" echo es s).

Lemma run_returns_witness :
  let s := at_exec (started_run ++ [ECancel]) (running_pool Queue_SetDefaults true three_jobs) in
  (count of_run ended_run ≤ run_weight Queue_SetDefaults s)%nat
  ∧ run_weight Queue_SetDefaults s = 29%nat.
Proof.
  intros s.
  destruct (run_returns Queue_SetDefaults "w1" echo true three_jobs (started_run ++ [ECancel])
              ended_run s (at_exec ended_run s))
    as [Hc _]; [done|apply default_Some; vm_eq|vm_eq|apply default_Some; vm_eq|].
  split; [|vm_eq]. exact (transitivity Hc (eq_ind_r (λ n, (n ≤ _)%nat) (le_n _) (Nat.add_0_r _))).
Defined.

Lemma run_joins_witness :
  let s := at_exec ((started_run ++ [ECancel]) ++ ended_run)
             (running_pool Queue_SetDefaults true three_jobs) in
  r_cancelled s = true ∧ r_inflight s = ∅ ∧ loop s = LReturned
  ∧ state (row_at (r_tbl s) 1) = StateSucceeded.
Proof.
  intros s.
  destruct (run_joins Queue_SetDefaults "w1" echo true three_jobs
              ((started_run ++ [ECancel]) ++ ended_run) s) as (H1 & _ & _ & H4);
    [apply default_Some; vm_eq|vm_eq|].
  split; [exact H1|]. split; [exact H4|]. split; vm_eq.
Defined.


(** [Stop] is called and returns between the check of [claimBatch] and its statement: the
    batch is claimed and its handlers run after [Stop] reported the pool drained. *)
Example claimed_after_stop :
  let s := at_run [RCheck; SDrain; SCheck; RClaim DbOk 10 ∅; RNext; RSend 0; RStart 0] in
  stop s = SReturned None ∧ r_inflight s = {[ 1 := true ]}
  ∧ state (row_at (r_tbl s) 2) = StateRunning.
Proof. split; [vm_eq|]. split; vm_eq. Qed.

(** A sweep of a replica that is not the leader touches nothing; the statements of the
    one that is stay even when its lock's transaction does not commit. *)
Example sweep_leader :
  let sweep lock commit := Maintenance_Run Queue_SetDefaults
    [MSweep true lock commit DbOk DbOk None 0 (100 * second) (100 * second)]
    (tbl busy_pool) in
  sweep (Ok false) true = tbl busy_pool
  ∧ state (row_at (sweep (Ok true) false) 1) = StateRetryable.
Proof. split; vm_eq. Qed.
