(* ===== verification/Fleet.v ===== *)
(** * The fleet: every process of the deployment, goroutine by goroutine

    API replicas, worker processes with the goroutines of [PoolRun], the leader with the
    sweeps of service.go, and one Postgres between them, as one executable machine.
    Processes start and die at any point; a worker's process may die with deliveries on
    the wire.  [fexec] is one step of one goroutine of one process; [Delivery.dstep] is
    the machine it refines, so its invariant holds here. *)
From stdpp Require Import options.
From S2P Require Import Prelude GoStrings GoDuration GoFloat Apperr ConfigBase ConfigSections.
From S2P Require Import Task Outbox OutboxProps JobStore JobFacts JobProps Backoff Pool PoolProps Http Webhook.
From S2P Require Import PoolRun PoolRunProps Delivery.
From S2P Require UuidInstance Backends PgRepo TaskService ConfigProps.
Open Scope Z_scope.

Section fleet.
Context `{GoText, FloatConv, UuidPkg} `{!EventJson, !Guard}.
(** What all processes are configured with. *)
Context (cfg : Queue) (url : string).

(** [f_events], [f_log] and [f_gone] are read by no step: what was committed, what was
    sent with what the sender made of the answer, and the rows purged. *)
Record fstate : Type := mkF {
  f_used : gset uuid;
  f_world : world;
  f_events : list Outbox.Event;
  f_log : request_log;
  f_gone : gmap Z Row;
  f_pools : gmap string rstate;
}.

Definition f_jobs (s : fstate) : table := pg_jobs (w_db (f_world s)).
Definition f_tasks (s : fstate) : gmap uuid Task := pg_tasks (w_db (f_world s)).
Definition f_history (s : fstate) : gmap Z Row := rows (f_jobs s) ∪ f_gone s.

Definition put_jobs (t : table) (pools : gmap string rstate) (new : request_log) (s : fstate) : fstate :=
  mkF (f_used s) (with_jobs (λ _, t) (f_world s)) (f_events s) (new ++ f_log s)
    (f_gone s ∪ (rows (f_jobs s) ∖ rows t)) pools.

Definition set_pools (pools : gmap string rstate) (new : request_log) (s : fstate) : fstate :=
  mkF (f_used s) (f_world s) (f_events s) (new ++ f_log s) (f_gone s) pools.

(** The jobs are in the database, not in the process. *)
Definition enter (t : table) (r : rstate) : rstate := with_tbl t (r_inflight r) r.

Definition running_job (i : nat) (r : rstate) : option Job :=
  match workers r !! i with Some (WRun j) => Some j | _ => None end.

(** A delivery on the wire when its process dies: the worker, the attempts that were
    answered, and by what. *)
Record cut_short : Type := mkCut {
  c_worker : nat;
  c_attempts : nat;
  c_webhook : Options;
  c_remote : nat → reply;
}.

Definition cut_log (r : rstate) (c : cut_short) : request_log :=
  match running_job (c_worker c) r with
  | Some j =>
      if decide (wo_URL (c_webhook c) = url)
      then take (c_attempts c) (sent (c_webhook c) j (c_remote c)) else []
  | None => []
  end.

(** The leader's sweeps, statement by statement: other processes' run in between. *)
Inductive leader_stmt : Type :=
  | LSchedule (io : db) (now : Z)
  | LReap (io : db) (draw now : Z)
  | LPurge (io : db) (now : Z) (scan : list Z).

Definition leader_table (l : leader_stmt) (t : table) : table :=
  match l with
  | LSchedule io now => (Schedule io now t).2
  | LReap io draw now => (Reap io None (For (NewBackoff (Q_Backoff cfg)) 1 draw) (Q_MaxAttempts cfg) now t).2
  | LPurge io now scan => (Maintenance_Purge io cfg now scan t).2
  end.

(** [FStep]: any step of a goroutine but the end of a handler; [hs] only says what the
    outcome already written is published with. *)
Inductive fevent : Type :=
  | FChange (io : PgRepo.txio) (o : change_op) (now : Z)
  | FLeader (l : leader_stmt)
  | FStart (p : string) (has_notify : bool)
  | FStep (p : string) (hs : Handlers) (e : revent)
  | FDeliver (p : string) (i : nat) (io : db) (draw now : Z) (w : Options) (remote : nat → reply)
  | FPanic (p : string) (i : nat) (io : db) (draw now : Z) (w : Options) (remote : nat → reply)
      (n : nat) (v : string)
  | FKill (p : string) (cuts : list cut_short).

Definition plain (e : revent) : bool :=
  match e with RWrite _ _ _ _ | EStore _ => false | _ => true end.

(** A worker's handler returns and its outcome is written. *)
Definition write_step (p : string) (i : nat) (io : db) (draw now : Z) (hs : Handlers)
  (new : Job → request_log) (s : fstate) : option fstate :=
  r ← f_pools s !! p;
  j ← running_job i r;
  r' ← rexec cfg p hs (RWrite i io draw now) (enter (f_jobs s) r);
  Some (put_jobs (r_tbl r') (<[p := r']> (f_pools s)) (new j) s).

Definition fexec (e : fevent) (s : fstate) : option fstate :=
  match e with
  | FChange io o now =>
      if decide (creates o ## f_used s) then
        let w := (change_task io o now (f_world s)).2 in
        Some (mkF (creates o ∪ f_used s) w
                (committed o (f_tasks s) (pg_tasks (w_db w)) ++ f_events s) (f_log s) (f_gone s)
                (f_pools s))
      else None
  | FLeader l => Some (put_jobs (leader_table l (f_jobs s)) (f_pools s) [] s)
  | FStart p b =>
      match f_pools s !! p with
      | Some _ => None
      | None => Some (set_pools (<[p := running_pool cfg b (f_jobs s)]> (f_pools s)) [] s)
      end
  | FStep p hs e =>
      if plain e then
        r ← f_pools s !! p;
        r' ← rexec cfg p hs e (enter (f_jobs s) r);
        Some (put_jobs (r_tbl r') (<[p := r']> (f_pools s)) [] s)
      else None
  | FDeliver p i io draw now w remote =>
      if decide (wo_URL w = url) then
        write_step p i io draw now (handlers w remote) (λ j, sent w j remote) s
      else None
  | FPanic p i io draw now w remote n v =>
      if decide (wo_URL w = url) then
        write_step p i io draw now {[ JobKind := λ _, HPanic v ]} (λ j, take n (sent w j remote)) s
      else None
  | FKill p cuts =>
      r ← f_pools s !! p;
      Some (set_pools (delete p (f_pools s)) (cuts ≫= cut_log r) s)
  end.

Fixpoint fexecs (es : list fevent) (s : fstate) : option fstate :=
  match es with
  | [] => Some s
  | e :: es => s' ← fexec e s; fexecs es s'
  end.

Definition f_empty : fstate := mkF ∅ (mkWorld (mkPg ∅ empty_table) []) [] [] ∅ ∅.

(** The maintenance loop of service.go runs such statements and nothing else. *)
Lemma maintenance_statements (e : sweep_event) (t : table) :
  ∃ ls, Maintenance_step cfg e t = foldl (λ t l, leader_table l t) t ls.
Proof.
  destruct e as [b l c io1 io2 got draw now1 now2|b l c io now scan]; simpl; unfold asLeader, WithLeader, drop_value;
    (destruct b; [|by exists []]); (destruct l as [[]|x]; [|by exists []..]).
  - unfold Sweep. destruct (Schedule io1 now1 t) as [[n|x] t1] eqn:Hs.
    + exists [LSchedule io1 now1; LReap io2 draw now2]. simpl. rewrite Hs. simpl.
      rewrite reap_table, <- (reap_table io2 got).
      by destruct (Reap io2 got _ _ now2 t1) as [[m [y|]] t2].
    + exists [LSchedule io1 now1]. simpl. by rewrite Hs.
  - exists [LPurge io now scan]. simpl. by destruct (Maintenance_Purge io cfg now scan t) as [[m|y] t2].
Qed.

(** ** What a process holds *)

(** The jobs claimed whose outcome is still to be written. *)
Definition r_jobs (r : rstate) : list Job :=
  batch_of (loop r) ++ option_list (sending (loop r)) ++ omap got (workers r) ++ omap ran (workers r).

Lemma omap_insert_sub {A B} (f : A → option B) (l : list A) (i : nat) (x : A) :
  omap f (<[i := x]> l) ⊆ option_list (f x) ++ omap f l.
Proof.
  intros b (a & Ha & Hf)%list_elem_of_omap. apply elem_of_app.
  apply list_elem_of_lookup in Ha as [k Hk]. destruct (decide (k = i)) as [->|Hne].
  - destruct (decide (i < length l)%nat) as [Hi|Hi].
    + rewrite list_lookup_insert_eq in Hk by done. injection Hk as ->. left. rewrite Hf. simpl. set_solver.
    + rewrite list_insert_ge in Hk by lia. right. apply list_elem_of_omap. exists a.
      split; [by eapply list_elem_of_lookup_2|done].
  - rewrite list_lookup_insert_ne in Hk by done. right. apply list_elem_of_omap. exists a.
    split; [by eapply list_elem_of_lookup_2|done].
Qed.

Lemma omap_lookup {A B} (f : A → option B) (l : list A) (i : nat) (a : A) (b : B) :
  l !! i = Some a → f a = Some b → b ∈ omap f l.
Proof. intros Hl Hf. apply list_elem_of_omap. exists a. split; [by eapply list_elem_of_lookup_2|done]. Qed.

(** What a step other than the end of a handler does to the table and to the jobs held. *)
Inductive effect (p : string) (r r' : rstate) : Prop :=
  | eff_none : r_tbl r' = r_tbl r → r_jobs r' ⊆ r_jobs r → effect p r r'
  | eff_op o :
      sweeping cfg o = true → r_tbl r' = apply o (r_tbl r) → r_jobs r' ⊆ r_jobs r → effect p r r'
  | eff_claim io batch lease now locked res :
      Claim io p batch lease now locked (r_tbl r) = (res, r_tbl r') →
      r_jobs r' ⊆ match res with Ok js => js | Err _ => [] end ++ r_jobs r → effect p r r'.

Lemma beat_table (io : db) (w : string) (now : Z) (m : gmap Z bool) (t : table) :
  (beat io cfg w now m t).2 = t
  ∨ ∃ ids, (beat io cfg w now m t).2 = apply (JHeartbeat io w ids (Q_Lease cfg) now) t.
Proof.
  unfold beat. destruct (snapshot m) as [[|i ids] cs]; [by left|]. right. exists (i :: ids).
  unfold apply. by destruct (Heartbeat io w (i :: ids) (Q_Lease cfg) now t) as [[h|e] t'].
Qed.

Lemma release_table (io : db) (w : string) (m : gmap Z bool) (t t' : table) (res : result err unit)
  (cs : list Z) :
  releaseInflight io w m t = (res, cs, t') → t' = t ∨ ∃ ids, t' = apply (JRelease io w ids) t.
Proof.
  unfold releaseInflight. destruct (snapshot m) as [[|i ids] cs']; [intros [= <- <- <-]; by left|].
  intros Hr. right. exists (i :: ids). unfold apply.
  destruct (Release io w (i :: ids) t) as [[h|e] t1]; by injection Hr as <- <- <-.
Qed.

Ltac step_cases Hs := simpl in Hs; simplify_eq/=; repeat (case_match; simplify_eq/=; try done).

(** Inclusions between the jobs held before and after a step. *)
Ltac held_sub :=
  unfold r_jobs; simpl;
  try match goal with H : loop _ = _ |- _ => rewrite H end; simpl;
  try match goal with H : workers _ !! _ = Some (WGot ?j) |- _ =>
    pose proof (omap_lookup got _ _ _ j H eq_refl) end;
  try match goal with H : workers _ !! _ = Some (WRun ?j) |- _ =>
    pose proof (omap_lookup ran _ _ _ j H eq_refl) end;
  repeat match goal with |- context[omap ?f (<[?i := ?x]> ?l)] =>
    let H := fresh in pose proof (omap_insert_sub f l i x) as H; simpl in H;
    generalize dependent (omap f (<[i := x]> l)); intros
  end; set_solver.

Lemma batch_after (full : bool) : batch_of (after_batch cfg full) = [] ∧ sending (after_batch cfg full) = None.
Proof. unfold after_batch. by repeat case_match. Qed.

Lemma batch_claimed (res : result err (list Job)) :
  batch_of (claimed_pc cfg res) ⊆ match res with Ok js => js | Err _ => [] end
  ∧ sending (claimed_pc cfg res) = None.
Proof. by destruct res as [[|j js]|]. Qed.

Lemma rexec_effect (p : string) (hs : Handlers) (e : revent) (r r' : rstate) :
  plain e = true → rexec cfg p hs e r = Some r' → effect p r r'.
Proof.
  intros Hp Hs. destruct e; try done; step_cases Hs.
  all: try (apply eff_none; [done|held_sub]).
  all: try (match goal with Hrel : releaseInflight _ _ _ _ = _ |- _ =>
         apply release_table in Hrel as [Ht|[ids Ht]] end;
         [by apply eff_none|by eapply eff_op; [|exact Ht|]]).
  - destruct (batch_claimed r0) as [Hb Hn]. eapply eff_claim; [done|].
    unfold r_jobs. simpl. rewrite Hn. set_solver.
  - destruct (batch_after full) as [Hb Hn]. apply eff_none; [done|].
    unfold r_jobs. simpl. rewrite Hb, Hn. set_solver.
  - eapply (eff_op _ _ _ (JRelease io p [job_ID j])); [done|done|held_sub].
  - destruct (beat_table io p now (r_inflight r) (r_tbl r)) as [Ht|[ids Ht]].
    + by apply eff_none.
    + by eapply eff_op; [|exact Ht|].
Qed.

Lemma write_effect (p : string) (i : nat) (io : db) (draw now : Z) (hs : Handlers) (r r' : rstate) (j : Job) :
  running_job i r = Some j → rexec cfg p hs (RWrite i io draw now) r = Some r' →
  r_tbl r' = (finish io cfg p j (invoke hs j) draw now (r_tbl r)).2
  ∧ j ∈ r_jobs r ∧ r_jobs r' ⊆ r_jobs r.
Proof.
  unfold running_job. intros Hj Hs. simpl in Hs.
  destruct (workers r !! i) as [[]|] eqn:Hw; simplify_eq.
  destruct (finish io cfg p j (invoke hs j) draw now (r_tbl r)) as [o t] eqn:Hf. injection Hs as <-.
  split; [done|]. split; [|held_sub].
  pose proof (omap_lookup ran _ _ _ j Hw eq_refl). unfold r_jobs. set_solver.
Qed.

(** ** The fleet refines the path of an event *)

Definition as_delivery (hand : list (string * Job)) (s : fstate) : dstate :=
  mkD (f_used s) (f_world s) (f_events s) hand [] (f_log s) (f_gone s).

(** The jobs the processes hold are in the hands of the abstract machine. *)
Definition held (s : fstate) (hand : list (string * Job)) : Prop :=
  ∀ p r j, f_pools s !! p = Some r → j ∈ r_jobs r → (p, j) ∈ hand.

Definition dsteps := rtc (dstep cfg url).

Lemma held_put (s : fstate) (hand : list (string * Job)) (p : string) (r r' : rstate) (new : list Job)
  (t : table) (log : request_log) :
  held s hand → f_pools s !! p = Some r → r_jobs r' ⊆ new ++ r_jobs r →
  held (put_jobs t (<[p := r']> (f_pools s)) log s) (((λ j, (p, j)) <$> new) ++ hand).
Proof.
  intros Hh Hr Hsub q r0 j Hq Hj. simpl in Hq. apply elem_of_app. apply lookup_insert_Some in Hq as [[<- <-]|[Hne Hq]].
  - apply Hsub, elem_of_app in Hj as [Hj|Hj]; [left; by apply list_elem_of_fmap_2|right; by apply (Hh p r)].
  - right. by apply (Hh q r0).
Qed.

(** A job in hand may be listed again before it is dealt with. *)
Lemma again (hand : list (string * Job)) (p : string) (j : Job) (s : fstate) :
  (p, j) ∈ hand → dstep cfg url (as_delivery hand s) (as_delivery ((p, j) :: hand) s).
Proof. intros Hin. apply (ds_lose cfg url _ []); simpl; set_solver. Qed.

Lemma sim_op (hand : list (string * Job)) (s : fstate) (o : jop) (pools : gmap string rstate) :
  sweeping cfg o = true →
  dsteps (as_delivery hand s) (as_delivery hand (put_jobs (apply o (f_jobs s)) pools [] s)).
Proof. intros Ho. apply rtc_once. exact (ds_sweep cfg url o (as_delivery hand s) Ho). Qed.

(** The end of a handler, however it ended, and the write of its outcome. *)
Lemma sim_write (hand : list (string * Job)) (s : fstate) (p : string) (j : Job) (told : option err)
  (new : request_log) (io : db) (draw now : Z) (pools : gmap string rstate) :
  (p, j) ∈ hand →
  dstep cfg url (as_delivery ((p, j) :: hand) s)
    (set_work hand [(p, j, told)] new (as_delivery ((p, j) :: hand) s)) →
  dsteps (as_delivery hand s)
    (as_delivery hand (put_jobs (finish io cfg p j told draw now (f_jobs s)).2 pools new s)).
Proof.
  intros Hin Hstep. eapply rtc_l; [by apply again|]. eapply rtc_l; [exact Hstep|]. apply rtc_once.
  exact (ds_finish cfg url p j told io draw now [] [] (set_work hand [(p, j, told)] new _) eq_refl).
Qed.

Lemma write_step_sim (hand : list (string * Job)) (s s' : fstate) (p : string) (i : nat) (io : db)
  (draw now : Z) (hs : Handlers) (new : Job → request_log) :
  (∀ j, dstep cfg url (as_delivery ((p, j) :: hand) s)
          (set_work hand [(p, j, invoke hs j)] (new j) (as_delivery ((p, j) :: hand) s))) →
  write_step p i io draw now hs new s = Some s' → held s hand →
  dsteps (as_delivery hand s) (as_delivery hand s') ∧ held s' hand.
Proof.
  intros Hstep Hs Hh. unfold write_step in Hs. apply bind_Some in Hs as (r & Hr & Hs).
  apply bind_Some in Hs as (j & Hj & Hs). apply bind_Some in Hs as (r' & Hr' & [= <-]).
  destruct (write_effect p i io draw now hs (enter (f_jobs s) r) r' j Hj Hr') as (-> & Hin & Hsub).
  split; [|exact (held_put s hand p r r' [] _ _ Hh Hr Hsub)].
  apply sim_write; [by apply (Hh p r)|apply Hstep].
Qed.

(** A process that dies leaves its deliveries where they were. *)
Lemma cut_log_spec (r : rstate) (c : cut_short) :
  cut_log r c = []
  ∨ ∃ j, j ∈ r_jobs r ∧ wo_URL (c_webhook c) = url
      ∧ cut_log r c = take (c_attempts c) (sent (c_webhook c) j (c_remote c)).
Proof.
  unfold cut_log, running_job. destruct (workers r !! c_worker c) as [[| |j| | |]|] eqn:Hw; auto.
  case_decide; [|by left]. right. exists j. split; [|done].
  pose proof (omap_lookup ran _ _ _ j Hw eq_refl). unfold r_jobs. set_solver.
Qed.

Lemma sim_cuts (hand : list (string * Job)) (s : fstate) (p : string) (r : rstate) (cuts : list cut_short)
  (pools : gmap string rstate) :
  held s hand → f_pools s !! p = Some r →
  dsteps (as_delivery hand s) (as_delivery hand (set_pools pools (cuts ≫= cut_log r) s)).
Proof.
  intros Hh Hr. induction cuts as [|c cuts IH]; [apply rtc_refl|].
  etransitivity; [exact IH|]. set (s1 := set_pools pools (cuts ≫= cut_log r) s). unfold dsteps.
  change (as_delivery hand (set_pools pools ((c :: cuts) ≫= cut_log r) s))
    with (mkD (f_used s) (f_world s) (f_events s) hand [] ((cut_log r c ++ (cuts ≫= cut_log r)) ++ f_log s) (f_gone s)).
  rewrite <- app_assoc. destruct (cut_log_spec r c) as [->|(j & Hj & Hu & ->)]; [apply rtc_refl|].
  eapply rtc_l; [apply (again hand p j s1); by apply (Hh p r)|]. apply rtc_once.
  exact (ds_cut cfg url p j (c_webhook c) (c_remote c) (c_attempts c) [] hand
    (as_delivery ((p, j) :: hand) s1) eq_refl Hu).
Qed.

Lemma leader_op (l : leader_stmt) (t : table) : ∃ o, sweeping cfg o = true ∧ leader_table l t = apply o t.
Proof.
  destruct l as [io now|io draw now|io now scan]; simpl.
  - by exists (JSchedule io now).
  - exists (JReap io (For (NewBackoff (Q_Backoff cfg)) 1 draw) (Q_MaxAttempts cfg) now). split; [apply Z.eqb_refl|done].
  - by exists (JPurge io (R_Succeeded (Q_Retention cfg)) (R_Discarded (Q_Retention cfg)) now scan).
Qed.

Lemma start_holds_nothing (b : bool) (t : table) : r_jobs (running_pool cfg b t) = [].
Proof.
  unfold r_jobs. simpl. by induction (Z.to_nat (Q_Workers cfg)).
Qed.

Lemma step_sim (hand : list (string * Job)) (s : fstate) (p : string) (hs : Handlers) (e : revent) (r r' : rstate) :
  held s hand → f_pools s !! p = Some r → plain e = true →
  rexec cfg p hs e (enter (f_jobs s) r) = Some r' →
  let s' := put_jobs (r_tbl r') (<[p := r']> (f_pools s)) [] s in
  ∃ hand', dsteps (as_delivery hand s) (as_delivery hand' s') ∧ held s' hand'.
Proof.
  intros Hh Hr Hp He s'. subst s'.
  destruct (rexec_effect p hs e _ r' Hp He) as [Ht Hsub|o Ho Ht Hsub|io batch lease now locked res Hc Hsub].
  - exists hand. split; [|exact (held_put s hand p r r' [] _ _ Hh Hr Hsub)].
    rewrite Ht. by apply (sim_op hand s (JRelease DbOk p [])).
  - exists hand. rewrite Ht. split; [by apply sim_op|exact (held_put s hand p r r' [] _ _ Hh Hr Hsub)].
  - eexists. split; [|exact (held_put s hand p r r' _ _ _ Hh Hr Hsub)].
    apply rtc_once. exact (ds_claim cfg url io p batch lease now locked res (r_tbl r') (as_delivery hand s) Hc).
Qed.

Lemma fexec_sim (hand : list (string * Job)) (s s' : fstate) (e : fevent) :
  fexec e s = Some s' → held s hand →
  ∃ hand', dsteps (as_delivery hand s) (as_delivery hand' s') ∧ held s' hand'.
Proof.
  intros He Hh. destruct e as [io o now|l|p b|p hs e|p i io draw now w remote|p i io draw now w remote n v|p cuts];
    simpl in He.
  - case_decide as Hc; [|done]. injection He as <-. exists hand. split; [|exact Hh].
    apply rtc_once. exact (ds_change cfg url io o now (as_delivery hand s) _ Hc eq_refl).
  - injection He as <-. exists hand. split; [|exact Hh].
    destruct (leader_op l (f_jobs s)) as (o & Ho & ->). by apply sim_op.
  - destruct (f_pools s !! p) eqn:Hp; [done|]. injection He as <-. exists hand. split; [apply rtc_refl|].
    intros q r j Hq Hj. simpl in Hq. apply lookup_insert_Some in Hq as [[_ <-]|[_ Hq]]; [|by apply (Hh q r)].
    rewrite start_holds_nothing in Hj. by apply elem_of_nil in Hj.
  - destruct (plain e) eqn:Hpl; [|done]. apply bind_Some in He as (r & Hr & He).
    apply bind_Some in He as (r' & Hr' & [= <-]). by eapply step_sim.
  - case_decide as Hu; [|done]. exists hand. eapply write_step_sim; [|exact He|exact Hh].
    intros j. exact (ds_handle cfg url p j w remote [] hand (as_delivery ((p, j) :: hand) s) eq_refl Hu).
  - case_decide as Hu; [|done]. exists hand. eapply write_step_sim; [|exact He|exact Hh].
    intros j. exact (ds_panic cfg url p j w remote n v [] hand (as_delivery ((p, j) :: hand) s) eq_refl Hu).
  - apply bind_Some in He as (r & Hr & [= <-]). exists hand. split; [by apply (sim_cuts hand s p r)|].
    intros q r0 j Hq Hj. simpl in Hq. apply lookup_delete_Some in Hq as [_ Hq]. by apply (Hh q r0).
Qed.

Lemma fexecs_sim (es : list fevent) (hand : list (string * Job)) (s s' : fstate) :
  fexecs es s = Some s' → held s hand →
  ∃ hand', dsteps (as_delivery hand s) (as_delivery hand' s') ∧ held s' hand'.
Proof.
  revert hand s. induction es as [|e es IH]; intros hand s Hs Hh.
  - injection Hs as <-. exists hand. split; [apply rtc_refl|done].
  - apply bind_Some in Hs as (s1 & H1' & Hs). destruct (fexec_sim hand s s1 e H1' Hh) as (h1 & Hst & Hh1).
    destruct (IH h1 s1 Hs Hh1) as (h2 & Hst2 & Hh2). exists h2. split; [by etransitivity|done].
Qed.
End fleet.

(** ** Properties *)

(** C1: at-least-once delivery, end to end.  Whatever the replicas, the goroutines of the
    worker processes and the leader do, in any interleaving, over a driver that may fail
    anywhere, with handlers that panic and processes that die in the middle of a delivery:
    each committed change has a row; if the row says succeeded, now or when it was purged,
    a request of exactly this event was sent and its answer was a 2xx; if it says
    cancelled, the answer of one was a rejection; if discarded, the attempts allowed were
    spent; and otherwise the row is still in the table.  Nothing but committed events is
    ever sent, and the version of every stored task is among them.  (The answer is the one
    [client.Do] ends with: [WebhookClient].) *)
Theorem delivered_at_least_once `{GoText, FloatConv, UuidPkg} `{!EventJson, !Guard, !UuidLaws, !UuidText}
  `{!EventJsonLaws} (cfg : Queue) (url : string) (retry : WebhookRetry) `{!GuardLaws retry}
  (es : list fevent) (s : fstate) :
  url ≠ "" → 1 ≤ WR_MaxAttempts retry → fexecs cfg url es f_empty = Some s →
  (∀ e, e ∈ f_events s →
    ∃ id r, f_history s !! id = Some r ∧ payload r = event_json e
      ∧ match state r with
        | StateSucceeded => heard url (f_log s) id e Accepted
        | StateCancelled => heard url (f_log s) id e Rejected
        | StateDiscarded => Z.min (max_attempts r) (Q_MaxAttempts cfg) ≤ attempt r
        | _ => rows (f_jobs s) !! id = Some r
        end)
  ∧ (∀ q v, (q, v) ∈ f_log s → ∃ j e, e ∈ f_events s ∧ q = job_request url j e)
  ∧ (∀ id t, f_tasks s !! id = Some t → announced t (f_events s)).
Proof.
  intros Hu Ha Hes. destruct (fexecs_sim cfg url es [] f_empty s Hes) as (hand & Hreach & _).
  - intros p r j Hp. simpl in Hp. by rewrite lookup_empty in Hp.
  - exact (reach_delivered cfg url retry (as_delivery hand s) Hu Ha Hreach).
Qed.

(** ** A fleet in which a worker dies *)

Import UuidInstance Backends.
#[local] Existing Instance ConfigProps.plain_text.
#[local] Existing Instance Backoff.amd64_conv.
#[local] Existing Instance simple_guard.

#[local] Abbreviation event := (@fevent _ (simple_guard 2)).

(** Up to the handler of the first worker of [p]. *)
Definition picks_up (p : string) (now : Z) : list event :=
  [FStart p true; FStep p ∅ RCheck; FStep p ∅ (RClaim DbOk now ∅); FStep p ∅ RNext;
   FStep p ∅ (RSend 0); FStep p ∅ (RStart 0)].

(** [w1] dies after one attempt; the leader takes its job back, and [w2] delivers it. *)
Definition incident : list event :=
  [FChange TaskService.io_ok (ChCreate (milk 1)) 10] ++ picks_up "w1" 20
  ++ [FKill "w1" [mkCut 0 1 (sink false) flaky];
      FLeader (LReap DbOk 0 (100 * second)); FLeader (LSchedule DbOk (200 * second))]
  ++ picks_up "w2" (300 * second)
  ++ [FDeliver "w2" 0 DbOk 0 (301 * second) (sink false) flaky; FStep "w2" ∅ (RPublish 0);
      FStep "w2" ∅ (RUntrack 0)].

Definition after_incident : fstate :=
  default f_empty (fexecs Queue_SetDefaults hook incident f_empty).

Example incident_log :
  snd <$> f_log after_incident = [Failing; Failing; Accepted; Failing]
  ∧ (state <$> rows (f_jobs after_incident) !! 1) = Some StateSucceeded
  ∧ (attempt <$> rows (f_jobs after_incident) !! 1) = Some 2
  ∧ f_events after_incident = [first_event].
Proof. split_and!; vm_eq. Qed.

Lemma delivered_at_least_once_witness :
  ∃ id r, f_history after_incident !! id = Some r ∧ payload r = event_json first_event
    ∧ match state r with
      | StateSucceeded => heard hook (f_log after_incident) id first_event Accepted
      | StateCancelled => heard hook (f_log after_incident) id first_event Rejected
      | StateDiscarded => Z.min (max_attempts r) (Q_MaxAttempts Queue_SetDefaults) ≤ attempt r
      | _ => rows (f_jobs after_incident) !! id = Some r
      end.
Proof.
  pose proof (simple_guard_laws 2 default_retry eq_refl) as Hlaws.
  apply (@delivered_at_least_once _ _ _ _ (simple_guard 2) _ _ _ Queue_SetDefaults hook default_retry Hlaws
    incident after_incident ltac:(discriminate) ltac:(vm_compute; discriminate)).
  - apply default_Some. vm_eq.
  - assert (He : f_events after_incident = [first_event]) by vm_eq.
    rewrite He. apply list_elem_of_here.
Defined.
