(* ===== verification/Tracing.v ===== *)
(** * Tracing (src/internal/tracing, and the identifiers queue/pool.go reads)

    The provider and what the rest of the program reads of a span: its identifiers.
    Spans themselves, their export and their sampling are OpenTelemetry's. *)
From stdpp Require Import options.
From S2P Require Import Prelude GoStrings Apperr.

Definition ScopeName : string := "github.com/arasHi87/gogolook-task-api".

(** Attributes: a key and a typed value. *)
Inductive attr_value : Type :=
  | AString (s : string) | AInt64 (n : Z) | ABool (b : bool).
Definition attribute : Type := string * attr_value.

(** A value of any type, as [Attr] tells them apart; [ADynamic] carries what
    [fmt.Sprint] makes of the others. *)
Inductive any_value : Type :=
  | IsString (s : string) | IsInt (n : Z) | IsInt64 (n : Z) | IsBool (b : bool)
  | IsOther (printed : string).

Definition Attr (key : string) (v : any_value) : attribute :=
  match v with
  | IsString s => (key, AString s)
  | IsInt n => (key, AInt64 n)
  | IsInt64 n => (key, AInt64 n)
  | IsBool b => (key, ABool b)
  | IsOther s => (key, AString s)
  end.

(** [buildResource]: the service's attributes on top of the default ones; on their own,
    with a warning, when the two do not merge. *)
Definition buildResource (service version instance_ : string)
  (merge : list attribute → result err (list attribute)) : list attribute * bool :=
  let ours := [("service.name", AString service); ("service.version", AString version);
               ("service.instance.id", AString instance_)] in
  match merge ours with Ok merged => (merged, false) | Err _ => (ours, true) end.

(** [Provider]: a disabled one holds a tracer that does nothing and a shutdown that
    succeeds. *)
Record Provider : Type := mkProvider {
  pv_noop : bool;
  pv_resource : list attribute;
  pv_shutdown : option err;
}.

(** [exporter] is what building the exporter answers, [flush] what the SDK's shutdown
    will. *)
Definition New (Enabled : bool) (service version instance_ : string) (exporter : option err)
  (merge : list attribute → result err (list attribute)) (flush : option err)
  : result err Provider :=
  if negb Enabled then Ok (mkProvider true [] None)
  else match exporter with
       | Some e => Err (EWrap "tracing: build exporter: " e "")
       | None => Ok (mkProvider false (buildResource service version instance_ merge).1 flush)
       end.

Definition Shutdown (p : Provider) : option err := pv_shutdown p.

(** ** Identifiers *)

(** A span context, as the context of a call carries it. *)
Record span_context : Type := mkSpan {
  sc_valid : bool; sc_sampled : bool; sc_trace : string; sc_span : string }.

Definition TraceID (sc : span_context) : string := if sc_valid sc then sc_trace sc else "".
Definition SpanID (sc : span_context) : string := if sc_valid sc then sc_span sc else "".

(** queue/pool.go's own, which also asks for the sampling decision. *)
Definition traceIDOf (sc : span_context) : string :=
  if negb (sc_valid sc) || negb (sc_sampled sc) then "" else sc_trace sc.

(** A disabled provider starts whatever the collector does, and shuts down cleanly. *)
Lemma disabled_starts (Enabled : bool) (service version instance_ : string)
  (exporter flush : option err) (merge : list attribute → result err (list attribute)) :
  Enabled = false →
  ∃ p, New Enabled service version instance_ exporter merge flush = Ok p ∧ Shutdown p = None.
Proof. unfold New. intros ->. by eexists. Qed.
