(* ===== verification/Metrics.v ===== *)
(** * Metrics (src/internal/metrics)

    A series is a metric's name with the values of its labels; the registry holds
    counters, gauges and, of a histogram, the samples it was given with the exemplar of
    each.  Buckets and the exposition are the Prometheus client's. *)
From stdpp Require Import options.
From S2P Require Import Prelude GoStrings GoFloat ConfigBase JobStore Tracing.
From S2P Require Http Auth RateLimit Pool PoolRun.
From Stdlib Require Import QArith.
Open Scope Z_scope.

(** ** The registry *)

Definition series : Type := string * list string.

Record registry : Type := mkRegistry {
  counters : gmap series Z;
  gauges : gmap series Z;
  samples : gmap series (list (Z * string));
}.

Definition count_of (k : series) (m : registry) : Z := default 0 (counters m !! k).
Definition gauge_of (k : series) (m : registry) : Z := default 0 (gauges m !! k).
Definition samples_of (k : series) (m : registry) : list (Z * string) :=
  default [] (samples m !! k).

Definition counter_Add (k : series) (n : Z) (m : registry) : registry :=
  mkRegistry (<[k := count_of k m + n]> (counters m)) (gauges m) (samples m).
Definition counter_Inc (k : series) (m : registry) : registry := counter_Add k 1 m.
Definition gauge_Set (k : series) (n : Z) (m : registry) : registry :=
  mkRegistry (counters m) (<[k := n]> (gauges m)) (samples m).
Definition gauge_Add (k : series) (n : Z) (m : registry) : registry :=
  gauge_Set k (gauge_of k m + n) m.

(** ** exemplar.go *)

(** [observe]: the exemplar is the trace, none when it is empty. *)
Definition observe (k : series) (v : Z) (traceID : string) (m : registry) : registry :=
  mkRegistry (counters m) (gauges m) (<[k := samples_of k m ++ [(v, traceID)]]> (samples m)).

Definition observeCtx (k : series) (v : Z) (sc : span_context) (m : registry) : registry :=
  observe k v (TraceID sc) m.

(** ** What is registered *)

Definition http_names : list string :=
  ["http_server_requests_total"; "http_server_request_duration_seconds";
   "http_server_active_requests"; "http_server_request_body_size_bytes";
   "http_server_response_body_size_bytes"].
Definition queue_names : list string :=
  ["jobs_processed_total"; "jobs_enqueued_total"; "jobs_retried_total";
   "job_leases_expired_total"; "dead_letter_jobs_total"; "job_wait_duration_seconds";
   "job_processing_duration_seconds"; "job_claim_batch_size"; "job_workers_configured"].
Definition guard_names : list string :=
  ["ratelimit_decisions_total"; "ratelimit_active_keys"; "http_server_inflight_rejected_total";
   "auth_decisions_total"; "circuit_breaker_state"; "circuit_breaker_transitions_total";
   "circuit_breaker_calls_total"].
Definition dep_names : list string :=
  ["dependency_request_duration_seconds"; "dependency_retries_total"; "config_reloads_total"].
Definition collector_names : list string :=
  ["job_queue_depth"; "job_queue_oldest_pending_age_seconds"; "job_queue_stats_errors_total";
   "db_pool_connections"; "db_pool_acquires_total"; "db_pool_acquire_duration_seconds_total"].

(** [MustRegister] panics on a name registered twice; no two of the process's collide. *)
Example registered_once :
  NoDup (http_names ++ queue_names ++ guard_names ++ dep_names ++ ["build_info"]
         ++ collector_names).
Proof. vm_decide. Qed.

Definition empty_registry : registry := mkRegistry ∅ ∅ ∅.

(** [New]: the constant gauge of the build and nothing counted; exposure is the flag. *)
Record build_info : Type := mkBuild {
  bi_Version : string; bi_Commit : string; bi_GoVersion : string; bi_Date : string }.
Definition buildInfo (b : build_info) (m : registry) : registry :=
  gauge_Set ("build_info", [bi_Version b; bi_Commit b; bi_GoVersion b; bi_Date b]) 1 m.
Record Registry : Type := mkReg { reg : registry; enabled : bool }.
Definition New (Enabled : bool) (b : build_info) : Registry :=
  mkReg (buildInfo b empty_registry) Enabled.

(** ** http.go *)

Section http.
Import Http.
Context {S : Type}.

(** [get] and [set] reach the registry in the state; [elapsed] is the time the handler
    took, [sc] the span of the request.  The recorder forwards every call, so it is read
    off the writer, to which nothing was written before.  A panic passes through the
    deferred decrement only. *)
Definition HTTP_Middleware (get : S → registry) (set : registry → S → S) (elapsed : Z)
  (sc : span_context) : Middleware S := λ next r ws,
  let route := Route (Path r) in
  let method := Method r in
  let active := ("http_server_active_requests", [method; route]) in
  let on f (ws : Writer * S) := (ws.1, set (f (get ws.2)) ws.2) in
  let '(fl, ws) := next r (on (gauge_Add active 1) ws) in
  let ws :=
    match fl with
    | Returned =>
        let status := itoa (resp_Status (sent ws.1)) in
        let client := ClientID (Auth.From r) in
        let ws := on (counter_Inc
                        ("http_server_requests_total", [method; route; status; client])) ws in
        let ws := on (observeCtx ("http_server_request_duration_seconds",
                                  [method; route; status]) elapsed sc) ws in
        let ws := on (observe ("http_server_response_body_size_bytes", [method; route])
                        (len (w_body ws.1)) "") ws in
        if 0 <? ContentLength r
        then on (observe ("http_server_request_body_size_bytes", [method; route])
                   (ContentLength r) "") ws
        else ws
    | _ => ws
    end in
  (fl, on (gauge_Add active (-1)) ws).
End http.

(** ** queue.go *)

(** An event of a finished job, with what only the metrics read. *)
Record finished : Type := mkFinished {
  fe_Event : Pool.Event; fe_Waited : Z; fe_Took : Z; fe_TraceID : string }.

Definition fe_kind (e : finished) : string := Pool.ev_Kind (fe_Event e).
Definition fe_outcome (e : finished) : Pool.Outcome := Pool.ev_Outcome (fe_Event e).

Definition Configured (n : Z) : registry → registry := gauge_Set ("job_workers_configured", []) n.

Definition Finished (e : finished) (m : registry) : registry :=
  let result := PoolRun.outcome_string (fe_outcome e) in
  let m := counter_Inc ("jobs_processed_total", [fe_kind e; result]) m in
  let m := observe ("job_processing_duration_seconds", [fe_kind e; result]) (fe_Took e)
             (fe_TraceID e) m in
  let m := if 0 <? fe_Waited e
           then observe ("job_wait_duration_seconds", [fe_kind e]) (fe_Waited e) "" m else m in
  match fe_outcome e with
  | Pool.OutcomeRetried => counter_Inc ("jobs_retried_total", [fe_kind e]) m
  | Pool.OutcomeDiscarded => counter_Inc ("dead_letter_jobs_total", [fe_kind e]) m
  | _ => m
  end.

Definition Enqueued (kind outcome : string) : registry → registry :=
  counter_Inc ("jobs_enqueued_total", [kind; outcome]).
Definition Claimed (n : Z) : registry → registry := observe ("job_claim_batch_size", []) n "".

Definition LeasesExpired (retryable discarded : Z) (m : registry) : registry :=
  let m := if 0 <? retryable
           then counter_Add ("job_leases_expired_total", ["retryable"]) retryable m else m in
  if 0 <? discarded
  then counter_Add ("job_leases_expired_total", ["discarded"]) discarded m else m.

(** app/observability.go: the subscriber records each event it receives. *)
Definition recordJobOutcomes (events : list finished) (m : registry) : registry :=
  foldl (λ m e, Finished e m) m events.

(** ** guards.go and deps.go *)

Definition BreakerClosed : Z := 0.
Definition BreakerHalfOpen : Z := 1.
Definition BreakerOpen : Z := 2.

Definition RateLimited (tier : string) (allowed : bool) : registry → registry :=
  counter_Inc ("ratelimit_decisions_total", [tier; if allowed then "allowed" else "throttled"]).
Definition ActiveKeys (n : Z) : registry → registry :=
  gauge_Set ("ratelimit_active_keys", ["client"]) n.
Definition Shed : registry → registry := counter_Inc ("http_server_inflight_rejected_total", []).
Definition Authenticated (result : string) : registry → registry :=
  counter_Inc ("auth_decisions_total", [result]).
Definition BreakerState (name from to : string) (state : Z) (m : registry) : registry :=
  counter_Inc ("circuit_breaker_transitions_total", [name; from; to])
    (gauge_Set ("circuit_breaker_state", [name]) state m).
Definition BreakerCall (name result : string) : registry → registry :=
  counter_Inc ("circuit_breaker_calls_total", [name; result]).

Definition dep_Request (sc : span_context) (target result : string) (took : Z)
  : registry → registry :=
  observeCtx ("dependency_request_duration_seconds", [target; result]) took sc.
Definition dep_Retry (target : string) : registry → registry :=
  counter_Inc ("dependency_retries_total", [target]).
Definition ConfigReloaded (result : string) : registry → registry :=
  counter_Inc ("config_reloads_total", [result]).

(** ** collectors.go *)

(** One metric sent to a scrape. *)
Record metric : Type := mkMetric { mt_series : series; mt_value : Q }.

(** [max(s.OldestAge.Seconds(), 0)]. *)
Definition age_of (s : Stat) : Q :=
  if st_OldestAge s <=? 0 then 0%Q else RateLimit.Seconds (st_OldestAge s).

Definition depth_metric (s : Stat) : metric :=
  mkMetric ("job_queue_depth", [st_Kind s; state_String (st_State s)]) (inject_Z (st_Count s)).

Definition fold_oldest (oldest : gmap string Q) (s : Stat) : gmap string Q :=
  let age := age_of s in
  if Qle_bool age (default 0%Q (oldest !! st_Kind s)) then oldest
  else <[st_Kind s := age]> oldest.

Definition oldest_metric (ka : string * Q) : metric :=
  mkMetric ("job_queue_oldest_pending_age_seconds", [ka.1]) ka.2.

(** [QueueCollector.Collect]: what is sent, and the failures counted so far. *)
Definition QueueCollector_Collect (stats : result Apperr.err (list Stat)) (failures : Z)
  : list metric * Z :=
  let failed n := mkMetric ("job_queue_stats_errors_total", []) (inject_Z n) in
  match stats with
  | Err _ => ([failed (failures + 1)], failures + 1)
  | Ok rows =>
      ((depth_metric <$> rows)
       ++ (oldest_metric <$> map_to_list (foldl fold_oldest ∅ rows)) ++ [failed failures],
       failures)
  end.

(** [pgxpool.Stat]. *)
Record pool_stat : Type := mkPoolStat {
  ps_Acquired : Z; ps_Idle : Z; ps_Constructing : Z; ps_Total : Z; ps_Max : Z;
  ps_AcquireCount : Z; ps_EmptyAcquireCount : Z; ps_CanceledAcquireCount : Z;
  ps_AcquireDuration : Z }.

Definition PoolCollector_Collect (name : string) (s : pool_stat) : list metric :=
  let gauge state v := mkMetric ("db_pool_connections", [name; state]) (inject_Z v) in
  let counter result v := mkMetric ("db_pool_acquires_total", [name; result]) (inject_Z v) in
  [gauge "acquired" (ps_Acquired s); gauge "idle" (ps_Idle s);
   gauge "constructing" (ps_Constructing s); gauge "total" (ps_Total s); gauge "max" (ps_Max s);
   counter "ok" (ps_AcquireCount s); counter "empty" (ps_EmptyAcquireCount s);
   counter "canceled" (ps_CanceledAcquireCount s);
   mkMetric ("db_pool_acquire_duration_seconds_total", [name])
     (RateLimit.Seconds (ps_AcquireDuration s))].
