(* ===== verification/MetricsProps.v ===== *)
(** * What the metrics say

    A request is counted once under a bounded route; the job counters are the events; a
    scrape of the backlog sends no series twice.  Examples show a label that is always
    the same and one that is not bounded. *)
From stdpp Require Import options.
From S2P Require Import Prelude GoStrings GoFloat ConfigBase JobStore Tracing Metrics.
From S2P Require Http Auth RateLimit Pool PoolRun.
From Stdlib Require Import QArith.
Open Scope Z_scope.

(** ** Facts on the registry *)

Definition is_http (k : series) : Prop := k.1 ∈ http_names.

(** Two registries agree on the series a predicate picks. *)
Definition agree (P : series → Prop) (m m' : registry) : Prop :=
  ∀ k, P k → count_of k m' = count_of k m ∧ gauge_of k m' = gauge_of k m
             ∧ samples_of k m' = samples_of k m.

Lemma count_Add (k k' : series) (n : Z) (m : registry) :
  count_of k' (counter_Add k n m) = count_of k' m + (if decide (k' = k) then n else 0).
Proof.
  unfold count_of, counter_Add. simpl. destruct (decide (k' = k)) as [->|Hne].
  - by rewrite lookup_insert_eq.
  - rewrite lookup_insert_ne by done. unfold count_of. lia.
Qed.

Lemma count_Inc (k k' : series) (m : registry) :
  count_of k' (counter_Inc k m) = count_of k' m + (if decide (k' = k) then 1 else 0).
Proof. apply count_Add. Qed.

Lemma count_observe (k k' : series) (v : Z) (t : string) (m : registry) :
  count_of k' (observe k v t m) = count_of k' m.
Proof. done. Qed.

Lemma count_gauge (k k' : series) (n : Z) (m : registry) :
  count_of k' (gauge_Set k n m) = count_of k' m.
Proof. done. Qed.

Lemma gauge_Inc (k k' : series) (m : registry) : gauge_of k' (counter_Inc k m) = gauge_of k' m.
Proof. done. Qed.

Lemma gauge_observe (k k' : series) (v : Z) (t : string) (m : registry) :
  gauge_of k' (observe k v t m) = gauge_of k' m.
Proof. done. Qed.

Lemma gauge_Add_of (k k' : series) (n : Z) (m : registry) :
  gauge_of k' (gauge_Add k n m) = gauge_of k' m + (if decide (k' = k) then n else 0).
Proof.
  unfold gauge_of, gauge_Add, gauge_Set. simpl. destruct (decide (k' = k)) as [->|Hne].
  - by rewrite lookup_insert_eq.
  - rewrite lookup_insert_ne by done. unfold gauge_of. lia.
Qed.

Lemma samples_observe (k k' : series) (v : Z) (t : string) (m : registry) :
  samples_of k' (observe k v t m)
  = samples_of k' m ++ (if decide (k' = k) then [(v, t)] else []).
Proof.
  unfold samples_of, observe. simpl. destruct (decide (k' = k)) as [->|Hne].
  - by rewrite lookup_insert_eq.
  - rewrite lookup_insert_ne by done. by rewrite app_nil_r.
Qed.

Lemma samples_Inc (k k' : series) (m : registry) :
  samples_of k' (counter_Inc k m) = samples_of k' m.
Proof. done. Qed.

(** What an operation leaves of a series, in terms of what it was. *)
Ltac metric_simp :=
  repeat first
    [ rewrite count_gauge | rewrite count_observe | rewrite count_Inc | rewrite count_Add
    | rewrite gauge_Inc | rewrite gauge_observe | rewrite gauge_Add_of | rewrite samples_Inc
    | rewrite samples_observe ].

(** ** The routes *)

Definition routes : list string :=
  Http.fixedRoutes ++ ["/api/v1/tasks/{id}"; "/tasks/{id}"; Http.RouteConnect; "/debug/*";
                       Http.RouteOther].

Lemma route_bounded (p : string) : Http.Route p ∈ routes.
Proof.
  unfold Http.Route, routes. case_decide as Hp; [apply elem_of_app; by left|].
  apply elem_of_app. right. repeat case_match; vm_decide.
Qed.

(** ** Requests *)

Section http_facts.
Import Http.
Context {S : Type} (get : S → registry) (set : registry → S → S)
  (get_set : ∀ m s, get (set m s) = m).

(** A handler that touches none of the series of the middleware. *)
Definition quiet (next : Handler S) : Prop :=
  ∀ r ws, agree is_http (get ws.2) (get (next r ws).2.2).

Definition request_series (r : Request) (status : Z) : series :=
  ("http_server_requests_total",
   [Method r; Route (Path r); itoa status; ClientID (Auth.From r)]).

Definition active_series (r : Request) : series :=
  ("http_server_active_requests", [Method r; Route (Path r)]).

Lemma name_ne (n n' : string) (l l' : list string) : n ≠ n' → (n, l) ≠ (n', l').
Proof. congruence. Qed.

(** The counters of the middleware: one more for a request that returns. *)
Lemma requests_counted (elapsed : Z) (sc : span_context) (next : Handler S) (r : Request)
  (ws ws' : Writer * S) (fl : flow) (k' : series) :
  quiet next → HTTP_Middleware get set elapsed sc next r ws = (fl, ws') → is_http k' →
  count_of k' (get ws'.2)
  = count_of k' (get ws.2)
    + (if decide (k' = request_series r (resp_Status (sent ws'.1)))
       then match fl with Returned => 1 | _ => 0 end else 0).
Proof using get_set.
  intros Hq Hm Hk. unfold HTTP_Middleware in Hm. cbv zeta in Hm. fold (active_series r) in Hm.
  set (ws1 := (ws.1, set (gauge_Add (active_series r) 1 (get ws.2)) ws.2)) in Hm.
  pose proof (Hq r ws1 k' Hk) as (Hag & _). destruct (next r ws1) as [f [w s]] eqn:Hn. simpl in Hag.
  rewrite get_set in Hag.
  change (count_of k' (gauge_Add (active_series r) 1 (get ws.2))) with (count_of k' (get ws.2)) in Hag.
  destruct f; simpl in Hm; [destruct (0 <? ContentLength r); simpl in Hm|..];
    injection Hm as <- <-; simpl; rewrite !get_set; unfold observeCtx, gauge_Add;
    metric_simp; rewrite Hag; unfold request_series; simpl; case_decide; lia.
Qed.

(** C33: what the middleware counts.  A request that returns adds one to a single counter,
    labelled with its method, its templated route, the status sent and the caller of the
    request it was given, and one sample to the duration of its route; the number of
    requests in progress is given back however the handler ends, a panic counts nothing,
    and the route is one of fifteen. *)
Theorem http_counts (elapsed : Z) (sc : span_context) (next : Handler S) (r : Request)
  (ws ws' : Writer * S) (fl : flow) :
  quiet next → HTTP_Middleware get set elapsed sc next r ws = (fl, ws') →
  let m := get ws.2 in let m' := get ws'.2 in
  let k := request_series r (resp_Status (sent ws'.1)) in
  (∀ k', gauge_of k' m' = gauge_of k' m ∨ ¬ is_http k')
  ∧ (∀ k', is_http k' →
       count_of k' m' = count_of k' m + (if decide (k' = k) then match fl with Returned => 1 | _ => 0 end else 0))
  ∧ (fl = Returned →
     samples_of ("http_server_request_duration_seconds",
                 [Method r; Route (Path r); itoa (resp_Status (sent ws'.1))]) m'
     = samples_of ("http_server_request_duration_seconds",
                   [Method r; Route (Path r); itoa (resp_Status (sent ws'.1))]) m
       ++ [(elapsed, TraceID sc)])
  ∧ Route (Path r) ∈ routes.
Proof using get_set.
  intros Hq Hm m m' k. pose proof Hm as Hcount. unfold HTTP_Middleware in Hm. cbv zeta in Hm.
  fold (active_series r) in Hm.
  set (ws1 := (ws.1, set (gauge_Add (active_series r) 1 (get ws.2)) ws.2)) in Hm.
  pose proof (Hq r ws1) as Hag. destruct (next r ws1) as [f [w s]] eqn:Hn. simpl in Hag.
  rewrite get_set in Hag.
  assert (Hg : ∀ k', is_http k' → gauge_of k' (get s)
    = gauge_of k' m + (if decide (k' = active_series r) then 1 else 0)).
  { intros k' Hk. destruct (Hag k' Hk) as (_ & -> & _). apply gauge_Add_of. }
  assert (Hs : ∀ k', is_http k' → samples_of k' (get s) = samples_of k' m)
    by (intros k' Hk; by destruct (Hag k' Hk) as (_ & _ & ->)).
  split_and!; [| | |apply route_bounded].
  - intros k'. destruct (decide (is_http k')) as [Hk|]; [left|by right].
    unfold m'. destruct f; simpl in Hm; [destruct (0 <? ContentLength r); simpl in Hm|..];
      injection Hm as <- <-; simpl; rewrite !get_set; unfold observeCtx;
      metric_simp; rewrite (Hg k' Hk); case_decide; lia.
  - intros k' Hk. by apply (requests_counted elapsed sc next r ws ws').
  - intros ->. unfold m'. destruct f; simpl in Hm; try done;
      [destruct (0 <? ContentLength r); simpl in Hm|..];
      injection Hm as <-; simpl; rewrite !get_set; unfold observeCtx.
    all: match goal with |- samples_of _ (gauge_Add ?a ?n ?x) = _ =>
           change (samples_of ?k' (gauge_Add a n x)) with (samples_of k' x) end.
    all: clear k; rewrite !samples_observe, samples_Inc, Hs by vm_decide;
      repeat (case_decide; try congruence); by rewrite ?app_nil_r.
Qed.

(** A request as the listener hands it over carries no identity, so the caller's label is
    that of an anonymous one whoever sent it. *)
Lemma listener_client (r : Request) :
  ctx_Identity r = None → ClientID (Auth.From r) = Auth.Anonymous.
Proof. unfold Auth.From. by intros ->. Qed.
End http_facts.

(** ** Finished jobs *)

Lemma outcome_string_inj (o o' : Pool.Outcome) :
  PoolRun.outcome_string o = PoolRun.outcome_string o' → o = o'.
Proof. by destruct o, o'. Qed.

#[local] Existing Instance Pool.Outcome_eq_dec.

(** How many events of a list are of a kind and an outcome. *)
Definition events_of (kind : string) (o : Pool.Outcome) (es : list finished) : Z :=
  Z.of_nat (length (filter (λ e, fe_kind e = kind ∧ fe_outcome e = o) es)).

Lemma events_of_cons (kind : string) (o : Pool.Outcome) (e : finished) (es : list finished) :
  events_of kind o (e :: es)
  = (if decide (fe_kind e = kind ∧ fe_outcome e = o) then 1 else 0) + events_of kind o es.
Proof. unfold events_of. rewrite filter_cons. case_decide; simpl length; lia. Qed.

Lemma two_labels (n k k' : string) (o o' : Pool.Outcome) :
  (if decide ((n, [k; PoolRun.outcome_string o]) = (n, [k'; PoolRun.outcome_string o']))
   then 1 else 0) = (if decide (k' = k ∧ o' = o) then 1 else 0).
Proof.
  destruct (decide (k' = k ∧ o' = o)) as [[-> ->]|Hne]; [by rewrite decide_True|].
  rewrite decide_False; [done|]. intros [= -> Ho%outcome_string_inj]. by apply Hne.
Qed.

Lemma one_label (n k k' : string) :
  (if decide ((n, [k]) = (n, [k'])) then 1 else 0) = (if decide (k' = k) then 1 else 0).
Proof.
  destruct (decide (k' = k)) as [->|Hne]; [by rewrite decide_True|].
  rewrite decide_False; [done|congruence].
Qed.

Lemma finished_count (e : finished) (m : registry) (kind : string) (o : Pool.Outcome) :
  count_of ("jobs_processed_total", [kind; PoolRun.outcome_string o]) (Finished e m)
  = count_of ("jobs_processed_total", [kind; PoolRun.outcome_string o]) m
    + (if decide (fe_kind e = kind ∧ fe_outcome e = o) then 1 else 0)
  ∧ count_of ("jobs_retried_total", [kind]) (Finished e m)
    = count_of ("jobs_retried_total", [kind]) m
      + (if decide (fe_kind e = kind ∧ fe_outcome e = Pool.OutcomeRetried) then 1 else 0)
  ∧ count_of ("dead_letter_jobs_total", [kind]) (Finished e m)
    = count_of ("dead_letter_jobs_total", [kind]) m
      + (if decide (fe_kind e = kind ∧ fe_outcome e = Pool.OutcomeDiscarded) then 1 else 0).
Proof.
  unfold Finished. destruct (0 <? fe_Waited e), (fe_outcome e) eqn:Ho; metric_simp;
    rewrite ?one_label, ?two_labels; split_and!;
    repeat (rewrite decide_False by (intros [=])); repeat case_decide; split_all;
    try lia; exfalso; try congruence; naive_solver.
Qed.

(** The job counters are the events.  After the subscriber recorded a list of events,
    [jobs_processed_total] of a kind and an outcome has grown by the number of events of
    that kind and outcome, and the counters of retries and of dead letters by those
    retried and discarded: the three never disagree. *)
Lemma outcomes_counted (events : list finished) (m : registry) (kind : string)
  (o : Pool.Outcome) :
  let m' := recordJobOutcomes events m in
  count_of ("jobs_processed_total", [kind; PoolRun.outcome_string o]) m'
  = count_of ("jobs_processed_total", [kind; PoolRun.outcome_string o]) m
    + events_of kind o events
  ∧ count_of ("jobs_retried_total", [kind]) m'
    = count_of ("jobs_retried_total", [kind]) m + events_of kind Pool.OutcomeRetried events
  ∧ count_of ("dead_letter_jobs_total", [kind]) m'
    = count_of ("dead_letter_jobs_total", [kind]) m + events_of kind Pool.OutcomeDiscarded events.
Proof.
  revert m. induction events as [|e es IH]; intros m m';
    [unfold m', recordJobOutcomes, events_of; simpl; lia|].
  unfold m'. simpl. destruct (IH (Finished e m)) as (H1 & H2 & H3).
  destruct (finished_count e m kind o) as (F1 & F2 & F3). rewrite !events_of_cons.
  unfold recordJobOutcomes in *. lia.
Qed.

(** ** The backlog *)

Lemma state_String_inj (s s' : State) : state_String s = state_String s' → s = s'.
Proof. by destruct s, s'. Qed.

Lemma fold_oldest_lookup (rows : list Stat) (kind : string) (m : gmap string Q) :
  (∀ v, m !! kind = Some v → ¬ (v <= 0)%Q) →
  match foldl fold_oldest m rows !! kind with
  | Some v =>
      ¬ (v <= 0)%Q ∧ (default 0%Q (m !! kind) <= v)%Q
      ∧ (∀ s, s ∈ rows → st_Kind s = kind → (age_of s <= v)%Q)
      ∧ (m !! kind = Some v ∨ ∃ s, s ∈ rows ∧ st_Kind s = kind ∧ age_of s = v)
  | None => m !! kind = None ∧ ∀ s, s ∈ rows → st_Kind s = kind → (age_of s <= 0)%Q
  end.
Proof.
  revert m. induction rows as [|s rows IH]; intros m Hm; simpl.
  - destruct (m !! kind) as [v|] eqn:Hv; [|by split; [|intros s ?%elem_of_nil]].
    split_and!; [by apply Hm|by apply Qle_refl|by intros s ?%elem_of_nil|by left].
  - unfold fold_oldest at 2.
    destruct (Qle_bool (age_of s) (default 0%Q (m !! st_Kind s))) eqn:Hle.
    + apply Qle_bool_iff in Hle. specialize (IH m Hm).
      destruct (foldl fold_oldest m rows !! kind) as [v|].
      * destruct IH as (H1 & H2 & H3 & H4). split_and!; [done|done| |].
        -- intros x [->|Hx]%elem_of_cons Hk; [|by apply H3]. subst. by eapply Qle_trans.
        -- destruct H4 as [H4|(x & Hx & ? & ?)]; [by left|]. right. exists x.
           split; [by right|done].
      * destruct IH as [H1 H2]. split; [done|].
        intros x [->|Hx]%elem_of_cons Hk; [|by apply H2]. subst. by rewrite H1 in Hle.
    + assert (Hgt : ¬ (age_of s <= default 0%Q (m !! st_Kind s))%Q)
        by (intros Hq; apply Qle_bool_iff in Hq; congruence).
      destruct (decide (st_Kind s = kind)) as [Hk|Hk].
      * assert (Hpos : ¬ (age_of s <= 0)%Q).
        { intros Hq. apply Hgt. destruct (m !! st_Kind s) as [v|] eqn:Hv; simpl; [|done].
          eapply Qle_trans; [exact Hq|]. apply Qlt_le_weak, Qnot_le_lt, Hm. by rewrite <- Hk. }
        specialize (IH (<[st_Kind s := age_of s]> m)). rewrite Hk, lookup_insert_eq in IH.
        rewrite Hk. specialize (IH ltac:(by intros v [= <-])).
        destruct (foldl fold_oldest _ rows !! kind) as [v|]; [|by destruct IH].
        destruct IH as (H1 & H2 & H3 & H4). simpl in H2. split_and!; [done| | |].
        -- eapply Qle_trans; [|exact H2]. apply Qlt_le_weak, Qnot_le_lt. by rewrite <- Hk.
        -- intros x [->|Hx]%elem_of_cons Hx'; [done|by apply H3].
        -- right. destruct H4 as [[= <-]|(x & Hx & ? & ?)]; [exists s; split; [by left|done]|].
           exists x. split; [by right|done].
      * specialize (IH (<[st_Kind s := age_of s]> m)). rewrite lookup_insert_ne in IH by done.
        specialize (IH Hm). destruct (foldl fold_oldest _ rows !! kind) as [v|].
        -- destruct IH as (H1 & H2 & H3 & H4). split_and!; [done|done| |].
           { intros x [->|Hx]%elem_of_cons Hx'; [done|by apply H3]. }
           destruct H4 as [H4|(x & Hx & ? & ?)]; [by left|]. right. exists x.
           split; [by right|done].
        -- destruct IH as [H1 H2]. split; [done|].
           intros x [->|Hx]%elem_of_cons Hx'; [done|by apply H2].
Qed.

Lemma depth_NoDup (now : Z) (t : table) :
  NoDup (mt_series <$> (depth_metric <$> (statsSQL now t).1)).
Proof.
  unfold statsSQL. cbv zeta. cbn [fst]. rewrite <- !list_fmap_compose.
  apply NoDup_fmap_2_strong; [|apply NoDup_remove_dups].
  intros [k s] [k' s'] _ _. unfold compose. simpl. intros [= -> Hs%state_String_inj]. by subst.
Qed.

Definition oldest_of (rows : list Stat) : gmap string Q := foldl fold_oldest ∅ rows.

Lemma sent_NoDup (rows : list Stat) (n : Z) :
  NoDup (mt_series <$> (depth_metric <$> rows)) →
  NoDup (mt_series <$> (QueueCollector_Collect (Ok rows) n).1).
Proof.
  intros Hd. simpl. fold (oldest_of rows). rewrite !fmap_app. apply NoDup_app. split_and!; [done| |].
  - intros x Hx Hx'. apply list_elem_of_fmap in Hx as (d & -> & (s & -> & _)%list_elem_of_fmap).
    apply elem_of_app in Hx' as [Hx'|Hx'].
    + by apply list_elem_of_fmap in Hx' as (? & ? & ([k v] & -> & _)%list_elem_of_fmap).
    + by apply list_elem_of_singleton in Hx'.
  - apply NoDup_app. split_and!; [| |apply NoDup_singleton].
    + rewrite <- list_fmap_compose. apply (NoDup_fmap_1 (λ k : series, nth 0 k.2 "")).
      rewrite <- list_fmap_compose. apply NoDup_fst_map_to_list.
    + intros x Hx Hx'. apply list_elem_of_singleton in Hx'. subst.
      by apply list_elem_of_fmap in Hx as (? & ? & ([k v] & -> & _)%list_elem_of_fmap).
Qed.

Lemma oldest_sent (rows : list Stat) (n : Z) (kind : string) (v : Q) :
  mkMetric ("job_queue_oldest_pending_age_seconds", [kind]) v
    ∈ (QueueCollector_Collect (Ok rows) n).1
  ↔ oldest_of rows !! kind = Some v.
Proof.
  simpl. fold (oldest_of rows). rewrite !elem_of_app, list_elem_of_singleton. split.
  - intros [Hx|[Hx|Hx]]; [by apply list_elem_of_fmap in Hx as (? & ? & _)| |done].
    apply list_elem_of_fmap in Hx as ([k q] & [= -> ->] & Hx). by apply elem_of_map_to_list in Hx.
  - intros Hv. right. left. apply list_elem_of_fmap. exists (kind, v).
    by rewrite elem_of_map_to_list.
Qed.

(** C34: what a scrape of the backlog says.  No series is sent twice - which the client
    would refuse - and nothing but the failure counter when the query fails.  A kind's
    oldest age is the largest age of its groups and positive; a kind that has none waiting
    past its time is not reported. *)
Theorem backlog_exact (io : db) (now failures : Z) (t : table) :
  let '(ms, failures') := QueueCollector_Collect (Stats io now t).1 failures in
  NoDup (mt_series <$> ms)
  ∧ (io ≠ DbOk → ms = [mkMetric ("job_queue_stats_errors_total", []) (inject_Z failures')]
       ∧ failures' = failures + 1)
  ∧ (io = DbOk → ∀ kind v,
       mkMetric ("job_queue_oldest_pending_age_seconds", [kind]) v ∈ ms →
       ¬ (v <= 0)%Q
       ∧ (∃ s, s ∈ (statsSQL now t).1 ∧ st_Kind s = kind ∧ age_of s = v)
       ∧ ∀ s, s ∈ (statsSQL now t).1 → st_Kind s = kind → (age_of s <= v)%Q)
  ∧ (io = DbOk → ∀ s, s ∈ (statsSQL now t).1 → ¬ (age_of s <= 0)%Q →
       ("job_queue_oldest_pending_age_seconds", [st_Kind s]) ∈ mt_series <$> ms).
Proof.
  set (rows := (statsSQL now t).1). destruct io as [|e applied].
  - change (Stats DbOk now t).1 with (Ok (E := Apperr.err) rows).
    destruct (QueueCollector_Collect (Ok rows) failures) as [ms f'] eqn:Hms.
    assert (Hm : ms = (QueueCollector_Collect (Ok rows) failures).1) by by rewrite Hms.
    clear Hms. rewrite Hm. split_and!; [by apply sent_NoDup, depth_NoDup|done| |].
    + intros _ kind v Hv%oldest_sent. pose proof (fold_oldest_lookup rows kind ∅) as Hf.
      specialize (Hf ltac:(by intros ? ?)). unfold oldest_of in Hv. rewrite Hv in Hf.
      destruct Hf as (H1 & _ & H3 & H4). split_and!; [done| |done]. by destruct H4 as [H4|H4].
    + intros _ s Hs Hpos. pose proof (fold_oldest_lookup rows (st_Kind s) ∅) as Hf.
      specialize (Hf ltac:(by intros ? ?)).
      destruct (foldl fold_oldest ∅ rows !! st_Kind s) as [v|] eqn:Hv;
        [|by destruct Hf as [_ Hf]; destruct Hpos; apply Hf].
      apply list_elem_of_fmap. eexists. split; [|by apply oldest_sent]. done.
  - simpl. split_and!; [apply NoDup_singleton|done|done|done].
Qed.

(** ** At concrete requests *)

Section examples.
Import Http.

Definition counting (next : Handler registry) : Handler registry :=
  HTTP_Middleware id (λ m _, m) 5000 (mkSpan true false "4bf92f35" "00f067aa") next.
Definition ok_handler : Handler registry := λ _, respond (WriteHeader 200).

Definition counted (next : Handler registry) (r : Request) : registry :=
  (counting next r (new_writer, empty_registry)).2.2.

Lemma http_counts_witness :
  let r := Auth.request ∅ in
  count_of ("http_server_requests_total", ["GET"; "/tasks"; "200"; "anonymous"])
    (counted ok_handler r) = 1
  ∧ gauge_of ("http_server_active_requests", ["GET"; "/tasks"]) (counted ok_handler r) = 0.
Proof.
  intros r.
  destruct (http_counts id (λ m _, m) (λ m s, eq_refl) 5000
              (mkSpan true false "4bf92f35" "00f067aa") ok_handler r
              (new_writer, empty_registry) (counting ok_handler r (new_writer, empty_registry)).2
              Returned) as (H1 & H2 & _).
  - intros r' ws k _. done.
  - reflexivity.
  - split.
    + unfold counted. rewrite H2; [vm_eq|vm_decide].
    + destruct (H1 ("http_server_active_requests", ["GET"; "/tasks"])) as [H|H];
        [exact H|exfalso; apply H; vm_decide].
Defined.

(** The caller's label is read from the request the middleware was given, and the
    identity is put into a copy further in: an authenticated caller is counted as
    anonymous. *)
Example client_never_named :
  let r := Auth.request (header_Set "Authorization" "Bearer demo-standard-token" ∅) in
  let m := counted (Auth.auth_Middleware Auth.demo ok_handler) r in
  (Auth.Resolve Auth.demo r).1 = mkIdentity "demo" "standard" "demo"
  ∧ count_of ("http_server_requests_total", ["GET"; "/tasks"; "200"; "demo"]) m = 0
  ∧ count_of ("http_server_requests_total", ["GET"; "/tasks"; "200"; "anonymous"]) m = 1.
Proof. split; [vm_eq|]. split; vm_eq. Qed.

(** The method is the client's token as it came, so every new one mints its series. *)
Example method_mints_series :
  let get m := mkRequest m "/tasks" ∅ None 0 "10.0.0.9:5000" None None in
  size (counters (foldl (λ m r, (counting ok_handler r (new_writer, m)).2.2) empty_registry
                    (get <$> ["GET"; "AAAA"; "AAAB"; "AAAC"]))) = 4%nat.
Proof. intros get. vm_eq. Qed.

(** A request's exemplar names its trace though the trace was not sampled; a job's does
    not. *)
Example unsampled_exemplar :
  let sc := mkSpan true false "4bf92f35" "00f067aa" in
  samples_of ("http_server_request_duration_seconds", ["GET"; "/tasks"; "200"])
    (counted ok_handler (Auth.request ∅)) = [(5000, "4bf92f35")]
  ∧ traceIDOf sc = "".
Proof. split; vm_eq. Qed.
End examples.
