(* ===== verification/Resilience.v ===== *)
(** * Building the policy chain (src/internal/resilience/resilience.go)

    What [New] asks of failsafe-go - the policies, their settings and their order - and
    what it says when the circuit changes.  The policies themselves are the library's;
    what a call through them gives is [Webhook.Guard]. *)
From stdpp Require Import options.
From S2P Require Import Prelude GoStrings Apperr ConfigBase ConfigSections.
From S2P Require Import Webhook Metrics MetricsProps.
From S2P Require Import ConfigFacts.
From Stdlib Require Import QArith.
Open Scope Z_scope.

(** [Observer] is set or not: the registry, when it is. *)
Record Options : Type := mkOptions {
  Name : string;
  Breaker : BreakerSettings;
  Timeout : Z;
  Retry : WebhookRetry;
  IsFailure : option (option err → bool);
  Observed : bool;
}.

(** ** Policies *)

Record breaker_policy : Type := mkBreaker {
  FailureRateThreshold : f64 * Z * Z;          (* rate, executions, period *)
  Delay : Z;
  SuccessThresholdRatio : Z * Z;               (* successes, of so many trials *)
  BreakerHandleIf : option err → bool;
}.

Record retry_policy : Type := mkRetry {
  MaxAttempts : Z;
  Backoff : Z * Z;
  JitterFactor : Q;
  AbortOnErrors : list sentinel;
  Budget : f64 * Z;                            (* the rate, and the floor of concurrent retries *)
  RetryHandleIf : option err → bool;
}.

Inductive policy : Type :=
  | RetryPolicy (r : retry_policy)
  | CircuitBreaker (b : breaker_policy)
  | TimeoutPolicy (d : Z).

Definition newBreaker (o : Options) (isFailure : option err → bool) : breaker_policy :=
  let b := Breaker o in
  mkBreaker (BS_FailureRateThreshold b, BS_MinThroughput b, BS_Window b) (BS_OpenDuration b)
    (BS_HalfOpenSuccessThreshold b, BS_HalfOpenMaxCalls b) isFailure.

Definition newRetry (o : Options) (isFailure : option err → bool) : retry_policy :=
  let r := Retry o in
  mkRetry (WR_MaxAttempts r) (WR_Base r, WR_Max r) (1 # 2) [BreakerErrOpen]
    (WR_BudgetMaxRate r, 3) isFailure.

(** ** Changes of state *)

(** The library's names of the states. *)
Class StateNames : Type := { state_String : breaker_state → string }.

(** What a change writes: a log line - level, message, from, to - and the metrics. *)
Definition line : Type := Z * string * string * string.

Definition OnStateChanged `{StateNames} (o : Options) (old new_ : breaker_state) (m : registry)
  : line * registry :=
  let '(level, msg) := transitionLine new_ in
  ((level, msg, state_String old, state_String new_),
   if Observed o
   then BreakerState (Name o) (state_String old) (state_String new_) (stateValue new_) m
   else m).

(** ** The chain *)

Record Executor : Type := mkExecutor { ex_name : string; policies : list policy }.

Definition default_failure (e : option err) : bool := bool_decide (is_Some e).

(** [New]: the closed state is published, and the policies go outermost first. *)
Definition New (o : Options) (m : registry) : Executor * registry :=
  let isFailure := default default_failure (IsFailure o) in
  let breaker := newBreaker o isFailure in
  let retry := newRetry o isFailure in
  let m := if Observed o then BreakerState (Name o) "closed" "closed" (stateValue ClosedState) m
           else m in
  (mkExecutor (Name o) [RetryPolicy retry; CircuitBreaker breaker; TimeoutPolicy (Timeout o)], m).

(** How the application asks for it (app/queue.go): one chain for the target, counting what
    [Webhook.IsDependencyFailure] does. *)
Definition webhook_options (cfg : Config) : Options :=
  mkOptions target (Br_Webhook (C_Breaker cfg)) (W_Timeout (C_Webhook cfg)) (W_Retry (C_Webhook cfg))
    (Some IsDependencyFailure) true.

(** ** The circuit over time *)

(** The changes the breaker goes through, each from where the last one ended. *)
Fixpoint changes `{StateNames} (o : Options) (at_ : breaker_state) (path : list breaker_state)
  (m : registry) : list line * registry :=
  match path with
  | [] => ([], m)
  | s :: path =>
      let '(l, m) := OnStateChanged o at_ s m in
      let '(ls, m) := changes o s path m in
      (l :: ls, m)
  end.

Definition lifetime `{StateNames} (o : Options) (path : list breaker_state) (m : registry)
  : list line * registry := changes o ClosedState path (New o m).2.

Section facts.
Context `{StateNames}.

Lemma gauge_BreakerState (name from to : string) (state : Z) (m : registry) :
  gauge_of ("circuit_breaker_state", [name]) (BreakerState name from to state m) = state.
Proof. unfold gauge_of, BreakerState. simpl. by rewrite lookup_insert_eq. Qed.

Lemma changes_gauge (o : Options) (path : list breaker_state) (s : breaker_state) (m : registry) :
  Observed o = true →
  gauge_of ("circuit_breaker_state", [Name o]) m = stateValue s →
  gauge_of ("circuit_breaker_state", [Name o]) (changes o s path m).2
  = stateValue (default s (last path)).
Proof.
  intros Ho. revert s m. induction path as [|s' path IH]; intros s m Hm; [done|]. simpl.
  unfold OnStateChanged. rewrite Ho.
  destruct (transitionLine s') as [level msg].
  specialize (IH s' (BreakerState (Name o) (state_String s) (state_String s') (stateValue s') m)).
  rewrite gauge_BreakerState in IH. specialize (IH eq_refl).
  destruct (changes o s' path _) as [ls m']. simpl in *. rewrite IH.
  by destruct path as [|s'' path]; [|rewrite last_cons_cons; destruct (last (s'' :: path)) eqn:Hl;
    [|apply last_None in Hl]].
Qed.

Lemma changes_lines (o : Options) (path : list breaker_state) (s : breaker_state) (m : registry) :
  (changes o s path m).1.*1.*1.*1 = (λ s, (transitionLine s).1) <$> path.
Proof.
  revert s m. induction path as [|s' path IH]; intros s m; [done|]. simpl. unfold OnStateChanged.
  destruct (transitionLine s') as [level msg].
  match goal with |- context [changes o s' path ?m'] => specialize (IH s' m') end.
  destruct (changes o s' path _) as [ls m']. cbn [fst] in *. rewrite !fmap_cons, IH. done.
Qed.

(** The gauge tells the circuit's state from the moment the chain is built, whatever it
    went through, and of the lines written exactly those for an opening are warnings. *)
Lemma breaker_observed (o : Options) (path : list breaker_state) (m : registry) :
  Observed o = true →
  gauge_of ("circuit_breaker_state", [Name o]) (lifetime o path m).2
    = stateValue (default ClosedState (last path))
  ∧ (lifetime o path m).1.*1.*1.*1 = (λ s, match s with OpenState => 4 | _ => 0 end) <$> path.
Proof.
  intros Ho. unfold lifetime. split.
  - apply changes_gauge; [done|]. unfold New. rewrite Ho. apply gauge_BreakerState.
  - rewrite changes_lines. apply list_fmap_ext. by intros _ [] _.
Qed.
End facts.

(** What the builders ask of their settings. *)
Definition usable (p : policy) : Prop :=
  match p with
  | RetryPolicy r =>
      1 ≤ MaxAttempts r ∧ 0 < (Backoff r).1 ≤ (Backoff r).2 ∧ rate_ok (Budget r).1 ∧ 1 ≤ (Budget r).2
      ∧ (0 <= JitterFactor r <= 1)%Q
  | CircuitBreaker b =>
      rate_ok (FailureRateThreshold b).1.1 ∧ 1 ≤ (FailureRateThreshold b).1.2
      ∧ 0 < (FailureRateThreshold b).2 ∧ 0 < Delay b
      ∧ 1 ≤ (SuccessThresholdRatio b).1 ≤ (SuccessThresholdRatio b).2
  | TimeoutPolicy d => 0 < d
  end.

(** The chain a valid configuration gives: the retry around the breaker around the timeout,
    each with usable settings, both counting what the handler calls the dependency's
    failure, an open circuit never retried, and no attempt allowed to outlast the window
    the circuit opens for. *)
Lemma chain_of_valid `{GoText} (cfg : Config) (m : registry) :
  Validate cfg = None →
  ∃ r b d, policies (New (webhook_options cfg) m).1 = [RetryPolicy r; CircuitBreaker b; TimeoutPolicy d]
    ∧ Forall usable (policies (New (webhook_options cfg) m).1)
    ∧ RetryHandleIf r = IsDependencyFailure ∧ BreakerHandleIf b = IsDependencyFailure
    ∧ BreakerErrOpen ∈ AbortOnErrors r ∧ d ≤ Delay b.
Proof.
  intros Hv. apply Validate_spec in Hv. destruct (co_breaker _ Hv), (co_webhook _ Hv).
  pose proof (co_open _ Hv) as Hopen. do 3 eexists. split; [done|]. split_and!; try done; [|by left].
  destruct wo_retry. repeat constructor; simpl; try done; try apply bo_rate; try apply wo_budget;
    try apply bo_half_open; try apply bo_windows; lia.
Qed.

(** Without a rule of its own the chain counts every error. *)
Lemma default_counts (o : Options) (m : registry) (e : option err) :
  IsFailure o = None →
  ∃ r b d, policies (New o m).1 = [RetryPolicy r; CircuitBreaker b; TimeoutPolicy d]
    ∧ RetryHandleIf r e = bool_decide (e ≠ None) ∧ BreakerHandleIf b e = bool_decide (e ≠ None).
Proof.
  intros Ho. unfold New. rewrite Ho. do 3 eexists. split; [done|]. by destruct e.
Qed.

(** A start is counted as a change from closed to closed, though nothing changed. *)
Example start_counts_a_transition (b : BreakerSettings) (r : WebhookRetry) :
  count_of ("circuit_breaker_transitions_total", ["webhook"; "closed"; "closed"])
    (New (mkOptions "webhook" b second r None true) empty_registry).2 = 1.
Proof. vm_eq. Qed.
