(* ===== verification/Reloader.v ===== *)
(** * The reload worker (src/internal/app/reload.go)

    The reload of [ConfigReload] with all it touches - the log lines, the counter, the
    level of the logger, the one-slot channel - and the loop that runs one per signal. *)
From stdpp Require Import options.
From S2P Require Import Prelude GoStrings Apperr ConfigBase ConfigSections ConfigReload Metrics MetricsProps.
From S2P Require Import Logging.
From S2P Require ConfigLoad ConfigProps.
From S2P Require Import ConfigFacts.
Open Scope Z_scope.

(** What a reload reads and writes of the application.  [a_said] are the records handed to
    the logger, the latest last; what the logger makes of them is [Logging.Log]. *)
Record state : Type := mkApp {
  a_cfg : Config;
  a_log : Handle;
  a_metrics : registry;
  a_reloaded : bool;
  a_said : list Logging.Record;
}.

Definition set_cfg (c : Config) (a : state) : state :=
  mkApp c (a_log a) (a_metrics a) (a_reloaded a) (a_said a).
Definition set_log (h : Handle) (a : state) : state :=
  mkApp (a_cfg a) h (a_metrics a) (a_reloaded a) (a_said a).
Definition count (result : string) (a : state) : state :=
  mkApp (a_cfg a) (a_log a) (ConfigReloaded result (a_metrics a)) (a_reloaded a) (a_said a).
Definition say (level : Z) (msg : string) (attrs : list attr) (a : state) : state :=
  mkApp (a_cfg a) (a_log a) (a_metrics a) (a_reloaded a) (a_said a ++ [mkRecord level msg attrs]).

(** A non-blocking send. *)
Definition signalReloaded (a : state) : state :=
  mkApp (a_cfg a) (a_log a) (a_metrics a) true (a_said a).

Definition reject (reason : string) (e : err) (a : state) : state :=
  say LevelError "config reload rejected" [("reason", VString reason); ("err", VError (err_text e))]
    (count reason a).

Definition change_attrs (c : Change) : list attr :=
  [("field", VString (Ch_Field c)); ("from", VString (Ch_From c)); ("to", VString (Ch_To c))].

(** One line per element of a list, in order. *)
Definition say_each {A} (level : Z) (msg : string) (attrs : A → list attr) (l : list A) (a : state) : state :=
  foldl (λ a x, say level msg (attrs x) a) a l.

Section reload.
Context `{GoText, Unmarshal, Rendering}.

(** [loaded] is what [Load] answers. *)
Definition readConfig (loaded : result err ConfigLoad.Result) (a : state) : result err Config * state :=
  match loaded with
  | Err e => (Err e, reject "read error" e a)
  | Ok res =>
      match Validate (ConfigLoad.r_Config res) with
      | Some e => (Err e, reject "invalid" e a)
      | None =>
          (Ok (ConfigLoad.r_Config res),
           say_each LevelWarn "config reload warning" (λ w, [("detail", VString w)])
             (ConfigLoad.r_Warnings res) a)
      end
  end.

(** [fault] is the error of flattening either configuration, if there is one. *)
Definition planReload (fault : option err) (next : Config) (a : state)
  : result err (list Change * list Change) * state :=
  match fault with
  | Some e => (Err e, reject "diff failed" e a)
  | None =>
      let '(hot, restartOnly) := Diff (a_cfg a) next in
      (Ok (hot, restartOnly),
       say_each LevelWarn "load-time field change ignored" change_attrs restartOnly a)
  end.

Definition applyHot (next : Config) (hot : list Change) (a : state) : option err * state :=
  match ApplyHot (a_cfg a) next with
  | Err e => (Some e, reject "merge failed" e a)
  | Ok merged =>
      match Validate merged with
      | Some e => (Some e, reject "invalid after merge" e a)
      | None =>
          let a := say_each LevelInfo "tunable changed" change_attrs hot (set_cfg merged a) in
          let '(h, e) := SetLevel (Log_Level (C_Logging merged)) (a_log a) in
          let a := set_log h a in
          (None,
           match e with
           | Some e => say LevelWarn "could not apply new log level" [("err", VError (err_text e))] a
           | None => a
           end)
      end
  end.

Definition reload (loaded : result err ConfigLoad.Result) (fault : option err) (a : state)
  : ReloadResult * state :=
  let failed e a := (mkReloadResult [] [] (Some e), a) in
  match readConfig loaded a with
  | (Err e, a) => failed e a
  | (Ok next, a) =>
      match planReload fault next a with
      | (Err e, a) => failed e a
      | (Ok (hot, restartOnly), a) =>
          let '(e, a) := if decide (hot = []) then (None, a) else applyHot next hot a in
          match e with
          | Some e => failed e a
          | None =>
              let a := count "applied" a in
              let a := say LevelInfo "SIGHUP reload applied" [("changed", VOther (itoa (Z.of_nat (length hot))))] a in
              (mkReloadResult hot restartOnly None, signalReloaded a)
          end
      end
  end.
End reload.

(** ** The loop *)

(** [disk] is what [Load] would answer now; [h_pending] the one signal the channel holds;
    [h_busy] whether a signal has been taken whose reload has not run yet. *)
Record reloader : Type := mkReloader {
  h_app : state; disk : result err ConfigLoad.Result; h_pending : bool; h_busy : bool; h_stopped : bool }.

(** [Edit] is the operator's, [Hup] the signal's, which is dropped when one is pending;
    [Take] receives it, [Reload] runs to its end, [Done] is the cancelled context. *)
Inductive event : Type :=
  | Edit (l : result err ConfigLoad.Result)
  | Hup
  | Take
  | Reload
  | Done.

Section loop.
Context `{GoText, Unmarshal, Rendering}.

(** A step that cannot happen leaves the state as it is. *)
Definition runReloader (s : reloader) (e : event) : reloader :=
  match e with
  | Edit l => mkReloader (h_app s) l (h_pending s) (h_busy s) (h_stopped s)
  | Hup => mkReloader (h_app s) (disk s) true (h_busy s) (h_stopped s)
  | Take =>
      if h_pending s && negb (h_busy s) && negb (h_stopped s)
      then mkReloader (h_app s) (disk s) false true (h_stopped s) else s
  | Reload =>
      if h_busy s
      then mkReloader (reload (disk s) None (h_app s)).2 (disk s) (h_pending s) false (h_stopped s)
      else s
  | Done => if h_busy s then s else mkReloader (h_app s) (disk s) (h_pending s) false true
  end.

Definition run (es : list event) (s : reloader) : reloader := foldl runReloader s es.

(** Whether a signal came after the last edit. *)
Definition asked (es : list event) : bool :=
  foldl (λ b e, match e with Edit _ => false | Hup => true | _ => b end) false es.

(** ** Facts *)

#[local] Opaque Validate flatten IsHot render Diff ApplyHot SetLevel.

Lemma say_each_keeps {A} (level : Z) (msg : string) (attrs : A → list attr) (l : list A) (a : state) :
  a_cfg (say_each level msg attrs l a) = a_cfg a ∧ a_log (say_each level msg attrs l a) = a_log a
  ∧ a_metrics (say_each level msg attrs l a) = a_metrics a
  ∧ a_reloaded (say_each level msg attrs l a) = a_reloaded a
  ∧ a_said (say_each level msg attrs l a)
    = a_said a ++ ((λ x, mkRecord level msg (attrs x)) <$> l).
Proof.
  revert a. induction l as [|x l IH]; intros a; [by rewrite app_nil_r|].
  destruct (IH (say level msg (attrs x) a)) as (Hc & Hl & Hm & Hr & Hs).
  unfold say_each in *. simpl. rewrite Hc, Hl, Hm, Hr, Hs. simpl. split_and!; try done.
  by rewrite <- (assoc_L (++)).
Qed.

(** The reload with its lines and counters does to the configuration, and answers, what
    [ConfigReload.reload] does, when flattening does not fail. *)
Lemma reload_refines (loaded : result err ConfigLoad.Result) (a : state) :
  let r := reload loaded None a in
  (r.1, a_cfg r.2) = ConfigReload.reload (a_cfg a) (ConfigLoad.r_Config <$> loaded).
Proof.
  unfold reload, ConfigReload.reload, readConfig, ConfigReload.readConfig, planReload.
  destruct loaded as [res|e]; simpl; [|done].
  destruct (Validate (ConfigLoad.r_Config res)) as [e|]; simpl; [done|].
  destruct (say_each_keeps LevelWarn "config reload warning" (λ w, [("detail", VString w)])
              (ConfigLoad.r_Warnings res) a) as (Hc & _).
  set (a1 := say_each _ _ _ _ a) in *. rewrite Hc.
  destruct (Diff (a_cfg a) (ConfigLoad.r_Config res)) as [hot ro]. simpl.
  destruct (say_each_keeps LevelWarn "load-time field change ignored" change_attrs ro a1) as (Hc2 & _).
  set (a2 := say_each _ _ _ _ a1) in *. rewrite Hc in Hc2.
  case_decide as Hhot; simpl; [by rewrite Hc2|].
  unfold applyHot, app_applyHot. rewrite Hc2.
  destruct (ApplyHot (a_cfg a) (ConfigLoad.r_Config res)) as [merged|e]; simpl; [|by rewrite Hc2].
  destruct (Validate merged) as [e|]; simpl; [by rewrite Hc2|].
  destruct (say_each_keeps LevelInfo "tunable changed" change_attrs hot (set_cfg merged a2)) as (Hc3 & _).
  destruct (SetLevel _ _) as [h [e|]]; simpl; by rewrite Hc3.
Qed.

(** Every reload counts once, under a label of a fixed set, which says whether it was
    applied; one refused ends with the line that says why and leaves the configuration, the
    level and the channel alone. *)
Lemma reload_counted (loaded : result err ConfigLoad.Result) (fault : option err) (a : state) :
  let r := reload loaded fault a in
  ∃ label, a_metrics r.2 = ConfigReloaded label (a_metrics a)
    ∧ (Reload_Err r.1 = None → label = "applied" ∧ a_reloaded r.2 = true)
    ∧ (∀ e, Reload_Err r.1 = Some e →
         label ∈ ["read error"; "invalid"; "diff failed"; "merge failed"; "invalid after merge"]
         ∧ last (a_said r.2) = Some (mkRecord LevelError "config reload rejected"
                                       [("reason", VString label); ("err", VError (err_text e))])
         ∧ a_cfg r.2 = a_cfg a ∧ a_log r.2 = a_log a ∧ a_reloaded r.2 = a_reloaded a).
Proof.
  assert (Hrej : ∀ reason e b, a_cfg b = a_cfg a → a_log b = a_log a → a_metrics b = a_metrics a →
    a_reloaded b = a_reloaded a →
    reason ∈ ["read error"; "invalid"; "diff failed"; "merge failed"; "invalid after merge"] →
    ∃ label, a_metrics (reject reason e b) = ConfigReloaded label (a_metrics a)
    ∧ (Some e = None → label = "applied" ∧ a_reloaded (reject reason e b) = true)
    ∧ (∀ e', Some e = Some e' →
         label ∈ ["read error"; "invalid"; "diff failed"; "merge failed"; "invalid after merge"]
         ∧ last (a_said (reject reason e b))
           = Some (mkRecord LevelError "config reload rejected"
                     [("reason", VString label); ("err", VError (err_text e'))])
         ∧ a_cfg (reject reason e b) = a_cfg a ∧ a_log (reject reason e b) = a_log a
         ∧ a_reloaded (reject reason e b) = a_reloaded a)).
  { intros reason e b Hc Hl Hm Hr Hin. exists reason. simpl. rewrite Hc, Hl, Hm, Hr.
    split; [done|]. split; [done|]. intros e' [= <-]. split; [done|]. by rewrite last_snoc. }
  unfold reload, readConfig, planReload. destruct loaded as [res|e]; simpl; [|apply Hrej; set_solver].
  destruct (Validate (ConfigLoad.r_Config res)) as [e|]; simpl; [apply Hrej; set_solver|].
  destruct (say_each_keeps LevelWarn "config reload warning" (λ w, [("detail", VString w)])
              (ConfigLoad.r_Warnings res) a) as (Hc & Hl & Hm & Hr & _).
  set (a1 := say_each _ _ _ _ a) in *.
  destruct fault as [e|]; simpl; [apply Hrej; auto; set_solver|].
  destruct (Diff (a_cfg a1) _) as [hot ro]. simpl.
  destruct (say_each_keeps LevelWarn "load-time field change ignored" change_attrs ro a1)
    as (Hc2 & Hl2 & Hm2 & Hr2 & _).
  set (a2 := say_each _ _ _ _ a1) in *. rewrite Hc in Hc2. rewrite Hl in Hl2. rewrite Hm in Hm2.
  rewrite Hr in Hr2.
  case_decide as Hhot; simpl; [exists "applied"; by rewrite Hm2|].
  unfold applyHot. destruct (ApplyHot _ _) as [merged|e]; simpl; [|apply Hrej; auto; set_solver].
  destruct (Validate merged) as [e|]; simpl; [apply Hrej; auto; set_solver|].
  destruct (say_each_keeps LevelInfo "tunable changed" change_attrs hot (set_cfg merged a2))
    as (_ & _ & Hm3 & _). simpl in Hm3.
  destruct (SetLevel _ _) as [h [e|]]; simpl; exists "applied"; by rewrite Hm3, Hm2.
Qed.

(** A validated level parses, so the complaint about the level is never written: what a
    reload of a hot change leaves is the logger at the level of the merged configuration. *)
Lemma level_parses (c : Config) : Validate c = None → is_ok (ParseLevel (Log_Level (C_Logging c))) = true.
Proof.
  intros Hv. apply Validate_spec in Hv. destruct (co_logging _ Hv) as [Hl _]. unfold ParseLevel.
  repeat (apply elem_of_cons in Hl as [Hl|Hl]; [by rewrite Hl|]). by apply not_elem_of_nil in Hl.
Qed.

(** A signal is never lost to one that is being served: once the loop is idle with nothing
    pending and a signal came after the last edit, what runs is what reloading that edit
    gives. *)
Lemma signals_catch_up (es : list event) (a : state) (l : result err ConfigLoad.Result) :
  let s := run es (mkReloader a l false false false) in
  asked es = true → h_pending s = false → h_busy s = false →
  ∃ before, a_cfg (h_app s) = (ConfigReload.reload before (ConfigLoad.r_Config <$> disk s)).2.
Proof.
  intros s. assert (Hinv : asked es = true → h_pending s = true ∨ h_busy s = true
    ∨ ∃ before, a_cfg (h_app s) = (ConfigReload.reload before (ConfigLoad.r_Config <$> disk s)).2).
  { unfold s, run, asked. induction es as [|e es IH] using rev_ind; [done|]. rewrite !foldl_snoc.
    set (b := foldl _ false es) in *. set (t := foldl runReloader _ es) in *.
    destruct e; simpl; intros Hb; try done.
    - by left.
    - specialize (IH Hb). destruct (h_pending t) eqn:Hp, (h_busy t) eqn:Hu, (h_stopped t) eqn:Hs;
        simpl; rewrite ?Hp, ?Hu; auto.
    - destruct (h_busy t) eqn:Hu; simpl; [|rewrite Hu; auto]. right. right.
      exists (a_cfg (h_app t)). pose proof (reload_refines (disk t) (h_app t)) as Hr. cbv zeta in Hr.
      by rewrite <- Hr.
    - destruct (h_busy t) eqn:Hu; simpl; [rewrite Hu; auto|]. specialize (IH Hb). destruct IH as [?|[?|?]]; auto. }
  intros Ha Hp Hb. destruct (Hinv Ha) as [?|[?|?]]; [congruence|congruence|done].
Qed.
End loop.

(** ** Examples *)

#[local] Transparent Validate flatten IsHot render Diff ApplyHot SetLevel.

Definition running : state :=
  mkApp (Defaults ConfigProps.host) (mkHandle LevelDebug "json" [] true ∅) empty_registry false [].
Definition loaded_as (c : Config) : result err ConfigLoad.Result :=
  Ok (ConfigLoad.mkResult c "config.yaml" []).
Definition more_workers : Config :=
  let d := Defaults ConfigProps.host in
  mkConfig (C_Service d) (C_Logging d) (C_HTTP d) (C_Admin d) (C_Storage d) (C_Queue d)
    (C_Idempotency d) (C_Auth d)
    (mkRateLimit (RL_Enabled (C_RateLimit d)) 7 (RL_KeyTTL (C_RateLimit d))
       (RL_SweepInterval (C_RateLimit d)) (RL_Tiers (C_RateLimit d)))
    (C_Breaker d) (C_Webhook d) (C_Observability d).

(** The level was raised through the admin endpoint; a reload that changes an unrelated
    field puts it back, and no line names it. *)
Example level_moves_without_a_line :
  let r := @reload ConfigProps.plain_text ConfigProps.plain_unmarshal ConfigProps.plain_rendering
             (loaded_as more_workers) None running in
  Ch_Field <$> Applied r.1 = ["ratelimit.global_inflight"]
  ∧ lvl (a_log running) = LevelDebug ∧ lvl (a_log r.2) = LevelInfo
  ∧ Message <$> a_said r.2 = ["tunable changed"; "SIGHUP reload applied"].
Proof. split_and!; vm_eq. Qed.

(** Two signals during a reload are one more reload. *)
Example coalesced :
  let s := @run ConfigProps.plain_text ConfigProps.plain_unmarshal ConfigProps.plain_rendering
             [Hup; Take; Edit (loaded_as more_workers); Hup; Hup; Reload; Take; Reload; Take]
             (mkReloader running (loaded_as (Defaults ConfigProps.host)) false false false) in
  count_of ("config_reloads_total", ["applied"]) (a_metrics (h_app s)) = 2
  ∧ h_pending s = false ∧ h_busy s = false.
Proof. split_and!; vm_eq. Qed.
