(* ===== verification/Public.v ===== *)
(** * The public handler (src/internal/runtime/codec.go and handler.go, src/docs)

    The JSON codecs, the documentation routes, and [NewHandler], which puts the chain of
    [Api] around the routes.  Protobuf JSON, YAML and the transcoder are libraries:
    [ProtoJSON], [DocLib] and an argument. *)
From stdpp Require Import options.
From S2P Require Import Prelude GoStrings GoFloat Apperr Task Http Mux Tracing Metrics.
From S2P Require Import Api.
From S2P Require Idem RateLimit ApiProps MetricsProps.
Open Scope Z_scope.

(** ** codec.go *)

(** The options the program sets of protojson's. *)
Record MarshalOptions : Type := mkMarshal { EmitDefaultValues : bool; m_Resolver : bool }.
Record UnmarshalOptions : Type := mkUnmarshal { DiscardUnknown : bool; u_Resolver : bool }.

Definition marshalOptions : MarshalOptions := mkMarshal true false.
Definition unmarshalOptions : UnmarshalOptions := mkUnmarshal true false.

(** An error with the [*connect.Error] that [errors.As] finds in it. *)
Record coded : Type := mkCoded { cd_err : err; cd_As : option Code }.

(** [connect.NewError]. *)
Definition NewError (c : Code) (e : err) : coded := mkCoded e (Some c).

Definition asInvalidArgument (e : option coded) : option coded :=
  match e with
  | None => None
  | Some e =>
      match cd_As e with
      | Some _ => Some e
      | None => Some (NewError CodeInvalidArgument (EWrap "malformed request body: " (cd_err e) ""))
      end
  end.

(** Messages, fields and protojson. *)
Class ProtoJSON : Type := {
  message : Type;
  field : Type;
  protojson_Marshal : MarshalOptions → message → result coded string;
  protojson_Unmarshal : UnmarshalOptions → string → message → option coded * message;
  protojson_UnmarshalField : UnmarshalOptions → string → message → field → option coded * message;
}.

Section codec.
Context `{ProtoJSON}.

(** [vanguard.JSONCodec] with its two options, embedded. *)
Record jsonCodec : Type := mkCodec { c_Marshal : MarshalOptions; c_Unmarshal : UnmarshalOptions }.

Definition newJSONCodec (res : bool) : jsonCodec :=
  mkCodec (mkMarshal (EmitDefaultValues marshalOptions) res)
          (mkUnmarshal (DiscardUnknown unmarshalOptions) res).

Definition Unmarshal (c : jsonCodec) (data : string) (msg : message) : option coded * message :=
  let '(e, msg) := protojson_Unmarshal (c_Unmarshal c) data msg in (asInvalidArgument e, msg).

Definition UnmarshalField (c : jsonCodec) (data : string) (msg : message) (f : field)
  : option coded * message :=
  let '(e, msg) := protojson_UnmarshalField (c_Unmarshal c) data msg f in (asInvalidArgument e, msg).

(** A value of any type: a message, or the name of its type. *)
Definition any : Type := message + string.

Definition connect_Name : string := "json".

Definition connect_Marshal (msg : any) : result coded string :=
  match msg with
  | inl m => protojson_Marshal marshalOptions m
  | inr T => Err (mkCoded (ENew ("json codec cannot marshal " +:+ T)%string) None)
  end.

Definition connect_Unmarshal (data : string) (msg : any) : option coded * any :=
  match msg with
  | inl m => let '(e, m) := protojson_Unmarshal unmarshalOptions data m in (asInvalidArgument e, inl m)
  | inr T => (Some (mkCoded (ENew ("json codec cannot unmarshal into " +:+ T)%string) None), msg)
  end.
End codec.

(** ** docs.go and serve.go *)

Class DocLib : Type := {
  document : Type;
  yaml_Unmarshal : string → result err document;
  json_Marshal : document → result err string;
}.

Definition PathYAML : string := "/openapi.yaml".
Definition PathJSON : string := "/openapi.json".
Definition PathUI : string := "/docs".

Section docs.
Context `{DocLib} (openAPIYAML scalarHTML : string).

Definition YAML : string := openAPIYAML.

(** What the first call computes. *)
Definition convert : result err string :=
  match yaml_Unmarshal openAPIYAML with
  | Err e => Err (EWrap "parse embedded openapi.yaml: " e "")
  | Ok doc => json_Marshal doc
  end.

(** The [sync.Once] with the two variables it guards. *)
Definition once : Type := option (result err string).

Definition JSON (o : once) : result err string * once :=
  match o with
  | Some r => (r, o)
  | None => (convert, Some convert)
  end.

Definition served (contentType : string) (cached : bool) (body : string) (w : Writer) : Writer :=
  let w := on_header (header_Set "Content-Type" contentType) w in
  let w := if cached then on_header (header_Set "Cache-Control" "public, max-age=300") w else w in
  Write body w.

Definition serveYAML : Handler once := λ _, respond (served "application/yaml" true YAML).

Definition serveJSON : Handler once := λ _ ws,
  match JSON ws.2 with
  | (Err _, o) => (Returned, (http_Error "openapi document is unavailable" 500 ws.1, o))
  | (Ok body, o) => (Returned, (served "application/json" true body ws.1, o))
  end.

Definition serveUI : Handler once := λ _, respond (served "text/html; charset=utf-8" false scalarHTML).

Definition docs_Handler {H} (lift : Handler once → H) (mux : list (pattern * H)) : list (pattern * H) :=
  HandleFunc "GET" PathUI (lift serveUI)
    (HandleFunc "GET" PathJSON (lift serveJSON)
       (HandleFunc "GET" PathYAML (lift serveYAML) mux)).

(** ** handler.go *)

(** The two parts of the state behind the routes. *)
Definition on_docs {A} (h : Handler once) : Handler (once * A) := λ r ws,
  let '(f, (w, o)) := h r (ws.1, ws.2.1) in (f, (w, (o, ws.2.2))).
Definition on_api {A} (h : Handler A) : Handler (once * A) := λ r ws,
  let '(f, (w, a)) := h r (ws.1, ws.2.2) in (f, (w, (ws.2.1, a))).

(** [NewTranscoder] refuses or not. *)
Definition transcoder {A} (t : result err (Handler A)) : result err (Handler A) :=
  match t with
  | Err e => Err (EWrap "runtime: build transcoder: " e "")
  | Ok h => Ok h
  end.

(** [seam] is the handler a test puts in the transcoder's place. *)
Definition routes {A} (seam : option (Handler A)) (t : result err (Handler A))
  : result err (list (pattern * Handler (once * A))) :=
  match (match seam with Some h => Ok h | None => transcoder t end) with
  | Err e => Err e
  | Ok root => Ok (HandleFunc "" "/" (on_api root) (docs_Handler on_docs []))
  end.

(** What scrapers ask for is not traced. *)
Definition traced (path : string) : bool :=
  negb (bool_decide (path ∈ ["/healthz"; "/readyz"; "/metrics"; "/version"])).
Definition spanName (r : Request) : string := (Method r +:+ " " +:+ Route (Path r))%string.

(** [start] is what otelhttp does around the handler under the name of the span. *)
Definition tracingMiddleware {S} (start : string → Middleware S) : Middleware S := λ next r ws,
  if traced (Path r) then start (spanName r) next r ws else next r ws.

Section handler.
Context `{RateLimit.RateLib, FloatConv} {A T : Type} `{!Idem.Store (once * A)%type T}.

(** The registry beside the state of the rest of the chain. *)
Definition on_server (h : Handler (@server _ T)) : Handler (registry * server) := λ r ws,
  let '(f, (w, s)) := h r (ws.1, ws.2.2) in (f, (w, (ws.2.1, s))).

(** [wrap] in full: tracing outermost, then the metrics, then the chain of [Api]. *)
Definition full_wrap (h : Handler (once * A)) (o : Options) (d : draws) (tracing metrics : bool)
  (start : string → Middleware (registry * server)) (elapsed : Z) (sc : span_context)
  : Handler (registry * @server _ T) :=
  Chain (on_server (wrap h o d))
    ((if tracing then [tracingMiddleware start] else [])
     ++ (if metrics then [HTTP_Middleware fst (λ m s, (m, s.2)) elapsed sc] else [])).

(** [service] is whether a task service was given. *)
Definition NewHandler (service : bool) (seam : option (Handler A)) (t : result err (Handler A))
  (o : Options) (d : draws) (tracing metrics : bool)
  (start : string → Middleware (registry * server)) (elapsed : Z) (sc : span_context)
  : result err (Handler (registry * @server _ T)) :=
  if negb service then Err (ENew "runtime: a task service is required")
  else match routes seam t with
       | Err e => Err e
       | Ok mux => Ok (full_wrap (ServeMux mux) o d tracing metrics start elapsed sc)
       end.
End handler.
End docs.

(** ** Facts *)

(** A body that does not decode is the client's fault, whatever path decodes it: what was
    coded keeps its code, and the rest is answered 400. *)
Lemma malformed_is_400 (e : option coded) :
  match asInvalidArgument e with
  | None => e = None
  | Some e' =>
      ∃ e0 c, e = Some e0 ∧ cd_As e' = Some c
      ∧ match cd_As e0 with Some c0 => e' = e0 ∧ c = c0 | None => http_status c = 400 end
  end.
Proof.
  destruct e as [[e [c|]]|]; simpl; [|exists (mkCoded e None); by eexists|done].
  exists (mkCoded e (Some c)). by eexists.
Qed.

(** Decoding through both codecs classifies once. *)
Lemma asInvalidArgument_idemp (e : option coded) :
  asInvalidArgument (asInvalidArgument e) = asInvalidArgument e.
Proof. by destruct e as [[e [c|]]|]. Qed.

(** The two codecs of a message are the one protojson: what vanguard writes and what it
    passes through differ in no option but the resolver of types. *)
Lemma codecs_agree `{ProtoJSON} (res : bool) :
  (∀ m, protojson_Marshal (c_Marshal (newJSONCodec res)) m = protojson_Marshal marshalOptions m) →
  (∀ d m, protojson_Unmarshal (c_Unmarshal (newJSONCodec res)) d m
          = protojson_Unmarshal unmarshalOptions d m) →
  ∀ data m,
    connect_Marshal (inl m) = protojson_Marshal (c_Marshal (newJSONCodec res)) m
    ∧ connect_Unmarshal data (inl m)
      = ((Unmarshal (newJSONCodec res) data m).1, inl (Unmarshal (newJSONCodec res) data m).2).
Proof.
  intros Hm Hu data m. unfold connect_Marshal, connect_Unmarshal, Unmarshal. rewrite Hm, Hu.
  by destruct (protojson_Unmarshal unmarshalOptions data m).
Qed.

Section docs_facts.
Context `{DocLib} (yaml html : string).

(** The document is converted at most once, and every call gives that result. *)
Lemma JSON_stable (o : once) (n : nat) :
  o = None ∨ o = Some (convert yaml) →
  (JSON yaml (Nat.iter n (λ o, (JSON yaml o).2) o)).1 = convert yaml.
Proof.
  intros Ho. assert (Hinv : Nat.iter n (λ o, (JSON yaml o).2) o = None
                            ∨ Nat.iter n (λ o, (JSON yaml o).2) o = Some (convert yaml)).
  { apply Nat.iter_invariant; [|done]. intros x [->| ->]; by right. }
  by destruct Hinv as [->| ->].
Qed.

Definition doc_path (path : string) : bool := 
  bool_decide (path = PathYAML) || bool_decide (path = PathJSON) || bool_decide (path = PathUI).
Definition reads (method : string) : bool :=
  bool_decide (method = "GET") || bool_decide (method = "HEAD").

Definition doc_handler (path : string) : Handler once :=
  if decide (path = PathYAML) then serveYAML yaml
  else if decide (path = PathJSON) then serveJSON yaml else serveUI html.

(** Where a request goes: reading a documentation page is answered from what is embedded,
    and everything else - another method on those paths too - reaches the transcoder; the
    mux refuses nothing itself. *)
Lemma routes_exact {A} (seam : option (Handler A)) (t : result err (Handler A)) (root : Handler A)
  (r : Request) (ws : Writer * (once * A)) :
  match seam with Some h => Ok h | None => t end = Ok root →
  ∃ mux, routes yaml html seam t = Ok mux
    ∧ ServeMux mux r ws =
        if doc_path (Path r) && reads (Method r)
        then on_docs (doc_handler (Path r)) r ws else on_api root r ws.
Proof.
  intros Hroot. unfold routes.
  assert (Hr : match seam with Some h => Ok h | None => transcoder t end = Ok root).
  { destruct seam; [done|]. unfold transcoder. by rewrite Hroot. }
  rewrite Hr. eexists. split; [done|]. clear Hr Hroot.
  unfold ServeMux, pick, matching, docs_Handler, HandleFunc, doc_path, doc_handler, reads. simpl.
  unfold literal, named, covers, literal, allows. simpl.
  generalize (Path r) as p. generalize (Method r) as m. intros m p.
  repeat (first [case_bool_decide|case_decide]; simplify_eq/=; try done).
Qed.
End docs_facts.

(** ** Counting *)

Section counted.
Context `{RateLimit.RateLib, FloatConv} {A T : Type} `{!Idem.Store (once * A)%type T}.

Lemma Logger_flow {S} (debug : bool) (put : AccessLine → S → S) (h : Handler S) (r : Request)
  (ws : Writer * S) : (Logger debug put h r ws).1 = (h r ws).1.
Proof. unfold Logger. destruct debug; [|done]. by destruct (h r ws) as [[] []]. Qed.

(** No panic but the deliberate abort leaves the chain. *)
Lemma wrap_recovers (h : Handler (once * A)) (o : Options) (d : draws) (r : Request)
  (ws : Writer * @server _ T) (v : string) : (wrap h o d r ws).1 ≠ Panicked v.
Proof.
  rewrite ApiProps.wrap_unfold. unfold RequestID. cbv zeta. rewrite Logger_flow.
  unfold middlewares, Chain. simpl. unfold Recover.
  match goal with |- (match ?e with _ => _ end).1 ≠ _ => by destruct e as [[] []] end.
Qed.

(** Every request through the instrumented handler - refused, failed or served - adds one to
    the counter of its method, route and status, and to no other; one that is aborted adds
    nothing. *)
Lemma every_request_counted (h : Handler (once * A)) (o : Options) (d : draws)
  (start : string → Middleware (registry * server)) (elapsed : Z) (sc : span_context) (r : Request)
  (ws ws' : Writer * (registry * @server _ T)) (fl : flow) (k : series) :
  full_wrap h o d false true start elapsed sc r ws = (fl, ws') → MetricsProps.is_http k →
  count_of k ws'.2.1
  = count_of k ws.2.1
    + (if decide (k = MetricsProps.request_series r (resp_Status (sent ws'.1)))
       then match fl with Returned => 1 | _ => 0 end else 0).
Proof.
  intros Hw Hk. unfold full_wrap, Chain in Hw. simpl in Hw.
  apply (MetricsProps.requests_counted fst (λ m s, (m, s.2)) (λ _ _, eq_refl) elapsed sc
           (on_server (wrap h o d)) r ws ws' fl k); [|done|done].
  intros r' [w [m s]] k' _. unfold on_server. simpl. by destruct (wrap h o d r' (w, s)) as [f [w' s']].
Qed.
End counted.
