(* ===== verification/PgPool.v ===== *)
(** * Opening the database pool (src/internal/postgres/pool.go)

    The settings a configuration gives the pool and every session on it, and the opening
    itself.  [pgxpool] is outside: parsing a DSN, building a pool and pinging it are
    parameters. *)
From stdpp Require Import options.
From S2P Require Import Prelude GoStrings Apperr ConfigBase ConfigSections.
From S2P Require ConfigFacts ConfigProps.
Open Scope Z_scope.

Definition RoleAPI : string := "api".
Definition RoleWorker : string := "worker".
Definition RoleMigrate : string := "migrate".

Record PoolConfig : Type := mkPoolConfig {
  MaxConns : Z;
  MinConns : Z;
  MaxConnLifetime : Z;
  MaxConnIdleTime : Z;
  HealthCheckPeriod : Z;
  ConnectTimeout : Z;
  RuntimeParams : gmap string string;
}.

Definition applicationName (role instance : string) : string :=
  if decide (instance = "") then ("taskapi-" +:+ role)%string
  else ("taskapi-" +:+ role +:+ "-" +:+ instance)%string.

(** Whole milliseconds, toward zero. *)
Definition millis (d : Z) : string := itoa (Z.quot d millisecond).

(** What [ParseConfig] makes of the DSN: the session parameters it names. *)
Definition poolConfig (ParseConfig : string → result string (gmap string string)) (cfg : Postgres)
  (role instance : string) : result err PoolConfig :=
  match ParseConfig (Pg_DSN cfg) with
  | Err _ => Err (ENew "postgres: dsn is not parseable")
  | Ok params =>
      Ok (mkPoolConfig (Pg_MaxConns cfg) (Pg_MinConns cfg) (Pg_MaxConnLifetime cfg)
            (Pg_MaxConnIdleTime cfg) (Pg_HealthCheckPeriod cfg) (Pg_ConnectTimeout cfg)
            (<["lock_timeout" := millis (Pg_LockTimeout cfg)]>
            (<["idle_in_transaction_session_timeout" := millis (Pg_IdleInTransactionSessionTimeout cfg)]>
            (<["statement_timeout" := millis (Pg_StatementTimeout cfg)]>
            (<["application_name" := applicationName role instance]> params)))))
  end.

(** The pool opened, and the pools closed again. *)
Definition OpenTraced (ParseConfig : string → result string (gmap string string))
  (NewWithConfig : PoolConfig → option err) (Ping : Z → option err) (cfg : Postgres)
  (role instance : string) : result err PoolConfig * list PoolConfig :=
  match poolConfig ParseConfig cfg role instance with
  | Err e => (Err e, [])
  | Ok pc =>
      match NewWithConfig pc with
      | Some e => (Err (EWrap "postgres: build pool: " e ""), [])
      | None =>
          match Ping (Pg_ConnectTimeout cfg) with
          | Some e => (Err (EWrap "postgres: connect: " e ""), [pc])
          | None => (Ok pc, [])
          end
      end
  end.

(** ** The sessions' limits *)

Lemma quot_millis (d : Z) : 0 ≤ d → 0 ≤ d - Z.quot d millisecond * millisecond < millisecond.
Proof.
  intros Hd. unfold millisecond. rewrite Z.quot_div_nonneg by lia.
  pose proof (Z.mod_pos_bound d 1000000). pose proof (Z.div_mod d 1000000). lia.
Qed.

(** Whatever the DSN says, every session runs under the configured limits, rounded down to
    a millisecond; Postgres reads zero as no limit. *)
Lemma session_limits (ParseConfig : string → result string (gmap string string)) (cfg : Postgres)
  (role instance : string) (pc : PoolConfig) :
  poolConfig ParseConfig cfg role instance = Ok pc → 0 ≤ Pg_StatementTimeout cfg →
  ∃ ms, RuntimeParams pc !! "statement_timeout" = Some (itoa ms)
    ∧ 0 ≤ Pg_StatementTimeout cfg - ms * millisecond < millisecond
    ∧ (ms = 0 ↔ Pg_StatementTimeout cfg < millisecond).
Proof.
  unfold poolConfig. destruct (ParseConfig _) as [params|]; [|done]. intros [= <-] Hs. simpl.
  exists (Z.quot (Pg_StatementTimeout cfg) millisecond). pose proof (quot_millis _ Hs) as Hq.
  split; [|split; [done|]].
  - rewrite !lookup_insert_ne by done. by rewrite lookup_insert_eq.
  - unfold millisecond in *. lia.
Qed.

(** The DSN stays out of the error, and a pool that cannot be reached is closed. *)
Lemma open_closes (ParseConfig : string → result string (gmap string string))
  (NewWithConfig : PoolConfig → option err) (Ping : Z → option err) (cfg : Postgres)
  (role instance : string) :
  match OpenTraced ParseConfig NewWithConfig Ping cfg role instance with
  | (Ok pc, closed) => closed = [] ∧ Ping (Pg_ConnectTimeout cfg) = None
  | (Err e, closed) =>
      (closed = [] ∧ err_text e = "postgres: dsn is not parseable")
      ∨ ∃ pc, poolConfig ParseConfig cfg role instance = Ok pc
          ∧ (NewWithConfig pc = None → closed = [pc])
  end.
Proof.
  unfold OpenTraced, poolConfig. destruct (ParseConfig _) as [params|]; [|by left].
  destruct (NewWithConfig _) eqn:Hn; [right; eexists; split; [reflexivity|]; congruence|].
  destruct (Ping _); [right; eexists; split; [reflexivity|]; done|done].
Qed.

(** A statement timeout below a millisecond passes validation and removes the limit it
    asks for. *)
Definition brief : Storage :=
  mkStorage BackendPostgres
    (mkPostgres "postgres://db/tasks" 20 2 (30 * minute) (5 * minute) (30 * second) (5 * second)
       500_000 (10 * second) (3 * second)).

Example brief_timeout_is_no_timeout :
  Storage_Validate (H := ConfigProps.plain_text) brief [] = []
  ∧ match poolConfig (λ _, Ok ∅) (Sto_Postgres brief) RoleAPI "replica-1" with
    | Ok pc => RuntimeParams pc !! "statement_timeout" = Some "0"
    | Err _ => False
    end.
Proof. vm_compute. done. Qed.
