(* ===== verification/Runner.v ===== *)
(** * Starting and draining the worker table (src/internal/app/runner.go)

    The goroutine of [runWorkers] is a program counter and the function [main], which
    takes the answers it waits for: what a [Stop] returned, and which branch a [select]
    with two ready branches picked.  The workers, the signal and the clock are the
    steps of the environment, which may interleave with it anywhere; [tstep] says when
    the clock can move, a [Stop] taking the time it takes. *)
From stdpp Require Import options.
From S2P Require Import Prelude GoStrings GoDuration Apperr.
Open Scope Z_scope.

(** A row of the table: its name, and whether it has a [Stop]. *)
Record Worker : Type := mkWorker { Name : string; HasStop : bool }.

(** How a [Run] ends. *)
Inductive outcome : Type :=
  | Ended (e : option err)
  | Panicked (v : string).

Definition failure_of (w : Worker) (o : outcome) : option err :=
  match o with
  | Ended None => None
  | Ended (Some e) =>
      if errors_is e CtxCanceled then None else Some (EWrap (Name w +:+ ": ")%string e "")
  | Panicked v => Some (ENew (Name w +:+ ": panic: " +:+ v)%string)
  end.

Record failureSet : Type := mkFailures { fs_err : option err; fired : bool }.

Definition newFailureSet : failureSet := mkFailures None false.

Definition record (e : err) (f : failureSet) : failureSet :=
  mkFailures (match fs_err f with None => Some e | Some _ => fs_err f end) true.

Definition record_opt (e : option err) (f : failureSet) : failureSet :=
  match e with Some e => record e f | None => f end.

(** Where [runWorkers] is: in its [select]; in [drain], at a row, with the first error
    of the drain and its deadline; in the row's [Stop], and since when; waiting for the
    group; recording; reading. *)
Inductive counter : Type :=
  | Waiting
  | Draining (i : nat) (firstErr : option err) (deadline : Z)
  | Stopping (i : nat) (firstErr : option err) (deadline since : Z)
  | Grouped (firstErr : option err) (deadline : Z)
  | Recording (firstErr : option err)
  | Reading
  | Returned (e : option err).

(** [outcomes] holds the workers that have returned, [stops] what every [Stop] that has
    returned answered. *)
Record state : Type := mkState {
  pc : counter;
  failures : failureSet;
  outcomes : gmap nat outcome;
  stops : list (nat * option err);
  signalled : bool;
  cancelled : bool;
  now : Z;
}.

Definition set_pc (p : counter) (s : state) : state :=
  mkState p (failures s) (outcomes s) (stops s) (signalled s) (cancelled s) (now s).

(** The rows whose [Stop] has been called, in order. *)
Definition called (s : state) : list nat :=
  (stops s).*1 ++ match pc s with Stopping i _ _ _ => [i] | _ => [] end.

Section runner.
Context (workers : list Worker) (grace : Z).

Definition initial (t : Z) : state := mkState Waiting newFailureSet ∅ [] false false t.

Definition triggered (s : state) : bool := signalled s || fired (failures s).

Definition all_returned (s : state) : bool :=
  forallb (λ i, bool_decide (is_Some (outcomes s !! i))) (seq 0 (length workers)).

Definition drain_error (w : Worker) (r first : option err) : option err :=
  match first, r with
  | None, Some e => Some (EWrap ("drain " +:+ Name w +:+ ": ")%string e "")
  | _, _ => first
  end.

Definition timed_out : err := ENew ("shutdown timed out after " +:+ Duration_String grace)%string.

(** One statement of [runWorkers], [drain] inlined; [None] where it blocks. *)
Definition main (r : option err) (prefer_stopped : bool) (s : state) : option state :=
  match pc s with
  | Waiting => if triggered s then Some (set_pc (Draining 0 None (now s + grace)) s) else None
  | Draining i first dl =>
      match workers !! i with
      | Some w =>
          Some (set_pc (if HasStop w then Stopping i first dl (now s)
                        else Draining (S i) first dl) s)
      | None =>
          Some (mkState (Grouped first dl) (failures s) (outcomes s) (stops s) (signalled s)
                  true (now s))
      end
  | Stopping i first dl _ =>
      match workers !! i with
      | Some w =>
          Some (mkState (Draining (S i) (drain_error w r first) dl) (failures s) (outcomes s)
                  (stops s ++ [(i, r)]) (signalled s) (cancelled s) (now s))
      | None => None
      end
  | Grouped first dl =>
      let late := dl <=? now s in
      if all_returned s && (prefer_stopped || negb late) then Some (set_pc (Recording first) s)
      else if late then
        Some (set_pc (Recording (match first with None => Some timed_out | Some _ => first end)) s)
      else None
  | Recording first =>
      Some (mkState Reading (record_opt first (failures s)) (outcomes s) (stops s) (signalled s)
              (cancelled s) (now s))
  | Reading => Some (set_pc (Returned (fs_err (failures s))) s)
  | Returned _ => None
  end.

(** A worker returns: [start]'s goroutine records what it made of it. *)
Definition returns (i : nat) (w : Worker) (o : outcome) (s : state) : state :=
  mkState (pc s) (record_opt (failure_of w o) (failures s)) (<[i := o]> (outcomes s)) (stops s)
    (signalled s) (cancelled s) (now s).

Definition at_time (t : Z) (s : state) : state :=
  mkState (pc s) (failures s) (outcomes s) (stops s) (signalled s) (cancelled s) t.

Inductive env_step : state → state → Prop :=
  | env_signal s :
      env_step s (mkState (pc s) (failures s) (outcomes s) (stops s) true (cancelled s) (now s))
  | env_tick t s : now s ≤ t → env_step s (at_time t s)
  | env_returns i w o s :
      workers !! i = Some w → outcomes s !! i = None → env_step s (returns i w o s).

Inductive step : state → state → Prop :=
  | step_env s s' : env_step s s' → step s s'
  | step_main r b s s' : main r b s = Some s' → step s s'.

(** Runs, with the number of statements of [runWorkers] in them. *)
Inductive steps : nat → state → state → Prop :=
  | steps_refl s : steps 0 s s
  | steps_env n s s' s'' : env_step s s' → steps n s' s'' → steps n s s''
  | steps_main n r b s s' s'' : main r b s = Some s' → steps n s' s'' → steps (S n) s s''.

(** ** Invariants *)

(** The rows [drain] has passed. *)
Definition position (s : state) : nat :=
  match pc s with
  | Waiting => 0 | Draining i _ _ | Stopping i _ _ _ => i | _ => length workers
  end%nat.

Definition past_drain (s : state) : bool :=
  match pc s with Waiting | Draining _ _ _ | Stopping _ _ _ _ => false | _ => true end.

Definition recorded (s : state) : bool :=
  match pc s with Reading | Returned _ => true | _ => false end.

(** The rows before [n] that have a [Stop], in the order of the table. *)
Definition stoppable (n : nat) : list nat :=
  filter (λ i, HasStop <$> workers !! i = Some true) (seq 0 n).

(** The error of the drain that a list of answers gives. *)
Definition first_drain_error (l : list (nat * option err)) : option err :=
  foldl (λ first ir, match workers !! ir.1 with
                     | Some w => drain_error w ir.2 first | None => first end) None l.

(** What a worker that returned is charged with, and when it is charged with nothing. *)
Inductive fault (w : Worker) : outcome → err → Prop :=
  | fault_error e :
      errors_is e CtxCanceled = false → fault w (Ended (Some e)) (EWrap (Name w +:+ ": ")%string e "")
  | fault_panic v : fault w (Panicked v) (ENew (Name w +:+ ": panic: " +:+ v)%string).

Definition clean (o : outcome) : Prop :=
  o = Ended None ∨ ∃ e, o = Ended (Some e) ∧ errors_is e CtxCanceled = true.

Definition charged (s : state) (e : err) : Prop :=
  ∃ i w o, workers !! i = Some w ∧ outcomes s !! i = Some o ∧ fault w o e.

(** The error of the first [Stop] that failed; every one before it answered [nil]. *)
Definition failing_stop (l : list (nat * option err)) (e : err) : Prop :=
  ∃ before i w x after,
    l = before ++ (i, Some x) :: after ∧ (∀ ir, ir ∈ before → ir.2 = None)
    ∧ workers !! i = Some w ∧ e = EWrap ("drain " +:+ Name w +:+ ": ")%string x "".

Definition stops_fine (l : list (nat * option err)) : Prop := ∀ ir, ir ∈ l → ir.2 = None.

(** Where an error the process ends with can come from. *)
Definition origin (s : state) (e : err) : Prop :=
  charged s e ∨ failing_stop (stops s) e ∨ (e = timed_out ∧ stops_fine (stops s)).

Definition nothing_wrong (s : state) : Prop :=
  first_drain_error (stops s) = None ∧ all_returned s = true.

Definition first_inv (s : state) : Prop :=
  match pc s with
  | Waiting => stops s = []
  | Draining _ f _ | Grouped f _ => f = first_drain_error (stops s) ∧ triggered s = true
  | Stopping i f _ _ =>
      f = first_drain_error (stops s) ∧ triggered s = true
      ∧ ∃ w, workers !! i = Some w ∧ HasStop w = true
  | Recording f => (f = None → nothing_wrong s) ∧ (∀ e, f = Some e → origin s e) ∧ triggered s = true
  | Reading => (fs_err (failures s) = None → nothing_wrong s) ∧ triggered s = true
  | Returned e => fs_err (failures s) = e ∧ (e = None → nothing_wrong s) ∧ triggered s = true
  end.

Record runner_inv (s : state) : Prop := {
  inv_position : (position s ≤ length workers)%nat;
  inv_stops : (stops s).*1 = stoppable (position s);
  inv_cancelled : cancelled s = past_drain s;
  inv_fired : fired (failures s) = bool_decide (is_Some (fs_err (failures s)));
  inv_first : first_inv s;
  inv_clean : fs_err (failures s) = None →
    ∀ i w o, workers !! i = Some w → outcomes s !! i = Some o → failure_of w o = None;
  inv_origin : ∀ e, fs_err (failures s) = Some e → if recorded s then origin s e else charged s e;
}.

Lemma failure_of_fault (w : Worker) (o : outcome) (e : err) : failure_of w o = Some e → fault w o e.
Proof.
  destruct o as [[x|]|v]; simpl; [|done|].
  - destruct (errors_is x CtxCanceled) eqn:E; [done|]. intros [= <-]. by constructor.
  - intros [= <-]. constructor.
Qed.

Lemma failure_of_clean (w : Worker) (o : outcome) : failure_of w o = None → clean o.
Proof.
  destruct o as [[x|]|v]; simpl; [|by left|done].
  destruct (errors_is x CtxCanceled) eqn:E; [|done]. right. by exists x.
Qed.

Lemma stoppable_S (i : nat) (w : Worker) :
  workers !! i = Some w → stoppable (S i) = stoppable i ++ (if HasStop w then [i] else []).
Proof.
  intros Hw. unfold stoppable. rewrite seq_S, filter_app. f_equal. simpl.
  rewrite filter_cons, Hw. simpl. by destruct (HasStop w).
Qed.

Lemma first_drain_error_snoc (l : list (nat * option err)) (i : nat) (w : Worker) (r : option err) :
  workers !! i = Some w →
  first_drain_error (l ++ [(i, r)]) = drain_error w r (first_drain_error l).
Proof. intros Hw. unfold first_drain_error. rewrite foldl_app. simpl. by rewrite Hw. Qed.

Lemma failing_stop_app (l l' : list (nat * option err)) (e : err) :
  failing_stop l e → failing_stop (l ++ l') e.
Proof.
  intros (l1 & i & w & x & l2 & -> & Hl & Hw & He). exists l1, i, w, x, (l2 ++ l').
  by rewrite <- app_assoc.
Qed.

(** The error [drain] keeps is that of the first [Stop] that failed. *)
Lemma first_drain_error_spec (l : list (nat * option err)) :
  (∀ i, i ∈ l.*1 → is_Some (workers !! i)) →
  match first_drain_error l with None => stops_fine l | Some e => failing_stop l e end.
Proof.
  induction l as [|[i r] l IH] using rev_ind; intros Hl; [by intros ? ?%elem_of_nil|].
  destruct (Hl i) as [w Hw]; [rewrite fmap_app; set_solver|].
  rewrite (first_drain_error_snoc _ _ w _ Hw).
  assert (IH' := IH (λ k Hk, Hl k ltac:(rewrite fmap_app; set_solver))).
  destruct (first_drain_error l) as [e|]; simpl; [by apply failing_stop_app|].
  destruct r as [x|].
  - by exists l, i, w, x, [].
  - intros ir [Hin|Hin%list_elem_of_singleton]%elem_of_app; [by apply IH'|by subst].
Qed.

Lemma record_opt_keeps (f : failureSet) (e : option err) (e0 : err) :
  fs_err f = Some e0 → fs_err (record_opt e f) = Some e0.
Proof. intros Hf. destruct e; simpl; [by rewrite Hf|done]. Qed.

Lemma record_opt_None (f : failureSet) (e : option err) :
  fs_err (record_opt e f) = None ↔ fs_err f = None ∧ e = None.
Proof. destruct e; simpl; [destruct (fs_err f)|]; naive_solver. Qed.

Lemma record_opt_Some (f : failureSet) (e : option err) (e0 : err) :
  fs_err (record_opt e f) = Some e0 → fs_err f = Some e0 ∨ e = Some e0.
Proof. destruct e; simpl; [destruct (fs_err f) eqn:?|]; naive_solver. Qed.

Lemma record_opt_fired (f : failureSet) (e : option err) :
  fired f = bool_decide (is_Some (fs_err f)) →
  fired (record_opt e f) = bool_decide (is_Some (fs_err (record_opt e f))).
Proof.
  intros Hf. destruct e; simpl; [|done]. destruct (fs_err f); symmetry; by apply bool_decide_eq_true.
Qed.

Lemma all_returned_spec (s : state) :
  all_returned s = true ↔ ∀ i, (i < length workers)%nat → is_Some (outcomes s !! i).
Proof.
  unfold all_returned. rewrite forallb_forall. split.
  - intros Hall i Hi. specialize (Hall i). rewrite in_seq in Hall.
    eapply bool_decide_unpack, Is_true_true_2, Hall. lia.
  - intros Hall i Hi%in_seq. apply bool_decide_eq_true, Hall. lia.
Qed.

Lemma returns_keeps (i : nat) (w : Worker) (o : outcome) (s : state) :
  outcomes s !! i = None →
  (all_returned s = true → all_returned (returns i w o s) = true)
  ∧ (∀ e, charged s e → charged (returns i w o s) e).
Proof.
  intros Hi. split.
  - rewrite !all_returned_spec. intros Hall j Hj. destruct (Hall j Hj) as [oj Hoj].
    exists oj. simpl. rewrite lookup_insert_ne; [done|congruence].
  - intros e (j & w' & o' & Hw' & Ho' & He).
    exists j, w', o'. split; [done|]. split; [|done]. simpl. rewrite lookup_insert_ne; [done|congruence].
Qed.

Lemma initial_inv (t : Z) : runner_inv (initial t).
Proof. split; simpl; try done; unfold position; simpl; lia. Qed.

(** The environment leaves the counter alone, and takes nothing back. *)
Record grows (s s' : state) : Prop := {
  grow_pc : pc s' = pc s;
  grow_stops : stops s' = stops s;
  grow_cancelled : cancelled s' = cancelled s;
  grow_now : now s ≤ now s';
  grow_triggered : triggered s = true → triggered s' = true;
  grow_all : all_returned s = true → all_returned s' = true ∧ failures s' = failures s;
  grow_charged : ∀ e, charged s e → charged s' e;
  grow_err : ∀ e, fs_err (failures s) = Some e → fs_err (failures s') = Some e;
}.

Lemma grows_origin (s s' : state) (e : err) : grows s s' → origin s e → origin s' e.
Proof.
  intros Hg [Hc|Hrest]; [left; by apply (grow_charged _ _ Hg)|right].
  by rewrite (grow_stops _ _ Hg).
Qed.

Lemma env_grows (s s' : state) : env_step s s' → grows s s'.
Proof.
  intros [s0|t s0 Ht|i w o s0 Hw Ho].
  - by split; try done; unfold triggered; simpl.
  - by split.
  - destruct (returns_keeps i w o s0 Ho) as [Hall Hch]. split; try done.
    + unfold triggered. simpl. destruct (failure_of w o); simpl; [by rewrite orb_true_r|done].
    + intros Ha. exfalso. apply all_returned_spec with (i := i) in Ha.
      * rewrite Ho in Ha. by apply is_Some_None in Ha.
      * by eapply lookup_lt_Some.
    + intros e He. by apply record_opt_keeps.
Qed.

Lemma env_origin (s s' : state) :
  env_step s s' → runner_inv s →
  ∀ e, fs_err (failures s') = Some e → if recorded s' then origin s' e else charged s' e.
Proof.
  intros He Hi. pose proof (env_grows s s' He) as Hg. pose proof (inv_origin s Hi) as Ho.
  assert (Hr : recorded s' = recorded s) by (unfold recorded; by rewrite (grow_pc _ _ Hg)).
  assert (Hkeep : ∀ e, fs_err (failures s) = Some e → if recorded s' then origin s' e else charged s' e).
  { intros e Hfe. rewrite Hr. specialize (Ho e Hfe). destruct (recorded s).
    - by eapply grows_origin.
    - by apply (grow_charged _ _ Hg). }
  destruct He as [| |i w o s Hw Hi']; try exact Hkeep.
  intros e [Hfe|Hfo%failure_of_fault]%record_opt_Some; [by apply Hkeep|].
  assert (Hc : charged (returns i w o s) e).
  { exists i, w, o. split; [done|]. simpl. by rewrite lookup_insert_eq. }
  destruct (recorded _); [by left|exact Hc].
Qed.

Lemma env_inv (s s' : state) : env_step s s' → runner_inv s → runner_inv s'.
Proof.
  intros He Hi. pose proof (env_origin s s' He Hi) as Horig. revert Hi.
  intros [Hp Hs Hc Hf Hfi Hcl _]. pose proof (env_grows s s' He) as Hg.
  pose proof Hg as [gp gs gc gn gt ga go ge].
  assert (Hw : nothing_wrong s → nothing_wrong s')
    by (intros [H1 H2]; split; [by rewrite gs|by apply ga]).
  split; [| | | | | |exact Horig].
  - unfold position. by rewrite gp.
  - unfold position. by rewrite gs, gp.
  - unfold past_drain. by rewrite gc, gp.
  - destruct He; try done. simpl. by apply record_opt_fired.
  - unfold first_inv in *. rewrite gp, gs. destruct (pc s); [done|..].
    + destruct Hfi as (? & ?). split; [done|by apply gt].
    + destruct Hfi as (? & ? & ?). split; [done|]. split; [by apply gt|done].
    + destruct Hfi as (? & ?). split; [done|by apply gt].
    + destruct Hfi as (? & Hor & ?). split; [eauto|]. split; [|by apply gt].
      intros e Hfe. eapply grows_origin; eauto.
    + destruct Hfi as [Hn Ht]. split; [|by apply gt]. intros Hnone. apply Hw, Hn.
      destruct (fs_err (failures s)) eqn:Hfe; [|done]. by rewrite (ge _ eq_refl) in Hnone.
    + destruct Hfi as (Hfe & Hn & Ht). split; [|eauto]. destruct e as [e|]; [by apply ge|].
      destruct (Hn eq_refl) as [_ Hall]. by rewrite (proj2 (ga Hall)).
  - destruct He as [| |i w o s Hw' Hi]; try done. simpl. intros [Hn Hfo]%record_opt_None j w' o' Hwj.
    destruct (decide (i = j)) as [->|Hij].
    + rewrite lookup_insert_eq. intros [= <-]. congruence.
    + rewrite lookup_insert_ne by done. by apply Hcl.
Qed.

Ltac inv_fields := split; unfold position, past_drain, first_inv, recorded; simpl; try done.

Lemma main_draining_inv (i : nat) (f : option err) (dl : Z) (r : option err) (b : bool) (s s' : state) :
  pc s = Draining i f dl → main r b s = Some s' → runner_inv s → runner_inv s'.
Proof.
  intros Hpc Hm [Hp Hs Hc Hf Hfi Hcl Ho]. unfold main in Hm. rewrite Hpc in Hm.
  unfold position, past_drain, first_inv, recorded in *. rewrite Hpc in *. destruct Hfi as (Hfd & Ht).
  destruct (workers !! i) as [w|] eqn:Hw.
  - pose proof (lookup_lt_Some _ _ _ Hw) as Hlt. pose proof (stoppable_S i w Hw) as HS.
    destruct (HasStop w) eqn:Hst; simplify_eq/=; inv_fields; [eauto|].
    by rewrite HS, app_nil_r.
  - simplify_eq/=. apply lookup_ge_None in Hw. assert (i = length workers) as -> by lia. inv_fields.
Qed.

Lemma main_stopping_inv (i : nat) (f : option err) (dl since : Z) (r : option err) (b : bool)
  (s s' : state) :
  pc s = Stopping i f dl since → main r b s = Some s' → runner_inv s → runner_inv s'.
Proof.
  intros Hpc Hm [Hp Hs Hc Hf Hfi Hcl Ho]. unfold main in Hm. rewrite Hpc in Hm.
  unfold position, past_drain, first_inv, recorded in *. rewrite Hpc in *.
  destruct Hfi as (Hfd & Ht & w & Hw & Hst). rewrite Hw in Hm.
  pose proof (lookup_lt_Some _ _ _ Hw) as Hlt. pose proof (stoppable_S i w Hw) as HS.
  rewrite Hst in HS. simplify_eq/=. inv_fields.
  - by rewrite fmap_app, Hs, HS.
  - split; [|done]. by rewrite (first_drain_error_snoc _ _ w).
Qed.

Lemma stoppable_elem (n i : nat) : i ∈ stoppable n → is_Some (workers !! i).
Proof.
  intros [Hi _]%list_elem_of_filter. by destruct (workers !! i).
Qed.

Lemma stops_spec (s : state) :
  runner_inv s →
  match first_drain_error (stops s) with
  | None => stops_fine (stops s) | Some e => failing_stop (stops s) e
  end.
Proof.
  intros Hi. apply first_drain_error_spec. rewrite (inv_stops s Hi). intros i. apply stoppable_elem.
Qed.

Lemma main_inv (r : option err) (b : bool) (s s' : state) :
  main r b s = Some s' → runner_inv s → runner_inv s'.
Proof.
  intros Hm Hinv. pose proof (stops_spec s Hinv) as Hspec.
  destruct (pc s) as [|i f dl|i f dl since|f dl|f| |e] eqn:Hpc;
    [|by eapply main_draining_inv|by eapply main_stopping_inv| | | |]; unfold main in Hm; rewrite Hpc in Hm;
    [| | | |done];
    destruct Hinv as [Hp Hs Hc Hf Hfi Hcl Ho]; unfold position, past_drain, first_inv, recorded in *;
    rewrite Hpc in *.
  - destruct (triggered s) eqn:Ht; simplify_eq/=. inv_fields. by rewrite Hfi.
  - destruct Hfi as (Hfd & Ht).
    destruct (all_returned s) eqn:Ha, (dl <=? now s), b, f as [e|]; simplify_eq/=;
      inv_fields; (split; [|split; [|done]]); try (intros ? [= <-]); rewrite <- ?Hfd in Hspec;
      first [done | by intros _; split | by right; left | by right; right].
  - destruct Hfi as (Hn & Hor & Ht). simplify_eq/=. inv_fields.
    + by apply record_opt_fired.
    + split; [intros [_ ->]%record_opt_None; by apply Hn|]. unfold triggered in *. simpl.
      destruct f; simpl; [by rewrite orb_true_r|done].
    + intros [Hnone _]%record_opt_None. by apply Hcl.
    + intros e [He|He]%record_opt_Some; [left; by apply Ho|by apply Hor].
  - simplify_eq/=. inv_fields.
Qed.

Lemma reachable_step (s s' : state) : runner_inv s → step s s' → runner_inv s'.
Proof. intros Hi Hst. destruct Hst; [eapply env_inv|eapply main_inv]; eauto. Qed.

Lemma reachable_inv (t : Z) (s : state) : rtc step (initial t) s → runner_inv s.
Proof.
  intros Hr. exact (rtc_invariant step runner_inv reachable_step _ _ Hr (initial_inv t)).
Qed.

(** ** Termination *)

(** What [runWorkers] has left to do. *)
Definition measure (s : state) : nat :=
  match pc s with
  | Waiting => 2 * length workers + 5
  | Draining i _ _ => 2 * (length workers - i) + 4
  | Stopping i _ _ _ => 2 * (length workers - i) + 3
  | Grouped _ _ => 3
  | Recording _ => 2
  | Reading => 1
  | Returned _ => 0
  end.

Lemma env_measure (s s' : state) : env_step s s' → measure s' = measure s.
Proof. by intros []. Qed.

Lemma main_measure (r : option err) (b : bool) (s s' : state) :
  main r b s = Some s' → (measure s' < measure s)%nat.
Proof.
  unfold measure, main.
  destruct (pc s) as [|i f dl|i f dl since|f dl|f| |e]; intros Hm; try done; try (simplify_eq/=; lia).
  - destruct (triggered s); simplify_eq/=. lia.
  - destruct (workers !! i) as [w|] eqn:Hw; [|simplify_eq/=; lia].
    pose proof (lookup_lt_Some _ _ _ Hw). destruct (HasStop w); simplify_eq/=; lia.
  - destruct (workers !! i) as [w|] eqn:Hw; [|done].
    pose proof (lookup_lt_Some _ _ _ Hw). simplify_eq/=. lia.
  - destruct (all_returned s), (dl <=? now s), b; simplify_eq/=; lia.
Qed.

Lemma steps_bounded (n : nat) (s s' : state) : steps n s s' → (n ≤ measure s)%nat.
Proof.
  induction 1 as [s|n s s1 s' He _ IH|n r b s s1 s' Hm _ IH]; [lia| |].
  - by rewrite <- (env_measure s s1 He).
  - pose proof (main_measure r b s s1 Hm). lia.
Qed.

Lemma main_keeps (r : option err) (b : bool) (s s' : state) :
  main r b s = Some s' → outcomes s' = outcomes s ∧ now s' = now s ∧ signalled s' = signalled s.
Proof.
  unfold main. destruct (pc s) as [|i f dl|i f dl since|f dl|f| |e]; intros Hm; repeat case_match;
    by simplify_eq/=.
Qed.

Lemma inv_triggered (s : state) : runner_inv s → pc s ≠ Waiting → triggered s = true.
Proof.
  intros [_ _ _ _ Hfi _ _]. unfold first_inv in Hfi. destruct (pc s); by destruct_and?.
Qed.

Lemma step_triggered (s s' : state) :
  runner_inv s → step s s' → triggered s = true → triggered s' = true.
Proof.
  intros Hi Hst Ht. destruct Hst as [s s' He|r b s s' Hm].
  - by apply (grow_triggered _ _ (env_grows _ _ He)).
  - apply inv_triggered; [by eapply main_inv|]. intros Hp. unfold main in Hm.
    by repeat case_match; simplify_eq/=.
Qed.

(** ** Time *)

(** How long the [Stop] of a row may outlive the context it was given: not at all when
    it watches nothing else, the pool's the seconds its release takes. *)
Context (over : nat → Z).

(** The last moment of a [Stop] called at [since] under the deadline of the drain. *)
Definition stop_by (i : nat) (dl since : Z) : Z := Z.max since dl + over i.

(** Where the clock can go while [runWorkers] stays where it is.  Nothing hurries it
    before a shutdown or after its end; its own statements take no time; a [Stop] takes
    what it likes until its context has ended, and what it outlives it by; the last
    [select] leaves at the deadline, or as soon as every worker has returned. *)
Definition may_wait (s : state) (t : Z) : Prop :=
  match pc s with
  | Waiting => triggered s = false
  | Stopping i _ dl since => t ≤ stop_by i dl since
  | Grouped _ dl => all_returned s = false ∧ t ≤ dl
  | Returned _ => True
  | Draining _ _ _ | Recording _ | Reading => False
  end.

(** The runs in which the clock keeps to that. *)
Inductive tstep : state → state → Prop :=
  | tstep_env s s' : env_step s s' → now s' = now s ∨ may_wait s (now s') → tstep s s'
  | tstep_main r b s s' : main r b s = Some s' → tstep s s'.

Lemma tstep_step (s s' : state) : tstep s s' → step s s'.
Proof. intros []; [by apply step_env|by eapply step_main]. Qed.

Lemma tsteps_steps (s s' : state) : rtc tstep s s' → rtc step s s'.
Proof. intros Hr. eapply rtc_subrel; [|exact Hr]. apply tstep_step. Qed.

Definition overrun (l : list nat) : Z := foldr (λ i z, over i + z) 0 l.

Lemma overrun_app (l l' : list nat) : overrun (l ++ l') = overrun l + overrun l'.
Proof. unfold overrun. induction l as [|i l IH]; simpl; lia. Qed.

(** The moment by which a shutdown that began at [t] is past the rows before [n]. *)
Definition done_by (t : Z) (n : nat) : Z := t + Z.max 0 grace + overrun (stoppable n).

(** The deadline of the drain is set once, when it starts. *)
Record timed_inv (t : Z) (s : state) : Prop := {
  ti_runner : runner_inv s;
  ti_triggered : triggered s = true;
  ti_pc : match pc s with
          | Waiting => now s = t
          | Draining i _ dl => dl = t + grace ∧ now s ≤ done_by t i
          | Stopping i _ dl since =>
              dl = t + grace ∧ since ≤ done_by t i ∧ now s ≤ stop_by i dl since
          | Grouped _ dl => dl = t + grace ∧ now s ≤ done_by t (length workers)
          | Recording _ | Reading => now s ≤ done_by t (length workers)
          | Returned _ => True
          end;
}.

Section bounds.
Hypothesis over_nonneg : ∀ i, 0 ≤ over i.

Lemma overrun_nonneg (l : list nat) : 0 ≤ overrun l.
Proof using over_nonneg.
  unfold overrun. induction l as [|i l IH]; simpl; [lia|]. pose proof (over_nonneg i). lia.
Qed.

Lemma done_by_S (t : Z) (i : nat) (w : Worker) :
  workers !! i = Some w → done_by t (S i) = done_by t i + (if HasStop w then over i else 0).
Proof using Type.
  intros Hw. unfold done_by. rewrite (stoppable_S i w Hw), overrun_app.
  unfold overrun. destruct (HasStop w); simpl; lia.
Qed.

Lemma done_by_start (t : Z) (i : nat) : t ≤ done_by t i ∧ t + grace ≤ done_by t i.
Proof using over_nonneg. unfold done_by. pose proof (overrun_nonneg (stoppable i)). lia. Qed.

Lemma main_timed (t : Z) (r : option err) (b : bool) (s s' : state) :
  main r b s = Some s' → timed_inv t s → timed_inv t s'.
Proof using over_nonneg.
  intros Hm [Hi Ht Hpc].
  assert (Hi' : runner_inv s') by (by eapply main_inv).
  assert (Ht' : triggered s' = true) by (eapply step_triggered; [exact Hi|by eapply step_main|done]).
  split; [done..|]. clear Hi' Ht'. pose proof (inv_position s Hi) as Hpos.
  pose proof (inv_first s Hi) as Hf. unfold main in Hm. unfold position in Hpos. unfold first_inv in Hf.
  destruct (pc s) as [|i f dl|i f dl since|f dl|f| |e]; [..|done].
  - destruct (triggered s); simplify_eq/=. split; [done|]. apply done_by_start.
  - destruct Hpc as [-> Hn]. destruct (workers !! i) as [w|] eqn:Hw.
    + pose proof (done_by_S t i w Hw) as HS. pose proof (over_nonneg i).
      destruct (HasStop w); simplify_eq/=; unfold stop_by; [|split; lia].
      split; [done|]. split; lia.
    + simplify_eq/=. apply lookup_ge_None in Hw. assert (i = length workers) as -> by lia. done.
  - destruct Hpc as (-> & Hsi & Hn). destruct (workers !! i) as [w|] eqn:Hw; [|done]. simplify_eq/=. split; [done|].
    rewrite (done_by_S t i w Hw). pose proof (done_by_start t i). unfold stop_by in Hn.
    destruct Hf as (_ & _ & w' & Hw' & Hst). simplify_eq. rewrite Hst. lia.
  - destruct Hpc as [-> Hn]. by repeat case_match; simplify_eq/=.
  - by simplify_eq/=.
  - by simplify_eq/=.
Qed.

Lemma tstep_timed (t : Z) (s s' : state) : tstep s s' → timed_inv t s → timed_inv t s'.
Proof using over_nonneg.
  intros [s1 s1' He Hw|r b s1 s1' Hm] Hti; [|by eapply main_timed].
  destruct Hti as [Hi Ht Hpc]. pose proof (env_grows _ _ He) as Hg.
  split; [by eapply env_inv|by apply (grow_triggered _ _ Hg)|].
  rewrite (grow_pc _ _ Hg). unfold may_wait in Hw.
  destruct (pc s1) as [|i f dl|i f dl since|f dl|f| |e]; try done;
    destruct Hw as [Hw|Hw]; rewrite ?Hw; try done; try congruence.
  - by destruct Hpc as (? & ? & _).
  - destruct Hpc as [-> Hn]. split; [done|]. destruct Hw as [_ Hw].
    pose proof (done_by_start t (length workers)). lia.
Qed.

Lemma tsteps_timed (t : Z) (s s' : state) : rtc tstep s s' → timed_inv t s → timed_inv t s'.
Proof using over_nonneg.
  intros Hr Hi. refine (rtc_invariant tstep (timed_inv t) _ _ _ Hr Hi).
  intros s1 s2 H1 H2. by eapply tstep_timed.
Qed.

Lemma done_by_mono (t : Z) (i n : nat) : (i ≤ n)%nat → done_by t i ≤ done_by t n.
Proof using over_nonneg.
  intros Hin. unfold done_by, stoppable. replace n with (i + (n - i))%nat by lia.
  rewrite seq_app, filter_app, overrun_app. pose proof (overrun_nonneg (filter
    (λ i, HasStop <$> workers !! i = Some true) (seq (0 + i) (n - i)))). lia.
Qed.

Lemma timed_bound (t : Z) (s : state) :
  timed_inv t s → (∀ e, pc s ≠ Returned e) → now s ≤ done_by t (length workers).
Proof using over_nonneg.
  intros [Hi _ Hpc] Hne. pose proof (inv_position s Hi) as Hpos. pose proof (inv_first s Hi) as Hf.
  unfold position in Hpos. unfold first_inv in Hf. pose proof (done_by_start t (length workers)) as Hs.
  destruct (pc s) as [|i f dl|i f dl since|f dl|f| |e]; [lia|..|by destruct (Hne e)].
  - pose proof (done_by_mono t i _ Hpos). lia.
  - destruct Hpc as (-> & Hsi & Hn). destruct Hf as (_ & _ & w & Hw & Hst).
    pose proof (done_by_mono t (S i) (length workers) (lookup_lt_Some _ _ _ Hw)) as Hm.
    rewrite (done_by_S t i w Hw), Hst in Hm. pose proof (done_by_start t i). unfold stop_by in Hn. lia.
  - lia.
  - done.
  - done.
Qed.
End bounds.

(** The shutdown when no worker ever returns: [answers] says how long the work of each
    [Stop] takes and what it answers, and a [Stop] whose context ends first returns
    then; the last [select] sits the deadline out. *)
Definition leaves (answers : nat → Z * option err) (s : state) : Z :=
  match pc s with
  | Stopping i _ dl since =>
      Z.max (now s) (Z.min (since + (answers i).1) (stop_by i dl since))
  | Grouped _ dl => if all_returned s then now s else Z.max (now s) dl
  | _ => now s
  end.

Fixpoint drive (answers : nat → Z * option err) (fuel : nat) (s : state) : state :=
  match fuel with
  | O => s
  | S fuel =>
      let s := at_time (leaves answers s) s in
      match main (answers (position s)).2 true s with
      | Some s => drive answers fuel s
      | None => s
      end
  end.

Lemma leaves_tstep (answers : nat → Z * option err) (s : state) :
  tstep s (at_time (leaves answers s) s).
Proof.
  apply tstep_env; [apply env_tick|]; unfold leaves, may_wait; simpl;
    destruct (pc s) as [|i f dl|i f dl since|f dl|f| |e]; try lia;
    repeat case_match; auto; lia.
Qed.

(** Whatever has been triggered can go on, at once or at a moment the clock can reach. *)
Lemma main_ready (answers : nat → Z * option err) (s : state) :
  runner_inv s → triggered s = true → (∀ e, pc s ≠ Returned e) →
  ∀ r, is_Some (main r true (at_time (leaves answers s) s)).
Proof.
  intros Hi Ht Hne r. pose proof (inv_first s Hi) as Hf. unfold first_inv in Hf.
  unfold main, leaves. simpl. change (triggered (at_time _ s)) with (triggered s).
  change (all_returned (at_time _ s)) with (all_returned s).
  destruct (pc s) as [|i f dl|i f dl since|f dl|f| |e]; [by rewrite Ht| | | | | |by destruct (Hne e)];
    try by eauto.
  - destruct (workers !! i) as [w|]; [|by eauto]. by destruct (HasStop w); eauto.
  - destruct Hf as (_ & _ & w & -> & _). by eauto.
  - destruct (all_returned s); simpl; [by eauto|].
    assert ((dl <=? Z.max (now s) dl) = true) as -> by (zbool; lia). by eauto.
Qed.

Lemma drive_returns (answers : nat → Z * option err) (fuel : nat) (s : state) :
  runner_inv s → triggered s = true → (measure s < fuel)%nat →
  let s' := drive answers fuel s in
  rtc tstep s s' ∧ (∃ e, pc s' = Returned e) ∧ outcomes s' = outcomes s.
Proof.
  revert s. induction fuel as [|fuel IH]; intros s Hi Ht Hm; [lia|]. simpl.
  set (s0 := at_time (leaves answers s) s).
  assert (Hs0 : tstep s s0) by apply leaves_tstep.
  assert (Hi0 : runner_inv s0) by (refine (reachable_step _ _ Hi (tstep_step _ _ Hs0))).
  destruct (main (answers (position s0)).2 true s0) as [s1|] eqn:Hs.
  - pose proof (main_measure _ _ _ _ Hs) as Hlt. destruct (main_keeps _ _ _ _ Hs) as (Ho & _ & _).
    change (measure s0) with (measure s) in Hlt.
    assert (Hi1 : runner_inv s1) by (by eapply main_inv).
    assert (Ht1 : triggered s1 = true).
    { eapply step_triggered; [exact Hi0|by eapply step_main|done]. }
    destruct (IH s1 Hi1 Ht1 ltac:(lia)) as (Hr & He & Ho').
    split; [eapply rtc_l; [exact Hs0|]; eapply rtc_l; [by eapply tstep_main|exact Hr]|].
    split; [exact He|]. by rewrite Ho', Ho.
  - split; [by apply rtc_once|]. split; [|done]. change (pc s0) with (pc s).
    destruct (pc s) as [| | | | | |e] eqn:Hp; [..|by eauto];
      (destruct (main_ready answers s Hi Ht ltac:(by rewrite Hp) (answers (position s0)).2) as [? Hx];
       fold s0 in Hx; by rewrite Hs in Hx).
Qed.

Lemma step_keeps_error (s s' : state) (e : err) :
  runner_inv s → step s s' → fs_err (failures s) = Some e → fs_err (failures s') = Some e.
Proof.
  intros Hi Hst He. destruct Hst as [s s' Hg|r b s s' Hm].
  - by apply (grow_err _ _ (env_grows _ _ Hg)).
  - unfold main in Hm. destruct (pc s); repeat case_match; simplify_eq/=; try done.
    by apply record_opt_keeps.
Qed.

Lemma run_keeps_error (t : Z) (s s' : state) (e : err) :
  rtc step (initial t) s → rtc step s s' →
  fs_err (failures s) = Some e → fs_err (failures s') = Some e.
Proof.
  intros Hr Hr' He. revert Hr. induction Hr' as [|s s1 s' Hst _ IH]; intros Hr; [done|].
  apply IH; [|by eapply rtc_r]. eapply step_keeps_error; eauto using reachable_inv.
Qed.

(** ** Properties *)

(** [called] names the rows before [n] that have a [Stop], each once. *)
Lemma called_in_order (s : state) :
  runner_inv s →
  ∃ n, (n ≤ length workers)%nat ∧ called s = stoppable n
       ∧ (cancelled s = true → n = length workers).
Proof.
  intros Hi. pose proof (inv_position s Hi) as Hp. pose proof (inv_stops s Hi) as Hs.
  pose proof (inv_cancelled s Hi) as Hc. pose proof (inv_first s Hi) as Hf.
  unfold called, position, past_drain, first_inv in *. rewrite Hs.
  destruct (pc s) as [|i f dl|i f dl since|f dl|f| |e]; rewrite ?app_nil_r.
  3: { destruct Hf as (_ & _ & w & Hw & Hst). exists (S i).
    split; [by eapply lookup_lt_Some|]. rewrite (stoppable_S i w Hw), Hst. split; [done|congruence]. }
  all: eexists; split; [exact Hp|]; split; [done|congruence].
Qed.

(** Table order is drain order.  Along every run of the workers, the signal, the clock
    and [runWorkers], the [Stop]s called so far are an initial part of the rows that have
    one, in table order and each once; none is called before a signal or a failure; and
    the context under the workers is cancelled only when every [Stop] has been called and
    has returned. *)
Lemma drain_in_order (t : Z) (s : state) :
  rtc step (initial t) s →
  (∃ n, (n ≤ length workers)%nat ∧ called s = stoppable n)
  ∧ (called s ≠ [] → triggered s = true)
  ∧ (cancelled s = true → (stops s).*1 = stoppable (length workers)).
Proof.
  intros Hr. pose proof (reachable_inv t s Hr) as Hi.
  split; [destruct (called_in_order s Hi) as (n & ? & ? & _); by exists n|]. split.
  - intros Hs. apply inv_triggered; [done|]. intros Hp. pose proof (inv_first s Hi) as Hf.
    unfold first_inv in Hf. unfold called in Hs. rewrite Hp in *. by rewrite Hf in Hs.
  - rewrite (inv_cancelled s Hi), (inv_stops s Hi). unfold past_drain, position. by destruct (pc s).
Qed.

(** C26: what the process exits with.  [nil] is returned only when every worker has returned,
    with no error or a cancellation, and every [Stop] answered [nil].  An error is what a
    worker that returned is charged with - its own error or its panic under its name -,
    or the error of the first [Stop] in table order that failed, or the timeout when none
    did; and once an error is recorded it is the one returned, whatever follows. *)
Theorem exit_code (t : Z) (s : state) (e : option err) :
  rtc step (initial t) s → pc s = Returned e →
  match e with
  | None =>
      (∀ i w, workers !! i = Some w → ∃ o, outcomes s !! i = Some o ∧ clean o)
      ∧ (∀ i r, (i, r) ∈ stops s → r = None)
  | Some e =>
      (∃ i w o, workers !! i = Some w ∧ outcomes s !! i = Some o ∧ fault w o e)
      ∨ failing_stop (stops s) e
      ∨ (e = ENew ("shutdown timed out after " +:+ Duration_String grace)%string
         ∧ ∀ i r, (i, r) ∈ stops s → r = None)
  end
  ∧ ∀ s0 e0, rtc step (initial t) s0 → rtc step s0 s → fs_err (failures s0) = Some e0 → e = Some e0.
Proof.
  intros Hr Hp. pose proof (reachable_inv t s Hr) as Hi. pose proof (inv_first s Hi) as Hf.
  pose proof (stops_spec s Hi) as Hspec. unfold first_inv in Hf. rewrite Hp in Hf.
  destruct Hf as (He & Hn & _). split.
  - destruct e as [e|].
    + pose proof (inv_origin s Hi e He) as Ho. unfold recorded in Ho. rewrite Hp in Ho.
      destruct Ho as [?|[?|[? Hfine]]]; [by left|by right; left|right; right].
      split; [done|]. intros i r Hir. by apply (Hfine (i, r)).
    + destruct (Hn eq_refl) as [Hd Ha]. rewrite Hd in Hspec. split.
      * intros i w Hw. rewrite all_returned_spec in Ha.
        destruct (Ha i (lookup_lt_Some _ _ _ Hw)) as [o Ho]. exists o. split; [done|].
        by apply (failure_of_clean w), (inv_clean s Hi He i).
      * intros i r Hir. by apply (Hspec (i, r)).
  - intros s0 e0 H0 H1 He0. rewrite <- He. by eapply run_keeps_error.
Qed.

(** C19: shutdown always ends.  No run holds more than [2 * length workers + 5] statements
    of [runWorkers].  Along every run in which a [Stop] returns no later than its context
    or by what it outlives it, every statement of a shutdown that begins at some moment
    comes no later than the grace, and what the [Stop]s outlive their contexts, after
    that moment: the grace is one, shared by all of them.  And nothing blocks for good: from
    every reachable state in which a signal has arrived or a worker has failed, such a
    run goes on to where [runWorkers] has returned, whatever the [Stop]s answer and
    however long their work takes, even if no worker ever returns. *)
Theorem shutdown_terminates (t : Z) (s : state) :
  (∀ i, 0 ≤ over i) → rtc step (initial t) s →
  (∀ n s', steps n s s' → n ≤ 2 * length workers + 5)%nat
  ∧ (pc s = Waiting → triggered s = true →
     ∀ s', rtc tstep s s' →
       (∃ e, pc s' = Returned e)
       ∨ now s' ≤ now s + Z.max 0 grace + overrun (stoppable (length workers)))
  ∧ (triggered s = true → ∀ answers,
       let s' := drive answers (2 * length workers + 6) s in
       rtc tstep s s' ∧ (∃ e, pc s' = Returned e) ∧ outcomes s' = outcomes s).
Proof.
  intros Hover Hr. pose proof (reachable_inv t s Hr) as Hi.
  assert (Hm : (measure s ≤ 2 * length workers + 5)%nat)
    by (unfold measure; destruct (pc s); lia).
  split; [intros n s' Hs; pose proof (steps_bounded n s s' Hs); lia|]. split.
  - intros Hp Ht s' Hs'. assert (Hti : timed_inv (now s) s) by (split; [done..|by rewrite Hp]).
    pose proof (timed_bound Hover _ _ (tsteps_timed Hover _ _ _ Hs' Hti)) as Hb.
    destruct (pc s'); try (right; apply Hb; intros ?; done). left. by eauto.
  - intros Ht answers. apply drive_returns; [done..|lia].
Qed.
End runner.

(** ** A worker that never returns *)

Definition wedged_table : list Worker :=
  [mkWorker "readiness" true; mkWorker "stuck" false; mkWorker "api" true].

(** Signalled at once; the readiness row stops in a moment, the server's drain is still
    busy at the deadline and leaves a second later, the second row ignores its context. *)
Definition wedged_start : state := mkState Waiting newFailureSet ∅ [] true false 0.

Definition wedged_answers (i : nat) : Z * option err :=
  if decide (i = 2)%nat then (60 * second, Some (ESentinel CtxDeadlineExceeded "context deadline exceeded"))
  else (1, None).

Definition wedged_over (i : nat) : Z := if decide (i = 2)%nat then second else 0.

Definition wedged_end : state :=
  drive wedged_table (15 * second) wedged_over wedged_answers 12 wedged_start.

Lemma wedged_reachable : rtc (step wedged_table (15 * second)) (initial 0) wedged_start.
Proof. apply rtc_once, step_env. apply (env_signal wedged_table (initial 0)). Qed.

Lemma wedged_end_reachable : rtc (step wedged_table (15 * second)) (initial 0) wedged_end.
Proof.
  etransitivity; [apply wedged_reachable|]. apply (tsteps_steps _ _ wedged_over).
  apply drive_returns; [|reflexivity|vm_compute; lia]. eapply reachable_inv, wedged_reachable.
Qed.

Lemma shutdown_terminates_witness :
  rtc (tstep wedged_table (15 * second) wedged_over) wedged_start wedged_end
  ∧ pc wedged_end = Returned (Some (EWrap "drain api: "
              (ESentinel CtxDeadlineExceeded "context deadline exceeded") ""))
  ∧ now wedged_end = 16 * second
  ∧ 0 + Z.max 0 (15 * second) + overrun wedged_over (stoppable wedged_table 3) = 16 * second.
Proof.
  assert (Hover : ∀ i, 0 ≤ wedged_over i) by (intros i; unfold wedged_over; by case_decide).
  destruct (shutdown_terminates wedged_table (15 * second) wedged_over 0 wedged_start Hover wedged_reachable)
    as (_ & _ & Hd).
  destruct (Hd eq_refl wedged_answers) as (Hr & _). split; [exact Hr|].
  split; [vm_compute; reflexivity|]. split; vm_compute; reflexivity.
Defined.

Lemma drain_in_order_witness :
  (∃ n, (n ≤ 3)%nat ∧ called wedged_end = stoppable wedged_table n)
  ∧ called wedged_end = [0; 2]%nat.
Proof.
  split; [|vm_compute; reflexivity].
  apply (drain_in_order wedged_table (15 * second) 0), wedged_end_reachable.
Defined.

Lemma exit_code_witness :
  failing_stop wedged_table (stops wedged_end)
    (EWrap "drain api: " (ESentinel CtxDeadlineExceeded "context deadline exceeded") "").
Proof.
  destruct (exit_code wedged_table (15 * second) 0 wedged_end
    (Some (EWrap "drain api: " (ESentinel CtxDeadlineExceeded "context deadline exceeded") "")))
    as [[(i & w & o & _ & Ho & _)|[Hf|[He _]]] _];
    [apply wedged_end_reachable|vm_compute; reflexivity| |exact Hf|discriminate He].
  vm_compute in Ho. discriminate Ho.
Defined.
