(* ===== verification/App.v ===== *)
(** * The composition root (src/internal/app)

    [New] is the build table run over a record of what has been built; [workers] is the
    drain table read off that record.  What the constructors of the outside answer - the
    tracer, the database pool, the transcoder, the metric registry - is the record
    [Outside]. *)
From stdpp Require Import options.
From S2P Require Import Prelude GoStrings Apperr ConfigBase ConfigSections Runner.
From S2P Require Outbox ConfigLoad Logging.
Open Scope Z_scope.

(** ** Modes *)

Abbreviation Mode := string.
Definition ModeServe : Mode := "serve".
Definition ModeWorker : Mode := "worker".
Definition ModeAll : Mode := "all".

Definition Runs (m : Mode) : bool := bool_decide (m = ModeServe) || bool_decide (m = ModeAll).
Definition Consumes (m : Mode) : bool := bool_decide (m = ModeWorker) || bool_decide (m = ModeAll).

(** ** What is built *)

Inductive repository : Type := MemoryRepository | PostgresRepository.
Inductive keyStore : Type := MemoryKeys | PostgresKeys.

(** A listener: its address and its four timeouts. *)
Record Server : Type := mkServer {
  Srv_Addr : string;
  ReadHeaderTimeout : Z;
  ReadTimeout : Z;
  WriteTimeout : Z;
  IdleTimeout : Z;
}.

Definition newHTTPServer (h : HTTP) : Server :=
  mkServer (H_Addr h) (H_ReadHeaderTimeout h) (H_ReadTimeout h) (H_WriteTimeout h) (H_IdleTimeout h).

Definition adminHTTP (cfg : Config) : HTTP :=
  let h := C_HTTP cfg in
  mkHTTP (A_Addr (C_Admin cfg)) (H_ReadHeaderTimeout h) (H_ReadTimeout h) (H_WriteTimeout h)
    (H_IdleTimeout h) (H_ShutdownGrace h) (H_MaxBodyBytes h) (H_TrustedProxyHops h).

(** The fields of [App] that say what the process is made of; [jobs] stands for the
    pool, the listener and the maintenance loops, which are built together. *)
Record App : Type := mkApp {
  mode : Mode;
  observability : bool;
  tasks : option repository;
  pool : bool;
  keys : option keyStore;
  keysPurge : bool;
  auth : bool;
  limiter : bool;
  inflight : Z;
  apiServer : option Server;
  jobs : option string;
  collectors : list string;
  health : list string;
  adminServer : option Server;
  closers : list string;
}.

Record Outside : Type := mkOutside {
  tracing_New : option err;
  OpenTraced : string → option err;
  NewHandler : option err;
  Register : string → option err;
  Getpid : Z;
  NewString : string;
}.

(** The worker's name in the queue: the instance, the process, eight characters of a uuid. *)
Definition workerID (out : Outside) (instance : string) : string :=
  (instance +:+ "/" +:+ itoa (Getpid out) +:+ "/" +:+ String.substring 0 8 (NewString out))%string.

Section build.
Context (out : Outside).

Definition buildObservability (cfg : Config) (a : App) : result err App :=
  match tracing_New out with
  | Some e => Err e
  | None => Ok (mkApp (mode a) true (tasks a) (pool a) (keys a) (keysPurge a) (auth a) (limiter a)
                  (inflight a) (apiServer a) (jobs a) (collectors a) (health a) (adminServer a) (closers a))
  end.

(** The role the database pool connects under. *)
Definition pool_role (m : Mode) : string := if decide (m = ModeWorker) then "worker" else "api".

Definition newRepository `{GoText} (cfg : Config) (a : App)
  : result err (repository * bool * list string) :=
  if decide (Sto_Backend (C_Storage cfg) = BackendMemory) then
    Ok (MemoryRepository, pool a, closers a)
  else if decide (Sto_Backend (C_Storage cfg) = BackendPostgres) then
    match OpenTraced out (pool_role (mode a)) with
    | Some e => Err e
    | None => Ok (PostgresRepository, true, closers a ++ ["pool"])
    end
  else Err (ENew ("unknown storage backend " +:+ Quote (Sto_Backend (C_Storage cfg)))%string).

Definition buildStorage `{GoText} (cfg : Config) (a : App) : result err App :=
  match newRepository cfg a with
  | Err e => Err e
  | Ok (r, p, c) =>
      Ok (mkApp (mode a) (observability a) (Some r) p (keys a) (keysPurge a) (auth a) (limiter a)
            (inflight a) (apiServer a) (jobs a) (collectors a) (health a) (adminServer a) c)
  end.

Definition newIdempotency (cfg : Config) (a : App) : App :=
  if I_Enabled (C_Idempotency cfg) then
    mkApp (mode a) (observability a) (tasks a) (pool a)
      (Some (if pool a then PostgresKeys else MemoryKeys)) true (auth a) (limiter a)
      (inflight a) (apiServer a) (jobs a) (collectors a) (health a) (adminServer a) (closers a)
  else a.

Definition newGuards (cfg : Config) (a : App) : App :=
  mkApp (mode a) (observability a) (tasks a) (pool a) (keys a) (keysPurge a) true
    (if RL_Enabled (C_RateLimit cfg) then true else limiter a)
    (inflight a) (apiServer a) (jobs a) (collectors a) (health a) (adminServer a) (closers a).

Definition buildGuards (cfg : Config) (a : App) : result err App :=
  Ok (newGuards cfg (newIdempotency cfg a)).

Definition inflightLimit (cfg : Config) : Z :=
  if RL_Enabled (C_RateLimit cfg) then RL_GlobalInflight (C_RateLimit cfg) else 0.

Definition newAPIServer (cfg : Config) : result err Server :=
  match NewHandler out with Some e => Err e | None => Ok (newHTTPServer (C_HTTP cfg)) end.

Definition buildAPI (cfg : Config) (a : App) : result err App :=
  if Runs (mode a) then
    match newAPIServer cfg with
    | Err e => Err e
    | Ok srv =>
        Ok (mkApp (mode a) (observability a) (tasks a) (pool a) (keys a) (keysPurge a) (auth a)
              (limiter a) (inflightLimit cfg) (Some srv) (jobs a) (collectors a) (health a)
              (adminServer a) (closers a))
    end
  else Ok a.

(** [NewPool]: a store, a handler and a worker's name are required. *)
Definition NewPool (store : bool) (handlers : list string) (worker : string) : result err string :=
  if negb store then Err (ENew "queue: a store is required")
  else if decide (handlers = []) then Err (ENew "queue: at least one handler is required")
  else if decide (worker = "") then Err (ENew "queue: a worker id is required")
  else Ok worker.

Definition newQueue (cfg : Config) (a : App) : result err App :=
  match NewPool true [Outbox.JobKind] (workerID out (Svc_Instance (C_Service cfg))) with
  | Err e => Err e
  | Ok w =>
      Ok (mkApp (mode a) (observability a) (tasks a) (pool a) (keys a) (keysPurge a) (auth a)
            (limiter a) (inflight a) (apiServer a) (Some w) (collectors a) (health a)
            (adminServer a) (closers a))
  end.

Definition buildQueue (cfg : Config) (a : App) : result err App :=
  if negb (Consumes (mode a)) || negb (pool a) then Ok a else newQueue cfg a.

Definition add_collector (c : string) (a : App) : App :=
  mkApp (mode a) (observability a) (tasks a) (pool a) (keys a) (keysPurge a) (auth a)
    (limiter a) (inflight a) (apiServer a) (jobs a) (collectors a ++ [c]) (health a)
    (adminServer a) (closers a).

Definition register_one (c : string) (a : App) : result err App :=
  match Register out c with
  | Some e => Err (EWrap ("register " +:+ c +:+ " collector: ")%string e "")
  | None => Ok (add_collector c a)
  end.

Definition registerCollectors (cfg : Config) (a : App) : result err App :=
  if negb (pool a) then Ok a
  else a ← register_one "pool" a; if Consumes (mode a) then register_one "queue" a else Ok a.

Definition readinessChecks (a : App) : list string := if pool a then ["postgres"] else [].

Definition buildAdmin (cfg : Config) (a : App) : result err App :=
  Ok (mkApp (mode a) (observability a) (tasks a) (pool a) (keys a) (keysPurge a) (auth a)
        (limiter a) (inflight a) (apiServer a) (jobs a) (collectors a) (readinessChecks a)
        (Some (newHTTPServer (adminHTTP cfg))) (closers a)).

(** ** [New] *)

Definition build_table `{GoText} : list (string * (Config → App → result err App)) :=
  [("observability", buildObservability); ("storage", buildStorage); ("guards", buildGuards);
   ("api", buildAPI); ("queue", buildQueue); ("collectors", registerCollectors);
   ("admin", buildAdmin)].

Fixpoint run_steps (cfg : Config) (steps : list (string * (Config → App → result err App)))
  (a : App) : result err App :=
  match steps with
  | [] => Ok a
  | (what, fn) :: steps =>
      match fn cfg a with
      | Err e => Err (EWrap ("app: build " +:+ what +:+ ": ")%string e "")
      | Ok a => run_steps cfg steps a
      end
  end.

Record Options : Type := mkOptions { o_Mode : Mode; o_Config : option Config; o_Logger : bool }.

Definition validate `{GoText} (o : Options) : result err Config :=
  match o_Config o with
  | None => Err (ENew "app: config is required")
  | Some cfg =>
      if negb (o_Logger o) then Err (ENew "app: logger is required")
      else if decide (o_Mode o ∈ [ModeServe; ModeWorker; ModeAll]) then Ok cfg
      else Err (ENew ("app: unknown mode " +:+ Quote (o_Mode o))%string)
  end.

Definition empty_app (m : Mode) : App :=
  mkApp m false None false None false false false 0 None None [] [] None [].

Definition New `{GoText} (o : Options) : result err App :=
  match validate o with
  | Err e => Err e
  | Ok cfg => run_steps cfg build_table (empty_app (o_Mode o))
  end.
End build.

(** ** The drain table *)

(** [serveWorker]: the row of a listener has a [Stop]. *)
Definition serveWorker (name : string) : Worker := mkWorker name true.

Definition opt {A} (b : bool) (ws : list A) : list A := if b then ws else [].

Definition workers (a : App) : list Worker :=
  let api := bool_decide (is_Some (apiServer a)) in
  let queue := bool_decide (is_Some (jobs a)) in
  [mkWorker "readiness" true]
  ++ opt api [serveWorker "api"]
  ++ opt queue [mkWorker "queue-listener" false; mkWorker "queue-workers" true;
                mkWorker "queue-maintenance" false]
  ++ opt (keysPurge a) [mkWorker "idempotency-purge" false]
  ++ opt queue [mkWorker "queue-metrics" false]
  ++ opt (limiter a && api) [mkWorker "ratelimit-sweeper" false]
  ++ [mkWorker "config-reloader" false; serveWorker "admin"; mkWorker "tracing" true].

(** [Shutdown] of a listener: what did not finish in time is closed, and reported. *)
Definition serve_stop (name : string) (shutdown : option err) : option err * bool :=
  match shutdown with
  | Some e => (Some (EWrap ("drain " +:+ name +:+ ": ")%string e ""), true)
  | None => (None, false)
  end.

(** [Serve] returns [ErrServerClosed] after a [Shutdown]. *)
Definition serve_run (addr : string) (listen serve : option err) (server_closed : bool) : option err :=
  match listen with
  | Some e => Some (EWrap ("listen on " +:+ addr +:+ ": ")%string e "")
  | None => if server_closed then None else serve
  end.

(** [Close]: every closer, the last opened first, and the errors joined. *)
Definition Close (close : string → option err) (a : App) : list string * list err * App :=
  (reverse (closers a), omap close (reverse (closers a)),
   mkApp (mode a) (observability a) (tasks a) (pool a) (keys a) (keysPurge a) (auth a) (limiter a)
     (inflight a) (apiServer a) (jobs a) (collectors a) (health a) (adminServer a) []).

(** ** The command (src/internal/cli/root.go) *)

(** [errors.Join] of a list that is not empty. *)
Fixpoint join_errors (e : err) (es : list err) : err :=
  match es with
  | [] => EWrap "" e ""
  | e' :: es => EWrap2 e (String (Ascii.ascii_of_nat 10) EmptyString) (join_errors e' es)
  end.

Record booted : Type := mkBooted { b_cfg : Config; b_log : Logging.Handle; b_file : string }.

(** Load, check, and build the logger; the warnings become log lines. *)
Definition boot `{GoText, ConfigLoad.Koanf, ConfigLoad.Decoder} (fs : ConfigLoad.files) (d : Config)
  (o : ConfigLoad.Options) (isTerminal : bool) (version : string) : result err booted :=
  match ConfigLoad.Load fs d o with
  | Err e => Err e
  | Ok res =>
      let cfg := ConfigLoad.r_Config res in
      match Validate cfg with
      | Some e => Err e
      | None =>
          match Logging.New (Logging.mkOptions (Log_Level (C_Logging cfg)) (Log_Format (C_Logging cfg))
                   (Svc_Name (C_Service cfg)) version false) isTerminal with
          | (log, []) => Ok (mkBooted cfg log (ConfigLoad.r_File res))
          | (_, e :: es) => Err (join_errors e es)
          end
      end
  end.

(** [printConfig]: the same loading and checking, then the writer. *)
Definition printConfig `{GoText, ConfigLoad.Koanf, ConfigLoad.Decoder} (fs : ConfigLoad.files)
  (d : Config) (o : ConfigLoad.Options) (write : Config → option err) : option err :=
  match ConfigLoad.Load fs d o with
  | Err e => Some e
  | Ok res =>
      match Validate (ConfigLoad.r_Config res) with
      | Some e => Some e
      | None => write (ConfigLoad.r_Config res)
      end
  end.

(** How far a run command got, and what it returned: the closers run only when there is
    an app, whatever [Run] returned.  [print] is what [printConfig] gave, when asked. *)
Definition runMode `{GoText} (out : Outside) (mode : Mode) (print : option (option err))
  (b : result err booted) (run : App → option err) (close : string → option err)
  : option err * list string :=
  match print, b with
  | Some r, _ => (r, [])
  | None, Err e => (Some e, [])
  | None, Ok b =>
      match New out (mkOptions mode (Some (b_cfg b)) true) with
      | Err e => (Some e, [])
      | Ok a =>
          ((λ e, EWrap (mode +:+ ": ")%string e "") <$> run a, (Close close a).1.1)
      end
  end.
