(* ===== verification/AppProps.v ===== *)
(** * What the composition root guarantees

    What a process is made of in each mode and backend; that nothing but the outside can
    stop a valid configuration from starting; and the order in which it drains. *)
From stdpp Require Import options.
From S2P Require Import Prelude GoStrings Apperr ConfigBase ConfigSections ConfigFacts Runner App.
From S2P Require Outbox ConfigLoad ConfigProps Logging LoggingProps.
Open Scope Z_scope.

Definition on_postgres (cfg : Config) : bool := bool_decide (Sto_Backend (C_Storage cfg) = BackendPostgres).

(** What a configuration and a mode ask for. *)
Record shaped (cfg : Config) (m : Mode) (a : App) : Prop := {
  sh_tasks : tasks a = Some (if on_postgres cfg then PostgresRepository else MemoryRepository);
  sh_pool : pool a = on_postgres cfg;
  sh_keys : keys a = if I_Enabled (C_Idempotency cfg)
                     then Some (if on_postgres cfg then PostgresKeys else MemoryKeys) else None;
  sh_purge : keysPurge a = I_Enabled (C_Idempotency cfg);
  sh_auth : auth a = true;
  sh_limiter : limiter a = RL_Enabled (C_RateLimit cfg);
  sh_inflight : inflight a = if Runs m && RL_Enabled (C_RateLimit cfg)
                             then RL_GlobalInflight (C_RateLimit cfg) else 0;
  sh_api : apiServer a = if Runs m then Some (newHTTPServer (C_HTTP cfg)) else None;
  sh_jobs : is_Some (jobs a) ↔ Consumes m && on_postgres cfg = true;
  sh_collectors : collectors a = if on_postgres cfg
                                 then "pool" :: (if Consumes m then ["queue"] else []) else [];
  sh_health : health a = if on_postgres cfg then ["postgres"] else [];
  sh_admin : adminServer a = Some (newHTTPServer (adminHTTP cfg));
  sh_closers : closers a = if on_postgres cfg then ["pool"] else [];
}.

(** The constructors of the outside that a start depends on. *)
Definition refused (out : Outside) (cfg : Config) (m : Mode) : Prop :=
  is_Some (tracing_New out)
  ∨ (on_postgres cfg = true ∧ is_Some (OpenTraced out (pool_role m)))
  ∨ (Runs m = true ∧ is_Some (NewHandler out))
  ∨ (on_postgres cfg = true ∧ (is_Some (Register out "pool")
       ∨ (Consumes m = true ∧ is_Some (Register out "queue")))).

Lemma workerID_nonempty (out : Outside) (instance : string) : workerID out instance ≠ "".
Proof. unfold workerID. destruct instance; discriminate. Qed.

Definition timed (s : Server) : Prop :=
  0 < ReadHeaderTimeout s ∧ 0 < ReadTimeout s ∧ 0 < WriteTimeout s ∧ 0 < IdleTimeout s.

Lemma newHTTPServer_timed (h : HTTP) : http_ok h → timed (newHTTPServer h).
Proof. intros [_ Ht _ _]. repeat apply Forall_cons in Ht as [? Ht]. done. Qed.

Lemma newQueue_Ok (out : Outside) (cfg : Config) (a : App) :
  newQueue out cfg a
  = Ok (mkApp (mode a) (observability a) (tasks a) (pool a) (keys a) (keysPurge a) (auth a)
          (limiter a) (inflight a) (apiServer a) (Some (workerID out (Svc_Instance (C_Service cfg))))
          (collectors a) (health a) (adminServer a) (closers a)).
Proof.
  unfold newQueue, NewPool. cbn [negb]. destruct (decide (_ = [])); [done|].
  by rewrite decide_False by apply workerID_nonempty.
Qed.

Section start.
Context `{GoText} (out : Outside) (cfg : Config) (m : Mode).

(** What one step of the build makes of the app, in order. *)
Lemma build_memory :
  Sto_Backend (C_Storage cfg) = BackendMemory →
  match run_steps cfg (build_table out) (empty_app m) with
  | Ok a => shaped cfg m a
  | Err _ => refused out cfg m
  end.
Proof.
  intros Hb. assert (Hp : on_postgres cfg = false)
    by (unfold on_postgres; rewrite Hb; done).
  unfold build_table. simpl. unfold buildObservability.
  destruct (tracing_New out) eqn:Ht; [left; by rewrite Ht|]. simpl.
  unfold buildStorage, newRepository. rewrite decide_True by done. simpl.
  unfold newIdempotency, newGuards, buildAPI, newAPIServer, buildQueue, registerCollectors, buildAdmin.
  destruct (I_Enabled (C_Idempotency cfg)) eqn:Hi; simpl;
    (destruct (Runs m) eqn:Hr; simpl;
     [destruct (NewHandler out) eqn:Hn; simpl; [right; right; left; by rewrite Hn|]|]);
    rewrite orb_true_r; simpl; (split; simpl; rewrite ?Hp, ?Hi, ?Hr, ?andb_false_r; try done);
    unfold inflightLimit; by destruct (RL_Enabled _).
Qed.

Lemma build_postgres :
  Sto_Backend (C_Storage cfg) = BackendPostgres →
  match run_steps cfg (build_table out) (empty_app m) with
  | Ok a => shaped cfg m a
  | Err _ => refused out cfg m
  end.
Proof.
  intros Hb. assert (Hp : on_postgres cfg = true)
    by (unfold on_postgres; rewrite Hb; done).
  unfold build_table. simpl. unfold buildObservability.
  destruct (tracing_New out) eqn:Ht; [left; by rewrite Ht|]. simpl.
  unfold buildStorage, newRepository. rewrite decide_False by (rewrite Hb; discriminate).
  rewrite decide_True by done. cbn [mode].
  destruct (OpenTraced out (pool_role m)) eqn:Ho; simpl; [right; left; by rewrite Ho|].
  unfold newIdempotency, newGuards, buildAPI, newAPIServer, buildQueue, registerCollectors,
    register_one, buildAdmin.
  destruct (I_Enabled (C_Idempotency cfg)) eqn:Hi; simpl;
    (destruct (Runs m) eqn:Hr; simpl;
     [destruct (NewHandler out) eqn:Hn; simpl; [right; right; left; by rewrite Hn|]|]);
    (destruct (Consumes m) eqn:Hc; simpl; rewrite ?newQueue_Ok; simpl;
     (destruct (Register out "pool") eqn:Hrp; simpl; [right; right; right; split; [done|]; left; by rewrite Hrp|]);
     rewrite ?Hc; simpl;
     try (destruct (Register out "queue") eqn:Hrq; simpl;
          [right; right; right; split; [done|]; right; split; [done|]; by rewrite Hrq|]));
    (split; simpl; rewrite ?Hp, ?Hi, ?Hr, ?Hc, ?andb_false_r; try done);
    unfold inflightLimit; try (by destruct (RL_Enabled _)); simpl; naive_solver.
Qed.

Lemma New_shape :
  Validate cfg = None → m ∈ [ModeServe; ModeWorker; ModeAll] →
  match New out (mkOptions m (Some cfg) true) with
  | Ok a => shaped cfg m a
  | Err _ => refused out cfg m
  end.
Proof.
  intros Hv Hm. apply Validate_spec in Hv. pose proof (co_backend cfg Hv) as Hb.
  unfold New, validate. cbn [o_Config o_Logger o_Mode negb]. rewrite decide_True by done.
  apply elem_of_cons in Hb as [Hb|Hb]; [by apply build_memory|].
  apply list_elem_of_singleton in Hb. by apply build_postgres.
Qed.
End start.

(** The rows of the table that have a [Stop], by name. *)
Definition stop_order (a : App) : list string :=
  ["readiness"] ++ opt (bool_decide (is_Some (apiServer a))) ["api"]
  ++ opt (bool_decide (is_Some (jobs a))) ["queue-workers"] ++ ["admin"; "tracing"].

Definition named (ws : list Worker) (i : nat) : string :=
  match ws !! i with Some w => Name w | None => "" end.

Lemma stoppable_names (ws : list Worker) (n : nat) :
  (n ≤ length ws)%nat →
  named ws <$> stoppable ws n = Name <$> filter (λ w, HasStop w = true) (take n ws).
Proof.
  induction n as [|n IH]; intros Hn; [done|].
  destruct (ws !! n) as [w|] eqn:Hw; [|apply lookup_ge_None in Hw; lia].
  rewrite (stoppable_S ws n w Hw), (take_S_r _ _ _ Hw), fmap_app, filter_app, fmap_app, IH by lia.
  f_equal. rewrite filter_cons, filter_nil. unfold named.
  destruct (HasStop w); simpl; [by rewrite Hw|done].
Qed.

Lemma stop_order_table (a : App) :
  Name <$> filter (λ w, HasStop w = true) (workers a) = stop_order a.
Proof.
  unfold workers, stop_order, opt.
  by destruct (bool_decide (is_Some (apiServer a))), (bool_decide (is_Some (jobs a))),
    (keysPurge a), (limiter a).
Qed.

Lemma filter_take_prefix {A} (P : A → Prop) `{∀ x, Decision (P x)} (l : list A) (n : nat) :
  filter P (take n l) `prefix_of` filter P l.
Proof. exists (filter P (drop n l)). by rewrite <- filter_app, take_drop. Qed.

(** ** Properties *)

(** C28: a valid configuration starts, whatever the mode, unless the outside refuses: the
    tracer, the database, the transcoder or the metric registry, each only where it is
    used.  What starts is what was asked for: the key store is in the same backend as
    the tasks, the public listener runs exactly in the serving modes, the queue exactly
    where it consumes and has a database, and every listener has all four timeouts. *)
Theorem start_exact `{GoText} (out : Outside) (cfg : Config) (m : Mode) :
  Validate cfg = None → m ∈ [ModeServe; ModeWorker; ModeAll] →
  match New out (mkOptions m (Some cfg) true) with
  | Ok a =>
      shaped cfg m a
      ∧ (∀ s, apiServer a = Some s ∨ adminServer a = Some s → timed s)
  | Err _ => refused out cfg m
  end.
Proof.
  intros Hv Hm. pose proof (New_shape out cfg m Hv Hm) as Hb. apply Validate_spec in Hv.
  destruct (New out _) as [a|e]; [|done]. split; [done|].
  pose proof (newHTTPServer_timed _ (co_http cfg Hv)) as Ht.
  intros s [Hs|Hs]; [rewrite (sh_api _ _ _ Hb) in Hs|rewrite (sh_admin _ _ _ Hb) in Hs].
  - destruct (Runs m); [|done]. by injection Hs as <-.
  - injection Hs as <-. exact Ht.
Qed.

(** C27: the process drains in the order its table gives.  Whatever the workers, the signal
    and the clock do, the [Stop]s called so far, the one being waited for included, are an initial part of: readiness, the
    public listener, the queue's workers, the admin listener, tracing - the listener
    only where the mode serves, the queue only where it consumes a database; and the
    context of all workers is cancelled only after the last of them has returned, so also
    after the tracer has been flushed and closed. *)
Theorem process_drains `{GoText} (out : Outside) (cfg : Config) (m : Mode) (a : App) (grace t : Z)
  (s : state) :
  New out (mkOptions m (Some cfg) true) = Ok a → Validate cfg = None → m ∈ [ModeServe; ModeWorker; ModeAll] →
  rtc (step (workers a) grace) (initial t) s →
  let called := named (workers a) <$> called s in
  let answered := named (workers a) <$> (stops s).*1 in
  let order := ["readiness"] ++ opt (Runs m) ["api"]
               ++ opt (Consumes m && on_postgres cfg) ["queue-workers"] ++ ["admin"; "tracing"] in
  answered `prefix_of` called ∧ called `prefix_of` order
  ∧ (cancelled s = true → answered = order).
Proof.
  intros Hnew Hv Hm Hr. assert (Hsh : shaped cfg m a).
  { pose proof (New_shape out cfg m Hv Hm) as Hx. by rewrite Hnew in Hx. }
  pose proof (reachable_inv (workers a) grace t s Hr) as Hi.
  assert (Ho : stop_order a = ["readiness"] ++ opt (Runs m) ["api"]
               ++ opt (Consumes m && on_postgres cfg) ["queue-workers"] ++ ["admin"; "tracing"]).
  { unfold stop_order. rewrite (sh_api _ _ _ Hsh), (bool_decide_ext _ _ (sh_jobs _ _ _ Hsh)).
    by destruct (Runs m), (Consumes m), (on_postgres cfg). }
  simpl in Ho |- *. rewrite <- Ho, <- stop_order_table.
  split; [unfold called; rewrite fmap_app; by eexists|]. split.
  - destruct (called_in_order _ _ s Hi) as (n & Hn & -> & _). rewrite stoppable_names by done.
    destruct (filter_take_prefix (λ w, HasStop w = true) (workers a) n) as [l Hl].
    exists (Name <$> l). by rewrite <- fmap_app, <- Hl.
  - rewrite (inv_stops _ _ s Hi), stoppable_names by apply Hi.
    rewrite (inv_cancelled _ _ s Hi). unfold past_drain, position.
    destruct (pc s); try done; intros _; by rewrite firstn_all.
Qed.

(** A configuration that loads and validates always boots: the logger has no complaint
    about its level or its format, so nothing after validation can fail. *)
Lemma boot_exact `{GoText, ConfigLoad.Koanf, ConfigLoad.Decoder} (fs : ConfigLoad.files) (d : Config)
  (o : ConfigLoad.Options) (isTerminal : bool) (version : string) :
  match ConfigLoad.Load fs d o with
  | Err e => boot fs d o isTerminal version = Err e
  | Ok res =>
      match Validate (ConfigLoad.r_Config res) with
      | Some e => boot fs d o isTerminal version = Err e
      | None => ∃ log, boot fs d o isTerminal version
                       = Ok (mkBooted (ConfigLoad.r_Config res) log (ConfigLoad.r_File res))
          ∧ Logging.ParseLevel (Log_Level (C_Logging (ConfigLoad.r_Config res))) = Ok (Logging.lvl log)
          ∧ Logging.throttled log = true
      end
  end.
Proof.
  unfold boot. destruct (ConfigLoad.Load fs d o) as [res|e]; [|done].
  destruct (Validate _) as [e|] eqn:Hv; [done|]. apply Validate_spec in Hv.
  pose proof (co_logging _ Hv) as [Hl Hf]. destruct res as [cfg file ws]. simpl in *.
  destruct (LoggingProps.checkLevel_parses (Log_Level (C_Logging cfg))) as [l Hp];
    [unfold checkLevel; by rewrite decide_True|].
  unfold Logging.New, Logging.resolveLevel, Logging.newBackend. simpl.
  assert (Hr : ∃ f, Logging.resolveFormat (Log_Format (C_Logging cfg)) isTerminal = Ok f).
  { repeat (apply elem_of_cons in Hf as [->|Hf]; [eexists; vm_compute; reflexivity|]).
    by apply elem_of_nil in Hf. }
  destruct Hr as [f ->]. rewrite Hp.
  assert (Hne : Log_Level (C_Logging cfg) ≠ "").
  { intros He. rewrite He in Hl. revert Hl. apply (bool_decide_unpack _). vm_compute. exact I. }
  rewrite decide_False by done. simpl. eexists. split; [reflexivity|].
  unfold Logging.withBaseAttrs. repeat case_decide; done.
Qed.

(** ** The default configuration on a database, in one process *)

Definition pg_config : Config :=
  let d := Defaults ConfigProps.host in
  let p := Sto_Postgres (C_Storage d) in
  mkConfig (C_Service d) (C_Logging d) (C_HTTP d) (C_Admin d)
    (mkStorage BackendPostgres
       (mkPostgres "postgres://db/tasks" (Pg_MaxConns p) (Pg_MinConns p) (Pg_MaxConnLifetime p)
          (Pg_MaxConnIdleTime p) (Pg_HealthCheckPeriod p) (Pg_ConnectTimeout p)
          (Pg_StatementTimeout p) (Pg_IdleInTransactionSessionTimeout p) (Pg_LockTimeout p)))
    (C_Queue d) (C_Idempotency d) (C_Auth d) (C_RateLimit d) (C_Breaker d) (C_Webhook d)
    (C_Observability d).

Lemma pg_config_valid : Validate (H := ConfigProps.plain_text) pg_config = None.
Proof. vm_compute. reflexivity. Qed.

Definition willing : Outside := mkOutside None (λ _, None) None (λ _, None) 7 "0123456789".

Definition pg_app : App :=
  match New (H := ConfigProps.plain_text) willing (mkOptions ModeAll (Some pg_config) true) with
  | Ok a => a
  | Err _ => empty_app ModeAll
  end.

Lemma pg_app_built :
  New (H := ConfigProps.plain_text) willing (mkOptions ModeAll (Some pg_config) true) = Ok pg_app.
Proof. vm_compute. reflexivity. Qed.

Lemma start_exact_witness :
  match New (H := ConfigProps.plain_text) willing (mkOptions ModeAll (Some pg_config) true) with
  | Ok a => keys a = Some PostgresKeys ∧ is_Some (jobs a) ∧ is_Some (apiServer a)
  | Err _ => False
  end.
Proof.
  pose proof (start_exact (H := ConfigProps.plain_text) willing pg_config ModeAll pg_config_valid) as Hs.
  rewrite pg_app_built in Hs |- *. destruct Hs as [Hsh _]; [vm_decide|].
  split; [exact (sh_keys _ _ _ Hsh)|]. split; [by apply (sh_jobs _ _ _ Hsh)|].
  rewrite (sh_api _ _ _ Hsh). eexists. reflexivity.
Defined.

(** A signal, and a shutdown in which every worker hangs. *)
Definition drained : state :=
  drive (workers pg_app) (20 * second) (λ _, 0) (λ _, (second, None)) 30
    (mkState Waiting newFailureSet ∅ [] true false 0).

Lemma drained_reachable : rtc (step (workers pg_app) (20 * second)) (initial 0) drained.
Proof.
  eapply rtc_l; [apply step_env, (env_signal (workers pg_app) (initial 0))|].
  apply (tsteps_steps _ _ (λ _, 0)), drive_returns; [|reflexivity|vm_compute; lia].
  eapply (reachable_inv _ _ 0), rtc_once, step_env, (env_signal (workers pg_app) (initial 0)).
Qed.

Lemma process_drains_witness :
  named (workers pg_app) <$> (stops drained).*1
  = ["readiness"; "api"; "queue-workers"; "admin"; "tracing"]
  ∧ pc drained = Returned (Some (timed_out (20 * second))).
Proof.
  split; [|vm_compute; reflexivity].
  destruct (process_drains (H := ConfigProps.plain_text) willing pg_config ModeAll pg_app (20 * second) 0
           drained pg_app_built pg_config_valid) as (_ & _ & Hall); [vm_decide|apply drained_reachable|].
  apply Hall. vm_compute. reflexivity.
Defined.

(** Every other worker is still running when the tracer has been shut down: the maintenance
    and the purge stop only with the context, which is cancelled afterwards. *)
Example tracing_closes_before_the_loops_stop :
  ∃ s, rtc (step (workers pg_app) (20 * second)) (initial 0) s
    ∧ (λ i, named (workers pg_app) i) <$> (stops s).*1
      = ["readiness"; "api"; "queue-workers"; "admin"; "tracing"]
    ∧ cancelled s = false ∧ outcomes s = ∅.
Proof.
  exists (drive (workers pg_app) (20 * second) (λ _, 0) (λ _, (0, None)) 17
            (mkState Waiting newFailureSet ∅ [] true false 0)).
  split; [|vm_compute; done].
  eapply rtc_l; [apply step_env, (env_signal (workers pg_app) (initial 0))|].
  do 17 (eapply rtc_l; [eapply (step_main _ _ None true); vm_compute; reflexivity|]).
  vm_compute. apply rtc_refl.
Qed.
