(* ===== verification/Commands.v ===== *)
(** * The command line (src/cmd/taskapi/main.go, src/internal/cli, src/internal/buildinfo,
    src/internal/config/flags.go)

    The flags, the build data, and the commands besides the run modes, which are
    [App.runMode].  What the outside answers - loading, the HTTP client, the JSON encoder -
    is an argument; what is printed is a result, and printing does not fail. *)
From stdpp Require Import options.
From S2P Require Import Prelude GoStrings GoDuration Apperr ConfigBase ConfigSections ConfigReload ConfigLoad.
From S2P Require Import Migrate.
From S2P Require App Auth ConfigProps Logging Runner Admin.
From Stdlib Require Import Ascii.
Open Scope Z_scope.

(** ** buildinfo.go *)

Record vars : Type := mkVars { version : string; commit : string; date : string; goVersion : string }.

Definition initial (runtime_Version : string) : vars := mkVars "dev" "none" "unknown" runtime_Version.

Definition or_default (s def : string) : string := if decide (s = "") then def else s.

(** One VCS stamp of [debug.ReadBuildInfo]. *)
Definition stamp (b : vars) (kv : string * string) : vars :=
  if decide (kv.1 = "vcs.revision") then
    if 7 <=? len kv.2 then mkVars (version b) (String.substring 0 7 kv.2) (date b) (goVersion b) else b
  else if decide (kv.1 = "vcs.time") then
    if decide (date b = "unknown") then mkVars (version b) (commit b) kv.2 (goVersion b) else b
  else b.

(** [info] is what [ReadBuildInfo] gives: the settings in order, or nothing. *)
Definition Set_ (v c d : string) (info : option (list (string * string))) (b : vars) : vars :=
  let b := mkVars (or_default v (version b)) (or_default c (commit b)) (or_default d (date b)) (goVersion b) in
  if decide (commit b = "none") then
    match info with Some settings => foldl stamp b settings | None => b end
  else b.

Record Info : Type := mkInfo {
  i_Version : string; i_Commit : string; i_Date : string; i_GoVersion : string; i_Platform : string }.

Definition Get (GOOS GOARCH : string) (b : vars) : Info :=
  mkInfo (version b) (commit b) (date b) (goVersion b) (GOOS +:+ "/" +:+ GOARCH)%string.

Definition Version (b : vars) : string := version b.

Definition Info_String (i : Info) : string :=
  ("taskapi " +:+ i_Version i +:+ " (commit " +:+ i_Commit i +:+ ", built " +:+ i_Date i +:+ ", "
   +:+ i_GoVersion i +:+ ", " +:+ i_Platform i +:+ ")")%string.

(** ** flags.go *)

Definition FlagConfig : string := "config".
Definition FlagPrintConfig : string := "print-config".
Definition FlagSet : string := "set".

(** A declared flag: its name, its one-letter form, and its default. *)
Inductive default_value : Type :=
  | DString (s : string) | DBool (b : bool) | DInt (n : Z) | DDuration (d : Z) | DStrings.

Definition declared : Type := string * string * default_value.

(** The flags that are no configuration paths, and those that are. *)
Definition own_flags : list declared :=
  [(FlagConfig, "", DString ""); (FlagPrintConfig, "", DBool false); (FlagDebug, "v", DBool false);
   (FlagTrace, "", DBool false); (FlagSet, "", DStrings)].

Definition path_flags (d : Config) : list declared :=
  [("logging.level", "", DString (Log_Level (C_Logging d)));
   ("logging.format", "", DString (Log_Format (C_Logging d)));
   ("http.addr", "", DString (H_Addr (C_HTTP d)));
   ("http.shutdown_grace", "", DDuration (H_ShutdownGrace (C_HTTP d)));
   ("http.trusted_proxy_hops", "", DInt (H_TrustedProxyHops (C_HTTP d)));
   ("admin.addr", "", DString (A_Addr (C_Admin d)));
   ("storage.backend", "", DString (Sto_Backend (C_Storage d)));
   ("storage.postgres.dsn", "", DString (Pg_DSN (Sto_Postgres (C_Storage d))));
   ("queue.workers", "", DInt (Q_Workers (C_Queue d)));
   ("queue.max_attempts", "", DInt (Q_MaxAttempts (C_Queue d)));
   ("auth.mode", "", DString (Au_Mode (C_Auth d)));
   ("ratelimit.enabled", "", DBool (RL_Enabled (C_RateLimit d)));
   ("webhook.url", "", DString (W_URL (C_Webhook d)))].

Definition RegisterFlags (d : Config) : list declared := own_flags ++ path_flags d.

(** [Lookup] in a parsed set. *)
Definition Lookup (fs : list Flag) (name : string) : option Flag :=
  snd <$> list_find (λ f, f_name f = name) fs.

Definition changed (fs : list Flag) (name : string) : bool :=
  match Lookup fs name with Some f => f_changed f | None => false end.

(** A flag set may be absent. *)
Definition FilePath (fs : option (list Flag)) : string :=
  match fs ≫= λ fs, Lookup fs FlagConfig with Some f => f_value f | None => "" end.

Definition PrintConfigRequested (fs : option (list Flag)) : bool :=
  match fs ≫= λ fs, Lookup fs FlagPrintConfig with
  | Some f => bool_decide (f_value f = "true")
  | None => false
  end.

(** ** net/url, as far as an address is printed *)

Definition alphanumeric (c : ascii) : bool :=
  let n := nat_of_ascii c in
  ((48 <=? n) && (n <=? 57) || (65 <=? n) && (n <=? 90) || (97 <=? n) && (n <=? 122))%nat.

Definition one_of (cs : string) (c : ascii) : bool := contains_byte c cs.

Definition double_quote : ascii := ascii_of_nat 34.

Definition kept_in_path (c : ascii) : bool := alphanumeric c || one_of "-_.~$&+,/:;=@" c.
Definition kept_in_host (c : ascii) : bool :=
  alphanumeric c || one_of "-_.~!$&'()*+,;=:[]<>" c || bool_decide (c = double_quote).

Definition upper_hex (n : nat) : ascii := ascii_of_nat (if (n <? 10)%nat then 48 + n else 55 + n).

Fixpoint url_escape (keep : ascii → bool) (s : string) : string :=
  match s with
  | EmptyString => EmptyString
  | String c s =>
      if keep c then String c (url_escape keep s)
      else let n := nat_of_ascii c in
           String "%" (String (upper_hex (n / 16)) (String (upper_hex (n mod 16)) (url_escape keep s)))
  end.

(** [url.URL.String] of a scheme, a host that is not empty, and a path. *)
Definition url_String (scheme host path : string) : string :=
  let p := if decide (path = "*") then "*" else url_escape kept_in_path path in
  let p := match p with
           | EmptyString => p
           | String c _ => if decide (c = "/"%char) then p else ("/" +:+ p)%string
           end in
  (scheme +:+ "://" +:+ url_escape kept_in_host host +:+ p)%string.

Definition JoinHostPort (host port : string) : string :=
  if contains_byte ":" host then ("[" +:+ host +:+ "]:" +:+ port)%string
  else (host +:+ ":" +:+ port)%string.

(** ** print.go: what [Redacted] leaves, rendered

    [encode] and [close] are the YAML encoder's, [marshal] the one-shot form. *)

Definition WriteYAML (encode : Config → option err) (close : option err) (c : Config) : option err :=
  match encode (Redacted c) with
  | Some e => Some (EWrap "render config: " e "")
  | None => close
  end.

Definition config_String (marshal : Config → result err string) (c : Config) : string :=
  match marshal (Redacted c) with
  | Ok s => s
  | Err e => ("<unrenderable config: " +:+ err_text e +:+ ">")%string
  end.

(** ** healthcheck.go *)

Definition nl : string := String (ascii_of_nat 10) EmptyString.

Section commands.
Context `{GoText}.

(** The host and the port dialled for a listen address. *)
Definition dialled (host : string) : string :=
  if decide (host ∈ [""; "0.0.0.0"; "::"; "[::]"]) then "127.0.0.1" else host.

(** [why] is the text of [SplitHostPort]'s error. *)
Definition probeURL (why : err) (addr endpoint : string) : result err string :=
  match split_host_port addr with
  | None => Err (EWrap ("admin.addr " +:+ Quote addr +:+ ": ")%string why "")
  | Some (host, port) => Ok (url_String "http" (JoinHostPort (dialled host) port) endpoint)
  end.

(** [request] is what building the request answers, [do] what sending it does. *)
Definition healthcheck (loaded : result err ConfigLoad.Result) (why : err) (endpoint : string)
  (request : string → option err) (do_ : string → result err Z) : option err * string :=
  match loaded with
  | Err e => (Some e, "")
  | Ok res =>
      match probeURL why (A_Addr (C_Admin (r_Config res))) endpoint with
      | Err e => (Some e, "")
      | Ok target =>
          match request target with
          | Some e => (Some e, "")
          | None =>
              match do_ target with
              | Err e => (Some (EWrap ("probe " +:+ target +:+ ": ")%string e ""), "")
              | Ok status =>
                  if status =? 200 then (None, ("ok" +:+ nl)%string)
                  else (Some (ENew ("probe " +:+ target +:+ ": status " +:+ itoa status)%string), "")
              end
          end
      end
  end.

(** ** migrate.go *)

Definition migrationDSN (loaded : result err ConfigLoad.Result) : result err string :=
  match loaded with
  | Err e => Err e
  | Ok res =>
      let dsn := Pg_DSN (Sto_Postgres (C_Storage (r_Config res))) in
      if decide (dsn = "")
      then Err (ENew ("no database configured; set " +:+ EnvName "storage.postgres.dsn")%string)
      else Ok dsn
  end.

Definition print_bool (b : bool) : string := if b then "true" else "false".
Definition status_line (st : Status) : string :=
  ("version=" +:+ itoa (Migrate.Version st) +:+ " dirty=" +:+ print_bool (Dirty st)
   +:+ " pending=" +:+ itoa (Pending st) +:+ nl)%string.

Section migrate.
Context {DB : Type} `{!Migrator DB}.

Definition report (dsn msg : string) (db : DB) : option err * string :=
  match MigrateStatus dsn db with
  | Err e => (Some e, "")
  | Ok st => (None, (msg +:+ ": " +:+ status_line st)%string)
  end.

Definition migrate_up (loaded : result err ConfigLoad.Result) (db : DB) : option err * string * DB :=
  match migrationDSN loaded with
  | Err e => (Some e, "", db)
  | Ok dsn =>
      match MigrateUp dsn db with
      | (Some e, db) => (Some e, "", db)
      | (None, db) => (report dsn "schema is up to date" db, db)
      end
  end.

Definition migrate_down (confirm : bool) (loaded : result err ConfigLoad.Result) (db : DB)
  : option err * string * DB :=
  if negb confirm then (Some (ENew "rolling back drops data; pass --yes to confirm"), "", db)
  else
    match migrationDSN loaded with
    | Err e => (Some e, "", db)
    | Ok dsn =>
        match MigrateDown dsn db with
        | (Some e, db) => (Some e, "", db)
        | (None, db) => (report dsn "rolled back one migration" db, db)
        end
    end.

(** [encode] is the JSON encoder. *)
Definition migrate_status (asJSON : bool) (encode : Status → string)
  (loaded : result err ConfigLoad.Result) (db : DB) : option err * string :=
  match migrationDSN loaded with
  | Err e => (Some e, "")
  | Ok dsn =>
      match MigrateStatus dsn db with
      | Err e => (Some e, "")
      | Ok st => (None, if asJSON then encode st else status_line st)
      end
  end.
End migrate.

(** ** version.go *)

Definition version_command (asJSON : bool) (encode : Info → string) (info : Info) : string :=
  if asJSON then encode info else (Info_String info +:+ nl)%string.
End commands.

(** ** root.go and main.go *)

(** The names of the subcommands, and the mode of those that run. *)
Definition subcommands : list string := ["serve"; "worker"; "all"; "migrate"; "version"; "healthcheck"].

Definition mode_of (name : string) : option App.Mode :=
  if decide (name = "serve") then Some App.ModeServe
  else if decide (name = "worker") then Some App.ModeWorker
  else if decide (name = "all") then Some App.ModeAll else None.

Definition exit_status (e : option err) : Z := match e with Some _ => 1 | None => 0 end.

(** The build data is set before the command runs; [v], [c] and [d] are what the linker
    stamped. *)
Definition main (v c d : string) (info : option (list (string * string))) (b : vars)
  (execute : vars → option err) : Z :=
  let b := Set_ v c d info b in exit_status (execute b).

(** ** Facts *)

(** Every flag that is a path names a known key, and the default it prints is the one the
    bottom layer has. *)
Definition agrees (v : val) (d : default_value) : Prop :=
  match v, d with
  | VStr s, DString s' => s = s'
  | VInt n, DInt n' => n = n'
  | VBool b, DBool b' => b = b'
  | VDur d, DDuration d' => d = d'
  | _, _ => False
  end.

Lemma flags_agree (d : Config) :
  Forall (λ f : declared, ∃ v, flatten d !! f.1.1 = Some v ∧ agrees v f.2) (path_flags d)
  ∧ NoDup (RegisterFlags d).*1.*1
  ∧ (∀ f, f ∈ own_flags → f.1.1 ∉ keys).
Proof.
  split_and!.
  - repeat constructor; eexists; (split; [rewrite ConfigProps.lookup_flatten; reflexivity|done]).
  - vm_decide.
  - apply Forall_forall. vm_decide.
Qed.

(** *** Printing *)

Definition set_dsn (dsn : string) (c : Config) : Config :=
  let pg := Sto_Postgres (C_Storage c) in
  mkConfig (C_Service c) (C_Logging c) (C_HTTP c) (C_Admin c)
    (mkStorage (Sto_Backend (C_Storage c))
       (mkPostgres dsn (Pg_MaxConns pg) (Pg_MinConns pg) (Pg_MaxConnLifetime pg)
          (Pg_MaxConnIdleTime pg) (Pg_HealthCheckPeriod pg) (Pg_ConnectTimeout pg)
          (Pg_StatementTimeout pg) (Pg_IdleInTransactionSessionTimeout pg) (Pg_LockTimeout pg)))
    (C_Queue c) (C_Idempotency c) (C_Auth c) (C_RateLimit c) (C_Breaker c) (C_Webhook c)
    (C_Observability c).

(** The connection string cannot be read off what is printed: any two print alike. *)
Lemma dsn_not_printed (encode : Config → option err) (close : option err)
  (marshal : Config → result err string) (c : Config) (dsn dsn' : string) :
  dsn ≠ "" → dsn' ≠ "" →
  WriteYAML encode close (set_dsn dsn c) = WriteYAML encode close (set_dsn dsn' c)
  ∧ config_String marshal (set_dsn dsn c) = config_String marshal (set_dsn dsn' c).
Proof.
  intros H1 H2. assert (Hr : Redacted (set_dsn dsn c) = Redacted (set_dsn dsn' c)).
  { unfold Redacted, set_dsn. simpl. by rewrite !decide_False by done. }
  unfold WriteYAML, config_String. by rewrite Hr.
Qed.

(** Nothing else is masked: credentials in the webhook's address are printed as they are. *)
Lemma webhook_url_printed (c : Config) : W_URL (C_Webhook (Redacted c)) = W_URL (C_Webhook c).
Proof. done. Qed.

(** *** Addresses *)

Lemma cut_last_app (c : ascii) (s t : string) :
  contains_byte c t = false → cut_last c (s +:+ String c t) = Some (s, t).
Proof.
  intros Ht. assert (Hno : cut_last c t = None).
  { revert Ht. induction t as [|a t IH]; intros Ht; [done|]. simpl in *.
    apply orb_false_iff in Ht as [Ha Ht]. rewrite IH by done. zbool. by rewrite decide_False. }
  induction s as [|a s IH].
  - rewrite string_app_nil_l. simpl. rewrite Hno. by rewrite decide_True.
  - rewrite string_app_cons. simpl. by rewrite IH.
Qed.

Definition no_brackets (s : string) : Prop := contains_byte "[" s = false ∧ contains_byte "]" s = false.

(** Splitting undoes joining, for a host with colons too. *)
Lemma split_join (host port : string) :
  no_brackets host → no_brackets port → contains_byte ":" port = false →
  split_host_port (JoinHostPort host port) = Some (host, port).
Proof.
  intros [Hh1 Hh2] [Hp1 Hp2] Hp. unfold JoinHostPort, split_host_port.
  destruct (contains_byte ":" host) eqn:Hc.
  - replace ("[" +:+ host +:+ "]:" +:+ port)%string
      with (String "[" (host +:+ String "]" "") +:+ String ":" port)%string
      by (rewrite string_app_cons, string_app_assoc; done).
    rewrite cut_last_app by done. simpl. destruct (host +:+ String "]" "")%string eqn:He.
    + by destruct host.
    + rewrite <- He, cut_app by done. by rewrite Hh1, Hp1, Hp2.
  - change (host +:+ ":" +:+ port)%string with (host +:+ String ":" port)%string.
    rewrite cut_last_app by done. destruct (cut_prefix "[" host) as [r|] eqn:Hpre.
    + apply cut_prefix_Some in Hpre. subst. by rewrite string_app_cons in Hh1.
    + by rewrite Hc, Hh1, Hh2, Hp1, Hp2.
Qed.

(** The host of a split address is never bracketed, so the last case of [dialled] never
    applies. *)
Lemma split_no_bracket (addr host port : string) :
  split_host_port addr = Some (host, port) → no_brackets host ∧ no_brackets port.
Proof.
  unfold split_host_port, no_brackets. destruct (cut_last ":" addr) as [[before p]|]; [|done].
  destruct (cut_prefix "[" before) as [inner|].
  - destruct (cut "]" inner) as [[h [|c t]]|] eqn:Hcut; try done. case_match eqn:Hb; [|done].
    intros [= <- <-]. split_all. repeat match goal with H : negb _ = true |- _ => apply negb_true_iff in H end.
    split_and!; try done. by apply cut_Some in Hcut as [_ ?].
  - case_match eqn:Hb; [|done]. intros [= <- <-]. split_all.
    repeat match goal with H : negb _ = true |- _ => apply negb_true_iff in H end. done.
Qed.

Fixpoint all_kept (keep : ascii → bool) (s : string) : bool :=
  match s with EmptyString => true | String c s => keep c && all_kept keep s end.

Lemma url_escape_kept (keep : ascii → bool) (s : string) : all_kept keep s = true → url_escape keep s = s.
Proof. induction s as [|c s IH]; intros Hs; [done|]. simpl in *. split_all. by rewrite H, IH. Qed.

Lemma all_kept_app (keep : ascii → bool) (s t : string) :
  all_kept keep (s +:+ t) = all_kept keep s && all_kept keep t.
Proof. induction s as [|c s IH]; [done|]. rewrite string_app_cons. simpl. by rewrite IH, andb_assoc. Qed.

(** The probe of a listen address: the readiness endpoint at its port, on the loopback
    interface when the address stands for every interface and on its host otherwise; and
    what is dialled splits back into just that. *)
Lemma probe_target `{GoText} (why : err) (addr host port : string) :
  split_host_port addr = Some (host, port) → contains_byte ":" port = false →
  all_kept kept_in_host host = true → all_kept kept_in_host port = true →
  probeURL why addr "/readyz" = Ok ("http://" +:+ JoinHostPort (dialled host) port +:+ "/readyz")%string
  ∧ split_host_port (JoinHostPort (dialled host) port) = Some (dialled host, port)
  ∧ dialled host ∉ [""; "0.0.0.0"; "::"].
Proof.
  intros Hs Hp Hkh Hkp. pose proof (split_no_bracket _ _ _ Hs) as [Hnh Hnp].
  assert (Hd : no_brackets (dialled host) ∧ all_kept kept_in_host (dialled host) = true
               ∧ dialled host ∉ [""; "0.0.0.0"; "::"]).
  { unfold dialled. case_decide as Hin; [by split_and!; try vm_decide|]. split_and!; try done.
    intros Hn. apply Hin. set_solver. }
  destruct Hd as (Hdn & Hdk & Hdw). split_and!; [|by apply split_join|done].
  unfold probeURL. rewrite Hs. unfold url_String. rewrite url_escape_kept; [done|].
  unfold JoinHostPort. case_match; rewrite !all_kept_app, Hdk, Hkp; done.
Qed.

(** The probe succeeds exactly when the endpoint answers 200. *)
Lemma healthy_iff `{GoText} (loaded : result err ConfigLoad.Result) (why : err) (endpoint : string)
  (request : string → option err) (do_ : string → result err Z) :
  exit_status (healthcheck loaded why endpoint request do_).1 = 0 ↔
  ∃ res target, loaded = Ok res ∧ probeURL why (A_Addr (C_Admin (r_Config res))) endpoint = Ok target
    ∧ request target = None ∧ do_ target = Ok 200.
Proof.
  unfold healthcheck. split.
  - repeat (case_match; simpl; try done). zbool. subst. eauto 10.
  - intros (res & target & -> & -> & -> & ->). done.
Qed.

(** *** Migrations *)

(** Without confirmation nothing is touched, whatever the configuration. *)
Lemma down_needs_yes {DB : Type} `{!Migrator DB} (loaded : result err ConfigLoad.Result) (db : DB) :
  (migrate_down false loaded db).2 = db ∧ is_Some (migrate_down false loaded db).1.1.
Proof. by split; [|eexists]. Qed.

(** A successful [migrate up] says where the schema ended up: at the last version, clean,
    with nothing pending. *)
Lemma up_reports {DB : Type} `{!Migrator DB} (last_version : Z) `{!MigratorLaws DB last_version}
  (loaded : result err ConfigLoad.Result) (db db' : DB) (out : string) :
  (∀ name v, name ∈ FS → upMigrationVersion name = Some v → v ≤ last_version) →
  migrate_up loaded db = (None, out, db') →
  out = ("schema is up to date: " +:+ status_line (mkStatus last_version false 0))%string.
Proof.
  intros Hlast. unfold migrate_up, report. destruct (migrationDSN loaded) as [dsn|]; [|done].
  destruct (MigrateUp dsn db) as [[e|] db1] eqn:Hup; [done|].
  rewrite (up_leaves_nothing last_version dsn db db1 Hlast Hup). by intros [= <- <-].
Qed.

(** *** Build data *)

Lemma stamps_keep (settings : list (string * string)) (b : vars) :
  version (foldl stamp b settings) = version b
  ∧ (date b ≠ "unknown" → date (foldl stamp b settings) = date b).
Proof.
  revert b. induction settings as [|kv settings IH]; intros b; [done|]. simpl.
  destruct (IH (stamp b kv)) as [Hv Hd]. rewrite Hv. unfold stamp in *.
  repeat case_match; repeat case_decide; simpl in *; auto; try done.
Qed.

(** What the linker stamped wins; the VCS stamps only fill a commit it left out, and never
    replace a date it gave. *)
Lemma linked_wins (v c d : string) (info : option (list (string * string))) (b : vars) :
  (v ≠ "" → Version (Set_ v c d info b) = v)
  ∧ (c ∉ [""; "none"] → commit (Set_ v c d info b) = c)
  ∧ (d ∉ [""; "unknown"] → date (Set_ v c d info b) = d).
Proof.
  unfold Set_, Version. set (b1 := mkVars _ _ _ _).
  assert (H1 : (v ≠ "" → version b1 = v) ∧ (c ∉ [""; "none"] → commit b1 = c)
               ∧ (d ∉ [""; "unknown"] → date b1 = d)).
  { unfold b1, or_default. simpl. split_and!; intros Hne; case_decide; subst; try done; set_solver. }
  destruct H1 as (Hv & Hc & Hd). case_decide as Hn; [|done]. destruct info as [settings|]; [|done].
  destruct (stamps_keep settings b1) as [Sv Sd]. split_and!; intros Hne.
  - rewrite Sv. auto.
  - rewrite Hc in Hn by done. subst. set_solver.
  - rewrite Sd; [auto|]. rewrite Hd by done. set_solver.
Qed.

Example go_installed :
  Info_String (Get "linux" "arm64" (Set_ "dev" "none" "unknown"
    (Some [("vcs.revision", "0123456789abcdef"); ("vcs.time", "2026-01-02T03:04:05Z")]) (initial "go1.25.0")))
  = "taskapi dev (commit 0123456, built 2026-01-02T03:04:05Z, go1.25.0, linux/arm64)".
Proof. vm_eq. Qed.

Example probes :
  let p addr := match @probeURL ConfigProps.plain_text (ENew "") addr "/readyz" with
                | Ok t => Some t | Err _ => None end in
  p <$> [":9090"; "[::]:9090"; "10.0.0.7:80"; "[fe80::1]:80"; "localhost"]
  = [Some "http://127.0.0.1:9090/readyz"; Some "http://127.0.0.1:9090/readyz";
     Some "http://10.0.0.7:80/readyz"; Some "http://[fe80::1]:80/readyz"; None].
Proof. intros p. vm_eq. Qed.

(** ** App.Run and the operator's surface (src/internal/app/app.go, observability.go) *)

Definition orNone (s : string) : string := if decide (s = "") then "<none>" else s.

(** The first line of a process; its version is among the logger's own attributes. *)
Definition starting (a : App.App) (info : Info) (instance backend configFile : string) : Logging.Record :=
  Logging.mkRecord Logging.LevelInfo "starting"
    [("mode", Logging.VString (App.mode a)); ("commit", Logging.VString (i_Commit info));
     ("go", Logging.VString (i_GoVersion info)); ("instance", Logging.VString instance);
     ("storage", Logging.VString backend); ("config_file", Logging.VString (orNone configFile));
     ("workers", Logging.VOther (itoa (Z.of_nat (length (App.workers a)))))].

(** [Run]: the line, then the workers of the table; [drive] is what they and the outside
    make of [runWorkers], given the grace. *)
Definition App_Run (cfg : Config) (a : App.App) (info : Info) (configFile : string)
  (drive : list Runner.Worker → Z → option err) : Logging.Record * option err :=
  (starting a info (Svc_Instance (C_Service cfg)) (Sto_Backend (C_Storage cfg)) configFile,
   drive (App.workers a) (H_ShutdownGrace (C_HTTP cfg))).

(** [debug]: what the admin listener mounts. *)
Definition debug (cfg : Config) (metrics_enabled : bool) : Admin.Debug :=
  Admin.mkDebug true true metrics_enabled (A_Pprof (C_Admin cfg)).

(** The configuration and the level are always there; profiles only when asked for, and
    never on the public port, whose routes are [Public.routes]. *)
Lemma debug_routes (cfg : Config) (m : bool) :
  "GET /debug/config" ∈ Admin.Mux (debug cfg m) ∧ "PUT /debug/log-level" ∈ Admin.Mux (debug cfg m)
  ∧ ("GET /metrics" ∈ Admin.Mux (debug cfg m) ↔ m = true)
  ∧ ("GET /debug/pprof/profile" ∈ Admin.Mux (debug cfg m) ↔ A_Pprof (C_Admin cfg) = true).
Proof.
  unfold Admin.Mux, Admin.register, debug, Admin.pprof_routes. simpl.
  destruct m, (A_Pprof (C_Admin cfg)); set_solver.
Qed.
